(* ===== verification/_CoqProject ===== *)
-Q . S2P
Prelude.v
Encoding.v
Core.v
Signing.v
Metadata.v
Leases.v
StateMachine.v
StateInvariant.v
ControlPlane.v
Lifecycle.v
Fences.v
RefCounts.v
Io.v
WindowsIo.v
Segment.v
Store.v
StoreInvariant.v
StorePut.v
StoreTheorems.v
StoreOpen.v
StoreCompact.v
Uring.v
UringTheorems.v
Expiry.v
Client.v
Durability.v
Codecs.v
Snapshot.v
LogStore.v
LogTheorems.v
Recovery.v
Manifest.v
ManifestTheorems.v
Scrub.v
ScrubTheorems.v
OnlineScrub.v
OnlineScrubTheorems.v
ScrubTask.v
Tiered.v
TieredCold.v
StoreRestart.v
Retention.v
RetentionTheorems.v
Repair.v
Api.v
Transport.v
Backup.v
BackupTheorems.v
Admission.v
Upload.v
Reclamation.v
UploadLogic.v
UploadTheorems.v
Grpc.v
RepairWalk.v
RepairTask.v
Front.v
NetAddr.v
Startup.v
StartupTheorems.v
HttpClient.v
GrpcClient.v
Cli.v
CliTheorems.v
Bench.v
Stress.v
Stats.v
StatsTheorems.v
