(* ===== verification/Prelude.v ===== *)
(** * KalpakDB: a verification library

    KalpakDB is a distributed cache of KV blocks.  Payloads are
    content-addressed blocks in append-only segment files on every node;
    metadata (agents, prefix bindings, upload leases, replica requirements) is
    a state machine replicated by Raft; the server process adds the HTTP and
    gRPC interfaces, upload admission and guards, replication of uploads,
    repair and scrubbing.  This library models the program's own logic in
    [crates/kalpak-core], [crates/kalpak-control], [crates/kalpak-storage],
    [crates/kalpakdb] and [crates/kalpak-client], one file per component, and
    proves what makes it correct.

    ** Conventions

    Pure functions are functions; code with [?] returns [res], whose third
    constructor [Panic] is a panic; code that mutates while it may fail is a
    state-passing computation [ST], which keeps the mutations made before an
    early return.  Machine integers are [Z] with their wrap-around, checked or
    saturating operation written out.  [HashMap]s are finite maps whose
    iteration order is the parameter [HashOrder].  Third-party code is a
    parameter with laws in a type class: BLAKE3 ([Blake3]), hex ([Hex]),
    Ed25519 ([Ed25519]), [bincode] and [serde_json] at the types they are used
    at, openraft ([Raft]), the moka cache ([Moka]).  [Codecs] and the example
    modules instantiate every one of them, so that each theorem with such a
    hypothesis is applied to concrete functions in its witness.

    Storage can fail anywhere.  [Io.Disk] (for the block store) and
    [Durability.Dir] (for small files) carry a plan with one item per file
    operation; an item makes that operation fail, a write after any prefix of
    its bytes.  Theorems quantify over all plans.

    What surrounds a node is a parameter too.  Peers answer anything a function
    of their own state can answer ([DataPeers], [Peers]), and laws say what an
    honest answer means where a theorem needs it; [nd_heard] is a ghost list of
    the acknowledgements a node received.  Other requests on the same node are
    a rely: functions [others] applied between the steps of a request, which
    may do what the operations of the components may do.  The semaphores of
    [tokio], the kernel behind [io_uring] (file, durable contents and both
    rings), the HTTP transport, JSON and the platform's listeners are classes
    with laws that leave order, failures and short results open.

    ** Files

    - [Prelude]: results, the state monad, integers, bytes, finite maps,
      tactics and hint databases.
    - [Encoding], [Core], [Signing]: [kalpak-core].  Identifiers, cache keys,
      errors, and the canonical messages that agents sign.
    - [Metadata], [Leases], [StateMachine]: [types.rs], [leases.rs] and the
      apply loop of [state_machine.rs].  [StateInvariant], [Lifecycle],
      [Fences], [RefCounts] hold the invariant and its consequences.
    - [ControlPlane], [Expiry], [Client]: the client operations and queries of
      [kalpak-control/src/lib.rs] over an abstract Raft, the leader's expiry
      loop, and what an acknowledgement means.
    - [Durability], [Codecs], [Snapshot], [LogStore], [LogTheorems],
      [Recovery]: the files of a control-plane node, snapshots, the Raft log,
      and restarts.
    - [Io], [Segment], [Store], with [StoreInvariant], [StorePut],
      [StoreTheorems], [StoreOpen], [StoreCompact]: the storage interface and
      its portable implementation, the record format, and the block store.
      [WindowsIo]: the read and write loops of the Windows backend.
    - [Uring], [UringTheorems]: the [io_uring] implementation of the storage
      interface ([uring.rs]), and its equivalence with the portable one.
    - [Tiered], [TieredCold]: the warm and pinned tiers over any cold store
      that satisfies an interface, and the block store as such a cold store.
    - [StoreRestart]: what a restart makes of any store that was not closed,
      and the limit of that in [StaleTail].
    - [Manifest], [ManifestTheorems]: the prefix manifest log.
    - [Scrub], [ScrubTheorems], [OnlineScrub], [OnlineScrubTheorems],
      [ScrubTask]: the offline and online inspection of segments, and the
      server's task around the online scanner.
    - [Retention], [RetentionTheorems], [Repair], [RepairWalk], [RepairTask]:
      the upload guards, the replica intents, and the rounds of the repair
      task of the server.
    - [Api]: the signed write handlers of [kalpakdb/src/leases.rs] and
      [server.rs] over the control plane, with a peer as a parameter.
      [Transport]: Raft calls between nodes ([network.rs]) and the membership
      and Raft endpoints.
    - [Admission]: the upload budget ([admission.rs]) and its middleware.
      [Upload], [UploadLogic], [UploadTheorems]: block uploads over HTTP with
      guards, intents, replication and acknowledgements, reads and presence
      probes.  [Grpc]: the streaming service ([grpc.rs]).
    - [Reclamation]: the reclamation dry run ([reclamation.rs]).
    - [Front]: key making, prefix lookup, listings, the read token and the
      boundary of the public listener.
    - [NetAddr], [Startup], [StartupTheorems]: socket addresses, and what
      [serve] checks, opens and starts, in its order.
    - [HttpClient], [GrpcClient]: the client library ([kalpak-client]) against
      the server's handlers.
    - [Backup], [BackupTheorems]: the archive of a running node
      ([admin_backup], [Retention::archive]) and its restoration.
    - [Cli], [CliTheorems]: the command line ([main.rs]) and the certificates
      of a mesh ([pki.rs]).  [Bench], [Stress]: the benchmark, and the rounds
      of the load generator ([stress.rs]).
    - [Stats], [StatsTheorems]: statistics, metrics, probes and route tables of
      [server.rs].

    ** What the theorems show

    - Metadata: every state a sorted log reaches satisfies the invariant; a
      rejected request changes nothing; a commit is a compare-and-swap on the
      binding revision and can be retried; terminal lease statuses are
      permanent and exclusive; reference counts equal the occurrences in the
      bindings; an unmoved fence guards everything reclamation looks at;
      abandoned leases expire within their ticks.
    - Control-plane durability: each log operation refines an operation on an
      abstract log that a restart reads back; snapshots are built and
      installed atomically and decode exactly when they satisfy the
      invariant's checks; after any storage call a restart rebuilds the
      applied state.
    - Block store: [put_many], [get] and [repair] refine a map from ids to
      bytes; a failed append fails closed; crashes lose no acknowledged block;
      compaction keeps live blocks; verification finds exactly the rot.  The
      tiers only hold authentic copies of blocks the store has, and a
      quarantined block is not served.
    - Manifest, scrubbing, guards, intents: acknowledged entries survive
      restarts under any faults; an interrupted sweep resumes and misses
      nothing, and the online steps report what the reference sweep reports;
      release checks and writers exclude each other.
    - Handlers: a node proposes only what the named agent signed, about blocks
      it stores, and answers with its own or the leader's outcome.  A Raft call
      returns what the peer's Raft returned and changes it in no other way.
    - Uploads: an acknowledged upload is stored, guarded and recorded as an
      intent, with the acknowledgements it claims; a replica's answer is
      evidence of what it stores; gRPC streams are the same uploads in
      batches; concurrent uploads and their buffers stay within the budget.
    - Repair: a round reports only what peers and files show, and over rounds
      the task reaches every block that has too few copies.
    - Reclamation: fences that still match mean that nothing a release would
      rely on has changed.
    - [io_uring]: under every completion order, a round leaves the file and
      reports as the portable backend does, or reports an error.
    - Start-up and restart: nothing but loopback listens without a mesh
      identity; an acknowledged upload is served by the node that a restart
      builds after any crash whose leftover bytes hold no record of their own
      ([durable]).
    - Boundary and client: the public listener cannot be spoofed as internal;
      the client's requests mean what the node's handlers do with them, and
      its signatures are accepted.
    - Backup: whatever the node does meanwhile, as long as it keeps its records
      and guards blocks before it writes them, the archive restores to a store
      that verifies clean, serves every block of the node and guards each of
      them.  [TornControl] shows what the copy of the control directory does
      not promise.
    - Command line: the flags of [serve] print and parse back, every argument
      list is parsed to an end, [put] is durable across processes, [fsck]
      succeeds exactly on intact stores, and what [mesh-ca] prints can be
      typed back.  The benchmark ends, and its payloads are distinct.
    - Reports: the text of [/metrics] scrapes to the numbers of [/v1/stats];
      the public listener serves every route but those of consensus,
      membership and administration; the load generator accounts for every
      round.
    - Scrub task: the counters are the totals of the steps, and its reads stay
      within the configured rate.
    - Signatures: messages of different kinds or agents differ, and a message
      determines its request, up to the gaps stated.

    ** Fuel and bounds

    Loops that are not structural run on fuel that is proved to be enough, so
    that running out is never an outcome of a property: the recovery scan and
    the sweeps on the file's length in 4 KiB units (each record is at least
    one), payload reads on its length in chunks, the guard journal on its
    length in bytes, streams of chunks on the length of the payload, the flags
    of a command on the number of arguments, a positioned read on its length.
    The exceptions are the recovery scan of a header whose length wraps
    around, and a write on Windows that makes no progress, which are shown
    never to end.  Sizes are bounded by [MAX_PAYLOAD] ([2^62]) and [MAX_FILE]
    ([2^63 - 1]) where [u64] sums must not wrap.

    ** Not modelled

    Locks: an operation is one atomic step, which is how the locks of the
    store and of the server's logs serialize it; other threads appear where
    the code itself checks for them (release checks, the online scrubber,
    uploads and streams).  Time: pauses between rounds and timeouts (the pacing
    of the scrub task is modelled), and the clocks of the benchmark and of the
    load generator.  Libraries are parameters, so TLS, certificates, CORS and
    the matching of routes are not described further; neither are the
    percentiles that the load generator prints, which are floating-point, and
    the exit code of the process.  Durability of
    [sync] is assumed: what was written before a successful sync is what a
    restart reads, and a crash is the end of the operations with the files as
    they are. *)

From stdpp Require Export base tactics option list list_numbers gmap strings sorting.
From Stdlib Require Export ZArith Lia.
From Stdlib Require Import Strings.Byte.

#[export] Set Default Goal Selector "!".
Open Scope Z_scope.

(** ** Automation

    [kalpak] is the database of the development: lemmas that close the side
    conditions that recur (bounds on lengths, non-negativity, range checks).
    [len] is a rewriting base that normalises [zlen] and [length]. *)
Create HintDb kalpak.
Create Rewrite HintDb len.

(** Boolean tests of the code, turned into the propositions they decide. *)
Ltac bool_prop :=
  repeat match goal with
  | H : _ && _ = true |- _ => apply andb_true_iff in H; destruct H
  | H : _ || _ = false |- _ => apply orb_false_iff in H; destruct H
  | H : negb _ = true |- _ => apply negb_true_iff in H
  | H : negb _ = false |- _ => apply negb_false_iff in H
  | H : bool_decide _ = true |- _ => apply bool_decide_eq_true in H
  | H : bool_decide _ = false |- _ => apply bool_decide_eq_false in H
  | H : (_ =? _) = true |- _ => apply Z.eqb_eq in H
  | H : (_ =? _) = false |- _ => apply Z.eqb_neq in H
  | H : (_ <=? _) = true |- _ => apply Z.leb_le in H
  | H : (_ <=? _) = false |- _ => apply Z.leb_gt in H
  | H : (_ <? _) = true |- _ => apply Z.ltb_lt in H
  | H : (_ <? _) = false |- _ => apply Z.ltb_ge in H
  | H : (_ >? _) = _ |- _ => rewrite Z.gtb_ltb in H
  | H : (_ >=? _) = _ |- _ => rewrite Z.geb_leb in H
  end.

(** Split the innermost test or scrutinee the goal is stuck on. *)
Ltac case_goal :=
  match goal with
  | |- context [if ?b then _ else _] =>
      lazymatch type of b with
      | bool => let E := fresh "E" in destruct b eqn:E
      | _ => let E := fresh "E" in destruct b as [E|E]
      end
  | |- context [match ?x with _ => _ end] => let E := fresh "E" in destruct x eqn:E
  end.

(** The same on a hypothesis. *)
Ltac case_hyp H :=
  match type of H with
  | context [if ?b then _ else _] =>
      lazymatch type of b with
      | bool => let E := fresh "E" in destruct b eqn:E
      | _ => let E := fresh "E" in destruct b as [E|E]
      end
  | context [match ?x with _ => _ end] => let E := fresh "E" in destruct x eqn:E
  end.

(** Drive a hypothesis through all its branches, closing the impossible ones. *)
Ltac run H := repeat (case_hyp H; simplify_eq/=).

(** ** Outcomes

    Rust's [Result] plus the panic of an out-of-range index or a failed
    [unwrap], so that "does not panic" is a statement of the model. *)
Inductive res (E A : Type) : Type :=
| Ok (a : A)
| Err (e : E)
| Panic.
Arguments Ok {E A} a.
Arguments Err {E A} e.
Arguments Panic {E A}.

#[export] Instance res_ret {E} : MRet (res E) := λ A a, Ok a.
#[export] Instance res_bind {E} : MBind (res E) := λ A B f r,
  match r with Ok a => f a | Err e => Err e | Panic => Panic end.
#[export] Instance res_fmap {E} : FMap (res E) := λ A B f r,
  match r with Ok a => Ok (f a) | Err e => Err e | Panic => Panic end.

(** [map_err] of the source. *)
Definition map_err {E E' A} (f : E → E') (r : res E A) : res E' A :=
  match r with Ok a => Ok a | Err e => Err (f e) | Panic => Panic end.

(** [ok_or]. *)
Definition ok_or {E A} (o : option A) (e : E) : res E A :=
  match o with Some a => Ok a | None => Err e end.

Definition is_ok {E A} (r : res E A) : bool :=
  match r with Ok _ => true | _ => false end.

Lemma bind_Ok {E A B} (f : A → res E B) (r : res E A) b :
  (r ≫= f) = Ok b ↔ ∃ a, r = Ok a ∧ f a = Ok b.
Proof. destruct r; cbn; naive_solver. Qed.

Lemma map_err_Ok {E E' A} (f : E → E') (r : res E A) a :
  map_err f r = Ok a ↔ r = Ok a.
Proof. destruct r; cbn; naive_solver. Qed.

Lemma ok_or_Ok {E A} (o : option A) (e : E) a : ok_or o e = Ok a ↔ o = Some a.
Proof. destruct o; cbn; naive_solver. Qed.

(** State-passing code that may fail: Rust keeps the mutations made before
    an early return, so the state is returned on every path. *)
Definition ST (S E A : Type) : Type := S → S * res E A.

#[export] Instance ST_ret {S E} : MRet (ST S E) := λ A a s, (s, Ok a).
#[export] Instance ST_bind {S E} : MBind (ST S E) := λ A B f m s,
  match m s with
  | (s', Ok a) => f a s'
  | (s', Err e) => (s', Err e)
  | (s', Panic) => (s', Panic)
  end.

Definition st_get {S E} : ST S E S := λ s, (s, Ok s).
Definition st_put {S E} (s' : S) : ST S E () := λ _, (s', Ok ()).
Definition st_modify {S E} (f : S → S) : ST S E () := λ s, (f s, Ok ()).
Definition st_lift {S E A} (r : res E A) : ST S E A := λ s, (s, r).
Definition st_throw {S E A} (e : E) : ST S E A := λ s, (s, Err e).

Lemma st_bind_Ok {S E A B} (f : A → ST S E B) (m : ST S E A) s s' b :
  (m ≫= f) s = (s', Ok b) ↔ ∃ s1 a, m s = (s1, Ok a) ∧ f a s1 = (s', Ok b).
Proof. unfold mbind, ST_bind. destruct (m s) as [s1 [a|e|]]; naive_solver. Qed.

(** ** Fixed-width integers *)
Definition u32_max : Z := 2 ^ 32 - 1.
Definition u64_max : Z := 2 ^ 64 - 1.

(** [a + b] on [u64] in a build without overflow checks. *)
Definition u64_add (a b : Z) : Z := (a + b) mod 2 ^ 64.
Definition u64_mul (a b : Z) : Z := (a * b) mod 2 ^ 64.
Definition checked_add64 (a b : Z) : option Z :=
  if a + b <=? u64_max then Some (a + b) else None.
Definition checked_sub (a b : Z) : option Z :=
  if b <=? a then Some (a - b) else None.
Definition saturating_add64 (a b : Z) : Z := Z.min (a + b) u64_max.
Definition saturating_sub (a b : Z) : Z := Z.max 0 (a - b).
(** [a.div_ceil(b)]. *)
Definition div_ceil (a b : Z) : Z :=
  if a mod b =? 0 then a / b else a / b + 1.

Definition is_u64 (z : Z) : Prop := 0 ≤ z ≤ u64_max.

Lemma u64_add_small a b : 0 ≤ a + b ≤ u64_max → u64_add a b = a + b.
Proof. intros. unfold u64_add, u64_max in *. apply Z.mod_small. lia. Qed.

Lemma checked_add64_Some a b c :
  checked_add64 a b = Some c ↔ c = a + b ∧ a + b ≤ u64_max.
Proof. unfold checked_add64. case_goal; bool_prop; naive_solver lia. Qed.

Lemma checked_sub_Some a b c :
  checked_sub a b = Some c ↔ c = a - b ∧ b ≤ a.
Proof. unfold checked_sub. case_goal; bool_prop; naive_solver lia. Qed.

Lemma div_ceil_spec a b :
  0 < b → a ≤ div_ceil a b * b < a + b.
Proof.
  intros Hb. unfold div_ceil.
  pose proof (Z.div_mod a b ltac:(lia)). pose proof (Z.mod_pos_bound a b Hb).
  case_goal; bool_prop; nia.
Qed.

(** ** Lists measured in [Z], as [usize]/[u64] lengths are *)
Abbreviation bytes := (list byte).

Definition zlen {A} (l : list A) : Z := Z.of_nat (length l).

Lemma zlen_nonneg {A} (l : list A) : 0 ≤ zlen l.
Proof. unfold zlen. lia. Qed.
Lemma zlen_nil {A} : zlen (@nil A) = 0.
Proof. done. Qed.
Lemma zlen_cons {A} x (l : list A) : zlen (x :: l) = 1 + zlen l.
Proof. unfold zlen. cbn [length]. lia. Qed.
Lemma zlen_app {A} (l k : list A) : zlen (l ++ k) = zlen l + zlen k.
Proof. unfold zlen. rewrite length_app. lia. Qed.
Lemma zlen_replicate {A} n (x : A) : zlen (replicate n x) = Z.of_nat n.
Proof. unfold zlen. by rewrite length_replicate. Qed.
Lemma zlen_take {A} n (l : list A) : zlen (take n l) = Z.min (Z.of_nat n) (zlen l).
Proof. unfold zlen. rewrite length_take. lia. Qed.
Lemma zlen_drop {A} n (l : list A) : zlen (drop n l) = Z.max 0 (zlen l - Z.of_nat n).
Proof. unfold zlen. rewrite length_drop. lia. Qed.
Lemma zlen_fmap {A B} (f : A → B) l : zlen (f <$> l) = zlen l.
Proof. unfold zlen. by rewrite length_fmap. Qed.
Lemma zlen_0 {A} (l : list A) : zlen l = 0 ↔ l = [].
Proof. destruct l; [done|]. rewrite zlen_cons. pose proof (zlen_nonneg l). split; [lia|done]. Qed.

#[export] Hint Resolve zlen_nonneg : kalpak.
#[export] Hint Rewrite @zlen_nil @zlen_cons @zlen_app @zlen_replicate @zlen_take
  @zlen_drop @zlen_fmap : len.

Ltac zl := autorewrite with len in *;
  repeat match goal with
  | |- context [zlen ?l] => lazymatch goal with
      | _ : 0 ≤ zlen l |- _ => fail | _ => pose proof (zlen_nonneg l) end
  | _ : context [zlen ?l] |- _ => lazymatch goal with
      | _ : 0 ≤ zlen l |- _ => fail | _ => pose proof (zlen_nonneg l) end
  end; try lia.

(** [&buf[off..off + n]], for in-range [off] and [n]. *)
Definition zslice {A} (l : list A) (off n : Z) : list A :=
  take (Z.to_nat n) (drop (Z.to_nat off) l).

Lemma zslice_app_r {A} (l k : list A) off n :
  off = zlen l → zslice (l ++ k) off n = take (Z.to_nat n) k.
Proof. intros ->. unfold zslice, zlen. by rewrite Nat2Z.id, drop_app_length. Qed.

Lemma zlen_zslice {A} (l : list A) off n :
  0 ≤ off → 0 ≤ n → off + n ≤ zlen l → zlen (zslice l off n) = n.
Proof. intros. unfold zslice. zl. Qed.

Lemma zslice_app_l {A} (l k : list A) off n :
  0 ≤ off → 0 ≤ n → off + n ≤ zlen l → zslice (l ++ k) off n = zslice l off n.
Proof.
  intros. unfold zslice. unfold zlen in *.
  rewrite drop_app_le by lia. rewrite take_app_le; [done|]. rewrite length_drop. lia.
Qed.

(** Overwriting [buf] at [off]; a gap past the end reads as zeros, as for a
    positioned write to a file. *)
Definition splice (c buf : bytes) (off : Z) : bytes :=
  take (Z.to_nat off) c ++ replicate (Z.to_nat off - length c) x00
  ++ buf ++ drop (Z.to_nat off + length buf) c.

Lemma splice_at_end c buf off : off = zlen c → splice c buf off = c ++ buf.
Proof.
  intros ->. unfold splice, zlen. rewrite Nat2Z.id, firstn_all, Nat.sub_diag. cbn.
  rewrite drop_ge by lia. by rewrite app_nil_r.
Qed.

Lemma splice_prefix_preserved c buf off n :
  0 ≤ off ≤ zlen c → (n <= Z.to_nat off)%nat → take n (splice c buf off) = take n c.
Proof.
  intros Hoff Hn. unfold splice. unfold zlen in *.
  rewrite take_app_le by (rewrite length_take; lia). rewrite take_take. f_equal. lia.
Qed.

(** ** Bytes and little-endian integers *)
#[export] Instance byte_eq_dec : EqDecision byte := Byte.byte_eq_dec.

#[export] Instance byte_countable : Countable byte :=
  inj_countable Byte.to_N Byte.of_N Byte.of_to_N.

Definition byte_Z (b : byte) : Z := Z.of_N (Byte.to_N b).
Definition Z_byte (z : Z) : byte := default x00 (Byte.of_N (Z.to_N (z mod 256))).

Lemma byte_Z_range b : 0 ≤ byte_Z b < 256.
Proof. unfold byte_Z. pose proof (Byte.to_N_bounded b). lia. Qed.

Lemma byte_Z_byte z : byte_Z (Z_byte z) = z mod 256.
Proof.
  unfold byte_Z, Z_byte. pose proof (Z.mod_pos_bound z 256 ltac:(lia)).
  destruct (Byte.of_N (Z.to_N (z mod 256))) as [b|] eqn:E; cbn.
  - apply Byte.to_of_N in E. lia.
  - apply Byte.of_N_None_iff in E. lia.
Qed.

Lemma Z_byte_Z b : Z_byte (byte_Z b) = b.
Proof.
  unfold Z_byte, byte_Z. pose proof (byte_Z_range b). unfold byte_Z in *.
  rewrite Z.mod_small by lia. rewrite N2Z.id, Byte.of_to_N. done.
Qed.

(** [to_le_bytes] of an integer of [n] bytes, and [from_le_bytes]. *)
Fixpoint le_bytes (n : nat) (z : Z) : bytes :=
  match n with
  | O => []
  | S n => Z_byte z :: le_bytes n (z / 256)
  end.

Fixpoint le_val (l : bytes) : Z :=
  match l with
  | [] => 0
  | b :: l => byte_Z b + 256 * le_val l
  end.

Lemma length_le_bytes n z : length (le_bytes n z) = n.
Proof. revert z. induction n; intros; cbn; auto. Qed.
Lemma zlen_le_bytes n z : zlen (le_bytes n z) = Z.of_nat n.
Proof. unfold zlen. by rewrite length_le_bytes. Qed.
#[export] Hint Rewrite zlen_le_bytes length_le_bytes : len.

Lemma le_val_bytes n z : le_val (le_bytes n z) = z mod 2 ^ (8 * Z.of_nat n).
Proof.
  revert z. induction n as [|n IH]; intros z.
  - cbn. by rewrite Z.mod_1_r.
  - cbn [le_bytes le_val]. rewrite IH, byte_Z_byte.
    replace (8 * Z.of_nat (S n)) with (8 + 8 * Z.of_nat n) by lia.
    rewrite Z.pow_add_r by lia. change (2 ^ 8) with 256.
    rewrite Z.rem_mul_r by lia. lia.
Qed.

Lemma le_val_bytes_small n z :
  0 ≤ z < 2 ^ (8 * Z.of_nat n) → le_val (le_bytes n z) = z.
Proof. intros. rewrite le_val_bytes. by apply Z.mod_small. Qed.

Lemma le_val_range l : 0 ≤ le_val l < 2 ^ (8 * zlen l).
Proof.
  induction l as [|b l IH]; [done|]. cbn [le_val]. rewrite zlen_cons.
  pose proof (byte_Z_range b). pose proof (zlen_nonneg l).
  rewrite Z.mul_add_distr_l, Z.pow_add_r by lia. change (2 ^ (8 * 1)) with 256. lia.
Qed.

Lemma le_bytes_val l : le_bytes (length l) (le_val l) = l.
Proof.
  induction l as [|b l IH]; [done|]. cbn [length le_bytes le_val].
  pose proof (byte_Z_range b).
  replace ((byte_Z b + 256 * le_val l) / 256) with (le_val l)
    by (Z.to_euclidean_division_equations; lia).
  rewrite IH. f_equal. rewrite <-(Z_byte_Z b) at 2. unfold Z_byte.
  do 3 f_equal. Z.to_euclidean_division_equations; lia.
Qed.

Lemma le_bytes_inj n a b :
  0 ≤ a < 2 ^ (8 * Z.of_nat n) → 0 ≤ b < 2 ^ (8 * Z.of_nat n) →
  le_bytes n a = le_bytes n b → a = b.
Proof. intros Ha Hb E. apply (f_equal le_val) in E. by rewrite !le_val_bytes_small in E. Qed.

Lemma pair_snd {A B} (p : A * B) b : p.2 = b → p = (p.1, b).
Proof. by destruct p; cbn; intros ->. Qed.

(** Two concatenations that split at the same place agree piecewise. *)
Lemma app_split {A} (l1 l2 k1 k2 : list A) :
  length l1 = length k1 → l1 ++ l2 = k1 ++ k2 → l1 = k1 ∧ l2 = k2.
Proof. intros. by apply app_inj_1. Qed.

(** ** Arrays [[u8; n]] *)
Record array (n : nat) := Array { arr :> bytes; arr_ok : bool_decide (length arr = n) = true }.
Arguments Array {n} arr arr_ok.
Arguments arr {n} _.

Lemma array_eq {n} (a b : array n) : arr a = arr b → a = b.
Proof.
  destruct a as [l Hl], b as [k Hk]. cbn. intros ->. f_equal.
  apply (proof_irrel Hl Hk).
Qed.

Lemma arr_length {n} (a : array n) : length (arr a) = n.
Proof. pose proof (arr_ok n a) as H. by apply bool_decide_eq_true in H. Qed.
Lemma arr_zlen {n} (a : array n) : zlen (arr a) = Z.of_nat n.
Proof. unfold zlen. by rewrite arr_length. Qed.
#[export] Hint Rewrite @arr_length @arr_zlen : len.

(** [v.try_into()] for a byte vector. *)
Definition to_array (n : nat) (l : bytes) : option (array n) :=
  match bool_decide (length l = n) as b return bool_decide (length l = n) = b → option (array n) with
  | true => λ H, Some (Array l H)
  | false => λ _, None
  end eq_refl.

Lemma to_array_Some n l (a : array n) : to_array n l = Some a ↔ arr a = l.
Proof.
  unfold to_array. generalize (eq_refl (bool_decide (length l = n))).
  generalize (bool_decide (length l = n)) at 2 3. intros [] H.
  - split; [by intros [= <-]|]. intros <-. f_equal. by apply array_eq.
  - split; [done|]. intros <-. pose proof (arr_ok n a). congruence.
Qed.

Lemma to_array_arr {n} (a : array n) : to_array n (arr a) = Some a.
Proof. by apply to_array_Some. Qed.

Lemma to_array_None n l : to_array n l = None ↔ length l ≠ n.
Proof.
  split.
  - intros H Hl. assert (bool_decide (length l = n) = true) as Hb by by apply bool_decide_eq_true.
    assert (to_array n l = Some (Array l Hb)) by by apply to_array_Some. congruence.
  - intros H. destruct (to_array n l) as [a|] eqn:E; [|done].
    apply to_array_Some in E. subst. by rewrite arr_length in H.
Qed.

#[export] Instance array_eq_dec n : EqDecision (array n).
Proof.
  intros a b. destruct (decide (arr a = arr b)) as [H|H]; [left; by apply array_eq|right; congruence].
Defined.
#[export] Program Instance array_countable n : Countable (array n) :=
  inj_countable arr (to_array n) _.
Next Obligation. intros. apply to_array_arr. Qed.

(** The array of the low [n] bytes of an integer, for concrete inputs. *)
Program Definition array_of (n : nat) (z : Z) : array n := Array (le_bytes n z) _.
Next Obligation. intros. apply bool_decide_eq_true, length_le_bytes. Qed.

(** Rust's [Ord] on arrays: lexicographic. *)
Fixpoint bytes_leb (a b : bytes) : bool :=
  match a, b with
  | [], _ => true
  | _ :: _, [] => false
  | x :: a, y :: b =>
      (byte_Z x <? byte_Z y) || ((byte_Z x =? byte_Z y) && bytes_leb a b)
  end.

(** ** Strings: Rust's [String] as its UTF-8 bytes *)
Definition str_bytes (s : string) : bytes := String.list_byte_of_string s.
Definition str_len (s : string) : Z := zlen (str_bytes s).

Lemma str_bytes_inj s t : str_bytes s = str_bytes t → s = t.
Proof.
  unfold str_bytes. intros H.
  by rewrite <-(String.string_of_list_byte_of_string s), H, String.string_of_list_byte_of_string.
Qed.

(** ** Finite maps

    [HashMap] and [BTreeMap] are [gmap]; the iterator adaptors the source
    uses on them are the executable functions below. *)
Section Maps.
Context {K V : Type} `{Countable K}.
Implicit Types (m : gmap K V).

Definition zsize {V} (m : gmap K V) : Z := Z.of_nat (size m).

(** [m.contains_key(k)]. *)
Definition contains_key {V} (m : gmap K V) (k : K) : bool := bool_decide (is_Some (m !! k)).

(** [m.iter().any(f)] and [m.iter().filter(f).count()]. *)
Definition map_any (f : K → V → bool) m : bool :=
  existsb (λ p, f p.1 p.2) (map_to_list m).
Definition map_count (f : K → V → bool) m : Z :=
  zlen (base.filter (λ p, f p.1 p.2 = true) (map_to_list m)).

Lemma contains_key_true {V'} (m : gmap K V') k : contains_key m k = true ↔ ∃ v, m !! k = Some v.
Proof. unfold contains_key. rewrite bool_decide_eq_true. reflexivity. Qed.
Lemma contains_key_false {V'} (m : gmap K V') k : contains_key m k = false ↔ m !! k = None.
Proof. unfold contains_key. rewrite bool_decide_eq_false. by rewrite eq_None_not_Some. Qed.

Lemma map_any_false f m :
  map_any f m = false ↔ ∀ k v, m !! k = Some v → f k v = false.
Proof.
  unfold map_any. rewrite <-not_true_iff_false, existsb_exists. split.
  - intros Hf k v Hk. apply not_true_iff_false. intros Ht. apply Hf. exists (k, v).
    split; [|done]. by apply list_elem_of_In, elem_of_map_to_list.
  - intros Hf ([k v] & Hin & Ht). apply list_elem_of_In, elem_of_map_to_list in Hin.
    cbn in Ht. by rewrite (Hf k v Hin) in Ht.
Qed.

Lemma zsize_nonneg {V'} (m : gmap K V') : 0 ≤ zsize m.
Proof. unfold zsize. lia. Qed.
Lemma zsize_empty {V'} : zsize (∅ : gmap K V') = 0.
Proof. unfold zsize. rewrite map_size_empty. reflexivity. Qed.
Lemma zsize_insert_None m k v : m !! k = None → zsize (<[k:=v]> m) = zsize m + 1.
Proof. intros. unfold zsize. rewrite map_size_insert_None; [lia|done]. Qed.
Lemma zsize_insert_Some m k v v' : m !! k = Some v' → zsize (<[k:=v]> m) = zsize m.
Proof. intros. unfold zsize. rewrite map_size_insert_Some; [done|eauto]. Qed.
Lemma zsize_delete m k v : m !! k = Some v → zsize (delete k m) = zsize m - 1.
Proof.
  intros Hk. unfold zsize. rewrite map_size_delete_Some by by eexists.
  assert (size m ≠ 0%nat); [|lia]. intros E%map_size_empty_inv. subst. by rewrite lookup_empty in Hk.
Qed.

Lemma map_count_size f m :
  map_count f m = zsize (filter (λ p, f p.1 p.2 = true) m).
Proof.
  unfold map_count, zlen, zsize. f_equal.
  induction m as [|k v m Hk IH] using map_ind.
  - by rewrite map_filter_empty, map_to_list_empty, map_size_empty.
  - rewrite map_to_list_insert by done. rewrite filter_cons. cbn [fst snd].
    case_decide as E.
    + rewrite map_filter_insert_True by done. cbn [length]. rewrite IH.
      rewrite map_size_insert_None; [done|]. apply map_lookup_filter_None. by left.
    + rewrite map_filter_insert_False by done. by rewrite delete_id.
Qed.

Lemma map_count_subset f m : 0 ≤ map_count f m ≤ zsize m.
Proof.
  unfold map_count, zsize, zlen. rewrite <-length_map_to_list.
  split; [lia|]. apply inj_le, length_filter.
Qed.

(** Two predicates that are exclusive on the entries count separately. *)
Lemma map_count_split f g h m :
  (∀ k v, m !! k = Some v → h k v = f k v || g k v ∧ f k v && g k v = false) →
  map_count h m = map_count f m + map_count g m.
Proof.
  intros Hfg. unfold map_count.
  assert (Forall (λ p, h p.1 p.2 = f p.1 p.2 || g p.1 p.2 ∧ f p.1 p.2 && g p.1 p.2 = false)
    (map_to_list m)) as HF.
  { apply Forall_forall. intros [k v] Hin. apply elem_of_map_to_list in Hin. by apply Hfg. }
  clear Hfg. revert HF. generalize (map_to_list m) as l.
  induction l as [|p l IH]; intros HF; [done|].
  apply Forall_cons in HF as [[Hh Hx] HF]. specialize (IH HF).
  rewrite !filter_cons. rewrite Hh.
  destruct (f p.1 p.2), (g p.1 p.2); try done; repeat case_decide; try done; zl.
Qed.

Lemma map_count_ext f g m :
  (∀ k v, m !! k = Some v → f k v = g k v) → map_count f m = map_count g m.
Proof.
  intros Hfg. rewrite !map_count_size. unfold zsize. do 2 f_equal.
  apply map_filter_ext. intros k v Hk. cbn. by rewrite Hfg.
Qed.

Lemma map_count_true m : map_count (λ _ _, true) m = zsize m.
Proof. rewrite map_count_size. unfold zsize. do 2 f_equal. apply map_filter_id. done. Qed.

(** Counting the entries whose key lies in a smaller map. *)
Lemma map_count_dom {V'} m (c : gmap K V') :
  (∀ k, is_Some (c !! k) → is_Some (m !! k)) →
  map_count (λ k _, contains_key c k) m = zsize c.
Proof.
  intros Hc. rewrite map_count_size. unfold zsize. f_equal.
  rewrite <-!size_dom. f_equal. apply set_eq. intros k. rewrite !elem_of_dom. split.
  - intros [v Hv]. apply map_lookup_filter_Some in Hv as [_ Hk]. cbn in Hk.
    by apply contains_key_true in Hk.
  - intros [v' Hk]. destruct (Hc k) as [v Hv]; [eauto|]. exists v.
    apply map_lookup_filter_Some. split; [done|]. cbn. apply contains_key_true. eauto.
Qed.

(** [m.values().map(f).sum()]. *)
Definition map_sum (f : V → Z) m : Z := map_fold (λ _ v acc, f v + acc) 0 m.

Lemma map_sum_empty f : map_sum f ∅ = 0.
Proof. unfold map_sum. by rewrite map_fold_empty. Qed.
Lemma map_sum_insert f m k v :
  m !! k = None → map_sum f (<[k:=v]> m) = f v + map_sum f m.
Proof.
  intros. unfold map_sum. rewrite map_fold_insert_L; [done| |done]. intros. lia.
Qed.
Lemma map_sum_delete f m k v :
  m !! k = Some v → map_sum f m = f v + map_sum f (delete k m).
Proof.
  intros Hk. rewrite <-(map_sum_insert f (delete k m) k v) by apply lookup_delete_eq.
  by rewrite insert_delete_id.
Qed.
Lemma map_sum_nonneg f m : (∀ v, 0 ≤ f v) → 0 ≤ map_sum f m.
Proof.
  intros Hf. induction m as [|k v m Hk IH] using map_ind; [by rewrite map_sum_empty|].
  rewrite map_sum_insert by done. specialize (Hf v). lia.
Qed.
(** Replacing a value by one of the same weight keeps the sum. *)
Lemma map_sum_update f m k v v' :
  m !! k = Some v → f v' = f v → map_sum f (<[k:=v']> m) = map_sum f m.
Proof.
  intros Hk Hf. rewrite (map_sum_delete f m k v) by done.
  rewrite <-insert_delete_eq, map_sum_insert by apply lookup_delete_eq. lia.
Qed.

End Maps.

#[export] Hint Resolve zsize_nonneg : kalpak.

(** [HashMap] iterates in an unspecified order: code whose result depends on
    it takes the order as an argument, a function that permutes. *)
Class HashOrder := hash_order : ∀ {A : Type}, list A → list A.
Class HashOrderLaws `{HashOrder} := hash_order_perm : ∀ A (l : list A), hash_order l ≡ₚ l.

(** A concrete order, for examples. *)
Definition toy_order : HashOrder := λ _ l, rev l.
Lemma toy_order_laws : @HashOrderLaws toy_order.
Proof. intros A l. unfold hash_order, toy_order. symmetry. apply Permutation_rev. Qed.
