(* ===== verification/Encoding.v ===== *)
(** * Self-delimiting byte encodings

    The canonical signed messages of [kalpak-core/src/signing.rs] and the
    journal records of the storage engine are concatenations of fields.  This
    file has the small algebra that shows such a concatenation injective: an
    encoder is self-delimiting on [P] when a value satisfying [P] can be read
    back from the front of any byte string that starts with its encoding.
    Fixed-width fields, length-prefixed strings, NUL-terminated strings,
    counted lists and tagged options are the combinators the source uses. *)

From S2P Require Import Prelude.
From Stdlib Require Import Strings.Byte.

Section SelfDelim.
Context {A B : Type}.

Definition self_delim {A} (P : A → Prop) (f : A → bytes) : Prop :=
  ∀ a b r s, P a → P b → f a ++ r = f b ++ s → a = b ∧ r = s.

Lemma self_delim_inj (P : A → Prop) (f : A → bytes) a b :
  self_delim P f → P a → P b → f a = f b → a = b.
Proof.
  intros Hf Ha Hb E. destruct (Hf a b [] [] Ha Hb) as [-> _]; [|done].
  by rewrite !app_nil_r.
Qed.

Lemma self_delim_pair (P : A → Prop) (Q : B → Prop) f g :
  self_delim P f → self_delim Q g →
  self_delim (λ p : A * B, P p.1 ∧ Q p.2) (λ p, f p.1 ++ g p.2).
Proof.
  intros Hf Hg [a b] [a' b'] r s [Ha Hb] [Ha' Hb'] E. cbn in *.
  rewrite <-!app_assoc in E.
  destruct (Hf _ _ _ _ Ha Ha' E) as [-> E']. destruct (Hg _ _ _ _ Hb Hb' E') as [-> ->]. done.
Qed.

(** Encoding through an injective view. *)
Lemma self_delim_map (P : A → Prop) (Q : B → Prop) f (v : A → B) :
  self_delim Q f → (∀ a, P a → Q (v a)) → (∀ a b, P a → P b → v a = v b → a = b) →
  self_delim P (λ a, f (v a)).
Proof.
  intros Hf HQ Hv a b r s Ha Hb E.
  destruct (Hf _ _ _ _ (HQ _ Ha) (HQ _ Hb) E) as [Ev ->]. split; [|done]. by apply Hv.
Qed.

Lemma self_delim_weaken (P Q : A → Prop) f :
  self_delim Q f → (∀ a, P a → Q a) → self_delim P f.
Proof. intros Hf HPQ a b r s Ha Hb E. eapply Hf; eauto. Qed.

(** Elements one after the other, for lists of the same length. *)
Lemma self_delim_concat (P : A → Prop) f (l k : list A) r s :
  self_delim P f → length l = length k → Forall P l → Forall P k →
  concat (f <$> l) ++ r = concat (f <$> k) ++ s → l = k ∧ r = s.
Proof.
  intros Hf. revert k. induction l as [|a l IH]; intros [|b k] Hlen Hl Hk E; try done.
  apply Forall_cons in Hl as [Ha Hl]. apply Forall_cons in Hk as [Hb Hk].
  cbn in E. rewrite <-!app_assoc in E.
  destruct (Hf _ _ _ _ Ha Hb E) as [-> E'].
  destruct (IH k) as [-> ->]; auto.
Qed.

(** A count of [n] bytes, then the elements. *)
Definition counted (n : nat) (f : A → bytes) (l : list A) : bytes :=
  le_bytes n (zlen l) ++ concat (f <$> l).

(** A flag byte, then the value if there is one. *)
Definition tagged (f : A → bytes) (o : option A) : bytes :=
  match o with
  | Some a => x01 :: f a
  | None => [x00]
  end.

Lemma self_delim_tagged (P : A → Prop) f :
  self_delim P f → self_delim (λ o, ∀ a, o = Some a → P a) (tagged f).
Proof.
  intros Hf [a|] [b|] r s Ha Hb E; cbn in E; try discriminate.
  - injection E as E. destruct (Hf a b r s) as [-> ->]; auto.
  - injection E as ->. done.
Qed.

End SelfDelim.

Lemma self_delim_array n : self_delim (λ _ : array n, True) arr.
Proof.
  intros a b r s _ _ E. apply app_split in E as [E ->]; [|by rewrite !arr_length].
  split; [by apply array_eq|done].
Qed.

Lemma self_delim_le n : self_delim (λ z, 0 ≤ z < 2 ^ (8 * Z.of_nat n)) (le_bytes n).
Proof.
  intros a b r s Ha Hb E. apply app_split in E as [E ->]; [|by rewrite !length_le_bytes].
  split; [by eapply le_bytes_inj|done].
Qed.

Lemma zlen_eq_length {A B} (l : list A) (k : list B) : zlen l = zlen k ↔ length l = length k.
Proof. unfold zlen. lia. Qed.

Lemma self_delim_counted {A} n (P : A → Prop) f :
  self_delim P f →
  self_delim (λ l : list A, zlen l < 2 ^ (8 * Z.of_nat n) ∧ Forall P l) (counted n f).
Proof.
  intros Hf l k r s [Hl HPl] [Hk HPk] E. unfold counted in E. rewrite <-!app_assoc in E.
  apply self_delim_le in E as [Elen E]; [|auto using zlen_nonneg..].
  apply zlen_eq_length in Elen. by apply (self_delim_concat P f).
Qed.

(** A length of [n] bytes, then the bytes. *)
Definition length_prefixed (n : nat) (l : bytes) : bytes := le_bytes n (zlen l) ++ l.

Lemma self_delim_length_prefixed n :
  self_delim (λ l : bytes, zlen l < 2 ^ (8 * Z.of_nat n)) (length_prefixed n).
Proof.
  intros l k r s Hl Hk E. unfold length_prefixed in E. rewrite <-!app_assoc in E.
  apply self_delim_le in E as [Elen E]; [|auto using zlen_nonneg..].
  apply zlen_eq_length in Elen. by apply app_split.
Qed.

(** Bytes, then a NUL. *)
Definition nul_terminated (l : bytes) : bytes := l ++ [x00].

Lemma self_delim_nul : self_delim (λ l : bytes, x00 ∉ l) nul_terminated.
Proof.
  intros l. induction l as [|a l IH]; intros [|b k] r s Hl Hk E; cbn in E.
  - by injection E as ->.
  - injection E as <- _. destruct Hk. by left.
  - injection E as -> _. destruct Hl. by left.
  - injection E as -> E. rewrite not_elem_of_cons in Hl, Hk.
    destruct Hl as [_ Hl], Hk as [_ Hk].
    destruct (IH k r s Hl Hk E) as [-> ->]. done.
Qed.
