(* ===== verification/Core.v ===== *)
(** * Core types ([crates/kalpak-core])

    Block identities, cache keys and agent identities, with the errors of the
    core crate.  BLAKE3, the [hex] crate and Ed25519 are not part of the
    repository: they are the classes below, arguments of every definition
    that uses them, with what their documentation promises as separate
    classes of laws. *)

From S2P Require Import Prelude Encoding.
From Stdlib Require Import Strings.Byte.

(** ** Third-party primitives *)

(** [blake3::hash], and the incremental hasher, whose [finalize] is the hash
    of the concatenated updates. *)
Class Blake3 := blake3_hash : bytes → array 32.

(** [hex::encode] and [hex::decode]. *)
Class Hex := { hex_encode : bytes → string; hex_decode : string → option bytes }.
Class HexLaws `{Hex} := hex_decode_encode : ∀ l, hex_decode (hex_encode l) = Some l.

(** [ed25519_dalek]: key decoding, verification and signing. *)
Class Ed25519 := {
  SigningKey : Type;
  verifying_key : SigningKey → array 32;
  verifying_key_valid : array 32 → bool;
  ed_verify : array 32 → bytes → array 64 → bool;
  ed_sign : SigningKey → bytes → array 64 }.
Class Ed25519Laws `{Ed25519} := {
  verifying_key_is_valid : ∀ k, verifying_key_valid (verifying_key k) = true;
  ed_verify_sign : ∀ k m, ed_verify (verifying_key k) m (ed_sign k m) = true }.

(** ** [error.rs] *)
Inductive io_kind := KOther | KNotFound | KUnexpectedEof | KWouldBlock | KInvalidInput | KInvalidData | KWriteZero.
Record io_error := IoError { io_kind_of : io_kind; io_msg : string }.
Definition io_other (msg : string) : io_error := IoError KOther msg.

#[export] Instance io_kind_eq_dec : EqDecision io_kind.
Proof. solve_decision. Defined.

Record BlockId := MkBlockId { block_bytes : array 32 }.
Record AgentId := MkAgentId { agent_bytes : array 32 }.

#[export] Instance BlockId_eq_dec : EqDecision BlockId.
Proof. solve_decision. Defined.
#[export] Instance BlockId_countable : Countable BlockId :=
  inj_countable' block_bytes MkBlockId (λ '(MkBlockId _), eq_refl).
#[export] Instance AgentId_eq_dec : EqDecision AgentId.
Proof. solve_decision. Defined.
#[export] Instance AgentId_countable : Countable AgentId :=
  inj_countable' agent_bytes MkAgentId (λ '(MkAgentId _), eq_refl).

Inductive Error :=
| InvalidId (s : string)
| BlockNotFound (id : BlockId)
| Corrupt (id : BlockId)
| InvalidAgentKey
| BadSignature
| Io (e : io_error).

(** ** [block.rs] *)
Section Block.
Context `{Blake3, Hex}.

Definition block_of (payload : bytes) : BlockId := MkBlockId (blake3_hash payload).

Definition block_verify (id : BlockId) (payload : bytes) : bool :=
  bool_decide (block_of payload = id).

Definition block_display (id : BlockId) : string := hex_encode (block_bytes id).

Definition block_from_str (s : string) : res Error BlockId :=
  raw ← ok_or (hex_decode s) (InvalidId s);
  a ← ok_or (to_array 32 raw) (InvalidId s);
  Ok (MkBlockId a).

(** The serde form: the hex string, and its parse (any failure is a
    deserialization error). *)
Definition block_serialize (id : BlockId) : string := hex_encode (block_bytes id).
Definition block_deserialize (s : string) : option BlockId :=
  hex_decode s ≫= λ raw, MkBlockId <$> to_array 32 raw.

Lemma block_verify_spec id payload : block_verify id payload = true ↔ block_of payload = id.
Proof. unfold block_verify. apply bool_decide_eq_true. Qed.

Lemma block_verify_false id payload : block_verify id payload = false ↔ block_of payload ≠ id.
Proof. unfold block_verify. apply bool_decide_eq_false. Qed.

Lemma block_verify_of payload : block_verify (block_of payload) payload = true.
Proof. by apply block_verify_spec. Qed.

Lemma block_from_str_Ok s id :
  block_from_str s = Ok id ↔ hex_decode s = Some (arr (block_bytes id)).
Proof.
  unfold block_from_str. destruct (hex_decode s) as [raw|]; cbn; [|naive_solver].
  destruct (to_array 32 raw) as [a|] eqn:E; cbn.
  - apply to_array_Some in E as <-. split; [by intros [= <-]|].
    intros [= Ea%array_eq]. by destruct id; cbn in *; subst.
  - apply to_array_None in E. split; [done|]. intros [= ->]. by rewrite arr_length in E.
Qed.

Lemma block_from_str_error s e : block_from_str s = Err e → e = InvalidId s.
Proof.
  unfold block_from_str. destruct (hex_decode s) as [raw|]; cbn; [|congruence].
  destruct (to_array 32 raw); cbn; congruence.
Qed.

End Block.

#[export] Hint Rewrite @block_verify_of : kalpak.

(** ** [identity.rs] *)
Section Identity.
Context `{Hex, Ed25519}.

Definition agent_from_verifying_key (k : array 32) : AgentId := MkAgentId k.

Definition agent_verify (a : AgentId) (message : bytes) (sig : array 64) : res Error () :=
  if verifying_key_valid (agent_bytes a) then
    if ed_verify (agent_bytes a) message sig then Ok () else Err BadSignature
  else Err InvalidAgentKey.

Definition agent_display (a : AgentId) : string := hex_encode (agent_bytes a).

Definition agent_from_str (s : string) : res Error AgentId :=
  raw ← ok_or (hex_decode s) (InvalidId s);
  a ← ok_or (to_array 32 raw) (InvalidId s);
  Ok (MkAgentId a).

End Identity.

(** ** [cache_key.rs] *)
Record ModelFingerprint := Fingerprint {
  model_id : string;
  tokenizer_hash : string;
  kv_layout : string }.

Record CacheKey := MkCacheKey { fingerprint : ModelFingerprint; prefix_hash : BlockId }.

#[export] Instance ModelFingerprint_eq_dec : EqDecision ModelFingerprint.
Proof. solve_decision. Defined.
#[export] Instance CacheKey_eq_dec : EqDecision CacheKey.
Proof. solve_decision. Defined.
#[export] Instance ModelFingerprint_countable : Countable ModelFingerprint :=
  inj_countable' (λ f, (model_id f, tokenizer_hash f, kv_layout f))
    (λ '(m, t, l), Fingerprint m t l) (λ '(Fingerprint _ _ _), eq_refl).
#[export] Instance CacheKey_countable : Countable CacheKey :=
  inj_countable' (λ k, (fingerprint k, prefix_hash k))
    (λ '(f, p), MkCacheKey f p) (λ '(MkCacheKey _ _), eq_refl).

Section CacheKeys.
Context `{Blake3}.

Definition is_u32 (z : Z) : Prop := 0 ≤ z ≤ u32_max.

(** What [hash_tokens] feeds the hasher. *)
Definition token_stream (parent : option BlockId) (tokens : list Z) : bytes :=
  match parent with Some p => arr (block_bytes p) | None => [] end
  ++ concat (le_bytes 4 <$> tokens).

Definition hash_tokens (parent : option BlockId) (tokens : list Z) : BlockId :=
  MkBlockId (blake3_hash (token_stream parent tokens)).

Definition root (fp : ModelFingerprint) (tokens : list Z) : CacheKey :=
  MkCacheKey fp (hash_tokens None tokens).

Definition extend (k : CacheKey) (tokens : list Z) : CacheKey :=
  MkCacheKey (fingerprint k) (hash_tokens (Some (prefix_hash k)) tokens).

Lemma length_concat_le n (l : list Z) :
  length (concat (le_bytes n <$> l)) = (n * length l)%nat.
Proof.
  induction l as [|z l IH]; [by rewrite Nat.mul_0_r|].
  cbn [fmap list_fmap concat length]. rewrite length_app, IH, length_le_bytes. lia.
Qed.

(** The stream determines the tokens, given whether there is a parent. *)
Lemma token_stream_inj p p' ts ts' :
  is_Some p ↔ is_Some p' → Forall is_u32 ts → Forall is_u32 ts' →
  token_stream p ts = token_stream p' ts' → p = p' ∧ ts = ts'.
Proof.
  intros Hp Hts Hts' E.
  assert (p = p' ∧ concat (le_bytes 4 <$> ts) = concat (le_bytes 4 <$> ts')) as [-> E'].
  { destruct p as [p|], p' as [p'|]; unfold token_stream in E; cbn in E.
    - apply self_delim_array in E as [Ep E]; [|done..].
      destruct p, p'; cbn in *; by subst.
    - exfalso. apply (is_Some_None (A:=BlockId)). apply Hp. eauto.
    - exfalso. apply (is_Some_None (A:=BlockId)). apply Hp. eauto.
    - done. }
  split; [done|]. clear E Hp.
  assert (length ts = length ts').
  { apply (f_equal length) in E'. rewrite !length_concat_le in E'. lia. }
  apply (self_delim_concat is_u32 (le_bytes 4) ts ts' [] []); auto.
  - eapply self_delim_weaken; [apply self_delim_le|].
    intros z. unfold is_u32, u32_max. cbn. lia.
  - by rewrite E'.
Qed.

(** Equal keys from different preimages would be a BLAKE3 collision on
    exactly those preimages: nothing else makes two chains meet. *)
Lemma extend_eq_iff k k' ts ts' :
  extend k ts = extend k' ts' ↔
  fingerprint k = fingerprint k' ∧
  blake3_hash (token_stream (Some (prefix_hash k)) ts) =
    blake3_hash (token_stream (Some (prefix_hash k')) ts').
Proof.
  unfold extend, hash_tokens. split; [by intros [= -> ->]|]. by intros [-> ->].
Qed.

(** The tokens whose little-endian bytes are a given byte string. *)
Fixpoint tokens_of (l : bytes) : list Z :=
  match l with
  | a :: b :: c :: d :: l => le_val [a; b; c; d] :: tokens_of l
  | _ => []
  end.

Lemma concat_tokens_of n (l : bytes) :
  length l = (4 * n)%nat → concat (le_bytes 4 <$> tokens_of l) = l.
Proof.
  revert l. induction n as [|n IH]; intros l Hl.
  - by destruct l.
  - destruct l as [|a [|b [|c [|d l]]]]; try (cbn in Hl; lia).
    cbn [tokens_of fmap list_fmap concat]. change 4%nat with (length [a; b; c; d]).
    rewrite le_bytes_val. cbn [length]. rewrite IH; [done|]. cbn in Hl. lia.
Qed.

Lemma tokens_of_u32 n (l : bytes) : length l = (4 * n)%nat → Forall is_u32 (tokens_of l).
Proof.
  revert l. induction n as [|n IH]; intros l Hl.
  - by destruct l.
  - destruct l as [|a [|b [|c [|d l]]]]; try (cbn in Hl; lia).
    cbn [tokens_of]. constructor; [|apply IH; cbn in Hl; lia].
    pose proof (le_val_range [a; b; c; d]). unfold is_u32, u32_max.
    unfold zlen in *. cbn [length] in *. lia.
Qed.

End CacheKeys.

(** ** Concrete instances

    Small functions that satisfy the laws assumed of BLAKE3, [hex] and
    Ed25519, so that the theorems stated over those classes can be applied to
    concrete inputs.  They are not models of the real libraries. *)

(** A checksum with 32 bytes of output: a polynomial of the bytes. *)
Definition toy_hash (l : bytes) : array 32 :=
  array_of 32 (foldl (λ acc b, (acc * 257 + byte_Z b + 1) mod 2 ^ 256) (zlen l) l).
Definition toy_blake3 : Blake3 := toy_hash.

Definition toy_hex : Hex := {|
  hex_encode := String.string_of_list_byte;
  hex_decode := λ s, Some (String.list_byte_of_string s) |}.
Lemma toy_hex_laws : @HexLaws toy_hex.
Proof. intros l. unfold hex_decode, hex_encode; simpl. f_equal. apply String.list_byte_of_string_of_list_byte. Qed.

(** Keys are their own public keys; a signature is the key and a checksum. *)
Definition toy_sign (k : array 32) (m : bytes) : array 64 :=
  array_of 64 (le_val k + 2 ^ 256 * le_val (toy_hash m)).
Definition toy_ed25519 : Ed25519 := {|
  SigningKey := array 32;
  verifying_key := λ k, k;
  verifying_key_valid := λ _, true;
  ed_verify := λ k m s, bool_decide (toy_sign k m = s);
  ed_sign := toy_sign |}.
Lemma toy_ed25519_laws : @Ed25519Laws toy_ed25519.
Proof. constructor; [done|]. intros. cbn. by apply bool_decide_eq_true. Qed.

(** Identities for examples. *)
Definition blk (n : Z) : BlockId := MkBlockId (array_of 32 n).
Definition agt (n : Z) : AgentId := MkAgentId (array_of 32 n).
Definition fp0 : ModelFingerprint := Fingerprint "m" "t" "l".
Definition key0 (n : Z) : CacheKey := MkCacheKey fp0 (blk n).

(** ** Properties *)

Lemma block_deserialize_serialize `{HexLaws} id : block_deserialize (block_serialize id) = Some id.
Proof. unfold block_deserialize, block_serialize. rewrite hex_decode_encode. cbn. rewrite to_array_arr. by destruct id. Qed.
Lemma block_from_str_total `{Hex} s : block_from_str s ≠ Panic.
Proof. unfold block_from_str. destruct (hex_decode s) as [l|]; cbn; [|done]. by destruct (to_array 32 l). Qed.

(** Printing a block id and parsing it back gives the id, in the [Display]
    and [FromStr] pair and in the serde pair; parsing accepts exactly the hex
    strings of 32 bytes and reports every other input as [InvalidId]. *)
Theorem block_id_roundtrip `{HexLaws} id s :
  block_from_str (block_display id) = Ok id ∧
  block_deserialize (block_serialize id) = Some id ∧
  (block_from_str s = Ok id ↔ hex_decode s = Some (arr (block_bytes id))) ∧
  (∀ r, block_from_str s = r → r = Err (InvalidId s) ∨ ∃ id', r = Ok id').
Proof.
  split_and!.
  - apply block_from_str_Ok, hex_decode_encode.
  - apply block_deserialize_serialize.
  - apply block_from_str_Ok.
  - intros r <-. destruct (block_from_str s) eqn:E; [eauto|left|].
    + by apply block_from_str_error in E as ->.
    + by apply block_from_str_total in E.
Qed.

Lemma block_id_roundtrip_witness :
  @block_from_str toy_hex (@block_display toy_hex (blk 7)) = Ok (blk 7).
Proof. apply (@block_id_roundtrip toy_hex toy_hex_laws (blk 7) ""). Defined.

(** Chained keys: keys of different models never coincide; and extending
    two keys by token lists gives the same key only for the same parent prefix
    and the same tokens, unless BLAKE3 collides on the two (then different)
    streams that were hashed. *)
Theorem chained_keys_split `{Blake3} k k' ts ts' :
  Forall is_u32 ts → Forall is_u32 ts' → extend k ts = extend k' ts' →
  fingerprint k = fingerprint k' ∧
  ((k = k' ∧ ts = ts') ∨
   token_stream (Some (prefix_hash k)) ts ≠ token_stream (Some (prefix_hash k')) ts' ∧
   blake3_hash (token_stream (Some (prefix_hash k)) ts)
   = blake3_hash (token_stream (Some (prefix_hash k')) ts')).
Proof.
  intros Ht Ht' [Hf Hh]%extend_eq_iff. split; [done|].
  destruct (decide (token_stream (Some (prefix_hash k)) ts
    = token_stream (Some (prefix_hash k')) ts')) as [E|E]; [left|by right].
  apply token_stream_inj in E as [[= Ep] ->]; [|naive_solver|done..].
  split; [|done]. destruct k, k'; cbn in *; by subst.
Qed.

Lemma chained_keys_split_witness :
  Forall is_u32 [4; 5] ∧
  fingerprint (key0 1) = fingerprint (key0 1).
Proof.
  assert (Forall is_u32 [4; 5]) as Hu
    by (repeat constructor; unfold is_u32, u32_max; lia).
  split; [exact Hu|].
  apply (@chained_keys_split toy_blake3 (key0 1) (key0 1) [4; 5] [4; 5] Hu Hu eq_refl).
Defined.

(** A root key can be made to meet an extended key: the stream of
    [extend k ts] is also the stream of a root whose first eight tokens spell
    the parent's prefix hash, so both have the same key.  Roots and extensions
    are not separated by the hash. *)
Theorem root_meets_extension `{Blake3} k ts :
  root (fingerprint k) (tokens_of (block_bytes (prefix_hash k)) ++ ts) = extend k ts ∧
  Forall is_u32 (tokens_of (block_bytes (prefix_hash k))) ∧
  length (tokens_of (block_bytes (prefix_hash k))) = 8%nat.
Proof.
  assert (concat (le_bytes 4 <$> tokens_of (block_bytes (prefix_hash k)))
    = arr (block_bytes (prefix_hash k))) as Et.
  { apply (concat_tokens_of 8). by rewrite arr_length. }
  split_and!.
  - unfold root, extend. f_equal. unfold hash_tokens. do 2 f_equal. unfold token_stream.
    by rewrite fmap_app, concat_app, Et.
  - apply (tokens_of_u32 8). by rewrite arr_length.
  - apply (f_equal length) in Et. rewrite length_concat_le, arr_length in Et. lia.
Qed.
