(* ===== verification/Signing.v ===== *)
(** * Canonical signed messages ([crates/kalpak-core/src/signing.rs])

    One definition per message builder.  [message] collects the seven kinds
    so that the separation of domains and the injectivity of the encodings
    can be stated once over all of them. *)

From S2P Require Import Prelude Encoding Core.
From Stdlib Require Import Strings.Byte.

Definition nul_string (s : string) : bytes := str_bytes s ++ [x00].

Definition REGISTER_PREFIX : bytes := Eval vm_compute in nul_string "KLPK/reg/v1".
Definition BIND_PREFIX : bytes := Eval vm_compute in nul_string "KLPK/bind/v1".
Definition CHAIN_PREFIX : bytes := Eval vm_compute in nul_string "KLPK/chain/v1".
Definition LEASE_BEGIN_PREFIX : bytes := Eval vm_compute in nul_string "KLPK/lease/begin/v1".
Definition LEASE_CANCEL_PREFIX : bytes := Eval vm_compute in nul_string "KLPK/lease/cancel/v1".
Definition LEASE_RENEW_PREFIX : bytes := Eval vm_compute in nul_string "KLPK/lease/renew/v1".
Definition LEASE_COMMIT_PREFIX : bytes := Eval vm_compute in nul_string "KLPK/lease/commit/v1".

Definition push_blocks (blocks : list BlockId) : bytes :=
  concat ((λ b, arr (block_bytes b)) <$> blocks).

Definition push_key (buf : bytes) (key : CacheKey) : bytes :=
  buf ++ str_bytes (model_id (fingerprint key)) ++ [x00]
      ++ str_bytes (tokenizer_hash (fingerprint key)) ++ [x00]
      ++ str_bytes (kv_layout (fingerprint key)) ++ [x00]
      ++ arr (block_bytes (prefix_hash key)).

(** [blocks.len() as u32] keeps the low 32 bits, as [le_bytes 4] does. *)
Definition push_link (buf : bytes) (key : CacheKey) (blocks : list BlockId)
    (parent : option CacheKey) : bytes :=
  push_key buf key ++ le_bytes 4 (zlen blocks) ++ push_blocks blocks
  ++ match parent with
     | Some p => [x01] ++ arr (block_bytes (prefix_hash p))
     | None => [x00]
     end.

Definition register_message (agent : AgentId) (display_name : string) : bytes :=
  REGISTER_PREFIX ++ arr (agent_bytes agent) ++ str_bytes display_name.

Definition bind_message (agent : AgentId) (key : CacheKey) (blocks : list BlockId)
    (parent : option CacheKey) : bytes :=
  push_link (BIND_PREFIX ++ arr (agent_bytes agent)) key blocks parent.

Definition chain_message (agent : AgentId)
    (links : list (CacheKey * list BlockId * option CacheKey)) : bytes :=
  foldl (λ buf '(key, blocks, parent), push_link buf key blocks parent)
    (CHAIN_PREFIX ++ arr (agent_bytes agent) ++ le_bytes 4 (zlen links)) links.

Definition push_lease_key (buf : bytes) (key : CacheKey) : bytes :=
  foldl (λ buf value, buf ++ le_bytes 8 (str_len value) ++ str_bytes value) buf
    [model_id (fingerprint key); tokenizer_hash (fingerprint key); kv_layout (fingerprint key)]
  ++ arr (block_bytes (prefix_hash key)).

Definition lease_begin_message (agent : AgentId) (lease : BlockId) (blocks : list BlockId) : bytes :=
  LEASE_BEGIN_PREFIX ++ arr (agent_bytes agent) ++ arr (block_bytes lease)
  ++ le_bytes 8 (zlen blocks) ++ push_blocks blocks.

Definition lease_cancel_message (agent : AgentId) (lease : BlockId) : bytes :=
  LEASE_CANCEL_PREFIX ++ arr (agent_bytes agent) ++ arr (block_bytes lease).

Definition lease_renew_message (agent : AgentId) (lease : BlockId)
    (expected_generation ttl_ticks : Z) : bytes :=
  LEASE_RENEW_PREFIX ++ arr (agent_bytes agent) ++ arr (block_bytes lease)
  ++ le_bytes 8 expected_generation ++ le_bytes 8 ttl_ticks.

Definition lease_commit_message (agent : AgentId) (lease : BlockId) (key : CacheKey)
    (blocks : list BlockId) (parent : option CacheKey) (expected_revision : Z) : bytes :=
  let buf := LEASE_COMMIT_PREFIX ++ arr (agent_bytes agent) ++ arr (block_bytes lease)
               ++ le_bytes 8 expected_revision in
  let buf := push_lease_key buf key in
  let buf := buf ++ le_bytes 8 (zlen blocks) ++ push_blocks blocks in
  match parent with
  | Some p => push_lease_key (buf ++ [x01]) p
  | None => buf ++ [x00]
  end.

Section Wire.
Context `{Hex, Ed25519}.

Definition sign_hex (key : SigningKey) (message : bytes) : string :=
  hex_encode (ed_sign key message).

Definition signature_from_hex (s : string) : res Error (array 64) :=
  raw ← ok_or (hex_decode s) BadSignature;
  ok_or (to_array 64 raw) BadSignature.

End Wire.

(** ** All messages *)
Inductive message :=
| MRegister (agent : AgentId) (display_name : string)
| MBind (agent : AgentId) (key : CacheKey) (blocks : list BlockId) (parent : option CacheKey)
| MChain (agent : AgentId) (links : list (CacheKey * list BlockId * option CacheKey))
| MLeaseBegin (agent : AgentId) (lease : BlockId) (blocks : list BlockId)
| MLeaseCancel (agent : AgentId) (lease : BlockId)
| MLeaseRenew (agent : AgentId) (lease : BlockId) (generation ttl : Z)
| MLeaseCommit (agent : AgentId) (lease : BlockId) (key : CacheKey) (blocks : list BlockId)
    (parent : option CacheKey) (revision : Z).

Definition message_bytes (m : message) : bytes :=
  match m with
  | MRegister a n => register_message a n
  | MBind a k bs p => bind_message a k bs p
  | MChain a ls => chain_message a ls
  | MLeaseBegin a l bs => lease_begin_message a l bs
  | MLeaseCancel a l => lease_cancel_message a l
  | MLeaseRenew a l g t => lease_renew_message a l g t
  | MLeaseCommit a l k bs p r => lease_commit_message a l k bs p r
  end.

Definition message_kind (m : message) : nat :=
  match m with
  | MRegister _ _ => 0 | MBind _ _ _ _ => 1 | MChain _ _ => 2 | MLeaseBegin _ _ _ => 3
  | MLeaseCancel _ _ => 4 | MLeaseRenew _ _ _ _ => 5 | MLeaseCommit _ _ _ _ _ _ => 6
  end.

Definition message_agent (m : message) : AgentId :=
  match m with
  | MRegister a _ | MBind a _ _ _ | MChain a _ | MLeaseBegin a _ _ | MLeaseCancel a _
  | MLeaseRenew a _ _ _ | MLeaseCommit a _ _ _ _ _ => a
  end.

Definition message_prefix (m : message) : bytes :=
  match m with
  | MRegister _ _ => REGISTER_PREFIX | MBind _ _ _ _ => BIND_PREFIX | MChain _ _ => CHAIN_PREFIX
  | MLeaseBegin _ _ _ => LEASE_BEGIN_PREFIX | MLeaseCancel _ _ => LEASE_CANCEL_PREFIX
  | MLeaseRenew _ _ _ _ => LEASE_RENEW_PREFIX | MLeaseCommit _ _ _ _ _ _ => LEASE_COMMIT_PREFIX
  end.

(** The body of a message, after its domain prefix and the agent. *)
Definition key_bytes (key : CacheKey) : bytes := push_key [] key.
Definition link_bytes (l : CacheKey * list BlockId * option CacheKey) : bytes :=
  push_link [] l.1.1 l.1.2 l.2.
Definition lease_key_bytes (key : CacheKey) : bytes := push_lease_key [] key.

Lemma push_key_app buf key : push_key buf key = buf ++ key_bytes key.
Proof. done. Qed.
Lemma push_link_app buf k bs p : push_link buf k bs p = buf ++ link_bytes (k, bs, p).
Proof. unfold push_link, link_bytes, push_link. rewrite push_key_app. by rewrite <-app_assoc. Qed.
Lemma push_lease_key_app buf key : push_lease_key buf key = buf ++ lease_key_bytes key.
Proof. unfold push_lease_key, lease_key_bytes, push_lease_key. cbn. by rewrite <-!app_assoc. Qed.

Lemma foldl_push_link buf links :
  foldl (λ buf '(key, blocks, parent), push_link buf key blocks parent) buf links
  = buf ++ concat (link_bytes <$> links).
Proof.
  revert buf. induction links as [|[[k bs] p] links IH]; intros buf; cbn.
  - by rewrite app_nil_r.
  - rewrite IH, push_link_app, <-app_assoc. done.
Qed.

Definition message_body (m : message) : bytes :=
  match m with
  | MRegister _ n => str_bytes n
  | MBind _ k bs p => link_bytes (k, bs, p)
  | MChain _ ls => counted 4 link_bytes ls
  | MLeaseBegin _ l bs => arr (block_bytes l) ++ counted 8 (λ b, arr (block_bytes b)) bs
  | MLeaseCancel _ l => arr (block_bytes l)
  | MLeaseRenew _ l g t => arr (block_bytes l) ++ le_bytes 8 g ++ le_bytes 8 t
  | MLeaseCommit _ l k bs p r =>
      arr (block_bytes l) ++ le_bytes 8 r ++ lease_key_bytes k
      ++ counted 8 (λ b, arr (block_bytes b)) bs ++ tagged lease_key_bytes p
  end.

Lemma message_bytes_split m :
  message_bytes m = message_prefix m ++ arr (agent_bytes (message_agent m)) ++ message_body m.
Proof.
  destruct m as [a n|a k bs p|a ls|a l bs|a l|a l g t|a l k bs p r];
    cbn [message_bytes message_prefix message_body message_agent]; try done.
  - unfold bind_message. rewrite push_link_app. by rewrite <-app_assoc.
  - unfold chain_message. rewrite foldl_push_link. unfold counted. by rewrite <-!app_assoc.
  - unfold lease_commit_message. rewrite push_lease_key_app.
    destruct p as [p|]; cbn [tagged].
    + rewrite push_lease_key_app. unfold counted. by rewrite <-!app_assoc.
    + unfold counted. by rewrite <-!app_assoc.
Qed.

(** ** What a signature covers *)

(** A bind signature covers the parent's prefix hash only: it sees the parent
    as if it had the fingerprint of the key. *)
Definition signed_parent (key : CacheKey) (p : CacheKey) : CacheKey :=
  MkCacheKey (fingerprint key) (prefix_hash p).
Definition signed_link (l : CacheKey * list BlockId * option CacheKey) :=
  (l.1.1, l.1.2, signed_parent l.1.1 <$> l.2).
Definition signed_view (m : message) : message :=
  match m with
  | MBind a k bs p => MBind a k bs (signed_parent k <$> p)
  | MChain a ls => MChain a (signed_link <$> ls)
  | m => m
  end.

Definition nul_free (s : string) : Prop := x00 ∉ str_bytes s.
Definition key_nul_free (k : CacheKey) : Prop :=
  nul_free (model_id (fingerprint k)) ∧ nul_free (tokenizer_hash (fingerprint k))
  ∧ nul_free (kv_layout (fingerprint k)).
Definition link_ok (l : CacheKey * list BlockId * option CacheKey) : Prop :=
  key_nul_free l.1.1 ∧ zlen l.1.2 < 2 ^ 32.
Definition lease_key_ok (k : CacheKey) : Prop :=
  str_len (model_id (fingerprint k)) < 2 ^ 64 ∧ str_len (tokenizer_hash (fingerprint k)) < 2 ^ 64
  ∧ str_len (kv_layout (fingerprint k)) < 2 ^ 64.

(** The inputs for which the encodings are unambiguous: no NUL inside the
    NUL-terminated strings, counts and integers that fit their fields. *)
Definition message_ok (m : message) : Prop :=
  match m with
  | MRegister _ _ => True
  | MBind _ k bs p => link_ok (k, bs, p)
  | MChain _ ls => zlen ls < 2 ^ 32 ∧ Forall link_ok ls
  | MLeaseBegin _ _ bs => zlen bs < 2 ^ 64
  | MLeaseCancel _ _ => True
  | MLeaseRenew _ _ g t => is_u64 g ∧ is_u64 t
  | MLeaseCommit _ _ k bs p r =>
      lease_key_ok k ∧ zlen bs < 2 ^ 64 ∧ (∀ k', p = Some k' → lease_key_ok k') ∧ is_u64 r
  end.

Lemma self_delim_block : self_delim (λ _ : BlockId, True) (λ b, arr (block_bytes b)).
Proof.
  eapply (self_delim_map _ _ arr block_bytes); [apply self_delim_array|done|].
  by intros [a] [b] _ _ [= ->].
Qed.

Lemma self_delim_blocks n :
  self_delim (λ l : list BlockId, zlen l < 2 ^ (8 * Z.of_nat n)) (counted n (λ b, arr (block_bytes b))).
Proof.
  eapply self_delim_weaken; [eapply self_delim_counted, self_delim_block|].
  intros l Hl. split; [done|]. by apply Forall_true.
Qed.

Lemma self_delim_u64 : self_delim is_u64 (le_bytes 8).
Proof.
  eapply self_delim_weaken; [apply self_delim_le|].
  intros z. unfold is_u64, u64_max. cbn. lia.
Qed.

Lemma self_delim_key : self_delim key_nul_free key_bytes.
Proof.
  intros k k' r s (H1 & H2 & H3) (H1' & H2' & H3') E.
  unfold key_bytes, push_key in E. rewrite !app_nil_l, <-!app_assoc in E.
  rewrite 3!(app_assoc _ [x00]) in E. rewrite !(app_assoc _ [x00]) in E.
  fold (nul_terminated (str_bytes (model_id (fingerprint k)))) in E.
  fold (nul_terminated (str_bytes (model_id (fingerprint k')))) in E.
  apply self_delim_nul in E as [E1 E]; [|done..].
  fold (nul_terminated (str_bytes (tokenizer_hash (fingerprint k)))) in E.
  fold (nul_terminated (str_bytes (tokenizer_hash (fingerprint k')))) in E.
  apply self_delim_nul in E as [E2 E]; [|done..].
  fold (nul_terminated (str_bytes (kv_layout (fingerprint k)))) in E.
  fold (nul_terminated (str_bytes (kv_layout (fingerprint k')))) in E.
  apply self_delim_nul in E as [E3 E]; [|done..].
  apply self_delim_block in E as [E4 ->]; [|done..].
  apply str_bytes_inj in E1, E2, E3.
  destruct k as [[] ?], k' as [[] ?]; cbn in *; by subst.
Qed.

Lemma link_bytes_view l l' r s :
  link_ok l → link_ok l' → link_bytes l ++ r = link_bytes l' ++ s →
  signed_link l = signed_link l' ∧ r = s.
Proof.
  destruct l as [[k bs] p], l' as [[k' bs'] p'].
  intros [Hk Hbs] [Hk' Hbs'] E. cbn in Hk, Hk', Hbs, Hbs'.
  unfold link_bytes, push_link in E; cbn [fst snd] in E.
  fold (key_bytes k) (key_bytes k') in E. rewrite <-!app_assoc in E.
  apply self_delim_key in E as [-> E]; [|done..].
  rewrite (app_assoc (le_bytes 4 (zlen bs))), (app_assoc (le_bytes 4 (zlen bs'))) in E.
  apply (self_delim_blocks 4) in E as [-> E]; [|done..].
  assert (signed_parent k' <$> p = signed_parent k' <$> p' ∧ r = s) as [Ep ->].
  { destruct p as [p|], p' as [p'|]; cbn in E; try discriminate.
    - injection E as E. apply self_delim_block in E as [E ->]; [|done..].
      split; [|done]. cbn. unfold signed_parent. by rewrite E.
    - injection E as ->. done. }
  unfold signed_link; cbn. by rewrite Ep.
Qed.

Lemma links_bytes_view ls ls' r s :
  length ls = length ls' → Forall link_ok ls → Forall link_ok ls' →
  concat (link_bytes <$> ls) ++ r = concat (link_bytes <$> ls') ++ s →
  signed_link <$> ls = signed_link <$> ls' ∧ r = s.
Proof.
  revert ls'. induction ls as [|l ls IH]; intros [|l' ls'] Hlen Hl Hl' E; try done.
  apply Forall_cons in Hl as [Hl Hls]. apply Forall_cons in Hl' as [Hl' Hls'].
  rewrite !fmap_cons in E; cbn [concat] in E. rewrite <-!app_assoc in E.
  apply link_bytes_view in E as [El E]; [|done..].
  apply IH in E as [Els ->]; [|by injection Hlen|done..].
  by rewrite !fmap_cons, El, Els.
Qed.

Lemma self_delim_lease_key : self_delim lease_key_ok lease_key_bytes.
Proof.
  intros k k' r s (H1 & H2 & H3) (H1' & H2' & H3') E.
  unfold lease_key_bytes, push_lease_key in E; cbn [foldl] in E.
  rewrite !app_nil_l, <-!app_assoc in E.
  do 3 (rewrite (app_assoc (le_bytes 8 _)) in E;
        match type of E with _ = ?x ++ ?y => rewrite (app_assoc x) in E end;
        apply (self_delim_length_prefixed 8) in E as [?%str_bytes_inj E]; [|done..]).
  apply self_delim_block in E as [? ->]; [|done..].
  destruct k as [[] ?], k' as [[] ?]; cbn in *; by subst.
Qed.

Lemma message_domains m m' r s :
  message_prefix m ++ r = message_prefix m' ++ s → message_kind m = message_kind m' ∧ r = s.
Proof.
  destruct m, m'; cbn [message_prefix message_kind]; intros E;
    solve [by apply app_inv_head in E | discriminate E].
Qed.

(** ** Properties *)

(** A signature never validates another operation or another agent: two
    signed messages with the same bytes are of the same kind (register, bind,
    chain, lease begin, cancel, renew, commit) and name the same agent,
    whatever the other fields hold. *)
Theorem signed_domains_separate m m' :
  message_bytes m = message_bytes m' →
  message_kind m = message_kind m' ∧ message_agent m = message_agent m'.
Proof.
  rewrite !message_bytes_split. intros [Hk E]%message_domains. split; [done|].
  apply self_delim_array in E as [E _]; [|done..].
  destruct (message_agent m), (message_agent m'); cbn in *; by subst.
Qed.

(** Two binds that differ in the model of their declared parent. *)
Definition bind_ex (model : string) : message :=
  MBind (agt 1) (key0 2) [blk 3] (Some (MkCacheKey (Fingerprint model "t" "l") (blk 5))).

Lemma signed_domains_separate_witness :
  bind_ex "a" ≠ bind_ex "b" ∧ message_kind (bind_ex "a") = message_kind (bind_ex "b")
  ∧ message_agent (bind_ex "a") = message_agent (bind_ex "b").
Proof.
  split; [intros [=]|].
  apply (signed_domains_separate (bind_ex "a") (bind_ex "b")). vm_compute. reflexivity.
Defined.

(** C26. The encodings are injective on well-formed inputs (no NUL inside the
    NUL-terminated fingerprint strings of bind and chain messages, counts that
    fit): equal bytes mean the same request, except that bind and chain
    messages cover a parent only through its prefix hash.  Lease messages,
    which are length-prefixed, need no condition on the strings' contents. *)
Theorem signed_message_injective m m' :
  message_ok m → message_ok m' → message_bytes m = message_bytes m' →
  signed_view m = signed_view m'.
Proof.
  intros Hm Hm' E. rewrite !message_bytes_split in E.
  apply message_domains in E as [Hk E].
  apply self_delim_array in E as [Ea E]; [|done..].
  assert (message_agent m = message_agent m') as Hag
    by (destruct (message_agent m), (message_agent m'); cbn in *; by subst).
  destruct m as [a n|a k bs p|a ls|a l bs|a l|a l g t|a l k bs p r],
    m' as [a' n'|a' k' bs' p'|a' ls'|a' l' bs'|a' l'|a' l' g' t'|a' l' k' bs' p' r'];
    try discriminate Hk; cbn [message_agent message_body message_ok signed_view] in *; subst a'.
  - by apply str_bytes_inj in E as ->.
  - rewrite <-(app_nil_r (link_bytes (k, bs, p))), <-(app_nil_r (link_bytes (k', bs', p'))) in E.
    apply link_bytes_view in E as [[= -> -> Ep] _]; [|done..]. cbn in Ep. by rewrite Ep.
  - destruct Hm as [Hn Hf], Hm' as [Hn' Hf']. unfold counted in E.
    apply (self_delim_le 4) in E as [Elen%zlen_eq_length E]; [|auto using zlen_nonneg..].
    rewrite <-(app_nil_r (concat (link_bytes <$> ls))),
      <-(app_nil_r (concat (link_bytes <$> ls'))) in E.
    by apply links_bytes_view in E as [-> _].
  - apply self_delim_block in E as [-> E]; [|done..].
    by apply (self_delim_inj _ _ _ _ (self_delim_blocks 8)) in E as ->.
  - by apply (self_delim_inj _ _ _ _ self_delim_block) in E as ->.
  - destruct Hm, Hm'. apply self_delim_block in E as [-> E]; [|done..].
    apply self_delim_u64 in E as [-> E]; [|done..].
    by apply (self_delim_inj _ _ _ _ self_delim_u64) in E as ->.
  - destruct Hm as (?&?&?&?), Hm' as (?&?&?&?).
    apply self_delim_block in E as [-> E]; [|done..].
    apply self_delim_u64 in E as [-> E]; [|done..].
    apply self_delim_lease_key in E as [-> E]; [|done..].
    apply (self_delim_blocks 8) in E as [-> E]; [|done..].
    by apply (self_delim_inj _ _ _ _ (self_delim_tagged _ _ self_delim_lease_key)) in E as ->.
Qed.

Lemma signed_message_injective_witness :
  bind_ex "a" ≠ bind_ex "b" ∧ signed_view (bind_ex "a") = signed_view (bind_ex "b").
Proof.
  split; [intros [=]|].
  apply (signed_message_injective (bind_ex "a") (bind_ex "b")); [| |vm_compute; reflexivity].
  all: split; [|reflexivity].
  all: unfold key_nul_free, nul_free; repeat split;
    apply (bool_decide_eq_true_1 _); vm_compute; reflexivity.
Defined.

(** The fingerprint of a declared parent is outside the signature: a bind
    or chain link signed with one parent carries the same bytes for every
    parent with that prefix hash, of any model; and a NUL inside a
    NUL-terminated fingerprint string moves the boundary between two fields,
    so two different keys can share one bind message. *)
Theorem bind_signature_gaps agent key blocks p p' :
  (prefix_hash p = prefix_hash p' →
   bind_message agent key blocks (Some p) = bind_message agent key blocks (Some p'))
  ∧ ∃ k k' : CacheKey, k ≠ k' ∧ bind_message agent k blocks None = bind_message agent k' blocks None.
Proof.
  split.
  - intros E. unfold bind_message, push_link. by rewrite E.
  - set (nul := String.string_of_list_byte [x00]).
    exists (MkCacheKey (Fingerprint ("m" +:+ nul +:+ "x") "y" "l") (prefix_hash key)),
      (MkCacheKey (Fingerprint "m" ("x" +:+ nul +:+ "y") "l") (prefix_hash key)).
    split; [intros [=]|]. done.
Qed.
