(* ===== verification/Metadata.v ===== *)
(** * Replicated metadata: data types
      ([crates/kalpak-control/src/types.rs] and the structs of [leases.rs]
      and [state_machine.rs])

    The commands Raft replicates, their replies, and the state they act on.
    [HashMap]/[BTreeMap] fields are [gmap]s.  [openraft]'s [LogId] and
    [StoredMembership] are plain data here: the code reads a log id's index
    and compares both for equality.  [binding_key], the JSON text of a cache
    key, is a parameter: [serde_json] is not part of the repository. *)

From S2P Require Import Prelude Core.

Abbreviation NodeId := Z (only parsing).

(** [binding_key]: [serde_json::to_string] of the key.  Serialization can be
    read back, so different keys have different texts. *)
Class BindingKey := binding_key : CacheKey → string.
Class BindingKeyLaws `{BindingKey} := binding_key_inj :: Inj (=) (=) binding_key.

(** ** [types.rs] *)
Record ChainBinding := MkChainBinding {
  cb_key : CacheKey;
  cb_blocks : list BlockId;
  cb_parent : option CacheKey }.

Inductive Request :=
| RequireReplicas (blocks : list BlockId) (replicas : Z)
| RegisterAgent (agent : AgentId) (display_name : string)
| BindPrefix (agent : AgentId) (key : CacheKey) (blocks : list BlockId) (parent : option CacheKey)
| BindChain (agent : AgentId) (bindings : list ChainBinding)
| BeginUploadLease (lease : BlockId) (agent : AgentId) (blocks : list BlockId)
| CommitUploadLease (lease : BlockId) (agent : AgentId) (binding : ChainBinding)
    (expected_revision : Z)
| CancelUploadLease (lease : BlockId) (agent : AgentId)
| RenewUploadLease (lease : BlockId) (agent : AgentId) (expected_generation ttl_ticks : Z)
| AdvanceLeaseClock (expected_tick : Z)
| ExpireUploadLease (lease : BlockId) (generation deadline_tick : Z).

Inductive Response :=
| ReplicasRequired
| Rejected (message : string)
| Registered
| Bound
| LeaseReserved
| LeaseCancelled
| LeaseRenewed (generation deadline_tick : Z)
| LeaseClockAdvanced
| LeaseExpired.

#[export] Instance ChainBinding_eq_dec : EqDecision ChainBinding.
Proof. solve_decision. Defined.
#[export] Instance Response_eq_dec : EqDecision Response.
Proof. solve_decision. Defined.

Definition is_rejected (r : Response) : bool :=
  match r with Rejected _ => true | _ => false end.

(** ** [openraft] data *)
Record LogId := MkLogId { log_term : Z; log_node : NodeId; log_index : Z }.
Record Membership := MkMembership { mem_configs : list (gset NodeId); mem_nodes : gmap NodeId string }.
Record StoredMembership := MkStored { sm_log_id : option LogId; sm_membership : Membership }.
Definition default_membership : StoredMembership := MkStored None (MkMembership [] ∅).

#[export] Instance LogId_eq_dec : EqDecision LogId.
Proof. solve_decision. Defined.
#[export] Instance Membership_eq_dec : EqDecision Membership.
Proof. solve_decision. Defined.
#[export] Instance StoredMembership_eq_dec : EqDecision StoredMembership.
Proof. solve_decision. Defined.

Inductive EntryPayload :=
| Blank
| Normal (req : Request)
| EMembership (m : Membership).
Record Entry := MkEntry { entry_log_id : LogId; entry_payload : EntryPayload }.

(** ** [leases.rs]: the lease records *)
Definition MAX_LEASES : Z := 4096.
Definition MAX_LEASE_BLOCKS : Z := 256.
Definition MAX_RESERVED_BLOCKS : Z := 65536.
Definition MAX_TTL_TICKS : Z := 86400.

Record LeaseDeadline := MkDeadline {
  generation : Z;
  deadline_tick : Z;
  ttl_ticks : Z }.

Record LeaseCommit := MkCommit { commit_binding : ChainBinding; commit_expected_revision : Z }.

Record UploadLease := MkLease {
  lease_agent : AgentId;
  lease_blocks : list BlockId;
  created_at : Z;
  committed : option LeaseCommit }.

Record LeaseState := MkLeaseState {
  initialized : bool;
  records : gmap BlockId UploadLease;
  revisions : gmap string Z;
  cancelled : gmap BlockId Z;
  clock : Z;
  deadlines : gmap BlockId LeaseDeadline;
  expired : gmap BlockId Z }.

Definition default_leases : LeaseState := MkLeaseState false ∅ ∅ ∅ 0 ∅ ∅.

Definition set_initialized (b : bool) (l : LeaseState) : LeaseState :=
  MkLeaseState b (records l) (revisions l) (cancelled l) (clock l) (deadlines l) (expired l).
Definition set_records m (l : LeaseState) : LeaseState :=
  MkLeaseState (initialized l) m (revisions l) (cancelled l) (clock l) (deadlines l) (expired l).
Definition set_revisions m (l : LeaseState) : LeaseState :=
  MkLeaseState (initialized l) (records l) m (cancelled l) (clock l) (deadlines l) (expired l).
Definition set_cancelled m (l : LeaseState) : LeaseState :=
  MkLeaseState (initialized l) (records l) (revisions l) m (clock l) (deadlines l) (expired l).
Definition set_clock c (l : LeaseState) : LeaseState :=
  MkLeaseState (initialized l) (records l) (revisions l) (cancelled l) c (deadlines l) (expired l).
Definition set_deadlines m (l : LeaseState) : LeaseState :=
  MkLeaseState (initialized l) (records l) (revisions l) (cancelled l) (clock l) m (expired l).
Definition set_expired m (l : LeaseState) : LeaseState :=
  MkLeaseState (initialized l) (records l) (revisions l) (cancelled l) (clock l) (deadlines l) m.

(** ** [state_machine.rs]: the metadata state *)
Record AgentRecord := MkAgentRecord { display_name : string; registered_at : Z }.
Record BindingRecord := MkBinding { rec_agent : AgentId; rec_blocks : list BlockId }.

Record MetadataState := MkState {
  block_fences : gmap BlockId Z;
  leases : LeaseState;
  replica_requirements : gmap BlockId Z;
  agents : gmap AgentId AgentRecord;
  bindings : gmap string BindingRecord;
  children : gmap string (list string);
  block_refs : gmap BlockId Z;
  last_applied : option LogId;
  membership : StoredMembership }.

Definition default_state : MetadataState :=
  MkState ∅ default_leases ∅ ∅ ∅ ∅ ∅ None default_membership.

Definition set_fences m (s : MetadataState) : MetadataState :=
  MkState m (leases s) (replica_requirements s) (agents s) (bindings s) (children s)
    (block_refs s) (last_applied s) (membership s).
Definition set_leases l (s : MetadataState) : MetadataState :=
  MkState (block_fences s) l (replica_requirements s) (agents s) (bindings s) (children s)
    (block_refs s) (last_applied s) (membership s).
Definition set_replicas m (s : MetadataState) : MetadataState :=
  MkState (block_fences s) (leases s) m (agents s) (bindings s) (children s)
    (block_refs s) (last_applied s) (membership s).
Definition set_agents m (s : MetadataState) : MetadataState :=
  MkState (block_fences s) (leases s) (replica_requirements s) m (bindings s) (children s)
    (block_refs s) (last_applied s) (membership s).
Definition set_bindings m (s : MetadataState) : MetadataState :=
  MkState (block_fences s) (leases s) (replica_requirements s) (agents s) m (children s)
    (block_refs s) (last_applied s) (membership s).
Definition set_children m (s : MetadataState) : MetadataState :=
  MkState (block_fences s) (leases s) (replica_requirements s) (agents s) (bindings s) m
    (block_refs s) (last_applied s) (membership s).
Definition set_block_refs m (s : MetadataState) : MetadataState :=
  MkState (block_fences s) (leases s) (replica_requirements s) (agents s) (bindings s) (children s)
    m (last_applied s) (membership s).
Definition set_last_applied o (s : MetadataState) : MetadataState :=
  MkState (block_fences s) (leases s) (replica_requirements s) (agents s) (bindings s) (children s)
    (block_refs s) o (membership s).
Definition set_membership m (s : MetadataState) : MetadataState :=
  MkState (block_fences s) (leases s) (replica_requirements s) (agents s) (bindings s) (children s)
    (block_refs s) (last_applied s) m.

(** [state.last_applied.map(|id| id.index).unwrap_or(0)]. *)
Definition applied_index (s : MetadataState) : Z :=
  default 0 (log_index <$> last_applied s).

(** A concrete [binding_key] for examples: the bits of the key's code. *)
Fixpoint bit_string (p : positive) : string :=
  match p with
  | xH => ""
  | xO p => "0" +:+ bit_string p
  | xI p => "1" +:+ bit_string p
  end.
Definition toy_binding_key : BindingKey := λ k, bit_string (encode k).

Lemma bit_string_inj p q : bit_string p = bit_string q → p = q.
Proof. revert q. induction p; intros [] [=]; f_equal; auto. Qed.
Lemma toy_binding_key_laws : @BindingKeyLaws toy_binding_key.
Proof. intros k k' E. by apply bit_string_inj, (inj encode) in E. Qed.
