(* ===== verification/Leases.v ===== *)
(** * Upload leases ([crates/kalpak-control/src/leases.rs])

    Replicated reservations with optional expiry in logical ticks.  Each
    operation takes the metadata state and returns it with the reply; the
    state after a rejected request is the state the code leaves behind. *)

From S2P Require Import Prelude Core Metadata.

(** ** Validation of a binding *)
Definition valid_key (key : CacheKey) : bool :=
  forallb (λ value, str_len value <=? 1024)
    [model_id (fingerprint key); tokenizer_hash (fingerprint key); kv_layout (fingerprint key)].

Definition valid_binding (binding : ChainBinding) : bool :=
  valid_key (cb_key binding)
  && match cb_parent binding with
     | None => true
     | Some parent =>
         valid_key parent && bool_decide (fingerprint parent = fingerprint (cb_key binding))
     end.

(** ** Queries *)
Definition is_expired (l : LeaseState) (id : BlockId) : bool :=
  match records l !! id with
  | Some lease => match committed lease with None => true | Some _ => false end
  | None => false
  end
  && negb (contains_key (cancelled l) id)
  && (contains_key (expired l) id
      || match deadlines l !! id with
         | Some deadline => deadline_tick deadline <=? clock l
         | None => false
         end).

Record LeaseStatusCounts := MkCounts {
  total : Z;
  pending : Z;
  n_committed : Z;
  n_cancelled : Z;
  n_expired : Z;
  current_tick : Z;
  expiry_markers : Z }.

(** [usize] subtraction: an underflow would panic (or wrap), so the model
    returns nothing for it. *)
Definition status_counts (l : LeaseState) : option LeaseStatusCounts :=
  let c := map_count (λ _ lease, bool_decide (is_Some (committed lease))) (records l) in
  let e := map_count (λ id _, is_expired l id) (records l) in
  p ← checked_sub (zsize (records l)) c;
  p ← checked_sub p e;
  p ← checked_sub p (zsize (cancelled l));
  Some (MkCounts (zsize (records l)) p c (zsize (cancelled l)) e (clock l) (zsize (expired l))).

Definition reserved_blocks (l : LeaseState) : Z :=
  map_sum (λ lease, zlen (lease_blocks lease)) (records l).

Section Leases.
Context `{BindingKey}.

(** [LeaseState::validate]: [true] is [Ok(())]. *)
Definition invalid_deadline (l : LeaseState) (id : BlockId) (d : LeaseDeadline) : bool :=
  negb (contains_key (records l) id)
  || (generation d =? 0)
  || negb ((1 <=? ttl_ticks d) && (ttl_ticks d <=? MAX_TTL_TICKS))
  || match checked_sub (deadline_tick d) (ttl_ticks d) with
     | None => true
     | Some issued => clock l <? issued
     end.

Definition not_uncommitted (l : LeaseState) (id : BlockId) : bool :=
  match records l !! id with
  | None => true
  | Some lease => match committed lease with Some _ => true | None => false end
  end.

Definition invalid_expired (l : LeaseState) (id : BlockId) : bool :=
  not_uncommitted l id
  || contains_key (cancelled l) id
  || match deadlines l !! id with
     | None => true
     | Some d => clock l <? deadline_tick d
     end.

Definition invalid_record (l : LeaseState) (lease : UploadLease) : bool :=
  bool_decide (lease_blocks lease = [])
  || (MAX_LEASE_BLOCKS <? zlen (lease_blocks lease))
  || match committed lease with
     | None => false
     | Some c =>
         negb (valid_binding (commit_binding c))
         || negb (bool_decide (cb_blocks (commit_binding c) = lease_blocks lease))
         || negb (contains_key (revisions l) (binding_key (cb_key (commit_binding c))))
     end.

Definition validate (l : LeaseState) : bool :=
  negb
    ((MAX_LEASES <? zsize (records l))
     || map_any (invalid_deadline l) (deadlines l)
     || map_any (λ id _, invalid_expired l id) (expired l)
     || map_any (λ id _, not_uncommitted l id) (cancelled l)
     || (negb (initialized l)
         && (negb (bool_decide (records l = ∅)) || negb (bool_decide (revisions l = ∅))))
     || (MAX_RESERVED_BLOCKS <? reserved_blocks l)
     || map_any (λ _ lease, invalid_record l lease) (records l)).

(** ** Operations *)
Definition reserve (s : MetadataState) (id : BlockId) (agent : AgentId) (blocks : list BlockId)
    : MetadataState * Response :=
  if bool_decide (blocks = []) || (MAX_LEASE_BLOCKS <? zlen blocks)
     || negb (contains_key (agents s) agent) then
    (s, Rejected "lease requires a registered owner and 1..256 block hashes")
  else
    let s := if initialized (leases s) then s
             else set_leases (set_revisions ∅ (set_initialized true (leases s))) s in
    match records (leases s) !! id with
    | Some old =>
        (s, if bool_decide (lease_agent old = agent) && bool_decide (lease_blocks old = blocks) then
              if is_expired (leases s) id then Rejected "upload lease expired"
              else if contains_key (cancelled (leases s)) id then Rejected "upload lease cancelled"
              else LeaseReserved
            else Rejected "lease ID already belongs to a different reservation")
    | None =>
        if (MAX_LEASES <=? zsize (records (leases s)))
           || (MAX_RESERVED_BLOCKS <? reserved_blocks (leases s) + zlen blocks) then
          (s, Rejected "replicated upload lease capacity exhausted")
        else
          (set_leases (set_records
             (<[id := MkLease agent blocks (applied_index s) None]> (records (leases s)))
             (leases s)) s, LeaseReserved)
    end.

Definition validate_commit (s : MetadataState) (id : BlockId) (agent : AgentId)
    (binding : ChainBinding) (expected_revision : Z) : bool + string :=
  if negb (valid_binding binding) then inr "invalid lease binding fingerprint or parent"
  else
    match records (leases s) !! id with
    | None => inr "unknown upload lease"
    | Some lease =>
        if negb (bool_decide (lease_agent lease = agent))
           || negb (bool_decide (lease_blocks lease = cb_blocks binding)) then
          inr "lease owner or blocks mismatch"
        else if contains_key (cancelled (leases s)) id then inr "upload lease cancelled"
        else if is_expired (leases s) id then inr "upload lease expired"
        else
          match committed lease with
          | Some old =>
              if (commit_expected_revision old =? expected_revision)
                 && bool_decide (cb_key (commit_binding old) = cb_key binding)
                 && bool_decide (cb_parent (commit_binding old) = cb_parent binding)
                 && bool_decide (cb_blocks (commit_binding old) = cb_blocks binding)
              then inl false else inr "upload lease already consumed"
          | None =>
              let key := binding_key (cb_key binding) in
              if match bindings s !! key with
                 | Some old => negb (bool_decide (rec_agent old = agent))
                 | None => false
                 end then inr "binding belongs to a different agent"
              else
                let current := default 0 (revisions (leases s) !! key) in
                if (current =? u64_max) || negb (current =? expected_revision)
                then inr "binding revision conflict"
                else inl true
          end
    end.

(** [entry(k).or_insert(v)]: keep what is there. *)
Definition or_insert {V} (k : BlockId) (v : V) (m : gmap BlockId V) : gmap BlockId V :=
  match m !! k with Some _ => m | None => <[k := v]> m end.

Definition cancel (s : MetadataState) (id : BlockId) (agent : AgentId) : MetadataState * Response :=
  match records (leases s) !! id with
  | None => (s, Rejected "unknown upload lease")
  | Some lease =>
      if negb (bool_decide (lease_agent lease = agent)) then (s, Rejected "lease owner mismatch")
      else if match committed lease with Some _ => true | None => false end then
        (s, Rejected "committed upload lease cannot be cancelled")
      else if is_expired (leases s) id then (s, Rejected "upload lease expired")
      else
        (set_leases (set_cancelled (or_insert id (applied_index s) (cancelled (leases s)))
           (leases s)) s, LeaseCancelled)
  end.

Definition renew (s : MetadataState) (id : BlockId) (agent : AgentId) (expected ttl : Z)
    : MetadataState * Response :=
  match records (leases s) !! id with
  | None => (s, Rejected "unknown upload lease")
  | Some lease =>
      if negb (bool_decide (lease_agent lease = agent))
         || match committed lease with Some _ => true | None => false end
         || contains_key (cancelled (leases s)) id
         || is_expired (leases s) id then
        (s, Rejected "lease is not pending for this owner")
      else if negb ((1 <=? ttl) && (ttl <=? MAX_TTL_TICKS)) || (expected =? u64_max) then
        (s, Rejected "invalid TTL or renewal generation")
      else
        let old := deadlines (leases s) !! id in
        match (old ≫= λ d, if (generation d =? expected + 1) && (ttl_ticks d =? ttl)
                           then Some d else None) with
        | Some d => (s, LeaseRenewed (generation d) (deadline_tick d))
        | None =>
            let current := default 0 (generation <$> old) in
            if negb (expected =? current) then (s, Rejected "lease renewal generation conflict")
            else
              match checked_add64 (clock (leases s)) ttl with
              | None => (s, Rejected "lease clock exhausted")
              | Some tick =>
                  if match old with Some d => tick <=? deadline_tick d | None => false end then
                    (s, Rejected "renewal must extend the deadline")
                  else
                    (set_leases (set_deadlines
                       (<[id := MkDeadline (current + 1) tick ttl]> (deadlines (leases s)))
                       (leases s)) s, LeaseRenewed (current + 1) tick)
              end
        end
  end.

Definition advance (s : MetadataState) (expected : Z) : MetadataState * Response :=
  if expected <? clock (leases s) then (s, LeaseClockAdvanced)
  else if negb (expected =? clock (leases s)) then (s, Rejected "lease clock conflict")
  else
    match checked_add64 expected 1 with
    | None => (s, Rejected "lease clock exhausted")
    | Some next => (set_leases (set_clock next (leases s)) s, LeaseClockAdvanced)
    end.

Definition expire (s : MetadataState) (id : BlockId) (gen tick : Z) : MetadataState * Response :=
  if negb (is_expired (leases s) id)
     || match deadlines (leases s) !! id with
        | None => true
        | Some d => negb (generation d =? gen) || negb (deadline_tick d =? tick)
        end then
    (s, Rejected "stale or premature lease expiry")
  else
    (set_leases (set_expired (or_insert id (applied_index s) (expired (leases s)))
       (leases s)) s, LeaseExpired).

End Leases.
