(* ===== verification/StateMachine.v ===== *)
(** * The replicated state machine
      ([crates/kalpak-control/src/state_machine.rs], [apply_one] to [apply])

    [apply] folds committed log entries into the metadata state.  Snapshots
    are in [Snapshot]; the invariant of the states [apply] reaches, and what
    follows from it, in [StateInvariant]. *)

From S2P Require Import Prelude Core Metadata Leases.

Definition MAX_BLOCK_FENCES : Z := 65536.
Definition MAX_REQUIREMENTS : Z := 16384.

(** [n + 1] on [u32]. *)
Definition u32_succ (n : Z) : Z := (n + 1) mod 2 ^ 32.

(** One step of the release loop of [bind_one]: the count goes down, and an
    entry that reaches zero disappears. *)
Definition release_ref (refs : gmap BlockId Z) (b : BlockId) : gmap BlockId Z :=
  match refs !! b with
  | Some n =>
      let n := saturating_sub n 1 in
      if n =? 0 then delete b refs else <[b := n]> refs
  | None => refs
  end.

(** [*entry(b).or_insert(0) += 1]. *)
Definition add_ref (refs : gmap BlockId Z) (b : BlockId) : gmap BlockId Z :=
  <[b := u32_succ (default 0 (refs !! b))]> refs.

Section StateMachine.
Context `{BindingKey}.

Definition bind_one (s : MetadataState) (agent : AgentId) (key : CacheKey)
    (blocks : list BlockId) (parent : option CacheKey) : MetadataState :=
  let key_s := binding_key key in
  let s := if initialized (leases s)
           then set_leases (set_revisions
                  (<[key_s := saturating_add64 (default 0 (revisions (leases s) !! key_s)) 1]>
                     (revisions (leases s))) (leases s)) s
           else s in
  let s := match bindings s !! key_s with
           | Some old => set_block_refs (foldl release_ref (block_refs s) (rec_blocks old)) s
           | None => s
           end in
  let s := set_block_refs (foldl add_ref (block_refs s) blocks) s in
  let s := set_bindings (<[key_s := MkBinding agent blocks]> (bindings s)) s in
  match parent with
  | Some parent =>
      let kids := default [] (children s !! binding_key parent) in
      let kids := if bool_decide (key_s ∈ kids) then kids else kids ++ [key_s] in
      set_children (<[binding_key parent := kids]> (children s)) s
  | None => s
  end.

Definition bind_link (s : MetadataState) (agent : AgentId) (b : ChainBinding) : MetadataState :=
  bind_one s agent (cb_key b) (cb_blocks b) (cb_parent b).

(** [next.entry(id).or_insert(replicas)], then the maximum. *)
Definition require_replica (replicas : Z) (next : gmap BlockId Z) (id : BlockId) : gmap BlockId Z :=
  <[id := Z.max (default replicas (next !! id)) replicas]> next.

Definition apply_unfenced (s : MetadataState) (req : Request) : MetadataState * Response :=
  match req with
  | RenewUploadLease lease agent expected ttl => renew s lease agent expected ttl
  | AdvanceLeaseClock expected => advance s expected
  | ExpireUploadLease lease gen tick => expire s lease gen tick
  | CancelUploadLease lease agent => cancel s lease agent
  | BeginUploadLease lease agent blocks => reserve s lease agent blocks
  | CommitUploadLease lease agent binding expected =>
      match validate_commit s lease agent binding expected with
      | inr message => (s, Rejected message)
      | inl false => (s, Bound)
      | inl true =>
          let s := bind_link s agent binding in
          (set_leases (set_records
             (alter (λ l, MkLease (lease_agent l) (lease_blocks l) (created_at l)
                            (Some (MkCommit binding expected))) lease (records (leases s)))
             (leases s)) s, Bound)
      end
  | RequireReplicas blocks replicas =>
      if negb ((2 <=? replicas) && (replicas <=? 16)) || (4096 <? zlen blocks) then
        (s, Rejected "invalid replica requirements")
      else
        let next := foldl (require_replica replicas) (replica_requirements s) blocks in
        if MAX_REQUIREMENTS <? zsize next then
          (s, Rejected "replica requirement capacity exhausted")
        else (set_replicas next s, ReplicasRequired)
  | RegisterAgent agent name =>
      (set_agents (<[agent := MkAgentRecord name (applied_index s)]> (agents s)) s, Registered)
  | BindChain agent bs => (foldl (λ s b, bind_link s agent b) s bs, Bound)
  | BindPrefix agent key blocks parent => (bind_one s agent key blocks parent, Bound)
  end.

(** The blocks a request touches, read from the state before it applies. *)
Definition touched_binding (s : MetadataState) (key : CacheKey) (blocks : list BlockId)
    : gset BlockId :=
  list_to_set blocks
  ∪ match bindings s !! binding_key key with
    | Some old => list_to_set (rec_blocks old)
    | None => ∅
    end.

Definition touched (s : MetadataState) (req : Request) : gset BlockId :=
  match req with
  | BindPrefix _ key blocks _ => touched_binding s key blocks
  | BindChain _ bs =>
      foldl (λ acc b, acc ∪ touched_binding s (cb_key b) (cb_blocks b)) ∅ bs
  | CommitUploadLease _ _ b _ => touched_binding s (cb_key b) (cb_blocks b)
  | BeginUploadLease _ _ blocks | RequireReplicas blocks _ => list_to_set blocks
  | RenewUploadLease lease _ _ _ =>
      match records (leases s) !! lease with
      | Some r => list_to_set (lease_blocks r)
      | None => ∅
      end
  | _ => ∅
  end.

(** [for id in touched { fences.insert(id, at) }]. *)
Definition fence_all (ids : gset BlockId) (at_ : Z) (m : gmap BlockId Z) : gmap BlockId Z :=
  set_fold (λ id acc, <[id := at_]> acc) m ids.

Definition apply_one (s : MetadataState) (req : Request) : MetadataState * Response :=
  let ids := touched s req in
  if MAX_BLOCK_FENCES <? zsize (block_fences s)
       + Z.of_nat (size (filter (λ id, block_fences s !! id = None) ids)) then
    (s, Rejected "block fence capacity exhausted")
  else
    let (s', response) := apply_unfenced s req in
    if is_rejected response then (s', response)
    else (set_fences (fence_all ids (applied_index s') (block_fences s')) s', response).

Definition apply_entry (s : MetadataState) (e : Entry) : MetadataState * Response :=
  let s := set_last_applied (Some (entry_log_id e)) s in
  match entry_payload e with
  | Blank => (s, Registered)
  | Normal req => apply_one s req
  | EMembership m => (set_membership (MkStored (Some (entry_log_id e)) m) s, Registered)
  end.

Fixpoint apply (s : MetadataState) (entries : list Entry) : MetadataState * list Response :=
  match entries with
  | [] => (s, [])
  | e :: entries =>
      let (s, r) := apply_entry s e in
      let (s, rs) := apply s entries in
      (s, r :: rs)
  end.

(** The replies and the state are those of the entries in order: a replica
    that applies a log in two batches ends where one batch ends. *)
Lemma apply_app s es es' :
  apply s (es ++ es') =
  ((apply (apply s es).1 es').1, (apply s es).2 ++ (apply (apply s es).1 es').2).
Proof.
  revert s. induction es as [|e es IH]; intros s; cbn.
  - by destruct (apply s es').
  - destruct (apply_entry s e) as [s1 r]. rewrite IH.
    destruct (apply s1 es) as [s2 rs]. cbn. done.
Qed.

End StateMachine.
