(* ===== verification/StateInvariant.v ===== *)
(** * The invariant of the replicated state

    What every state reached by [apply] from the empty state satisfies.  It
    is the content of the checks [decode_snapshot] makes on a snapshot
    ([Snapshot]), so a node can always restore the snapshot it took. *)

From S2P Require Import Prelude Core Metadata Leases StateMachine.

Section Invariant.
Context `{BindingKey}.

(** The lease component, relative to the registered agents, the bindings and
    the index of the last applied entry. *)
Record lease_ok (ag : gmap AgentId AgentRecord) (rev : gmap string Z) (at_ : Z)
    (l : UploadLease) : Prop := {
  lo_nonempty : lease_blocks l ≠ [];
  lo_bounded : zlen (lease_blocks l) ≤ MAX_LEASE_BLOCKS;
  lo_created : created_at l ≤ at_;
  lo_agent : is_Some (ag !! lease_agent l);
  lo_commit : ∀ c, committed l = Some c →
    valid_binding (commit_binding c) = true ∧ cb_blocks (commit_binding c) = lease_blocks l ∧
    ∃ r, rev !! binding_key (cb_key (commit_binding c)) = Some r ∧ commit_expected_revision c < r }.

Record lease_inv (ag : gmap AgentId AgentRecord) (bd : gmap string BindingRecord) (at_ : Z)
    (l : LeaseState) : Prop := {
  li_count : zsize (records l) ≤ MAX_LEASES;
  li_reserved : reserved_blocks l ≤ MAX_RESERVED_BLOCKS;
  li_uninit : initialized l = false → records l = ∅ ∧ revisions l = ∅;
  li_record : ∀ id r, records l !! id = Some r → lease_ok ag (revisions l) at_ r;
  li_deadline : ∀ id d, deadlines l !! id = Some d →
    is_Some (records l !! id) ∧ 1 ≤ generation d ∧ 1 ≤ ttl_ticks d ≤ MAX_TTL_TICKS ∧
    ttl_ticks d ≤ deadline_tick d ∧ deadline_tick d - ttl_ticks d ≤ clock l;
  li_cancelled : ∀ id a, cancelled l !! id = Some a →
    ∃ r, records l !! id = Some r ∧ committed r = None ∧ created_at r ≤ a ≤ at_;
  li_expired : ∀ id a, expired l !! id = Some a →
    ∃ r d, records l !! id = Some r ∧ committed r = None ∧ created_at r ≤ a ≤ at_ ∧
      cancelled l !! id = None ∧ deadlines l !! id = Some d ∧ deadline_tick d ≤ clock l;
  li_revisions : ∀ k r, revisions l !! k = Some r → is_Some (bd !! k) ∧ 0 ≤ r ≤ u64_max;
  li_clock : 0 ≤ clock l }.

Record fence_inv (at_ : Z) (m : gmap BlockId Z) : Prop := {
  fi_size : zsize m ≤ MAX_BLOCK_FENCES;
  fi_pos : ∀ id a, m !! id = Some a → a ≤ at_ }.

Record req_inv (m : gmap BlockId Z) : Prop := {
  ri_size : zsize m ≤ MAX_REQUIREMENTS;
  ri_val : ∀ id n, m !! id = Some n → 2 ≤ n ≤ 16 }.

Record inv (s : MetadataState) : Prop := {
  inv_lease : lease_inv (agents s) (bindings s) (applied_index s) (leases s);
  inv_fence : fence_inv (applied_index s) (block_fences s);
  inv_req : req_inv (replica_requirements s) }.

(** ** Monotonicity *)
Lemma lease_ok_mono ag ag' rev rev' a a' l :
  lease_ok ag rev a l → a ≤ a' → (∀ k, is_Some (ag !! k) → is_Some (ag' !! k)) →
  (∀ k r, rev !! k = Some r → ∃ r', rev' !! k = Some r' ∧ r ≤ r') →
  lease_ok ag' rev' a' l.
Proof.
  intros [] Ha Hag Hrev. constructor; auto; [lia|].
  intros c (Hv & Hb & r & Hr & Hlt)%lo_commit0. split_and!; [done|done|].
  destruct (Hrev _ _ Hr) as (r' & Hr' & Hle). exists r'. split; [done|lia].
Qed.

Lemma lease_inv_mono ag ag' bd bd' a a' l :
  lease_inv ag bd a l → a ≤ a' → (∀ k, is_Some (ag !! k) → is_Some (ag' !! k)) →
  (∀ k, is_Some (bd !! k) → is_Some (bd' !! k)) → lease_inv ag' bd' a' l.
Proof.
  intros [] Ha Hag Hbd. constructor; auto.
  - intros id r Hr. eapply lease_ok_mono; eauto with lia.
  - intros id x Hx. destruct (li_cancelled0 _ _ Hx) as (r & ? & ? & ?). exists r. split_and!; auto; lia.
  - intros id x Hx. destruct (li_expired0 _ _ Hx) as (r & d & ? & ? & ? & ?).
    exists r, d. split_and!; auto; try lia; tauto.
  - intros k r Hr. destruct (li_revisions0 _ _ Hr). auto.
Qed.

Lemma fence_inv_mono a a' m : fence_inv a m → a ≤ a' → fence_inv a' m.
Proof. intros [] Ha. constructor; [done|]. intros id x Hx. apply fi_pos0 in Hx. lia. Qed.

(** ** Expiry *)
Lemma is_expired_true l id :
  is_expired l id = true ↔
  ∃ r, records l !! id = Some r ∧ committed r = None ∧ cancelled l !! id = None ∧
    (is_Some (expired l !! id) ∨ ∃ d, deadlines l !! id = Some d ∧ deadline_tick d ≤ clock l).
Proof.
  unfold is_expired. rewrite !andb_true_iff, orb_true_iff, negb_true_iff.
  rewrite contains_key_false, contains_key_true.
  destruct (records l !! id) as [r|]; [|naive_solver].
  destruct (committed r) eqn:Hc; [naive_solver|].
  destruct (deadlines l !! id) as [d|]; [rewrite Z.leb_le|]; naive_solver.
Qed.

(** In invariant states the marker adds nothing to the deadline test. *)
Lemma is_expired_deadline ag bd a l id :
  lease_inv ag bd a l → is_expired l id = true →
  ∃ r d, records l !! id = Some r ∧ committed r = None ∧ cancelled l !! id = None ∧
    deadlines l !! id = Some d ∧ deadline_tick d ≤ clock l.
Proof.
  intros HI (r & Hr & Hc & Hx & [[x Hm]|(d & Hd & Hle)])%is_expired_true.
  - destruct (li_expired _ _ _ _ HI _ _ Hm) as (r' & d & ? & ? & ? & ? & ? & ?).
    simplify_eq. eauto 10.
  - eauto 10.
Qed.

(** ** [LeaseState::validate] decides the lease part of the invariant that
    does not mention positions, agents or revision values. *)
Lemma validate_inv ag bd a l : lease_inv ag bd a l → validate l = true.
Proof.
  intros []. unfold validate. apply negb_true_iff. rewrite !orb_false_iff. split_and!.
  - by apply Z.ltb_ge.
  - apply map_any_false. intros id d Hd.
    destruct (li_deadline0 _ _ Hd) as (Hr & Hg & Ht & Htd & Hc).
    unfold invalid_deadline. rewrite !orb_false_iff, negb_false_iff. split_and!.
    + by apply contains_key_true.
    + apply Z.eqb_neq. lia.
    + rewrite negb_false_iff, andb_true_iff, !Z.leb_le. lia.
    + unfold checked_sub. destruct (Z.leb_spec (ttl_ticks d) (deadline_tick d)); [|lia].
      apply Z.ltb_ge. lia.
  - apply map_any_false. intros id x Hx.
    destruct (li_expired0 _ _ Hx) as (r & d & Hr & Hc & _ & Hca & Hd & Hle).
    unfold invalid_expired, not_uncommitted. rewrite Hr, Hc, Hd.
    rewrite !orb_false_iff. split_and!; [done|by apply contains_key_false|]. by apply Z.ltb_ge.
  - apply map_any_false. intros id x Hx.
    destruct (li_cancelled0 _ _ Hx) as (r & Hr & Hc & _).
    unfold not_uncommitted. by rewrite Hr, Hc.
  - destruct (initialized l); [done|]. destruct li_uninit0 as [-> ->]; [done|]. done.
  - by apply Z.ltb_ge.
  - apply map_any_false. intros id r Hr. destruct (li_record0 _ _ Hr).
    unfold invalid_record. rewrite !orb_false_iff. split_and!.
    + by apply bool_decide_eq_false.
    + by apply Z.ltb_ge.
    + destruct (committed r) as [c|] eqn:Hc; [|done].
      destruct (lo_commit0 _ eq_refl) as (Hv & Hb & rv & Hrv & _).
      rewrite Hv. rewrite (bool_decide_eq_true_2 _ Hb). cbn. apply negb_false_iff.
      apply contains_key_true. eauto.
Qed.

(** ** The lease operations preserve the invariant *)

(** The lease operations change only the lease component. *)
Definition lease_step (s : MetadataState) (o : MetadataState * Response) : Prop :=
  ∃ l', o.1 = set_leases l' s ∧ lease_inv (agents s) (bindings s) (applied_index s) l'.

Lemma set_leases_id s : set_leases (leases s) s = s.
Proof. by destruct s. Qed.

Lemma lease_step_same s r :
  lease_inv (agents s) (bindings s) (applied_index s) (leases s) → lease_step s (s, r).
Proof. intros. exists (leases s). by rewrite set_leases_id. Qed.

Lemma reserve_step s id agent blocks : inv s → lease_step s (reserve s id agent blocks).
Proof.
  intros [HI _ _]. unfold reserve.
  destruct (_ || _) eqn:Hg; [by apply lease_step_same|].
  apply orb_false_iff in Hg as [Hg Hag]. apply orb_false_iff in Hg as [Hne Hlen].
  apply bool_decide_eq_false in Hne. apply Z.ltb_ge in Hlen.
  apply negb_false_iff, contains_key_true in Hag.
  set (s1 := if initialized (leases s) then s else _).
  assert (∃ l1, s1 = set_leases l1 s ∧ initialized l1 = true ∧
    lease_inv (agents s) (bindings s) (applied_index s) l1) as (l1 & -> & Hinit & HI1).
  { subst s1. destruct (initialized (leases s)) eqn:Hi.
    - exists (leases s). by rewrite set_leases_id.
    - eexists. split; [done|]. split; [done|]. destruct HI.
      destruct li_uninit0 as [Hrec Hrev]; [done|].
      constructor; cbn; auto; [by rewrite Hrec|]. intros ?? Hr. by rewrite lookup_empty in Hr. }
  clear HI. cbn [leases set_leases agents].
  destruct (records l1 !! id) as [old|] eqn:Hold; [by exists l1|].
  destruct ((_ <=? _) || _) eqn:Hcap; [by exists l1|].
  apply orb_false_iff in Hcap as [Hc1%Z.leb_gt Hc2%Z.ltb_ge].
  eexists. split; [done|]. destruct HI1. constructor; cbn; auto.
  - rewrite zsize_insert_None by done. unfold MAX_LEASES in *. lia.
  - unfold reserved_blocks in *; cbn. rewrite map_sum_insert by done. cbn. lia.
  - congruence.
  - intros id' r Hr. apply lookup_insert_Some in Hr as [[<- <-]|[_ Hr]]; [|eauto].
    by constructor; cbn.
  - intros id' d Hd. destruct (li_deadline0 _ _ Hd) as ([r Hr] & ?). split; [|done].
    destruct (decide (id = id')) as [->|]; [by rewrite Hr in Hold|].
    rewrite lookup_insert_ne by done. eauto.
  - intros id' x Hx. destruct (li_cancelled0 _ _ Hx) as (r & Hr & ?). exists r.
    split; [|done]. rewrite lookup_insert_ne; [done|]. intros ->. congruence.
  - intros id' x Hx. destruct (li_expired0 _ _ Hx) as (r & d & Hr & ?). exists r, d.
    split; [|done]. rewrite lookup_insert_ne; [done|]. intros ->. congruence.
Qed.

Lemma or_insert_Some {V} id (v : V) m id' v' :
  or_insert id v m !! id' = Some v' ↔
  m !! id' = Some v' ∨ (id = id' ∧ m !! id = None ∧ v' = v).
Proof.
  unfold or_insert. destruct (m !! id) as [w|] eqn:E; [naive_solver|].
  rewrite lookup_insert_Some. split; [naive_solver|].
  intros [Hm|(-> & _ & ->)]; [|naive_solver].
  right. split; [congruence|done].
Qed.

Lemma cancel_step s id agent : inv s → lease_step s (cancel s id agent).
Proof.
  intros [HI _ _]. unfold cancel.
  destruct (records (leases s) !! id) as [lease|] eqn:Hr; [|by apply lease_step_same].
  destruct (negb _) eqn:Ha; [by apply lease_step_same|].
  destruct (committed lease) eqn:Hc; [by apply lease_step_same|].
  destruct (is_expired (leases s) id) eqn:He; [by apply lease_step_same|].
  eexists. split; [done|]. pose proof HI as HI0. destruct HI. constructor; cbn; auto.
  - intros id' a [Ha'|(<- & _ & ->)]%or_insert_Some; [by apply li_cancelled0|].
    exists lease. split_and!; auto; [|done]. apply (li_record0 _ _ Hr).
  - intros id' a Ha'. destruct (li_expired0 _ _ Ha') as (r & d & H1 & H2 & H3 & H4 & H5 & H6).
    exists r, d. split_and!; auto; try lia.
    destruct (or_insert _ _ _ !! id') eqn:E; [|done].
    apply or_insert_Some in E as [E|(<- & _ & _)]; [congruence|].
    exfalso. enough (is_expired (leases s) id = true) by congruence.
    apply is_expired_true. eauto 10.
Qed.

Lemma renew_step s id agent expected ttl : inv s → lease_step s (renew s id agent expected ttl).
Proof.
  intros [HI _ _]. unfold renew.
  destruct (records (leases s) !! id) as [lease|] eqn:Hr; [|by apply lease_step_same].
  destruct (_ || is_expired _ _) eqn:Hg; [by apply lease_step_same|].
  apply orb_false_iff in Hg as [Hg He]. apply orb_false_iff in Hg as [Hg Hca].
  apply contains_key_false in Hca.
  destruct (negb _ || (_ =? u64_max)) eqn:Ht; [by apply lease_step_same|].
  bool_prop. destruct (deadlines (leases s) !! id ≫= _); [by apply lease_step_same|].
  case_goal; [by apply lease_step_same|].
  destruct (checked_add64 _ _) as [tick|] eqn:Hadd; [|by apply lease_step_same].
  apply checked_add64_Some in Hadd as [-> Hmax].
  case_goal; [by apply lease_step_same|].
  eexists. split; [done|]. destruct HI. constructor; cbn; auto.
  - intros id' d Hd. apply lookup_insert_Some in Hd as [[<- <-]|[_ Hd]]; [|eauto]. cbn.
    split_and!; eauto; try lia.
    destruct (deadlines (leases s) !! id) as [d|] eqn:Hd; cbn; [|lia].
    destruct (li_deadline0 _ _ Hd). lia.
  - intros id' x Hx. destruct (li_expired0 _ _ Hx) as (r & d & H1' & H2' & H3' & H4' & H5' & H6').
    exists r, d. split_and!; auto; try lia. rewrite lookup_insert_ne; [done|].
    intros <-. enough (is_expired (leases s) id = true) by congruence.
    apply is_expired_true. eauto 10.
Qed.

Lemma advance_step s expected : inv s → lease_step s (advance s expected).
Proof.
  intros [HI _ _]. unfold advance.
  case_goal; [by apply lease_step_same|]. case_goal; [by apply lease_step_same|]. bool_prop.
  destruct (checked_add64 _ _) as [next|] eqn:Hadd; [|by apply lease_step_same].
  apply checked_add64_Some in Hadd as [-> _].
  eexists. split; [done|]. destruct HI. constructor; cbn; auto.
  - intros id d Hd. destruct (li_deadline0 _ _ Hd) as (? & ? & ? & ? & ?). split_and!; auto; lia.
  - intros id x Hx. destruct (li_expired0 _ _ Hx) as (r & d & ? & ? & ? & ? & ? & ?).
    exists r, d. split_and!; auto; lia.
  - lia.
Qed.

Lemma expire_step s id gen tick : inv s → lease_step s (expire s id gen tick).
Proof.
  intros [HI _ _]. unfold expire.
  case_goal; [by apply lease_step_same|]. bool_prop.
  eexists. split; [done|].
  assert (is_expired (leases s) id = true) as (r & d & Hr & Hc & Hca & Hd & Hle)%
    (is_expired_deadline _ _ _ _ _ HI) by done.
  destruct HI. constructor; cbn; auto.
  intros id' a [Ha|(<- & _ & ->)]%or_insert_Some; [by apply li_expired0|].
  exists r, d. split_and!; auto; [|done]. apply (li_record0 _ _ Hr).
Qed.

(** ** Binding *)

(** The lease component after a binding of [key_s]. *)
Definition bump_revision (key_s : string) (l : LeaseState) : LeaseState :=
  if initialized l
  then set_revisions (<[key_s := saturating_add64 (default 0 (revisions l !! key_s)) 1]>
         (revisions l)) l
  else l.

Lemma bind_one_fields s agent key blocks parent :
  let s' := bind_one s agent key blocks parent in
  leases s' = bump_revision (binding_key key) (leases s) ∧
  bindings s' = <[binding_key key := MkBinding agent blocks]> (bindings s) ∧
  agents s' = agents s ∧ block_fences s' = block_fences s ∧
  replica_requirements s' = replica_requirements s ∧
  last_applied s' = last_applied s ∧ membership s' = membership s.
Proof.
  unfold bind_one, bump_revision.
  destruct (initialized (leases s)); cbn;
    destruct (bindings s !! binding_key key); destruct parent; done.
Qed.

Lemma saturating_succ r : 0 ≤ r ≤ u64_max → r ≤ saturating_add64 r 1 ≤ u64_max.
Proof. unfold saturating_add64, u64_max. lia. Qed.

Lemma bump_revision_mono ag bd a l key_s k r :
  lease_inv ag bd a l → revisions l !! k = Some r →
  ∃ r', revisions (bump_revision key_s l) !! k = Some r' ∧ r ≤ r'.
Proof.
  intros HI Hr. unfold bump_revision. destruct (initialized l); [cbn|by exists r; split].
  destruct (decide (key_s = k)) as [->|]; [|exists r; rewrite lookup_insert_ne by done; done].
  rewrite lookup_insert_eq, Hr. cbn. eexists. split; [done|].
  apply saturating_succ, (li_revisions _ _ _ _ HI _ _ Hr).
Qed.

Lemma lease_inv_bump ag bd a l key_s rec :
  lease_inv ag bd a l → lease_inv ag (<[key_s := rec]> bd) a (bump_revision key_s l).
Proof.
  intros HI. pose proof (bump_revision_mono ag bd a l key_s) as Hmono.
  assert (∀ k, is_Some (bd !! k) → is_Some (<[key_s := rec]> bd !! k)) as Hbd.
  { intros k Hk. destruct (decide (key_s = k)) as [->|]; [rewrite lookup_insert_eq; eauto|].
    by rewrite lookup_insert_ne. }
  destruct (initialized l) eqn:Hi.
  - assert (bump_revision key_s l = set_revisions (revisions (bump_revision key_s l)) l) as ->.
    { unfold bump_revision. by rewrite Hi. }
    destruct HI. constructor; cbn; auto.
    + congruence.
    + intros id r Hr. eapply lease_ok_mono; eauto with lia. intros k x Hx.
      eapply (Hmono k x); [|done]. by constructor.
    + intros k r Hr. unfold bump_revision in Hr. rewrite Hi in Hr. cbn in Hr.
      apply lookup_insert_Some in Hr as [[<- <-]|[_ Hr]].
      * split; [rewrite lookup_insert_eq; eauto|].
        destruct (revisions l !! key_s) as [r|] eqn:Hr; cbn.
        -- destruct (li_revisions0 _ _ Hr) as [_ Hb]. pose proof (saturating_succ r Hb). lia.
        -- unfold saturating_add64, u64_max. lia.
      * destruct (li_revisions0 _ _ Hr). auto.
  - unfold bump_revision. rewrite Hi. eapply lease_inv_mono; eauto with lia.
Qed.

Lemma bind_one_inv s agent key blocks parent : inv s → inv (bind_one s agent key blocks parent).
Proof.
  intros [HL HF HR].
  pose proof (bind_one_fields s agent key blocks parent) as (E1 & E2 & E3 & E4 & E5 & E6 & _).
  assert (applied_index (bind_one s agent key blocks parent) = applied_index s) as Ea
    by (unfold applied_index; by rewrite E6).
  constructor; rewrite ?E1, ?E2, ?E3, ?E4, ?E5, ?Ea; [|done..]. by apply lease_inv_bump.
Qed.

Lemma bind_chain_inv s agent bs : inv s → inv (foldl (λ s b, bind_link s agent b) s bs).
Proof. revert s. induction bs as [|b bs IH]; intros s Hs; [done|]. by apply IH, bind_one_inv. Qed.

(** ** Committing a lease *)
Definition commit_lease (s : MetadataState) (lease : BlockId) (b : ChainBinding) (rev : Z)
    : MetadataState :=
  set_leases (set_records
    (alter (λ l, MkLease (lease_agent l) (lease_blocks l) (created_at l)
                   (Some (MkCommit b rev))) lease (records (leases s))) (leases s)) s.

Lemma validate_commit_ok s id agent b rev :
  validate_commit s id agent b rev = inl true →
  valid_binding b = true ∧ ∃ l, records (leases s) !! id = Some l ∧ lease_agent l = agent ∧
    lease_blocks l = cb_blocks b ∧ cancelled (leases s) !! id = None ∧
    is_expired (leases s) id = false ∧ committed l = None ∧
    (∀ old, bindings s !! binding_key (cb_key b) = Some old → rec_agent old = agent) ∧
    default 0 (revisions (leases s) !! binding_key (cb_key b)) = rev ∧ rev ≠ u64_max.
Proof.
  unfold validate_commit. destruct (negb (valid_binding b)) eqn:Hv; [done|].
  destruct (records (leases s) !! id) as [l|]; [|done].
  destruct (negb _ || negb _) eqn:Ho; [done|].
  destruct (contains_key _ _) eqn:Hca; [done|].
  destruct (is_expired (leases s) id) eqn:He; [done|].
  destruct (committed l) eqn:Hc; [by case_goal|].
  destruct (bindings s !! binding_key (cb_key b)) as [old|] eqn:Hold; [destruct (negb _) eqn:Hn in |- *|];
    try done; case_goal; try done; intros _; bool_prop;
    (split; [done|]); exists l; split_and!; auto; try congruence;
    try (by apply contains_key_false); intros ? [= <-]; by bool_prop.
Qed.

Lemma bump_revision_fields ks l :
  records (bump_revision ks l) = records l ∧ cancelled (bump_revision ks l) = cancelled l ∧
  expired (bump_revision ks l) = expired l ∧ deadlines (bump_revision ks l) = deadlines l ∧
  clock (bump_revision ks l) = clock l ∧ initialized (bump_revision ks l) = initialized l.
Proof. unfold bump_revision. destruct (initialized l) eqn:E; cbn; auto 10. Qed.

Lemma lease_inv_commit ag bd a l id r b rev rv :
  lease_inv ag bd a l → records l !! id = Some r → cancelled l !! id = None →
  expired l !! id = None → valid_binding b = true → lease_blocks r = cb_blocks b →
  revisions l !! binding_key (cb_key b) = Some rv → rev < rv →
  lease_inv ag bd a (set_records
    (<[id := MkLease (lease_agent r) (lease_blocks r) (created_at r) (Some (MkCommit b rev))]>
       (records l)) l).
Proof.
  intros [] Hr Hca Hex Hv Hb Hrv Hlt. destruct (li_record0 _ _ Hr).
  constructor; cbn; auto.
  - by rewrite (zsize_insert_Some _ _ _ _ Hr).
  - unfold reserved_blocks in *; cbn. by rewrite (map_sum_update _ _ _ _ _ Hr) by done.
  - intros Hi. destruct (li_uninit0 Hi) as [E _]. by rewrite E, lookup_empty in Hr.
  - intros id' r' Hr'. apply lookup_insert_Some in Hr' as [[<- <-]|[_ Hr']]; [|eauto].
    constructor; cbn; auto. intros c [= <-]. cbn. eauto.
  - intros id' d Hd. destruct (li_deadline0 _ _ Hd) as (Hs & ?). split; [|done].
    destruct (decide (id = id')) as [->|]; [rewrite lookup_insert_eq; eauto|].
    by rewrite lookup_insert_ne.
  - intros id' x Hx. destruct (li_cancelled0 _ _ Hx) as (r' & ? & ?). exists r'. split; [|done].
    rewrite lookup_insert_ne; [done|]. intros ->. congruence.
  - intros id' x Hx. destruct (li_expired0 _ _ Hx) as (r' & d & ? & ?). exists r', d. split; [|done].
    rewrite lookup_insert_ne; [done|]. intros ->. congruence.
Qed.

(** A revision after the bump, when the lease subsystem is active. *)
Lemma bump_revision_eq ag bd a l ks rev :
  lease_inv ag bd a l → initialized l = true → default 0 (revisions l !! ks) = rev → rev ≠ u64_max →
  revisions (bump_revision ks l) !! ks = Some (rev + 1).
Proof.
  intros HI Hi Hrev Hmax. unfold bump_revision. rewrite Hi. cbn.
  rewrite lookup_insert_eq, Hrev. f_equal. unfold saturating_add64.
  enough (0 ≤ rev ≤ u64_max) by lia. subst rev.
  destruct (revisions l !! ks) as [r|] eqn:Hr; cbn; [|unfold u64_max; lia].
  apply (li_revisions _ _ _ _ HI _ _ Hr).
Qed.

Lemma record_initialized ag bd a l id r :
  lease_inv ag bd a l → records l !! id = Some r → initialized l = true.
Proof.
  intros HI Hr. destruct (initialized l) eqn:E; [done|].
  destruct (li_uninit _ _ _ _ HI E) as [Hem _]. by rewrite Hem, lookup_empty in Hr.
Qed.

Lemma unexpired_marker l id r :
  records l !! id = Some r → committed r = None → cancelled l !! id = None →
  is_expired l id = false → expired l !! id = None.
Proof.
  intros Hr Hc Hca He. destruct (expired l !! id) eqn:Ex; [|done]. exfalso.
  enough (is_expired l id = true) by congruence. apply is_expired_true. eauto 10.
Qed.

Lemma commit_inv s id agent b rev :
  inv s → validate_commit s id agent b rev = inl true →
  inv (commit_lease (bind_link s agent b) id b rev).
Proof.
  intros Hinv (Hv & l & Hl & Ha & Hb & Hca & He & Hc & _ & Hrev & Hmax)%validate_commit_ok.
  pose proof (bind_one_fields s agent (cb_key b) (cb_blocks b) (cb_parent b)) as (E1 & _).
  pose proof (bind_one_inv s agent (cb_key b) (cb_blocks b) (cb_parent b) Hinv) as [HL HF HR].
  destruct (bump_revision_fields (binding_key (cb_key b)) (leases s)) as (Erec & Ecan & Eexp & _).
  fold (bind_link s agent b) in *. rewrite <-E1 in *.
  pose proof (inv_lease _ Hinv) as HL0.
  constructor; [|done..]. cbn [commit_lease set_leases agents bindings leases].
  rewrite (alter_alt_Some _ _ _ l) by by rewrite Erec.
  eapply (lease_inv_commit _ _ _ _ _ _ _ _ (rev + 1)); try done; try congruence; [..|lia].
  - rewrite Eexp. by eapply unexpired_marker.
  - rewrite E1. by eapply bump_revision_eq; eauto using record_initialized.
Qed.

(** ** Replica requirements *)
Lemma require_replica_vals replicas m id :
  2 ≤ replicas ≤ 16 → (∀ i n, m !! i = Some n → 2 ≤ n ≤ 16) →
  ∀ i n, require_replica replicas m id !! i = Some n → 2 ≤ n ≤ 16.
Proof.
  intros Hr Hm i n. unfold require_replica. rewrite lookup_insert_Some.
  intros [[<- <-]|[_ Hi]]; [|eauto].
  destruct (m !! id) as [k|] eqn:E; cbn; [apply Hm in E|]; lia.
Qed.

Lemma require_replicas_vals replicas blocks m :
  2 ≤ replicas ≤ 16 → (∀ i n, m !! i = Some n → 2 ≤ n ≤ 16) →
  ∀ i n, foldl (require_replica replicas) m blocks !! i = Some n → 2 ≤ n ≤ 16.
Proof.
  intros Hr. revert m. induction blocks as [|b bs IH]; intros m Hm; [done|]. cbn.
  by apply IH, require_replica_vals.
Qed.

(** ** Fences *)
Lemma fence_all_union ids a m : fence_all ids a m = gset_to_gmap a ids ∪ m.
Proof.
  unfold fence_all.
  apply (set_fold_ind_L (λ r X, r = gset_to_gmap a X ∪ m) (λ id acc, <[id:=a]> acc)).
  - by rewrite gset_to_gmap_empty, map_empty_union.
  - intros id X r Hid ->. rewrite gset_to_gmap_union_singleton. by rewrite insert_union_l.
Qed.

Lemma fence_all_lookup ids a m id :
  fence_all ids a m !! id = if decide (id ∈ ids) then Some a else m !! id.
Proof.
  rewrite fence_all_union, lookup_union, lookup_gset_to_gmap.
  case_decide; [rewrite option_guard_True by done|rewrite option_guard_False by done];
    by destruct (m !! id).
Qed.

Lemma fence_all_size ids a m :
  zsize (fence_all ids a m) = zsize m + Z.of_nat (size (filter (λ id, m !! id = None) ids)).
Proof.
  rewrite fence_all_union. unfold zsize. rewrite <-!size_dom, dom_union_L, dom_gset_to_gmap.
  rewrite (union_comm_L ids), size_union_alt.
  replace (filter (λ id, m !! id = None) ids) with (ids ∖ dom m); [lia|].
  apply set_eq. intros id. rewrite elem_of_filter, elem_of_difference, not_elem_of_dom. tauto.
Qed.

(** ** Requests and entries *)
Lemma lease_step_inv s o : inv s → lease_step s o → inv o.1.
Proof. intros [HL HF HR] (l' & -> & HL'). by constructor. Qed.

Lemma lease_step_frame s o :
  lease_step s o → applied_index o.1 = applied_index s ∧ block_fences o.1 = block_fences s.
Proof. by intros (l' & -> & _). Qed.

Lemma bind_chain_frame s agent bs :
  let s' := foldl (λ s b, bind_link s agent b) s bs in
  applied_index s' = applied_index s ∧ block_fences s' = block_fences s.
Proof.
  revert s. induction bs as [|b bs IH]; intros s; [done|]. cbn in *.
  destruct (IH (bind_link s agent b)) as [-> ->].
  destruct (bind_one_fields s agent (cb_key b) (cb_blocks b) (cb_parent b))
    as (_ & _ & _ & E4 & _ & E6 & _). unfold bind_link, applied_index. by rewrite E4, E6.
Qed.

(** Every request keeps the invariant, the fences and the applied index. *)
Lemma apply_unfenced_inv s req :
  inv s → inv (apply_unfenced s req).1 ∧
  applied_index (apply_unfenced s req).1 = applied_index s ∧
  block_fences (apply_unfenced s req).1 = block_fences s.
Proof.
  intros Hs.
  assert (∀ o, lease_step s o → inv o.1 ∧ applied_index o.1 = applied_index s ∧
    block_fences o.1 = block_fences s) as Hlease.
  { intros o Ho. split; [by eapply lease_step_inv|by apply lease_step_frame]. }
  assert (inv s ∧ applied_index s = applied_index s ∧ block_fences s = block_fences s) as Hsame
    by done.
  destruct req as [blocks n|agent name|agent key blocks parent|agent bs|lease agent blocks
    |lease agent b rev|lease agent|lease agent gen ttl|tick|lease gen tick]; cbn [apply_unfenced].
  - case_goal; [done|]. case_goal; [done|]. bool_prop. split; [|done].
    destruct Hs as [HL HF [Hsz Hv]]. constructor; [done..|]. cbn. constructor; [done|].
    apply require_replicas_vals; [lia|done].
  - split; [|done]. destruct Hs as [HL HF HR]. constructor; [|done..]. cbn.
    eapply lease_inv_mono; eauto; [reflexivity|]. intros k Hk.
    destruct (decide (agent = k)) as [->|]; [rewrite lookup_insert_eq; eauto|].
    by rewrite lookup_insert_ne.
  - split; [by apply bind_one_inv|].
    apply (bind_chain_frame s agent [MkChainBinding key blocks parent]).
  - split; [by apply bind_chain_inv|]. apply bind_chain_frame.
  - by apply Hlease, reserve_step.
  - destruct (validate_commit s lease agent b rev) as [[]|] eqn:E; [|done..].
    split; [by apply (commit_inv s lease agent b rev)|].
    apply (bind_chain_frame s agent [b]).
  - by apply Hlease, cancel_step.
  - by apply Hlease, renew_step.
  - by apply Hlease, advance_step.
  - by apply Hlease, expire_step.
Qed.

Lemma apply_one_inv s req :
  inv s → inv (apply_one s req).1 ∧ applied_index (apply_one s req).1 = applied_index s.
Proof.
  intros Hs. unfold apply_one. destruct (MAX_BLOCK_FENCES <? _) eqn:Hcap; [done|].
  apply Z.ltb_ge in Hcap.
  destruct (apply_unfenced_inv s req Hs) as (Hi & Ha & Hf).
  destruct (apply_unfenced s req) as [s' r]. cbn in *. destruct (is_rejected r); [done|].
  split; [|done]. destruct Hi as [HL HF HR]. constructor; [done| |done].
  cbn. unfold applied_index; cbn. fold (applied_index s'). destruct HF. constructor.
  - rewrite fence_all_size, Hf. lia.
  - intros id a. rewrite fence_all_lookup. case_decide; [intros [= <-]; reflexivity|]. apply fi_pos0.
Qed.

(** Raft applies entries in log order. *)
Fixpoint log_sorted (at_ : Z) (es : list Entry) : Prop :=
  match es with
  | [] => True
  | e :: es => at_ ≤ log_index (entry_log_id e) ∧ log_sorted (log_index (entry_log_id e)) es
  end.

Lemma set_last_applied_inv s id :
  inv s → applied_index s ≤ log_index id → inv (set_last_applied (Some id) s).
Proof.
  intros [HL HF HR] Hle. constructor; cbn; [|by eapply fence_inv_mono|done].
  eapply lease_inv_mono; eauto.
Qed.

Lemma apply_entry_inv s e :
  inv s → applied_index s ≤ log_index (entry_log_id e) →
  inv (apply_entry s e).1 ∧ applied_index (apply_entry s e).1 = log_index (entry_log_id e).
Proof.
  intros Hs Hle. pose proof (set_last_applied_inv s _ Hs Hle) as Hs'.
  unfold apply_entry. destruct (entry_payload e); [done| |].
  - by apply apply_one_inv.
  - split; [|done]. by destruct Hs'.
Qed.

Lemma apply_inv s es :
  inv s → log_sorted (applied_index s) es → inv (apply s es).1.
Proof.
  revert s. induction es as [|e es IH]; intros s Hs Hes; [done|].
  destruct Hes as [Hle Hes]. cbn.
  destruct (apply_entry_inv s e Hs Hle) as [Hs' Ha].
  destruct (apply_entry s e) as [s1 r]. cbn in *.
  specialize (IH s1 Hs'). rewrite Ha in IH. specialize (IH Hes).
  by destruct (apply s1 es).
Qed.

Lemma default_inv : inv default_state.
Proof.
  constructor; cbn.
  - constructor; cbn; try (intros ?? E; by rewrite lookup_empty in E); done.
  - constructor; [done|]. intros ?? E. by rewrite lookup_empty in E.
  - constructor; [done|]. intros ?? E. by rewrite lookup_empty in E.
Qed.

(** ** Rejections *)

(** A rejected request leaves the state alone.  The one place where the code
    mutates before it can reject is [reserve], which activates the lease
    subsystem first; in invariant states that path never rejects. *)
Lemma reserve_rejected s id agent blocks s' m :
  inv s → reserve s id agent blocks = (s', Rejected m) → s' = s.
Proof.
  intros [HI _ _] E. unfold reserve in E.
  destruct (_ || negb _) eqn:Hg in E; [by simplify_eq|].
  destruct (initialized (leases s)) eqn:Hi; [by run E|].
  exfalso. destruct (li_uninit _ _ _ _ HI Hi) as [Hr _]. cbn in E.
  rewrite Hr, lookup_empty in E. unfold reserved_blocks in E. cbn in E.
  rewrite Hr, map_sum_empty, zsize_empty in E.
  apply orb_false_iff in Hg as [Hg _]. apply orb_false_iff in Hg as [_ Hlen%Z.ltb_ge].
  rewrite (proj2 (Z.ltb_ge _ _)) in E; [done|].
  unfold MAX_LEASE_BLOCKS, MAX_RESERVED_BLOCKS in *. lia.
Qed.

Lemma apply_unfenced_rejected s req s' m :
  inv s → apply_unfenced s req = (s', Rejected m) → s' = s.
Proof.
  intros Hs E. destruct req; cbn [apply_unfenced] in E.
  5: by eapply reserve_rejected.
  all: unfold cancel, renew, advance, expire in E; by run E.
Qed.

End Invariant.
