(* ===== verification/ControlPlane.v ===== *)
(** * The control plane ([crates/kalpak-control/src/lib.rs])

    The client operations map a Raft outcome to a result, and the queries
    read the applied state.  [openraft] is a parameter: [client_write] returns
    one of the outcomes the code distinguishes, and the law of [Raft] says that
    an accepted request was applied, in log order, to the local state
    machine. *)

From S2P Require Import Prelude Core Metadata Leases StateMachine StateInvariant.

(** ** Raft *)
Inductive RaftOutcome :=
| RaftOk (data : Response)
| RaftForward (leader_addr : option string)
| RaftError (message : string).

Class Raft (W : Type) := {
  client_write : W → Request → W * RaftOutcome;
  sm_state : W → MetadataState;
  current_leader : W → option NodeId;
  node_id : W → NodeId;
  ensure_linearizable : W → W * (() + string) }.

(** An accepted write is the last of some committed entries applied since. *)
Class RaftLaws (W : Type) `{Raft W, BindingKey} := {
  client_write_applied : ∀ w req w' r, client_write w req = (w', RaftOk r) →
    ∃ es id, log_sorted (applied_index (sm_state w)) (es ++ [MkEntry id (Normal req)]) ∧
      apply_entry (apply (sm_state w) es).1 (MkEntry id (Normal req)) = (sm_state w', r) }.

Inductive ControlError :=
| Init (m : string)
| Write (m : string)
| RejectedErr (m : string)
| MembershipErr (m : string)
| NotLeader (leader_addr : option string).

Section Client.
Context {W : Type} `{Raft W}.

(** [ControlPlane::write]. *)
Definition write (w : W) (req : Request) : W * res ControlError Response :=
  let (w, o) := client_write w req in
  (w, match o with
      | RaftOk data => Ok data
      | RaftForward addr => Err (NotLeader addr)
      | RaftError m => Err (Write m)
      end).

(** A write whose reply must be [expected], as every client operation has
    it: a rejection is reported, another reply is an error. *)
Definition expect (w : W) (req : Request) (f : Response → option (res ControlError unit))
    (unexpected : string) : W * res ControlError () :=
  let (w, r) := write w req in
  (w, r ≫= λ resp,
      match f resp, resp with
      | Some out, _ => out
      | None, Rejected m => Err (RejectedErr m)
      | None, _ => Err (Write unexpected)
      end).

Definition register_agent (w : W) (agent : AgentId) (name : string) : W * res ControlError () :=
  let (w, r) := write w (RegisterAgent agent name) in (w, (λ _, ()) <$> r).

Definition begin_upload_lease (w : W) (lease : BlockId) (agent : AgentId) (blocks : list BlockId) :=
  expect w (BeginUploadLease lease agent blocks)
    (λ r, match r with LeaseReserved => Some (Ok ()) | _ => None end) "unexpected lease response".

Definition commit_upload_lease (w : W) (lease : BlockId) (agent : AgentId) (b : ChainBinding)
    (expected_revision : Z) :=
  expect w (CommitUploadLease lease agent b expected_revision)
    (λ r, match r with Bound => Some (Ok ()) | _ => None end) "unexpected lease commit response".

Definition cancel_upload_lease (w : W) (lease : BlockId) (agent : AgentId) :=
  expect w (CancelUploadLease lease agent)
    (λ r, match r with LeaseCancelled => Some (Ok ()) | _ => None end)
    "unexpected lease cancellation response".

Definition renew_upload_lease (w : W) (lease : BlockId) (agent : AgentId) (gen ttl : Z)
    : W * res ControlError LeaseDeadline :=
  let (w, r) := write w (RenewUploadLease lease agent gen ttl) in
  (w, r ≫= λ resp,
      match resp with
      | LeaseRenewed g tick => Ok (MkDeadline g tick ttl)
      | Rejected m => Err (RejectedErr m)
      | _ => Err (Write "unexpected lease renewal response")
      end).

Definition advance_lease_clock (w : W) (tick : Z) :=
  expect w (AdvanceLeaseClock tick)
    (λ r, match r with LeaseClockAdvanced => Some (Ok ()) | _ => None end)
    "unexpected lease clock response".

Definition expire_upload_lease (w : W) (lease : BlockId) (gen tick : Z) :=
  expect w (ExpireUploadLease lease gen tick)
    (λ r, match r with LeaseExpired => Some (Ok ()) | _ => None end)
    "unexpected lease expiry response".

Definition bind_prefix (w : W) (agent : AgentId) (key : CacheKey) (blocks : list BlockId)
    (parent : option CacheKey) :=
  expect w (BindPrefix agent key blocks parent)
    (λ r, match r with Bound => Some (Ok ()) | _ => None end) "unexpected bind response".

Definition bind_chain (w : W) (agent : AgentId) (bs : list ChainBinding) :=
  expect w (BindChain agent bs)
    (λ r, match r with Bound => Some (Ok ()) | _ => None end) "unexpected bind response".

(** [require_replicas]: a leader that already has the requirements only
    confirms it is still the leader; a rejection is a write error here. *)
Definition require_replicas (w : W) (blocks : list BlockId) (replicas : Z)
    : W * res ControlError () :=
  if negb ((2 <=? replicas) && (replicas <=? 16)) || (4096 <? zlen blocks) then
    (w, Err (Write "invalid replica requirements"))
  else if bool_decide (current_leader w = Some (node_id w))
          && forallb (λ id, match replica_requirements (sm_state w) !! id with
                            | Some n => replicas <=? n | None => false end) blocks then
    match ensure_linearizable w with
    | (w, inl _) => (w, Ok ())
    | (w, inr m) => (w, Err (Write m))
    end
  else
    let (w, r) := write w (RequireReplicas blocks replicas) in
    (w, r ≫= λ resp,
        match resp with
        | ReplicasRequired => Ok ()
        | Rejected m => Err (Write m)
        | _ => Err (Write "unexpected replica response")
        end).

End Client.

(** ** Queries *)

(** Iteration of a [BTreeMap<BlockId, _>]: by key order. *)
Definition key_le {V} (p q : BlockId * V) : Prop :=
  bytes_leb (block_bytes p.1) (block_bytes q.1) = true.
#[export] Instance key_le_dec {V} (p q : BlockId * V) : Decision (key_le p q) := bool_eq_dec _ _.
Definition btree_iter {V} (m : gmap BlockId V) : list (BlockId * V) :=
  merge_sort key_le (map_to_list m).

Section Queries.
Context `{BindingKey, HashOrder}.

(** [lease_expiry_work]: the clock, whether a lease still counts down, and up
    to 16 leases that are due.  [records[id]] panics on a missing record. *)
Definition lease_expiry_work (s : MetadataState)
    : res () (Z * bool * list (BlockId * LeaseDeadline)) :=
  let l := leases s in
  let ids := (btree_iter (deadlines l)).*1 in
  if forallb (contains_key (records l)) ids then
    let active := existsb (λ id,
      match records l !! id with
      | Some r => bool_decide (committed r = None)
      | None => false
      end && negb (contains_key (cancelled l) id) && negb (is_expired l id)) ids in
    let due := take 16 (base.filter
      (λ p, is_expired l p.1 = true ∧ expired l !! p.1 = None) (btree_iter (deadlines l))) in
    Ok (clock l, active, due)
  else Panic.

Definition upload_lease_status (s : MetadataState) : option LeaseStatusCounts :=
  status_counts (leases s).
Definition upload_lease_lifecycle_counts (s : MetadataState) : option (Z * Z * Z) :=
  (λ c, (pending c, n_committed c, n_cancelled c)) <$> upload_lease_status s.
Definition upload_lease_counts (s : MetadataState) : option (Z * Z) :=
  (λ c, (total c, pending c)) <$> upload_lease_status s.
Definition upload_lease_is_cancelled (s : MetadataState) (id : BlockId) : bool :=
  contains_key (cancelled (leases s)) id.
Definition upload_lease (s : MetadataState) (id : BlockId) : option UploadLease :=
  records (leases s) !! id.
Definition binding_revision (s : MetadataState) (key : CacheKey) : Z :=
  default 0 (revisions (leases s) !! binding_key key).

Definition child_blocks (s : MetadataState) (key : CacheKey) : list BlockId :=
  match children s !! binding_key key with
  | None => []
  | Some kids => concat (rec_blocks <$> omap (λ k, bindings s !! k) kids)
  end.

Definition lookup_binding (s : MetadataState) (key : CacheKey) : option BindingRecord :=
  bindings s !! binding_key key.
Definition agent_record (s : MetadataState) (id : AgentId) : option AgentRecord := agents s !! id.
Definition replica_requirements_view (s : MetadataState) : gmap BlockId Z := replica_requirements s.
(** [peer_nodes], of the membership the metrics report, by node id. *)
Definition node_le (p q : NodeId * string) : Prop := p.1 ≤ q.1.
#[export] Instance node_le_dec p q : Decision (node_le p q) := Z_le_dec _ _.
Definition peer_nodes (self_id : NodeId) (m : Membership) : list (NodeId * string) :=
  filter (λ p, p.1 ≠ self_id) (merge_sort node_le (map_to_list (mem_nodes m))).
Definition peer_addrs (self_id : NodeId) (m : Membership) : list string := (peer_nodes self_id m).*2.
Definition agent_count (s : MetadataState) : Z := zsize (agents s).
Definition binding_count (s : MetadataState) : Z := zsize (bindings s).

(** Stable sort by registration index, from an unspecified order. *)
Definition registered_le (p q : AgentId * AgentRecord) : Prop :=
  registered_at p.2 ≤ registered_at q.2.
#[export] Instance registered_le_dec p q : Decision (registered_le p q) := Z.le_dec _ _.
Definition agents_list (s : MetadataState) : list (AgentId * AgentRecord) :=
  merge_sort registered_le (hash_order (map_to_list (agents s))).

Definition parent_index (s : MetadataState) : gmap string string :=
  foldl (λ idx p, foldl (λ idx kid, <[kid := p.1]> idx) idx p.2) ∅
    (hash_order (map_to_list (children s))).

Definition bindings_of (s : MetadataState) (agent : AgentId) : list (string * list BlockId) :=
  (λ p, (p.1, rec_blocks p.2))
  <$> base.filter (λ p, rec_agent p.2 = agent) (hash_order (map_to_list (bindings s))).

Definition bindings_with_revisions (s : MetadataState) (agent : AgentId)
    : list (string * list BlockId * Z) :=
  (λ p, (p.1, rec_blocks p.2, default 0 (revisions (leases s) !! p.1)))
  <$> base.filter (λ p, rec_agent p.2 = agent) (hash_order (map_to_list (bindings s))).

Definition block_ref_count (s : MetadataState) (id : BlockId) : Z :=
  default 0 (block_refs s !! id).

Definition shared_blocks (s : MetadataState) (min_refs : Z) : list BlockId :=
  (base.filter (λ p, min_refs ≤ p.2) (hash_order (map_to_list (block_refs s)))).*1.

Definition bound_blocks (s : MetadataState) : gset BlockId :=
  list_to_set (concat ((λ p, rec_blocks p.2) <$> map_to_list (bindings s))).

(** [reclamation_evidence], as a record instead of JSON. *)
Record Evidence := MkEvidence {
  ev_last_applied : option LogId;
  ev_tick : Z;
  ev_fence : option Z;
  ev_references : Z;
  ev_replicas : Z;
  ev_pending : Z;
  ev_committed : Z;
  ev_cancelled : Z;
  ev_expired : Z }.

Inductive lease_status := SPending | SCommitted | SCancelled | SExpired.
#[export] Instance lease_status_eq_dec : EqDecision lease_status.
Proof. solve_decision. Defined.

(** The classification of [reclamation_evidence]'s loop. *)
Definition status_of (l : LeaseState) (id : BlockId) (r : UploadLease) : lease_status :=
  if match committed r with Some _ => true | None => false end then SCommitted
  else if contains_key (cancelled l) id then SCancelled
  else if is_expired l id then SExpired
  else SPending.

Definition count_status (l : LeaseState) (b : BlockId) (st : lease_status) : Z :=
  map_count (λ id r, bool_decide (b ∈ lease_blocks r) && bool_decide (status_of l id r = st))
    (records l).

Definition reclamation_evidence (s : MetadataState) (id : BlockId) : Evidence :=
  let l := leases s in
  MkEvidence (last_applied s) (clock l) (block_fences s !! id) (default 0 (block_refs s !! id))
    (default 0 (replica_requirements s !! id))
    (count_status l id SPending) (count_status l id SCommitted)
    (count_status l id SCancelled) (count_status l id SExpired).

End Queries.

(** ** A single node: every write is the next entry of its log *)
Definition local_raft `{BindingKey} : Raft MetadataState := {|
  client_write s req :=
    let (s', r) := apply_entry s (MkEntry (MkLogId 1 1 (applied_index s + 1)) (Normal req)) in
    (s', RaftOk r);
  sm_state s := s;
  current_leader _ := Some 1;
  node_id _ := 1;
  ensure_linearizable s := (s, inl ()) |}.

Lemma local_raft_laws `{BindingKey} : @RaftLaws MetadataState local_raft _.
Proof.
  constructor. intros s req s' r E. unfold client_write, local_raft in E.
  destruct (apply_entry s (MkEntry (MkLogId 1 1 (applied_index s + 1)) (Normal req))) as [s1 r1] eqn:Ea.
  simplify_eq. exists [], (MkLogId 1 1 (applied_index s + 1)). split; [|exact Ea].
  split; [cbn; lia|done].
Qed.
