(* ===== verification/Lifecycle.v ===== *)
(** * The life of an upload lease

    How lease states evolve under [apply]: records are never rewritten, the
    three terminal statuses (committed, cancelled, expired) are exclusive and
    permanent, the clock and the binding revisions only grow.  From this
    follow the compare-and-swap guarantee of a commit and the accounting of
    [status_counts]. *)

From S2P Require Import Prelude Core Metadata Leases StateMachine StateInvariant ControlPlane.

(** ** Evolution *)

(** [r'] is [r], possibly committed meanwhile. *)
Record record_evolves (r r' : UploadLease) : Prop := {
  re_agent : lease_agent r' = lease_agent r;
  re_blocks : lease_blocks r' = lease_blocks r;
  re_created : created_at r' = created_at r;
  re_committed : ∀ c, committed r = Some c → committed r' = Some c }.

Definition revision_of (l : LeaseState) (k : string) : Z := default 0 (revisions l !! k).

Record evolves (l l' : LeaseState) : Prop := {
  ev_record : ∀ id r, records l !! id = Some r →
    ∃ r', records l' !! id = Some r' ∧ record_evolves r r';
  ev_cancelled : cancelled l ⊆ cancelled l';
  ev_expired : ∀ id, is_expired l id = true → is_expired l' id = true;
  ev_clock : clock l ≤ clock l';
  ev_revision : ∀ k, revision_of l k ≤ revision_of l' k }.

#[export] Instance record_evolves_preorder : PreOrder record_evolves.
Proof.
  split; [by intros r; constructor|].
  intros r1 r2 r3 [] []. constructor; try congruence. auto.
Qed.

#[export] Instance evolves_preorder : PreOrder evolves.
Proof.
  split.
  - intros l. constructor; try done. intros id r Hr. by exists r.
  - intros l1 l2 l3 [R1 C1 E1 K1 V1] [R2 C2 E2 K2 V2]. constructor; auto.
    + intros id r Hr. destruct (R1 _ _ Hr) as (r2 & H2 & H12).
      destruct (R2 _ _ H2) as (r3 & H3 & H23). exists r3. split; [done|]. by etrans.
    + by transitivity (cancelled l2).
    + by transitivity (clock l2).
    + intros k. by transitivity (revision_of l2 k).
Qed.

Section Lifecycle.
Context `{BindingKey}.

Lemma or_insert_subseteq {V} id (v : V) m : m ⊆ or_insert id v m.
Proof.
  unfold or_insert. destruct (m !! id) eqn:E; [done|]. by apply insert_subseteq.
Qed.

Lemma is_expired_mono l l' id :
  (∀ r, records l !! id = Some r → committed r = None →
    ∃ r', records l' !! id = Some r' ∧ committed r' = None) →
  (cancelled l !! id = None → cancelled l' !! id = None) →
  (is_Some (expired l !! id) → is_Some (expired l' !! id)) →
  (∀ d, deadlines l !! id = Some d → deadline_tick d ≤ clock l →
    ∃ d', deadlines l' !! id = Some d' ∧ deadline_tick d' ≤ clock l') →
  is_expired l id = true → is_expired l' id = true.
Proof.
  intros HR HC HE HD (r & Hr & Hc & Hca & Hx)%is_expired_true. apply is_expired_true.
  destruct (HR _ Hr Hc) as (r' & Hr' & Hc'). exists r'. split_and!; auto.
  destruct Hx as [Hx|(d & Hd & Hle)]; [auto|]. right. eauto.
Qed.

Lemma reserve_evolves s id agent blocks :
  inv s → evolves (leases s) (leases (reserve s id agent blocks).1).
Proof.
  intros [HI _ _]. unfold reserve. case_goal; [done|].
  set (s1 := if initialized (leases s) then s else _).
  assert (evolves (leases s) (leases s1)) as H1.
  { subst s1. destruct (initialized (leases s)) eqn:Hi; [done|]. constructor; try done; cbn.
    - intros i r Hr. by exists r.
    - intros k. unfold revision_of. cbn. destruct (li_uninit _ _ _ _ HI Hi) as [_ ->]. done. }
  clearbody s1. destruct (records (leases s1) !! id) as [old|] eqn:Hold; [done|].
  case_goal; [done|]. etrans; [done|]. constructor; try done; cbn.
  - intros i r Hr. exists r. split; [|done]. rewrite lookup_insert_ne; [done|].
    intros ->. congruence.
  - intros i. apply is_expired_mono; cbn; eauto. intros r Hr Hc. exists r.
    rewrite lookup_insert_ne; [done|]. intros ->. congruence.
Qed.

Lemma cancel_evolves s id agent : evolves (leases s) (leases (cancel s id agent).1).
Proof.
  unfold cancel. destruct (records (leases s) !! id) as [r|] eqn:Hr; [|done].
  case_goal; [done|]. destruct (committed r) eqn:Hc; [done|].
  destruct (is_expired (leases s) id) eqn:He; [done|].
  constructor; try done; cbn.
  - intros i r' Hr'. by exists r'.
  - apply or_insert_subseteq.
  - intros i Hi. destruct (decide (i = id)) as [->|]; [congruence|].
    revert Hi. apply is_expired_mono; cbn; eauto.
    unfold or_insert. destruct (cancelled (leases s) !! id); [done|].
    by rewrite lookup_insert_ne.
Qed.

Lemma renew_evolves s id agent expected ttl :
  evolves (leases s) (leases (renew s id agent expected ttl).1).
Proof.
  unfold renew. destruct (records (leases s) !! id) as [r|] eqn:Hr; [|done].
  destruct (_ || is_expired _ _) eqn:Hg; [done|].
  apply orb_false_iff in Hg as [_ He].
  repeat (case_goal; [done|]). destruct (deadlines (leases s) !! id ≫= _); [done|].
  case_goal; [done|]. destruct (checked_add64 _ _); [|done]. case_goal; [done|].
  constructor; try done; cbn.
  - intros i r' Hr'. by exists r'.
  - intros i Hi. destruct (decide (i = id)) as [->|]; [congruence|].
    revert Hi. apply is_expired_mono; cbn; eauto. intros d Hd Hle.
    exists d. by rewrite lookup_insert_ne.
Qed.

Lemma advance_evolves s expected : evolves (leases s) (leases (advance s expected).1).
Proof.
  unfold advance. case_goal; [done|]. case_goal; [done|].
  destruct (checked_add64 _ _) as [n|] eqn:Hn; [|done].
  apply checked_add64_Some in Hn as [-> _]. bool_prop.
  constructor; try done; cbn; [| |lia].
  - intros i r' Hr'. by exists r'.
  - intros i. apply is_expired_mono; cbn; eauto. intros d Hd Hle. exists d. split; [done|lia].
Qed.

Lemma expire_evolves s id gen tick : evolves (leases s) (leases (expire s id gen tick).1).
Proof.
  unfold expire. case_goal; [done|]. constructor; try done; cbn.
  - intros i r' Hr'. by exists r'.
  - intros i. apply is_expired_mono; cbn; eauto. intros [a Ha]. exists a.
    eapply lookup_weaken; [done|]. apply or_insert_subseteq.
Qed.

Lemma bump_evolves ag bd a l ks : lease_inv ag bd a l → evolves l (bump_revision ks l).
Proof.
  intros HI. destruct (bump_revision_fields ks l) as (E1 & E2 & E3 & E4 & E5 & _).
  constructor; rewrite ?E1, ?E2, ?E3, ?E5; try done.
  - intros i r Hr. by exists r.
  - intros i. apply is_expired_mono; rewrite ?E1, ?E2, ?E3, ?E4, ?E5; eauto.
  - intros k. unfold revision_of. destruct (revisions l !! k) as [r|] eqn:Hr; cbn.
    + destruct (bump_revision_mono _ _ _ _ ks _ _ HI Hr) as (r' & -> & ?). done.
    + destruct (revisions (bump_revision ks l) !! k) as [r'|] eqn:Hr'; [|cbn; lia]. cbn. unfold bump_revision in Hr'.
      destruct (initialized l); cbn in Hr'; [|congruence].
      apply lookup_insert_Some in Hr' as [[<- <-]|[_ ?]]; [|congruence].
      rewrite Hr. cbn. unfold saturating_add64, u64_max. lia.
Qed.

Lemma bind_link_evolves s agent b : inv s → evolves (leases s) (leases (bind_link s agent b)).
Proof.
  intros [HI _ _]. unfold bind_link.
  destruct (bind_one_fields s agent (cb_key b) (cb_blocks b) (cb_parent b)) as (-> & _).
  by eapply bump_evolves.
Qed.

Lemma bind_chain_evolves s agent bs :
  inv s → evolves (leases s) (leases (foldl (λ s b, bind_link s agent b) s bs)).
Proof.
  revert s. induction bs as [|b bs IH]; intros s Hs; [done|]. cbn.
  etrans; [by apply (bind_link_evolves s agent b)|]. by apply IH, bind_one_inv.
Qed.

Lemma commit_evolves s id b rev l :
  records (leases s) !! id = Some l → committed l = None → is_expired (leases s) id = false →
  evolves (leases s) (leases (commit_lease s id b rev)).
Proof.
  intros Hl Hc He. constructor; try done; cbn.
  - intros i r Hr. destruct (decide (i = id)) as [->|].
    + rewrite lookup_alter_eq, Hr. simplify_eq/=. eexists. split; [done|]. constructor; cbn; [done..|].
      intros c. by rewrite Hc.
    + rewrite lookup_alter_ne by done. by exists r.
  - intros i Hi. destruct (decide (i = id)) as [->|]; [congruence|].
    revert Hi. apply is_expired_mono; cbn; eauto. intros r Hr Hrc. exists r.
    by rewrite lookup_alter_ne.
Qed.

Lemma bump_expired ks l id : is_expired (bump_revision ks l) id = is_expired l id.
Proof.
  unfold is_expired. destruct (bump_revision_fields ks l) as (-> & -> & -> & -> & -> & _). done.
Qed.

Lemma apply_unfenced_evolves s req :
  inv s → evolves (leases s) (leases (apply_unfenced s req).1).
Proof.
  intros Hs. destruct req as [blocks n|agent name|agent key blocks parent|agent bs|lease agent blocks
    |lease agent b rev|lease agent|lease agent gen ttl|tick|lease gen tick]; cbn [apply_unfenced].
  - do 2 (case_goal; [done|]). done.
  - done.
  - by apply (bind_link_evolves s agent (MkChainBinding key blocks parent)).
  - by apply bind_chain_evolves.
  - by apply reserve_evolves.
  - destruct (validate_commit s lease agent b rev) as [[]|] eqn:E; [|done..].
    etrans; [by apply (bind_link_evolves s agent b)|].
    apply validate_commit_ok in E as (_ & l & Hl & _ & _ & _ & He & Hc & _).
    destruct (bind_one_fields s agent (cb_key b) (cb_blocks b) (cb_parent b)) as (E1 & _).
    eapply (commit_evolves (bind_link s agent b) lease b rev l); [|done|].
    + unfold bind_link. rewrite E1. by destruct (bump_revision_fields (binding_key (cb_key b)) (leases s)) as (-> & _).
    + unfold bind_link. by rewrite E1, bump_expired.
  - apply cancel_evolves.
  - apply renew_evolves.
  - apply advance_evolves.
  - apply expire_evolves.
Qed.

Lemma apply_one_evolves s req : inv s → evolves (leases s) (leases (apply_one s req).1).
Proof.
  intros Hs. unfold apply_one. case_goal; [done|].
  pose proof (apply_unfenced_evolves s req Hs) as He.
  destruct (apply_unfenced s req) as [s' r]. by destruct (is_rejected r).
Qed.

Lemma apply_entry_evolves s e :
  inv s → applied_index s ≤ log_index (entry_log_id e) →
  evolves (leases s) (leases (apply_entry s e).1).
Proof.
  intros Hs Hle. unfold apply_entry. destruct (entry_payload e); [done| |done].
  by apply (apply_one_evolves (set_last_applied _ s)), set_last_applied_inv.
Qed.

Lemma apply_evolves s es :
  inv s → log_sorted (applied_index s) es → evolves (leases s) (leases (apply s es).1).
Proof.
  revert s. induction es as [|e es IH]; intros s Hs Hes; [done|].
  destruct Hes as [Hle Hes]. cbn.
  destruct (apply_entry_inv s e Hs Hle) as [Hs' Ha].
  pose proof (apply_entry_evolves s e Hs Hle) as He.
  destruct (apply_entry s e) as [s1 r]. cbn in *.
  specialize (IH s1 Hs'). rewrite Ha in IH. specialize (IH Hes).
  destruct (apply s1 es). cbn in *. by etrans.
Qed.

(** ** Statuses *)
Definition has_status (l : LeaseState) (st : lease_status) : Z :=
  map_count (λ id r, bool_decide (status_of l id r = st)) (records l).

Lemma has_status_sum l :
  has_status l SPending + has_status l SCommitted + has_status l SCancelled
  + has_status l SExpired = zsize (records l).
Proof.
  rewrite <-map_count_true. unfold has_status. set (f st id r := bool_decide (status_of l id r = st)).
  rewrite <-(map_count_split (f SPending) (f SCommitted)
    (λ id r, f SPending id r || f SCommitted id r)),
    <-(map_count_split _ (f SCancelled) (λ id r, f SPending id r || f SCommitted id r || f SCancelled id r)),
    <-(map_count_split _ (f SExpired) (λ _ _, true)); [done|..]; unfold f; intros id r _;
    destruct (status_of l id r); done.
Qed.

Lemma status_committed l :
  map_count (λ _ lease, bool_decide (is_Some (committed lease))) (records l)
  = has_status l SCommitted.
Proof.
  apply map_count_ext. intros id r _. unfold status_of.
  destruct (committed r); [done|]. cbn. by repeat case_goal.
Qed.

Lemma status_expired l :
  map_count (λ id _, is_expired l id) (records l) = has_status l SExpired.
Proof.
  apply map_count_ext. intros id r Hr. unfold status_of, is_expired. rewrite Hr.
  destruct (committed r); [done|]. cbn. by destruct (contains_key (cancelled l) id), (_ || _).
Qed.

Lemma status_cancelled ag bd a l :
  lease_inv ag bd a l → zsize (cancelled l) = has_status l SCancelled.
Proof.
  intros HI. rewrite <-(map_count_dom (records l)).
  - apply map_count_ext. intros id r Hr. unfold status_of.
    destruct (contains_key (cancelled l) id) eqn:Hk.
    + apply contains_key_true in Hk as [x Hx].
      destruct (li_cancelled _ _ _ _ HI _ _ Hx) as (r' & ? & Hc & _). simplify_eq. by rewrite Hc.
    + destruct (committed r); [done|]. by destruct (is_expired l id).
  - intros id [x Hx]. destruct (li_cancelled _ _ _ _ HI _ _ Hx) as (r' & ? & _). eauto.
Qed.

(** Lease accounting: in every state a sorted log reaches, the unsigned
    subtractions of [status_counts] never underflow, and the four numbers it
    reports are the sizes of the four classes that [reclamation_evidence]
    sorts the records into; they add up to the total. *)
Theorem status_counts_partition es :
  log_sorted 0 es →
  let l := leases (apply default_state es).1 in
  status_counts l = Some (MkCounts (zsize (records l)) (has_status l SPending)
    (has_status l SCommitted) (has_status l SCancelled) (has_status l SExpired)
    (clock l) (zsize (expired l)))
  ∧ has_status l SPending + has_status l SCommitted + has_status l SCancelled
    + has_status l SExpired = zsize (records l).
Proof.
  intros Hes l. pose proof (inv_lease _ (apply_inv default_state es default_inv Hes)) as HI.
  fold l in HI. pose proof (has_status_sum l) as Hsum. split; [|done].
  unfold status_counts. rewrite status_committed, status_expired, (status_cancelled _ _ _ _ HI).
  assert (∀ st, 0 ≤ has_status l st) as Hp by (intros; apply map_count_subset).
  pose proof (Hp SPending). pose proof (Hp SCommitted).
  pose proof (Hp SCancelled). pose proof (Hp SExpired).
  unfold checked_sub. do 3 (rewrite (proj2 (Z.leb_le _ _)) by lia; cbn [mbind option_bind]).
  do 2 f_equal. lia.
Qed.

(** C6. Every state a sorted log reaches from the empty state satisfies the
    replicated-state invariant, and so passes the validation a restarting
    node applies to the leases of its snapshot. *)
Theorem reachable_states_valid es :
  log_sorted 0 es →
  inv (apply default_state es).1 ∧ validate (leases (apply default_state es).1) = true.
Proof.
  intros Hes. pose proof (apply_inv default_state es default_inv Hes) as HI.
  split; [done|]. eapply validate_inv, inv_lease, HI.
Qed.

(** A rejected request changes nothing: in every reachable state, a
    request answered [Rejected], by the fence capacity check or by its own
    guards, leaves agents, bindings, counts, leases and fences as they were. *)
Theorem rejection_changes_nothing es req s' m :
  log_sorted 0 es →
  apply_one (apply default_state es).1 req = (s', Rejected m) →
  s' = (apply default_state es).1.
Proof.
  intros Hes E. pose proof (apply_inv default_state es default_inv Hes) as HI.
  unfold apply_one in E. case_hyp E; [by simplify_eq|].
  destruct (apply_unfenced _ req) as [s1 r] eqn:Hu.
  destruct r; cbn in E; simplify_eq. by eapply apply_unfenced_rejected.
Qed.

(** C5. Terminal statuses are exclusive and permanent: once a record is
    committed it stays committed with the same binding and revision, and it
    is never also cancelled or expired; a cancelled lease stays cancelled at
    the same position, an expired one stays expired, whatever entries
    follow. *)
Theorem terminal_statuses_permanent s es id :
  inv s → log_sorted (applied_index s) es →
  let l := leases s in let l' := leases (apply s es).1 in
  (∀ r c, records l !! id = Some r → committed r = Some c →
     (∃ r', records l' !! id = Some r' ∧ committed r' = Some c ∧ lease_blocks r' = lease_blocks r) ∧
     cancelled l' !! id = None ∧ is_expired l' id = false) ∧
  (∀ a, cancelled l !! id = Some a →
     cancelled l' !! id = Some a ∧ is_expired l' id = false ∧
     ∃ r', records l' !! id = Some r' ∧ committed r' = None) ∧
  (is_expired l id = true →
     is_expired l' id = true ∧ cancelled l' !! id = None ∧
     ∃ r', records l' !! id = Some r' ∧ committed r' = None).
Proof.
  intros Hs Hes l l'. destruct (apply_evolves s es Hs Hes) as [ER EC EX _ _].
  pose proof (inv_lease _ (apply_inv s es Hs Hes)) as HI. fold l l' in ER, EC, EX, HI.
  split_and!.
  - intros r c Hr Hc. destruct (ER _ _ Hr) as (r' & Hr' & Hev). split_and!.
    + exists r'. split_and!; [done|by apply (re_committed _ _ Hev)|apply Hev].
    + destruct (cancelled l' !! id) eqn:Hx; [|done].
      destruct (li_cancelled _ _ _ _ HI _ _ Hx) as (r2 & ? & Hn & _).
      simplify_eq. by rewrite (re_committed _ _ Hev c Hc) in Hn.
    + apply not_true_iff_false. intros (r2 & ? & Hn & _)%is_expired_true.
      simplify_eq. by rewrite (re_committed _ _ Hev c Hc) in Hn.
  - intros a Ha. eapply lookup_weaken in Ha; [|exact EC]. split_and!; [done| |].
    + apply not_true_iff_false. intros (r2 & ? & _ & Hn & _)%is_expired_true. congruence.
    + destruct (li_cancelled _ _ _ _ HI _ _ Ha) as (r2 & ? & ? & _). eauto.
  - intros He%EX. split; [done|]. apply is_expired_true in He as (r & ? & ? & ? & _). eauto.
Qed.

(** ** Committing *)

(** What an accepted first commit did. *)
Lemma commit_accepted s id agent b rev s' l :
  inv s → records (leases s) !! id = Some l → committed l = None →
  apply_one s (CommitUploadLease id agent b rev) = (s', Bound) →
  inv s' ∧ applied_index s' = applied_index s ∧
  validate_commit s id agent b rev = inl true ∧
  bindings s' !! binding_key (cb_key b) = Some (MkBinding agent (cb_blocks b)) ∧
  revision_of (leases s) (binding_key (cb_key b)) = rev ∧
  revision_of (leases s') (binding_key (cb_key b)) = rev + 1 ∧
  records (leases s') !! id
    = Some (MkLease agent (cb_blocks b) (created_at l) (Some (MkCommit b rev))).
Proof.
  intros Hs Hl Hc E.
  destruct (apply_one_inv s (CommitUploadLease id agent b rev) Hs) as [HI' Ha].
  rewrite E in HI', Ha. cbn in HI', Ha. split; [done|]. split; [done|].
  unfold apply_one in E. case_hyp E; [done|].
  cbn [apply_unfenced] in E. destruct (validate_commit s id agent b rev) as [[]|] eqn:Hv.
  2: { unfold validate_commit in Hv. rewrite Hl, Hc in Hv. by run Hv. }
  2: by cbn in E; simplify_eq.
  split; [done|]. cbn in E. simplify_eq. cbn [set_fences set_leases leases bindings records revisions set_records].
  apply validate_commit_ok in Hv as (_ & l' & ? & Hag & Hbl & _ & _ & _ & _ & Hrev & Hmax).
  simplify_eq.
  destruct (bind_one_fields s (lease_agent l) (cb_key b) (cb_blocks b) (cb_parent b)) as (E1 & E2 & _).
  unfold bind_link. split_and!.
  - by rewrite E2, lookup_insert_eq.
  - done.
  - unfold revision_of. cbn. rewrite E1.
    by erewrite bump_revision_eq; eauto using inv_lease, record_initialized.
  - rewrite E1, (proj1 (bump_revision_fields _ _)), lookup_alter_eq, Hl. cbn. congruence.
Qed.

(** The guard of a first commit, as a rejection. *)
Lemma stale_commit_rejected s id agent b rev :
  (∀ l, records (leases s) !! id = Some l → committed l = None) →
  rev < revision_of (leases s) (binding_key (cb_key b)) →
  is_rejected (apply_one s (CommitUploadLease id agent b rev)).2 = true.
Proof.
  intros Hc Hlt. unfold apply_one. case_goal; [done|]. cbn [apply_unfenced].
  destruct (validate_commit s id agent b rev) as [[]|] eqn:Hv; [| |done].
  - apply validate_commit_ok in Hv as (_ & l & _ & _ & _ & _ & _ & _ & _ & Hrev & _).
    unfold revision_of in Hlt. lia.
  - unfold validate_commit in Hv. destruct (records (leases s) !! id) as [l|]; [|by run Hv].
    rewrite (Hc l eq_refl) in Hv. by run Hv.
Qed.

(** C1. A commit is a compare-and-swap on the binding's revision.  When a
    pending lease is committed at [rev], the binding now holds exactly the
    leased blocks at revision [rev + 1]; and however the log continues, a
    commit of any other uncommitted lease on the same key that expects [rev]
    or less is rejected, so two uploads that read the same revision cannot
    both win. *)
Theorem commit_is_compare_and_swap s id agent b rev l s' es id2 agent2 b2 rev2 :
  inv s → records (leases s) !! id = Some l → committed l = None →
  apply_one s (CommitUploadLease id agent b rev) = (s', Bound) →
  log_sorted (applied_index s') es →
  let s'' := (apply s' es).1 in
  (∀ l2, records (leases s'') !! id2 = Some l2 → committed l2 = None) →
  cb_key b2 = cb_key b → rev2 ≤ rev →
  binding_revision s (cb_key b) = rev ∧ binding_revision s' (cb_key b) = rev + 1 ∧
  lookup_binding s' (cb_key b) = Some (MkBinding agent (lease_blocks l)) ∧
  is_rejected (apply_one s'' (CommitUploadLease id2 agent2 b2 rev2)).2 = true.
Proof.
  intros Hs Hl Hc E Hes s'' Hc2 Hk Hrev2.
  destruct (commit_accepted _ _ _ _ _ _ _ Hs Hl Hc E) as (HI' & Ha & Hv & Hbd & Hr0 & Hr1 & _).
  apply validate_commit_ok in Hv as (_ & l' & ? & _ & Hbl & _). simplify_eq.
  split_and!; [done|done|by unfold lookup_binding; rewrite Hbd, Hbl|].
  apply stale_commit_rejected; [done|]. rewrite Hk.
  pose proof (ev_revision _ _ (apply_evolves s' es HI' Hes) (binding_key (cb_key b))) as Hm.
  fold s'' in Hm. lia.
Qed.

(** A commit can be retried: whatever entries were applied since, asking
    again for the same commit of the same lease answers [Bound] and does not
    bind a second time (the request only renews fences); asking for a
    different revision, key or parent is rejected. *)
Theorem commit_retry_is_idempotent s id agent b rev l s' es :
  inv s → records (leases s) !! id = Some l → committed l = None →
  apply_one s (CommitUploadLease id agent b rev) = (s', Bound) →
  log_sorted (applied_index s') es →
  let s'' := (apply s' es).1 in
  apply_unfenced s'' (CommitUploadLease id agent b rev) = (s'', Bound) ∧
  (∀ b2 rev2, (rev2, cb_key b2, cb_parent b2) ≠ (rev, cb_key b, cb_parent b) →
     ∃ m, apply_unfenced s'' (CommitUploadLease id agent b2 rev2) = (s'', Rejected m)).
Proof.
  intros Hs Hl Hc E Hes s''.
  destruct (commit_accepted _ _ _ _ _ _ _ Hs Hl Hc E) as (HI' & Ha & Hv & _ & _ & _ & Hrec).
  apply validate_commit_ok in Hv as (Hvb & _).
  destruct (ev_record _ _ (apply_evolves s' es HI' Hes) _ _ Hrec) as (r'' & Hr'' & [Hag Hbl _ Hcm]).
  specialize (Hcm _ eq_refl). pose proof (inv_lease _ (apply_inv s' es HI' Hes)) as HI.
  fold s'' in Hr'', HI. cbn in Hag, Hbl.
  assert (contains_key (cancelled (leases s'')) id = false) as Hca.
  { apply contains_key_false. destruct (cancelled (leases s'') !! id) eqn:Hx; [|done].
    destruct (li_cancelled _ _ _ _ HI _ _ Hx) as (? & ? & ? & _). congruence. }
  assert (is_expired (leases s'') id = false) as He.
  { unfold is_expired. by rewrite Hr'', Hcm. }
  split.
  - cbn [apply_unfenced]. unfold validate_commit.
    rewrite Hvb, Hr'', Hag, Hbl, !bool_decide_eq_true_2, Hca, He, Hcm by done. cbn.
    by rewrite Z.eqb_refl, !bool_decide_eq_true_2 by done.
  - intros b2 rev2 Hne. cbn [apply_unfenced]. unfold validate_commit. rewrite Hr'', Hca, He, Hcm.
    case_goal; [eauto|]. case_goal; [eauto|]. cbn.
    destruct (_ && _) eqn:Hall; [|eauto]. bool_prop. congruence.
Qed.

End Lifecycle.

(** ** Concrete logs *)
Definition ex_key : CacheKey := key0 5.
Definition ex_entry (i : Z) (r : Request) : Entry := MkEntry (MkLogId 1 1 i) (Normal r).
Definition ex_log : list Entry :=
  [MkEntry (MkLogId 1 1 0) (EMembership (MkMembership [{[1]}] {[1 := "n1"]}));
   ex_entry 1 (RegisterAgent (agt 1) "alice");
   ex_entry 2 (BeginUploadLease (blk 1) (agt 1) [blk 10; blk 11]);
   ex_entry 3 (BeginUploadLease (blk 2) (agt 1) [blk 12]);
   ex_entry 4 (BeginUploadLease (blk 3) (agt 1) [blk 13]);
   ex_entry 5 (RenewUploadLease (blk 3) (agt 1) 0 1);
   ex_entry 6 (AdvanceLeaseClock 0);
   ex_entry 7 (CancelUploadLease (blk 2) (agt 1))].

Definition ex_state : MetadataState := (@apply toy_binding_key default_state ex_log).1.
Definition ex_binding : ChainBinding := MkChainBinding ex_key [blk 10; blk 11] None.
Definition ex_commit : Request := CommitUploadLease (blk 1) (agt 1) ex_binding 0.

Lemma ex_log_sorted : log_sorted 0 ex_log.
Proof. cbn. lia. Qed.
Lemma ex_state_inv : @inv toy_binding_key ex_state.
Proof. apply (@apply_inv toy_binding_key default_state), ex_log_sorted. apply default_inv. Qed.

Lemma status_counts_partition_witness :
  status_counts (leases ex_state) = Some (MkCounts 3 1 0 1 1 1 0).
Proof.
  refine (eq_trans (proj1 (@status_counts_partition toy_binding_key ex_log ex_log_sorted)) _).
  vm_compute. reflexivity.
Defined.

Lemma reachable_states_valid_witness : validate (H := toy_binding_key) (leases ex_state) = true.
Proof. apply (@reachable_states_valid toy_binding_key ex_log ex_log_sorted). Defined.

Lemma rejection_changes_nothing_witness :
  (@apply_one toy_binding_key ex_state (CancelUploadLease (blk 9) (agt 1))).1 = ex_state.
Proof.
  refine (@rejection_changes_nothing toy_binding_key ex_log (CancelUploadLease (blk 9) (agt 1))
    _ "unknown upload lease" ex_log_sorted (pair_snd _ _ _)).
  vm_compute. reflexivity.
Defined.

Lemma terminal_statuses_permanent_witness :
  is_expired (leases (@apply toy_binding_key ex_state [ex_entry 8 ex_commit]).1) (blk 3) = true.
Proof.
  apply (@terminal_statuses_permanent toy_binding_key ex_state [ex_entry 8 ex_commit] (blk 3));
    [apply ex_state_inv|split; [vm_compute; discriminate|exact I]|vm_compute; reflexivity].
Defined.

(** The lease the examples commit, before and after. *)
Definition ex_lease : UploadLease := MkLease (agt 1) [blk 10; blk 11] 2 None.
Definition ex_committed : MetadataState := (@apply_one toy_binding_key ex_state ex_commit).1.
Definition ex_rival : list Entry := [ex_entry 9 (BeginUploadLease (blk 4) (agt 1) [blk 20])].

Lemma ex_commit_accepted :
  @apply_one toy_binding_key ex_state ex_commit = (ex_committed, Bound).
Proof. apply pair_snd. vm_compute. reflexivity. Qed.
Lemma ex_lease_pending : records (leases ex_state) !! blk 1 = Some ex_lease.
Proof. vm_compute. reflexivity. Qed.
Lemma ex_rival_sorted : log_sorted (applied_index ex_committed) ex_rival.
Proof. split; [vm_compute; discriminate|exact I]. Qed.

Lemma commit_is_compare_and_swap_witness :
  let s'' := (@apply toy_binding_key ex_committed ex_rival).1 in
  is_rejected (@apply_one toy_binding_key s''
    (CommitUploadLease (blk 4) (agt 1) (MkChainBinding ex_key [blk 20] None) 0)).2 = true.
Proof.
  apply (@commit_is_compare_and_swap toy_binding_key ex_state (blk 1) (agt 1) ex_binding 0 ex_lease
    ex_committed ex_rival (blk 4) (agt 1) (MkChainBinding ex_key [blk 20] None) 0
    ex_state_inv ex_lease_pending eq_refl ex_commit_accepted ex_rival_sorted).
  - intros l2 E. vm_compute in E. by injection E as <-.
  - reflexivity.
  - reflexivity.
Defined.

Lemma commit_retry_is_idempotent_witness :
  let s'' := (@apply toy_binding_key ex_committed ex_rival).1 in
  @apply_unfenced toy_binding_key s'' ex_commit = (s'', Bound).
Proof.
  apply (@commit_retry_is_idempotent toy_binding_key ex_state (blk 1) (agt 1) ex_binding 0 ex_lease
    ex_committed ex_rival ex_state_inv ex_lease_pending eq_refl ex_commit_accepted ex_rival_sorted).
Defined.
