(* ===== verification/Fences.v ===== *)
(** * Block fences

    [apply_one] stamps every block a request touches with the position of the
    request.  The reclamation code compares fences to decide whether what it
    read about a block still holds, which is sound only if every change that
    could protect the block again also moves its fence.  That is what this
    file proves. *)

From S2P Require Import Prelude Core Metadata Leases StateMachine StateInvariant ControlPlane Lifecycle.

Section Fences.
Context `{BindingKey}.

(** Block [b] belongs to the binding stored under [k]. *)
Definition bound_at (s : MetadataState) (k : string) (b : BlockId) : Prop :=
  ∃ r, bindings s !! k = Some r ∧ b ∈ rec_blocks r.

(** Nothing between [s] and [s'] gave [b] a new protection. *)
Record unaffected (b : BlockId) (s s' : MetadataState) : Prop := {
  ua_refs : block_refs s' !! b = block_refs s !! b;
  ua_req : replica_requirements s' !! b = replica_requirements s !! b;
  ua_bound : ∀ k, bound_at s' k b ↔ bound_at s k b;
  ua_record : ∀ id r', records (leases s') !! id = Some r' → b ∈ lease_blocks r' →
    is_Some (records (leases s) !! id);
  ua_deadline : ∀ id r, records (leases s) !! id = Some r → b ∈ lease_blocks r →
    deadlines (leases s') !! id = deadlines (leases s) !! id;
  ua_evolves : evolves (leases s) (leases s') }.

#[export] Instance unaffected_preorder b : PreOrder (unaffected b).
Proof.
  split.
  - intros s. constructor; eauto; done.
  - intros s1 s2 s3 [R1 Q1 B1 L1 D1 E1] [R2 Q2 B2 L2 D2 E2]. constructor; try congruence.
    + intros k. by rewrite B2, B1.
    + intros id r' Hr' Hb. destruct (L2 _ _ Hr' Hb) as [r Hr].
      destruct (ev_record _ _ E2 _ _ Hr) as (r2 & ? & Hev). simplify_eq.
      apply (L1 _ _ Hr). by rewrite <-(re_blocks _ _ Hev).
    + intros id r Hr Hb. destruct (ev_record _ _ E1 _ _ Hr) as (r2 & Hr2 & Hev).
      rewrite (D2 _ _ Hr2); [by eapply D1|]. by rewrite (re_blocks _ _ Hev).
    + by transitivity (leases s2).
Qed.

(** ** Counts of blocks a binding does not mention *)
Lemma release_ref_ne refs a b : a ≠ b → release_ref refs a !! b = refs !! b.
Proof.
  intros Hne. unfold release_ref. destruct (refs !! a); [|done].
  case_goal; [by rewrite lookup_delete_ne|by rewrite lookup_insert_ne].
Qed.

Lemma foldl_release_ne l refs b : b ∉ l → foldl release_ref refs l !! b = refs !! b.
Proof.
  revert refs. induction l as [|a l IH]; intros refs Hb; [done|]. apply not_elem_of_cons in Hb as [].
  cbn. rewrite IH by done. by apply release_ref_ne.
Qed.

Lemma foldl_add_ne l refs b : b ∉ l → foldl add_ref refs l !! b = refs !! b.
Proof.
  revert refs. induction l as [|a l IH]; intros refs Hb; [done|]. apply not_elem_of_cons in Hb as [].
  cbn. rewrite IH by done. unfold add_ref. by rewrite lookup_insert_ne.
Qed.

Lemma foldl_require_ne n l m b : b ∉ l → foldl (require_replica n) m l !! b = m !! b.
Proof.
  revert m. induction l as [|a l IH]; intros m Hb; [done|]. apply not_elem_of_cons in Hb as [].
  cbn. rewrite IH by done. unfold require_replica. by rewrite lookup_insert_ne.
Qed.

Lemma bind_one_refs s agent key blocks parent :
  block_refs (bind_one s agent key blocks parent) =
  foldl add_ref (match bindings s !! binding_key key with
                 | Some old => foldl release_ref (block_refs s) (rec_blocks old)
                 | None => block_refs s
                 end) blocks.
Proof.
  unfold bind_one.
  destruct (initialized (leases s)); cbn; destruct (bindings s !! binding_key key), parent; done.
Qed.

(** ** The requests *)
Lemma bind_link_unaffected b s agent x :
  inv s → b ∉ cb_blocks x → ¬ bound_at s (binding_key (cb_key x)) b →
  unaffected b s (bind_link s agent x).
Proof.
  intros Hs Hb Hnb. unfold bind_link.
  destruct (bind_one_fields s agent (cb_key x) (cb_blocks x) (cb_parent x))
    as (E1 & E2 & _ & _ & E5 & _ & _).
  destruct (bump_revision_fields (binding_key (cb_key x)) (leases s)) as (F1 & _ & _ & F4 & _).
  constructor.
  - rewrite bind_one_refs, foldl_add_ne by done.
    destruct (bindings s !! binding_key (cb_key x)) as [old|] eqn:Hold; [|done].
    apply foldl_release_ne. intros Hin. apply Hnb. by exists old.
  - by rewrite E5.
  - intros k. unfold bound_at. rewrite E2. destruct (decide (binding_key (cb_key x) = k)) as [<-|].
    + rewrite lookup_insert_eq. split; [|done]. by intros (r & [= <-] & Hin).
    + by rewrite lookup_insert_ne.
  - intros id r'. rewrite E1, F1. eauto.
  - intros id r _ _. by rewrite E1, F4.
  - by apply bind_link_evolves.
Qed.

Lemma bind_chain_unaffected b s agent bs :
  inv s → (∀ x, x ∈ bs → b ∉ cb_blocks x ∧ ¬ bound_at s (binding_key (cb_key x)) b) →
  unaffected b s (foldl (λ s x, bind_link s agent x) s bs).
Proof.
  revert s. induction bs as [|x bs IH]; intros s Hs Hx; [done|]. cbn.
  destruct (Hx x) as [Hb Hnb]; [by left|].
  pose proof (bind_link_unaffected b s agent x Hs Hb Hnb) as Hu.
  etrans; [exact Hu|]. apply IH; [by apply bind_one_inv|].
  intros y Hy. destruct (Hx y) as [Hby Hnby]; [by right|]. split; [done|].
  by rewrite (ua_bound _ _ _ Hu).
Qed.

(** A change of the lease component alone, by [evolves] and the two tests. *)
Lemma lease_unaffected b s l :
  evolves (leases s) l →
  (∀ id r', records l !! id = Some r' → b ∈ lease_blocks r' →
    is_Some (records (leases s) !! id)) →
  (∀ id r, records (leases s) !! id = Some r → b ∈ lease_blocks r →
    deadlines l !! id = deadlines (leases s) !! id) →
  unaffected b s (set_leases l s).
Proof. intros. by constructor. Qed.

Lemma foldl_union_elem {A} (f : A → gset BlockId) l acc b :
  b ∈ foldl (λ acc x, acc ∪ f x) acc l ↔ b ∈ acc ∨ ∃ x, x ∈ l ∧ b ∈ f x.
Proof.
  revert acc. induction l as [|x l IH]; intros acc; cbn.
  - split; [by left|]. intros [?|(x & Hx & _)]; [done|]. by apply not_elem_of_nil in Hx.
  - rewrite IH, elem_of_union. setoid_rewrite elem_of_cons. naive_solver.
Qed.

Lemma not_touched_binding b s key blocks :
  b ∉ touched_binding s key blocks → b ∉ blocks ∧ ¬ bound_at s (binding_key key) b.
Proof.
  unfold touched_binding. rewrite not_elem_of_union, not_elem_of_list_to_set.
  intros [Hb Hn]. split; [done|]. intros (r & Hr & Hin). rewrite Hr in Hn.
  by rewrite not_elem_of_list_to_set in Hn.
Qed.

Lemma lease_step_unaffected b s o :
  lease_step s o → evolves (leases s) (leases o.1) →
  (∀ id r', records (leases o.1) !! id = Some r' → b ∈ lease_blocks r' →
    is_Some (records (leases s) !! id)) →
  (∀ id r, records (leases s) !! id = Some r → b ∈ lease_blocks r →
    deadlines (leases o.1) !! id = deadlines (leases s) !! id) →
  unaffected b s o.1.
Proof. intros (l & -> & _). apply lease_unaffected. Qed.

Lemma commit_unaffected b s id agent x rev :
  inv s → b ∉ touched s (CommitUploadLease id agent x rev) →
  unaffected b s (apply_unfenced s (CommitUploadLease id agent x rev)).1.
Proof.
  intros Hs Ht. pose proof (apply_unfenced_evolves s (CommitUploadLease id agent x rev) Hs) as He.
  cbn [apply_unfenced touched] in *.
  destruct (validate_commit s id agent x rev) as [[]|] eqn:E; [|done..].
  apply validate_commit_ok in E as (_ & l & Hl & _ & Hbl & _).
  apply not_touched_binding in Ht as [Hb Hnb].
  pose proof (bind_link_unaffected b s agent x Hs Hb Hnb) as [R1 R2 R3 R4 R5 _].
  constructor; try done. intros i r'. cbn.
  destruct (decide (i = id)) as [->|]; [eauto|]. rewrite lookup_alter_ne by done. apply R4.
Qed.

Lemma reserve_unaffected b s id agent blocks :
  inv s → b ∉ blocks → unaffected b s (reserve s id agent blocks).1.
Proof.
  intros Hs Hb. apply lease_step_unaffected;
    [by apply reserve_step|by apply reserve_evolves| |].
  - intros i r'. unfold reserve. case_goal; [by eauto|].
    set (s1 := if initialized (leases s) then s else _).
    assert (records (leases s1) = records (leases s)) as E1 by (subst s1; by case_goal).
    clearbody s1. rewrite <-E1.
    destruct (records (leases s1) !! id) eqn:Hold; [by eauto|]. case_goal; [by eauto|]. cbn.
    intros [[<- <-]|[_ ?]]%lookup_insert_Some; [done|by eauto].
  - intros i r _ _. unfold reserve. case_goal; [done|].
    destruct (initialized (leases s)); cbn; repeat (case_goal; try done).
Qed.

Lemma renew_unaffected b s id agent gen ttl :
  inv s → b ∉ touched s (RenewUploadLease id agent gen ttl) →
  unaffected b s (renew s id agent gen ttl).1.
Proof.
  intros Hs Ht. apply lease_step_unaffected; [by apply renew_step|by apply renew_evolves| |].
  - intros i r'. unfold renew. repeat (case_goal; try by eauto).
  - intros i r Hr Hb. assert (i ≠ id) as Hne.
    { intros ->. cbn in Ht. by rewrite Hr, not_elem_of_list_to_set in Ht. }
    unfold renew. repeat (case_goal; try done); cbn; by rewrite lookup_insert_ne.
Qed.

Lemma apply_unfenced_unaffected b s req :
  inv s → b ∉ touched s req → unaffected b s (apply_unfenced s req).1.
Proof.
  intros Hs Ht. destruct req as [blocks n|agent name|agent key blocks parent|agent bs|lease agent blocks
    |lease agent x rev|lease agent|lease agent gen ttl|tick|lease gen tick]; cbn [apply_unfenced].
  - do 2 (case_goal; [done|]). cbn in Ht. rewrite not_elem_of_list_to_set in Ht.
    constructor; try done. by apply foldl_require_ne.
  - constructor; try done; by eauto.
  - apply not_touched_binding in Ht as [Hb Hnb].
    by apply (bind_link_unaffected b s agent (MkChainBinding key blocks parent)).
  - apply bind_chain_unaffected; [done|]. intros x Hx. apply not_touched_binding.
    intros Hin. apply Ht. cbn. apply foldl_union_elem. right. by exists x.
  - cbn in Ht. rewrite not_elem_of_list_to_set in Ht. by apply reserve_unaffected.
  - by apply commit_unaffected.
  - apply lease_step_unaffected; [by apply cancel_step|by apply cancel_evolves|..];
      unfold cancel; repeat (case_goal; try by eauto).
  - by apply renew_unaffected.
  - apply lease_step_unaffected; [by apply advance_step|by apply advance_evolves|..];
      unfold advance; repeat (case_goal; try by eauto).
  - apply lease_step_unaffected; [by apply expire_step|by apply expire_evolves|..];
      unfold expire; repeat (case_goal; try by eauto).
Qed.

(** ** Entries *)

(** A committed log has increasing positions. *)
Fixpoint log_strict (at_ : Z) (es : list Entry) : Prop :=
  match es with
  | [] => True
  | e :: es => at_ < log_index (entry_log_id e) ∧ log_strict (log_index (entry_log_id e)) es
  end.

Lemma log_strict_sorted a es : log_strict a es → log_sorted a es.
Proof. revert a. induction es; cbn; [done|]. intros a' [? ?]. split; [lia|auto]. Qed.

(** One request either leaves [b] and its fence alone, or moves the fence to
    the position being applied. *)
Lemma apply_one_fence s req b :
  inv s →
  let s' := (apply_one s req).1 in
  (unaffected b s s' ∧ block_fences s' !! b = block_fences s !! b) ∨
  (b ∈ touched s req ∧ is_rejected (apply_one s req).2 = false ∧
   block_fences s' !! b = Some (applied_index s)).
Proof.
  intros Hs. cbn zeta. unfold apply_one. case_goal; [by left|].
  destruct (apply_unfenced_inv s req Hs) as (_ & Ha & Hf).
  pose proof (apply_unfenced_unaffected b s req Hs) as Hu.
  pose proof (apply_unfenced_rejected s req) as Hrej.
  destruct (apply_unfenced s req) as [s' r]. cbn in *.
  destruct (is_rejected r) eqn:Er.
  { destruct r; try done. rewrite (Hrej _ _ Hs eq_refl). by left. }
  cbn. rewrite fence_all_lookup. case_decide as Hin.
  - right. by rewrite Ha.
  - left. rewrite Hf. split; [|done]. by destruct (Hu Hin).
Qed.

Lemma apply_entry_fence s e b :
  inv s → applied_index s < log_index (entry_log_id e) →
  let s' := (apply_entry s e).1 in
  (unaffected b s s' ∧ block_fences s' !! b = block_fences s !! b) ∨
  block_fences s' !! b = Some (log_index (entry_log_id e)).
Proof.
  intros Hs Hlt. unfold apply_entry. destruct (entry_payload e) as [|req|m]; [by left| |by left].
  pose proof (set_last_applied_inv s (entry_log_id e) Hs ltac:(lia)) as Hs'.
  destruct (apply_one_fence _ req b Hs') as [[Hu Hf]|(_ & _ & Hf)]; [left|by right].
  split; [by destruct Hu|done].
Qed.

(** Fences never move back. *)
Lemma apply_fence_mono s es b a :
  inv s → log_strict (applied_index s) es → block_fences s !! b = Some a →
  ∃ a', block_fences (apply s es).1 !! b = Some a' ∧ a ≤ a'.
Proof.
  revert s a. induction es as [|e es IH]; intros s a Hs Hes Hb; [by exists a|].
  destruct Hes as [Hlt Hes]. cbn.
  destruct (apply_entry_inv s e Hs ltac:(lia)) as [Hs' Ha].
  pose proof (apply_entry_fence s e b Hs Hlt) as Hf.
  pose proof (fi_pos _ _ (inv_fence _ Hs) _ _ Hb) as Hle.
  destruct (apply_entry s e) as [s1 r]. cbn in *. rewrite <-Ha in Hes.
  destruct (apply s1 es) as [s2 rs] eqn:E2. cbn.
  assert (∃ a1, block_fences s1 !! b = Some a1 ∧ a ≤ a1) as (a1 & Ha1 & Hle1).
  { destruct Hf as [[_ ->]|Hf]; [by exists a|]. eexists. split; [done|lia]. }
  destruct (IH s1 a1 Hs' Hes Ha1) as (a' & Ha' & ?). rewrite E2 in Ha'.
  exists a'. split; [done|lia].
Qed.

Lemma apply_unaffected s es b :
  inv s → log_strict (applied_index s) es →
  block_fences (apply s es).1 !! b = block_fences s !! b → unaffected b s (apply s es).1.
Proof.
  revert s. induction es as [|e es IH]; intros s Hs Hes Hb; [done|].
  destruct Hes as [Hlt Hes]. cbn in *.
  destruct (apply_entry_inv s e Hs ltac:(lia)) as [Hs' Ha].
  pose proof (apply_entry_fence s e b Hs Hlt) as Hf.
  destruct (apply_entry s e) as [s1 r]. cbn in *. rewrite <-Ha in Hes.
  specialize (IH s1 Hs' Hes). pose proof (apply_fence_mono s1 es b) as Hm.
  destruct (apply s1 es) as [s2 rs]. cbn in *. destruct Hf as [[Hu Hf]|Hf].
  - etrans; [exact Hu|]. apply IH. congruence.
  - destruct (Hm _ Hs' Hes Hf) as (a' & Ha' & Hle). rewrite Ha' in Hb. symmetry in Hb.
    pose proof (fi_pos _ _ (inv_fence _ Hs) _ _ Hb). lia.
Qed.

(** ** What the reclamation code relies on *)
Lemma pending_anti b s s' :
  unaffected b s s' →
  ev_pending (reclamation_evidence s' b) ≤ ev_pending (reclamation_evidence s b).
Proof.
  intros [_ _ _ Hrec _ [ER EC EX _ _]]. cbn. unfold count_status. rewrite !map_count_size.
  unfold zsize. apply inj_le. rewrite <-!size_dom. apply subseteq_size.
  intros id. rewrite !elem_of_dom. intros [r' Hr'].
  apply map_lookup_filter_Some in Hr' as [Hr' Hp]. cbn in Hp. bool_prop.
  destruct (Hrec _ _ Hr') as [r Hr]; [done|]. exists r. apply map_lookup_filter_Some.
  split; [done|]. cbn. destruct (ER _ _ Hr) as (r2 & ? & [Hag Hbl Hcr Hcm]). simplify_eq.
  rewrite bool_decide_eq_true_2 by congruence. cbn. apply bool_decide_eq_true.
  revert H1. unfold status_of. destruct (committed r) as [c|] eqn:Hc; [by rewrite (Hcm c eq_refl)|].
  destruct (committed r'); [done|].
  destruct (contains_key (cancelled (leases s)) id) eqn:Hk.
  { apply contains_key_true in Hk as [v Hk]. eapply lookup_weaken in Hk; [|exact EC].
    by rewrite (proj2 (contains_key_true _ _)) by eauto. }
  destruct (is_expired (leases s) id) eqn:He; [|done]. rewrite (EX _ He).
  by destruct (contains_key (cancelled (leases s')) id).
Qed.

(** C2. Fences guard reclamation evidence.  However the log continues, if a
    block's fence is the one that was read before, then its reference count,
    its replica requirement and the bindings that contain it are unchanged,
    no lease deadline covering it was extended, and no more leases are
    pending on it than before. *)
Theorem unmoved_fence_guards_evidence s es b :
  inv s → log_strict (applied_index s) es →
  let s' := (apply s es).1 in
  ev_fence (reclamation_evidence s' b) = ev_fence (reclamation_evidence s b) →
  ev_references (reclamation_evidence s' b) = ev_references (reclamation_evidence s b) ∧
  ev_replicas (reclamation_evidence s' b) = ev_replicas (reclamation_evidence s b) ∧
  ev_pending (reclamation_evidence s' b) ≤ ev_pending (reclamation_evidence s b) ∧
  (∀ k, bound_at s' k b ↔ bound_at s k b) ∧
  (∀ id r, records (leases s) !! id = Some r → b ∈ lease_blocks r →
     deadlines (leases s') !! id = deadlines (leases s) !! id).
Proof.
  intros Hs Hes s' Hf. pose proof (apply_unaffected s es b Hs Hes Hf) as Hu. fold s' in Hu.
  pose proof (pending_anti _ _ _ Hu). destruct Hu as [R1 R2 R3 _ R5 _].
  split_and!; [|by cbn; rewrite R2|done|done|done]. cbn. by rewrite R1.
Qed.

(** An accepted request stamps every block it touches with the position
    it is applied at, and leaves every other fence alone; fences never exceed
    the applied position and the table never exceeds its capacity. *)
Theorem accepted_request_fences s req s' r :
  inv s → apply_one s req = (s', r) → is_rejected r = false →
  (∀ b, block_fences s' !! b =
     if decide (b ∈ touched s req) then Some (applied_index s) else block_fences s !! b) ∧
  zsize (block_fences s') ≤ MAX_BLOCK_FENCES ∧
  (∀ b a, block_fences s' !! b = Some a → a ≤ applied_index s').
Proof.
  intros Hs E Hr. destruct (apply_one_inv s req Hs) as [[_ [Hsz Hpos] _] _].
  rewrite E in *. cbn in *. split_and!; [|done|done]. intros b.
  unfold apply_one in E. case_hyp E; [by simplify_eq|].
  destruct (apply_unfenced_inv s req Hs) as (_ & Ha & Hf).
  destruct (apply_unfenced s req) as [s1 r1]. cbn in *.
  destruct (is_rejected r1) eqn:Er; simplify_eq; [congruence|].
  cbn. by rewrite fence_all_lookup, Ha, Hf.
Qed.

End Fences.

Lemma unmoved_fence_guards_evidence_witness :
  ev_pending (reclamation_evidence
    (@apply toy_binding_key ex_state [ex_entry 8 (CancelUploadLease (blk 1) (agt 1))]).1 (blk 10)) = 0
  ∧ ev_pending (reclamation_evidence
    (@apply toy_binding_key ex_state [ex_entry 8 (CancelUploadLease (blk 1) (agt 1))]).1 (blk 10))
    ≤ ev_pending (reclamation_evidence ex_state (blk 10)).
Proof.
  split; [vm_compute; reflexivity|].
  apply (@unmoved_fence_guards_evidence toy_binding_key ex_state
    [ex_entry 8 (CancelUploadLease (blk 1) (agt 1))] (blk 10));
    [apply ex_state_inv|split; [vm_compute; reflexivity|exact I]|vm_compute; reflexivity].
Defined.

Lemma accepted_request_fences_witness :
  block_fences ex_committed !! blk 10 = Some 7.
Proof.
  etrans; [apply (@accepted_request_fences toy_binding_key ex_state ex_commit ex_committed Bound
    ex_state_inv ex_commit_accepted eq_refl)|]. vm_compute. reflexivity.
Defined.
