(* ===== verification/RefCounts.v ===== *)
(** * Block reference counts

    [bind_one] maintains [block_refs] incrementally: it releases the blocks of
    the binding it replaces and counts those of the new one, on [u32].  The
    specification is the number of occurrences of a block in the stored
    bindings, and the incremental count refines it as long as fewer than
    2^32 block references were ever logged. *)

From S2P Require Import Prelude Core Metadata Leases StateMachine StateInvariant ControlPlane Lifecycle Fences.

(** ** Specification *)
Definition occ (b : BlockId) (l : list BlockId) : Z := zlen (base.filter (b =.) l).

Definition ref_count (bd : gmap string BindingRecord) (b : BlockId) : Z :=
  map_sum (λ r, occ b (rec_blocks r)) bd.

(** The table stores exactly the non-zero counts. *)
Definition refs_exact (s : MetadataState) : Prop :=
  ∀ b, block_refs s !! b =
    if ref_count (bindings s) b =? 0 then None else Some (ref_count (bindings s) b).

(** Total number of block references held by the bindings. *)
Definition total_refs (bd : gmap string BindingRecord) : Z :=
  map_sum (λ r, zlen (rec_blocks r)) bd.

(** The block references a log asks to bind. *)
Definition request_refs (r : Request) : Z :=
  match r with
  | BindPrefix _ _ blocks _ => zlen blocks
  | BindChain _ bs => foldr (λ b acc, zlen (cb_blocks b) + acc) 0 bs
  | CommitUploadLease _ _ b _ => zlen (cb_blocks b)
  | _ => 0
  end.
Definition entry_refs (e : Entry) : Z :=
  match entry_payload e with Normal r => request_refs r | _ => 0 end.
Definition log_refs (es : list Entry) : Z := foldr (λ e acc, entry_refs e + acc) 0 es.

(** ** Occurrences *)
Lemma occ_nil b : occ b [] = 0.
Proof. done. Qed.
Lemma occ_cons b a l : occ b (a :: l) = (if decide (b = a) then 1 else 0) + occ b l.
Proof. unfold occ. rewrite filter_cons. case_decide; zl. Qed.
Lemma occ_nonneg b l : 0 ≤ occ b l.
Proof. apply zlen_nonneg. Qed.
Lemma occ_le b l : occ b l ≤ zlen l.
Proof. unfold occ, zlen. apply inj_le, length_filter. Qed.
Lemma occ_pos b l : 0 < occ b l ↔ b ∈ l.
Proof.
  unfold occ. split.
  - intros Hp. destruct (base.filter (b =.) l) as [|x k] eqn:E; [by vm_compute in Hp|].
    assert (x ∈ base.filter (b =.) l) as [-> ?]%list_elem_of_filter by (rewrite E; by left). done.
  - intros Hb. assert (b ∈ base.filter (b =.) l) as Hin by by apply list_elem_of_filter.
    destruct (base.filter (b =.) l); [by apply not_elem_of_nil in Hin|]. zl.
Qed.
#[export] Hint Resolve occ_nonneg : kalpak.

Lemma ref_count_nonneg bd b : 0 ≤ ref_count bd b.
Proof. apply map_sum_nonneg. intros. apply occ_nonneg. Qed.

Lemma map_sum_le {K V} `{Countable K} (f g : V → Z) (m : gmap K V) :
  (∀ v, f v ≤ g v) → map_sum f m ≤ map_sum g m.
Proof.
  intros Hfg. induction m as [|k v m Hk IH] using map_ind; [by rewrite !map_sum_empty|].
  rewrite !map_sum_insert by done. specialize (Hfg v). lia.
Qed.

Lemma ref_count_total bd b : ref_count bd b ≤ total_refs bd.
Proof. apply map_sum_le. intros. apply occ_le. Qed.

(** Replacing a binding, at the level of the specification. *)
Lemma map_sum_replace {K V} `{Countable K} (f : V → Z) (m : gmap K V) k v :
  map_sum f (<[k := v]> m) = map_sum f m - match m !! k with Some w => f w | None => 0 end + f v.
Proof.
  destruct (m !! k) as [w|] eqn:E.
  - rewrite (map_sum_delete f m k w E), <-insert_delete_eq, map_sum_insert by apply lookup_delete_eq.
    lia.
  - rewrite map_sum_insert by done. lia.
Qed.

Lemma ref_count_bound bd b : 0 < ref_count bd b ↔ ∃ k r, bd !! k = Some r ∧ b ∈ rec_blocks r.
Proof.
  unfold ref_count. split.
  - induction bd as [|k v m Hk IH] using map_ind; [by rewrite map_sum_empty|].
    rewrite map_sum_insert by done. intros Hp. pose proof (occ_nonneg b (rec_blocks v)).
    destruct (decide (0 < occ b (rec_blocks v))) as [Hv|Hv].
    + apply occ_pos in Hv. exists k, v. by rewrite lookup_insert_eq.
    + destruct IH as (k' & r & Hr & Hb); [lia|]. exists k', r.
      rewrite lookup_insert_ne; [done|]. intros ->. congruence.
  - intros (k & r & Hr & Hb%occ_pos). rewrite (map_sum_delete _ _ _ _ Hr).
    pose proof (ref_count_nonneg (delete k bd) b). unfold ref_count in *. lia.
Qed.

(** ** The incremental updates *)
Definition exact_for (f : BlockId → Z) (refs : gmap BlockId Z) : Prop :=
  ∀ b, refs !! b = if f b =? 0 then None else Some (f b).

Lemma release_ref_exact f refs a :
  exact_for f refs → 1 ≤ f a →
  exact_for (λ b, f b - if decide (b = a) then 1 else 0) (release_ref refs a).
Proof.
  intros Hf Ha b. unfold release_ref. rewrite (Hf a).
  rewrite (proj2 (Z.eqb_neq _ _)) by lia. unfold saturating_sub.
  rewrite Z.max_r by lia. destruct (decide (b = a)) as [->|Hne].
  - case_goal; [by rewrite lookup_delete_eq|by rewrite lookup_insert_eq].
  - rewrite Z.sub_0_r. case_goal; [rewrite lookup_delete_ne|rewrite lookup_insert_ne]; auto.
Qed.

Lemma add_ref_exact f refs a :
  exact_for f refs → 0 ≤ f a → f a + 1 ≤ u32_max →
  exact_for (λ b, f b + if decide (b = a) then 1 else 0) (add_ref refs a).
Proof.
  intros Hf Ha Hmax b. unfold add_ref.
  assert (default 0 (refs !! a) = f a) as ->.
  { rewrite (Hf a). destruct (Z.eqb_spec (f a) 0) as [->|]; done. }
  unfold u32_succ. rewrite Z.mod_small by (unfold u32_max in *; lia).
  destruct (decide (b = a)) as [->|Hne].
  - rewrite lookup_insert_eq, (proj2 (Z.eqb_neq _ _)) by lia. done.
  - rewrite Z.add_0_r, lookup_insert_ne; auto.
Qed.

Lemma exact_for_ext f g refs : (∀ b, f b = g b) → exact_for f refs → exact_for g refs.
Proof. intros Hfg Hf b. by rewrite <-Hfg. Qed.

Lemma foldl_release_exact l f refs :
  exact_for f refs → (∀ b, occ b l ≤ f b) →
  exact_for (λ b, f b - occ b l) (foldl release_ref refs l).
Proof.
  revert f refs. induction l as [|a l IH]; intros f refs Hf Hocc; cbn.
  - eapply exact_for_ext; [|done]. intros b. rewrite occ_nil. lia.
  - eapply exact_for_ext; [|apply IH; [apply release_ref_exact; [done|]|]].
    + intros b. cbn. rewrite occ_cons. lia.
    + specialize (Hocc a). rewrite occ_cons, decide_True in Hocc by done.
      pose proof (occ_nonneg a l). lia.
    + intros b. specialize (Hocc b). rewrite occ_cons in Hocc. cbn. lia.
Qed.

Lemma foldl_add_exact l f refs :
  exact_for f refs → (∀ b, 0 ≤ f b) → (∀ b, f b + occ b l ≤ u32_max) →
  exact_for (λ b, f b + occ b l) (foldl add_ref refs l).
Proof.
  revert f refs. induction l as [|a l IH]; intros f refs Hf Hp Hmax; cbn.
  - eapply exact_for_ext; [|done]. intros b. rewrite occ_nil. lia.
  - eapply exact_for_ext; [|apply IH; [apply add_ref_exact; [done|done|]|..]].
    + intros b. cbn. rewrite occ_cons. lia.
    + specialize (Hmax a). rewrite occ_cons, decide_True in Hmax by done.
      pose proof (occ_nonneg a l). lia.
    + intros b. cbn. specialize (Hp b). case_decide; lia.
    + intros b. specialize (Hmax b). rewrite occ_cons in Hmax. cbn. lia.
Qed.

Section RefCounts.
Context `{BindingKey}.

Lemma bind_one_exact s agent key blocks parent :
  refs_exact s → total_refs (bindings s) + zlen blocks ≤ u32_max →
  let s' := bind_one s agent key blocks parent in
  refs_exact s' ∧ total_refs (bindings s') ≤ total_refs (bindings s) + zlen blocks.
Proof.
  intros Hx Hmax. cbn zeta.
  destruct (bind_one_fields s agent key blocks parent) as (_ & E2 & _).
  assert (∀ b, ref_count (bindings (bind_one s agent key blocks parent)) b =
    ref_count (bindings s) b
    - match bindings s !! binding_key key with Some o => occ b (rec_blocks o) | None => 0 end
    + occ b blocks) as Hcount.
  { intros b. rewrite E2. unfold ref_count. by rewrite map_sum_replace. }
  split.
  - unfold refs_exact. rewrite bind_one_refs.
    set (g := λ b, ref_count (bindings s) b
      - match bindings s !! binding_key key with Some o => occ b (rec_blocks o) | None => 0 end).
    assert (∀ b, 0 ≤ g b ≤ total_refs (bindings s)) as Hg.
    { intros b. pose proof (ref_count_total (bindings s) b). unfold g.
      destruct (bindings s !! binding_key key) as [o|] eqn:Ho.
      - pose proof (ref_count_nonneg (delete (binding_key key) (bindings s)) b).
        unfold ref_count in *. rewrite (map_sum_delete _ _ _ _ Ho) in *.
        pose proof (occ_nonneg b (rec_blocks o)). lia.
      - pose proof (ref_count_nonneg (bindings s) b). lia. }
    eapply exact_for_ext; [intros b; symmetry; apply Hcount|].
    apply (foldl_add_exact blocks g); [|intros b; apply Hg|].
    + unfold g. destruct (bindings s !! binding_key key) as [o|] eqn:Ho.
      * apply foldl_release_exact; [done|]. intros b. specialize (Hg b). unfold g in Hg. lia.
      * eapply exact_for_ext; [|done]. intros b. cbn. lia.
    + intros b. pose proof (occ_le b blocks). specialize (Hg b). lia.
  - rewrite E2. unfold total_refs. rewrite map_sum_replace. cbn.
    destruct (bindings s !! binding_key key) as [o|]; zl.
Qed.

Lemma bind_chain_exact s agent bs :
  refs_exact s → total_refs (bindings s) + request_refs (BindChain agent bs) ≤ u32_max →
  let s' := foldl (λ s b, bind_link s agent b) s bs in
  refs_exact s' ∧
  total_refs (bindings s') ≤ total_refs (bindings s) + request_refs (BindChain agent bs).
Proof.
  revert s. induction bs as [|x bs IH]; intros s Hx Hmax; cbn in *; [split; [done|lia]|].
  assert (0 ≤ foldr (λ b acc, zlen (cb_blocks b) + acc) 0 bs) as Hp.
  { clear. induction bs as [|y bs IH]; cbn; [done|]. zl. }
  destruct (bind_one_exact s agent (cb_key x) (cb_blocks x) (cb_parent x) Hx) as [Hx' Ht']; [lia|].
  destruct (IH (bind_link s agent x)) as [Hx2 Ht2]; [done|unfold bind_link; lia|].
  split; [done|]. unfold bind_link in *. lia.
Qed.

(** The other requests do not touch bindings or counts. *)
Lemma lease_step_refs s o :
  lease_step s o → bindings o.1 = bindings s ∧ block_refs o.1 = block_refs s.
Proof. by intros (l & -> & _). Qed.

Lemma apply_unfenced_exact s req :
  inv s → refs_exact s → total_refs (bindings s) + request_refs req ≤ u32_max →
  let s' := (apply_unfenced s req).1 in
  refs_exact s' ∧ total_refs (bindings s') ≤ total_refs (bindings s) + request_refs req.
Proof.
  intros Hs Hx Hmax. cbn zeta.
  assert (∀ o, lease_step s o → request_refs req = 0 → refs_exact o.1 ∧
    total_refs (bindings o.1) ≤ total_refs (bindings s) + request_refs req) as Hlease.
  { intros o Ho E0. destruct (lease_step_refs _ _ Ho) as [Eb Er]. unfold refs_exact.
    rewrite Eb, Er. split; [done|lia]. }
  assert (0 ≤ request_refs req → refs_exact s ∧
    total_refs (bindings s) ≤ total_refs (bindings s) + request_refs req) as Hsame
    by (intros; split; [done|lia]).
  destruct req as [blocks n|agent name|agent key blocks parent|agent bs|lease agent blocks
    |lease agent b rev|lease agent|lease agent gen ttl|tick|lease gen tick]; cbn [apply_unfenced].
  - case_goal; [by apply Hsame|]. case_goal; [by apply Hsame|]. split; [done|cbn; lia].
  - split; [done|cbn; lia].
  - by apply bind_one_exact.
  - by apply (bind_chain_exact s agent bs).
  - by apply Hlease; [apply reserve_step|].
  - cbn in Hsame. destruct (validate_commit s lease agent b rev) as [[]|] eqn:E;
      [|apply Hsame; zl..].
    by apply (bind_one_exact s agent (cb_key b) (cb_blocks b) (cb_parent b)).
  - by apply Hlease; [apply cancel_step|].
  - by apply Hlease; [apply renew_step|].
  - by apply Hlease; [apply advance_step|].
  - by apply Hlease; [apply expire_step|].
Qed.

Lemma request_refs_nonneg req : 0 ≤ request_refs req.
Proof.
  destruct req as [| | |agent bs| | | | | |]; cbn; try apply zlen_nonneg; try done.
  induction bs as [|x l IH]; cbn; [done|zl].
Qed.

Lemma apply_entry_exact s e :
  inv s → applied_index s ≤ log_index (entry_log_id e) →
  refs_exact s → total_refs (bindings s) + entry_refs e ≤ u32_max →
  let s' := (apply_entry s e).1 in
  refs_exact s' ∧ total_refs (bindings s') ≤ total_refs (bindings s) + entry_refs e.
Proof.
  intros Hs Hle Hx Hmax. unfold apply_entry, entry_refs in *.
  pose proof (set_last_applied_inv s _ Hs Hle) as Hs'.
  destruct (entry_payload e) as [|req|m];
    [split; [done|rewrite Z.add_0_r; reflexivity]| |split; [done|rewrite Z.add_0_r; reflexivity]].
  unfold apply_one. case_goal; cbn zeta.
  { pose proof (request_refs_nonneg req). split; [done|].
    change (bindings (_, _).1) with (bindings s). lia. }
  destruct (apply_unfenced_exact _ req Hs' Hx Hmax) as [Hx' Ht'].
  destruct (apply_unfenced _ req) as [s1 r]. cbn in *. by destruct (is_rejected r).
Qed.

Lemma entry_refs_nonneg e : 0 ≤ entry_refs e.
Proof. unfold entry_refs. destruct (entry_payload e); try done. apply request_refs_nonneg. Qed.
Lemma log_refs_nonneg es : 0 ≤ log_refs es.
Proof.
  induction es as [|e es IH]; [done|]. pose proof (entry_refs_nonneg e).
  change (log_refs (e :: es)) with (entry_refs e + log_refs es). lia.
Qed.

Lemma apply_exact s es :
  inv s → log_sorted (applied_index s) es →
  refs_exact s → total_refs (bindings s) + log_refs es ≤ u32_max →
  refs_exact (apply s es).1.
Proof.
  revert s. induction es as [|e es IH]; intros s Hs Hes Hx Hmax; [done|].
  destruct Hes as [Hle Hes]. pose proof (log_refs_nonneg es).
  change (log_refs (e :: es)) with (entry_refs e + log_refs es) in Hmax.
  destruct (apply_entry_inv s e Hs Hle) as [Hs' Ha].
  destruct (apply_entry_exact s e Hs Hle Hx) as [Hx' Ht']; [lia|].
  cbn [apply]. destruct (apply_entry s e) as [s1 r]. cbn [fst] in *. rewrite <-Ha in Hes.
  specialize (IH s1 Hs' Hes Hx'). destruct (apply s1 es). apply IH. lia.
Qed.

Lemma bound_blocks_spec s b : b ∈ bound_blocks s ↔ ∃ k, bound_at s k b.
Proof.
  unfold bound_blocks, bound_at. rewrite elem_of_list_to_set, list_elem_of_In, in_concat. split.
  - intros (l & Hl & Hb). apply list_elem_of_In, list_elem_of_fmap in Hl as ([k r] & -> & Hin).
    apply elem_of_map_to_list in Hin. apply list_elem_of_In in Hb. by exists k, r.
  - intros (k & r & Hr & Hb). exists (rec_blocks r). split; [|by apply list_elem_of_In].
    apply list_elem_of_In, list_elem_of_fmap. exists (k, r). split; [done|].
    by apply elem_of_map_to_list.
Qed.

(** C3. Reference counts are exact.  If a sorted log asks for fewer than 2^32
    block references in all, then after it [block_ref_count] is the number of
    times a block occurs in the stored bindings, the table holds exactly the
    blocks that occur, and [shared_blocks], in whatever order the hash map
    iterates, lists exactly those that occur at least [n] times. *)
Theorem block_refs_count_bindings `{HashOrderLaws} es b n :
  log_sorted 0 es → log_refs es ≤ u32_max →
  let s := (apply default_state es).1 in
  block_ref_count s b = ref_count (bindings s) b ∧
  (is_Some (block_refs s !! b) ↔ b ∈ bound_blocks s) ∧
  (b ∈ shared_blocks s n ↔ b ∈ bound_blocks s ∧ n ≤ ref_count (bindings s) b).
Proof.
  intros Hes Hmax s.
  assert (refs_exact s) as Hx.
  { apply apply_exact; [apply default_inv|done|by intros ?|]. change (total_refs _) with 0. lia. }
  specialize (Hx b). pose proof (ref_count_nonneg (bindings s) b) as Hp.
  assert (b ∈ bound_blocks s ↔ 0 < ref_count (bindings s) b) as Hbb
    by by rewrite bound_blocks_spec, ref_count_bound.
  unfold block_ref_count. rewrite Hbb, Hx. split_and!.
  - destruct (Z.eqb_spec (ref_count (bindings s) b) 0) as [->|]; done.
  - destruct (Z.eqb_spec (ref_count (bindings s) b) 0) as [->|]; split; [by intros [? ?]|lia|lia|eauto].
  - unfold shared_blocks. rewrite list_elem_of_fmap. split.
    + intros ([b' c] & -> & Hin). apply list_elem_of_filter in Hin as [Hn Hin]. cbn in *.
      rewrite hash_order_perm in Hin. apply elem_of_map_to_list in Hin. cbn in Hx.
      rewrite Hx in Hin. destruct (Z.eqb_spec (ref_count (bindings s) b') 0); simplify_eq. lia.
    + intros [Hpos Hn]. exists (b, ref_count (bindings s) b). split; [done|].
      apply list_elem_of_filter. split; [done|]. rewrite hash_order_perm.
      apply elem_of_map_to_list. by rewrite Hx, (proj2 (Z.eqb_neq _ _)) by lia.
Qed.

End RefCounts.

(** Two bindings share a block; then the second one is replaced. *)
Definition ref_log : list Entry :=
  [ex_entry 1 (BindPrefix (agt 1) (key0 1) [blk 1; blk 2; blk 1] None);
   ex_entry 2 (BindPrefix (agt 1) (key0 2) [blk 2; blk 3] (Some (key0 1)));
   ex_entry 3 (BindPrefix (agt 1) (key0 2) [blk 4] (Some (key0 1)))].

Lemma block_refs_count_bindings_witness :
  let s := (@apply toy_binding_key default_state ref_log).1 in
  block_ref_count s (blk 1) = 2 ∧ block_refs s !! blk 3 = None ∧
  block_ref_count s (blk 1) = ref_count (bindings s) (blk 1).
Proof.
  split; [vm_compute; reflexivity|]. split; [vm_compute; reflexivity|].
  apply (@block_refs_count_bindings toy_binding_key toy_order toy_order_laws ref_log (blk 1) 2);
    [cbn; lia|vm_compute; discriminate].
Defined.
