(* ===== verification/Io.v ===== *)
(** * Storage I/O ([crates/kalpak-storage/src/io.rs] and the [std::fs] calls
      of the store)

    The store is written against the traits [IoBackend] and [SegmentFile].
    [SegmentIo] is their interface together with the directory operations the
    store calls from [std::fs]; [SegmentIoLaws] says what an operation that
    succeeds did and what one that fails may have done.  [Disk] is the
    portable backend: a directory of files and a plan of faults, so that
    every operation can fail, a write after any prefix of its bytes. *)

From S2P Require Import Prelude Core.
From Stdlib Require Import Strings.Byte.

(** The names the store uses: [seg-{n:08}.klpk], the temporary of a
    compaction, and everything else a directory may hold. *)
Inductive fname :=
| SegName (n : Z)
| CompactName (n : Z)
| OtherName (s : string).

#[export] Instance fname_eq_dec : EqDecision fname.
Proof. solve_decision. Defined.
#[export] Instance fname_countable : Countable fname :=
  inj_countable' (λ n, match n with
                       | SegName z => inl (inl z) | CompactName z => inl (inr z)
                       | OtherName s => inr s end)
    (λ x, match x with
          | inl (inl z) => SegName z | inl (inr z) => CompactName z | inr s => OtherName s end)
    (λ n, match n with SegName _ | CompactName _ | OtherName _ => eq_refl end).

(** ** The interface *)
Class SegmentIo (W F : Type) := {
  f_len : F → ST W io_error Z;
  f_read : F → Z → Z → ST W io_error bytes;
  f_write : F → bytes → Z → ST W io_error ();
  f_sync : F → ST W io_error ();
  b_open : fname → ST W io_error F;
  fs_list : ST W io_error (list fname);
  fs_truncate : fname → ST W io_error ();
  fs_rename : fname → fname → ST W io_error ();
  fs_sync_dir : ST W io_error () }.

(** [SegmentFile::write_batch], its default implementation. *)
Fixpoint write_all {W F} `{SegmentIo W F} (f : F) (writes : list (Z * bytes)) : ST W io_error () :=
  match writes with
  | [] => mret ()
  | (offset, buf) :: writes => f_write f buf offset ≫= λ _, write_all f writes
  end.
Definition write_batch {W F} `{SegmentIo W F} (f : F) (writes : list (Z * bytes))
    (sync_after : bool) : ST W io_error () :=
  write_all f writes ≫= λ _, if sync_after then f_sync f else mret ().

(** What the laws talk about: the directory, the bytes of an open file, and
    whether the device is still answering. *)
Class SegmentView (W F : Type) := {
  dir_of : W → gmap fname F;
  bytes_of : W → F → bytes;
  healthy : W → Prop }.

Definition same_disk {W F} `{SegmentView W F} (w w' : W) : Prop :=
  dir_of w' = dir_of w ∧ ∀ f, bytes_of w' f = bytes_of w f.

(** [f] is not in the directory. *)
Definition unlisted {W F} `{SegmentView W F} (w : W) (f : F) : Prop :=
  ∀ p, dir_of w !! p ≠ Some f.

Class SegmentIoLaws (W F : Type) `{SegmentIo W F, SegmentView W F} := {
  law_len : ∀ f w w' r, f_len f w = (w', r) → same_disk w w' ∧ r ≠ Panic ∧
    (∀ n, r = Ok n → n = zlen (bytes_of w f)) ∧
    (healthy w → healthy w' ∧ is_ok r = true);
  law_read : ∀ f off n w w' r, f_read f off n w = (w', r) → same_disk w w' ∧ r ≠ Panic ∧
    (∀ l, r = Ok l → 0 ≤ off → 0 ≤ n → off + n ≤ zlen (bytes_of w f) ∧ l = zslice (bytes_of w f) off n) ∧
    (healthy w → healthy w' ∧ (0 ≤ off → 0 ≤ n → off + n ≤ zlen (bytes_of w f) → is_ok r = true));
  law_write : ∀ f buf off w w' r, f_write f buf off w = (w', r) → r ≠ Panic ∧
    dir_of w' = dir_of w ∧ (∀ g, g ≠ f → bytes_of w' g = bytes_of w g) ∧
    (0 ≤ off → ∃ k, bytes_of w' f = splice (bytes_of w f) (take k buf) off ∨
                    bytes_of w' f = bytes_of w f) ∧
    (r = Ok () → 0 ≤ off → bytes_of w' f = splice (bytes_of w f) buf off) ∧
    (healthy w → healthy w' ∧ r = Ok ());
  law_sync : ∀ f w w' r, f_sync f w = (w', r) → same_disk w w' ∧ r ≠ Panic ∧
    (healthy w → healthy w' ∧ r = Ok ());
  law_open : ∀ p w w' r, b_open p w = (w', r) → r ≠ Panic ∧
    (∀ e, r = Err e → same_disk w w') ∧
    (∀ f, r = Ok f →
       match dir_of w !! p with
       | Some f0 => f = f0 ∧ same_disk w w'
       | None => unlisted w f ∧ dir_of w' = <[p := f]> (dir_of w) ∧ bytes_of w' f = [] ∧
                 ∀ g, g ≠ f → bytes_of w' g = bytes_of w g
       end) ∧
    (healthy w → healthy w' ∧ is_ok r = true);
  law_list : ∀ w w' r, fs_list w = (w', r) → same_disk w w' ∧ r ≠ Panic ∧
    (∀ l, r = Ok l → NoDup l ∧ ∀ p, p ∈ l ↔ is_Some (dir_of w !! p)) ∧
    (healthy w → healthy w' ∧ is_ok r = true);
  law_truncate : ∀ p w w' r, fs_truncate p w = (w', r) → r ≠ Panic ∧
    (∀ e, r = Err e → same_disk w w') ∧
    (r = Ok () → ∃ f, dir_of w' = <[p := f]> (dir_of w) ∧ bytes_of w' f = [] ∧
       (dir_of w !! p = Some f ∨ unlisted w f) ∧ ∀ g, g ≠ f → bytes_of w' g = bytes_of w g) ∧
    (healthy w → healthy w' ∧ r = Ok ());
  law_rename : ∀ p q w w' r, fs_rename p q w = (w', r) → r ≠ Panic ∧
    (∀ f, bytes_of w' f = bytes_of w f) ∧
    (∀ e, r = Err e → dir_of w' = dir_of w) ∧
    (r = Ok () → ∃ f, dir_of w !! p = Some f ∧ dir_of w' = <[q := f]> (delete p (dir_of w))) ∧
    (healthy w → healthy w' ∧ (is_Some (dir_of w !! p) → r = Ok ()));
  law_sync_dir : ∀ w w' r, fs_sync_dir w = (w', r) → same_disk w w' ∧ r ≠ Panic ∧
    (healthy w → healthy w' ∧ r = Ok ()) }.

#[export] Instance same_disk_preorder {W F} `{SegmentView W F} : PreOrder (@same_disk W F _).
Proof.
  split; [done|]. intros w1 w2 w3 [D1 B1] [D2 B2]. split; [congruence|]. intros f. by rewrite B2.
Qed.

(** ** [StdBackend]: files by inode, a directory, and a plan of faults

    The plan has one item per operation: [None] lets it through, [Some k]
    fails it, a write after its first [k] bytes.  An exhausted plan means no
    more faults. *)
Record Disk := MkDisk {
  inodes : gmap N bytes;
  entries : gmap fname N;
  faults : list (option nat) }.

Definition empty_disk : Disk := MkDisk ∅ ∅ [].
Definition io_fault : io_error := io_other "device fault".

Definition disk_bytes (d : Disk) (f : N) : bytes := default [] (inodes d !! f).

(** The next item of the plan. *)
Definition pop_fault (d : Disk) : Disk * option nat :=
  match faults d with
  | [] => (d, None)
  | x :: l => (MkDisk (inodes d) (entries d) l, x)
  end.

Definition disk_op {A} (body : Disk → Disk * res io_error A) : ST Disk io_error A := λ d,
  match pop_fault d with
  | (d, Some _) => (d, Err io_fault)
  | (d, None) => body d
  end.

Definition set_bytes (f : N) (l : bytes) (d : Disk) : Disk :=
  MkDisk (<[f := l]> (inodes d)) (entries d) (faults d).
Definition set_entries (m : gmap fname N) (d : Disk) : Disk := MkDisk (inodes d) m (faults d).
(** An unused inode. *)
Definition new_inode (d : Disk) : N := fresh (dom (inodes d) ∪ map_img (entries d) : gset N).

Definition std_len (f : N) : ST Disk io_error Z :=
  disk_op (λ d, (d, Ok (zlen (disk_bytes d f)))).
(** [read_exact_at]. *)
Definition std_read_at (f : N) (off n : Z) : ST Disk io_error bytes :=
  disk_op (λ d,
    (d, if off + n <=? zlen (disk_bytes d f) then Ok (zslice (disk_bytes d f) off n)
        else Err (IoError KUnexpectedEof "failed to fill whole buffer"))).
(** [write_all_at]: a failure may leave a prefix of the buffer behind. *)
Definition std_write_at (f : N) (buf : bytes) (off : Z) : ST Disk io_error () := λ d,
  match pop_fault d with
  | (d, Some k) => (set_bytes f (splice (disk_bytes d f) (take k buf) off) d, Err io_fault)
  | (d, None) => (set_bytes f (splice (disk_bytes d f) buf off) d, Ok ())
  end.
Definition std_sync (f : N) : ST Disk io_error () := disk_op (λ d, (d, Ok ())).
Definition std_open (p : fname) : ST Disk io_error N :=
  disk_op (λ d,
    match entries d !! p with
    | Some f => (d, Ok f)
    | None => let f := new_inode d in
              (set_bytes f [] (set_entries (<[p := f]> (entries d)) d), Ok f)
    end).
Definition std_list : ST Disk io_error (list fname) :=
  disk_op (λ d, (d, Ok (map_to_list (entries d)).*1)).
Definition std_truncate (p : fname) : ST Disk io_error () :=
  disk_op (λ d,
    let f := default (new_inode d) (entries d !! p) in
    (set_bytes f [] (set_entries (<[p := f]> (entries d)) d), Ok ())).
Definition std_rename (p q : fname) : ST Disk io_error () :=
  disk_op (λ d,
    match entries d !! p with
    | Some f => (set_entries (<[q := f]> (delete p (entries d))) d, Ok ())
    | None => (d, Err (IoError KNotFound "no such file"))
    end).
Definition std_sync_dir : ST Disk io_error () := disk_op (λ d, (d, Ok ())).

#[export] Instance std_io : SegmentIo Disk N := {
  f_len := std_len; f_read := std_read_at; f_write := std_write_at; f_sync := std_sync;
  b_open := std_open; fs_list := std_list; fs_truncate := std_truncate;
  fs_rename := std_rename; fs_sync_dir := std_sync_dir }.
#[export] Instance std_view : SegmentView Disk N := {
  dir_of := entries; bytes_of := disk_bytes; healthy := λ d, faults d = [] }.

(** ** The backend keeps its promises *)
Lemma pop_fault_spec d d' x :
  pop_fault d = (d', x) →
  inodes d' = inodes d ∧ entries d' = entries d ∧ (faults d = [] → faults d' = [] ∧ x = None).
Proof. unfold pop_fault. destruct (faults d) as [|y l] eqn:E; intros [= <- <-]; split_and!; by auto || done. Qed.

Lemma disk_op_inv {A} (body : Disk → Disk * res io_error A) d d' r :
  disk_op body d = (d', r) →
  ∃ d1, inodes d1 = inodes d ∧ entries d1 = entries d ∧ (faults d = [] → faults d1 = []) ∧
    ((d' = d1 ∧ r = Err io_fault ∧ faults d ≠ []) ∨ body d1 = (d', r)).
Proof.
  unfold disk_op. destruct (pop_fault d) as [d1 [k|]] eqn:E; intros H;
    destruct (pop_fault_spec _ _ _ E) as (E1 & E2 & E3); exists d1; split_and!; auto; try tauto.
  left. simplify_eq. split_and!; auto. intros Hf. by destruct (E3 Hf).
Qed.

Lemma disk_bytes_ext d d' f : inodes d = inodes d' → disk_bytes d f = disk_bytes d' f.
Proof. unfold disk_bytes. by intros ->. Qed.

Lemma disk_bytes_set f g l d :
  disk_bytes (set_bytes f l d) g = if decide (f = g) then l else disk_bytes d g.
Proof.
  unfold disk_bytes, set_bytes. cbn. case_decide as E; [subst; by rewrite lookup_insert_eq|].
  by rewrite lookup_insert_ne.
Qed.

Lemma new_inode_unlisted d : unlisted (W := Disk) d (new_inode d).
Proof.
  intros p Hp. cbn in Hp. unfold new_inode in Hp.
  apply (is_fresh (dom (inodes d) ∪ map_img (entries d) : gset N)).
  apply elem_of_union_r, elem_of_map_img. eauto.
Qed.

Lemma same_disk_ext (d d' : Disk) :
  inodes d' = inodes d → entries d' = entries d → same_disk d d'.
Proof. intros Ei Ee. split; [done|]. intros f. by apply disk_bytes_ext. Qed.

(** Split an operation into its fault, which the tactic closes, and its body. *)
Ltac disk_step H :=
  apply disk_op_inv in H as (d1 & Ei & Ee & Ef & [(-> & -> & Hnf)|H]);
  [split_and!; eauto using same_disk_ext; try done; intros; exfalso; by apply Hnf|
   cbn in H; simplify_eq].
Ltac disk_healthy := let Hh := fresh in intros Hh; cbn in Hh |- *; by auto.

Lemma std_len_law f (w w' : Disk) r : f_len f w = (w', r) → same_disk w w' ∧ r ≠ Panic ∧
  (∀ n, r = Ok n → n = zlen (bytes_of w f)) ∧ (healthy w → healthy w' ∧ is_ok r = true).
Proof.
  intros H. disk_step H. split_and!; eauto using same_disk_ext; try disk_healthy.
  intros n [= <-]. by rewrite (disk_bytes_ext _ _ _ Ei).
Qed.

Lemma std_read_law f off n (w w' : Disk) r : f_read f off n w = (w', r) →
  same_disk w w' ∧ r ≠ Panic ∧
  (∀ l, r = Ok l → 0 ≤ off → 0 ≤ n → off + n ≤ zlen (bytes_of w f) ∧ l = zslice (bytes_of w f) off n) ∧
  (healthy w → healthy w' ∧ (0 ≤ off → 0 ≤ n → off + n ≤ zlen (bytes_of w f) → is_ok r = true)).
Proof.
  intros H. disk_step H. rewrite (disk_bytes_ext _ _ _ Ei). cbn.
  split_and!; eauto using same_disk_ext; case_goal; try done.
  - intros l [= <-] _ _. bool_prop. auto.
  - auto.
  - bool_prop. intros. split; [auto|lia].
Qed.

Lemma std_write_law f buf off (w w' : Disk) r : f_write f buf off w = (w', r) → r ≠ Panic ∧
  dir_of w' = dir_of w ∧ (∀ g, g ≠ f → bytes_of w' g = bytes_of w g) ∧
  (0 ≤ off → ∃ k, bytes_of w' f = splice (bytes_of w f) (take k buf) off ∨
                  bytes_of w' f = bytes_of w f) ∧
  (r = Ok () → 0 ≤ off → bytes_of w' f = splice (bytes_of w f) buf off) ∧
  (healthy w → healthy w' ∧ r = Ok ()).
Proof.
  intros H. cbn in H. unfold std_write_at in H.
  destruct (pop_fault w) as [d1 x] eqn:E. destruct (pop_fault_spec _ _ _ E) as (Ei & Ee & Ef).
  assert (∀ l g, bytes_of (set_bytes f l d1) g = if decide (f = g) then l else bytes_of w g) as Hset.
  { intros l g. cbn. rewrite disk_bytes_set. case_decide; [done|]. by apply disk_bytes_ext. }
  pose proof (disk_bytes_ext d1 w f Ei) as Hf.
  destruct x as [k|]; simplify_eq; split_and!; try done.
  all: try by (intros g Hg; rewrite Hset; case_decide).
  - intros _. exists k. left. rewrite Hset, decide_True by done. cbn. by rewrite Hf.
  - intros Hh. by destruct (Ef Hh).
  - intros _. exists (length buf). left. rewrite Hset, decide_True, firstn_all by done. cbn. by rewrite Hf.
  - intros _ _. rewrite Hset, decide_True by done. cbn. by rewrite Hf.
  - intros Hh. by destruct (Ef Hh).
Qed.

Lemma std_sync_law f (w w' : Disk) r : f_sync f w = (w', r) →
  same_disk w w' ∧ r ≠ Panic ∧ (healthy w → healthy w' ∧ r = Ok ()).
Proof. intros H. disk_step H. split_and!; eauto using same_disk_ext; disk_healthy. Qed.

Lemma std_open_law p (w w' : Disk) r : b_open p w = (w', r) → r ≠ Panic ∧
  (∀ e, r = Err e → same_disk w w') ∧
  (∀ f, r = Ok f →
     match dir_of w !! p with
     | Some f0 => f = f0 ∧ same_disk w w'
     | None => unlisted w f ∧ dir_of w' = <[p := f]> (dir_of w) ∧ bytes_of w' f = [] ∧
               ∀ g, g ≠ f → bytes_of w' g = bytes_of w g
     end) ∧
  (healthy w → healthy w' ∧ is_ok r = true).
Proof.
  intros H. disk_step H. cbn. rewrite <-Ee.
  destruct (entries d1 !! p) as [f0|] eqn:E; simplify_eq; split_and!; try done; eauto.
  - intros f [= <-]. split; [done|]. by apply same_disk_ext.
  - intros f [= <-]. split_and!.
    + intros q. cbn. rewrite <-Ee. apply (new_inode_unlisted d1).
    + cbn. by rewrite Ee.
    + by rewrite disk_bytes_set, decide_True.
    + intros g Hg. rewrite disk_bytes_set, decide_False by done. by apply disk_bytes_ext.
Qed.

Lemma std_list_law (w w' : Disk) r : fs_list w = (w', r) → same_disk w w' ∧ r ≠ Panic ∧
  (∀ l, r = Ok l → NoDup l ∧ ∀ p, p ∈ l ↔ is_Some (dir_of w !! p)) ∧
  (healthy w → healthy w' ∧ is_ok r = true).
Proof.
  intros H. disk_step H. split_and!; eauto using same_disk_ext; try disk_healthy.
  intros l [= <-]. split; [apply NoDup_fst_map_to_list|]. intros p. cbn. rewrite Ee.
  rewrite list_elem_of_fmap. split.
  - intros ([q f] & -> & Hin). apply elem_of_map_to_list in Hin. eauto.
  - intros [f Hf]. exists (p, f). split; [done|]. by apply elem_of_map_to_list.
Qed.

Lemma std_truncate_law p (w w' : Disk) r : fs_truncate p w = (w', r) → r ≠ Panic ∧
  (∀ e, r = Err e → same_disk w w') ∧
  (r = Ok () → ∃ f, dir_of w' = <[p := f]> (dir_of w) ∧ bytes_of w' f = [] ∧
     (dir_of w !! p = Some f ∨ unlisted w f) ∧ ∀ g, g ≠ f → bytes_of w' g = bytes_of w g) ∧
  (healthy w → healthy w' ∧ r = Ok ()).
Proof.
  intros H. disk_step H. split_and!; try done; [|by intros Hh; apply Ef in Hh].
  intros _. exists (default (new_inode d1) (entries d1 !! p)). split_and!.
  - cbn. by rewrite <-Ee.
  - cbn. by rewrite disk_bytes_set, decide_True.
  - cbn. rewrite <-Ee. destruct (entries d1 !! p); [by left|right].
    intros q. cbn. rewrite <-Ee. apply (new_inode_unlisted d1).
  - intros g Hg. cbn. rewrite disk_bytes_set, decide_False by done. by apply disk_bytes_ext.
Qed.

Lemma std_rename_law p q (w w' : Disk) r : fs_rename p q w = (w', r) → r ≠ Panic ∧
  (∀ f, bytes_of w' f = bytes_of w f) ∧ (∀ e, r = Err e → dir_of w' = dir_of w) ∧
  (r = Ok () → ∃ f, dir_of w !! p = Some f ∧ dir_of w' = <[q := f]> (delete p (dir_of w))) ∧
  (healthy w → healthy w' ∧ (is_Some (dir_of w !! p) → r = Ok ())).
Proof.
  intros H. apply disk_op_inv in H as (d1 & Ei & Ee & Ef & [(-> & -> & Hnf)|H]).
  { split_and!; try done; eauto using disk_bytes_ext. }
  cbn in *. rewrite <-Ee.
  destruct (entries d1 !! p) as [f|] eqn:E; simplify_eq; split_and!; try done; eauto.
  - intros f'. by apply disk_bytes_ext.
  - intros f'. by apply disk_bytes_ext.
  - intros Hh. split; [auto|]. by intros [? ?].
Qed.

Lemma std_sync_dir_law (w w' : Disk) r : fs_sync_dir w = (w', r) →
  same_disk w w' ∧ r ≠ Panic ∧ (healthy w → healthy w' ∧ r = Ok ()).
Proof. intros H. disk_step H. split_and!; eauto using same_disk_ext; disk_healthy. Qed.

#[export] Instance std_laws : SegmentIoLaws Disk N.
Proof.
  split; [apply std_len_law|apply std_read_law|apply std_write_law|apply std_sync_law
    |apply std_open_law|apply std_list_law|apply std_truncate_law|apply std_rename_law
    |apply std_sync_dir_law].
Qed.
