(* ===== verification/WindowsIo.v ===== *)
(** * Positioned reads and writes on Windows ([crates/kalpak-storage/src/io.rs])

    The loops of [read_at] and [write_at] over [seek_read] and [seek_write],
    which move any number of bytes per call.  A loop that needs more turns than
    its fuel gives [None]. *)

From S2P Require Import Prelude Core Io.
From Stdlib Require Import Strings.Byte.
#[local] Open Scope Z_scope.

(** The two calls of the system on one file. *)
Class WindowsFile (H : Type) := {
  seek_read : Z → Z → H → H * res io_error bytes;
  seek_write : bytes → Z → H → H * res io_error Z }.

Section Loops.
Context {H : Type} `{!WindowsFile H}.
(** [want] bytes are still missing. *)
Fixpoint win_read_at (fuel : nat) (want offset : Z) (done_ : bytes) (h : H) : option (H * res io_error bytes) :=
  match fuel with
  | O => None
  | S fuel =>
      if want <=? zlen done_ then Some (h, Ok done_)
      else
        match seek_read (want - zlen done_) (offset + zlen done_) h with
        | (h, Ok []) => Some (h, Err (IoError KUnexpectedEof "unexpected end of file"))
        | (h, Ok l) => win_read_at fuel want offset (done_ ++ l) h
        | (h, Err e) => Some (h, Err e)
        | (h, Panic) => Some (h, Panic)
        end
  end.
Fixpoint win_write_at (fuel : nat) (buf : bytes) (offset done_ : Z) (h : H) : option (H * res io_error ()) :=
  match fuel with
  | O => None
  | S fuel =>
      if zlen buf <=? done_ then Some (h, Ok ())
      else
        match seek_write (drop (Z.to_nat done_) buf) (offset + done_) h with
        | (h, Ok n) => win_write_at fuel buf offset (done_ + n) h
        | (h, Err e) => Some (h, Err e)
        | (h, Panic) => Some (h, Panic)
        end
  end.

(** ** Reading ends *)
Context (contents : H → bytes).
(** A read gives some bytes at its offset, and none only at the end. *)
Definition reads_file : Prop := ∀ n off h h' r, seek_read n off h = (h', r) → contents h' = contents h ∧ r ≠ Panic ∧
  ∀ l, r = Ok l → 0 ≤ off → 0 < n → zlen l ≤ n ∧ l `prefix_of` drop (Z.to_nat off) (contents h) ∧
    (l = [] → zlen (contents h) ≤ off).

Lemma prefix_slice (done_ l c : bytes) off :
  0 ≤ off → done_ `prefix_of` drop (Z.to_nat off) c → l `prefix_of` drop (Z.to_nat (off + zlen done_)) c →
  done_ ++ l `prefix_of` drop (Z.to_nat off) c.
Proof.
  intros Ho [k E] Hl. rewrite Z2Nat.inj_add in Hl by (pose proof (zlen_nonneg done_); lia). rewrite <-drop_drop, E in Hl.
  unfold zlen in Hl. rewrite Nat2Z.id, drop_app_length in Hl. rewrite E. by apply prefix_app.
Qed.
(** With one turn per byte and one more, [read_at] ends: with the bytes at the
    offset, or with an error. *)
Theorem win_read_at_total want offset h :
  reads_file → 0 ≤ want → 0 ≤ offset →
  ∃ h' r, win_read_at (S (Z.to_nat want)) want offset [] h = Some (h', r) ∧ contents h' = contents h ∧ r ≠ Panic ∧
    ∀ l, r = Ok l → l = zslice (contents h) offset want.
Proof.
  intros Hr Hw Ho. assert (∀ fuel done_ h, done_ `prefix_of` drop (Z.to_nat offset) (contents h) → zlen done_ ≤ want →
    (Z.to_nat (want - zlen done_) < fuel)%nat →
    ∃ h' r, win_read_at fuel want offset done_ h = Some (h', r) ∧ contents h' = contents h ∧ r ≠ Panic ∧
      ∀ l, r = Ok l → zlen l = want ∧ l `prefix_of` drop (Z.to_nat offset) (contents h)) as Hgen.
  { induction fuel as [|fuel IH]; intros d h0 Hp Hd Hf; [lia|]. cbn [win_read_at]. destruct (Z.leb_spec want (zlen d)).
    { exists h0, (Ok d). split_and!; [done|done|done|]. intros l [= <-]. split; [lia|done]. }
    destruct (seek_read (want - zlen d) (offset + zlen d) h0) as [h1 r1] eqn:E.
    destruct (Hr _ _ _ _ _ E) as (Ec & Hn & Hok). pose proof (zlen_nonneg d). destruct r1 as [l|e|]; [| |done].
    - destruct (Hok l eq_refl) as (Hl & Hpre & _); [lia|lia|]. destruct l as [|b l].
      { exists h1. eexists. split; [done|]. by split_and!. }
      destruct (IH (d ++ b :: l) h1) as (h' & r & E' & Ec' & Hn' & Hr').
      + rewrite Ec. by apply prefix_slice.
      + rewrite zlen_app. lia.
      + rewrite zlen_app, zlen_cons. pose proof (zlen_nonneg l). lia.
      + exists h', r. split_and!; [done|congruence|done|]. rewrite <-Ec. done.
    - exists h1, (Err e). by split_and!. }
  destruct (Hgen (S (Z.to_nat want)) [] h) as (h' & r & E & Ec & Hn & Hok); [apply prefix_nil|done|rewrite Z.sub_0_r; lia|].
  exists h', r. split_and!; [done|done|done|]. intros l Hl. destruct (Hok l Hl) as [Hlen [k Hk]].
  unfold zslice. rewrite Hk, take_app_le by (unfold zlen in Hlen; lia). rewrite take_ge; [done|]. unfold zlen in Hlen. lia.
Qed.
End Loops.

(** ** Writing may not *)
(** A file that takes no bytes, such as a full device may. *)
Definition full_file : WindowsFile () := {|
  seek_read _ _ h := (h, Ok []);
  seek_write _ _ h := (h, Ok 0) |}.
(** [write_at] has no case for a write of no bytes: on such a file it never
    ends, where the same file makes [read_at] fail. *)
Theorem win_write_at_stuck buf offset fuel :
  buf ≠ [] → @win_write_at () full_file fuel buf offset 0 () = None ∧
  @win_read_at () full_file 2 (zlen buf) offset [] () = Some ((), Err (IoError KUnexpectedEof "unexpected end of file")).
Proof.
  intros Hb. assert (0 < zlen buf) as Hl by (destruct buf; [done|rewrite zlen_cons; pose proof (zlen_nonneg buf); lia]). split.
  - induction fuel as [|fuel IH]; [done|]. cbn [win_write_at]. rewrite (proj2 (Z.leb_gt _ _)) by lia. exact IH.
  - cbn [win_read_at]. rewrite (proj2 (Z.leb_gt _ _)) by done. done.
Qed.
