(* ===== verification/Segment.v ===== *)
(** * Segment records ([crates/kalpak-storage/src/segment.rs])

    The record format, header parsing, and the forward scan that rebuilds the
    index.  [scan] is a loop over the file; the model runs it with fuel, one
    unit per record, and [None] means the fuel ran out.  [scan_fuel] is one
    more than the number of 4 KiB units in the file, which is enough when
    every record is at least one unit long; the wrap-around of [record_len]
    is kept, because a header can claim any length. *)

From S2P Require Import Prelude Core Io.
From Stdlib Require Import Strings.Byte.

Definition MAGIC : bytes := str_bytes "KLPK".
Definition FORMAT_VERSION : Z := 1.
Definition HEADER_LEN : Z := 64.
Definition BLOCK_ALIGN : Z := 4096.

(** Arithmetic on [u64], as a release build does it. *)
Definition record_len (payload_len : Z) : Z :=
  let raw := u64_add HEADER_LEN payload_len in
  u64_mul (div_ceil raw BLOCK_ALIGN) BLOCK_ALIGN.

(** A zeroed buffer of [record_len] bytes with the fields copied in. *)
Definition encode_record (id : BlockId) (payload : bytes) : bytes :=
  let total := record_len (zlen payload) in
  MAGIC ++ le_bytes 4 FORMAT_VERSION ++ le_bytes 8 (zlen payload) ++ block_bytes id
  ++ replicate 16 x00 ++ payload ++ replicate (Z.to_nat (total - HEADER_LEN - zlen payload)) x00.

Record RecordHeader := MkHeader { hdr_id : BlockId; hdr_payload_len : Z }.

Definition parse_header (buf : bytes) : option RecordHeader :=
  if negb (bool_decide (zslice buf 0 4 = MAGIC)) then None
  else if negb (le_val (zslice buf 4 4) =? FORMAT_VERSION) then None
  else
    id ← to_array 32 (zslice buf 16 32);
    Some (MkHeader (MkBlockId id) (le_val (zslice buf 8 8))).

Record Location := MkLoc { loc_segment : Z; loc_offset : Z; loc_payload_len : Z }.
#[export] Instance Location_eq_dec : EqDecision Location.
Proof. solve_decision. Defined.

(** What [scan] has reported so far and where it stands. *)
Abbreviation found := (list (BlockId * Location)) (only parsing).

Section Scan.
Context {W F : Type} `{SegmentIo W F}.

Fixpoint scan_loop (fuel : nat) (f : F) (segment len offset : Z) (acc : found)
    : ST W io_error (option (Z * found)) :=
  match fuel with
  | O => mret None
  | S fuel =>
      if u64_add offset HEADER_LEN <=? len then
        f_read f offset HEADER_LEN ≫= λ header,
        match parse_header header with
        | None => mret (Some (offset, acc))
        | Some rec =>
            let total := record_len (hdr_payload_len rec) in
            if len <? u64_add offset total then mret (Some (offset, acc))
            else scan_loop fuel f segment len (u64_add offset total)
                   (acc ++ [(hdr_id rec, MkLoc segment offset (hdr_payload_len rec))])
        end
      else mret (Some (offset, acc))
  end.

Definition scan_fuel (len : Z) : nat := S (Z.to_nat (len / BLOCK_ALIGN)).

Definition scan (f : F) (segment : Z) : ST W io_error (option (Z * found)) :=
  f_len f ≫= λ len, scan_loop (scan_fuel len) f segment len 0 [].

End Scan.

(** The same loop on the bytes of the file. *)
Fixpoint scan_bytes (fuel : nat) (c : bytes) (segment offset : Z) (acc : found)
    : option (Z * found) :=
  match fuel with
  | O => None
  | S fuel =>
      if u64_add offset HEADER_LEN <=? zlen c then
        match parse_header (zslice c offset HEADER_LEN) with
        | None => Some (offset, acc)
        | Some rec =>
            let total := record_len (hdr_payload_len rec) in
            if zlen c <? u64_add offset total then Some (offset, acc)
            else scan_bytes fuel c segment (u64_add offset total)
                   (acc ++ [(hdr_id rec, MkLoc segment offset (hdr_payload_len rec))])
        end
      else Some (offset, acc)
  end.

(** ** Record lengths *)

(** Sizes for which no [u64] sum in the engine wraps: far beyond any buffer. *)
Definition MAX_PAYLOAD : Z := 2 ^ 62.

Lemma record_len_small n :
  0 ≤ n ≤ MAX_PAYLOAD →
  record_len n = div_ceil (HEADER_LEN + n) BLOCK_ALIGN * BLOCK_ALIGN ∧
  HEADER_LEN + n ≤ record_len n < HEADER_LEN + n + BLOCK_ALIGN.
Proof.
  intros Hn. unfold MAX_PAYLOAD in Hn. unfold record_len.
  assert (0 ≤ HEADER_LEN + n ≤ u64_max) as Hr by (unfold HEADER_LEN, u64_max; lia).
  rewrite u64_add_small by done.
  pose proof (div_ceil_spec (HEADER_LEN + n) BLOCK_ALIGN ltac:(done)) as Hd.
  unfold u64_mul. rewrite Z.mod_small; [done|]. unfold HEADER_LEN, BLOCK_ALIGN in *. lia.
Qed.

Lemma record_len_min n : 0 ≤ n ≤ MAX_PAYLOAD → BLOCK_ALIGN ≤ record_len n.
Proof.
  intros Hn. destruct (record_len_small n Hn) as [E [Hlo _]]. rewrite E in *.
  unfold HEADER_LEN, BLOCK_ALIGN in *. lia.
Qed.

Lemma zlen_encode_record id p :
  zlen p ≤ MAX_PAYLOAD → zlen (encode_record id p) = record_len (zlen p).
Proof.
  intros Hp. pose proof (zlen_nonneg p). destruct (record_len_small (zlen p)) as [_ Hr]; [lia|].
  unfold encode_record. unfold HEADER_LEN in *.
  rewrite !zlen_app, !zlen_le_bytes, !zlen_replicate, arr_zlen.
  change (zlen MAGIC) with 4. lia.
Qed.

(** ** Headers *)
Lemma zslice_cut {A} (a l : list A) off n :
  zlen a ≤ off → zslice (a ++ l) off n = zslice l (off - zlen a) n.
Proof.
  intros Ha. unfold zslice, zlen in *. rewrite drop_app_ge by lia. do 2 f_equal. lia.
Qed.
Lemma zslice_here {A} (a l : list A) n : n = zlen a → zslice (a ++ l) 0 n = a.
Proof.
  intros ->. unfold zslice, zlen. rewrite Nat2Z.id. change (Z.to_nat 0) with 0%nat.
  by rewrite drop_0, take_app_length.
Qed.

Lemma zslice_zslice {A} (l : list A) off n off' n' :
  0 ≤ off → 0 ≤ off' → 0 ≤ n' → off' + n' ≤ n →
  zslice (zslice l off n) off' n' = zslice l (off + off') n'.
Proof.
  intros. unfold zslice. rewrite skipn_firstn_comm, take_take, drop_drop.
  f_equal; [lia|]. f_equal. lia.
Qed.

(** The fields of an encoded record, whatever follows it. *)
Lemma encode_record_fields id p rest :
  let c := encode_record id p ++ rest in
  zslice c 0 4 = MAGIC ∧ zslice c 4 4 = le_bytes 4 FORMAT_VERSION ∧
  zslice c 8 8 = le_bytes 8 (zlen p) ∧ zslice c 16 32 = block_bytes id ∧
  zslice c HEADER_LEN (zlen p) = p.
Proof.
  cbn zeta. unfold encode_record. rewrite <-!app_assoc. split_and!.
  - by rewrite zslice_here.
  - rewrite zslice_cut by done. change (4 - zlen MAGIC) with 0. by rewrite zslice_here.
  - rewrite zslice_cut by done. change (8 - zlen MAGIC) with 4.
    rewrite zslice_cut by (rewrite zlen_le_bytes; lia). rewrite zlen_le_bytes.
    change (4 - Z.of_nat 4) with 0. rewrite zslice_here; [done|]. by rewrite zlen_le_bytes.
  - rewrite zslice_cut by done. change (16 - zlen MAGIC) with 12.
    do 2 (rewrite zslice_cut by (rewrite zlen_le_bytes; lia); rewrite zlen_le_bytes).
    change (12 - Z.of_nat 4 - Z.of_nat 8) with 0. rewrite zslice_here; [done|]. by rewrite arr_zlen.
  - rewrite zslice_cut by done. change (HEADER_LEN - zlen MAGIC) with 60.
    do 2 (rewrite zslice_cut by (rewrite zlen_le_bytes; lia); rewrite zlen_le_bytes).
    rewrite zslice_cut by (rewrite arr_zlen; lia). rewrite arr_zlen.
    rewrite zslice_cut by (rewrite zlen_replicate; lia). rewrite zlen_replicate.
    change (60 - Z.of_nat 4 - Z.of_nat 8 - Z.of_nat 32 - Z.of_nat 16) with 0. by rewrite zslice_here.
Qed.

(** Parsing looks at the first 64 bytes only. *)
Lemma parse_header_slice c off :
  0 ≤ off → parse_header (zslice c off HEADER_LEN) =
  (if negb (bool_decide (zslice c off 4 = MAGIC)) then None
   else if negb (le_val (zslice c (off + 4) 4) =? FORMAT_VERSION) then None
   else id ← to_array 32 (zslice c (off + 16) 32);
        Some (MkHeader (MkBlockId id) (le_val (zslice c (off + 8) 8)))).
Proof.
  intros. unfold parse_header, HEADER_LEN.
  rewrite !zslice_zslice by lia. by rewrite Z.add_0_r.
Qed.

Lemma parse_encoded id p rest :
  zlen p ≤ MAX_PAYLOAD →
  parse_header (zslice (encode_record id p ++ rest) 0 HEADER_LEN) = Some (MkHeader id (zlen p)).
Proof.
  intros Hp. rewrite parse_header_slice, !Z.add_0_l by done.
  destruct (encode_record_fields id p rest) as (E0 & E4 & E8 & E16 & _).
  rewrite E0, E4, E8, E16, bool_decide_eq_true_2, to_array_arr by done.
  rewrite !le_val_bytes_small; [|unfold MAX_PAYLOAD in Hp; zl|done].
  cbn. by destruct id.
Qed.

(** ** Segments as lists of records *)
Abbreviation record := (BlockId * bytes)%type (only parsing).

Definition enc_all (recs : list record) : bytes :=
  concat ((λ r, encode_record r.1 r.2) <$> recs).

(** What [scan] reports for [recs] laid out from [offset]. *)
Fixpoint locs (segment offset : Z) (recs : list record) : found :=
  match recs with
  | [] => []
  | (id, p) :: recs =>
      (id, MkLoc segment offset (zlen p)) :: locs segment (offset + record_len (zlen p)) recs
  end.

Definition small (recs : list record) : Prop := Forall (λ r, zlen r.2 ≤ MAX_PAYLOAD) recs.
#[export] Instance small_proper : Proper (Permutation ==> iff) small.
Proof. intros l k Hp. unfold small. by rewrite Hp. Qed.

(** Bytes at which a scan stops at once: too short for a header, not a
    header, or a header whose record is not all there. *)
Definition inert (junk : bytes) : Prop :=
  ∀ h, HEADER_LEN ≤ zlen junk → parse_header (zslice junk 0 HEADER_LEN) = Some h →
    hdr_payload_len h ≤ MAX_PAYLOAD ∧ zlen junk < record_len (hdr_payload_len h).

Lemma inert_nil : inert [].
Proof. intros h Hl. by vm_compute in Hl. Qed.

Lemma enc_all_cons id p recs : enc_all ((id, p) :: recs) = encode_record id p ++ enc_all recs.
Proof. done. Qed.
Lemma enc_all_app recs recs' : enc_all (recs ++ recs') = enc_all recs ++ enc_all recs'.
Proof. unfold enc_all. by rewrite fmap_app, concat_app. Qed.
Lemma locs_app segment offset recs recs' :
  small recs →
  locs segment offset (recs ++ recs') =
  locs segment offset recs ++ locs segment (offset + zlen (enc_all recs)) recs'.
Proof.
  revert offset. induction recs as [|[id p] recs IH]; intros offset Hs; cbn [locs app].
  - change (zlen (enc_all [])) with 0. by rewrite Z.add_0_r.
  - apply Forall_cons in Hs as [Hp Hs]. cbn in Hp. rewrite IH by done. do 2 f_equal.
    rewrite enc_all_cons, zlen_app, zlen_encode_record by done. f_equal. lia.
Qed.

Lemma small_app recs recs' : small (recs ++ recs') ↔ small recs ∧ small recs'.
Proof. apply Forall_app. Qed.

Lemma parse_header_len c h : parse_header c = Some h → 0 ≤ hdr_payload_len h ≤ u64_max.
Proof.
  unfold parse_header. case_goal; [done|]. case_goal; [done|].
  destruct (to_array 32 _); [|done]. intros [= <-]. cbn.
  pose proof (le_val_range (zslice c 8 8)) as Hr.
  assert (zlen (zslice c 8 8) ≤ 8) by (unfold zslice; zl).
  assert (2 ^ (8 * zlen (zslice c 8 8)) ≤ 2 ^ 64) by (apply Z.pow_le_mono_r; lia).
  unfold u64_max. lia.
Qed.

(** A file too long for this bound does not exist ([off_t] is signed). *)
Definition MAX_FILE : Z := 2 ^ 63 - 1.

Lemma scan_bytes_stop fuel pre junk segment acc :
  inert junk → zlen (pre ++ junk) ≤ MAX_FILE →
  scan_bytes (S fuel) (pre ++ junk) segment (zlen pre) acc = Some (zlen pre, acc).
Proof.
  intros Hi Hmax. cbn [scan_bytes]. unfold MAX_FILE in Hmax. rewrite zlen_app in *.
  pose proof (zlen_nonneg pre). pose proof (zlen_nonneg junk).
  rewrite u64_add_small by (unfold HEADER_LEN, u64_max; lia).
  destruct (_ <=? _) eqn:Hlen; [|done]. apply Z.leb_le in Hlen.
  rewrite zslice_cut, Z.sub_diag by lia.
  destruct (parse_header (zslice junk 0 HEADER_LEN)) as [h|] eqn:Hp; [|done].
  destruct (Hi h) as [Hm Hlt]; [lia|done|].
  pose proof (parse_header_len _ _ Hp). destruct (record_len_small (hdr_payload_len h)) as [_ Hr]; [lia|].
  unfold MAX_PAYLOAD, HEADER_LEN, BLOCK_ALIGN in *.
  rewrite u64_add_small by (unfold u64_max; lia).
  by rewrite (proj2 (Z.ltb_lt _ _)) by lia.
Qed.

Lemma scan_bytes_step fuel pre id p rest segment acc :
  zlen p ≤ MAX_PAYLOAD → zlen (pre ++ encode_record id p ++ rest) ≤ MAX_FILE →
  scan_bytes (S fuel) (pre ++ encode_record id p ++ rest) segment (zlen pre) acc =
  scan_bytes fuel (pre ++ encode_record id p ++ rest) segment (zlen pre + record_len (zlen p))
    (acc ++ [(id, MkLoc segment (zlen pre) (zlen p))]).
Proof.
  intros Hp Hmax. cbn [scan_bytes]. unfold MAX_FILE in Hmax.
  pose proof (zlen_encode_record id p Hp) as He.
  pose proof (zlen_nonneg p). pose proof (zlen_nonneg pre). pose proof (zlen_nonneg rest).
  destruct (record_len_small (zlen p)) as [_ Hr]; [lia|].
  rewrite !zlen_app, He in *. unfold HEADER_LEN in *.
  rewrite !u64_add_small by (unfold u64_max; lia).
  rewrite (proj2 (Z.leb_le _ _)) by lia.
  rewrite zslice_cut, Z.sub_diag by lia. fold HEADER_LEN. rewrite parse_encoded by done. cbn.
  rewrite !u64_add_small by (unfold u64_max; lia).
  by rewrite (proj2 (Z.ltb_ge _ _)) by lia.
Qed.

Lemma scan_bytes_layout fuel pre recs junk segment acc :
  small recs → inert junk → zlen (pre ++ enc_all recs ++ junk) ≤ MAX_FILE →
  (length recs < fuel)%nat →
  scan_bytes fuel (pre ++ enc_all recs ++ junk) segment (zlen pre) acc =
  Some (zlen pre + zlen (enc_all recs), acc ++ locs segment (zlen pre) recs).
Proof.
  intros Hs Hi. revert fuel pre acc.
  induction recs as [|[id p] recs IH]; intros fuel pre acc Hmax Hf.
  - destruct fuel as [|fuel]; [cbn in Hf; lia|]. cbn [enc_all locs]. change (enc_all []) with (@nil byte).
    cbn [app]. rewrite scan_bytes_stop by done. rewrite zlen_nil, app_nil_r. do 2 f_equal. lia.
  - destruct fuel as [|fuel]; [lia|]. apply Forall_cons in Hs as [Hp Hs]. cbn in Hp.
    rewrite enc_all_cons, <-app_assoc in *. rewrite scan_bytes_step by done.
    specialize (IH Hs fuel (pre ++ encode_record id p)
      (acc ++ [(id, MkLoc segment (zlen pre) (zlen p))])).
    assert (zlen (pre ++ encode_record id p) = zlen pre + record_len (zlen p)) as Hz
      by by rewrite zlen_app, zlen_encode_record.
    rewrite Hz, <-!app_assoc in IH. rewrite IH; [|done|cbn in Hf; lia]. cbn [locs]. do 2 f_equal.
    rewrite zlen_app, zlen_encode_record by done. lia.
Qed.

Lemma enc_all_length recs : small recs → BLOCK_ALIGN * zlen recs ≤ zlen (enc_all recs).
Proof.
  induction recs as [|[id p] recs IH]; intros Hs; [done|].
  apply Forall_cons in Hs as [Hp Hs]. cbn in Hp.
  rewrite enc_all_cons, zlen_app, zlen_encode_record, zlen_cons by done.
  pose proof (record_len_min (zlen p)) as Hm. specialize (IH Hs). zl.
Qed.

(** The fuel of [scan] is enough for any well-formed segment. *)
Lemma scan_bytes_segment recs junk segment :
  small recs → inert junk → zlen (enc_all recs ++ junk) ≤ MAX_FILE →
  scan_bytes (scan_fuel (zlen (enc_all recs ++ junk))) (enc_all recs ++ junk) segment 0 [] =
  Some (zlen (enc_all recs), locs segment 0 recs).
Proof.
  intros Hs Hi Hmax. apply (scan_bytes_layout _ [] recs junk segment []); try done.
  unfold scan_fuel. pose proof (enc_all_length recs Hs) as Hl.
  assert (zlen recs ≤ zlen (enc_all recs ++ junk) / BLOCK_ALIGN) as Hd.
  { apply Z.div_le_lower_bound; [done|]. rewrite zlen_app. pose proof (zlen_nonneg junk). lia. }
  unfold zlen in Hd at 1. lia.
Qed.

(** ** A torn append *)
Lemma inert_torn id p k :
  zlen p ≤ MAX_PAYLOAD → Z.of_nat k < record_len (zlen p) →
  inert (take k (encode_record id p)).
Proof.
  intros Hp Hk h Hl Hh. rewrite zlen_take, zlen_encode_record in * by done.
  assert (zslice (take k (encode_record id p)) 0 HEADER_LEN = zslice (encode_record id p ++ []) 0 HEADER_LEN) as E.
  { rewrite app_nil_r. unfold zslice. change (Z.to_nat 0) with 0%nat. rewrite !drop_0, take_take.
    f_equal. unfold HEADER_LEN in *. lia. }
  rewrite E, parse_encoded in Hh by done. injection Hh as <-. cbn. split; [done|lia].
Qed.

(** Any prefix of an append is some complete records and an inert tail. *)
Lemma torn_prefix k recs :
  small recs →
  ∃ j junk, take k (enc_all recs) = enc_all (take j recs) ++ junk ∧ inert junk.
Proof.
  revert k. induction recs as [|[id p] recs IH]; intros k Hs.
  - exists 0%nat, []. split; [|apply inert_nil]. apply take_nil.
  - apply Forall_cons in Hs as [Hp Hs]. cbn in Hp. rewrite enc_all_cons.
    destruct (decide (Z.of_nat k < record_len (zlen p))) as [Hk|Hk].
    + exists 0%nat, (take k (encode_record id p)). split; [|by apply inert_torn].
      rewrite take_app_le; [done|]. pose proof (zlen_encode_record id p Hp). unfold zlen in *. lia.
    + destruct (IH (k - length (encode_record id p))%nat Hs) as (j & junk & E & Hi).
      exists (S j), junk. split; [|done]. rewrite take_app_ge, E.
      2: { pose proof (zlen_encode_record id p Hp). unfold zlen in *. lia. }
      cbn [take]. by rewrite enc_all_cons, app_assoc.
Qed.

(** ** The scan on a file *)
Section ScanIo.
Context {W F : Type} `{SegmentIoLaws W F}.

Lemma scan_loop_spec fuel f segment offset acc (w w' : W) r :
  scan_loop fuel f segment (zlen (bytes_of w f)) offset acc w = (w', r) → 0 ≤ offset →
  same_disk w w' ∧ r ≠ Panic ∧
  (∀ x, r = Ok x → x = scan_bytes fuel (bytes_of w f) segment offset acc) ∧
  (healthy w → zlen (bytes_of w f) ≤ MAX_FILE → offset ≤ zlen (bytes_of w f) →
   healthy w' ∧ is_ok r = true).
Proof.
  revert offset acc w w' r. induction fuel as [|fuel IH]; intros offset acc w w' r E Hoff.
  { cbn in E. unfold mret, ST_ret in E. simplify_eq. split_and!; try done; naive_solver. }
  cbn [scan_loop scan_bytes] in *. destruct (_ <=? _) eqn:Hlen.
  2: { unfold mret, ST_ret in E. simplify_eq. split_and!; try done; naive_solver. }
  apply Z.leb_le in Hlen. unfold mbind, ST_bind in E.
  destruct (f_read f offset HEADER_LEN w) as [w1 r1] eqn:Er.
  destruct (law_read _ _ _ _ _ _ Er) as ([D1 B1] & Hnp & Hok & Hh).
  assert (healthy w → zlen (bytes_of w f) ≤ MAX_FILE → offset ≤ zlen (bytes_of w f) →
    healthy w1 ∧ is_ok r1 = true) as Hh1.
  { intros Hw Hmax Hle. destruct (Hh Hw) as [? Hr]. split; [done|]. apply Hr; [done|done|].
    unfold MAX_FILE, HEADER_LEN in *. rewrite u64_add_small in Hlen by (unfold u64_max; lia). lia. }
  destruct r1 as [hdr|e|]; [|simplify_eq; split_and!; try done; naive_solver|done].
  destruct (Hok _ eq_refl) as [Hrange ->]; [done|done|].
  destruct (parse_header _) as [h|] eqn:Hp.
  2: { unfold mret, ST_ret in E. simplify_eq. split_and!; try done; naive_solver. }
  destruct (zlen _ <? _) eqn:Hlt.
  { unfold mret, ST_ret in E. simplify_eq. split_and!; try done; naive_solver. }
  apply Z.ltb_ge in Hlt. rewrite <-(B1 f) in E.
  destruct (IH _ _ _ _ _ E) as ([D2 B2] & ? & Hx & Hhealth).
  { unfold u64_add. apply Z.mod_pos_bound. lia. }
  rewrite B1 in *. split_and!; [split; [congruence|]|done|done|].
  - intros g. by rewrite B2, B1.
  - intros Hw Hmax Hle. destruct (Hh1 Hw Hmax Hle). by apply Hhealth.
Qed.

Lemma scan_spec f segment (w w' : W) r :
  scan f segment w = (w', r) →
  same_disk w w' ∧ r ≠ Panic ∧
  (∀ x, r = Ok x →
     x = scan_bytes (scan_fuel (zlen (bytes_of w f))) (bytes_of w f) segment 0 []) ∧
  (healthy w → zlen (bytes_of w f) ≤ MAX_FILE → healthy w' ∧ is_ok r = true).
Proof.
  unfold scan, mbind, ST_bind. destruct (f_len f w) as [w1 r1] eqn:El. intros E.
  destruct (law_len _ _ _ _ El) as ([D1 B1] & Hnp & Hok & Hh).
  destruct r1 as [n|e|]; [|simplify_eq; split_and!; try done; naive_solver|done].
  rewrite (Hok n eq_refl), <-(B1 f) in E.
  destruct (scan_loop_spec _ _ _ _ _ _ _ _ E) as ([D2 B2] & ? & Hx & Hhealth); [done|].
  rewrite B1 in *. split_and!; [split; [congruence|]|done|done|].
  - intros g. by rewrite B2, B1.
  - intros Hw Hmax. destruct (Hh Hw). apply Hhealth; [done|done|apply zlen_nonneg].
Qed.

(** Recovery after a torn append.  If a segment holds the records [recs]
    followed by any prefix of the bytes of an append of [new] (a crash cut the
    write short), then scanning a responsive device terminates and reports
    exactly [recs] and the records of [new] that are completely there, each at
    its offset, and the end of the last complete record as the new tail. *)
Theorem scan_recovers_torn_append f segment (w : W) recs new k :
  small recs → small new →
  bytes_of w f = enc_all recs ++ take k (enc_all new) → zlen (bytes_of w f) ≤ MAX_FILE →
  healthy w →
  ∃ w' j, same_disk w w' ∧
    scan f segment w = (w', Ok (Some (zlen (enc_all (recs ++ take j new)),
                                      locs segment 0 (recs ++ take j new)))) ∧
    (k = length (enc_all new) → take j new = new).
Proof.
  intros Hr Hn Hb Hmax Hw. destruct (torn_prefix k new Hn) as (j & junk & Ej & Hi).
  destruct (scan f segment w) as [w' r] eqn:E.
  destruct (scan_spec _ _ _ _ _ E) as (Hsame & _ & Hx & Hh).
  destruct (Hh Hw Hmax) as [_ Hok]. destruct r as [x|e|]; try done.
  specialize (Hx x eq_refl). rewrite Hb, Ej, app_assoc, <-enc_all_app in Hx.
  rewrite Hb, Ej, app_assoc, <-enc_all_app in Hmax.
  rewrite scan_bytes_segment in Hx; [|apply small_app; split; [done|]|done|done].
  2: { unfold small in *. by apply Forall_take. }
  exists w', j. split; [done|]. split; [by rewrite Hx|]. intros ->.
  rewrite firstn_all in Ej. destruct (decide (length new ≤ j)%nat) as [|Hj]; [by rewrite take_ge|].
  exfalso. rewrite <-(take_drop j new), enc_all_app in Ej at 1. apply app_inv_head in Ej.
  destruct (drop j new) as [|[id p] rest] eqn:Ed.
  { apply (f_equal length) in Ed. rewrite length_drop in Ed. cbn in Ed. lia. }
  assert (zlen p ≤ MAX_PAYLOAD) as Hp.
  { assert (Forall (λ r : BlockId * bytes, zlen r.2 ≤ MAX_PAYLOAD) (drop j new)) as HF
      by by apply Forall_drop. rewrite Ed in HF. by apply Forall_cons in HF as [? _]. }
  rewrite enc_all_cons in Ej. rewrite <-Ej in Hi.
  pose proof (zlen_encode_record id p Hp). pose proof (zlen_nonneg p).
  pose proof (record_len_min (zlen p) ltac:(lia)) as Hmin. unfold BLOCK_ALIGN in Hmin.
  destruct (Hi (MkHeader id (zlen p))) as [_ Hlt]; [unfold HEADER_LEN; zl|by apply parse_encoded|].
  cbn [hdr_payload_len] in Hlt. rewrite zlen_app in Hlt. pose proof (zlen_nonneg (enc_all rest)). lia.
Qed.

End ScanIo.

(** ** A header that claims too much

    [record_len] adds without a check.  A header with payload length
    [2^64 - 64] has record length zero in a build without overflow checks, and
    the scan then stays where it is. *)
Definition hanging_header : bytes :=
  MAGIC ++ le_bytes 4 FORMAT_VERSION ++ le_bytes 8 (2 ^ 64 - 64) ++ replicate 48 x00.


Definition torn_disk : Disk :=
  MkDisk {[ 0%N := enc_all [(blk 1, [x01])] ++ take 10 (enc_all [(blk 2, [x02])]) ]} ∅ [].

Lemma scan_recovers_torn_append_witness :
  ∃ w' j, scan (W := Disk) 0%N 3 torn_disk
    = (w', Ok (Some (zlen (enc_all ([(blk 1, [x01])] ++ take j [(blk 2, [x02])])),
                     locs 3 0 ([(blk 1, [x01])] ++ take j [(blk 2, [x02])])))).
Proof.
  destruct (scan_recovers_torn_append (W := Disk) 0%N 3 torn_disk [(blk 1, [x01])] [(blk 2, [x02])] 10)
    as (w' & j & _ & E & _).
  - constructor; [vm_compute; discriminate|constructor].
  - constructor; [vm_compute; discriminate|constructor].
  - vm_compute. reflexivity.
  - vm_compute. discriminate.
  - reflexivity.
  - exists w', j. exact E.
Defined.
