(* ===== verification/Store.v ===== *)
(** * The block store ([crates/kalpak-storage/src/store.rs])

    A content-addressed store over append-only segment files.  The state is
    the I/O world with the store's fields; locks are not modelled (writers
    serialize on [append], and readers only take handles of immutable
    records), so each operation is one atomic step, which on an early return
    keeps what it did.  The read counter is back at its value when an
    operation returns and is left out. *)

From S2P Require Import Prelude Core Io Segment.
From Stdlib Require Import Strings.Byte.

Definition DEFAULT_SEGMENT_ROLL_BYTES : Z := 256 * 1024 * 1024.

Record BlockStore (F : Type) := MkStore {
  index : gmap BlockId Location;
  files : list F;
  append : Z;
  roll_bytes : Z;
  write_failed : bool }.
Arguments MkStore {F}.
Arguments index {F}.
Arguments files {F}.
Arguments append {F}.
Arguments roll_bytes {F}.
Arguments write_failed {F}.

Record VerifyReport := MkReport {
  blocks_checked : Z;
  bytes_checked : Z;
  corrupt : list BlockId;
  unreadable : list BlockId }.
Definition is_clean (r : VerifyReport) : bool :=
  bool_decide (corrupt r = []) && bool_decide (unreadable r = []).

Record StoreStats := MkStats { st_blocks : Z; st_segments : Z; st_bytes_on_disk : Z }.
Record CompactStats := MkCompact {
  segments_rewritten : Z;
  blocks_dropped : Z;
  bytes_reclaimed : Z }.

(** Publishing staged locations: [for (id, loc) in staged { index.insert(id, loc) }]. *)
Definition insert_all (index : gmap BlockId Location) (l : list (BlockId * Location))
    : gmap BlockId Location :=
  foldl (λ m p, <[p.1 := p.2]> m) index l.

Section Store.
Context {W F : Type} `{SegmentIo W F, Blake3, HashOrder}.

Abbreviation St := (W * BlockStore F)%type.
Abbreviation M := (ST St Error).

Definition set_index m (s : BlockStore F) : BlockStore F :=
  MkStore m (files s) (append s) (roll_bytes s) (write_failed s).
Definition set_files l (s : BlockStore F) : BlockStore F :=
  MkStore (index s) l (append s) (roll_bytes s) (write_failed s).
Definition set_append a (s : BlockStore F) : BlockStore F :=
  MkStore (index s) (files s) a (roll_bytes s) (write_failed s).
Definition set_write_failed b (s : BlockStore F) : BlockStore F :=
  MkStore (index s) (files s) (append s) (roll_bytes s) b.

(** An I/O call with [?]: the error becomes [Error::Io]. *)
Definition io {A} (m : ST W io_error A) : M A := λ '(w, s),
  let (w, r) := m w in ((w, s), map_err Io r).

Definition store : M (BlockStore F) := λ '(w, s), ((w, s), Ok s).
Definition update (f : BlockStore F → BlockStore F) : M () := λ '(w, s), ((w, f s), Ok ()).

(** [files[i as usize]], which panics out of range. *)
Definition file_at (l : list F) (i : Z) : M F :=
  st_lift (match l !! Z.to_nat i with Some f => Ok f | None => Panic end).

(** ** Opening *)

(** The segment numbers of a directory listing, ascending. *)
Definition seg_ids (names : list fname) : list Z :=
  merge_sort Z.le (omap (λ n, match n with SegName i => Some i | _ => None end) names).

(** One round of the loop: open the file and index its records.  A scan that
    makes no progress never returns, which is [Panic] here. *)
Fixpoint open_segments (ids : list Z) (index : gmap BlockId Location) (files : list F) (tail : Z)
    : ST W io_error (gmap BlockId Location * list F * Z) :=
  match ids with
  | [] => mret (index, files, tail)
  | i :: ids =>
      b_open (SegName i) ≫= λ file,
      scan file i ≫= λ r,
      match r with
      | None => st_lift Panic
      | Some (tail, l) => open_segments ids (insert_all index l) (files ++ [file]) tail
      end
  end.

Definition open_with : ST W io_error (BlockStore F) :=
  fs_list ≫= λ names,
  open_segments (seg_ids names) ∅ [] 0 ≫= λ '(index, files, tail),
  if bool_decide (files = []) then
    b_open (SegName 0) ≫= λ file,
    fs_sync_dir ≫= λ _,
    mret (MkStore index [file] 0 DEFAULT_SEGMENT_ROLL_BYTES false)
  else mret (MkStore index files tail DEFAULT_SEGMENT_ROLL_BYTES false).

(** [open_with_roll]. *)
Definition open_with_roll (roll : Z) : ST W io_error (BlockStore F) :=
  open_with ≫= λ s, mret (MkStore (index s) (files s) (append s) roll (write_failed s)).

(** ** Reading *)
Definition get (id : BlockId) : M bytes :=
  store ≫= λ s,
  match index s !! id with
  | None => st_throw (BlockNotFound id)
  | Some loc =>
      file_at (files s) (loc_segment loc) ≫= λ file,
      io (f_read file (u64_add (loc_offset loc) HEADER_LEN) (loc_payload_len loc)) ≫= λ payload,
      if block_verify id payload then mret payload else st_throw (Corrupt id)
  end.

Definition contains (s : BlockStore F) (id : BlockId) : bool := contains_key (index s) id.

(** ** Appending *)
Definition flush_pending (file : F) (pending : list (Z * bytes)) (sync_after : bool) : M () :=
  if bool_decide (pending = []) then mret () else io (write_batch file pending sync_after).

(** The variables of the loop of [put_many_inner]; [tail] is the store's. *)
Record loop := MkLoop {
  active : Z * F;
  staged : list (BlockId * Location);
  pending : list (Z * bytes);
  rolled : bool }.

Definition present (repair : bool) (id : BlockId) : M bool :=
  if repair then λ st, let (st, r) := get id st in
                       (st, match r with Panic => Panic | _ => Ok (is_ok r) end)
  else store ≫= λ s, mret (contains_key (index s) id).

(** Seal the active segment and open the next one. *)
Definition roll_segment (v : loop) : M loop :=
  flush_pending (active v).2 (pending v) true ≫= λ _,
  store ≫= λ s,
  io (b_open (SegName (zlen (files s)))) ≫= λ file,
  update (set_files (files s ++ [file])) ≫= λ _,
  update (set_append 0) ≫= λ _,
  mret (MkLoop (zlen (files s), file) (staged v) [] true).

Definition append_one (repair : bool) (v : loop) (id : BlockId) (payload : bytes) : M loop :=
  present repair id ≫= λ here,
  if here || existsb (λ p, bool_decide (p.1 = id)) (staged v) then mret v
  else
    let record := encode_record id payload in
    store ≫= λ s,
    (if (roll_bytes s <? u64_add (append s) (zlen record)) && (0 <? append s)
     then roll_segment v else mret v) ≫= λ v,
    store ≫= λ s,
    let offset := append s in
    update (set_append (u64_add offset (zlen record))) ≫= λ _,
    mret (MkLoop (active v)
            (staged v ++ [(id, MkLoc (active v).1 offset (zlen payload))])
            (pending v ++ [(offset, record)]) (rolled v)).

Fixpoint append_all (repair : bool) (prepared : list (BlockId * bytes)) (v : loop) : M loop :=
  match prepared with
  | [] => mret v
  | (id, payload) :: prepared =>
      append_one repair v id payload ≫= λ v, append_all repair prepared v
  end.

Definition append_body (repair : bool) (prepared : list (BlockId * bytes)) : M () :=
  store ≫= λ s,
  match last (files s) with
  | None => st_lift Panic
  | Some file =>
      append_all repair prepared (MkLoop (zlen (files s) - 1, file) [] [] false) ≫= λ v,
      flush_pending (active v).2 (pending v) true ≫= λ _,
      (if rolled v then io fs_sync_dir else mret ()) ≫= λ _,
      update (λ s, set_index (insert_all (index s) (staged v)) s)
  end.

(** [AppendAttempt]: dropped on every path that did not commit, it marks the
    store as failed. *)
Definition attempt {A} (m : M A) : M A := λ st,
  match m st with
  | (st, Ok a) => (st, Ok a)
  | ((w, s), r) => ((w, set_write_failed true s), r)
  end.

Definition put_many_inner (payloads : list bytes) (repair : bool) : M (list BlockId) :=
  let prepared := (λ p, (block_of p, p)) <$> payloads in
  store ≫= λ s,
  if write_failed s then
    st_throw (Io (io_other "append failed previously; restart storage before further writes"))
  else
    attempt (append_body repair prepared) ≫= λ _, mret prepared.*1.

Definition put_many (payloads : list bytes) : M (list BlockId) := put_many_inner payloads false.

(** [..[0]] of a one-element batch. *)
Definition first_id (ids : list BlockId) : M BlockId :=
  st_lift (match ids with id :: _ => Ok id | [] => Panic end).

Definition put (payload : bytes) : M BlockId := put_many [payload] ≫= first_id.

Definition repair (id : BlockId) (payload : bytes) : M BlockId :=
  if negb (block_verify id payload) then st_throw (Corrupt id)
  else put_many_inner [payload] true ≫= first_id.

(** ** Compaction *)

(** Copy the live records of a sealed segment to the temporary file. *)
Fixpoint copy_live (old tmp : F) (seg : Z) (keep : list (BlockId * Location)) (offset : Z)
    (new_locs : list (BlockId * Location)) : M (list (BlockId * Location) * Z) :=
  match keep with
  | [] => mret (new_locs, offset)
  | (id, loc) :: keep =>
      io (f_read old (u64_add (loc_offset loc) HEADER_LEN) (loc_payload_len loc)) ≫= λ payload,
      if negb (block_verify id payload) then st_throw (Corrupt id)
      else
        let record := encode_record id payload in
        io (f_write tmp record offset) ≫= λ _,
        copy_live old tmp seg keep (u64_add offset (zlen record))
          (new_locs ++ [(id, MkLoc seg offset (loc_payload_len loc))])
  end.

Definition compact_segment (live : BlockId → bool) (seg : Z) (stats : CompactStats)
    : M CompactStats :=
  store ≫= λ s,
  let entries := base.filter (λ p, loc_segment p.2 = seg) (hash_order (map_to_list (index s))) in
  let keep := base.filter (λ p, live p.1 = true) entries in
  let drop := base.filter (λ p, live p.1 = false) entries in
  if bool_decide (drop = []) then mret stats
  else
    file_at (files s) seg ≫= λ old,
    io (fs_truncate (CompactName seg)) ≫= λ _,
    io (b_open (CompactName seg)) ≫= λ tmp,
    copy_live old tmp seg keep 0 [] ≫= λ '(new_locs, offset),
    io (f_sync tmp) ≫= λ _,
    io (f_len old) ≫= λ old_len,
    io (b_open (CompactName seg)) ≫= λ new_file,
    io (fs_rename (CompactName seg) (SegName seg)) ≫= λ _,
    update (λ s, set_files (<[Z.to_nat seg := new_file]> (files s)) s) ≫= λ _,
    update (λ s, set_index (insert_all (foldl (λ m p, delete p.1 m) (index s) drop) new_locs) s)
      ≫= λ _,
    io fs_sync_dir ≫= λ _,
    mret (MkCompact (segments_rewritten stats + 1) (blocks_dropped stats + zlen drop)
            (bytes_reclaimed stats + saturating_sub old_len offset)).

Fixpoint compact_segments (live : BlockId → bool) (segs : list Z) (stats : CompactStats)
    : M CompactStats :=
  match segs with
  | [] => mret stats
  | seg :: segs => compact_segment live seg stats ≫= compact_segments live segs
  end.

Definition compact (live : BlockId → bool) : M CompactStats :=
  store ≫= λ s,
  compact_segments live (seqZ 0 (saturating_sub (zlen (files s)) 1)) (MkCompact 0 0 0).

(** ** Checks and statistics *)
Definition verify_one (r : VerifyReport) (id : BlockId) : M VerifyReport := λ st,
  match get id st with
  | (st, Ok p) =>
      (st, Ok (MkReport (blocks_checked r + 1) (bytes_checked r + zlen p) (corrupt r) (unreadable r)))
  | (st, Err (Corrupt id)) =>
      (st, Ok (MkReport (blocks_checked r) (bytes_checked r) (corrupt r ++ [id]) (unreadable r)))
  | (st, Err _) =>
      (st, Ok (MkReport (blocks_checked r) (bytes_checked r) (corrupt r) (unreadable r ++ [id])))
  | (st, Panic) => (st, Panic)
  end.

Fixpoint verify_ids (ids : list BlockId) (r : VerifyReport) : M VerifyReport :=
  match ids with
  | [] => mret r
  | id :: ids => verify_one r id ≫= verify_ids ids
  end.

Definition verify_all : M VerifyReport :=
  store ≫= λ s, verify_ids (hash_order (map_to_list (index s))).*1 (MkReport 0 0 [] []).

Fixpoint sealed_bytes (fs : list F) : ST W io_error Z :=
  match fs with
  | [] => mret 0
  | f :: fs => λ w, let (w, r) := f_len f w in
                    (sealed_bytes fs ≫= λ n,
                     mret (match r with Ok k => k | _ => 0 end + n)) w
  end.

Definition stats : M StoreStats :=
  store ≫= λ s,
  io (sealed_bytes (removelast (files s))) ≫= λ sealed,
  mret (MkStats (zsize (index s)) (zlen (files s)) (sealed + append s)).

End Store.
