(* ===== verification/StoreInvariant.v ===== *)
(** * The invariant of the block store

    Every segment file is a sequence of encoded records followed by bytes no
    location points into, and every index entry is the location of one of
    those records.  A record whose payload no longer hashes to its id (bit
    rot) still fits the invariant; [intact] says there is none.  [wp] is a weakest precondition for the store's monad: it
    rules out panics and gives one postcondition for success and one for
    errors. *)

From S2P Require Import Prelude Core Io Segment Store.
From Stdlib Require Import Strings.Byte.

(** ** Weakest preconditions *)
Definition wp {S E A} (m : ST S E A) (Q : A → S → Prop) (R : E → S → Prop) (st : S) : Prop :=
  match m st with
  | (st', Ok a) => Q a st'
  | (st', Err e) => R e st'
  | (st', Panic) => False
  end.

Lemma wp_bind {S E A B} (m : ST S E A) (f : A → ST S E B) Q R st :
  wp m (λ a, wp (f a) Q R) R st → wp (m ≫= f) Q R st.
Proof. unfold wp, mbind, ST_bind. by destruct (m st) as [st' [a|e|]]. Qed.
Lemma wp_ret {S E A} (a : A) (Q : A → S → Prop) (R : E → S → Prop) st :
  Q a st → wp (mret a) Q R st.
Proof. done. Qed.
Lemma wp_throw {S E A} e (Q : A → S → Prop) (R : E → S → Prop) st :
  R e st → wp (st_throw e) Q R st.
Proof. done. Qed.
Lemma wp_mono {S E A} (m : ST S E A) (Q Q' : A → S → Prop) (R R' : E → S → Prop) st :
  wp m Q R st → (∀ a st', Q a st' → Q' a st') → (∀ e st', R e st' → R' e st') → wp m Q' R' st.
Proof. unfold wp. destruct (m st) as [st' [a|e|]]; auto. Qed.

(** ** Layout *)
Abbreviation segment := (list (BlockId * bytes) * bytes)%type (only parsing).

(** Every record of every segment, with its location, in scan order. *)
Fixpoint all_locs (first : Z) (segs : list segment) : list (BlockId * Location) :=
  match segs with
  | [] => []
  | (recs, _) :: segs => locs first 0 recs ++ all_locs (first + 1) segs
  end.

(** The records themselves, in the same order. *)
Definition all_recs (segs : list segment) : list (BlockId * bytes) := concat segs.*1.

(** No bytes after the records. *)
Definition tidy (segs : list segment) : Prop := Forall (λ sg, sg.2 = []) segs.

(** A segment is over the roll size only when it holds a single record. *)
Definition SEGMENT_MAX : Z := MAX_PAYLOAD + 2 * BLOCK_ALIGN.

(** What follows the records stops a scan, and the file is of a possible size. *)
Definition scannable (sg : segment) : Prop :=
  inert sg.2 ∧ zlen (enc_all sg.1 ++ sg.2) ≤ MAX_FILE.
(** Records whose payloads have the hashes they are filed under. *)
Definition hashed `{Blake3} (recs : list (BlockId * bytes)) : Prop := Forall (λ r, block_of r.2 = r.1) recs.

Section Layout.
Context {W F : Type} `{SegmentIoLaws W F, Blake3, HashOrder}.

Definition segment_ok (w : W) (f : F) (sg : segment) : Prop :=
  bytes_of w f = enc_all sg.1 ++ sg.2 ∧ small sg.1 ∧
  zlen (enc_all sg.1) ≤ SEGMENT_MAX.

(** The files, the directory and the contents. *)
Record on_disk (w : W) (fs : list F) (segs : list segment) : Prop := {
  od_segs : Forall2 (segment_ok w) fs segs;
  od_dir : ∀ i f, fs !! i = Some f ↔ dir_of w !! SegName (Z.of_nat i) = Some f;
  od_only : ∀ n, is_Some (dir_of w !! SegName n) → 0 ≤ n;
  od_inj : ∀ p q f, dir_of w !! p = Some f → dir_of w !! q = Some f → p = q }.

Lemma scannable_tidy w fs segs sg : on_disk w fs segs → sg ∈ segs → sg.2 = [] → scannable sg.
Proof.
  intros Hd Hin Hj. apply list_elem_of_lookup_1 in Hin as [i Hi].
  destruct (Forall2_lookup_r _ _ _ _ _ (od_segs _ _ _ Hd) Hi) as (f & _ & _ & _ & Hm).
  unfold scannable. rewrite Hj, app_nil_r. split; [apply inert_nil|].
  unfold SEGMENT_MAX, MAX_PAYLOAD, BLOCK_ALIGN, MAX_FILE in *. lia.
Qed.
Lemma tidy_scannable w fs segs : on_disk w fs segs → tidy segs → Forall scannable segs.
Proof.
  intros Hd Ht. apply Forall_forall. intros sg Hin. apply (scannable_tidy w fs segs); [done|done|].
  by eapply (proj1 (Forall_forall _ _) Ht).
Qed.

(** The index against the records. *)
Definition index_sound (ix : gmap BlockId Location) (segs : list segment) : Prop :=
  ∀ id loc, ix !! id = Some loc → (id, loc) ∈ all_locs 0 segs.

Definition tail_ok (s : BlockStore F) (segs : list segment) : Prop :=
  ∃ front recs junk, segs = front ++ [(recs, junk)] ∧ append s = zlen (enc_all recs).

Record store_ok (w : W) (s : BlockStore F) (segs : list segment) : Prop := {
  so_disk : on_disk w (files s) segs;
  so_index : index_sound (index s) segs;
  so_tail : write_failed s = false → tail_ok s segs;
  so_roll : 0 ≤ roll_bytes s ≤ MAX_PAYLOAD;
  so_files : files s ≠ [] }.

(** What the store holds: the bytes each indexed location designates. *)
Definition view (w : W) (s : BlockStore F) (id : BlockId) : option bytes :=
  loc ← index s !! id;
  f ← files s !! Z.to_nat (loc_segment loc);
  Some (zslice (bytes_of w f) (loc_offset loc + HEADER_LEN) (loc_payload_len loc)).

(** ** Locations *)
Lemma length_locs seg off recs : length (locs seg off recs) = length recs.
Proof. revert off. induction recs as [|[id p] recs IH]; intros off; cbn; auto. Qed.

Lemma locs_nth seg off recs k id loc :
  small recs → locs seg off recs !! k = Some (id, loc) →
  ∃ pre p post, recs = pre ++ (id, p) :: post ∧ length pre = k ∧
    loc = MkLoc seg (off + zlen (enc_all pre)) (zlen p).
Proof.
  revert off k. induction recs as [|[i q] recs IH]; intros off k Hs Hk; [done|].
  apply Forall_cons in Hs as [Hq Hs]. cbn in Hq. destruct k as [|k]; cbn in Hk.
  - simplify_eq. exists [], q, recs. split_and!; [done..|]. f_equal.
    change (zlen (enc_all [])) with 0. lia.
  - destruct (IH _ _ Hs Hk) as (pre & p & post & -> & <- & ->).
    exists ((i, q) :: pre), p, post. split_and!; [done..|]. f_equal.
    rewrite enc_all_cons, zlen_app, zlen_encode_record by done. lia.
Qed.

Lemma all_locs_app n segs segs' :
  all_locs n (segs ++ segs') = all_locs n segs ++ all_locs (n + zlen segs) segs'.
Proof.
  revert n. induction segs as [|[recs junk] segs IH]; intros n; cbn [all_locs app].
  - by rewrite Z.add_0_r.
  - rewrite IH, <-app_assoc, zlen_cons. do 3 f_equal. lia.
Qed.

Lemma all_recs_app segs segs' : all_recs (segs ++ segs') = all_recs segs ++ all_recs segs'.
Proof. unfold all_recs. by rewrite fmap_app, concat_app. Qed.

Lemma length_all_locs n segs : length (all_locs n segs) = length (all_recs segs).
Proof.
  revert n. induction segs as [|[recs junk] segs IH]; intros n; [done|].
  change (all_recs ((recs, junk) :: segs)) with (recs ++ all_recs segs). cbn [all_locs].
  by rewrite !length_app, length_locs, IH.
Qed.

Lemma all_locs_nth n segs k id loc :
  all_locs n segs !! k = Some (id, loc) →
  ∃ i recs junk j, segs !! i = Some (recs, junk) ∧
    locs (n + Z.of_nat i) 0 recs !! j = Some (id, loc) ∧ all_recs segs !! k = recs !! j.
Proof.
  revert n k. induction segs as [|[recs junk] segs IH]; intros n k Hk; [done|].
  cbn [all_locs] in Hk. change (all_recs ((recs, junk) :: segs)) with (recs ++ all_recs segs).
  apply lookup_app_Some in Hk as [Hk|[Hle Hk]].
  - exists 0%nat, recs, junk, k. rewrite Z.add_0_r. split_and!; [done..|].
    apply lookup_app_l. rewrite <-(length_locs n 0). by eapply lookup_lt_Some.
  - rewrite length_locs in *. destruct (IH _ _ Hk) as (i & recs' & junk' & j & Hi & Hl & Hr).
    exists (S i), recs', junk', j. split_and!; [done| |by rewrite lookup_app_r].
    by replace (n + Z.of_nat (S i)) with (n + 1 + Z.of_nat i) by lia.
Qed.

(** The bytes of a record inside a segment. *)
Lemma record_slice pre id p post junk :
  small (pre ++ (id, p) :: post) →
  let c := enc_all (pre ++ (id, p) :: post) ++ junk in
  let off := zlen (enc_all pre) + HEADER_LEN in
  off + zlen p ≤ zlen c ∧ zslice c off (zlen p) = p.
Proof.
  intros Hs c off. apply small_app in Hs as [Hpre [Hp Hpost]%Forall_cons]. cbn in Hp.
  assert (c = enc_all pre ++ encode_record id p ++ enc_all post ++ junk) as Hc.
  { subst c. by rewrite enc_all_app, enc_all_cons, <-!app_assoc. }
  rewrite Hc. subst off. pose proof (zlen_nonneg p). split.
  - rewrite !zlen_app, zlen_encode_record by done.
    destruct (record_len_small (zlen p)); [lia|]. zl.
  - rewrite zslice_cut by (unfold HEADER_LEN; lia).
    replace (zlen (enc_all pre) + HEADER_LEN - zlen (enc_all pre)) with HEADER_LEN by lia.
    apply encode_record_fields.
Qed.

(** Where the [k]-th record is. *)
Lemma nth_record w fs segs k id loc :
  on_disk w fs segs → all_locs 0 segs !! k = Some (id, loc) →
  ∃ f p, all_recs segs !! k = Some (id, p) ∧ fs !! Z.to_nat (loc_segment loc) = Some f ∧
    0 ≤ loc_segment loc ∧ 0 ≤ loc_offset loc ≤ SEGMENT_MAX ∧ loc_payload_len loc = zlen p ∧
    loc_offset loc + HEADER_LEN + zlen p ≤ zlen (bytes_of w f) ∧
    zslice (bytes_of w f) (loc_offset loc + HEADER_LEN) (zlen p) = p.
Proof.
  intros [Hseg _ _ _] Hk. apply all_locs_nth in Hk as (i & recs & junk & j & Hi & Hl & Hr).
  destruct (Forall2_lookup_r _ _ _ _ _ Hseg Hi) as (f & Hf & Hb & Hs & Hmax). cbn [fst snd] in *.
  destruct (locs_nth _ _ _ _ _ _ Hs Hl) as (pre & p & post & Hrecs & <- & ->).
  cbn [loc_segment loc_offset loc_payload_len].
  destruct (record_slice pre id p post junk) as [Hlen Hsl]; [by rewrite <-Hrecs|].
  exists f, p. rewrite Hr, Z.add_0_l, Nat2Z.id, Z.add_0_l, Hb, Hrecs.
  rewrite Hrecs, enc_all_app, zlen_app in Hmax.
  pose proof (zlen_nonneg (enc_all pre)). pose proof (zlen_nonneg (enc_all ((id, p) :: post))).
  split_and!; auto; try lia. by rewrite lookup_app_r, Nat.sub_diag.
Qed.

(** The view of a store on disk is what the records say. *)
Lemma view_spec w s segs id k loc :
  on_disk w (files s) segs → index s !! id = Some loc → all_locs 0 segs !! k = Some (id, loc) →
  ∃ p, all_recs segs !! k = Some (id, p) ∧ view w s id = Some p.
Proof.
  intros Hd Hi Hk. destruct (nth_record _ _ _ _ _ _ Hd Hk) as (f & p & Hp & Hf & _ & _ & Hl & _ & Hsl).
  exists p. split; [done|]. unfold view. rewrite Hi. cbn. rewrite Hf. cbn. by rewrite Hl, Hsl.
Qed.

(** No indexed record has rotted. *)
Definition intact (w : W) (s : BlockStore F) : Prop :=
  ∀ id p, view w s id = Some p → block_of p = id.

(** ** Rules for the store's monad *)
Lemma wp_intro {S E A} (m : ST S E A) (Q : A → S → Prop) (R : E → S → Prop) st :
  (∀ st' r, m st = (st', r) →
    r ≠ Panic ∧ (∀ a, r = Ok a → Q a st') ∧ (∀ e, r = Err e → R e st')) → wp m Q R st.
Proof.
  intros Hm. unfold wp. destruct (m st) as [st' r] eqn:E'.
  destruct (Hm _ _ eq_refl) as (? & ? & ?). destruct r; auto.
Qed.

Lemma wp_io {A} (m : ST W io_error A) (Q : A → W * BlockStore F → Prop)
    (R : Error → W * BlockStore F → Prop) w s :
  wp m (λ a w', Q a (w', s)) (λ e w', R (Io e) (w', s)) w → wp (io m) Q R (w, s).
Proof. unfold wp, io. by destruct (m w) as [w' [a|e|]]. Qed.

Lemma wp_read f off n (w : W) (Q : bytes → W → Prop) (R : io_error → W → Prop) :
  0 ≤ off → 0 ≤ n → off + n ≤ zlen (bytes_of w f) →
  (∀ w', same_disk w w' → (healthy w → healthy w') → Q (zslice (bytes_of w f) off n) w') →
  (∀ e w', same_disk w w' → ¬ healthy w → R e w') →
  wp (f_read f off n) Q R w.
Proof.
  intros Ho Hn Hl HQ HR. apply wp_intro. intros w' r E'.
  destruct (law_read _ _ _ _ _ _ E') as (Hsame & Hnp & Hok & Hh). split_and!; [done| |].
  - intros l ->. destruct (Hok l eq_refl Ho Hn) as [_ ->]. apply HQ; [done|]. by intros [? _]%Hh.
  - intros e ->. apply HR; [done|]. intros Hw. destruct (Hh Hw) as [_ Hr]. by specialize (Hr Ho Hn Hl).
Qed.

(** The store's view only depends on the contents. *)
Lemma view_same (w w' : W) s id : same_disk w w' → view w' s id = view w s id.
Proof.
  intros [_ B]. unfold view. destruct (index s !! id) as [loc|]; [|done]. cbn.
  destruct (files s !! _); [|done]. cbn. by rewrite B.
Qed.

Lemma on_disk_same (w w' : W) fs segs : same_disk w w' → on_disk w fs segs → on_disk w' fs segs.
Proof.
  intros [D B] [S1 S2 S3 S4]. constructor; rewrite ?D; auto.
  eapply Forall2_impl; [exact S1|]. intros f sg (E & ?). unfold segment_ok. by rewrite B.
Qed.

Lemma store_ok_same (w w' : W) s segs : same_disk w w' → store_ok w s segs → store_ok w' s segs.
Proof. intros Hsame []. constructor; auto. by eapply on_disk_same. Qed.

(** ** Reading *)
Lemma get_wp id w s segs :
  on_disk w (files s) segs → index_sound (index s) segs →
  wp (get id)
    (λ p st, st.2 = s ∧ same_disk w st.1 ∧ (healthy w → healthy st.1) ∧
             view w s id = Some p ∧ block_of p = id)
    (λ e st, st.2 = s ∧ same_disk w st.1 ∧ (healthy w → healthy st.1) ∧
             ((e = BlockNotFound id ∧ view w s id = None) ∨
              (e = Corrupt id ∧ ∃ p, view w s id = Some p ∧ block_of p ≠ id) ∨
              (¬ healthy w ∧ is_Some (view w s id) ∧ ∃ i, e = Io i)))
    (w, s).
Proof.
  intros Hd Hix. unfold get. apply wp_bind. unfold wp at 1; cbn.
  destruct (index s !! id) as [loc|] eqn:Hi.
  2: { apply wp_throw. cbn. split_and!; auto; [done|]. left. unfold view. by rewrite Hi. }
  destruct (list_elem_of_lookup_1 _ _ (Hix _ _ Hi)) as [k Hk].
  destruct (view_spec _ _ _ _ _ _ Hd Hi Hk) as (p & Hp & Hv).
  destruct (nth_record _ _ _ _ _ _ Hd Hk) as (f & p' & Hp' & Hf & Hs0 & Ho & Hl & Hrange & Hsl).
  rewrite Hp in Hp'. injection Hp' as <-.
  apply wp_bind. unfold file_at. rewrite Hf. unfold wp at 1; cbn.
  apply wp_bind, wp_io. rewrite u64_add_small
    by (unfold SEGMENT_MAX, MAX_PAYLOAD, BLOCK_ALIGN, HEADER_LEN, u64_max in *; lia).
  pose proof (zlen_nonneg p). rewrite Hl. apply wp_read; [unfold HEADER_LEN; lia|done|done| |].
  - intros w' Hsame Hw. rewrite Hsl. case_goal.
    + apply wp_ret. cbn. split_and!; auto. by apply block_verify_spec.
    + apply wp_throw. cbn. split_and!; auto. right; left. split; [done|]. exists p.
      split; [done|]. by apply block_verify_false.
  - intros e w' Hsame Hw. cbn. split_and!; auto; [by intros|]. right; right. split_and!; eauto.
Qed.

End Layout.
