(* ===== verification/StorePut.v ===== *)
(** * Appending to the block store

    The group commit of [put_many_inner]: what it writes, what it publishes,
    and what a failure at any point leaves behind. *)

From S2P Require Import Prelude Core Io Segment Store StoreInvariant.
From Stdlib Require Import Strings.Byte.

(** The writes that put [recs] at [offset]. *)
Fixpoint writes (offset : Z) (recs : list (BlockId * bytes)) : list (Z * bytes) :=
  match recs with
  | [] => []
  | (id, p) :: recs =>
      (offset, encode_record id p) :: writes (offset + record_len (zlen p)) recs
  end.

Lemma writes_app offset recs recs' :
  small recs →
  writes offset (recs ++ recs') = writes offset recs ++ writes (offset + zlen (enc_all recs)) recs'.
Proof.
  revert offset. induction recs as [|[id p] recs IH]; intros offset Hs; cbn [writes app].
  - change (zlen (enc_all [])) with 0. by rewrite Z.add_0_r.
  - apply Forall_cons in Hs as [Hp Hs]. cbn in Hp. rewrite IH by done. do 2 f_equal.
    rewrite enc_all_cons, zlen_app, zlen_encode_record by done. f_equal. lia.
Qed.

(** Overwriting the bytes that follow [A]. *)
Lemma splice_app A J buf : splice (A ++ J) buf (zlen A) = A ++ buf ++ drop (length buf) J.
Proof.
  unfold splice, zlen. rewrite Nat2Z.id, take_app_length, length_app.
  replace (length A - (length A + length J))%nat with 0%nat by lia. cbn [replicate app].
  f_equal. f_equal. rewrite <-drop_drop, drop_app_length. done.
Qed.

(** The records a batch adds: those neither present nor already staged. *)
Definition fresh_step (known : BlockId → bool) (acc : list (BlockId * bytes)) (r : BlockId * bytes)
    : list (BlockId * bytes) :=
  if known r.1 || existsb (λ q, bool_decide (q.1 = r.1)) acc then acc else acc ++ [r].
Definition fresh_recs (known : BlockId → bool) (prepared : list (BlockId * bytes)) :=
  foldl (fresh_step known) [] prepared.

(** ** Publishing in the index *)
Lemma insert_all_app m l k : insert_all m (l ++ k) = insert_all (insert_all m l) k.
Proof. unfold insert_all. by rewrite foldl_app. Qed.

Lemma insert_all_lookup l m id loc :
  NoDup l.*1 →
  insert_all m l !! id = Some loc ↔ (id, loc) ∈ l ∨ (id ∉ l.*1 ∧ m !! id = Some loc).
Proof.
  intros Hn. induction l as [|[i x] l IH] using rev_ind; [cbn; set_solver|].
  rewrite fmap_app, NoDup_app in Hn. destruct Hn as (Hn & Hd & _).
  rewrite insert_all_app. cbn. rewrite lookup_insert_Some, IH by done.
  rewrite elem_of_app, list_elem_of_singleton, fmap_app, not_elem_of_app. cbn.
  rewrite list_elem_of_singleton. split.
  - intros [[-> ->]|[Hne [Hin|[Hni Hm]]]]; [by left; right|by left; left|]. right. set_solver.
  - intros [[Hin|[= -> ->]]|[[Hni Hne] Hm]]; [|by left|right; set_solver].
    right. split; [|by left]. intros ->. apply (Hd id); [|by left].
    apply list_elem_of_fmap. by exists (id, loc).
Qed.

Section Append.
Context {W F : Type} `{SegmentIoLaws W F, Blake3, HashOrder}.

(** Only the file [f] changed. *)
Definition only_file (f : F) (w w' : W) : Prop :=
  dir_of w' = dir_of w ∧ ∀ g, g ≠ f → bytes_of w' g = bytes_of w g.

Lemma only_file_trans f w1 w2 w3 : only_file f w1 w2 → only_file f w2 w3 → only_file f w1 w3.
Proof. intros [D1 B1] [D2 B2]. split; [congruence|]. intros g Hg. by rewrite B2, B1. Qed.
Lemma only_file_same f w w' : same_disk w w' → only_file f w w'.
Proof. intros [D B]. split; auto. Qed.

Lemma wp_write f buf A J (w : W) (Q : () → W → Prop) (R : io_error → W → Prop) :
  bytes_of w f = A ++ J →
  (∀ w', only_file f w w' → (healthy w → healthy w') →
     bytes_of w' f = A ++ buf ++ drop (length buf) J → Q () w') →
  (∀ e w' J', only_file f w w' → ¬ healthy w → bytes_of w' f = A ++ J' →
     (J = [] → ∃ k, J' = take k buf) → R e w') →
  wp (f_write f buf (zlen A)) Q R w.
Proof.
  intros Hb HQ HR. pose proof (zlen_nonneg A). apply wp_intro. intros w' r E'.
  destruct (law_write _ _ _ _ _ _ E') as (Hnp & D & B & Hp & Hok & Hh). split_and!; [done| |].
  - intros [] ->. apply HQ; [done|by intros [? _]%Hh|]. by rewrite Hok, Hb, splice_app.
  - intros e ->. destruct (Hp ltac:(lia)) as (k & E).
    assert (¬ healthy w) by (intros [_ [=]]%Hh). destruct E as [E|E].
    + rewrite Hb, splice_app in E. eapply HR; [done|done|exact E|]. intros ->. exists k. by rewrite drop_nil, app_nil_r.
    + rewrite Hb in E. eapply HR; [done|done|exact E|]. intros ->. by exists 0%nat.
Qed.

Lemma wp_write_all f recs A J (w : W) (Q : () → W → Prop) (R : io_error → W → Prop) :
  small recs → bytes_of w f = A ++ J →
  (∀ w', only_file f w w' → (healthy w → healthy w') →
     bytes_of w' f = A ++ enc_all recs ++ drop (length (enc_all recs)) J → Q () w') →
  (∀ e w' J', only_file f w w' → ¬ healthy w → bytes_of w' f = A ++ J' →
     (J = [] → ∃ k, J' = take k (enc_all recs)) → R e w') →
  wp (write_all f (writes (zlen A) recs)) Q R w.
Proof.
  revert A J w Q. induction recs as [|[id p] recs IH]; intros A J w Q Hs Hb HQ HR; cbn [writes write_all].
  - apply wp_ret, HQ; [by apply only_file_same|done|done].
  - apply Forall_cons in Hs as [Hp Hs]. cbn in Hp. apply wp_bind.
    eapply wp_write; [exact Hb| |].
    + intros w1 F1 H1' B1. rewrite app_assoc in B1.
      replace (zlen A + record_len (zlen p)) with (zlen (A ++ encode_record id p))
        by by rewrite zlen_app, zlen_encode_record.
      apply (IH _ _ w1 _ Hs B1).
      * intros w2 F2 H2' B2. apply HQ; [by eapply only_file_trans|auto|].
        rewrite B2, enc_all_cons, length_app, drop_drop, <-!app_assoc. done.
      * intros e w2 J' F2 H2' B2 K2. rewrite <-app_assoc in B2.
        eapply HR; [by eapply only_file_trans|auto|exact B2|]. intros ->. rewrite drop_nil in K2.
        destruct (K2 eq_refl) as [k ->]. exists (length (encode_record id p) + k)%nat.
        by rewrite enc_all_cons, take_app_add.
    + intros e w1 J' F1 H1' B1 K1. eapply HR; [done|done|exact B1|]. intros [k ->]%K1.
      exists (k `min` length (encode_record id p))%nat. by rewrite enc_all_cons, take_app_le, <-take_take, firstn_all by lia.
Qed.

(** ** Flushing *)

(** The last file of a store on disk, and the others. *)
Lemma on_disk_last w fs f front recs junk :
  on_disk w (fs ++ [f]) (front ++ [(recs, junk)]) →
  bytes_of w f = enc_all recs ++ junk ∧ small recs ∧ length fs = length front.
Proof.
  intros [Hs _ _ _]. pose proof (Forall2_length _ _ _ Hs) as Hl.
  rewrite !length_app in Hl. cbn in Hl. assert (length fs = length front) as Hlen by lia.
  apply Forall2_app_inv in Hs as [_ Hs]; [|done]. by apply Forall2_cons in Hs as [(? & ? & _) _].
Qed.

Lemma on_disk_length w fs segs : on_disk w fs segs → length fs = length segs.
Proof. intros [Hs _ _ _]. by eapply Forall2_length. Qed.

(** Changing the last file changes the last segment. *)
Lemma on_disk_update w w' fs f front recs junk recs' junk' :
  on_disk w (fs ++ [f]) (front ++ [(recs, junk)]) → only_file f w w' →
  bytes_of w' f = enc_all recs' ++ junk' → small recs' → zlen (enc_all recs') ≤ SEGMENT_MAX →
  on_disk w' (fs ++ [f]) (front ++ [(recs', junk')]).
Proof.
  intros Hd [D B] Hb Hs Hm. pose proof (on_disk_last _ _ _ _ _ _ Hd) as (_ & _ & Hlen).
  destruct Hd as [S1 S2 S3 S4]. constructor; rewrite ?D; auto.
  apply Forall2_app_inv in S1 as [S1 _]; [|done]. apply Forall2_app; [|by constructor].
  apply Forall2_same_length_lookup. split; [done|]. intros i g sg Hg Hsg.
  pose proof (Forall2_lookup_lr _ _ _ _ _ _ S1 Hg Hsg) as (Eb & ? & ?).
  unfold segment_ok. rewrite B; [done|]. intros ->.
  assert (dir_of w !! SegName (Z.of_nat i) = Some f) as E1.
  { apply S2. by rewrite lookup_app_l by by eapply lookup_lt_Some. }
  assert (dir_of w !! SegName (Z.of_nat (length fs)) = Some f) as E2.
  { apply S2. by rewrite lookup_app_r, Nat.sub_diag. }
  pose proof (S4 _ _ _ E1 E2) as [= Heq%Nat2Z.inj]. apply lookup_lt_Some in Hg. lia.
Qed.

Lemma wp_flush f fs recs junk front pend s w
    (Q : () → W * BlockStore F → Prop) (R : Error → W * BlockStore F → Prop) :
  on_disk w (fs ++ [f]) (front ++ [(recs, junk)]) → small pend →
  zlen (enc_all recs) + zlen (enc_all pend) ≤ SEGMENT_MAX →
  (∀ w' junk', on_disk w' (fs ++ [f]) (front ++ [(recs ++ pend, junk')]) →
     (junk = [] → junk' = []) → (healthy w → healthy w') → Q () (w', s)) →
  (∀ e w' junk', on_disk w' (fs ++ [f]) (front ++ [(recs, junk')]) →
     ¬ healthy w → (junk = [] → ∃ k, junk' = take k (enc_all pend)) → R e (w', s)) →
  wp (flush_pending f (writes (zlen (enc_all recs)) pend) true) Q R (w, s).
Proof.
  intros Hd Hp Hm HQ HR. destruct (on_disk_last _ _ _ _ _ _ Hd) as (Hb & Hs & _).
  unfold flush_pending. case_goal.
  { apply wp_ret. bool_prop. destruct pend as [|[? ?] ?]; [|done]. rewrite app_nil_r in HQ.
    eapply HQ; [done|done|done]. }
  apply wp_io. unfold write_batch. apply wp_bind. eapply wp_write_all; [done|exact Hb| |].
  - intros w1 F1 H1' B1. apply wp_intro. intros w2 r E'.
    destruct (law_sync _ _ _ _ E') as (Hsame & Hnp & Hh).
    assert (on_disk w1 (fs ++ [f])
      (front ++ [(recs ++ pend, drop (length (enc_all pend)) junk)])) as Hd1.
    { eapply on_disk_update; [done|done| |by apply small_app|by rewrite enc_all_app, zlen_app].
      by rewrite B1, enc_all_app, <-app_assoc. }
    split_and!; [done| |].
    + intros [] ->. eapply HQ; [by eapply on_disk_same|by intros ->; apply drop_nil|].
      intros Hw. by destruct (Hh (H1' Hw)).
    + intros e ->. assert (¬ healthy w) by (intros Hw%H1'%Hh; by destruct Hw).
      eapply (HR _ w2 (enc_all pend ++ drop (length (enc_all pend)) junk)); [|done|intros ->; exists (length (enc_all pend)); by rewrite drop_nil, app_nil_r, firstn_all].
      eapply (on_disk_update w w2); [exact Hd| | |done|].
      * by eapply only_file_trans, only_file_same.
      * destruct Hsame as [_ Bs]. by rewrite Bs, B1.
      * pose proof (zlen_nonneg (enc_all pend)). lia.
  - intros e w1 J' F1 H1' B1 K1. eapply HR; [|done|done].
    eapply (on_disk_update w w1); [exact Hd|done|exact B1|done|].
    pose proof (zlen_nonneg (enc_all pend)). lia.
Qed.

(** ** Rolling to a new segment *)
Lemma on_disk_next w fs segs :
  on_disk w fs segs → dir_of w !! SegName (zlen fs) = None.
Proof.
  intros [_ S2 _ _]. destruct (dir_of w !! SegName (zlen fs)) as [f|] eqn:E; [|done].
  unfold zlen in E. apply S2, lookup_lt_Some in E. lia.
Qed.

Lemma on_disk_push w w' fs segs f :
  on_disk w fs segs → unlisted w f → dir_of w' = <[SegName (zlen fs) := f]> (dir_of w) →
  bytes_of w' f = [] → (∀ g, g ≠ f → bytes_of w' g = bytes_of w g) →
  on_disk w' (fs ++ [f]) (segs ++ [([], [])]).
Proof.
  intros Hd Hu D Hb B. pose proof (on_disk_next _ _ _ Hd) as Hn. destruct Hd as [S1 S2 S3 S4].
  constructor; rewrite ?D.
  - apply Forall2_app; [|constructor; [|constructor]].
    + apply Forall2_same_length_lookup. split; [by eapply Forall2_length|]. intros i g sg Hg Hsg.
      pose proof (Forall2_lookup_lr _ _ _ _ _ _ S1 Hg Hsg) as (Eb & ? & ?).
      unfold segment_ok. rewrite B; [done|]. intros ->. apply S2 in Hg. by apply Hu in Hg.
    + split_and!; [done|constructor|done].
  - intros i g. destruct (decide (i = length fs)) as [->|Hi].
    + rewrite lookup_app_r, Nat.sub_diag, lookup_insert_eq by lia. done.
    + rewrite lookup_insert_ne by (unfold zlen; intros [= ?]; lia). rewrite <-S2.
      destruct (decide (i < length fs)%nat); [by rewrite lookup_app_l|].
      rewrite lookup_ge_None_2 by (rewrite length_app; cbn; lia).
      by rewrite lookup_ge_None_2 by lia.
  - intros n [g Hg]. apply lookup_insert_Some in Hg as [[[= <-] _]|[_ Hg]]; [apply zlen_nonneg|eauto].
  - intros p q g Hp Hq. apply lookup_insert_Some in Hp as [[<- <-]|[Hp1 Hp]];
      apply lookup_insert_Some in Hq as [[<- Hq']|[Hq1 Hq]]; subst; try done.
    + by apply Hu in Hq.
    + by apply Hu in Hp.
    + by eapply S4.
Qed.

(** The view is determined by the index and the records it was made from. *)
Lemma view_stable w s segs w' s' segs' dl dn id :
  on_disk w (files s) segs → on_disk w' (files s') segs' → index s' = index s →
  index_sound (index s) segs →
  all_locs 0 segs' = all_locs 0 segs ++ dl → all_recs segs' = all_recs segs ++ dn →
  view w' s' id = view w s id.
Proof.
  intros Hd Hd' Hi Hs Hl Hr. destruct (index s !! id) as [loc|] eqn:E.
  - destruct (list_elem_of_lookup_1 _ _ (Hs _ _ E)) as [k Hk].
    destruct (view_spec _ _ _ _ _ _ Hd E Hk) as (p & Hp & ->).
    assert (all_locs 0 segs' !! k = Some (id, loc)) as Hk'.
    { rewrite Hl. by apply lookup_app_l_Some. }
    rewrite <-Hi in E. destruct (view_spec _ _ _ _ _ _ Hd' E Hk') as (p' & Hp' & ->).
    rewrite Hr, (lookup_app_l_Some _ _ _ _ Hp) in Hp'. congruence.
  - unfold view. by rewrite Hi, E.
Qed.

(** Whether [get] would return the block, on a responsive device. *)
Definition readable (w : W) (s : BlockStore F) (id : BlockId) : bool :=
  match view w s id with Some p => block_verify id p | None => false end.

Lemma present_wp rep id w s segs :
  on_disk w (files s) segs → index_sound (index s) segs →
  wp (present rep id)
    (λ b st, st.2 = s ∧ same_disk w st.1 ∧ (healthy w → healthy st.1) ∧
             (rep = false → b = contains_key (index s) id) ∧
             (rep = true → healthy w → b = readable w s id) ∧
             (b = true → contains_key (index s) id = true))
    (λ e st, False) (w, s).
Proof.
  intros Hd Hs. unfold present. destruct rep; [|by unfold wp; cbn].
  pose proof (get_wp id w s segs Hd Hs) as Hg. unfold wp in *. unfold readable.
  destruct (get id (w, s)) as [st' [p|e|]]; cbn; [| |done].
  - destruct Hg as (? & ? & ? & Hv & Hp). split_and!; auto; [done| |].
    + intros _ _. rewrite Hv. symmetry. by apply block_verify_spec.
    + intros _. apply contains_key_true. unfold view in Hv. destruct (index s !! id); [eauto|done].
  - destruct Hg as (? & ? & ? & Hc). split_and!; auto; [done| |done]. intros _ Hw.
    destruct Hc as [[_ ->]|[(_ & p & -> & Hp)|(? & _)]]; [done| |done].
    symmetry. by apply block_verify_false.
Qed.

(** ** The loop *)
Section Loop.
Context (rep : bool) (w0 : W) (s0 : BlockStore F) (segs0 : list segment).
Context (Hd0 : on_disk w0 (files s0) segs0) (Hs0 : index_sound (index s0) segs0).
Context (Hroll : 0 ≤ roll_bytes s0 ≤ MAX_PAYLOAD).
(** What is known of every record of the batch. *)
Context (good : BlockId * bytes → Prop).

(** Everything but the position in the batch: on disk are the original
    records and those flushed so far. *)
Record extended (st : W * BlockStore F) (segs : list segment)
    (dl : list (BlockId * Location)) (dn : list (BlockId * bytes)) : Prop := {
  ex_disk : on_disk st.1 (files st.2) segs;
  ex_locs : all_locs 0 segs = all_locs 0 segs0 ++ dl;
  ex_recs : all_recs segs = all_recs segs0 ++ dn;
  ex_index : index st.2 = index s0;
  ex_roll : roll_bytes st.2 = roll_bytes s0;
  ex_failed : write_failed st.2 = write_failed s0;
  ex_tidy : tidy segs0 → tidy segs;
  ex_healthy : healthy w0 → healthy st.1 }.

(** Some of the new records complete, the last one perhaps torn, and nothing
    a scan would take for a record. *)
Definition torn_at (st : W * BlockStore F) : Prop :=
  ∃ segs dl dn, on_disk st.1 (files st.2) segs ∧ Forall scannable segs ∧
    all_locs 0 segs = all_locs 0 segs0 ++ dl ∧ all_recs segs = all_recs segs0 ++ dn ∧ Forall good dn.

(** What an error leaves: some records more, the same index. *)
Definition broken (st : W * BlockStore F) : Prop :=
  ∃ segs dl dn, on_disk st.1 (files st.2) segs ∧
    all_locs 0 segs = all_locs 0 segs0 ++ dl ∧ all_recs segs = all_recs segs0 ++ dn ∧
    index st.2 = index s0 ∧ roll_bytes st.2 = roll_bytes s0 ∧ files st.2 ≠ [] ∧ ¬ healthy w0 ∧
    (tidy segs0 → torn_at st).

Record loop_ok (news : list (BlockId * bytes)) (st : W * BlockStore F) (v : loop)
    (fs : list F) (front : list segment) (recs : list (BlockId * bytes)) (junk : bytes)
    (pend : list (BlockId * bytes)) (dl : list (BlockId * Location)) (dn : list (BlockId * bytes))
    : Prop := {
  lk_ext : extended st (front ++ [(recs, junk)]) dl dn;
  lk_files : files st.2 = fs ++ [(active v).2];
  lk_active : (active v).1 = zlen fs;
  lk_tail : append st.2 = zlen (enc_all recs) + zlen (enc_all pend);
  lk_max : append st.2 ≤ SEGMENT_MAX;
  lk_pending : pending v = writes (zlen (enc_all recs)) pend;
  lk_small : small pend;
  lk_staged : staged v = dl ++ locs (zlen fs) (zlen (enc_all recs)) pend;
  lk_news : news = dn ++ pend;
  lk_good : Forall good news }.

Definition looping (news : list (BlockId * bytes)) (st : W * BlockStore F) (v : loop) : Prop :=
  ∃ fs front recs junk pend dl dn, loop_ok news st v fs front recs junk pend dl dn.

(** The ids staged are those of the new records. *)
Definition ids_agree (dl : list (BlockId * Location)) (dn : list (BlockId * bytes)) : Prop :=
  dl.*1 = dn.*1.

Lemma locs_ids seg off recs : (locs seg off recs).*1 = recs.*1.
Proof.
  revert off. induction recs as [|[id p] recs IH]; intros off; [done|].
  cbn [locs]. by rewrite !fmap_cons, IH.
Qed.
Lemma all_locs_ids n segs : (all_locs n segs).*1 = (all_recs segs).*1.
Proof.
  revert n. induction segs as [|[recs junk] segs IH]; intros n; [done|].
  change (all_recs ((recs, junk) :: segs)) with (recs ++ all_recs segs). cbn [all_locs].
  by rewrite !fmap_app, locs_ids, IH.
Qed.
Lemma added_ids segs dl dn :
  all_locs 0 segs = all_locs 0 segs0 ++ dl → all_recs segs = all_recs segs0 ++ dn → dl.*1 = dn.*1.
Proof.
  intros El Er. pose proof (all_locs_ids 0 segs) as E.
  rewrite El, Er, !fmap_app, (all_locs_ids 0 segs0) in E. by apply app_inv_head in E.
Qed.
Lemma extended_ids st segs dl dn : extended st segs dl dn → dl.*1 = dn.*1.
Proof. intros []. by eapply added_ids. Qed.

Lemma looping_ids news st v : looping news st v → (staged v).*1 = news.*1.
Proof.
  intros (fs & front & recs & junk & pend & dl & dn & []).
  rewrite lk_staged0, lk_news0, !fmap_app, locs_ids. by rewrite (extended_ids _ _ _ _ lk_ext0).
Qed.

Lemma existsb_ids id (l : list (BlockId * Location)) (k : list (BlockId * bytes)) :
  l.*1 = k.*1 →
  existsb (λ p, bool_decide (p.1 = id)) l = existsb (λ q, bool_decide (q.1 = id)) k.
Proof.
  revert k. induction l as [|[i x] l IH]; intros [|[j y] k] E; try done.
  cbn in *. injection E as -> E. by rewrite (IH _ E).
Qed.

(** More records in the last segment. *)
Lemma all_locs_extend front recs junk extra junk' :
  small recs →
  all_locs 0 (front ++ [(recs ++ extra, junk')]) =
    all_locs 0 (front ++ [(recs, junk)]) ++ locs (zlen front) (zlen (enc_all recs)) extra.
Proof. intros Hs. rewrite !all_locs_app. cbn [all_locs]. by rewrite !app_nil_r, locs_app, app_assoc by done. Qed.
Lemma all_recs_extend front recs junk extra junk' :
  all_recs (front ++ [(recs ++ extra, junk')]) = all_recs (front ++ [(recs, junk)]) ++ extra.
Proof. rewrite !all_recs_app. unfold all_recs. cbn. by rewrite !app_nil_r, app_assoc. Qed.

(** A flush that stopped after some bytes. *)
Lemma torn_flush w fs f front recs pend k :
  on_disk w (fs ++ [f]) (front ++ [(recs, take k (enc_all pend))]) → small pend →
  zlen (enc_all recs) + zlen (enc_all pend) ≤ SEGMENT_MAX →
  ∃ j junk, on_disk w (fs ++ [f]) (front ++ [(recs ++ take j pend, junk)]) ∧ scannable (recs ++ take j pend, junk).
Proof.
  intros Hd Hp Hm. destruct (torn_prefix k pend Hp) as (j & junk & E & Hi). exists j, junk.
  destruct (on_disk_last _ _ _ _ _ _ Hd) as (Hb & Hs & _).
  assert (zlen (enc_all (recs ++ take j pend) ++ junk) ≤ SEGMENT_MAX) as Hlen.
  { rewrite enc_all_app, <-app_assoc, <-E, zlen_app. unfold zlen in *. rewrite length_take. lia. }
  split.
  - eapply on_disk_update; [exact Hd|by apply only_file_same|by rewrite Hb, E, enc_all_app, app_assoc| |].
    + apply small_app. split; [done|]. by apply Forall_take.
    + rewrite zlen_app in Hlen. pose proof (zlen_nonneg junk). lia.
  - split; [done|]. cbn [fst snd]. unfold SEGMENT_MAX, MAX_PAYLOAD, BLOCK_ALIGN, MAX_FILE in *. lia.
Qed.

(** Records staged in memory and then flushed. *)
Lemma flushed st v news fs front recs junk pend dl dn w' junk' :
  loop_ok news st v fs front recs junk pend dl dn →
  on_disk w' (fs ++ [(active v).2]) (front ++ [(recs ++ pend, junk')]) →
  (junk = [] → junk' = []) → (healthy st.1 → healthy w') →
  extended (w', st.2) (front ++ [(recs ++ pend, junk')]) (staged v) news.
Proof.
  intros [[E1 E2 E3 E4 E5 E6 E7 E8] L2 L3 L4 L5 L6 L7 L8 L9 L10] Hd Hj Hh.
  rewrite L2 in E1. destruct (on_disk_last _ _ _ _ _ _ E1) as (_ & Hsm & Hlen).
  constructor; cbn; auto.
  - by rewrite L2.
  - rewrite (all_locs_extend front recs junk pend junk'), E2, L8, <-app_assoc by done. do 3 f_equal. unfold zlen. lia.
  - by rewrite (all_recs_extend front recs junk pend junk'), E3, L9, <-app_assoc.
  - intros Ht%E7. apply Forall_app in Ht as [? [? _]%Forall_cons]. apply Forall_app.
    split; [done|]. constructor; [by apply Hj|constructor].
Qed.

Lemma broken_extended st segs dl dn :
  extended st segs dl dn → Forall good dn → files st.2 ≠ [] → ¬ healthy w0 → broken st.
Proof.
  intros [] Ha Hf Hh. exists segs, dl, dn. split_and!; auto. intros Ht%ex_tidy0. exists segs, dl, dn.
  split_and!; auto. by eapply tidy_scannable.
Qed.

Lemma junk_irrelevant front recs junk junk' :
  all_locs 0 (front ++ [(recs, junk)]) = all_locs 0 (front ++ [(recs, junk')]) ∧
  all_recs (front ++ [(recs, junk)]) = all_recs (front ++ [(recs, junk')]).
Proof. by rewrite !all_locs_app, !all_recs_app. Qed.

(** Flushing from inside the loop. *)
Lemma flush_wp st v news fs front recs junk pend dl dn
    (Q : () → W * BlockStore F → Prop) (R : Error → W * BlockStore F → Prop) :
  loop_ok news st v fs front recs junk pend dl dn →
  (∀ w' junk', extended (w', st.2) (front ++ [(recs ++ pend, junk')]) (staged v) news →
     Q () (w', st.2)) →
  (∀ e st', broken st' → R e st') →
  wp (flush_pending (active v).2 (pending v) true) Q R st.
Proof.
  intros HL HQ HR. pose proof HL as [[E1 E2 E3 E4 E5 E6 E7 E8] L2 L3 L4 L5 L6 L7 L8 L9 L10].
  destruct st as [w s]. cbn in *. rewrite L6. rewrite L2 in E1.
  eapply wp_flush; [exact E1|done|lia| |].
  - intros w' junk' Hd Hj Hh. apply (HQ w' junk'). by eapply (flushed (w, s)).
  - intros e w' junk' Hd Hh Hk. apply HR.
    destruct (junk_irrelevant front recs junk junk') as [El Er]. rewrite El in E2. rewrite Er in E3.
    exists (front ++ [(recs, junk')]), dl, dn. cbn. rewrite L2.
    split_and!; auto; [by destruct fs|]. intros [Hfr [Hj _]%Forall_cons]%E7%Forall_app.
    destruct (Hk Hj) as [k ->].
    destruct (torn_flush w' fs (active v).2 front recs pend k Hd L7 ltac:(lia)) as (j & junk'' & Hd' & Hsc).
    eexists _, _, _. cbn. rewrite L2. split_and!; [exact Hd'| | | |].
    + apply Forall_app. split; [|by constructor]. apply Forall_forall. intros sg Hsg.
      apply (scannable_tidy _ _ _ _ Hd); [apply elem_of_app; by left|]. by eapply (proj1 (Forall_forall _ _) Hfr).
    + rewrite (all_locs_extend front recs (take k (enc_all pend)) _ junk''), E2, <-app_assoc; [done|]. by destruct (on_disk_last _ _ _ _ _ _ Hd) as (_ & ? & _).
    + rewrite (all_recs_extend front recs (take k (enc_all pend)) _ junk''), E3, <-app_assoc. done.
    + rewrite L9 in L10. apply Forall_app in L10 as [? ?]. apply Forall_app. split; [done|]. by apply Forall_take.
Qed.

Lemma extended_push w s segs dl dn w' f :
  extended (w, s) segs dl dn → unlisted w f →
  dir_of w' = <[SegName (zlen (files s)) := f]> (dir_of w) → bytes_of w' f = [] →
  (∀ g, g ≠ f → bytes_of w' g = bytes_of w g) → (healthy w → healthy w') →
  extended (w', set_append 0 (set_files (files s ++ [f]) s)) (segs ++ [([], [])]) dl dn.
Proof.
  intros [] Hu D Hb B Hh. constructor; cbn in *; auto.
  - by eapply on_disk_push.
  - rewrite all_locs_app. cbn. by rewrite app_nil_r.
  - rewrite all_recs_app. by rewrite app_nil_r.
  - intros Ht. apply Forall_app. split; [by apply ex_tidy0|]. by constructor.
Qed.

Lemma roll_wp st v news fs front recs junk pend dl dn
    (Q : loop → W * BlockStore F → Prop) (R : Error → W * BlockStore F → Prop) :
  loop_ok news st v fs front recs junk pend dl dn →
  (∀ st' v', looping news st' v' → append st'.2 = 0 → roll_bytes st'.2 = roll_bytes s0 → Q v' st') →
  (∀ e st', broken st' → R e st') →
  wp (roll_segment v) Q R st.
Proof.
  intros HL HQ HR. unfold roll_segment. apply wp_bind. eapply flush_wp; [exact HL| |exact HR].
  intros w' junk' Hx. apply wp_bind. unfold wp at 1; cbn.
  pose proof (on_disk_next _ _ _ (ex_disk _ _ _ _ Hx)) as Hnext. cbn in Hnext.
  pose proof (lk_files _ _ _ _ _ _ _ _ _ _ HL) as Hfiles.
  apply wp_bind, wp_io, wp_intro. intros w2 r E'.
  destruct (law_open _ _ _ _ E') as (Hnp & Herr & Hok & Hh). split_and!; [done| |].
  - intros f ->. specialize (Hok f eq_refl). rewrite Hnext in Hok. destruct Hok as (Hu & D & Hb & B).
    unfold wp; cbn. unfold wp in HQ; cbn in HQ.
    assert (healthy w' → healthy w2) as Hh' by by intros [? _]%Hh.
    pose proof (extended_push _ _ _ _ _ _ _ Hx Hu D Hb B Hh') as Hx2.
    apply HQ; [|done|apply Hx2].
    exists (files st.2), (front ++ [(recs ++ pend, junk')]), [], [], [], (staged v), news.
    constructor; cbn; try done; [by constructor|by rewrite app_nil_r..|apply HL].
  - intros e ->. apply HR. eapply broken_extended.
    + destruct Hx. constructor; cbn in *; eauto.
      * eapply on_disk_same; [by eapply Herr|done].
      * intros Hw. by destruct (Hh (ex_healthy0 Hw)).
    + apply HL.
    + cbn. rewrite Hfiles. by destruct fs.
    + intros Hw. apply (ex_healthy _ _ _ _ Hx) in Hw. by destruct (Hh Hw).
Qed.

Definition known (id : BlockId) : bool :=
  if rep then readable w0 s0 id else contains_key (index s0) id.

(** After the roll check there is room for the record. *)
Definition room (p : bytes) (news : list (BlockId * bytes)) (v : loop) (st : W * BlockStore F) : Prop :=
  looping news st v ∧ append st.2 + record_len (zlen p) ≤ SEGMENT_MAX.

Lemma room_wp id p news w s v (R : Error → W * BlockStore F → Prop) :
  looping news (w, s) v → zlen p ≤ MAX_PAYLOAD → (∀ e st', broken st' → R e st') →
  wp (if (roll_bytes s <? u64_add (append s) (zlen (encode_record id p))) && (0 <? append s)
      then roll_segment v else mret v) (room p news) R (w, s).
Proof.
  intros (fs & front & recs & junk & pend & dl & dn & HL) Hp HR. pose proof HL as [Hx _ _ Ht Hm _ _ _ _].
  cbn in Hm, Ht. pose proof (zlen_nonneg (enc_all recs)). pose proof (zlen_nonneg (enc_all pend)).
  pose proof (zlen_nonneg p). destruct (record_len_small (zlen p)) as [_ Hr]; [lia|].
  pose proof (ex_roll _ _ _ _ Hx) as Er. cbn in Er. rewrite zlen_encode_record by done.
  rewrite u64_add_small by (unfold SEGMENT_MAX, MAX_PAYLOAD, BLOCK_ALIGN, HEADER_LEN, u64_max in *; lia).
  destruct (_ && _) eqn:Hc.
  - eapply roll_wp; [exact HL| |exact HR]. intros st' v' HL' Ha Hr'. split; [done|].
    rewrite Ha. unfold SEGMENT_MAX, HEADER_LEN, BLOCK_ALIGN in *. lia.
  - apply wp_ret. split; [by do 7 eexists|]. cbn.
    apply andb_false_iff in Hc as [Hc|Hc]; bool_prop; unfold SEGMENT_MAX, HEADER_LEN, BLOCK_ALIGN in *; lia.
Qed.

(** Staging one record. *)
Lemma stage_ok id p news v w s :
  room p news v (w, s) → zlen p ≤ MAX_PAYLOAD → good (id, p) →
  looping (news ++ [(id, p)])
    (w, set_append (u64_add (append s) (zlen (encode_record id p))) s)
    (MkLoop (active v) (staged v ++ [(id, MkLoc (active v).1 (append s) (zlen p))])
       (pending v ++ [(append s, encode_record id p)]) (rolled v)).
Proof.
  intros ((fs & front & recs & junk & pend & dl & dn & [Hx L2 L3 L4 L5 L6 L7 L8 L9 L10]) & Hm) Hp Hid.
  cbn [fst snd] in *.
  rewrite zlen_encode_record by done.
  pose proof (zlen_nonneg (enc_all recs)). pose proof (zlen_nonneg (enc_all pend)). pose proof (zlen_nonneg p).
  destruct (record_len_small (zlen p)) as [_ Hr]; [lia|].
  rewrite u64_add_small by (unfold SEGMENT_MAX, MAX_PAYLOAD, BLOCK_ALIGN, HEADER_LEN, u64_max in *; lia).
  exists fs, front, recs, junk, (pend ++ [(id, p)]), dl, dn. constructor; cbn; auto.
  - destruct Hx. constructor; cbn in *; auto.
  - rewrite L4, enc_all_app, zlen_app. change (enc_all [(id, p)]) with (encode_record id p ++ []).
    rewrite app_nil_r, zlen_encode_record by done. lia.
  - rewrite L6, writes_app, L4 by done. done.
  - apply small_app. split; [done|]. by constructor.
  - rewrite L8, locs_app, <-app_assoc, L3, L4 by done. done.
  - by rewrite L9, app_assoc.
  - apply Forall_app. split; [done|]. by constructor.
Qed.

Lemma looping_same news w s v w' :
  looping news (w, s) v → same_disk w w' → (healthy w → healthy w') → looping news (w', s) v.
Proof.
  intros (fs & front & recs & junk & pend & dl & dn & HL) Hsame Hh.
  exists fs, front, recs, junk, pend, dl, dn.
  destruct HL. constructor; cbn in *; auto. destruct lk_ext0. constructor; cbn in *; auto.
  by eapply on_disk_same.
Qed.

(** The test at the top of the loop. *)
Lemma known_wp id news w s v (R : Error → W * BlockStore F → Prop) :
  looping news (w, s) v →
  wp (present rep id)
    (λ here st, st.2 = s ∧ looping news st v ∧ (rep = false ∨ healthy w0 → here = known id) ∧
       (here = true → contains_key (index s0) id = true)) R (w, s).
Proof.
  intros HL. pose proof HL as (fs & front & recs & junk & pend & dl & dn & HL').
  pose proof (lk_ext _ _ _ _ _ _ _ _ _ _ HL') as Hx.
  pose proof (ex_index _ _ _ _ Hx) as Hix. cbn in Hix. eapply wp_mono.
  { eapply present_wp; [apply (ex_disk _ _ _ _ Hx)|]. rewrite Hix.
    intros i loc Hi. rewrite (ex_locs _ _ _ _ Hx). by apply elem_of_app; left; apply Hs0. }
  2: done.
  intros here [w1 s1] (Es & Hsame & Hh & Hk1 & Hk2 & Hk3). cbn in Es, Hsame, Hh. subst s1.
  split_and!; [done|by eapply looping_same| |by rewrite <-Hix].
  unfold known. destruct rep; [|by rewrite Hk1, Hix].
  intros [|Hw]; [done|]. rewrite Hk2 by (done || by apply (ex_healthy _ _ _ _ Hx)).
  unfold readable. erewrite (view_stable w0 s0 segs0 w s);
    [done|done|apply (ex_disk _ _ _ _ Hx)|apply (ex_index _ _ _ _ Hx)|done
    |apply (ex_locs _ _ _ _ Hx)|apply (ex_recs _ _ _ _ Hx)].
Qed.

(** One payload: skipped, or one more record pending. *)
Lemma append_one_wp id p news st v (Q : loop → W * BlockStore F → Prop)
    (R : Error → W * BlockStore F → Prop) :
  looping news st v → zlen p ≤ MAX_PAYLOAD → good (id, p) →
  (∀ st' v' here, looping (if here || existsb (λ q, bool_decide (q.1 = id)) news
                           then news else news ++ [(id, p)]) st' v' →
     (rep = false ∨ healthy w0 → here = known id) →
     (here = true → contains_key (index s0) id = true) → Q v' st') →
  (∀ e st', broken st' → R e st') →
  wp (append_one rep v id p) Q R st.
Proof.
  intros HL Hp Hid HQ HR. pose proof (looping_ids _ _ _ HL) as Hids. destruct st as [w s].
  unfold append_one. apply wp_bind. eapply wp_mono; [by apply (known_wp id news w s v R)| |done].
  intros here [w1 s1] (Es & HL1 & Hk & Hk'). cbn in Es. subst s1. rewrite (existsb_ids id _ _ Hids).
  specialize (HQ) with (here := here). destruct (here || _) eqn:Hskip.
  { apply wp_ret. by apply HQ. }
  apply wp_bind. unfold wp at 1; cbn. apply wp_bind.
  eapply wp_mono; [by apply (room_wp id p news)| |done].
  intros v' [w' s'] Hroom. unfold wp; cbn. apply HQ; [|done|done]. by apply stage_ok.
Qed.

(** What the loop knows of the records it added. *)
Record new_ok (prepared news : list (BlockId * bytes)) : Prop := {
  nw_exact : rep = false ∨ healthy w0 → news = fresh_recs known prepared;
  nw_nodup : NoDup news.*1;
  nw_from : ∀ r, r ∈ news → r ∈ prepared;
  nw_covers : ∀ r, r ∈ prepared → r.1 ∈ news.*1 ∨ contains_key (index s0) r.1 = true }.

Lemma existsb_false id (l : list (BlockId * bytes)) :
  existsb (λ q, bool_decide (q.1 = id)) l = false → id ∉ l.*1.
Proof.
  intros E Hin. apply list_elem_of_fmap in Hin as (q & -> & Hq).
  apply not_true_iff_false in E. apply E, existsb_exists. exists q.
  split; [by apply list_elem_of_In|by apply bool_decide_eq_true].
Qed.

Lemma new_ok_step prepared news id p here :
  new_ok prepared news → (rep = false ∨ healthy w0 → here = known id) →
  (here = true → contains_key (index s0) id = true) →
  new_ok (prepared ++ [(id, p)])
    (if here || existsb (λ q, bool_decide (q.1 = id)) news then news else news ++ [(id, p)]).
Proof.
  intros [N1 N2 N3 N4] Hk Hk'. constructor.
  - intros Hc. unfold fresh_recs. rewrite foldl_app. cbn. unfold fresh_recs in N1.
    rewrite <-N1 by done. unfold fresh_step. cbn. by rewrite <-Hk.
  - case_goal; [done|]. apply orb_false_iff in E as [_ E]. apply existsb_false in E.
    rewrite fmap_app, NoDup_app. cbn. split_and!; [done| |repeat constructor; set_solver].
    intros i Hi. rewrite list_elem_of_singleton. by intros ->.
  - intros r. case_goal; [intros; apply elem_of_app; left; by apply N3|].
    rewrite !elem_of_app. naive_solver.
  - intros r. rewrite elem_of_app. intros [Hr%N4|Hr%list_elem_of_singleton].
    + case_goal; [done|]. rewrite fmap_app, elem_of_app. tauto.
    + subst r. cbn. destruct here; [by right; apply Hk'|left]. cbn. case_goal.
      * apply existsb_exists in E as (q & Hq & Hqi%bool_decide_eq_true).
        apply list_elem_of_fmap. exists q. split; [done|by apply list_elem_of_In].
      * rewrite fmap_app, elem_of_app. right. cbn. by left.
Qed.

Lemma append_all_wp rest prepared news st v (Q : loop → W * BlockStore F → Prop)
    (R : Error → W * BlockStore F → Prop) :
  looping news st v → new_ok prepared news → Forall (λ r, zlen r.2 ≤ MAX_PAYLOAD) rest → Forall good rest →
  (∀ st' v' news', looping news' st' v' → new_ok (prepared ++ rest) news' → Q v' st') →
  (∀ e st', broken st' → R e st') →
  wp (append_all rep rest v) Q R st.
Proof.
  revert prepared news st v. induction rest as [|[id p] rest IH];
    intros prepared news st v HL HN Hs Hh HQ HR; cbn [append_all].
  - apply wp_ret. rewrite app_nil_r in HQ. by eapply HQ.
  - apply Forall_cons in Hs as [Hp Hs]. apply Forall_cons in Hh as [Hid Hh]. cbn in Hp. apply wp_bind.
    eapply append_one_wp; [exact HL|done|done| |done]. intros st' v' here HL' Hk Hk'.
    eapply (IH (prepared ++ [(id, p)])); [exact HL'|by apply new_ok_step|done|done| |done].
    by rewrite <-app_assoc.
Qed.

(** ** Publishing *)
Lemma publish_view st segs dl dn id :
  on_disk st.1 (files st.2) segs → all_locs 0 segs = all_locs 0 segs0 ++ dl →
  all_recs segs = all_recs segs0 ++ dn → index st.2 = index s0 → NoDup dn.*1 →
  let s' := set_index (insert_all (index st.2) dl) st.2 in
  index_sound (index s') segs ∧
  view st.1 s' id = match (list_to_map dn : gmap BlockId bytes) !! id with
                    | Some p => Some p
                    | None => view w0 s0 id
                    end.
Proof.
  intros E1 E2 E3 E4 Hn s'. pose proof (added_ids _ _ _ E2 E3) as Hids.
  assert (NoDup dl.*1) as Hn' by by rewrite Hids.
  assert (index_sound (index s') segs) as Hs.
  { intros i loc Hi. cbn in Hi. rewrite E2. apply elem_of_app.
    apply insert_all_lookup in Hi as [?|[_ Hi]]; [by right| |done]. rewrite E4 in Hi. auto. }
  split; [done|]. destruct (list_to_map dn !! id) as [p|] eqn:Ep.
  - apply elem_of_list_to_map in Ep; [|done]. apply list_elem_of_lookup_1 in Ep as [k Hk].
    assert (∃ loc, dl !! k = Some (id, loc)) as [loc Hl].
    { assert (dl.*1 !! k = Some id) as Hik by by rewrite Hids, list_lookup_fmap, Hk.
      rewrite list_lookup_fmap in Hik. destruct (dl !! k) as [[i l]|]; [|done].
      cbn in Hik. simplify_eq. eauto. }
    assert (index s' !! id = Some loc) as Hi.
    { cbn. apply insert_all_lookup; [done|]. left. by eapply list_elem_of_lookup_2. }
    assert (length (all_locs 0 segs0) = length (all_recs segs0)) as Hlen by apply length_all_locs.
    destruct (view_spec st.1 s' segs id (length (all_locs 0 segs0) + k) loc) as (q & Hq & ->);
      [done|done|by rewrite E2, lookup_app_r, Nat.add_comm, Nat.add_sub by lia|].
    rewrite E3, Hlen, lookup_app_r, Nat.add_comm, Nat.add_sub, Hk in Hq by lia. congruence.
  - apply not_elem_of_list_to_map in Ep.
    rewrite <-(view_stable w0 s0 segs0 st.1 st.2 segs dl dn id) by done.
    unfold view. cbn. replace (insert_all (index st.2) dl !! id) with (index st.2 !! id); [done|].
    apply option_eq. intros loc. rewrite insert_all_lookup by done. rewrite Hids. split; [auto|].
    intros [Hin|[_ ?]]; [|done]. exfalso. apply Ep. rewrite <-Hids. apply list_elem_of_fmap.
    by exists (id, loc).
Qed.

(** What a successful append did. *)
Record appended (prepared : list (BlockId * bytes)) (st : W * BlockStore F)
    (segs : list segment) (news : list (BlockId * bytes)) : Prop := {
  ap_ok : store_ok st.1 st.2 segs;
  ap_failed : write_failed st.2 = write_failed s0;
  ap_healthy : healthy w0 → healthy st.1;
  ap_new : new_ok prepared news;
  ap_locs : ∃ dl, all_locs 0 segs = all_locs 0 segs0 ++ dl ∧ dl.*1 = news.*1 ∧
    index st.2 = insert_all (index s0) dl;
  ap_recs : all_recs segs = all_recs segs0 ++ news;
  ap_roll : roll_bytes st.2 = roll_bytes s0;
  ap_tidy : tidy segs0 → tidy segs;
  ap_view : ∀ id, view st.1 st.2 id =
    match (list_to_map news : gmap BlockId bytes) !! id with
    | Some p => Some p
    | None => view w0 s0 id
    end;
  ap_good : Forall good news }.

Lemma new_ok_nil : new_ok [] [].
Proof. constructor; [done|constructor|done|]. intros r Hr. by apply elem_of_nil in Hr. Qed.

(** The loop starts with nothing staged. *)
Lemma looping_start fs f :
  files s0 = fs ++ [f] → tail_ok s0 segs0 →
  looping [] (w0, s0) (MkLoop (zlen (files s0) - 1, f) [] [] false).
Proof.
  intros Ef (front & recs & junk & Hsegs & Ht).
  assert (zlen (enc_all recs) ≤ SEGMENT_MAX) as Hm.
  { destruct Hd0 as [S1 _ _ _]. rewrite Ef, Hsegs in S1.
    pose proof (Forall2_length _ _ _ S1) as Hl. rewrite !length_app in Hl. cbn in Hl.
    apply Forall2_app_inv in S1 as [_ S1]; [|lia]. apply Forall2_cons in S1 as [(_ & _ & ?) _]. done. }
  exists fs, front, recs, junk, [], [], []. constructor; cbn [fst snd active pending staged].
  - rewrite <-Hsegs. constructor; cbn; auto; by rewrite app_nil_r.
  - done.
  - rewrite Ef, zlen_app. cbn. rewrite zlen_cons, zlen_nil. lia.
  - rewrite Ht. change (zlen (enc_all [])) with 0. lia.
  - by rewrite Ht.
  - done.
  - constructor.
  - done.
  - done.
  - constructor.
Qed.

Lemma append_body_wp prepared (Q : () → W * BlockStore F → Prop)
    (R : Error → W * BlockStore F → Prop) :
  files s0 ≠ [] → tail_ok s0 segs0 → Forall (λ r, zlen r.2 ≤ MAX_PAYLOAD) prepared → Forall good prepared →
  (∀ st' segs news, appended prepared st' segs news → Q () st') →
  (∀ e st', broken st' → R e st') →
  wp (append_body rep prepared) Q R (w0, s0).
Proof.
  intros Hne Ht Hs Hha HQ HR. destruct (exists_last Hne) as (fs & f & Ef).
  unfold append_body. apply wp_bind. unfold wp at 1; cbn. rewrite Ef, last_snoc, <-Ef.
  apply wp_bind. eapply append_all_wp; [by eapply looping_start|apply new_ok_nil|done|done| |done].
  intros st v news (fs' & front & recs & junk & pend & dl & dn & HL) HN. cbn [app] in HN.
  apply wp_bind. eapply flush_wp; [exact HL| |done]. intros w' junk' Hx.
  pose proof (lk_files _ _ _ _ _ _ _ _ _ _ HL) as Hf. pose proof (lk_tail _ _ _ _ _ _ _ _ _ _ HL) as Htl.
  assert (∀ w2, same_disk w' w2 → (healthy w' → healthy w2) →
    Q () (w2, set_index (insert_all (index st.2) (staged v)) st.2)) as Hpub.
  { intros w2 Hsame Hh.
    assert (extended (w2, st.2) (front ++ [(recs ++ pend, junk')]) (staged v) news) as Hx2.
    { destruct Hx. constructor; cbn in *; auto. by eapply on_disk_same. }
    pose proof Hx2 as [X1 X2 X3 X4 X5 X6 X7 X8].
    pose proof (λ id, publish_view _ _ _ _ id X1 X2 X3 X4 (nw_nodup _ _ HN)) as Hpv. cbn in *.
    eapply (HQ _ (front ++ [(recs ++ pend, junk')]) news). constructor; cbn; auto.
    - constructor; cbn; auto.
      + apply (Hpv (block_of [])).
      + intros _. exists front, (recs ++ pend), junk'. split; [done|].
        by rewrite enc_all_app, zlen_app.
      + by rewrite X5.
      + rewrite Hf. by destruct fs'.
    - exists (staged v). split_and!; [done|by eapply extended_ids|by rewrite X4].
    - intros id. apply Hpv.
    - apply HL. }
  apply wp_bind. destruct (rolled v).
  - apply wp_io, wp_intro. intros w2 r E'. destruct (law_sync_dir _ _ _ E') as (Hsame & Hnp & Hh).
    split_and!; [done| |].
    + intros [] ->. unfold wp; cbn. apply Hpub; [done|]. by intros [? _]%Hh.
    + intros e ->. apply HR. eapply broken_extended.
      * destruct Hx. constructor; cbn in *; eauto; [by eapply on_disk_same|].
        intros Hw. by destruct (Hh (ex_healthy0 Hw)).
      * apply HL.
      * cbn. rewrite Hf. by destruct fs'.
      * intros Hw. apply (ex_healthy _ _ _ _ Hx) in Hw. by destruct (Hh Hw).
  - unfold wp; cbn. apply Hpub; [done|auto].
Qed.

End Loop.

(** ** [put_many_inner] *)

(** The records of a batch, under their hashes. *)
Definition of_batch (payloads : list bytes) (r : BlockId * bytes) : Prop := block_of r.2 = r.1 ∧ r.2 ∈ payloads.
Lemma put_many_inner_wp payloads rep w s segs :
  store_ok w s segs → Forall (λ p, zlen p ≤ MAX_PAYLOAD) payloads →
  wp (put_many_inner payloads rep)
    (λ ids st, ids = block_of <$> payloads ∧ write_failed s = false ∧
       ∃ segs' news, appended rep w s segs (of_batch payloads) ((λ p, (block_of p, p)) <$> payloads) st segs' news)
    (λ e st, if write_failed s
             then st = (w, s) ∧ e = Io (io_other
               "append failed previously; restart storage before further writes")
             else write_failed st.2 = true ∧ broken w s segs (of_batch payloads) st)
    (w, s).
Proof.
  intros Hok Hp. unfold put_many_inner. apply wp_bind. unfold wp at 1; cbn.
  destruct (write_failed s) eqn:Hf; [by apply wp_throw|].
  set (prepared := (λ p, (block_of p, p)) <$> payloads).
  assert (Forall (λ r : BlockId * bytes, zlen r.2 ≤ MAX_PAYLOAD) prepared) as Hs.
  { subst prepared. apply Forall_fmap. eapply Forall_impl; [exact Hp|]. done. }
  pose proof (append_body_wp rep w s segs (so_disk _ _ _ Hok) (so_index _ _ _ Hok) (so_roll _ _ _ Hok)
    (of_batch payloads) prepared (λ _ st, ∃ segs' news, appended rep w s segs (of_batch payloads) prepared st segs' news)
    (λ _ st, broken w s segs (of_batch payloads) st) (so_files _ _ _ Hok) (so_tail _ _ _ Hok Hf) Hs) as Hb.
  specialize (Hb ltac:(by apply Forall_fmap, Forall_forall)).
  apply wp_bind. unfold wp, attempt in *.
  destruct (append_body rep prepared (w, s)) as [[w' s'] [[]|e|]]; cbn in *.
  - split_and!; [|done|by apply Hb; eauto]. subst prepared. by rewrite <-list_fmap_compose.
  - split; [done|]. destruct Hb as (sg & dl & dn & ?); [by eauto|by auto|]. exists sg, dl, dn. done.
  - apply Hb; by eauto.
Qed.

End Append.
