(* ===== verification/StoreTheorems.v ===== *)
(** * What the block store promises

    The store refines a map from block ids to bytes: [put] adds a block if its
    id is new, [get] looks it up, [repair] replaces a record that rotted.  A
    failed append leaves every published block readable and refuses further
    writes. *)

From S2P Require Import Prelude Core Io Segment Store StoreInvariant StorePut.
From Stdlib Require Import Strings.Byte.

(** ** The abstract store *)
Section Abstract.
Context `{Blake3}.

Abbreviation amap := (BlockId → option bytes) (only parsing).

(** Store a payload under its hash unless that hash is taken. *)
Definition abs_put (m : amap) (p : bytes) : amap := λ id,
  match m id with
  | Some q => Some q
  | None => if decide (block_of p = id) then Some p else None
  end.

Definition abs_get (m : amap) (id : BlockId) : res Error bytes :=
  match m id with
  | Some p => if block_verify id p then Ok p else Err (Corrupt id)
  | None => Err (BlockNotFound id)
  end.

Lemma abs_put_ext (m1 m2 : amap) ps id :
  (∀ i, m1 i = m2 i) → foldl abs_put m1 ps id = foldl abs_put m2 ps id.
Proof.
  revert m1 m2. induction ps as [|p ps IH]; intros m1 m2 Hm; [apply Hm|]. cbn. apply IH.
  intros i. unfold abs_put. by rewrite Hm.
Qed.

(** The records a batch adds, as a map update. *)
Lemma fresh_recs_abs (kn : BlockId → bool) (m : amap) payloads id :
  (∀ i, kn i = true ↔ is_Some (m i)) →
  let news := fresh_recs kn ((λ p, (block_of p, p)) <$> payloads) in
  NoDup news.*1 ∧
  match (list_to_map news : gmap BlockId bytes) !! id with Some p => Some p | None => m id end
  = foldl abs_put m payloads id ∧
  (∀ i, i ∈ news.*1 → m i = None).
Proof.
  intros Hk. induction payloads as [|p payloads IH] using rev_ind; cbn zeta.
  { cbn. split_and!; [constructor|done|]. intros i Hi. by apply not_elem_of_nil in Hi. }
  destruct IH as (Hn & Hv & Hnone). unfold fresh_recs in *. rewrite fmap_app, !foldl_app. cbn [fmap list_fmap foldl].
  set (news := foldl (fresh_step kn) [] _) in *. unfold fresh_step. cbn [fst].
  unfold abs_put at 1. rewrite <-Hv. destruct (_ || _) eqn:E.
  - split_and!; [done| |done]. destruct (list_to_map news !! id) as [q|] eqn:Eq; [done|].
    destruct (m id) as [q|] eqn:Em; [done|]. case_decide as Hid; [|done]. subst id. exfalso.
    apply orb_true_iff in E as [E|E].
    + apply Hk in E as [? E]. congruence.
    + apply not_elem_of_list_to_map in Eq. apply Eq, list_elem_of_fmap.
      apply existsb_exists in E as (q & Hin & Hq). apply bool_decide_eq_true in Hq. exists q.
      split; [done|]. by apply list_elem_of_In.
  - apply orb_false_iff in E as [Ek Ee]. apply existsb_false in Ee. split_and!.
    + rewrite fmap_app, NoDup_app. cbn. split_and!; [done| |repeat constructor; set_solver].
      intros i Hi. rewrite list_elem_of_singleton. by intros ->.
    + rewrite list_to_map_app, lookup_union. cbn.
      destruct (list_to_map news !! id) as [q|] eqn:Eq; [by rewrite union_Some_l|].
      rewrite option_union_left_id. destruct (decide (block_of p = id)) as [<-|Hne].
      * rewrite lookup_insert_eq. destruct (m (block_of p)) as [q|] eqn:Em; [|done].
        exfalso. apply not_true_iff_false in Ek. apply Ek, Hk. eauto.
      * rewrite lookup_insert_ne, lookup_empty by done. by destruct (m id).
    + intros i. rewrite fmap_app, elem_of_app. cbn. rewrite list_elem_of_singleton.
      intros [Hi| ->]; [auto|]. destruct (m (block_of p)) eqn:Em; [|done].
      exfalso. apply not_true_iff_false in Ek. apply Ek, Hk. eauto.
Qed.

End Abstract.

Section Theorems.
Context {W F : Type} `{SegmentIoLaws W F, Blake3, HashOrder}.

(** An indexed id has bytes on disk. *)
Lemma contains_view w s segs id :
  store_ok w s segs → contains_key (index s) id = true ↔ is_Some (view w s id).
Proof.
  intros [Hd Hs _ _ _]. split.
  - intros [loc Hi]%contains_key_true. destruct (list_elem_of_lookup_1 _ _ (Hs _ _ Hi)) as [k Hk].
    destruct (view_spec _ _ _ _ _ _ Hd Hi Hk) as (p & _ & ->). eauto.
  - unfold view. intros [p Hp]. apply contains_key_true. destruct (index s !! id); [eauto|done].
Qed.

(** [get] is lookup in the abstract map: on a responsive device it returns
    the stored bytes exactly when they hash to the id, reports a record that
    does not as corrupt and an unindexed id as missing; it never panics and
    changes nothing. *)
Theorem get_refines_lookup id w s segs :
  store_ok w s segs → healthy w →
  ∃ w', get id (w, s) = ((w', s), abs_get (view w s) id) ∧ same_disk w w' ∧ healthy w'.
Proof.
  intros Hok Hw. pose proof (get_wp id w s segs (so_disk _ _ _ Hok) (so_index _ _ _ Hok)) as Hg.
  unfold wp in Hg. unfold abs_get. destruct (get id (w, s)) as [[w' s'] [p|e|]]; [| |done];
    destruct Hg as (Es & Hsame & Hh & Hc); cbn in *; subst; exists w'.
  - destruct Hc as [-> Hp]. by rewrite (proj2 (block_verify_spec _ _) Hp); auto.
  - destruct Hc as [[-> ->]|[(-> & p & -> & Hp)|(? & _)]]; [by auto| |done].
    by rewrite (proj2 (block_verify_false _ _) Hp); auto.
Qed.

(** C7. [put_many] refines the abstract map: on a store that accepts writes
    and a responsive device it returns the hashes in input order, and
    afterwards the store holds exactly what inserting the payloads one by one,
    each under its hash unless taken, gives; duplicates inside the batch and
    blocks already present are written once. *)
Theorem put_many_refines_insert payloads w s segs :
  store_ok w s segs → write_failed s = false → healthy w →
  Forall (λ p, zlen p ≤ MAX_PAYLOAD) payloads →
  ∃ w' s' segs', put_many payloads (w, s) = ((w', s'), Ok (block_of <$> payloads)) ∧
    store_ok w' s' segs' ∧ write_failed s' = false ∧ healthy w' ∧
    ∀ id, view w' s' id = foldl abs_put (view w s) payloads id.
Proof.
  intros Hok Hf Hw Hp. pose proof (put_many_inner_wp payloads false w s segs Hok Hp) as Hm.
  unfold put_many. unfold wp in Hm.
  destruct (put_many_inner payloads false (w, s)) as [[w' s'] [ids|e|]]; [| |done].
  - destruct Hm as (-> & _ & segs' & news & [A1 A2 A3 [N1 _ _ _] _ _ _ _ A8]). cbn in *.
    exists w', s', segs'. split_and!; auto; [congruence|]. intros id. rewrite A8, N1 by by left.
    apply fresh_recs_abs. intros i. by eapply contains_view.
  - rewrite Hf in Hm. destruct Hm as (_ & sg & dl & dn & _ & _ & _ & _ & _ & _ & Hn & _). done.
Qed.

(** What a failed append leaves behind. *)
Lemma broken_store_ok w s segs good st :
  store_ok w s segs → write_failed st.2 = true → broken w s segs good st →
  (∃ segs', store_ok st.1 st.2 segs') ∧ index st.2 = index s ∧
  ∀ id, view st.1 st.2 id = view w s id.
Proof.
  intros Hok Hwf (sg & dl & dn & X1 & X2 & X3 & X4 & X5 & X6 & _). split_and!; [|done|].
  - exists sg. constructor; auto.
    + rewrite X4. intros i loc Hi. rewrite X2. apply elem_of_app. left. by apply (so_index _ _ _ Hok).
    + by rewrite Hwf.
    + rewrite X5. apply Hok.
  - intros id. eapply (view_stable w s segs); eauto using so_disk, so_index.
Qed.

(** C8. A failed append fails closed.  Whatever the device did (any operation
    of the batch may fail, a write after any prefix), if [put_many] returns an
    error then every block readable before has the same bytes, nothing new is
    published, the store is still well-formed and refuses writes; and every
    further [put_many] returns an error without touching the disk. *)
Theorem failed_put_fails_closed payloads w s segs w' s' e more :
  store_ok w s segs → Forall (λ p, zlen p ≤ MAX_PAYLOAD) payloads →
  put_many payloads (w, s) = ((w', s'), Err e) →
  (∃ segs', store_ok w' s' segs') ∧ (∀ id, view w' s' id = view w s id) ∧
  index s' = index s ∧ write_failed s' = true ∧
  ∃ e', put_many more (w', s') = ((w', s'), Err e').
Proof.
  intros Hok Hp E. pose proof (put_many_inner_wp payloads false w s segs Hok Hp) as Hm.
  unfold put_many in *. unfold wp in Hm. rewrite E in Hm.
  assert (write_failed s' = true → ∃ e', put_many_inner more false (w', s') = ((w', s'), Err e')) as Hno.
  { intros Hf. unfold put_many_inner, mbind, ST_bind. cbn. rewrite Hf. eexists. reflexivity. }
  destruct (write_failed s) eqn:Hf.
  - destruct Hm as [[= -> ->] ->]. split_and!; eauto.
  - destruct Hm as [Hwf Hb]. destruct (broken_store_ok w s segs _ (w', s') Hok Hwf Hb) as (? & ? & ?).
    cbn in *. split_and!; auto.
Qed.

(** [repair] heals a damaged block: when the indexed bytes of [id] do not
    hash to it, and [payload] does, repairing appends a new record, after
    which [get id] returns [payload]; every other block keeps its bytes.  A
    payload with another hash is refused, with no change. *)
Theorem repair_heals_damage id payload w s segs bad :
  store_ok w s segs → write_failed s = false → healthy w → zlen payload ≤ MAX_PAYLOAD →
  view w s id = Some bad → block_of bad ≠ id →
  (block_of payload ≠ id → repair id payload (w, s) = ((w, s), Err (Corrupt id))) ∧
  (block_of payload = id →
   ∃ w' s' segs', repair id payload (w, s) = ((w', s'), Ok id) ∧ store_ok w' s' segs' ∧
     healthy w' ∧ view w' s' id = Some payload ∧
     ∀ i, i ≠ id → view w' s' i = view w s i).
Proof.
  intros Hok Hf Hw Hp Hv Hbad. split; unfold repair.
  { intros Hne. by rewrite (proj2 (block_verify_false _ _) Hne). }
  intros Heq. rewrite (proj2 (block_verify_spec _ _) Heq). cbn [negb].
  pose proof (put_many_inner_wp [payload] true w s segs Hok ltac:(by repeat constructor)) as Hm.
  unfold wp in Hm. unfold mbind, ST_bind.
  destruct (put_many_inner [payload] true (w, s)) as [[w' s'] [ids|e|]]; [| |done].
  - destruct Hm as (-> & _ & segs' & news & [A1 A2 A3 [N1 _ _ _] _ _ _ _ A8]). cbn in *.
    assert (news = [(id, payload)]) as ->.
    { rewrite N1 by by right. unfold fresh_recs, fresh_step, known, readable. cbn.
      by rewrite Heq, Hv, (proj2 (block_verify_false _ _) Hbad). }
    exists w', s', segs'. split_and!; auto.
    + by rewrite Heq.
    + rewrite A8. cbn. by rewrite lookup_insert_eq.
    + intros i Hi. rewrite A8. cbn. by rewrite lookup_insert_ne.
  - rewrite Hf in Hm. destruct Hm as (_ & sg & dl & dn & _ & _ & _ & _ & _ & _ & Hn & _). done.
Qed.

End Theorems.
