(* ===== verification/StoreOpen.v ===== *)
(** * Opening a store

    [open_with] rebuilds the index by scanning the segments.  Reopening a
    store after a clean shutdown, or after a crash in the middle of an append,
    gives back every acknowledged block. *)

From S2P Require Import Prelude Core Io Segment Store StoreInvariant StorePut StoreTheorems.
From Stdlib Require Import Strings.Byte.

Lemma seqZ_sorted m n : Sorted Z.le (seqZ m n).
Proof.
  destruct (decide (0 ≤ n)) as [Hn|Hn]; [|by rewrite seqZ_nil by lia].
  revert m. pattern n. apply natlike_ind; [|clear n Hn; intros n Hn IH m|done].
  - intros m. by rewrite seqZ_nil.
  - rewrite seqZ_cons, Z.pred_succ by lia. constructor; [done|].
    destruct (decide (0 < n)); [|rewrite seqZ_nil by lia; constructor].
    rewrite seqZ_cons by lia. constructor. lia.
Qed.

Lemma seg_ids_elem names i : i ∈ seg_ids names ↔ SegName i ∈ names.
Proof.
  unfold seg_ids. rewrite merge_sort_Permutation, list_elem_of_omap. split.
  - intros (n & Hn & E). destruct n; by simplify_eq.
  - intros Hn. by exists (SegName i).
Qed.

Lemma seg_ids_nodup names : NoDup names → NoDup (seg_ids names).
Proof.
  unfold seg_ids. rewrite merge_sort_Permutation. induction 1 as [|n l Hn _ IH]; [constructor|].
  cbn. destruct n as [i| |]; [|done|done]. constructor; [|done].
  rewrite list_elem_of_omap. intros (m & Hm & E). destruct m; by simplify_eq.
Qed.

(** Numbers [0 .. n - 1], each present once. *)
Lemma seg_ids_range names n :
  0 ≤ n → NoDup names → (∀ i, SegName i ∈ names ↔ 0 ≤ i < n) → seg_ids names = seqZ 0 n.
Proof.
  intros Hn Hd Hin. apply (Sorted_unique Z.le).
  - apply Sorted_merge_sort, _.
  - apply seqZ_sorted.
  - apply NoDup_Permutation; [by apply seg_ids_nodup|apply NoDup_seqZ|].
    intros i. rewrite seg_ids_elem, Hin, elem_of_seqZ. lia.
Qed.

Section Open.
Context {W F : Type} `{SegmentIoLaws W F, Blake3, HashOrder}.

(** Where the last segment of a list ends. *)
Definition tail_of (segs : list segment) (tail : Z) : Z :=
  match last segs with Some sg => zlen (enc_all sg.1) | None => tail end.

Lemma open_segments_wp fs0 fs segs0 segs ix tail (w w0 : W)
    (Q : gmap BlockId Location * list F * Z → W → Prop) (R : io_error → W → Prop) :
  on_disk w (fs0 ++ fs) (segs0 ++ segs) → length fs0 = length segs0 → Forall scannable segs →
  (healthy w0 → healthy w) → same_disk w0 w →
  (∀ w', same_disk w0 w' → (healthy w0 → healthy w') →
     Q (insert_all ix (all_locs (zlen fs0) segs), fs0 ++ fs, tail_of segs tail) w') →
  (∀ e w', same_disk w0 w' → ¬ healthy w0 → R e w') →
  wp (open_segments (seqZ (zlen fs0) (zlen fs)) ix fs0 tail) Q R w.
Proof.
  revert fs0 segs0 segs ix tail w. induction fs as [|f fs IH];
    intros fs0 segs0 segs ix tail w Hd Hlen Hsc Hw Hsame HQ HR.
  { rewrite seqZ_nil by (rewrite zlen_nil; lia). apply wp_ret.
    pose proof (on_disk_length _ _ _ Hd) as El. rewrite app_nil_r, length_app in El.
    destruct segs; [|cbn in El; lia]. rewrite app_nil_r in *. by apply HQ. }
  rewrite seqZ_cons, zlen_cons by (rewrite zlen_cons; pose proof (zlen_nonneg fs); lia).
  pose proof (on_disk_length _ _ _ Hd) as El. rewrite !length_app in El. cbn in El.
  destruct segs as [|[recs junk] segs]; [cbn in El; lia|].
  apply Forall_cons in Hsc as [[Hi Hmax] Hsc]. cbn [fst snd] in *.
  assert (dir_of w !! SegName (zlen fs0) = Some f) as Hdir.
  { apply (od_dir _ _ _ Hd). by rewrite lookup_app_r, Nat.sub_diag by lia. }
  assert (segment_ok w f (recs, junk)) as (Hb & Hs & _).
  { eapply (Forall2_lookup_lr _ _ _ (length fs0) _ _ (od_segs _ _ _ Hd)).
    - by rewrite lookup_app_r, Nat.sub_diag by lia.
    - by rewrite lookup_app_r, Hlen, Nat.sub_diag by lia. }
  cbn [fst snd] in *. cbn [open_segments]. apply wp_bind, wp_intro. intros w1 r E'.
  destruct (law_open _ _ _ _ E') as (Hnp & Herr & Hok & Hh). split_and!; [done| |].
  2: { intros e ->. apply HR; [etrans; [done|by eapply Herr]|]. intros Hh0. by destruct (Hh (Hw Hh0)). }
  intros f' ->. specialize (Hok f' eq_refl). rewrite Hdir in Hok. destruct Hok as [-> Hsame1].
  apply wp_bind, wp_intro. intros w2 r E2.
  destruct (scan_spec _ _ _ _ _ E2) as (Hsame2 & Hnp2 & Hx & Hh2).
  pose proof Hsame1 as [_ B1]. rewrite B1, Hb in Hx, Hh2. split_and!; [done| |].
  2: { intros e ->. apply HR; [transitivity w; [done|]; by transitivity w1|]. intros Hh0.
       destruct (Hh2 (proj1 (Hh (Hw Hh0))) Hmax) as [_ ?]. done. }
  intros x ->. rewrite (Hx x eq_refl), scan_bytes_segment by done.
  replace (Z.succ (zlen fs0)) with (zlen (fs0 ++ [f])) by (rewrite zlen_app; zl).
  replace (Z.pred (1 + zlen fs)) with (zlen fs) by lia.
  assert (same_disk w w2) as Hsw by by transitivity w1.
  eapply (IH _ (segs0 ++ [(recs, junk)]) segs).
  - rewrite <-!app_assoc. by eapply on_disk_same.
  - rewrite !length_app. cbn. lia.
  - done.
  - intros Hh0. by apply Hh2; [apply Hh, Hw|].
  - by transitivity w.
  - intros w' Hsame' Hh'. specialize (HQ w' Hsame' Hh'). cbn [all_locs] in HQ.
    rewrite insert_all_app in HQ. rewrite <-app_assoc. cbn [app].
    replace (zlen (fs0 ++ [f])) with (zlen fs0 + 1) by (rewrite zlen_app; zl).
    unfold tail_of in *. rewrite last_cons in HQ. by destruct (last segs).
  - done.
Qed.

(** The index holds every record of the segments, the latest for each id. *)
Definition exact (s : BlockStore F) (segs : list segment) : Prop :=
  index s = insert_all ∅ (all_locs 0 segs).

Lemma insert_all_elem l m id loc :
  insert_all m l !! id = Some loc → (id, loc) ∈ l ∨ m !! id = Some loc.
Proof.
  induction l as [|[i x] l IH] using rev_ind; [auto|].
  rewrite insert_all_app. cbn. rewrite elem_of_app, list_elem_of_singleton.
  intros [[-> ->]|[_ Hl]]%lookup_insert_Some; [by auto|]. destruct (IH Hl); auto.
Qed.

Lemma exact_sound s segs : exact s segs → index_sound (index s) segs.
Proof.
  intros -> id loc Hi. apply insert_all_elem in Hi as [?|Hi]; [done|]. by rewrite lookup_empty in Hi.
Qed.

Lemma on_disk_names w fs segs (names : list fname) :
  on_disk w fs segs → NoDup names → (∀ p, p ∈ names ↔ is_Some (dir_of w !! p)) →
  seg_ids names = seqZ 0 (zlen fs).
Proof.
  intros Hd Hn Hin. apply seg_ids_range; [apply zlen_nonneg|done|]. intros i. rewrite Hin. split.
  - intros Hi. pose proof (od_only _ _ _ Hd _ Hi) as Hp. destruct Hi as [f Hf].
    replace i with (Z.of_nat (Z.to_nat i)) in Hf by lia.
    apply (od_dir _ _ _ Hd), lookup_lt_Some in Hf. unfold zlen. lia.
  - intros Hi. destruct (lookup_lt_is_Some_2 fs (Z.to_nat i)) as [f Hf]; [unfold zlen in Hi; lia|].
    apply (od_dir _ _ _ Hd) in Hf. rewrite Z2Nat.id in Hf by lia. eauto.
Qed.

(** Opening a directory of well-formed segments. *)
Lemma open_wp w fs segs :
  on_disk w fs segs → Forall scannable segs → fs ≠ [] →
  wp open_with
    (λ s w', same_disk w w' ∧ (healthy w → healthy w') ∧ files s = fs ∧ exact s segs ∧
             append s = tail_of segs 0 ∧ write_failed s = false ∧ store_ok w' s segs)
    (λ e w', same_disk w w' ∧ ¬ healthy w) w.
Proof.
  intros Hd Hsc Hne. unfold open_with. apply wp_bind, wp_intro. intros w1 r E'.
  destruct (law_list _ _ _ E') as (Hsame & Hnp & Hok & Hh). split_and!; [done| |].
  2: { intros e ->. split; [done|]. intros Hw. by destruct (Hh Hw). }
  intros names ->. destruct (Hok names eq_refl) as [Hn Hin].
  rewrite (on_disk_names w fs segs names Hd Hn Hin). apply wp_bind.
  eapply (open_segments_wp [] fs [] segs ∅ 0 w1 w); [by eapply on_disk_same|done|done| |done| |].
  - intros Hw. by destruct (Hh Hw).
  - intros w' Hsame' Hh'. cbn [app]. rewrite bool_decide_eq_false_2 by done. apply wp_ret. cbn.
    change (zlen (@nil F)) with 0. split_and!; auto; [done|]. constructor; cbn; auto.
    + by eapply on_disk_same.
    + by apply (exact_sound (MkStore (insert_all ∅ (all_locs 0 segs)) fs 0 0 false)).
    + intros _. pose proof (on_disk_length _ _ _ Hd) as El.
      destruct (decide (segs = [])) as [->|Hs]; [by destruct fs|].
      destruct (exists_last Hs) as (front & [recs junk] & ->). exists front, recs, junk. cbn.
      split; [done|]. unfold tail_of. by rewrite last_snoc.
    + unfold DEFAULT_SEGMENT_ROLL_BYTES, MAX_PAYLOAD. lia.
  - intros e w' Hsame' Hh'. done.
Qed.

(** A store nobody tampered with: what a sequence of successful operations
    from an empty directory gives. *)
Record clean (w : W) (s : BlockStore F) (segs : list segment) : Prop := {
  cl_ok : store_ok w s segs;
  cl_exact : exact s segs;
  cl_tidy : tidy segs;
  cl_accepts : write_failed s = false;
  cl_healthy : healthy w }.

(** A store that opening its files would find again: every record has its
    hash, nothing behind the records scans as one, and there are such bytes
    only after a failed append. *)
Definition sound_segs (s : BlockStore F) (segs : list segment) : Prop :=
  Forall scannable segs ∧ hashed (all_recs segs) ∧ (write_failed s = false → tidy segs).
Definition durable (w : W) (s : BlockStore F) : Prop := ∃ segs, store_ok w s segs ∧ sound_segs s segs.

Lemma put_many_clean payloads w s segs :
  clean w s segs → Forall (λ p, zlen p ≤ MAX_PAYLOAD) payloads →
  ∃ w' s' segs', put_many payloads (w, s) = ((w', s'), Ok (block_of <$> payloads)) ∧
    clean w' s' segs' ∧ ∀ id, view w' s' id = foldl abs_put (view w s) payloads id.
Proof.
  intros [Hok Hex Ht Hf Hw] Hp. pose proof (put_many_inner_wp payloads false w s segs Hok Hp) as Hm.
  unfold put_many. unfold wp in Hm.
  destruct (put_many_inner payloads false (w, s)) as [[w' s'] [ids|e|]]; [| |done].
  - destruct Hm as (-> & _ & segs' & news & [A1 A2 A3 [N1 _ _ _] (dl & L1 & _ & L3) _ _ A7 A8]).
    cbn in *. exists w', s', segs'. split; [done|]. split.
    + constructor; auto; [|congruence]. unfold exact in *. by rewrite L3, L1, insert_all_app, Hex.
    + intros id. rewrite A8, N1 by by left. apply fresh_recs_abs. intros i. by eapply contains_view.
  - rewrite Hf in Hm. destruct Hm as (_ & sg & dl & dn & _ & _ & _ & _ & _ & _ & Hn & _). done.
Qed.

(** Reopening finds the files and the index it left. *)
Lemma reopen_clean w s segs :
  clean w s segs →
  ∃ w' s', open_with w = (w', Ok s') ∧ clean w' s' segs ∧ ∀ id, view w' s' id = view w s id.
Proof.
  intros [Hok Hex Ht Hf Hw]. pose proof Hok as [Hd _ _ _ Hne].
  pose proof (open_wp w (files s) segs Hd (tidy_scannable _ _ _ Hd Ht) Hne) as Ho. unfold wp in Ho.
  destruct (open_with w) as [w' [s'|e|]]; [|by destruct Ho|done].
  destruct Ho as (Hsame & Hh & Ef & Hex' & Ha & Hf' & Hok'). exists w', s'.
  split; [done|]. split; [constructor; auto|]. intros id. unfold view. rewrite Ef.
  unfold exact in *. rewrite Hex', <-Hex. apply (view_same w w' s id Hsame).
Qed.

(** Opening an empty directory. *)
Lemma open_empty w :
  dir_of w = ∅ → healthy w →
  ∃ w' s', open_with w = (w', Ok s') ∧ clean w' s' [([], [])] ∧ ∀ id, view w' s' id = None.
Proof.
  intros Hd Hw. unfold open_with, mbind, ST_bind.
  destruct (fs_list w) as [w1 r1] eqn:E1. destruct (law_list _ _ _ E1) as ([D1 B1] & _ & Hok & Hh1).
  destruct (Hh1 Hw) as [Hw1 Hr1]. destruct r1 as [names| |]; try done.
  destruct (Hok names eq_refl) as [_ Hin]. assert (names = []) as ->.
  { destruct names as [|n l]; [done|]. destruct (proj1 (Hin n) ltac:(by left)) as [f Hf].
    by rewrite Hd, lookup_empty in Hf. }
  cbn -[b_open fs_sync_dir]. destruct (b_open (SegName 0) w1) as [w2 r2] eqn:E2.
  destruct (law_open _ _ _ _ E2) as (_ & _ & Hf & Hh2). destruct (Hh2 Hw1) as [Hw2 Hr2].
  destruct r2 as [f| |]; try done. specialize (Hf f eq_refl). rewrite D1, Hd, lookup_empty in Hf.
  destruct Hf as (Hu & D2 & B2 & B2').
  destruct (fs_sync_dir w2) as [w3 r3] eqn:E3. destruct (law_sync_dir _ _ _ E3) as (Hs3 & _ & Hh3).
  destruct (Hh3 Hw2) as [Hw3 ->]. cbn. eexists w3, _. split; [done|].
  assert (on_disk w3 [f] [([], [])]) as Hdisk.
  { eapply on_disk_same; [exact Hs3|].
    apply (on_disk_push w1 w2 [] [] f); [|done|by rewrite D2, D1, Hd|done|done].
    constructor; rewrite ?D1, ?Hd; [constructor|..].
    - intros i g. by rewrite lookup_nil, lookup_empty.
    - intros n [? Hn]. by rewrite lookup_empty in Hn.
    - intros p q g Hp. by rewrite lookup_empty in Hp. }
  split; [|done]. constructor; cbn; try done; [|by repeat constructor].
  constructor; cbn; try done. by intros _; exists [], [], [].
Qed.

(** A sequence of batches, the store being closed and reopened after each. *)
Fixpoint serve (batches : list (list bytes)) (w : W) : W * res Error (BlockStore F) :=
  match batches with
  | [] => let (w, r) := open_with w in (w, map_err Io r)
  | b :: batches =>
      match open_with w with
      | (w, Ok s) => match put_many b (w, s) with
                     | ((w, s), Ok _) => serve batches w
                     | ((w, s), Err e) => (w, Err e)
                     | ((w, s), Panic) => (w, Panic)
                     end
      | (w, Err e) => (w, Err (Io e))
      | (w, Panic) => (w, Panic)
      end
  end.

Lemma serve_clean batches w s segs w0 :
  clean w s segs → open_with w0 = (w, Ok s) →
  Forall (Forall (λ p, zlen p ≤ MAX_PAYLOAD)) batches →
  ∃ w' s' segs', serve batches w0 = (w', Ok s') ∧ clean w' s' segs' ∧
    ∀ id, view w' s' id = foldl abs_put (view w s) (concat batches) id.
Proof.
  revert w s segs w0. induction batches as [|b batches IH]; intros w s segs w0 Hc Eo Hs; cbn [serve].
  - rewrite Eo. by exists w, s, segs.
  - apply Forall_cons in Hs as [Hb Hs]. rewrite Eo.
    destruct (put_many_clean b w s segs Hc Hb) as (w1 & s1 & segs1 & -> & Hc1 & Hv1).
    destruct (reopen_clean _ _ _ Hc1) as (w2 & s2 & Eo2 & Hc2 & Hv2).
    destruct (IH w2 s2 segs1 w1 Hc2 Eo2 Hs) as (w3 & s3 & segs3 & E3 & Hc3 & Hv3).
    exists w3, s3, segs3. split_and!; [done|done|]. intros id. rewrite Hv3. cbn [concat].
    rewrite foldl_app. apply abs_put_ext. intros i. by rewrite Hv2, Hv1.
Qed.

(** The store survives restarts.  Starting from an empty directory on a
    responsive device, every batch is accepted, and opening the store again
    after any number of batches, each written by a freshly opened store, gives
    a store whose contents are exactly the payloads of all batches, each under
    its hash. *)
Theorem store_survives_restarts batches w :
  dir_of w = ∅ → healthy w → Forall (Forall (λ p, zlen p ≤ MAX_PAYLOAD)) batches →
  ∃ w' s segs, serve batches w = (w', Ok s) ∧ store_ok w' s segs ∧
    ∀ id, view w' s id = foldl abs_put (λ _, None) (concat batches) id.
Proof.
  intros Hd Hw Hs. destruct (open_empty w Hd Hw) as (w1 & s1 & Eo & Hc & Hv).
  destruct (serve_clean batches w1 s1 _ w Hc Eo Hs) as (w2 & s2 & segs2 & E2 & Hc2 & Hv2).
  exists w2, s2, segs2. split_and!; [done|apply Hc2|]. intros id. rewrite Hv2. by apply abs_put_ext.
Qed.

(** Some prefix of the records and nothing a scan would take for more. *)
Lemma torn_on_disk w w' fs f front recs junk new k :
  on_disk w (fs ++ [f]) (front ++ [(recs, junk)]) → only_file f w w' → small new →
  zlen (enc_all recs) + zlen (enc_all new) ≤ SEGMENT_MAX →
  bytes_of w' f = enc_all recs ++ take k (enc_all new) →
  ∃ j junk', on_disk w' (fs ++ [f]) (front ++ [(recs ++ take j new, junk')]) ∧
    scannable (recs ++ take j new, junk').
Proof.
  intros Hd Ho Hs Hm Hb. destruct (on_disk_last _ _ _ _ _ _ Hd) as (_ & Hsr & _).
  apply (torn_flush w' fs f front recs new k); [|done|done]. eapply on_disk_update; [exact Hd|exact Ho|exact Hb|done|].
  pose proof (zlen_nonneg (enc_all new)). lia.
Qed.

(** A crash in the middle of an append loses nothing acknowledged.  Let the
    store be clean with [recs] in its active segment [f], and let [w'] be the
    disk after a crash that let any prefix of the bytes of an append of [new]
    (records under ids that are not stored yet) reach [f].  Then
    reopening succeeds, every block that was stored has the same bytes, and of
    [new] exactly the completely written records are there, with their own
    payloads. *)
Theorem crash_keeps_acknowledged w s fs f front recs new k w' :
  clean w s (front ++ [(recs, [])]) → files s = fs ++ [f] →
  NoDup new.*1 → (∀ id, id ∈ new.*1 → view w s id = None) →
  small new → zlen (enc_all recs) + zlen (enc_all new) ≤ SEGMENT_MAX →
  only_file f w w' → healthy w' → bytes_of w' f = enc_all recs ++ take k (enc_all new) →
  ∃ w'' s' segs' j, open_with w' = (w'', Ok s') ∧ store_ok w'' s' segs' ∧
    (∀ id p, view w s id = Some p → view w'' s' id = Some p) ∧
    ∀ id, view w s id = None →
      view w'' s' id = (list_to_map (take j new) : gmap BlockId bytes) !! id.
Proof.
  intros [Hok Hex Ht Hf _] Ef Hn Hnew Hs Hm Ho Hw' Hb.
  pose proof Hok as [Hd Hix _ _ Hne]. rewrite Ef in Hd, Hne.
  destruct (torn_on_disk w w' fs f front recs [] new k Hd Ho Hs Hm Hb) as (j & junk' & Hd' & Hsc).
  set (segs := front ++ [(recs, [])]) in *. set (segs' := front ++ [(recs ++ take j new, junk')]) in *.
  assert (Forall scannable segs') as Hsc'.
  { apply Forall_app. split; [|by constructor]. apply (tidy_scannable _ _ _ Hd) in Ht.
    by apply Forall_app in Ht as [? _]. }
  pose proof (open_wp w' (fs ++ [f]) segs' Hd' Hsc' Hne) as Hop. unfold wp in Hop.
  destruct (open_with w') as [w'' [s'|e|]]; [|by destruct Hop|done].
  destruct Hop as (Hsame & _ & Ef' & Hex' & _ & _ & Hok').
  destruct (on_disk_last _ _ _ _ _ _ Hd) as (_ & Hsr & Hlen).
  set (dl := locs (zlen front) (zlen (enc_all recs)) (take j new)).
  assert (all_locs 0 segs' = all_locs 0 segs ++ dl) as El.
  { subst segs segs' dl. rewrite !all_locs_app. cbn [all_locs].
    by rewrite !app_nil_r, locs_app, <-app_assoc by done. }
  assert (all_recs segs' = all_recs segs ++ take j new) as Er.
  { subst segs segs'. rewrite !all_recs_app. unfold all_recs. cbn. by rewrite !app_nil_r, app_assoc. }
  assert (NoDup (take j new).*1) as Hnd.
  { rewrite fmap_take. eapply sublist_NoDup; [done|apply sublist_take]. }
  assert (∀ id, view w'' s' id = match (list_to_map (take j new) : gmap BlockId bytes) !! id with
    Some p => Some p | None => view w s id end) as Hv.
  { intros id. assert (on_disk w (files s) segs) as Hd0 by by rewrite Ef.
    assert (on_disk w'' (files s) segs') as Hd'' by (rewrite Ef; by eapply on_disk_same).
    pose proof (publish_view w s segs Hd0 Hix (w'', s) segs' dl (take j new) id Hd'' El Er eq_refl Hnd)
      as [_ <-]. cbn. unfold view. cbn. unfold exact in *. by rewrite Hex', El, insert_all_app, <-Hex, Ef, Ef'. }
  exists w'', s', segs', j. split_and!; [done|done| |].
  - intros id p Hp. rewrite Hv. destruct (list_to_map (take j new) !! id) as [q|] eqn:E; [|done].
    apply elem_of_list_to_map in E; [|done]. rewrite Hnew in Hp; [done|].
    apply list_elem_of_fmap. exists (id, q). split; [done|]. by apply elem_of_take in E as (? & ? & _); eapply list_elem_of_lookup_2.
  - intros id Hp. rewrite Hv, Hp. by destruct (list_to_map _ !! id).
Qed.

End Open.

(** ** Concrete stores: one segment holding [recs] *)
Definition disk_of (recs : list (BlockId * bytes)) (plan : list (option nat)) : Disk :=
  MkDisk {[ 0%N := enc_all recs ]} {[ SegName 0 := 0%N ]} plan.
Definition store_of (recs : list (BlockId * bytes)) : BlockStore N :=
  MkStore (insert_all ∅ (all_locs 0 [(recs, [])])) [0%N] (zlen (enc_all recs))
    DEFAULT_SEGMENT_ROLL_BYTES false.

Lemma disk_of_ok recs plan :
  small recs → zlen (enc_all recs) ≤ SEGMENT_MAX →
  store_ok (disk_of recs plan) (store_of recs) [(recs, [])].
Proof.
  intros Hs Hm. constructor; cbn; try done.
  - constructor; cbn.
    + constructor; [|constructor]. split_and!; [|done|done]. cbn [fst snd].
      rewrite app_nil_r. cbn. unfold disk_bytes. cbn. by rewrite lookup_singleton_eq.
    + intros [|i] f; cbn; [by rewrite lookup_singleton_eq|].
      rewrite lookup_singleton_ne by (intros [=]; lia). done.
    + intros n [f Hf]. apply lookup_singleton_Some in Hf as [[= <-] _]. done.
    + intros p q f Hp Hq. apply lookup_singleton_Some in Hp as [<- _], Hq as [<- _]. done.
  - by apply (exact_sound (store_of recs)).
  - intros _. by exists [], recs, [].
Qed.

Lemma disk_of_clean recs :
  small recs → zlen (enc_all recs) ≤ SEGMENT_MAX →
  clean (disk_of recs []) (store_of recs) [(recs, [])].
Proof.
  intros Hs Hm. constructor; try done; [by apply disk_of_ok|]. by repeat constructor.
Qed.

#[local] Existing Instance toy_blake3.
#[local] Existing Instance toy_order.

Definition rec1 : BlockId * bytes := (block_of [x01], [x01]).
(** A record that rotted: the bytes under the id of [[x02]] are not [[x02]]. *)
Definition rotten : BlockId * bytes := (block_of [x02], [x01]).

Lemma rec1_ok plan : store_ok (disk_of [rec1] plan) (store_of [rec1]) [([rec1], [])].
Proof. apply disk_of_ok; [by repeat constructor|by vm_compute]. Qed.
Lemma rotten_ok : store_ok (disk_of [rotten] []) (store_of [rotten]) [([rotten], [])].
Proof. apply disk_of_ok; [by repeat constructor|by vm_compute]. Qed.

Lemma get_refines_lookup_witness :
  ∃ w', get (block_of [x01]) (disk_of [rec1] [], store_of [rec1]) = ((w', store_of [rec1]), Ok [x01]).
Proof.
  destruct (get_refines_lookup (block_of [x01]) (disk_of [rec1] []) (store_of [rec1])
    [([rec1], [])] (rec1_ok []) eq_refl) as (w' & E & _).
  exists w'. rewrite E. f_equal.
Defined.

Lemma put_many_refines_insert_witness :
  ∃ w' s', put_many [[x01]; [x02]] (disk_of [rec1] [], store_of [rec1])
    = ((w', s'), Ok (block_of <$> [[x01]; [x02]])) ∧ view w' s' (block_of [x02]) = Some [x02].
Proof.
  destruct (put_many_refines_insert [[x01]; [x02]] (disk_of [rec1] []) (store_of [rec1])
    [([rec1], [])] (rec1_ok []) eq_refl eq_refl) as (w' & s' & segs' & E & _ & _ & _ & Hv).
  - repeat constructor; vm_compute; discriminate.
  - exists w', s'. split; [exact E|]. rewrite Hv. vm_compute. reflexivity.
Defined.

(** The write of the batch fails after five bytes. *)
Definition failed_run : (Disk * BlockStore N) * res Error (list BlockId) :=
  put_many [[x02]] (disk_of [rec1] [Some 5%nat], store_of [rec1]).

Lemma failed_put_fails_closed_witness :
  failed_run.2 = Err (Io io_fault) ∧
  view failed_run.1.1 failed_run.1.2 (block_of [x01])
    = view (disk_of [rec1] [Some 5%nat]) (store_of [rec1]) (block_of [x01]).
Proof.
  assert (failed_run.2 = Err (Io io_fault)) as Ef by (vm_compute; reflexivity).
  split; [exact Ef|].
  apply (failed_put_fails_closed [[x02]] (disk_of [rec1] [Some 5%nat]) (store_of [rec1])
    [([rec1], [])] failed_run.1.1 failed_run.1.2 (Io io_fault) [] (rec1_ok [Some 5%nat])).
  - repeat constructor; vm_compute; discriminate.
  - rewrite <-Ef. unfold failed_run. by destruct (put_many _ _) as [[? ?] ?].
Defined.

Lemma repair_heals_damage_witness :
  ∃ w' s', repair (block_of [x02]) [x02] (disk_of [rotten] [], store_of [rotten])
    = ((w', s'), Ok (block_of [x02])) ∧ view w' s' (block_of [x02]) = Some [x02].
Proof.
  destruct (repair_heals_damage (block_of [x02]) [x02] (disk_of [rotten] []) (store_of [rotten])
    [([rotten], [])] [x01] rotten_ok eq_refl eq_refl) as [_ Hr].
  - vm_compute; discriminate.
  - vm_compute; reflexivity.
  - vm_compute; discriminate.
  - destruct (Hr eq_refl) as (w' & s' & segs' & E & _ & _ & Hv & _).
    exists w', s'. split; [exact E|exact Hv].
Defined.

Lemma store_survives_restarts_witness :
  ∃ w' s, serve [[[x01]; [x01]]; [[x02]]] empty_disk = (w', Ok s) ∧
    view w' s (block_of [x01]) = Some [x01] ∧ view w' s (block_of [x03]) = None.
Proof.
  destruct (store_survives_restarts [[[x01]; [x01]]; [[x02]]] empty_disk)
    as (w' & s & segs & E & _ & Hv).
  - reflexivity.
  - reflexivity.
  - repeat constructor; vm_compute; discriminate.
  - exists w', s. split; [exact E|]. rewrite !Hv. split; vm_compute; reflexivity.
Defined.

(** The crash of the witness: ten bytes of the record of [[x02]] arrived. *)
Definition crashed : Disk :=
  set_bytes 0%N (enc_all [rec1] ++ take 10 (enc_all [(block_of [x02], [x02])])) (disk_of [rec1] []).

Lemma crash_keeps_acknowledged_witness :
  ∃ w'' s', open_with crashed = (w'', Ok s') ∧ view w'' s' (block_of [x01]) = Some [x01].
Proof.
  destruct (crash_keeps_acknowledged (disk_of [rec1] []) (store_of [rec1]) [] 0%N [] [rec1]
    [(block_of [x02], [x02])] 10 crashed) as (w'' & s' & segs' & j & E & _ & Hv & _).
  - apply disk_of_clean; [by repeat constructor|by vm_compute].
  - reflexivity.
  - repeat constructor. apply not_elem_of_nil.
  - intros id Hid. apply list_elem_of_singleton in Hid as ->. vm_compute. reflexivity.
  - by repeat constructor.
  - vm_compute. discriminate.
  - split; [reflexivity|]. intros g Hg. cbn. unfold crashed. rewrite disk_bytes_set, decide_False by done.
    reflexivity.
  - reflexivity.
  - cbn. unfold crashed. rewrite disk_bytes_set, decide_True by done. reflexivity.
  - exists w'', s'. split; [exact E|]. apply Hv. vm_compute. reflexivity.
Defined.
