(* ===== verification/StoreCompact.v ===== *)
(** * Compaction of sealed segments

    [compact] rewrites every sealed segment that holds dead records.  It keeps
    the bytes of every live block, whatever fails on the way, and a run that
    completes leaves no dead block in a sealed segment. *)

From S2P Require Import Prelude Core Io Segment Store StoreInvariant StorePut StoreTheorems StoreOpen.
From Stdlib Require Import Strings.Byte.

(** ** Sizes *)
Definition enc_size (r : BlockId * bytes) : Z := record_len (zlen r.2).

Lemma zlen_enc_all recs :
  small recs → zlen (enc_all recs) = foldr (λ r acc, enc_size r + acc) 0 recs.
Proof.
  induction recs as [|[id p] recs IH]; intros Hs; [done|]. apply Forall_cons in Hs as [Hp Hs]. cbn in Hp.
  rewrite enc_all_cons, zlen_app, zlen_encode_record, IH by done. done.
Qed.

Lemma enc_all_submseteq recs recs' :
  small recs' → recs ⊆+ recs' → small recs ∧ zlen (enc_all recs) ≤ zlen (enc_all recs').
Proof.
  intros Hs Hsub. assert (small recs) as Hs1.
  { apply Forall_forall. intros r Hr. eapply (proj1 (Forall_forall _ _) Hs). by eapply elem_of_submseteq. }
  split; [done|]. rewrite !zlen_enc_all by done.
  destruct (submseteq_Permutation _ _ Hsub) as [k Hk].
  assert (∀ l1 l2 : list (BlockId * bytes), l1 ≡ₚ l2 →
    foldr (λ r acc, enc_size r + acc) 0 l1 = foldr (λ r acc, enc_size r + acc) 0 l2) as Hperm.
  { induction 1; cbn; lia. }
  rewrite (Hperm _ _ Hk). rewrite Hk in Hs. apply small_app in Hs as [_ Hsk]. clear - Hsk Hs1.
  induction recs as [|r recs IH]; cbn.
  - induction k as [|[i p] k IH]; cbn; [done|]. apply Forall_cons in Hsk as [Hp Hsk].
    pose proof (record_len_min (zlen p)). unfold enc_size, BLOCK_ALIGN in *. cbn in *.
    pose proof (zlen_nonneg p). specialize (IH Hsk). lia.
  - apply Forall_cons in Hs1 as [_ Hs1]. specialize (IH Hs1). lia.
Qed.

(** ** Locations by segment *)
Lemma locs_segment seg off recs id loc : (id, loc) ∈ locs seg off recs → loc_segment loc = seg.
Proof.
  revert off. induction recs as [|[i p] recs IH]; intros off Hin; cbn in Hin.
  - by apply not_elem_of_nil in Hin.
  - apply elem_of_cons in Hin as [[= -> ->]|Hin]; [done|eauto].
Qed.

Lemma all_locs_segment n segs id loc :
  0 ≤ n → (id, loc) ∈ all_locs n segs ↔
  ∃ recs junk, n ≤ loc_segment loc ∧ segs !! Z.to_nat (loc_segment loc - n) = Some (recs, junk) ∧
    (id, loc) ∈ locs (loc_segment loc) 0 recs.
Proof.
  revert n. induction segs as [|[recs junk] segs IH]; intros n Hn; cbn [all_locs].
  { split; [by intros ?%not_elem_of_nil|]. by intros (? & ? & _ & E & _). }
  rewrite elem_of_app, IH by lia. split.
  - intros [Hin|(recs' & junk' & Hle & Hl & Hin)].
    + pose proof (locs_segment _ _ _ _ _ Hin) as ->. exists recs, junk. rewrite Z.sub_diag. auto with lia.
    + exists recs', junk'. split_and!; [lia| |done].
      replace (Z.to_nat (loc_segment loc - n)) with (S (Z.to_nat (loc_segment loc - (n + 1)))) by lia. done.
  - intros (recs' & junk' & Hle & Hl & Hin). destruct (decide (loc_segment loc = n)) as [<-|Hne].
    + left. rewrite Z.sub_diag in Hl. change (Z.to_nat 0) with 0%nat in Hl. by simplify_eq/=.
    + right. exists recs', junk'. split_and!; [lia| |done].
      replace (Z.to_nat (loc_segment loc - n)) with (S (Z.to_nat (loc_segment loc - (n + 1)))) in Hl by lia.
      done.
Qed.

Section Compact.
Context {W F : Type} `{SegmentIoLaws W F, Blake3, HashOrderLaws}.

(** ** The disk during a compaction *)
Lemma on_disk_frame w w' fs segs :
  on_disk w fs segs → (∀ f, f ∈ fs → bytes_of w' f = bytes_of w f) →
  (∀ n, dir_of w' !! SegName n = dir_of w !! SegName n) →
  (∀ p q f, dir_of w' !! p = Some f → dir_of w' !! q = Some f → p = q) → on_disk w' fs segs.
Proof.
  intros [S1 S2 S3 S4] B D I. constructor; [|intros; rewrite D; apply S2|intros n; rewrite D; apply S3|done].
  apply Forall2_same_length_lookup. split; [by eapply Forall2_length|]. intros i f sg Hf Hsg.
  pose proof (Forall2_lookup_lr _ _ _ _ _ _ S1 Hf Hsg) as (? & ? & ?).
  unfold segment_ok. rewrite B; [done|]. by eapply list_elem_of_lookup_2.
Qed.

(** The temporary file is in place and not one of the segments. *)
Definition staging (w : W) (seg : Z) (tmp : F) (fs : list F) : Prop :=
  dir_of w !! CompactName seg = Some tmp ∧ tmp ∉ fs.

Lemma listed_segment w fs segs f :
  on_disk w fs segs → f ∈ fs → ∃ n, dir_of w !! SegName n = Some f.
Proof.
  intros Hd Hf. apply list_elem_of_lookup_1 in Hf as [i Hi]. apply (od_dir _ _ _ Hd) in Hi. eauto.
Qed.

Lemma truncate_wp w fs segs seg (Q : () → W → Prop) (R : io_error → W → Prop) :
  on_disk w fs segs →
  (∀ w' tmp, on_disk w' fs segs → staging w' seg tmp fs → bytes_of w' tmp = [] →
     (healthy w → healthy w') → (∀ f, f ∈ fs → bytes_of w' f = bytes_of w f) → Q () w') →
  (∀ e w', same_disk w w' → ¬ healthy w → R e w') →
  wp (fs_truncate (CompactName seg)) Q R w.
Proof.
  intros Hd HQ HR. apply wp_intro. intros w' r E'.
  destruct (law_truncate _ _ _ _ E') as (Hnp & Herr & Hok & Hh). split_and!; [done| |].
  - intros [] ->. destruct Hok as (tmp & D & Hb & Hwas & B); [done|].
    assert (tmp ∉ fs) as Hni.
    { intros Hin. destruct (listed_segment _ _ _ _ Hd Hin) as [n Hn].
      destruct Hwas as [Hwas|Hwas]; [|by apply Hwas in Hn].
      by pose proof (od_inj _ _ _ Hd _ _ _ Hn Hwas). }
    assert (∀ f, f ∈ fs → bytes_of w' f = bytes_of w f) as HB.
    { intros f Hf. apply B. by intros ->. }
    eapply HQ; [|split; [by rewrite D, lookup_insert_eq|exact Hni]|done|by intros [? _]%Hh|done].
    eapply on_disk_frame; [exact Hd|done| |].
    + intros n. by rewrite D, lookup_insert_ne.
    + intros p q f. rewrite D, !lookup_insert_Some. intros [[<- <-]|[Hp1 Hp]] [[<- Hq]|[Hq1 Hq]];
        subst; try done.
      * destruct Hwas as [Hwas|Hwas]; [by eapply (od_inj _ _ _ Hd)|by apply Hwas in Hq].
      * destruct Hwas as [Hwas|Hwas]; [by eapply (od_inj _ _ _ Hd)|by apply Hwas in Hp].
      * by eapply (od_inj _ _ _ Hd).
  - intros e ->. eapply HR; [by eapply Herr|]. intros [_ [=]]%Hh.
Qed.

(** Opening a listed name gives its file. *)
Lemma open_listed_wp w p f (Q : F → W → Prop) (R : io_error → W → Prop) :
  dir_of w !! p = Some f →
  (∀ w', same_disk w w' → (healthy w → healthy w') → Q f w') →
  (∀ e w', same_disk w w' → ¬ healthy w → R e w') →
  wp (b_open p) Q R w.
Proof.
  intros Hp HQ HR. apply wp_intro. intros w' r E'.
  destruct (law_open _ _ _ _ E') as (Hnp & Herr & Hok & Hh). split_and!; [done| |].
  - intros g ->. specialize (Hok g eq_refl). rewrite Hp in Hok. destruct Hok as [-> ?].
    apply HQ; [done|]. by intros [? _]%Hh.
  - intros e ->. eapply HR; [by eapply Herr|]. intros Hw. by destruct (Hh Hw).
Qed.

(** ** Copying *)

(** The records [keep] designates. *)
Definition designates (w : W) (old : F) (keep : list (BlockId * Location))
    (recs : list (BlockId * bytes)) : Prop :=
  Forall2 (λ k r, k.1 = r.1 ∧ 0 ≤ loc_offset k.2 ≤ SEGMENT_MAX ∧ loc_payload_len k.2 = zlen r.2 ∧
    loc_offset k.2 + HEADER_LEN + zlen r.2 ≤ zlen (bytes_of w old) ∧
    zslice (bytes_of w old) (loc_offset k.2 + HEADER_LEN) (zlen r.2) = r.2) keep recs.

Lemma designates_same w w' old keep recs :
  bytes_of w' old = bytes_of w old → designates w old keep recs → designates w' old keep recs.
Proof. unfold designates. by intros ->. Qed.

Lemma copy_live_wp old tmp seg keep recs done_ w s (Q : list (BlockId * Location) * Z → W * BlockStore F → Prop)
    (R : Error → W * BlockStore F → Prop) :
  designates w old keep recs → tmp ≠ old → bytes_of w tmp = enc_all done_ →
  small (done_ ++ recs) → zlen (enc_all (done_ ++ recs)) ≤ SEGMENT_MAX →
  (∀ w', only_file tmp w w' → (healthy w → healthy w') → bytes_of w' tmp = enc_all (done_ ++ recs) →
     Forall (λ r, block_of r.2 = r.1) recs →
     Q (locs seg 0 (done_ ++ recs), zlen (enc_all (done_ ++ recs))) (w', s)) →
  (∀ e w', only_file tmp w w' →
     (healthy w → ∃ r, r ∈ recs ∧ block_of r.2 ≠ r.1) → R e (w', s)) →
  wp (copy_live old tmp seg keep (zlen (enc_all done_)) (locs seg 0 done_)) Q R (w, s).
Proof.
  revert recs done_ w. induction keep as [|[id loc] keep IH];
    intros recs done_ w Hdes Hne Hb Hs Hm HQ HR; cbn [copy_live].
  { apply Forall2_nil_inv_l in Hdes as ->. rewrite app_nil_r in *. apply wp_ret.
    apply HQ; [by apply only_file_same|done|done|constructor]. }
  apply Forall2_cons_inv_l in Hdes as ([i p] & recs' & (E1 & Ho & El & Hr & Hsl) & Hdes & ->).
  cbn in E1, Ho, El, Hr, Hsl. subst i. rewrite El.
  rewrite (cons_middle (id, p) done_ recs'), app_assoc in Hs, Hm, HQ.
  apply small_app in Hs as Hs'. destruct Hs' as [Hs1 Hs2].
  assert (zlen p ≤ MAX_PAYLOAD) as Hp by (apply small_app in Hs1 as [_ [? _]%Forall_cons]; done).
  apply wp_bind, wp_io. rewrite u64_add_small
    by (unfold SEGMENT_MAX, MAX_PAYLOAD, BLOCK_ALIGN, HEADER_LEN, u64_max in *; lia).
  pose proof (zlen_nonneg p). apply wp_read; [unfold HEADER_LEN; lia|done|done| |].
  2: { intros e w1 Hs1' Hh1. apply HR; [by apply only_file_same|done]. }
  intros w1 Hsame Hh1. rewrite Hsl. destruct (block_verify id p) eqn:Hv; cbn [negb].
  2: { apply wp_throw. apply HR; [by apply only_file_same|]. intros _. exists (id, p).
       split; [by left|]. by apply block_verify_false in Hv. }
  apply block_verify_spec in Hv. apply wp_bind, wp_io.
  eapply (wp_write tmp (encode_record id p) (enc_all done_) []).
  { destruct Hsame as [_ B]. by rewrite B, Hb, app_nil_r. }
  2: { intros e w2 J' F2 Hh2 _ _. apply HR; [by eapply only_file_trans; [apply only_file_same|]|].
       intros Hw. by destruct (Hh2 (Hh1 Hw)). }
  intros w2 F2 Hh2 B2. rewrite drop_nil, app_nil_r in B2.
  assert (only_file tmp w w2) as F3 by by eapply only_file_trans; [apply only_file_same|].
  assert (enc_all (done_ ++ [(id, p)]) = enc_all done_ ++ encode_record id p) as Eenc.
  { rewrite enc_all_app. change (enc_all [(id, p)]) with (encode_record id p ++ []). by rewrite app_nil_r. }
  apply small_app in Hs1 as Hs1'. destruct Hs1' as [Hsd _].
  replace (locs seg 0 done_ ++ [(id, MkLoc seg (zlen (enc_all done_)) (zlen p))])
    with (locs seg 0 (done_ ++ [(id, p)])) by (by rewrite locs_app).
  assert (zlen (enc_all (done_ ++ [(id, p)])) ≤ SEGMENT_MAX) as Hm1.
  { rewrite enc_all_app, zlen_app in Hm.
    pose proof (zlen_nonneg (enc_all recs')). lia. }
  replace (u64_add (zlen (enc_all done_)) (zlen (encode_record id p)))
    with (zlen (enc_all (done_ ++ [(id, p)]))).
  2: { rewrite Eenc, zlen_app in *. pose proof (zlen_nonneg (enc_all done_)).
       pose proof (zlen_nonneg (encode_record id p)). symmetry. apply u64_add_small.
       unfold SEGMENT_MAX, MAX_PAYLOAD, BLOCK_ALIGN, u64_max in *. lia. }
  apply (IH recs'); try done.
  - eapply designates_same; [|exact Hdes]. by apply F3.
  - by rewrite B2, Eenc.
  - intros w' F' Hh' B' Hint. apply HQ; [by eapply only_file_trans|auto|done|]. constructor; [done|exact Hint].
  - intros e w' F' Hh'. apply HR; [by eapply only_file_trans|].
    intros Hw. destruct (Hh' (Hh2 (Hh1 Hw))) as (r & Hr1 & Hr2). exists r. split; [by right|done].
Qed.

(** ** One segment *)

(** The record behind an index entry, in its own segment. *)
Lemma segment_record w fs segs id loc :
  on_disk w fs segs → (id, loc) ∈ all_locs 0 segs →
  ∃ f recs junk p, fs !! Z.to_nat (loc_segment loc) = Some f ∧
    segs !! Z.to_nat (loc_segment loc) = Some (recs, junk) ∧ 0 ≤ loc_segment loc ∧ (id, p) ∈ recs ∧
    0 ≤ loc_offset loc ≤ SEGMENT_MAX ∧ loc_payload_len loc = zlen p ∧
    loc_offset loc + HEADER_LEN + zlen p ≤ zlen (bytes_of w f) ∧
    zslice (bytes_of w f) (loc_offset loc + HEADER_LEN) (zlen p) = p.
Proof.
  intros Hd Hin. apply list_elem_of_lookup_1 in Hin as [k Hk].
  destruct (nth_record _ _ _ _ _ _ Hd Hk) as (f & p & Hp & Hf & Hs0 & Ho & Hl & Hr & Hsl).
  apply all_locs_nth in Hk as (i & recs & junk & j & Hi & Hj & Er).
  apply list_elem_of_lookup_2, locs_segment in Hj.
  exists f, recs, junk, p. rewrite Hj, Z.add_0_l, Nat2Z.id in *. split_and!; auto; try lia.
  rewrite Er in Hp. by eapply list_elem_of_lookup_2.
Qed.

Definition view_of (w : W) (s : BlockStore F) (k : BlockId * Location) (r : BlockId * bytes) : Prop :=
  k.1 = r.1 ∧ view w s k.1 = Some r.2.

Lemma keep_records w s segs seg old recs0 junk0 keep :
  store_ok w s segs → 0 ≤ seg → files s !! Z.to_nat seg = Some old →
  segs !! Z.to_nat seg = Some (recs0, junk0) →
  (∀ k, k ∈ keep → index s !! k.1 = Some k.2 ∧ loc_segment k.2 = seg) →
  ∃ recs, designates w old keep recs ∧ Forall2 (view_of w s) keep recs ∧ ∀ r, r ∈ recs → r ∈ recs0.
Proof.
  intros Hok Hs0 Hold Hseg. induction keep as [|[id loc] keep IH]; intros Hk.
  { exists []. split_and!; [apply Forall2_nil_2|apply Forall2_nil_2|by intros ? ?%not_elem_of_nil]. }
  destruct IH as (recs & Hdes & Hvs & Hin); [intros k Hin; apply Hk; by right|].
  destruct (Hk (id, loc)) as [Hi Hl]; [by left|]. cbn in Hi, Hl.
  destruct (segment_record _ _ _ _ _ (so_disk _ _ _ Hok) (so_index _ _ _ Hok _ _ Hi))
    as (f & recs' & junk' & p & Hf & Hr & _ & Hp & Ho & Hlen & Hrange & Hsl).
  rewrite Hl in *. simplify_eq. exists ((id, p) :: recs). split_and!.
  - constructor; [|done]. cbn. split_and!; auto; lia.
  - constructor; [|done]. split; [done|]. cbn. unfold view. rewrite Hi. cbn. rewrite Hold. cbn.
    by rewrite Hlen, Hsl.
  - intros r. rewrite elem_of_cons. intros [->|?]; auto.
Qed.

Lemma view_of_ids w s keep recs : Forall2 (view_of w s) keep recs → keep.*1 = recs.*1.
Proof. induction 1 as [|k r keep recs [E _] _ IH]; [done|]. rewrite !fmap_cons. congruence. Qed.

(** After the rename the segment is the temporary file. *)
Lemma on_disk_replace w w' fs segs seg tmp recs :
  on_disk w fs segs → staging w seg tmp fs → 0 ≤ seg < zlen fs →
  bytes_of w tmp = enc_all recs → small recs → zlen (enc_all recs) ≤ SEGMENT_MAX →
  (∀ f, bytes_of w' f = bytes_of w f) →
  dir_of w' = <[SegName seg := tmp]> (delete (CompactName seg) (dir_of w)) →
  on_disk w' (<[Z.to_nat seg := tmp]> fs) (<[Z.to_nat seg := (recs, [])]> segs).
Proof.
  intros Hd [Ht Hni] Hrange Hb Hs Hm B D. pose proof (on_disk_length _ _ _ Hd) as Hlen.
  destruct Hd as [S1 S2 S3 S4]. unfold zlen in Hrange. constructor; rewrite ?D.
  - apply Forall2_insert.
    + eapply Forall2_impl; [exact S1|]. intros f sg (E & ?). unfold segment_ok. by rewrite B.
    + split_and!; [|done|done]. cbn. by rewrite B, app_nil_r.
  - intros i f. destruct (decide (i = Z.to_nat seg)) as [->|Hne].
    + rewrite list_lookup_insert_eq, Z2Nat.id, lookup_insert_eq by lia. done.
    + rewrite list_lookup_insert_ne, lookup_insert_ne, lookup_delete_ne
        by (done || intros [= ?]; lia). apply S2.
  - intros n [f Hf]. apply lookup_insert_Some in Hf as [[[= <-] _]|[_ Hf]]; [lia|].
    apply lookup_delete_Some in Hf as [_ Hf]. eauto.
  - intros p q f. rewrite !lookup_insert_Some, !lookup_delete_Some.
    intros [[<- <-]|[Hp1 [Hp2 Hp]]] [[<- Hq]|[Hq1 [Hq2 Hq]]]; subst; try done.
    + by pose proof (S4 _ _ _ Ht Hq).
    + by pose proof (S4 _ _ _ Ht Hp).
    + by eapply S4.
Qed.

(** ** Publishing a rewritten segment *)
Lemma delete_all_lookup (l : list (BlockId * Location)) (m : gmap BlockId Location) id loc :
  foldl (λ m p, delete p.1 m) m l !! id = Some loc ↔ id ∉ l.*1 ∧ m !! id = Some loc.
Proof.
  revert m. induction l as [|[i x] l IH]; intros m; cbn [foldl].
  - cbn. set_solver.
  - rewrite IH, lookup_delete_Some, fmap_cons, not_elem_of_cons. cbn. naive_solver.
Qed.

Section Publish.
Context (w : W) (s : BlockStore F) (segs : list segment) (seg : Z) (live : BlockId → bool).
Context (keep drop_ : list (BlockId * Location)) (recs : list (BlockId * bytes)) (tmp : F) (w' : W).
Context (Hok : store_ok w s segs).
Context (Hentry : ∀ id loc, index s !! id = Some loc → loc_segment loc = seg →
  if live id then (id, loc) ∈ keep else (id, loc) ∈ drop_).
Context (Hkeep : ∀ k, k ∈ keep → live k.1 = true ∧ index s !! k.1 = Some k.2 ∧ loc_segment k.2 = seg).
Context (Hdrop : ∀ k, k ∈ drop_ → live k.1 = false ∧ index s !! k.1 = Some k.2 ∧ loc_segment k.2 = seg).
Context (Hnd : NoDup keep.*1) (Hvs : Forall2 (view_of w s) keep recs).
Context (Hrange : 0 ≤ seg < zlen (files s) - 1).
Context (Hd' : on_disk w' (<[Z.to_nat seg := tmp]> (files s)) (<[Z.to_nat seg := (recs, [])]> segs)).
Context (B : ∀ f, f ∈ files s → bytes_of w' f = bytes_of w f).

Let s' : BlockStore F :=
  set_index (insert_all (foldl (λ m p, delete p.1 m) (index s) drop_) (locs seg 0 recs))
    (set_files (<[Z.to_nat seg := tmp]> (files s)) s).
Let segs' := <[Z.to_nat seg := (recs, [])]> segs.

(** Where an entry of the new index comes from. *)
Lemma publish_index id loc :
  index s' !! id = Some loc ↔
  (id, loc) ∈ locs seg 0 recs ∨ (id ∉ keep.*1 ∧ loc_segment loc ≠ seg ∧ index s !! id = Some loc).
Proof.
  pose proof (view_of_ids _ _ _ _ Hvs) as Eids. subst s'. cbn.
  rewrite insert_all_lookup by (by rewrite locs_ids, <-Eids).
  rewrite locs_ids, <-Eids, delete_all_lookup. split; [|intros [?|(H1' & H2' & H3')]; [by left|]].
  - intros [?|(Hk & Hdr & Hi)]; [by left|right]. split_and!; [done| |done]. intros Hseg.
    pose proof (Hentry _ _ Hi Hseg) as He. destruct (live id).
    + apply Hk, list_elem_of_fmap. by exists (id, loc).
    + apply Hdr, list_elem_of_fmap. by exists (id, loc).
  - right. split_and!; [done| |done]. intros Hin. apply list_elem_of_fmap in Hin as ([i x] & -> & Hin).
    destruct (Hdrop _ Hin) as (_ & Hi & Hl). cbn in *. congruence.
Qed.

Lemma publish_sound : index_sound (index s') segs'.
Proof.
  pose proof (on_disk_length _ _ _ (so_disk _ _ _ Hok)) as Hlen. unfold zlen in Hrange.
  intros id loc Hi. apply all_locs_segment; [done|].
  apply publish_index in Hi as [Hin|(_ & Hne & Hi)].
  - pose proof (locs_segment _ _ _ _ _ Hin) as ->. exists recs, []. rewrite Z.sub_0_r.
    split_and!; [lia| |done]. subst segs'. apply list_lookup_insert_eq. lia.
  - apply (so_index _ _ _ Hok), all_locs_segment in Hi as (recs' & junk' & Hle & Hl & Hin); [|done].
    exists recs', junk'. split_and!; [done| |done]. subst segs'.
    rewrite list_lookup_insert_ne; [done|]. lia.
Qed.

(** Kept blocks keep their bytes, dropped ones are gone. *)
Lemma publish_kept id p : (id, p) ∈ recs → view w' s' id = Some p.
Proof.
  pose proof (view_of_ids _ _ _ _ Hvs) as Eids. intros Hin.
  pose proof (on_disk_length _ _ _ (so_disk _ _ _ Hok)) as Hlen. unfold zlen in Hrange.
  assert (small recs) as Hs.
  { pose proof (Forall2_lookup_r _ _ _ (Z.to_nat seg) (recs, []) (od_segs _ _ _ Hd')) as HF.
    destruct HF as (f & _ & _ & ? & _); [|done]. apply list_lookup_insert_eq. lia. }
  assert (∃ loc, (id, loc) ∈ locs seg 0 recs) as [loc Hl].
  { assert (id ∈ (locs seg 0 recs).*1) as Hid.
    { rewrite locs_ids. apply list_elem_of_fmap. by exists (id, p). }
    apply list_elem_of_fmap in Hid as ([i x] & -> & Hx). eauto. }
  assert (index s' !! id = Some loc) as Hi by (apply publish_index; by left).
  destruct (segment_record w' _ segs' id loc Hd' (publish_sound _ _ Hi))
    as (f & recs' & junk' & q & Hf & Hr & _ & Hq & _ & Hlen' & _ & Hsl).
  rewrite (locs_segment _ _ _ _ _ Hl) in Hf, Hr. subst segs'.
  rewrite list_lookup_insert_eq in Hr by lia. simplify_eq.
  assert (q = p) as ->.
  { assert (NoDup recs'.*1) as Hn by by rewrite <-Eids.
    apply (elem_of_list_to_map_1 recs' id q Hn) in Hq. apply (elem_of_list_to_map_1 recs' id p Hn) in Hin.
    congruence. }
  unfold view. rewrite Hi. cbn. rewrite (locs_segment _ _ _ _ _ Hl), Hf. cbn. by rewrite Hlen', Hsl.
Qed.

Lemma publish_other id :
  id ∉ keep.*1 → view w' s' id = view w s id ∨ (live id = false ∧ view w' s' id = None).
Proof.
  intros Hk. destruct (index s' !! id) as [loc|] eqn:Hi.
  - pose proof Hi as Hi'. apply publish_index in Hi' as [Hin|(_ & Hne & Hi0)].
    { exfalso. apply Hk. rewrite (view_of_ids _ _ _ _ Hvs). rewrite <-(locs_ids seg 0).
      apply list_elem_of_fmap. by exists (id, loc). }
    left. unfold view. rewrite Hi, Hi0. cbn [mbind option_bind].
    destruct (segment_record _ _ _ _ _ (so_disk _ _ _ Hok) (so_index _ _ _ Hok _ _ Hi0))
      as (f & _ & _ & _ & Hf & _ & H0' & _).
    subst s'. cbn [files set_index set_files]. rewrite list_lookup_insert_ne by lia. rewrite Hf. cbn.
    rewrite B; [done|]. by eapply list_elem_of_lookup_2.
  - destruct (index s !! id) as [loc|] eqn:Hi0.
    + right. assert (loc_segment loc = seg) as Hseg.
      { destruct (decide (loc_segment loc = seg)) as [|Hne]; [done|]. exfalso.
        assert (index s' !! id = Some loc) by (apply publish_index; by right). congruence. }
      pose proof (Hentry _ _ Hi0 Hseg) as He. destruct (live id).
      * exfalso. apply Hk, list_elem_of_fmap. by exists (id, loc).
      * split; [done|]. unfold view. by rewrite Hi.
    + left. unfold view. by rewrite Hi, Hi0.
Qed.

Lemma publish_view_any id :
  view w' s' id = view w s id ∨ (live id = false ∧ view w' s' id = None).
Proof.
  destruct (decide (id ∈ keep.*1)) as [Hk|Hk]; [|by apply publish_other]. left.
  apply list_elem_of_fmap in Hk as ([i loc] & -> & Hin).
  apply list_elem_of_lookup_1 in Hin as [j Hj].
  destruct (Forall2_lookup_l _ _ _ _ _ Hvs Hj) as ([i' p] & Hr & E & Hv). cbn in *. subst i'.
  rewrite Hv. apply publish_kept. by eapply list_elem_of_lookup_2.
Qed.

Lemma publish_store_ok : store_ok w' s' segs'.
Proof.
  pose proof Hok as [Hd _ Ht Hr Hne]. pose proof (on_disk_length _ _ _ Hd) as Hlen.
  unfold zlen in Hrange. constructor; cbn; [done|apply publish_sound| |done|].
  - intros Hf. destruct (Ht Hf) as (front & recs1 & junk1 & Es & Ea). subst segs'. rewrite Es in *.
    rewrite length_app in Hlen. cbn in Hlen. rewrite insert_app_l by lia.
    by exists (<[Z.to_nat seg := (recs, [])]> front), recs1, junk1.
  - intros E. apply (f_equal length) in E. rewrite length_insert in E. by destruct (files s).
Qed.

End Publish.

(** ** The sweep *)

(** [s'] is [s] without some dead blocks. *)
Record compacted (live : BlockId → bool) (w : W) (s : BlockStore F) (w' : W) (s' : BlockStore F)
    : Prop := {
  cp_ok : ∃ segs', store_ok w' s' segs';
  cp_view : ∀ id, view w' s' id = view w s id ∨ (live id = false ∧ view w' s' id = None);
  cp_files : length (files s') = length (files s);
  cp_append : append s' = append s;
  cp_failed : write_failed s' = write_failed s;
  cp_seg : ∀ id loc', index s' !! id = Some loc' →
    ∃ loc, index s !! id = Some loc ∧ loc_segment loc' = loc_segment loc;
  cp_durable : durable w s → durable w' s' }.

(** No dead block is indexed in segment [seg]. *)
Definition swept (live : BlockId → bool) (s : BlockStore F) (seg : Z) : Prop :=
  ∀ id loc, index s !! id = Some loc → loc_segment loc = seg → live id = true.

(** Two descriptions of the same files. *)
Lemma on_disk_transfer w w' fs segs segs' :
  on_disk w fs segs → on_disk w' fs segs' → (∀ f, f ∈ fs → bytes_of w' f = bytes_of w f) → on_disk w' fs segs.
Proof.
  intros [S1 _ _ _] [_ S2 S3 S4] B. constructor; [|done..]. apply Forall2_same_length_lookup.
  split; [by eapply Forall2_length|]. intros i f sg Hf Hsg.
  pose proof (Forall2_lookup_lr _ _ _ _ _ _ S1 Hf Hsg) as (? & ? & ?).
  unfold segment_ok. rewrite B; [done|]. by eapply list_elem_of_lookup_2.
Qed.

Lemma compacted_same live w s w' segs :
  store_ok w s segs → on_disk w' (files s) segs →
  (∀ f, f ∈ files s → bytes_of w' f = bytes_of w f) → compacted live w s w' s.
Proof.
  intros Hok Hd B. pose proof Hok as []. constructor; auto.
  - exists segs. by constructor.
  - intros id. left. unfold view. destruct (index s !! id) as [loc|]; [cbn|done].
    destruct (files s !! _) as [f|] eqn:Ef; [cbn|done]. rewrite B; [done|].
    by eapply list_elem_of_lookup_2.
  - eauto.
  - intros (segs2 & [Hd2 ? ? ? ?] & Hsound). exists segs2. split; [|done]. constructor; auto. by eapply on_disk_transfer.
Qed.

Lemma compacted_trans live w1 s1 w2 s2 w3 s3 :
  compacted live w1 s1 w2 s2 → compacted live w2 s2 w3 s3 → compacted live w1 s1 w3 s3.
Proof.
  intros [_ V1 F1 A1 B1 G1 D1] [O2 V2 F2 A2 B2 G2 D2]. constructor; auto; try congruence.
  - intros id. destruct (V2 id) as [->|[? ?]]; [apply V1|by right].
  - intros id loc Hl. destruct (G2 _ _ Hl) as (loc2 & Hl2 & ->). eauto.
Qed.

Lemma compacted_swept live w s w' s' seg :
  compacted live w s w' s' → swept live s seg → swept live s' seg.
Proof. intros Hc Hs id loc Hl Hseg. destruct (cp_seg _ _ _ _ _ Hc _ _ Hl) as (l & ? & ?). eapply Hs; eauto. congruence. Qed.

Lemma compacted_intact live w s w' s' : compacted live w s w' s' → intact w s → intact w' s'.
Proof.
  intros Hc Hi id p Hp. destruct (cp_view _ _ _ _ _ Hc id) as [E|[_ E]]; rewrite E in Hp; [eauto|done].
Qed.

(** The entries of the segment, split by [live]. *)
Lemma entries_spec (s : BlockStore F) seg id loc :
  (id, loc) ∈ base.filter (λ p, loc_segment p.2 = seg) (hash_order (map_to_list (index s))) ↔
  index s !! id = Some loc ∧ loc_segment loc = seg.
Proof. rewrite list_elem_of_filter, hash_order_perm, elem_of_map_to_list. cbn. tauto. Qed.

Lemma entries_nodup (s : BlockStore F) seg (P : BlockId * Location → Prop) `{∀ x, Decision (P x)} :
  NoDup (base.filter P (base.filter (λ p, loc_segment p.2 = seg)
    (hash_order (map_to_list (index s))))).*1.
Proof.
  assert (∀ (Q : BlockId * Location → Prop) `{∀ x, Decision (Q x)} (l : list (BlockId * Location)),
    NoDup l.*1 → NoDup (base.filter Q l).*1) as Hf.
  { intros Q ? l. induction l as [|x l IH]; [done|]. rewrite fmap_cons, NoDup_cons, filter_cons.
    intros [Hx Hn]. case_decide; [|auto]. rewrite fmap_cons, NoDup_cons. split; [|auto].
    intros Hin. apply Hx. apply list_elem_of_fmap in Hin as (y & -> & Hy).
    apply list_elem_of_filter in Hy as [_ Hy]. apply list_elem_of_fmap. eauto. }
  apply Hf, Hf. rewrite hash_order_perm. apply NoDup_fst_map_to_list.
Qed.

(** The disk while a segment is rewritten: the store's files are untouched. *)
Definition rewriting (w : W) (s : BlockStore F) (segs : list segment) (seg : Z) (tmp : F) (w' : W)
    : Prop :=
  on_disk w' (files s) segs ∧ staging w' seg tmp (files s) ∧
  (∀ f, f ∈ files s → bytes_of w' f = bytes_of w f) ∧ (healthy w → healthy w').

Lemma rewriting_same w s segs seg tmp w1 w2 :
  rewriting w s segs seg tmp w1 → same_disk w1 w2 → (healthy w1 → healthy w2) →
  rewriting w s segs seg tmp w2.
Proof.
  intros (Hd & [Ht Hn] & B & Hh) Hsame Hh'. pose proof Hsame as [D2 B2]. split_and!; auto.
  - by eapply on_disk_same.
  - split; [by rewrite D2|done].
  - intros f Hf. by rewrite B2, B.
Qed.

Lemma rewriting_write w s segs seg tmp w1 w2 :
  rewriting w s segs seg tmp w1 → only_file tmp w1 w2 → (healthy w1 → healthy w2) →
  rewriting w s segs seg tmp w2.
Proof.
  intros (Hd & [Ht Hn] & B & Hh) [D2 B2] Hh'.
  assert (∀ f, f ∈ files s → bytes_of w2 f = bytes_of w1 f) as HB.
  { intros f Hf. apply B2. by intros ->. }
  split_and!; auto.
  - eapply on_disk_frame; [exact Hd|done|by intros; rewrite D2|]. intros p q f. rewrite D2.
    apply (od_inj _ _ _ Hd).
  - split; [by rewrite D2|done].
  - intros f Hf. by rewrite HB, B.
Qed.

(** A failure before the rename. *)
Lemma rewriting_failed live w s segs seg tmp w' :
  store_ok w s segs → rewriting w s segs seg tmp w' → compacted live w s w' s.
Proof. intros Hok (Hd & _ & B & _). by eapply compacted_same. Qed.

Definition partial (live : BlockId → bool) (w : W) (s : BlockStore F) (st : W * BlockStore F) : Prop :=
  compacted live w s st.1 st.2 ∧ (healthy w → ¬ intact w s).

(** Operations that change nothing on disk. *)
Definition quiet {A} (m : ST W io_error A) : Prop :=
  ∀ w w' r, m w = (w', r) → same_disk w w' ∧ r ≠ Panic ∧ (healthy w → healthy w' ∧ is_ok r = true).

Lemma quiet_sync f : quiet (f_sync f).
Proof.
  intros w w' r E. destruct (law_sync _ _ _ _ E) as (? & ? & Hh). split_and!; auto.
  by intros [? ->]%Hh.
Qed.
Lemma quiet_len f : quiet (f_len f).
Proof. intros w w' r E. destruct (law_len _ _ _ _ E) as (? & ? & _ & Hh). auto. Qed.

Lemma quiet_wp {A} (m : ST W io_error A) live w s segs seg tmp w1 (Q : A → W * BlockStore F → Prop) :
  quiet m → store_ok w s segs → rewriting w s segs seg tmp w1 →
  (∀ a w2, rewriting w s segs seg tmp w2 → bytes_of w2 tmp = bytes_of w1 tmp → Q a (w2, s)) →
  wp (io m) Q (λ _ st, partial live w s st) (w1, s).
Proof.
  intros Hm Hok Hrw HQ. apply wp_io, wp_intro. intros w2 r E.
  destruct (Hm _ _ _ E) as (Hsame & Hnp & Hh). assert (rewriting w s segs seg tmp w2) as Hrw2.
  { eapply rewriting_same; [exact Hrw|done|by intros [? _]%Hh]. }
  split_and!; [done| |].
  - intros a ->. apply HQ; [done|]. apply Hsame.
  - intros e ->. split; [by eapply rewriting_failed|]. intros Hw.
    destruct Hrw as (_ & _ & _ & Hhw). by destruct (Hh (Hhw Hw)).
Qed.

Lemma reopen_wp live w s segs seg tmp w1 (Q : F → W * BlockStore F → Prop) :
  store_ok w s segs → rewriting w s segs seg tmp w1 →
  (∀ w2, rewriting w s segs seg tmp w2 → bytes_of w2 tmp = bytes_of w1 tmp → Q tmp (w2, s)) →
  wp (io (b_open (CompactName seg))) Q (λ _ st, partial live w s st) (w1, s).
Proof.
  intros Hok Hrw HQ. pose proof Hrw as (_ & [Ht _] & _ & Hhw).
  apply wp_io. eapply open_listed_wp; [exact Ht| |].
  - intros w2 Hsame Hh. apply HQ; [by eapply rewriting_same|apply Hsame].
  - intros e w2 Hsame Hh. split; [|auto]. eapply rewriting_failed; [done|].
    eapply rewriting_same; [exact Hrw|done|by intros].
Qed.

Section Sweep.
Context (live : BlockId → bool) (seg : Z) (w : W) (s : BlockStore F) (segs : list segment).
Context (Hok : store_ok w s segs) (Hrange : 0 ≤ seg < zlen (files s) - 1).

Let entries := base.filter (λ p, loc_segment p.2 = seg) (hash_order (map_to_list (index s))).
Let keep := base.filter (λ p, live p.1 = true) entries.
Let drop_ := base.filter (λ p, live p.1 = false) entries.

Lemma entry_split id loc :
  index s !! id = Some loc → loc_segment loc = seg →
  if live id then (id, loc) ∈ keep else (id, loc) ∈ drop_.
Proof.
  intros Hi Hl. subst keep drop_ entries.
  destruct (live id) eqn:E; rewrite list_elem_of_filter, entries_spec; auto.
Qed.
Lemma keep_spec k : k ∈ keep → live k.1 = true ∧ index s !! k.1 = Some k.2 ∧ loc_segment k.2 = seg.
Proof. destruct k. subst keep entries. rewrite list_elem_of_filter, entries_spec. tauto. Qed.
Lemma drop_spec k : k ∈ drop_ → live k.1 = false ∧ index s !! k.1 = Some k.2 ∧ loc_segment k.2 = seg.
Proof. destruct k. subst drop_ entries. rewrite list_elem_of_filter, entries_spec. tauto. Qed.

(** Rewriting a segment of a store that can be reopened. *)
Lemma swapped_durable recs tmp w' :
  Forall2 (view_of w s) keep recs → hashed recs →
  on_disk w' (<[Z.to_nat seg := tmp]> (files s)) (<[Z.to_nat seg := (recs, [])]> segs) →
  (∀ f, f ∈ files s → bytes_of w' f = bytes_of w f) → durable w s →
  durable w' (set_index (insert_all (foldl (λ m p, delete p.1 m) (index s) drop_) (locs seg 0 recs))
    (set_files (<[Z.to_nat seg := tmp]> (files s)) s)).
Proof.
  intros Hvs Hha Hd B (segs2 & Hok2 & Hsc & Hr & Ht). pose proof (entries_nodup s seg (λ p, live p.1 = true)) as Hnd.
  fold entries keep in Hnd. exists (<[Z.to_nat seg := (recs, [])]> segs2).
  pose proof (on_disk_length _ _ _ (so_disk _ _ _ Hok)) as Hlen. pose proof (on_disk_length _ _ _ (so_disk _ _ _ Hok2)) as Hlen2.
  unfold zlen in Hrange.
  assert (on_disk w' (<[Z.to_nat seg := tmp]> (files s)) (<[Z.to_nat seg := (recs, [])]> segs2)) as Hd2.
  { destruct Hd as [S1 S2 S3 S4]. constructor; [|done..].
    assert (segment_ok w' tmp (recs, [])) as Htmp.
    { eapply (Forall2_lookup_lr _ _ _ (Z.to_nat seg) _ _ S1); by rewrite list_lookup_insert_eq by lia. }
    apply Forall2_insert; [|done]. apply Forall2_same_length_lookup. split; [done|]. intros i f sg Hf Hsg.
    pose proof (Forall2_lookup_lr _ _ _ _ _ _ (od_segs _ _ _ (so_disk _ _ _ Hok2)) Hf Hsg) as (? & ? & ?).
    unfold segment_ok. rewrite B; [done|]. by eapply list_elem_of_lookup_2. }
  split; [by apply (publish_store_ok w s segs2 seg live keep drop_ recs tmp w' Hok2 entry_split drop_spec)|].
  split_and!.
  - apply Forall_insert; [done|]. apply (scannable_tidy _ _ _ _ Hd2); [|done].
    apply list_elem_of_lookup_2 with (Z.to_nat seg). by rewrite list_lookup_insert_eq by lia.
  - unfold hashed, all_recs in *. rewrite Forall_concat in *. rewrite Forall_fmap in *. by apply Forall_insert.
  - intros Hf. by apply Forall_insert; [apply Ht|].
Qed.

(** The store once the segment is swapped. *)
Lemma swapped recs tmp w' :
  Forall2 (view_of w s) keep recs → hashed recs →
  on_disk w' (<[Z.to_nat seg := tmp]> (files s)) (<[Z.to_nat seg := (recs, [])]> segs) →
  (∀ f, f ∈ files s → bytes_of w' f = bytes_of w f) →
  let s' := set_index (insert_all (foldl (λ m p, delete p.1 m) (index s) drop_) (locs seg 0 recs))
    (set_files (<[Z.to_nat seg := tmp]> (files s)) s) in
  compacted live w s w' s' ∧ swept live s' seg.
Proof.
  intros Hvs Hha Hd B s'. pose proof (entries_nodup s seg (λ p, live p.1 = true)) as Hnd.
  fold entries keep in Hnd.
  pose proof (publish_index w s seg live keep drop_ recs tmp entry_split drop_spec Hnd Hvs) as Hix.
  assert (∀ id loc, (id, loc) ∈ locs seg 0 recs → ∃ k, k ∈ keep ∧ id = k.1) as Hk.
  { intros id loc Hin. assert (id ∈ keep.*1) as Hk.
    { rewrite (view_of_ids _ _ _ _ Hvs), <-(locs_ids seg 0). apply list_elem_of_fmap. by exists (id, loc). }
    apply list_elem_of_fmap in Hk as (k & -> & Hk). eauto. }
  split; [constructor; cbn|].
  - exists (<[Z.to_nat seg := (recs, [])]> segs).
    by apply (publish_store_ok w s segs seg live keep drop_ recs tmp w' Hok entry_split drop_spec).
  - intros id. by eapply (publish_view_any w s segs seg live keep drop_ recs tmp w' Hok entry_split drop_spec).
  - by rewrite length_insert.
  - done.
  - done.
  - intros id loc Hi. apply Hix in Hi as [Hin|(_ & _ & Hi)]; [|eauto].
    rewrite (locs_segment _ _ _ _ _ Hin). destruct (Hk _ _ Hin) as (k & Hk' & ->).
    apply keep_spec in Hk' as (_ & ? & ?). eauto.
  - by apply (swapped_durable recs tmp w').
  - intros id loc Hi Hl. apply Hix in Hi as [Hin|(_ & ? & _)]; [|done].
    destruct (Hk _ _ Hin) as (k & Hk' & ->). by apply keep_spec in Hk' as (? & _).
Qed.

(** The rename and everything after it. *)
Lemma swap_wp recs tmp (stats : CompactStats) w1 :
  Forall2 (view_of w s) keep recs → hashed recs → small recs → zlen (enc_all recs) ≤ SEGMENT_MAX →
  rewriting w s segs seg tmp w1 → bytes_of w1 tmp = enc_all recs →
  wp (io (fs_rename (CompactName seg) (SegName seg)) ≫= λ _,
      update (λ s, set_files (<[Z.to_nat seg := tmp]> (files s)) s) ≫= λ _,
      update (λ s, set_index (insert_all (foldl (λ m p, delete p.1 m) (index s) drop_)
                                (locs seg 0 recs)) s) ≫= λ _,
      io fs_sync_dir ≫= λ _, mret stats)
    (λ _ st, compacted live w s st.1 st.2 ∧ swept live st.2 seg ∧ (healthy w → healthy st.1))
    (λ _ st, partial live w s st) (w1, s).
Proof.
  intros Hvs Hha Hs Hm Hrw Hb. pose proof Hrw as (Hd1 & [Ht Hni] & B1 & Hhw).
  apply wp_bind, wp_io, wp_intro. intros w2 r2 E2.
  destruct (law_rename _ _ _ _ _ E2) as (N2 & B2 & Herr2 & Hok2 & Hh2). split_and!; [done| |].
  2: { intros e ->. split.
       - eapply rewriting_failed; [done|]. eapply rewriting_same; [exact Hrw| |by intros [? _]%Hh2].
         split; [by eapply Herr2|done].
       - intros Hw. destruct (Hh2 (Hhw Hw)) as [_ Hr]. by specialize (Hr ltac:(eauto)). }
  intros [] ->. destruct Hok2 as (f & Hf & D2); [done|]. assert (f = tmp) as -> by congruence.
  assert (on_disk w2 (<[Z.to_nat seg := tmp]> (files s)) (<[Z.to_nat seg := (recs, [])]> segs)) as Hd2.
  { eapply on_disk_replace; [exact Hd1|by split|lia|done|done|done|done|done]. }
  set (s' := set_index (insert_all (foldl (λ m p, delete p.1 m) (index s) drop_) (locs seg 0 recs))
    (set_files (<[Z.to_nat seg := tmp]> (files s)) s)).
  assert (∀ f, f ∈ files s → bytes_of w2 f = bytes_of w f) as B by (intros f Hf'; by rewrite B2, B1).
  assert (∀ w3, same_disk w2 w3 → compacted live w s w3 s' ∧ swept live s' seg) as Hdone.
  { intros w3 Hsame. apply (swapped recs tmp w3 Hvs Hha); [by eapply on_disk_same|].
    intros f Hf'. destruct Hsame as [_ ->]. auto. }
  do 2 (apply wp_bind; unfold wp at 1; cbn [update]). fold s'.
  apply wp_bind, wp_io, wp_intro. intros w3 r3 E3. destruct (law_sync_dir _ _ _ E3) as (Sm3 & N3 & Hh3).
  split_and!; [done| |].
  - intros [] ->. apply wp_ret. cbn [fst snd]. destruct (Hdone w3 Sm3). split_and!; auto.
    intros Hw. by apply Hh3, Hh2, Hhw.
  - intros e ->. split; [by apply Hdone|]. intros Hw. by destruct (Hh3 (proj1 (Hh2 (Hhw Hw)))).
Qed.

Lemma compact_segment_wp stats :
  wp (compact_segment live seg stats)
    (λ _ st, compacted live w s st.1 st.2 ∧ swept live st.2 seg ∧ (healthy w → healthy st.1))
    (λ _ st, partial live w s st) (w, s).
Proof.
  pose proof (on_disk_length _ _ _ (so_disk _ _ _ Hok)) as Hlen. unfold zlen in Hrange.
  unfold compact_segment. apply wp_bind. unfold wp at 1; cbn [store]. fold entries keep drop_.
  case_goal.
  { bool_prop. apply wp_ret. cbn. split_and!; auto.
    - eapply compacted_same; [done|apply Hok|done].
    - intros id loc Hi Hl. pose proof (entry_split _ _ Hi Hl) as He. destruct (live id); [done|].
      rewrite E in He. by apply not_elem_of_nil in He. }
  clear E. destruct (lookup_lt_is_Some_2 (files s) (Z.to_nat seg)) as [old Hold]; [lia|].
  destruct (lookup_lt_is_Some_2 segs (Z.to_nat seg)) as [[recs0 junk0] Hseg]; [lia|].
  apply wp_bind. unfold file_at. rewrite Hold. unfold wp at 1; cbn [st_lift].
  destruct (keep_records w s segs seg old recs0 junk0 keep Hok ltac:(lia) Hold Hseg)
    as (recs & Hdes & Hvs & Hsub); [by intros k (_ & ? & ?)%keep_spec|].
  destruct (Forall2_lookup_lr _ _ _ _ _ _ (od_segs _ _ _ (so_disk _ _ _ Hok)) Hold Hseg) as (_ & Hs0 & Hm0).
  destruct (enc_all_submseteq recs recs0 Hs0) as [Hs Hm].
  { apply NoDup_submseteq; [|done]. apply (NoDup_fmap_1 fst).
    rewrite <-(view_of_ids _ _ _ _ Hvs). apply entries_nodup. }
  cbn [fst snd] in *. apply wp_bind, wp_io. eapply truncate_wp; [apply (so_disk _ _ _ Hok)| |].
  2: { intros e w1 Hsame Hh. split; [|done]. eapply compacted_same; [done| |by intros; apply Hsame].
       by eapply on_disk_same; [|apply Hok]. }
  intros w1 tmp Hd1 Hst1 Hb1 Hh1 B1. assert (rewriting w s segs seg tmp w1) as Hrw1 by by split_and!.
  apply wp_bind. eapply reopen_wp; [done|exact Hrw1|]. intros w2 Hrw2 Hb2.
  pose proof Hrw2 as (_ & [_ Hni] & B2 & Hh2). apply wp_bind.
  assert (old ∈ files s) as Hin by by eapply list_elem_of_lookup_2.
  eapply (copy_live_wp old tmp seg keep recs []).
  - eapply designates_same; [|exact Hdes]. auto.
  - by intros ->.
  - by rewrite Hb2, Hb1.
  - done.
  - cbn [app]. lia.
  - intros w3 F3 Hh3 Hb3 Hha. cbn [app] in *.
    assert (rewriting w s segs seg tmp w3) as Hrw3 by by eapply rewriting_write.
    apply wp_bind. eapply quiet_wp; [apply quiet_sync|done|exact Hrw3|]. intros [] w4 Hrw4 Hb4.
    apply wp_bind. eapply quiet_wp; [apply quiet_len|done|exact Hrw4|]. intros n w5 Hrw5 Hb5.
    apply wp_bind. eapply reopen_wp; [done|exact Hrw5|]. intros w6 Hrw6 Hb6.
    apply swap_wp; [done|done|done|lia|done|congruence].
  - intros e w3 F3 Hbad. split.
    + cbn. destruct Hrw2 as (Hd2 & Hst2 & B2' & _). eapply compacted_same; [done| |].
      * eapply on_disk_frame; [exact Hd2| |by destruct F3 as [-> _]|by destruct F3 as [-> _]; apply Hd2].
        intros f Hf. apply F3. by intros ->.
      * intros f Hf. destruct F3 as [_ F3]. rewrite F3 by by intros ->. auto.
    + intros Hw Hint. destruct (Hbad (Hh2 Hw)) as (r & Hr & Hne).
      apply list_elem_of_lookup_1 in Hr as [j Hj].
      destruct (Forall2_lookup_r _ _ _ _ _ Hvs Hj) as (k & _ & E1 & Hv). rewrite E1 in Hv. by apply Hint in Hv.
Qed.

End Sweep.

(** All sealed segments, in order. *)
Lemma compact_segments_wp live ids stats w s segs :
  store_ok w s segs → Forall (λ i, 0 ≤ i < zlen (files s) - 1) ids →
  wp (compact_segments live ids stats)
    (λ _ st, compacted live w s st.1 st.2 ∧ Forall (swept live st.2) ids ∧ (healthy w → healthy st.1))
    (λ _ st, partial live w s st) (w, s).
Proof.
  revert stats w s segs. induction ids as [|i ids IH]; intros stats w s segs Hok Hr; cbn [compact_segments].
  { apply wp_ret. cbn. split_and!; auto. eapply compacted_same; [done|apply Hok|done]. }
  apply Forall_cons in Hr as [Hi Hr]. apply wp_bind.
  eapply wp_mono; [by eapply compact_segment_wp| |done].
  intros stats' [w1 s1] (Hc & Hsw & Hh). cbn in *. destruct (cp_ok _ _ _ _ _ Hc) as [segs1 Hok1].
  eapply wp_mono; [eapply IH; [exact Hok1|]| |].
  - unfold zlen in *. by rewrite (cp_files _ _ _ _ _ Hc).
  - intros _ [w2 s2] (Hc2 & Hsw2 & Hh2). cbn in *. split_and!; [by eapply compacted_trans| |auto].
    constructor; [by eapply compacted_swept|done].
  - intros e [w2 s2] [Hc2 Hint]. cbn in *. split; [by eapply compacted_trans|].
    intros Hw Hi0. apply Hint; [auto|]. by eapply compacted_intact.
Qed.

Lemma compact_wp live w s segs :
  store_ok w s segs →
  wp (compact live)
    (λ _ st, compacted live w s st.1 st.2 ∧
       Forall (swept live st.2) (seqZ 0 (saturating_sub (zlen (files s)) 1)) ∧ (healthy w → healthy st.1))
    (λ _ st, partial live w s st) (w, s).
Proof.
  intros Hok. unfold compact. apply wp_bind. unfold wp at 1; cbn [store].
  eapply compact_segments_wp; [exact Hok|]. apply Forall_forall. intros i Hi.
  apply elem_of_seqZ in Hi. unfold saturating_sub in Hi. lia.
Qed.

(** A sweep that dropped nothing changed nothing. *)
Definition ends {S E A} (P : A → Prop) (m : ST S E A) : Prop :=
  ∀ st st' a, m st = (st', Ok a) → P a.
Lemma ends_bind {S E A B} (P : B → Prop) (m : ST S E A) (f : A → ST S E B) :
  (∀ a, ends P (f a)) → ends P (m ≫= f).
Proof. intros Hf st st' b (s1 & a & _ & E')%st_bind_Ok. by eapply Hf. Qed.

Lemma compact_segment_dropped live seg stats st st' stats' :
  compact_segment live seg stats st = (st', Ok stats') →
  (stats' = stats ∧ st' = st) ∨ blocks_dropped stats < blocks_dropped stats'.
Proof.
  destruct st as [w s]. unfold compact_segment. rewrite st_bind_Ok.
  intros (? & ? & [= <- <-] & E). destruct (bool_decide _) eqn:Ed in E.
  { injection E as <- <-. by left. }
  apply bool_decide_eq_false in Ed. right. revert E. apply (ends_bind (λ c, blocks_dropped stats < blocks_dropped c)).
  intros old. do 2 (apply ends_bind; intros ?). apply ends_bind. intros [new_locs offset].
  repeat (apply ends_bind; intros ?). intros st1 st2 c [= _ <-]. cbn.
  match goal with |- context [zlen ?l] => 
    pose proof (zlen_nonneg l); assert (zlen l ≠ 0) by (by rewrite zlen_0) end. lia.
Qed.

Lemma compact_dropped live st st' stats' :
  compact live st = (st', Ok stats') →
  0 ≤ blocks_dropped stats' ∧ (blocks_dropped stats' = 0 → st' = st).
Proof.
  destruct st as [w s]. unfold compact. rewrite st_bind_Ok. intros (? & ? & [= <- <-] & E). revert E.
  assert (∀ segs stats st, compact_segments live segs stats st = (st', Ok stats') →
    (stats' = stats ∧ st' = st) ∨ blocks_dropped stats < blocks_dropped stats') as Hall.
  { induction segs as [|g segs IH]; intros stats st; cbn.
    - intros [= <- <-]. by left.
    - rewrite st_bind_Ok. intros (st1 & c & E1 & E2). apply IH in E2.
      destruct (compact_segment_dropped _ _ _ _ _ _ E1) as [[-> ->]|?]; [done|right].
      destruct E2 as [[-> _]|?]; lia. }
  intros [[-> ->]|Hlt]%Hall; [done|]. cbn in Hlt. split; lia.
Qed.

(** C11. Compaction never loses a live block.  Whatever the device does and
    wherever the sweep stops, every id keeps its bytes unless it is dead and
    gone, the store stays well-formed and the tail is untouched.  On a
    responsive device with no rotten block it completes, and then no dead
    block is left in a sealed segment. *)
Theorem compaction_keeps_live live w s segs :
  store_ok w s segs →
  let st := (compact live (w, s)).1 in
  (∃ segs', store_ok st.1 st.2 segs') ∧ append st.2 = append s ∧
  (∀ id, view st.1 st.2 id = view w s id ∨ (live id = false ∧ view st.1 st.2 id = None)) ∧
  (healthy w → intact w s →
     is_ok (compact live (w, s)).2 = true ∧
     ∀ id loc, index st.2 !! id = Some loc → loc_segment loc < zlen (files s) - 1 → live id = true).
Proof.
  intros Hok. cbn zeta.
  pose proof (compact_wp live w s segs Hok) as Hwp.
  unfold wp in Hwp. destruct (compact live (w, s)) as [[w' s'] [c|e|]]; cbn; [| |done].
  - destruct Hwp as (Hc & Hsw & _). split_and!; [apply Hc|apply Hc|apply Hc|]. intros _ _. split; [done|].
    intros id loc Hi Hl. eapply (proj1 (Forall_forall _ _) Hsw (loc_segment loc)); [|done|done].
    destruct (cp_ok _ _ _ _ _ Hc) as [segs' [Hd Hix _ _ _]].
    destruct (segment_record _ _ _ _ _ Hd (Hix _ _ Hi)) as (_ & _ & _ & _ & _ & _ & H0' & _).
    apply elem_of_seqZ. unfold saturating_sub. lia.
  - destruct Hwp as [Hc Hint]. split_and!; [apply Hc|apply Hc|apply Hc|]. intros Hw Hi. by destruct (Hint Hw Hi).
Qed.

End Compact.

(** ** Integrity check *)
Section Verify.
Context {W F : Type} `{SegmentIoLaws W F, Blake3, HashOrderLaws}.

(** [verify_ids] classifies each id by what [get] says. *)
Lemma verify_ids_spec ids r w s segs :
  store_ok w s segs → healthy w → Forall (λ id, is_Some (view w s id)) ids →
  ∃ w' r', verify_ids ids r (w, s) = ((w', s), Ok r') ∧ same_disk w w' ∧ healthy w' ∧
    unreadable r' = unreadable r ∧
    blocks_checked r' + zlen (corrupt r') = blocks_checked r + zlen (corrupt r) + zlen ids ∧
    corrupt r' = corrupt r ++ base.filter (λ id, readable w s id = false) ids.
Proof.
  revert r w. induction ids as [|id ids IH]; intros r w Hok Hw Hall; cbn [verify_ids].
  { exists w, r. rewrite app_nil_r, zlen_nil. split_and!; auto; try done. lia. }
  apply Forall_cons in Hall as [[p Hp] Hall].
  destruct (get_refines_lookup id w s segs Hok Hw) as (w1 & E & Hsame & Hw1).
  assert (∀ i, view w1 s i = view w s i) as Hv by (intros; by apply view_same).
  assert (∀ r1 : VerifyReport, Forall (λ i, is_Some (view w1 s i)) ids) as Hall1.
  { intros _. eapply Forall_impl; [exact Hall|]. intros i. by rewrite Hv. }
  assert (∀ i, readable w1 s i = readable w s i) as Hrd by (intros i; unfold readable; by rewrite Hv).
  unfold abs_get in E. rewrite Hp in E. unfold mbind, ST_bind, verify_one. rewrite E.
  assert (readable w s id = block_verify id p) as Hr by (unfold readable; by rewrite Hp).
  rewrite filter_cons. destruct (block_verify id p) eqn:Hb.
  - rewrite decide_False by congruence.
    destruct (IH (MkReport (blocks_checked r + 1) (bytes_checked r + zlen p) (corrupt r) (unreadable r)) w1
      (store_ok_same _ _ _ _ Hsame Hok) Hw1 (Hall1 r)) as (w2 & r2 & -> & Hs2 & Hw2 & U & N & Co).
    exists w2, r2. cbn in *. split_and!; auto; [by transitivity w1|zl|].
    rewrite Co. f_equal. apply list_filter_iff. intros i. by rewrite Hrd.
  - rewrite decide_True by congruence.
    destruct (IH (MkReport (blocks_checked r) (bytes_checked r) (corrupt r ++ [id]) (unreadable r)) w1
      (store_ok_same _ _ _ _ Hsame Hok) Hw1 (Hall1 r)) as (w2 & r2 & -> & Hs2 & Hw2 & U & N & Co).
    exists w2, r2. cbn in *. split_and!; auto; [by transitivity w1|zl|].
    rewrite Co, <-app_assoc. cbn. do 2 f_equal. apply list_filter_iff. intros i. by rewrite Hrd.
Qed.

(** [verify_all] is complete and exact: on a responsive device it checks
    every indexed block, reports none as unreadable, reports as corrupt
    exactly those whose bytes do not hash to their id, and is clean exactly
    when the store is intact. *)
Theorem verify_all_finds_rot w s segs :
  store_ok w s segs → healthy w →
  ∃ w' r, verify_all (w, s) = ((w', s), Ok r) ∧ same_disk w w' ∧ unreadable r = [] ∧
    blocks_checked r + zlen (corrupt r) = zsize (index s) ∧
    (∀ id, id ∈ corrupt r ↔ ∃ p, view w s id = Some p ∧ block_of p ≠ id) ∧
    (is_clean r = true ↔ intact w s) ∧ healthy w'.
Proof.
  intros Hok Hw. set (ids := (hash_order (map_to_list (index s))).*1).
  assert (∀ id, id ∈ ids ↔ is_Some (view w s id)) as Hids.
  { intros id. rewrite <-(contains_view w s segs id Hok), contains_key_true. subst ids.
    rewrite list_elem_of_fmap. split.
    - intros ([i l] & -> & Hin). rewrite hash_order_perm in Hin. apply elem_of_map_to_list in Hin. eauto.
    - intros [l Hl]. exists (id, l). split; [done|]. rewrite hash_order_perm. by apply elem_of_map_to_list. }
  destruct (verify_ids_spec ids (MkReport 0 0 [] []) w s segs Hok Hw) as (w' & r & E & Hs & Hw' & U & N & Co).
  { apply Forall_forall. intros id. by rewrite Hids. }
  cbn in U, N, Co.
  assert (∀ id, id ∈ corrupt r ↔ ∃ p, view w s id = Some p ∧ block_of p ≠ id) as Hc.
  { intros id. rewrite Co, list_elem_of_filter, Hids. unfold readable. split.
    - intros [Hr [p Hp]]. rewrite Hp in Hr. exists p. by apply block_verify_false in Hr.
    - intros (p & -> & Hp). split; [by apply block_verify_false|eauto]. }
  exists w', r. split_and!; [exact E|done|done| |done| |done].
  - rewrite N. subst ids. rewrite zlen_fmap. unfold zlen, zsize.
    rewrite hash_order_perm, length_map_to_list. cbn. lia.
  - unfold is_clean. rewrite U, (bool_decide_eq_true_2 (_ = _) eq_refl), andb_true_r, bool_decide_eq_true. split.
    + intros En id p Hp. destruct (decide (block_of p = id)); [done|]. exfalso.
      enough (id ∈ corrupt r) by (rewrite En in *; by eapply not_elem_of_nil). apply Hc. eauto.
    + intros Hi. destruct (corrupt r) as [|id l]; [done|]. exfalso.
      destruct (proj1 (Hc id) ltac:(by left)) as (p & Hp & Hne). by apply Hi in Hp.
Qed.

End Verify.

(** ** Concrete stores *)
#[local] Existing Instance toy_blake3.
#[local] Existing Instance toy_order.
#[local] Existing Instance toy_order_laws.

Lemma verify_all_finds_rot_witness :
  ∃ w' r, verify_all (disk_of [rec1; rotten] [], store_of [rec1; rotten])
    = ((w', store_of [rec1; rotten]), Ok r) ∧ block_of [x02] ∈ corrupt r.
Proof.
  destruct (verify_all_finds_rot (disk_of [rec1; rotten] []) (store_of [rec1; rotten])
    [([rec1; rotten], [])]) as (w' & r & E & _ & _ & _ & Hc & _).
  - apply disk_of_ok; [by repeat constructor|by vm_compute].
  - reflexivity.
  - exists w', r. split; [exact E|]. apply Hc. exists [x01]. split; [vm_compute; reflexivity|].
    vm_compute. discriminate.
Defined.

(** Two segments: the first is sealed. *)
Definition two_disk : Disk :=
  MkDisk {[ 0%N := enc_all [rec1; (block_of [x02], [x02])]; 1%N := enc_all [] ]}
    {[ SegName 0 := 0%N; SegName 1 := 1%N ]} [].
Definition two_segs : list (list (BlockId * bytes) * bytes) :=
  [([rec1; (block_of [x02], [x02])], []); ([], [])].
Definition two_store : BlockStore N :=
  MkStore (insert_all ∅ (all_locs 0 two_segs)) [0%N; 1%N] 0 DEFAULT_SEGMENT_ROLL_BYTES false.

Lemma two_dir p f :
  entries two_disk !! p = Some f ↔ (p = SegName 0 ∧ f = 0%N) ∨ (p = SegName 1 ∧ f = 1%N).
Proof.
  cbn. rewrite lookup_insert_Some, lookup_singleton_Some. split; [naive_solver|].
  intros [[-> ->]|[-> ->]]; [by left|by right].
Qed.

Lemma two_ok : store_ok two_disk two_store two_segs.
Proof.
  constructor; try done.
  - constructor.
    + repeat constructor; vm_compute; try reflexivity; try discriminate.
    + intros i f. cbn [dir_of std_view]. rewrite two_dir. destruct i as [|[|i]]; cbn; split;
        try naive_solver lia.
    + intros n [f Hf]. cbn [dir_of std_view] in Hf. apply two_dir in Hf as [[[= ->] _]|[[= ->] _]]; done.
    + intros p q f. cbn [dir_of std_view]. rewrite !two_dir. naive_solver.
  - by apply (exact_sound two_store).
  - intros _. by exists [([rec1; (block_of [x02], [x02])], [])], [], [].
Qed.

Lemma compaction_keeps_live_witness :
  let live id := bool_decide (id = block_of [x01]) in
  let st := (compact live (two_disk, two_store)).1 in
  view st.1 st.2 (block_of [x01]) = Some [x01] ∧ view st.1 st.2 (block_of [x02]) = None.
Proof.
  cbn zeta. set (live id := bool_decide (id = block_of [x01])).
  destruct (compaction_keeps_live live two_disk two_store two_segs two_ok) as (_ & _ & Hv & _).
  split.
  - destruct (Hv (block_of [x01])) as [->|[E _]]; [vm_compute; reflexivity|].
    vm_compute in E. discriminate.
  - vm_compute. reflexivity.
Defined.
