(* ===== verification/Uring.v ===== *)
(** * The io_uring backend ([crates/kalpak-storage/src/uring.rs])

    The second implementation of [SegmentFile]: writes go through a
    submission ring in rounds, reads are positioned reads, and with [O_DIRECT]
    everything is widened to aligned windows.  The kernel is a parameter: a
    file, what of it is durable, and the two queues of the ring; [UringLaws]
    says what the kernel promises, and that is little: queued writes are
    carried out in any order and may fail or be cut short, and only a drained
    flush comes last.  The debug assertion on the number of completions is
    not modelled. *)

From S2P Require Import Prelude Core Io Segment.
From Stdlib Require Import Strings.Byte.

Definition RING_DEPTH : Z := 128.

(** Submission and completion entries.  A flush always carries [IO_DRAIN]; a
    write entry gives the kernel the length of its buffer cut to 32 bits. *)
Inductive Sqe :=
| SWrite (offset : Z) (buf : bytes) (user_data : Z)
| SFsync (user_data : Z).
Record Cqe := MkCqe { cq_user_data : Z; cq_result : Z }.
Definition sqe_data (e : Sqe) : Z := match e with SWrite _ _ u | SFsync u => u end.

Class Uring (K : Type) := {
  k_file : K → bytes;
  k_durable : K → bytes;
  k_sq : K → list Sqe;
  k_cq : K → list Cqe;
  k_open : bool → K → K * res io_error ();          (** with [O_DIRECT]? *)
  k_ring : K → K * res io_error ();                 (** [IoUring::new] *)
  k_push : Sqe → K → option K;
  k_submit_and_wait : Z → K → K * res io_error ();
  k_next : K → K;                                   (** consumes a completion *)
  k_len : K → K * res io_error Z;
  k_sync : K → K * res io_error ();
  k_pread : Z → Z → K → K * res io_error bytes }.

(** ** Alignment *)
Definition align_down (v : Z) : Z := Z.ldiff v (BLOCK_ALIGN - 1).
Definition align_up (v : Z) : Z := u64_mul (div_ceil v BLOCK_ALIGN) BLOCK_ALIGN.

(** [AlignedBuf::zeroed]: the layout must fit in [isize]. *)
Definition aligned_zeroed (len : Z) : res io_error bytes :=
  let size := Z.max len BLOCK_ALIGN in
  if 2 ^ 63 - BLOCK_ALIGN <? size then Panic else Ok (replicate (Z.to_nat size) x00).

Section Uring.
Context {K : Type} `{Uring K}.
Abbreviation KM := (ST K io_error).

(** [open]: falls back when the file system refuses [O_DIRECT]; the result is
    the [direct] flag. *)
Definition uring_open : KM bool := λ k,
  let (k, direct) :=
    match k_open true k with
    | (k, Ok _) => (k, Ok true)
    | (k, _) => let (k, r) := k_open false k in (k, match r with Ok _ => Ok false | Err e => Err e | Panic => Panic end)
    end in
  match direct with
  | Ok d => let (k, r) := k_ring k in (k, match r with Ok _ => Ok d | Err e => Err e | Panic => Panic end)
  | r => (k, r)
  end.

(** ** One round *)
Definition push (e : Sqe) : KM () := λ k,
  match k_push e k with
  | Some k => (k, Ok ())
  | None => (k, Err (io_other "submission queue is full"))
  end.
Fixpoint push_writes (writes : list (Z * bytes)) (expected : Z) : KM Z :=
  match writes with
  | [] => mret expected
  | (offset, buf) :: writes =>
      push (SWrite offset buf expected) ≫= λ _, push_writes writes (expected + 1)
  end.

(** The completions that are ready; leaving the loop leaves the rest. *)
Fixpoint reap (writes : list (Z * bytes)) (ready : list Cqe) : KM () :=
  match ready with
  | [] => mret ()
  | cqe :: ready =>
      st_modify k_next ≫= λ _,
      if cq_result cqe <? 0 then st_throw (io_other "os error")
      else if cq_user_data cqe =? u64_max then reap writes ready
      else
        match writes !! Z.to_nat (cq_user_data cqe) with
        | None => st_lift Panic
        | Some w =>
            if cq_result cqe =? zlen w.2 then reap writes ready
            else st_throw (IoError KWriteZero "short io_uring write")
        end
  end.
Definition reap_ready (writes : list (Z * bytes)) : KM () := λ k, reap writes (k_cq k) k.
Definition submit_and_wait (want : Z) : KM () := k_submit_and_wait want.
Definition submit_round (writes : list (Z * bytes)) (fsync : bool) : KM () :=
  push_writes writes 0 ≫= λ expected,
  (if fsync then push (SFsync u64_max) else mret ()) ≫= λ _,
  submit_and_wait (if fsync then expected + 1 else expected) ≫= λ _,
  reap_ready writes.

(** ** Coalescing *)
Definition misaligned (offset : Z) : bool := negb (offset mod BLOCK_ALIGN =? 0).
Definition not_aligned {A} : res io_error A := Err (IoError KInvalidInput "O_DIRECT write offset not aligned").
Definition run_buffer (run : bytes) : res io_error bytes :=
  buf ← aligned_zeroed (align_up (zlen run)); Ok (splice buf run 0).
(** The writes after a run that began at [start] and holds [run] so far. *)
Fixpoint runs_from (start : Z) (run : bytes) (writes : list (Z * bytes)) : res io_error (list (Z * bytes)) :=
  match writes with
  | [] => buf ← run_buffer run; Ok [(start, buf)]
  | (offset, b) :: writes =>
      if offset =? u64_add start (zlen run) then runs_from start (run ++ b) writes
      else
        buf ← run_buffer run;
        rest ← (if misaligned offset then not_aligned else runs_from offset b writes);
        Ok ((start, buf) :: rest)
  end.
Definition align_writes (writes : list (Z * bytes)) : res io_error (list (Z * bytes)) :=
  match writes with
  | [] => Ok []
  | (offset, b) :: writes => if misaligned offset then not_aligned else runs_from offset b writes
  end.

(** ** Batches *)

(** [slice::chunks]. *)
Fixpoint chunks_of {A} (fuel n : nat) (l : list A) : list (list A) :=
  match fuel, l with
  | S fuel, _ :: _ => take n l :: chunks_of fuel n (drop n l)
  | _, _ => []
  end.
Fixpoint submit_rounds (rounds : list (list (Z * bytes))) (sync_after : bool) : KM () :=
  match rounds with
  | [] => mret ()
  | round :: rounds =>
      submit_round round (sync_after && bool_decide (rounds = [])) ≫= λ _, submit_rounds rounds sync_after
  end.
Definition in_rounds (writes : list (Z * bytes)) (sync_after : bool) : KM () :=
  submit_rounds (chunks_of (length writes) (Z.to_nat (RING_DEPTH - 1)) writes) sync_after.
Definition write_batch_direct (writes : list (Z * bytes)) (sync_after : bool) : KM () :=
  st_lift (align_writes writes) ≫= λ runs, in_rounds runs sync_after.

(** ** [SegmentFile for UringFile] *)
Definition uring_len : KM Z := k_len.
Definition uring_sync : KM () := k_sync.
Definition read_exact (offset n : Z) : KM bytes := k_pread offset n.
Definition uring_read_at (direct : bool) (n offset : Z) : KM bytes :=
  if negb direct then read_exact offset n
  else
    let start := align_down offset in
    let end_ := align_up (u64_add offset n) in
    st_lift (aligned_zeroed (end_ - start)) ≫= λ window,
    read_exact start (zlen window) ≫= λ window,
    mret (zslice window (offset - start) n).
Definition uring_write_at (direct : bool) (buf : bytes) (offset : Z) : KM () :=
  if direct then write_batch_direct [(offset, buf)] false else submit_round [(offset, buf)] false.
Definition uring_write_batch (direct : bool) (writes : list (Z * bytes)) (sync_after : bool) : KM () :=
  if bool_decide (writes = []) then (if sync_after then uring_sync else mret ())
  else if direct then write_batch_direct writes sync_after
  else in_rounds writes sync_after.
End Uring.
