(* ===== verification/UringTheorems.v ===== *)
(** * The io_uring backend agrees with the portable one

    A batch of ascending writes that succeeds through the ring leaves the same
    bytes as the writes carried out one after the other, whatever order the
    kernel completes them in, and flushed if that was asked for; a failed
    batch leaves everything before its first offset alone; and a direct read
    returns the bytes of a plain one. *)

From S2P Require Import Prelude Core Io Segment Uring.
From Stdlib Require Import Strings.Byte.

(** ** Overwriting *)
Lemma splice_lookup (l b : bytes) (o : Z) n :
  splice l b o !! n =
    if decide (n < Z.to_nat o)%nat then (if decide (n < length l)%nat then l !! n else Some x00)
    else if decide (n < Z.to_nat o + length b)%nat then b !! (n - Z.to_nat o)%nat else l !! n.
Proof.
  unfold splice. set (i := Z.to_nat o). rewrite app_assoc.
  assert (length (take i l ++ replicate (i - length l) x00) = i) as Hl by (rewrite length_app, length_take, length_replicate; lia).
  case_decide.
  - rewrite lookup_app_l by lia. case_decide.
    + rewrite lookup_app_l by (rewrite length_take; lia). by rewrite lookup_take_lt.
    + rewrite lookup_app_r by (rewrite length_take; lia). rewrite lookup_replicate_2; [done|]. rewrite length_take. lia.
  - rewrite lookup_app_r by lia. rewrite Hl. case_decide; [by rewrite lookup_app_l by lia|].
    rewrite lookup_app_r, lookup_drop by lia. f_equal. lia.
Qed.
Lemma splice_length (l b : bytes) o : length (splice l b o) = Nat.max (length l) (Z.to_nat o + length b).
Proof. unfold splice. rewrite !length_app, length_take, length_replicate, length_drop. lia. Qed.

Lemma splice_comm l a b i j :
  0 ≤ i → i + zlen a ≤ j → splice (splice l a i) b j = splice (splice l b j) a i.
Proof.
  intros Hi Hj. unfold zlen in Hj. apply list_eq. intros n. rewrite !splice_lookup, !splice_length.
  repeat case_decide; try lia; try done.
Qed.
Lemma splice_app_at l a b i : 0 ≤ i → splice l (a ++ b) i = splice (splice l a i) b (i + zlen a).
Proof.
  intros Hi. apply list_eq. intros n. unfold zlen. rewrite !splice_lookup, !splice_length, !length_app.
  replace (Z.to_nat (i + Z.of_nat (length a))) with (Z.to_nat i + length a)%nat by lia.
  repeat case_decide; try lia; try done.
  - by rewrite lookup_app_l by lia.
  - rewrite lookup_app_r by lia. f_equal. lia.
Qed.
Lemma splice_before l b first o :
  0 ≤ first ≤ zlen l → first ≤ o → take (Z.to_nat first) (splice l b o) = take (Z.to_nat first) l.
Proof.
  intros Hf Ho. unfold zlen in Hf. apply list_eq. intros n. destruct (decide (n < Z.to_nat first)%nat).
  - rewrite !lookup_take_lt, splice_lookup by done. by rewrite !decide_True by lia.
  - by rewrite !lookup_take_ge by lia.
Qed.
Lemma splice_zeros (run : bytes) : splice (replicate (length run) x00) run 0 = run.
Proof.
  unfold splice. cbn. rewrite drop_ge by (rewrite length_replicate; lia). by rewrite app_nil_r.
Qed.

(** ** The reference: one write after the other *)
Definition put_at (f : bytes) (w : Z * bytes) : bytes := splice f w.2 w.1.
Definition written (f : bytes) (ws : list (Z * bytes)) : bytes := foldl put_at f ws.

(** The same as the portable backend without faults. *)
Lemma write_all_portable (f : N) ws (d : Disk) :
  faults d = [] →
  (write_all f ws d).2 = Ok () ∧ disk_bytes (write_all f ws d).1 f = written (disk_bytes d f) ws.
Proof.
  revert d. induction ws as [|[o b] ws IH]; intros d Hd; [done|].
  assert (write_all f ((o, b) :: ws) d = write_all f ws (set_bytes f (splice (disk_bytes d f) b o) d)) as ->.
  { cbn [write_all]. unfold mbind, ST_bind, f_write, std_io, std_write_at, pop_fault. by rewrite Hd. }
  destruct (IH (set_bytes f (splice (disk_bytes d f) b o) d) Hd) as [-> ->]. split; [done|].
  by rewrite disk_bytes_set, decide_True.
Qed.

(** Ascending writes from [first] on; for direct I/O they are whole aligned
    blocks.  Files stay below 2^63 bytes. *)
Fixpoint ascending (direct : bool) (first : Z) (ws : list (Z * bytes)) : Prop :=
  match ws with
  | [] => True
  | (o, b) :: ws =>
      first ≤ o ∧ b ≠ [] ∧ o + zlen b ≤ 2 ^ 63 - BLOCK_ALIGN ∧
      (direct = true → o mod BLOCK_ALIGN = 0 ∧ zlen b mod BLOCK_ALIGN = 0) ∧
      ascending direct (o + zlen b) ws
  end.

Lemma ascending_weaken direct first first' ws : first' ≤ first → ascending direct first ws → ascending direct first' ws.
Proof. destruct ws as [|[o b] ws]; [done|]. cbn. intros ? (? & ?). split; [lia|done]. Qed.
Lemma ascending_elem direct first ws w : ascending direct first ws → w ∈ ws → first ≤ w.1.
Proof.
  revert first. induction ws as [|[o b] ws IH]; intros first; [by intros _ ?%elem_of_nil|].
  cbn. intros (? & _ & _ & _ & Hr) [->|Hw]%elem_of_cons; [done|]. pose proof (IH _ Hr Hw). pose proof (zlen_nonneg b). lia.
Qed.
Lemma ascending_app direct first ws1 ws2 :
  ascending direct first (ws1 ++ ws2) → ascending direct first ws1 ∧ ∃ mid, first ≤ mid ∧ ascending direct mid ws2.
Proof.
  revert first. induction ws1 as [|[o b] ws1 IH]; intros first; cbn; [intros ?; split; [done|]; exists first; split; [lia|done]|].
  intros (? & ? & ? & ? & (? & mid & ? & ?)%IH). split; [done|]. exists mid. pose proof (zlen_nonneg b). split; [lia|done].
Qed.
(** Any two of them commute. *)
Lemma ascending_comm direct first ws f x y :
  0 ≤ first → ascending direct first ws → x ∈ ws → y ∈ ws → put_at (put_at f x) y = put_at (put_at f y) x.
Proof.
  revert first. induction ws as [|[o b] ws IH]; intros first Hf; [by intros _ ?%elem_of_nil|].
  cbn. intros (? & _ & _ & _ & Hr) Hx Hy. pose proof (zlen_nonneg b).
  assert (∀ z, z ∈ ws → put_at (put_at f (o, b)) z = put_at (put_at f z) (o, b)) as Hc.
  { intros z Hz. apply splice_comm; cbn; [lia|]. by eapply ascending_elem. }
  apply elem_of_cons in Hx as [->|Hx], Hy as [->|Hy]; auto; [symmetry; auto|]. apply (IH (o + zlen b)); auto. lia.
Qed.
Lemma foldl_perm {A B} (f : B → A → B) l1 l2 b :
  l1 ≡ₚ l2 → (∀ b x y, x ∈ l1 → y ∈ l1 → f (f b x) y = f (f b y) x) → foldl f b l1 = foldl f b l2.
Proof.
  intros Hp. revert b. induction Hp as [|x l1 l2 Hp IH|x y l|l1 l2 l3 H12 IH1 H23 IH2]; intros b Hc; cbn; [done| | |].
  - apply IH. intros. apply Hc; by right.
  - rewrite (Hc b y x); [done|by left|right; by left].
  - rewrite IH1 by done. apply IH2. intros b' x y. rewrite <-H12. apply Hc.
Qed.

(** ** What the kernel promises *)

(** Executed entries with their results, from one content of the file and of
    the disk to another.  A write stores some first bytes of its buffer, as
    many as it reports if it reports success, and never more than its 32-bit
    length; a successful flush makes the file durable. *)
Inductive ran : bytes → bytes → list (Sqe * Z) → bytes → bytes → Prop :=
| ran_nil f d : ran f d [] f d
| ran_nothing f d o b u res l f' d' :
    res ≤ 0 → ran f d l f' d' → ran f d ((SWrite o b u, res) :: l) f' d'
| ran_write f d o b u res k l f' d' :
    0 < Z.of_nat k ≤ zlen b mod 2 ^ 32 → (0 ≤ res → res = Z.of_nat k) →
    ran (splice f (take k b) o) d l f' d' → ran f d ((SWrite o b u, res) :: l) f' d'
| ran_fsync f d d1 u res l f' d' :
    (0 ≤ res → d1 = f) → ran f d1 l f' d' → ran f d ((SFsync u, res) :: l) f' d'.

Definition completion (x : Sqe * Z) : Cqe := MkCqe (sqe_data x.1) x.2.
Definition quiet {K} `{Uring K} (k : K) : Prop := k_sq k = [] ∧ k_cq k = [].

Class UringLaws (K : Type) `{Uring K} := {
  law_push : ∀ e k,
    match k_push e k with
    | Some k' => k_sq k' = k_sq k ++ [e] ∧ k_cq k' = k_cq k ∧ k_file k' = k_file k ∧ k_durable k' = k_durable k
    | None => RING_DEPTH ≤ zlen (k_sq k)
    end;
  law_submit : ∀ want k k' r, k_submit_and_wait want k = (k', r) → r ≠ Panic ∧
    ∃ run left, k_sq k ≡ₚ run.*1 ++ left ∧ ran (k_file k) (k_durable k) run (k_file k') (k_durable k') ∧
      (∀ l u run1 res run2, k_sq k = l ++ [SFsync u] → SFsync u ∉ l → run = run1 ++ (SFsync u, res) :: run2 → run2 = []) ∧
      (r = Ok () → k_cq k = [] → want = zlen (k_sq k) → left = [] ∧ k_sq k' = [] ∧ k_cq k' = completion <$> run);
  law_next : ∀ k, k_cq (k_next k) = tail (k_cq k) ∧ k_sq (k_next k) = k_sq k ∧
    k_file (k_next k) = k_file k ∧ k_durable (k_next k) = k_durable k;
  law_fsync : ∀ k k' r, k_sync k = (k', r) → r ≠ Panic ∧ k_file k' = k_file k ∧ k_sq k' = k_sq k ∧ k_cq k' = k_cq k ∧
    (r = Ok () → k_durable k' = k_file k');
  law_pread : ∀ off n k k' r, k_pread off n k = (k', r) → k_file k' = k_file k ∧ r ≠ Panic ∧
    (∀ l, r = Ok l → off + n ≤ zlen (k_file k) ∧ l = zslice (k_file k) off n) }.

Section UringTheorems.
Context {K : Type} `{UringLaws K}.

(** ** A round *)

(** Every executed entry leaves what is before [first] alone. *)
Lemma ran_before first l f d f' d' :
  ran f d l f' d' → 0 ≤ first ≤ zlen f → (∀ o b u res, (SWrite o b u, res) ∈ l → first ≤ o) →
  take (Z.to_nat first) f' = take (Z.to_nat first) f.
Proof.
  induction 1 as [f d|f d o b u res l f' d' Hres Hr IH|f d o b u res k l f' d' Hk Hres Hr IH|f d d1 u res l f' d' Hres Hr IH]; intros Hf Hl.
  - done.
  - apply IH; [done|]. intros o' b' u' r' Hi. apply (Hl o' b' u' r'). by right.
  - assert (first ≤ o) by (apply (Hl o b u res); by left). rewrite IH; [by apply splice_before| |].
    + unfold zlen. rewrite splice_length. unfold zlen in Hf. lia.
    + intros o' b' u' r' Hi. apply (Hl o' b' u' r'). by right.
  - apply IH; [done|]. intros o' b' u' r' Hi. apply (Hl o' b' u' r'). by right.
Qed.

(** Complete writes, in the order they were carried out. *)
Definition write_of (e : Sqe) : list (Z * bytes) := match e with SWrite o b _ => [(o, b)] | SFsync _ => [] end.
Definition full (x : Sqe * Z) : Prop := match x.1 with SWrite _ b _ => x.2 = zlen b ∧ b ≠ [] | SFsync _ => 0 ≤ x.2 end.
Lemma ran_full l f d f' d' :
  ran f d l f' d' → Forall full l →
  f' = written f (concat (write_of <$> l.*1)) ∧ (∀ l1 u res, l = l1 ++ [(SFsync u, res)] → d' = f').
Proof.
  induction 1 as [f d|f d o b u res l f' d' Hres Hr IH|f d o b u res k l f' d' Hk Hres Hr IH|f d d1 u res l f' d' Hres Hr IH]; intros Hf.
  - split; [done|]. intros [|? ?] u res E; done.
  - exfalso. apply Forall_cons in Hf as [[E Hb] _]. cbn in *. destruct b as [|c b]; [done|]. rewrite zlen_cons in E. pose proof (zlen_nonneg b). lia.
  - apply Forall_cons in Hf as [[E Hb] Hf]. cbn in E. destruct (IH Hf) as [IH1 IH2].
    assert (take k b = b) as Ek by (apply take_ge; pose proof (zlen_nonneg b); rewrite Hres in E by lia; unfold zlen in E; lia).
    rewrite Ek in *. split; [exact IH1|].
    intros [|x l1] u' res' E'; [done|]. apply (IH2 l1 u' res'). by simplify_eq/=.
  - apply Forall_cons in Hf as [E Hf]. cbn in E. destruct (IH Hf) as [IH1 IH2]. split; [exact IH1|].
    intros [|x l1] u' res' E'; simplify_eq/=; [|by apply (IH2 l1 u' res')]. inversion Hr; subst. by apply Hres.
Qed.

(** Queueing: the entries of the round, in order. *)
Definition entries_of (i : Z) (ws : list (Z * bytes)) : list Sqe := imap (λ j w, SWrite w.1 w.2 (i + Z.of_nat j)) ws.
Lemma entries_of_cons i o b ws : entries_of i ((o, b) :: ws) = SWrite o b i :: entries_of (i + 1) ws.
Proof.
  unfold entries_of. cbn. f_equal; [f_equal; lia|]. apply imap_ext. intros j w _. cbn. f_equal. lia.
Qed.
Definition pushed (l : list Sqe) (k k' : K) : Prop :=
  k_sq k' = k_sq k ++ l ∧ k_cq k' = k_cq k ∧ k_file k' = k_file k ∧ k_durable k' = k_durable k.
Lemma push_spec e k k' r : push e k = (k', r) →
  k_file k' = k_file k ∧ r ≠ Panic ∧ (r = Ok () → pushed [e] k k').
Proof.
  unfold push. pose proof (law_push e k) as Hl. destruct (k_push e k) as [k1|]; intros [= <- <-]; [|done].
  destruct Hl as (? & ? & ? & ?). by split_and!.
Qed.
Lemma push_writes_spec ws i k k' r : push_writes ws i k = (k', r) →
  k_file k' = k_file k ∧ r ≠ Panic ∧ (∀ n, r = Ok n → n = i + zlen ws ∧ pushed (entries_of i ws) k k').
Proof.
  revert i k. induction ws as [|[o b] ws IH]; intros i k E.
  { injection E as <- <-. split_and!; [done|done|]. intros n [= <-]. unfold pushed. cbn. rewrite app_nil_r. split_and!; try done. unfold zlen. cbn. lia. }
  cbn [push_writes] in E. unfold mbind, ST_bind in E. destruct (push (SWrite o b i) k) as [k1 r1] eqn:E1.
  destruct (push_spec _ _ _ _ E1) as (Hf1 & Hp1 & Ho1). destruct r1 as [[]|e|]; [|by simplify_eq|done].
  destruct (Ho1 eq_refl) as (Q1 & Q2 & Q3 & Q4). destruct (IH _ _ E) as (Hf & Hp & Ho). split_and!; [congruence|done|].
  intros n (-> & R1 & R2 & R3 & R4)%Ho. rewrite zlen_cons, entries_of_cons. split; [lia|].
  unfold pushed. rewrite R1, Q1, <-app_assoc. split_and!; [done|congruence..].
Qed.

Lemma reap_spec ws ready k k' r : reap ws ready k = (k', r) → k_cq k = ready →
  k_file k' = k_file k ∧ k_durable k' = k_durable k ∧ k_sq k' = k_sq k ∧
  (r = Panic → ∃ c, c ∈ ready ∧ cq_user_data c ≠ u64_max ∧ ws !! Z.to_nat (cq_user_data c) = None) ∧
  (r = Ok () → k_cq k' = [] ∧ ∀ c, c ∈ ready → 0 ≤ cq_result c ∧
     (cq_user_data c ≠ u64_max → ∃ w, ws !! Z.to_nat (cq_user_data c) = Some w ∧ cq_result c = zlen w.2)).
Proof.
  revert k. induction ready as [|c ready IH]; intros k E Hk.
  { injection E as <- <-. split_and!; try done. intros _. split; [done|]. by intros c ?%elem_of_nil. }
  cbn [reap] in E. unfold mbind, ST_bind, st_modify in E. destruct (law_next k) as (N1 & N2 & N3 & N4).
  rewrite Hk in N1. cbn in N1. rewrite <-N2, <-N3, <-N4.
  destruct (Z.ltb_spec (cq_result c) 0) as [|Hc]; [injection E as <- <-; by split_and!|].
  destruct (Z.eqb_spec (cq_user_data c) u64_max) as [Hu|Hu]; [|destruct (ws !! _) as [w|] eqn:Ew].
  - destruct (IH _ E N1) as (? & ? & ? & Hp & Ho). split_and!; try done.
    + intros (c' & ? & ? & ?)%Hp. exists c'. split_and!; try done. by right.
    + intros [? Ha]%Ho. split; [done|]. intros c' [->|Hi]%elem_of_cons; [by split|by apply Ha].
  - destruct (Z.eqb_spec (cq_result c) (zlen w.2)) as [Hz|]; [|injection E as <- <-; by split_and!].
    destruct (IH _ E N1) as (? & ? & ? & Hp & Ho). split_and!; try done.
    + intros (c' & ? & ? & ?)%Hp. exists c'. split_and!; try done. by right.
    + intros [? Ha]%Ho. split; [done|]. intros c' [->|Hi]%elem_of_cons; [split; [done|by exists w]|by apply Ha].
  - injection E as <- <-. split_and!; try done. intros _. exists c. split_and!; try done. by left.
Qed.

Lemma entries_of_elem i ws e : e ∈ entries_of i ws → ∃ j w, ws !! j = Some w ∧ e = SWrite w.1 w.2 (i + Z.of_nat j).
Proof. intros (j & w & -> & Hw)%elem_of_lookup_imap. by exists j, w. Qed.
Lemma entries_of_writes i ws : concat (write_of <$> entries_of i ws) = ws.
Proof. revert i. induction ws as [|[o b] ws IH]; intros i; [done|]. rewrite entries_of_cons. cbn. by rewrite IH. Qed.

(** What a round, or a whole batch, does. *)
Definition outcome (first : Z) (ws : list (Z * bytes)) (sync : bool) (k k' : K) (r : res io_error ()) : Prop :=
  r ≠ Panic ∧ take (Z.to_nat first) (k_file k') = take (Z.to_nat first) (k_file k) ∧
  (r = Ok () → k_file k' = written (k_file k) ws ∧ quiet k' ∧ (sync = true → k_durable k' = k_file k')).

Definition queue (ws : list (Z * bytes)) (fsync : bool) : list Sqe := entries_of 0 ws ++ (if fsync then [SFsync u64_max] else []).
Lemma queue_elem ws fsync e : e ∈ queue ws fsync →
  (∃ j w, ws !! j = Some w ∧ e = SWrite w.1 w.2 (Z.of_nat j)) ∨ e = SFsync u64_max.
Proof.
  intros [(j & w & ? & ->)%entries_of_elem|He]%elem_of_app; [left; by exists j, w|right].
  destruct fsync; [by apply list_elem_of_singleton in He|by apply elem_of_nil in He].
Qed.
Lemma queue_writes ws fsync : concat (write_of <$> queue ws fsync) = ws.
Proof. unfold queue. rewrite fmap_app, concat_app, entries_of_writes. destruct fsync; cbn; by rewrite app_nil_r. Qed.

(** Everything was queued, carried out and confirmed. *)
Lemma reaped_round direct first ws fsync k k1 k2 k' r run :
  zlen ws ≤ RING_DEPTH → 0 ≤ first → ascending direct first ws →
  k_file k1 = k_file k → k_sq k1 = queue ws fsync → k_sq k1 ≡ₚ run.*1 →
  ran (k_file k1) (k_durable k1) run (k_file k2) (k_durable k2) →
  (∀ l u run1 res run2, k_sq k1 = l ++ [SFsync u] → SFsync u ∉ l → run = run1 ++ (SFsync u, res) :: run2 → run2 = []) →
  k_sq k2 = [] → k_cq k2 = completion <$> run → reap ws (completion <$> run) k2 = (k', r) →
  r ≠ Panic ∧ k_file k' = k_file k2 ∧
  (r = Ok () → k_file k' = written (k_file k) ws ∧ quiet k' ∧ (fsync = true → k_durable k' = k_file k')).
Proof.
  intros Hn Hf Ha Hk Hq Hperm Hran Hdrain Hs2 Hc2 E. rewrite Hq in Hperm, Hdrain.
  destruct (reap_spec _ _ _ _ _ E Hc2) as (F1 & F2 & F3 & Hp & Ho).
  assert (∀ x, x ∈ run → x.1 ∈ queue ws fsync) as Hin by (intros x Hx; rewrite Hperm; by apply (list_elem_of_fmap_2 fst)).
  split_and!; [|done|].
  { intros (c & Hc & Hu & Hw)%Hp. apply list_elem_of_fmap in Hc as (x & -> & Hx). apply Hin, queue_elem in Hx as [(j & w & Hj & E1)|E1];
      destruct x as [e res]; cbn in *; subst e; cbn in *; [|done]. by rewrite Nat2Z.id, Hj in Hw. }
  intros [Hc' Hall]%Ho. assert (Forall full run) as Hfull.
  { apply Forall_forall. intros [e res] Hx. pose proof (Hin _ Hx) as He. destruct (Hall (completion (e, res))) as [Hpos Hres].
    { by apply (list_elem_of_fmap_2 completion). }
    cbn in *. apply queue_elem in He as [(j & w & Hj & ->)| ->]; [|done]. cbn in Hres. unfold full. cbn.
    destruct Hres as (w' & Hw' & ->); [apply lookup_lt_Some in Hj; unfold zlen, RING_DEPTH in Hn; unfold u64_max; lia|].
    rewrite Nat2Z.id, Hj in Hw'. injection Hw' as <-. split; [done|]. apply list_elem_of_lookup_2 in Hj.
    clear -Ha Hj. revert first Ha. induction ws as [|[o b] ws IH]; intros first; [by apply elem_of_nil in Hj|].
    intros (_ & ? & _ & _ & ?). apply elem_of_cons in Hj as [->|Hj]; [done|by eapply IH]. }
  destruct (ran_full _ _ _ _ _ Hran Hfull) as [Hw Hd]. rewrite Hk in Hw.
  assert (ws ≡ₚ concat (write_of <$> run.*1)) as Hws by (by rewrite <-Hperm, queue_writes).
  split_and!; [|split; [congruence|done]|].
  - rewrite F1, Hw. symmetry. apply foldl_perm; [done|]. intros b x y. by eapply ascending_comm.
  - intros ->. assert (SFsync u64_max ∈ run.*1) as Hs by (rewrite <-Hperm; apply elem_of_app; right; by left).
    apply list_elem_of_fmap in Hs as ([e res] & Ee & Hs). cbn in Ee. subst e. apply list_elem_of_split in Hs as (run1 & run2 & Er).
    assert (SFsync u64_max ∉ entries_of 0 ws) as Hno by (by intros (j & w & _ & ?)%entries_of_elem).
    assert (run2 = []) as -> by (by eapply Hdrain). rewrite F1, F2. by eapply Hd.
Qed.

Lemma submit_round_spec direct first ws fsync k k' r :
  quiet k → zlen ws ≤ RING_DEPTH → 0 ≤ first ≤ zlen (k_file k) → ascending direct first ws →
  submit_round ws fsync k = (k', r) → outcome first ws fsync k k' r.
Proof.
  intros [Hsq Hcq] Hn Hf Ha E. unfold submit_round, mbind, ST_bind in E.
  destruct (push_writes ws 0 k) as [k1 r1] eqn:E1. destruct (push_writes_spec _ _ _ _ _ E1) as (F1 & P1 & O1).
  destruct r1 as [n|e|]; [|injection E as <- <-; unfold outcome; rewrite F1; by split_and!|done].
  destruct (O1 n eq_refl) as (-> & S1 & C1 & _ & _).
  set (pu := if fsync then push (SFsync u64_max) else mret ()) in E. destruct (pu k1) as [k2 r2] eqn:E2.
  assert (k_file k2 = k_file k1 ∧ r2 ≠ Panic ∧ (r2 = Ok () → k_sq k2 = queue ws fsync ∧ k_cq k2 = [])) as (F2 & P2 & O2).
  { unfold pu in E2. destruct fsync; [destruct (push_spec _ _ _ _ E2) as (? & ? & Ho)|injection E2 as <- <-];
      (split_and!; [done|done|]); [intros (Q1 & Q2 & _ & _)%Ho; rewrite Q1, Q2|intros _]; unfold queue;
      rewrite S1, C1, Hsq, Hcq; cbn; rewrite ?app_nil_r; by split. }
  destruct r2 as [[]|e|]; [|injection E as <- <-; unfold outcome; rewrite F2, F1; by split_and!|done].
  destruct (O2 eq_refl) as [S2 C2]. set (want := if fsync then 0 + zlen ws + 1 else 0 + zlen ws) in E.
  destruct (submit_and_wait want k2) as [k3 r3] eqn:E3. destruct (law_submit _ _ _ _ E3) as (P3 & run & left & Hperm & Hran & Hdrain & O3).
  assert (∀ o b u res, (SWrite o b u, res) ∈ run → first ≤ o) as Hfirst.
  { intros o b u res Hi%(list_elem_of_fmap_2 fst). assert (SWrite o b u ∈ k_sq k2) as Hq by (rewrite Hperm; set_solver).
    rewrite S2 in Hq. apply queue_elem in Hq as [(j & w & Hj & [= -> _ _])|]; [|done].
    apply list_elem_of_lookup_2 in Hj. by eapply ascending_elem. }
  assert (take (Z.to_nat first) (k_file k3) = take (Z.to_nat first) (k_file k)) as Hpre.
  { rewrite (ran_before first _ _ _ _ _ Hran); rewrite ?F2, ?F1; done. }
  destruct r3 as [[]|e|]; [|injection E as <- <-; by split_and!|done].
  destruct (O3 eq_refl C2) as (-> & S3 & C3).
  { rewrite S2. unfold want, queue, entries_of, zlen. rewrite length_app, length_imap. destruct fsync; cbn; lia. }
  rewrite app_nil_r in Hperm. unfold reap_ready in E. rewrite C3 in E.
  destruct (reaped_round direct first ws fsync k k2 k3 k' r run) as (Hnp & Hfile & Hok); try done; [lia|congruence|].
  split_and!; [done|by rewrite Hfile|done].
Qed.

(** ** Rounds *)
Lemma chunks_of_spec {A} fuel n (l : list A) :
  (0 < n)%nat → (length l <= fuel)%nat →
  concat (chunks_of fuel n l) = l ∧ Forall (λ c, c ≠ [] ∧ (length c <= n)%nat) (chunks_of fuel n l).
Proof.
  intros Hn. revert l. induction fuel as [|fuel IH]; intros [|x l] Hl; cbn in Hl; try lia; [by split; [|constructor]..|].
  cbn [chunks_of]. destruct (IH (drop n (x :: l))) as [E Hf]; [rewrite length_drop; cbn; lia|]. split.
  - cbn [concat]. by rewrite E, take_drop.
  - constructor; [|done]. split; [destruct n; [lia|done]|rewrite length_take; lia].
Qed.

Lemma rounds_spec direct rounds sync first k k' r :
  quiet k → Forall (λ c, c ≠ [] ∧ (length c <= 127)%nat) rounds → rounds ≠ [] →
  0 ≤ first ≤ zlen (k_file k) → ascending direct first (concat rounds) →
  submit_rounds rounds sync k = (k', r) → outcome first (concat rounds) sync k k' r.
Proof.
  intros Hq Hall. revert k Hq. induction Hall as [|c rounds [Hc Hlen] Hall IH]; intros k Hq Hne Hf Ha E; [done|].
  cbn [submit_rounds concat] in *. apply ascending_app in Ha as [Hac (mid & Hmid & Har)].
  unfold mbind, ST_bind in E. destruct (submit_round c _ k) as [k1 r1] eqn:E1.
  apply (submit_round_spec direct first) in E1 as (P1 & T1 & O1); [|done|unfold zlen, RING_DEPTH; lia|done|done].
  destruct r1 as [[]|e|]; [|injection E as <- <-; by split_and!|done]. destruct (O1 eq_refl) as (W1 & Q1 & S1).
  destruct (decide (rounds = [])) as [->|Hr].
  - injection E as <- <-. cbn [concat]. rewrite app_nil_r. split_and!; [done|done|]. intros _. split_and!; [done|done|].
    intros ->. by apply S1.
  - assert (first ≤ zlen (k_file k1)) as Hf1.
    { apply (f_equal length) in T1. rewrite !length_take in T1. unfold zlen in *. lia. }
    destruct (IH k1 Q1 Hr ltac:(lia) (ascending_weaken _ _ _ _ Hmid Har) E) as (P & T & O).
    split_and!; [done|congruence|]. intros (W & Q & Sy)%O. split_and!; [|done|done]. unfold written in *. by rewrite foldl_app, <-W1.
Qed.
Lemma in_rounds_spec direct ws sync first k k' r :
  quiet k → ws ≠ [] → 0 ≤ first ≤ zlen (k_file k) → ascending direct first ws →
  in_rounds ws sync k = (k', r) → outcome first ws sync k k' r.
Proof.
  intros Hq Hne Hf Ha E. unfold in_rounds in E. change (Z.to_nat (RING_DEPTH - 1)) with 127%nat in E.
  destruct (chunks_of_spec (length ws) 127 ws ltac:(lia) ltac:(lia)) as [Ec Hall]. rewrite <-Ec in Ha |- *.
  revert E. apply (rounds_spec direct); try done. intros E. rewrite E in Ec. by rewrite <-Ec in Hne.
Qed.

(** ** Coalescing changes nothing *)
Lemma run_buffer_exact run :
  run ≠ [] → zlen run mod BLOCK_ALIGN = 0 → zlen run ≤ 2 ^ 63 - BLOCK_ALIGN → run_buffer run = Ok run.
Proof.
  intros Hne Hm Hl. assert (0 < zlen run) by (destruct run; [done|]; rewrite zlen_cons; pose proof (zlen_nonneg run); lia).
  unfold run_buffer, aligned_zeroed, align_up, div_ceil. rewrite Hm. cbn [Z.eqb].
  assert (zlen run / BLOCK_ALIGN * BLOCK_ALIGN = zlen run) as Hd.
  { unfold BLOCK_ALIGN in *. Z.to_euclidean_division_equations. lia. }
  unfold u64_mul. rewrite Hd. rewrite (Z.mod_small (zlen run)) by (unfold BLOCK_ALIGN in *; lia).
  assert (BLOCK_ALIGN ≤ zlen run) by (unfold BLOCK_ALIGN in *; Z.to_euclidean_division_equations; lia).
  rewrite Z.max_l by done. rewrite (proj2 (Z.ltb_ge _ _)) by done. cbn. unfold zlen. by rewrite Nat2Z.id, splice_zeros.
Qed.
Lemma runs_from_spec first start run ws :
  0 ≤ first ≤ start → run ≠ [] → start mod BLOCK_ALIGN = 0 → zlen run mod BLOCK_ALIGN = 0 →
  start + zlen run ≤ 2 ^ 63 - BLOCK_ALIGN → ascending true (start + zlen run) ws →
  ∃ runs, runs_from start run ws = Ok runs ∧ runs ≠ [] ∧ ascending true first runs ∧
    ∀ f, written f runs = written (splice f run start) ws.
Proof.
  revert first start run. induction ws as [|[o b] ws IH]; intros first start run Hs Hne Hm1 Hm2 Hl Ha; cbn [runs_from];
    pose proof (zlen_nonneg run).
  { rewrite run_buffer_exact by (done || lia). eexists. split_and!; [done|done| |done]. cbn. split_and!; try done; lia. }
  cbn in Ha. destruct Ha as (Ho & Hb & Hl' & Hd & Ha). destruct (Hd eq_refl) as [Hd1 Hd2]. pose proof (zlen_nonneg b).
  unfold u64_add. rewrite (Z.mod_small (start + _)) by (unfold BLOCK_ALIGN in *; lia).
  destruct (Z.eqb_spec o (start + zlen run)) as [->|Hno].
  - destruct (IH first start (run ++ b)) as (runs & -> & ? & ? & Hw).
    + done.
    + by destruct run.
    + done.
    + rewrite zlen_app. unfold BLOCK_ALIGN in *. Z.to_euclidean_division_equations. lia.
    + rewrite zlen_app. lia.
    + by rewrite zlen_app, Z.add_assoc.
    + exists runs. split_and!; try done. intros f. rewrite Hw, splice_app_at by lia. done.
  - rewrite run_buffer_exact by (done || lia). cbn [mbind res_bind]. unfold misaligned. rewrite Hd1. cbn [Z.eqb negb].
    destruct (IH (start + zlen run) o b) as (runs & -> & ? & ? & Hw); try done; [lia|].
    exists ((start, run) :: runs). split_and!; [done|done| |intros f; exact (Hw (splice f run start))].
    cbn. split_and!; try done; lia.
Qed.

(** C22. The ring is as good as plain writes.  On a ring with nothing pending,
    take a batch of ascending writes, in whole aligned blocks if the file was
    opened for direct I/O.  Whatever the kernel does, in whatever order the
    writes of a round are carried out, fail or fall short, the call does not
    panic and every byte before the first offset of the batch is as before, so
    acknowledged records cannot be damaged.  If the call succeeds, the file
    has exactly the bytes that the portable backend gives when it carries out
    the writes one after the other, they are durable if a flush was asked
    for, and nothing is left pending. *)
Theorem ring_writes_like_portable direct ws sync first k k' r :
  quiet k → 0 ≤ first ≤ zlen (k_file k) → ascending direct first ws →
  uring_write_batch direct ws sync k = (k', r) →
  r ≠ Panic ∧ take (Z.to_nat first) (k_file k') = take (Z.to_nat first) (k_file k) ∧
  (r = Ok () → quiet k' ∧ (sync = true → k_durable k' = k_file k') ∧
     ∀ (d : Disk) (f : N), faults d = [] → disk_bytes d f = k_file k → k_file k' = disk_bytes (write_all f ws d).1 f).
Proof.
  intros Hq Hf Ha E. assert (outcome first ws sync k k' r) as (P & T & O).
  { unfold uring_write_batch in E. case_bool_decide as Hws; [subst ws|].
    - destruct sync; [|injection E as <- <-; by split_and!]. destruct Hq. apply law_fsync in E as (? & Hfile & ? & ? & ?).
      unfold outcome. rewrite Hfile in *. split_and!; [done|done|]. intros Hr. split_and!; [done|split; congruence|auto].
    - destruct direct; [|by eapply in_rounds_spec]. unfold write_batch_direct in E. destruct ws as [|[o b] ws]; [done|].
      cbn in Ha. destruct Ha as (Ho & Hb & Hl & Hd & Ha). destruct (Hd eq_refl) as [Hd1 Hd2].
      destruct (runs_from_spec first o b ws) as (runs & Er & Hne & Hra & Hw); try done; [lia|].
      unfold mbind, ST_bind, st_lift, align_writes, misaligned in E. rewrite Hd1 in E. cbn [Z.eqb negb] in E. rewrite Er in E.
      destruct (in_rounds_spec true runs sync first k k' r Hq Hne Hf Hra E) as (P & T & O). split_and!; [done|done|].
      intros (W & ? & ?)%O. split_and!; [|done|done]. by rewrite W, Hw. }
  split_and!; [done|done|]. intros (W & Q & Sy)%O. split_and!; [done|done|]. intros d f Hd Hb.
  destruct (write_all_portable f ws d Hd) as [_ ->]. by rewrite Hb.
Qed.

(** ** Direct reads *)
Lemma align_down_eq v : 0 ≤ v → align_down v = v - v mod BLOCK_ALIGN.
Proof.
  intros Hv. unfold align_down. change (BLOCK_ALIGN - 1) with (Z.ones 12). rewrite Z.ldiff_ones_r, Z.shiftl_mul_pow2, Z.shiftr_div_pow2 by lia.
  change (2 ^ 12) with BLOCK_ALIGN. unfold BLOCK_ALIGN. Z.to_euclidean_division_equations. lia.
Qed.
Lemma align_up_eq v : 0 ≤ v ≤ 2 ^ 63 → align_up v = div_ceil v BLOCK_ALIGN * BLOCK_ALIGN.
Proof.
  intros Hv. unfold align_up, u64_mul. apply Z.mod_small. pose proof (div_ceil_spec v BLOCK_ALIGN ltac:(done)). unfold BLOCK_ALIGN in *. lia.
Qed.

(** Direct reads are exact.  A file that has grown in whole aligned blocks
    gives, through a direct read, exactly the bytes asked for, no read past
    its end succeeds, and the widened window is never the reason of a
    failure: a read within the file only asks the kernel for bytes within
    the file.  Nothing is changed and nothing panics. *)
Theorem direct_reads_exact n off k k' r :
  zlen (k_file k) mod BLOCK_ALIGN = 0 → 0 ≤ off → 0 ≤ n → (0 < n ∨ off mod BLOCK_ALIGN ≠ 0) →
  off + n ≤ 2 ^ 62 →
  uring_read_at true n off k = (k', r) →
  k_file k' = k_file k ∧ r ≠ Panic ∧
  (∀ l, r = Ok l → off + n ≤ zlen (k_file k) ∧ l = zslice (k_file k) off n) ∧
  (off + n ≤ zlen (k_file k) → ∃ start len, start + len ≤ zlen (k_file k) ∧
     (is_ok r = true ↔ is_ok (k_pread start len k).2 = true)).
Proof.
  intros Hm Hoff Hn Hpos Hmax E. pose proof (zlen_nonneg (k_file k)). unfold uring_read_at in E. cbn [negb] in E.
  set (start := align_down off) in *. assert (start = off - off mod BLOCK_ALIGN) as Hs by by apply align_down_eq.
  unfold u64_add in E. rewrite (Z.mod_small (off + n)) in E by lia.
  set (end_ := align_up (off + n)) in *. assert (end_ = div_ceil (off + n) BLOCK_ALIGN * BLOCK_ALIGN) as He by (apply align_up_eq; lia).
  pose proof (div_ceil_spec (off + n) BLOCK_ALIGN ltac:(done)) as Hd. rewrite <-He in Hd.
  assert (end_ mod BLOCK_ALIGN = 0 ∧ start mod BLOCK_ALIGN = 0 ∧ 0 ≤ start ≤ off ∧ start < end_) as (Hem & Hsm & Hso & Hse).
  { unfold BLOCK_ALIGN in *. split_and!; Z.to_euclidean_division_equations; lia. }
  assert (BLOCK_ALIGN ≤ end_ - start) as Hw by (unfold BLOCK_ALIGN in *; Z.to_euclidean_division_equations; lia).
  unfold mbind, ST_bind, st_lift, aligned_zeroed in E. rewrite Z.max_l in E by done.
  rewrite (proj2 (Z.ltb_ge _ _)) in E by (unfold BLOCK_ALIGN in *; lia).
  assert (zlen (replicate (Z.to_nat (end_ - start)) x00) = end_ - start) as Hlen.
  { unfold zlen. rewrite length_replicate. unfold BLOCK_ALIGN in *. lia. }
  rewrite Hlen in E. unfold read_exact in E. destruct (k_pread start (end_ - start) k) as [k1 r1] eqn:E1.
  destruct (law_pread _ _ _ _ _ E1) as (F1 & P1 & O1).
  assert (off + n ≤ zlen (k_file k) → end_ ≤ zlen (k_file k)) as Hin.
  { unfold BLOCK_ALIGN in *. Z.to_euclidean_division_equations. lia. }
  assert (k' = k1 ∧ r ≠ Panic ∧ is_ok r = is_ok r1 ∧ ∀ l, r = Ok l → ∃ w, r1 = Ok w ∧ l = zslice w (off - start) n) as (-> & P & Hok & O).
  { destruct r1 as [w|e|]; [|by injection E as <- <-|done]. injection E as <- <-. split_and!; try done. intros l [= <-]. by exists w. }
  split_and!; [done|done| |].
  - intros l (w & Hw1 & ->)%O. destruct (O1 w Hw1) as [Hle ->]. split; [lia|]. rewrite zslice_zslice by lia. f_equal. lia.
  - intros Hr. exists start, (end_ - start). split; [apply Hin in Hr; lia|]. rewrite E1, Hok. done.
Qed.
End UringTheorems.

(** ** Witnesses: a kernel that carries out everything in order *)
Module UringExamples.
Record Toy := MkToy { t_file : bytes; t_durable : bytes; t_sq : list Sqe; t_cq : list Cqe }.
Definition toy_result (e : Sqe) : Z := match e with SWrite _ b _ => zlen b mod 2 ^ 32 | SFsync _ => 0 end.
Definition toy_effect (x : bytes * bytes) (e : Sqe) : bytes * bytes :=
  match e with
  | SWrite o b _ => if zlen b mod 2 ^ 32 =? 0 then x else (splice x.1 (take (Z.to_nat (zlen b mod 2 ^ 32)) b) o, x.2)
  | SFsync _ => (x.1, x.1)
  end.
Definition toy_run (l : list Sqe) : list (Sqe * Z) := (λ e, (e, toy_result e)) <$> l.
#[local] Instance toy_uring : Uring Toy := {|
  k_file := t_file; k_durable := t_durable; k_sq := t_sq; k_cq := t_cq;
  k_open _ k := (k, Ok ());
  k_ring k := (k, Ok ());
  k_push e k := if zlen (t_sq k) <? RING_DEPTH then Some (MkToy (t_file k) (t_durable k) (t_sq k ++ [e]) (t_cq k)) else None;
  k_submit_and_wait _ k :=
    let (f, d) := foldl toy_effect (t_file k, t_durable k) (t_sq k) in
    (MkToy f d [] (t_cq k ++ (completion <$> toy_run (t_sq k))), Ok ());
  k_next k := MkToy (t_file k) (t_durable k) (t_sq k) (tail (t_cq k));
  k_len k := (k, Ok (zlen (t_file k)));
  k_sync k := (MkToy (t_file k) (t_file k) (t_sq k) (t_cq k), Ok ());
  k_pread off n k := (k, if off + n <=? zlen (t_file k) then Ok (zslice (t_file k) off n)
                         else Err (IoError KUnexpectedEof "failed to fill whole buffer")) |}.

Lemma toy_ran l f d : ran f d (toy_run l) (foldl toy_effect (f, d) l).1 (foldl toy_effect (f, d) l).2.
Proof.
  revert f d. induction l as [|[o b u|u] l IH]; intros f d; cbn [toy_run fmap list_fmap foldl toy_effect]; [constructor| |].
  - unfold toy_result. pose proof (Z.mod_pos_bound (zlen b) (2 ^ 32) ltac:(lia)).
    destruct (Z.eqb_spec (zlen b mod 2 ^ 32) 0) as [->|]; [by constructor; [|apply IH]|].
    apply (ran_write _ _ _ _ _ _ (Z.to_nat (zlen b mod 2 ^ 32))); [lia|lia|apply IH].
  - by apply (ran_fsync _ _ f); [|apply IH].
Qed.
Lemma toy_run_fst l : (toy_run l).*1 = l.
Proof. unfold toy_run. rewrite <-list_fmap_compose. apply list_fmap_id. Qed.
#[local] Instance toy_uring_laws : UringLaws Toy.
Proof.
  split.
  - intros e k. cbn. destruct (Z.ltb_spec (zlen (t_sq k)) RING_DEPTH); [by split_and!|done].
  - intros want k k' r E. cbn in E. pose proof (toy_ran (t_sq k) (t_file k) (t_durable k)) as Hr.
    destruct (foldl toy_effect _ _) as [f d]. injection E as <- <-. split; [done|]. exists (toy_run (t_sq k)), []. cbn.
    split_and!; [by rewrite app_nil_r, toy_run_fst|done| |by intros _ -> _].
    intros l u run1 res run2 Hl Hu Er. apply (f_equal (fmap fst)) in Er. rewrite toy_run_fst, fmap_app, Hl in Er. cbn in Er.
    destruct run2 as [|x run2] using rev_ind; [done|]. rewrite fmap_app, app_comm_cons, app_assoc in Er. cbn in Er.
    apply app_inj_tail in Er as [-> _]. exfalso. apply Hu. set_solver.
  - intros k. by split_and!.
  - intros k k' r [= <- <-]. by split_and!.
  - intros off n k k' r [= <- <-]. split_and!; [done|by case_goal|]. intros l. case_goal; [|done]. bool_prop. by intros [= <-].
Qed.

(** Two records of one block each, appended to a file of one block. *)
Definition blocks (n : nat) (b : byte) : bytes := replicate (n * 4096) b.
Definition file0 : Toy := MkToy (blocks 1 x01) [] [] [].
Definition batch : list (Z * bytes) := [(4096, blocks 1 x02); (8192, blocks 1 x03)].

Lemma blocks_len n b : zlen (blocks n b) = 4096 * Z.of_nat n.
Proof. unfold zlen, blocks. rewrite length_replicate. lia. Qed.
Lemma batch_ascending : ascending true 4096 batch.
Proof. unfold batch, ascending. rewrite !blocks_len. unfold BLOCK_ALIGN. by split_and!. Qed.

Lemma ring_writes_like_portable_witness :
  is_ok (uring_write_batch true batch true file0).2 = true ∧
  take 4096 (t_file (uring_write_batch true batch true file0).1) = blocks 1 x01.
Proof.
  split; [by vm_compute|]. destruct (uring_write_batch true batch true file0) as [k' r] eqn:E.
  assert (0 ≤ 4096 ≤ zlen (k_file file0)) as Hf by (change (k_file file0) with (blocks 1 x01); rewrite blocks_len; lia).
  destruct (ring_writes_like_portable true batch true 4096 file0 k' r ltac:(by split) Hf batch_ascending E) as (_ & Ht & _).
  change (Z.to_nat 4096) with 4096%nat in Ht. change (k_file file0) with (blocks 1 x01) in Ht. etransitivity; [exact Ht|].
  apply take_ge. unfold blocks. rewrite length_replicate. lia.
Defined.

Lemma direct_reads_exact_witness :
  is_ok (uring_read_at true 10 64 file0).2 = true ∧
  ∀ l, (uring_read_at true 10 64 file0).2 = Ok l → l = zslice (blocks 1 x01) 64 10.
Proof.
  assert (zlen (k_file file0) mod BLOCK_ALIGN = 0) as Hm by (change (k_file file0) with (blocks 1 x01); by rewrite blocks_len).
  split; [by vm_compute|]. destruct (uring_read_at true 10 64 file0) as [k' r] eqn:E. intros l Hl.
  destruct (direct_reads_exact 10 64 file0 k' r Hm ltac:(lia) ltac:(lia) ltac:(left; lia) ltac:(lia) E) as (_ & _ & Hr & _).
  exact (proj2 (Hr l Hl)).
Defined.
End UringExamples.
