(* ===== verification/Expiry.v ===== *)
(** * Lease expiry driven by the leader
      ([start_expiry] of [crates/kalpakdb/src/leases.rs])

    Once per second the leader proposes one tick of the logical clock if some
    lease is still counting down, then an expiry marker for up to 16 leases
    that are due.  A lease that nobody renews expires after as many rounds as
    its deadline is ahead of the clock. *)

From S2P Require Import Prelude Core Metadata Leases StateMachine StateInvariant ControlPlane Lifecycle.

(** [openraft] when this node leads and its proposals are committed and
    applied before [client_write] returns, with nothing in between. *)
Class SoloRaft (W : Type) `{Raft W, BindingKey} := {
  solo : W → Prop;
  solo_leader : ∀ w, solo w → current_leader w = Some (node_id w);
  solo_write : ∀ w req, solo w → ∃ w' id r, client_write w req = (w', RaftOk r) ∧ solo w' ∧
    applied_index (sm_state w) ≤ log_index id ∧
    apply_entry (sm_state w) (MkEntry id (Normal req)) = (sm_state w', r) }.

Section Expiry.
Context {W : Type} `{SoloRaft W}.

(** The second half of a round: [let _ = expire(..)], whatever it answers. *)
Definition expire_due (w : W) (due : list (BlockId * LeaseDeadline)) : W :=
  foldl (λ w p, (expire_upload_lease w p.1 (generation p.2) (deadline_tick p.2)).1) w due.

(** One round of the loop; [Panic] if [lease_expiry_work] panics. *)
Definition expiry_round (w : W) : res () W :=
  if negb (bool_decide (current_leader w = Some (node_id w))) then Ok w
  else
    match lease_expiry_work (sm_state w) with
    | Ok (clock, active, _) =>
        let (w1, ok) := if active then let (w, r) := advance_lease_clock w clock in (w, is_ok r)
                        else (w, true) in
        if negb ok then Ok w1
        else match lease_expiry_work (sm_state w1) with
             | Ok (_, _, due) => Ok (expire_due w1 due)
             | Err e => Err e
             | Panic => Panic
             end
    | Err e => Err e
    | Panic => Panic
    end.

Fixpoint expiry_rounds (n : nat) (w : W) : res () W :=
  match n with
  | O => Ok w
  | S n => expiry_round w ≫= expiry_rounds n
  end.

(** ** The work list *)
Lemma btree_iter_elem {V} (m : gmap BlockId V) p : p ∈ btree_iter m ↔ m !! p.1 = Some p.2.
Proof.
  unfold btree_iter. rewrite merge_sort_Permutation. destruct p. apply elem_of_map_to_list.
Qed.

Lemma work_no_panic s :
  inv s → ∃ active due, lease_expiry_work s = Ok (clock (leases s), active, due) ∧
    (active = false → ∀ id d r, deadlines (leases s) !! id = Some d →
       records (leases s) !! id = Some r → committed r = None → cancelled (leases s) !! id = None →
       is_expired (leases s) id = true) ∧
    (length due ≤ 16)%nat ∧
    (∀ p, p ∈ due → deadlines (leases s) !! p.1 = Some p.2 ∧ is_expired (leases s) p.1 = true ∧
       expired (leases s) !! p.1 = None).
Proof.
  intros Hs. unfold lease_expiry_work.
  assert (forallb (contains_key (records (leases s))) (btree_iter (deadlines (leases s))).*1 = true) as ->.
  { apply forallb_forall. intros id Hin. apply list_elem_of_In, list_elem_of_fmap in Hin as (p & -> & Hp).
    apply btree_iter_elem in Hp. destruct (li_deadline _ _ _ _ (inv_lease _ Hs) _ _ Hp) as ([r Hr] & _).
    apply contains_key_true. eauto. }
  eexists _, _. split; [reflexivity|]. split_and!.
  - intros Hex id d r Hd Hr Hc Hca. destruct (is_expired (leases s) id) eqn:He; [done|]. exfalso.
    apply not_true_iff_false in Hex. apply Hex, existsb_exists. exists id. split.
    + apply list_elem_of_In, list_elem_of_fmap. exists (id, d). split; [done|]. by apply btree_iter_elem.
    + rewrite Hr, bool_decide_eq_true_2, He by done. cbn.
      by rewrite (proj2 (contains_key_false _ _) Hca).
  - rewrite length_take. lia.
  - intros p Hp. apply elem_of_take in Hp as (i & Hp & _). apply list_elem_of_lookup_2 in Hp.
    apply list_elem_of_filter in Hp as [[? ?] Hp]. by apply btree_iter_elem in Hp.
Qed.

(** ** Requests that touch no block pass the fence check. *)
Lemma untouched_apply s req :
  inv s → touched s req = ∅ → apply_one s req = apply_unfenced s req ∨
  ∃ s' r, apply_unfenced s req = (s', r) ∧ apply_one s req = (set_fences (block_fences s') s', r).
Proof.
  intros Hs Ht. unfold apply_one. rewrite Ht.
  assert (filter (λ id, block_fences s !! id = None) (∅ : gset BlockId) = ∅) as -> by set_solver.
  rewrite size_empty, Z.add_0_r, (proj2 (Z.ltb_ge _ _)) by apply (fi_size _ _ (inv_fence _ Hs)).
  destruct (apply_unfenced s req) as [s' r]. destruct (is_rejected r); [by left|right].
  exists s', r. split; [done|]. unfold fence_all. by rewrite set_fold_empty.
Qed.

(** What one applied proposal does to the leases, when it touches nothing. *)
Lemma solo_step w req :
  solo w → inv (sm_state w) → (∀ s, touched s req = ∅) →
  ∃ w' r s1, client_write w req = (w', RaftOk r) ∧ solo w' ∧ inv (sm_state w') ∧
    leases s1 = leases (sm_state w) ∧ inv s1 ∧
    leases (sm_state w') = leases (apply_unfenced s1 req).1 ∧ r = (apply_unfenced s1 req).2.
Proof.
  intros Hw Hs Ht. destruct (solo_write w req Hw) as (w' & id & r & E & Hw' & Hle & Ea).
  pose proof (apply_entry_inv _ (MkEntry id (Normal req)) Hs Hle) as [Hi' _]. rewrite Ea in Hi'.
  set (s1 := set_last_applied (Some id) (sm_state w)).
  assert (inv s1) as Hs1 by by apply set_last_applied_inv.
  unfold apply_entry in Ea. cbn [entry_payload entry_log_id] in Ea. fold s1 in Ea. exists w', r, s1.
  destruct (untouched_apply s1 req Hs1 (Ht s1)) as [E1|(s' & r' & E1 & E2)].
  - rewrite E1 in Ea. rewrite Ea. split_and!; auto.
  - rewrite E2 in Ea. injection Ea as E3 ->. rewrite E1, <-E3. split_and!; auto. by rewrite E3.
Qed.

(** ** One round *)

(** The parts of the lease state a round leaves alone. *)
Definition same_leases (l l' : LeaseState) : Prop :=
  records l' = records l ∧ cancelled l' = cancelled l ∧ deadlines l' = deadlines l.

#[export] Instance same_leases_preorder : PreOrder same_leases.
Proof. split; [by intros l|]. intros l1 l2 l3 (? & ? & ?) (? & ? & ?). split_and!; congruence. Qed.

Lemma expire_same s id g t : same_leases (leases s) (leases (expire s id g t).1) ∧
  clock (leases (expire s id g t).1) = clock (leases s).
Proof. unfold expire. by case_goal. Qed.

Lemma expire_due_spec w due :
  solo w → inv (sm_state w) →
  let w' := expire_due w due in
  solo w' ∧ inv (sm_state w') ∧ same_leases (leases (sm_state w)) (leases (sm_state w')) ∧
  clock (leases (sm_state w')) = clock (leases (sm_state w)).
Proof.
  revert w. induction due as [|[id d] due IH]; intros w Hw Hs; [done|].
  destruct (solo_step w (ExpireUploadLease id (generation d) (deadline_tick d)) Hw Hs)
    as (w1 & r & s1 & E & Hw1 & Hs1 & El & _ & El' & _); [done|].
  change (expire_due w ((id, d) :: due)) with
    (expire_due (expire_upload_lease w id (generation d) (deadline_tick d)).1 due).
  assert ((expire_upload_lease w id (generation d) (deadline_tick d)).1 = w1) as ->.
  { unfold expire_upload_lease, expect, write. by rewrite E. }
  destruct (IH w1 Hw1 Hs1) as (Hw' & Hs' & Hsame & Hc). cbn [apply_unfenced] in El'.
  destruct (expire_same s1 id (generation d) (deadline_tick d)) as [S1 C1].
  rewrite <-El', El in S1, C1. split_and!; auto; [by etrans|congruence].
Qed.

Lemma advance_round w c :
  solo w → inv (sm_state w) → c = clock (leases (sm_state w)) →
  ∃ w' r, advance_lease_clock w c = (w', r) ∧ solo w' ∧ inv (sm_state w') ∧
    same_leases (leases (sm_state w)) (leases (sm_state w')) ∧
    (c + 1 ≤ u64_max → is_ok r = true ∧ clock (leases (sm_state w')) = c + 1) ∧
    clock (leases (sm_state w)) ≤ clock (leases (sm_state w')).
Proof.
  intros Hw Hs ->. set (c := clock (leases (sm_state w))).
  destruct (solo_step w (AdvanceLeaseClock c) Hw Hs) as (w1 & r & s1 & E & Hw1 & Hs1 & El & _ & El' & Er);
    [done|].
  unfold advance_lease_clock, expect, write. rewrite E. eexists w1, _. split; [reflexivity|].
  cbn [apply_unfenced] in El', Er. unfold advance in El', Er. rewrite El in El', Er. fold c in El', Er.
  rewrite Z.ltb_irrefl, Z.eqb_refl in El', Er. cbn [negb] in El', Er.
  destruct (checked_add64 c 1) as [n|] eqn:En; cbn in El', Er.
  - apply checked_add64_Some in En as [-> Hm]. rewrite El', Er. split_and!; auto; [done|cbn; fold c; lia].
  - rewrite El', Er, El. split_and!; auto; [done|..]; [|fold c; lia]. intros Hm. exfalso.
    unfold checked_add64 in En. rewrite (proj2 (Z.leb_le _ _)) in En by lia. done.
Qed.

(** A round on an invariant state returns, keeps the records, and moves the
    clock unless every lease with a deadline is already decided. *)
Lemma expiry_round_spec w :
  solo w → inv (sm_state w) →
  ∃ w', expiry_round w = Ok w' ∧ solo w' ∧ inv (sm_state w') ∧
    same_leases (leases (sm_state w)) (leases (sm_state w')) ∧
    clock (leases (sm_state w)) ≤ clock (leases (sm_state w')) ∧
    ∀ id d r, deadlines (leases (sm_state w)) !! id = Some d → records (leases (sm_state w)) !! id = Some r →
      committed r = None → cancelled (leases (sm_state w)) !! id = None →
      is_expired (leases (sm_state w)) id = true ∨ u64_max < clock (leases (sm_state w)) + 1 ∨
      clock (leases (sm_state w)) + 1 ≤ clock (leases (sm_state w')).
Proof.
  intros Hw Hs. unfold expiry_round. rewrite bool_decide_eq_true_2 by by apply solo_leader. cbn [negb].
  destruct (work_no_panic _ Hs) as (active & due & -> & Hidle & _ & _).
  assert (∀ w1, solo w1 → inv (sm_state w1) → ∃ w2,
    match lease_expiry_work (sm_state w1) with
    | Ok (_, _, due) => Ok (expire_due w1 due) | Err e => Err e | Panic => Panic end = Ok w2 ∧
    solo w2 ∧ inv (sm_state w2) ∧ same_leases (leases (sm_state w1)) (leases (sm_state w2)) ∧
    clock (leases (sm_state w2)) = clock (leases (sm_state w1))) as Hdue.
  { intros w1 Hw1 Hs1. destruct (work_no_panic _ Hs1) as (a1 & due1 & -> & _).
    eexists. split; [reflexivity|]. by apply expire_due_spec. }
  destruct active.
  - destruct (advance_round w _ Hw Hs eq_refl) as (w1 & r & -> & Hw1 & Hs1 & Hsame & Hc & Hle).
    destruct (is_ok r) eqn:Er; cbn [negb].
    + destruct (Hdue w1 Hw1 Hs1) as (w2 & -> & Hw2 & Hs2 & Hsame2 & Hc2).
      exists w2. split_and!; auto; [by etrans|lia|]. intros id d r' _ _ _ _. right.
      destruct (decide (clock (leases (sm_state w)) + 1 ≤ u64_max)) as [Hm|Hm]; [right|left; lia].
      destruct (Hc Hm) as [_ <-]. lia.
    + exists w1. split_and!; auto. intros id d r' _ _ _ _. right; left.
      destruct (decide (clock (leases (sm_state w)) + 1 ≤ u64_max)) as [Hm|Hm]; [|lia].
      by destruct (Hc Hm).
  - cbn [negb]. destruct (Hdue w Hw Hs) as (w2 & -> & Hw2 & Hs2 & Hsame2 & Hc2).
    exists w2. split_and!; auto; [lia|]. intros id d r Hd Hr Hcm Hca. left. by eapply Hidle.
Qed.

(** ** Liveness *)
Lemma is_expired_at l id r d :
  records l !! id = Some r → committed r = None → cancelled l !! id = None →
  deadlines l !! id = Some d → deadline_tick d ≤ clock l → is_expired l id = true.
Proof. intros. apply is_expired_true. eauto 10. Qed.

Lemma expiry_rounds_spec n w id r d :
  solo w → inv (sm_state w) → records (leases (sm_state w)) !! id = Some r → committed r = None →
  cancelled (leases (sm_state w)) !! id = None → deadlines (leases (sm_state w)) !! id = Some d →
  deadline_tick d ≤ u64_max → deadline_tick d ≤ clock (leases (sm_state w)) + Z.of_nat n →
  ∃ w', expiry_rounds n w = Ok w' ∧ is_expired (leases (sm_state w')) id = true.
Proof.
  revert w. induction n as [|n IH]; intros w Hw Hs Hr Hc Hca Hd Hm Hle; cbn [expiry_rounds].
  - exists w. split; [done|]. eapply is_expired_at; eauto. lia.
  - destruct (expiry_round_spec w Hw Hs) as (w1 & -> & Hw1 & Hs1 & (E1 & E2 & E3) & Hmono & Hclock).
    cbn [mbind res_bind]. apply IH; rewrite ?E1, ?E2, ?E3; auto.
    destruct (Hclock id d r Hd Hr Hc Hca) as [He|[Hx|Hx]]; [|lia|lia].
    destruct (is_expired_deadline _ _ _ _ _ (inv_lease _ Hs) He) as (? & d' & _ & _ & _ & ? & ?).
    simplify_eq. lia.
Qed.

(** C31. An abandoned lease expires.  On a node that leads, a pending lease with
    a deadline that nobody renews, commits or cancels is expired after at most
    [deadline - clock] rounds of the expiry loop, and no round panics: the
    work list never indexes a missing record. *)
Theorem abandoned_lease_expires w id r d :
  solo w → inv (sm_state w) → records (leases (sm_state w)) !! id = Some r → committed r = None →
  cancelled (leases (sm_state w)) !! id = None → deadlines (leases (sm_state w)) !! id = Some d →
  deadline_tick d ≤ u64_max →
  ∃ w', expiry_rounds (Z.to_nat (deadline_tick d - clock (leases (sm_state w)))) w = Ok w' ∧
    is_expired (leases (sm_state w')) id = true.
Proof. intros. eapply expiry_rounds_spec; eauto. lia. Qed.

End Expiry.

(** ** The single node of the control plane's examples *)
Lemma local_solo_write `{BindingKey} (s : MetadataState) req :
  ∃ s' id r, client_write (Raft := local_raft) s req = (s', RaftOk r) ∧ True ∧
    applied_index s ≤ log_index id ∧ apply_entry s (MkEntry id (Normal req)) = (s', r).
Proof.
  unfold client_write, local_raft.
  destruct (apply_entry s (MkEntry (MkLogId 1 1 (applied_index s + 1)) (Normal req))) as [s' r] eqn:E.
  exists s', (MkLogId 1 1 (applied_index s + 1)), r. split_and!; [done|done|cbn; lia|done].
Qed.

Definition local_solo `{BindingKey} : @SoloRaft MetadataState local_raft _ :=
  @Build_SoloRaft _ local_raft _ (λ _, True) (λ _ _, eq_refl)
    (λ s req _, local_solo_write s req).

(** Lease 1 of the example, with two ticks to live. *)
Definition ticking : MetadataState :=
  (@apply toy_binding_key ex_state [ex_entry 8 (RenewUploadLease (blk 1) (agt 1) 0 2)]).1.

Lemma ticking_inv : @inv toy_binding_key ticking.
Proof.
  apply (@apply_inv toy_binding_key ex_state); [apply ex_state_inv|].
  split; [vm_compute; discriminate|exact I].
Qed.

Lemma abandoned_lease_expires_witness :
  is_expired (leases ticking) (blk 1) = false ∧
  ∃ s, @expiry_rounds MetadataState (@local_raft toy_binding_key) 2 ticking = Ok s ∧
    is_expired (leases s) (blk 1) = true.
Proof.
  split; [vm_compute; reflexivity|].
  destruct (@abandoned_lease_expires MetadataState (@local_raft toy_binding_key) toy_binding_key
    (@local_solo toy_binding_key) ticking (blk 1) ex_lease (MkDeadline 1 3 2) I ticking_inv)
    as (s & E & He); try (vm_compute; reflexivity).
  - vm_compute. discriminate.
  - exists s. split; [exact E|exact He].
Defined.
