(* ===== verification/Client.v ===== *)
(** * Acknowledged operations

    What a client may conclude from [Ok] of the control plane's operations
    ([crates/kalpak-control/src/lib.rs]): its request is in the applied state,
    whatever other requests were committed before it. *)

From S2P Require Import Prelude Core Metadata Leases StateMachine StateInvariant ControlPlane Lifecycle.

Section Client.
Context {W : Type} `{RaftLaws W}.

(** The lease component and the reply of an accepted request. *)
Lemma apply_one_accepted s req s' r :
  apply_one s req = (s', r) → is_rejected r = false →
  leases s' = leases (apply_unfenced s req).1 ∧ agents s' = agents (apply_unfenced s req).1 ∧
  r = (apply_unfenced s req).2.
Proof.
  unfold apply_one. intros E Hr. case_hyp E; [by simplify_eq|].
  destruct (apply_unfenced s req) as [s1 r1]. destruct (is_rejected r1); by simplify_eq.
Qed.

(** A request answered [r] was applied to some invariant state. *)
Lemma write_applied w req w' r :
  inv (sm_state w) → write w req = (w', Ok r) → is_rejected r = false →
  ∃ s, inv s ∧ leases (sm_state w') = leases (apply_unfenced s req).1 ∧
    agents (sm_state w') = agents (apply_unfenced s req).1 ∧
    r = (apply_unfenced s req).2 ∧ inv (sm_state w').
Proof.
  intros Hs E Hr. unfold write in E. destruct (client_write w req) as [w1 o] eqn:Ec.
  destruct o; simplify_eq. destruct (client_write_applied _ _ _ _ Ec) as (es & id & Hl & Ea).
  set (s1 := (apply (sm_state w) es).1) in *.
  assert (log_sorted (applied_index (sm_state w)) es ∧ applied_index s1 ≤ log_index id) as [Hes Hle].
  { subst s1. revert Hl. clear - Hs. revert Hs. generalize (sm_state w) as s.
    induction es as [|e es IH]; intros s Hs Hl; [by destruct Hl|]. destruct Hl as [Hle Hl].
    destruct (apply_entry_inv s e Hs Hle) as [Hs' Ea]. rewrite <-Ea in Hl.
    cbn [apply]. destruct (apply_entry s e) as [s2 r2]. cbn [fst] in *.
    destruct (IH s2 Hs' Hl) as [Hes Hle']. destruct (apply s2 es). split; [|done].
    split; [done|]. by rewrite <-Ea. }
  pose proof (apply_inv _ _ Hs Hes) as Hs1. fold s1 in Hs1.
  pose proof (apply_entry_inv s1 (MkEntry id (Normal req)) Hs1 Hle) as [Hi' _]. rewrite Ea in Hi'.
  exists (set_last_applied (Some id) s1). split; [by apply set_last_applied_inv|].
  unfold apply_entry in Ea. cbn [entry_payload entry_log_id] in Ea.
  destruct (apply_one_accepted _ _ _ _ Ea Hr) as (? & ? & ?). auto.
Qed.

(** The shape of the operations whose reply is a bare [Ok]. *)
Lemma expect_ok w req f m w' :
  (∀ r out, f r = Some out → is_rejected r = false) →
  expect w req f m = (w', Ok ()) → ∃ r, write w req = (w', Ok r) ∧ is_rejected r = false ∧
    f r = Some (Ok ()).
Proof.
  intros Hf E. unfold expect in E. destruct (write w req) as [w1 [r|e|]]; cbn in E; [|done..].
  destruct (f r) as [out|] eqn:Ef; [|by destruct r]. simplify_eq. exists r. split_and!; eauto.
Qed.

Lemma begin_applied s id agent blocks :
  (reserve s id agent blocks).2 = LeaseReserved →
  ∃ r, records (leases (reserve s id agent blocks).1) !! id = Some r ∧
    lease_agent r = agent ∧ lease_blocks r = blocks.
Proof.
  unfold reserve. case_goal; [done|]. set (s1 := if initialized (leases s) then s else _).
  clearbody s1. destruct (records (leases s1) !! id) as [old|] eqn:Ho; cbn.
  - rewrite Ho. case_goal; [|done]. bool_prop. eauto.
  - case_goal; [done|]. intros _. cbn. rewrite lookup_insert_eq. eexists. split; [done|]. done.
Qed.

Lemma commit_applied s id agent b rev :
  (apply_unfenced s (CommitUploadLease id agent b rev)).2 = Bound →
  ∃ r, records (leases (apply_unfenced s (CommitUploadLease id agent b rev)).1) !! id = Some r ∧
    lease_agent r = agent ∧ committed r = Some (MkCommit b rev).
Proof.
  cbn [apply_unfenced]. destruct (validate_commit s id agent b rev) as [[]|] eqn:E; cbn; [| |done].
  - intros _. apply validate_commit_ok in E as (_ & l & Hl & Ha & _).
    destruct (bind_one_fields s agent (cb_key b) (cb_blocks b) (cb_parent b)) as (E1 & _).
    unfold bind_link. rewrite E1, (proj1 (bump_revision_fields _ _)), lookup_alter_eq, Hl.
    eexists. split; [done|]. done.
  - intros _. unfold validate_commit in E. case_hyp E; [done|].
    destruct (records (leases s) !! id) as [l|] eqn:Hl; [|done].
    case_hyp E; [done|]. case_hyp E; [done|]. case_hyp E; [done|].
    destruct (committed l) as [c|] eqn:Hc; [|by run E].
    destruct (_ && _) eqn:Hall in E; [|done]. bool_prop. exists l. split_and!; auto.
    rewrite Hc. destruct c as [[k bl p] rv], b. cbn in *. congruence.
Qed.

Lemma renew_applied s id agent gen ttl g t :
  (renew s id agent gen ttl).2 = LeaseRenewed g t →
  deadlines (leases (renew s id agent gen ttl).1) !! id = Some (MkDeadline g t ttl).
Proof.
  unfold renew. destruct (records (leases s) !! id); [|done]. case_goal; [done|]. case_goal; [done|].
  destruct (deadlines (leases s) !! id) as [d|] eqn:Hd; cbn.
  - destruct ((generation d =? gen + 1) && (ttl_ticks d =? ttl)) eqn:Hret; cbn.
    + bool_prop. intros [= <- <-]. rewrite Hd. by destruct d; cbn in *; subst.
    + repeat (case_goal; try done). intros [= <- <-]. cbn. by rewrite lookup_insert_eq.
  - repeat (case_goal; try done). intros [= <- <-]. cbn. by rewrite lookup_insert_eq.
Qed.

(** An acknowledged lease operation is in the applied state: after [Ok] of
    the client call, and whatever else was committed before it, the lease is
    reserved for that agent and those blocks, is committed with exactly that
    binding and expected revision, is cancelled (and not committed), or has
    exactly the deadline that was returned. *)
Theorem acknowledged_operations_hold w w' id agent :
  inv (sm_state w) →
  (∀ blocks, begin_upload_lease w id agent blocks = (w', Ok ()) →
     ∃ r, records (leases (sm_state w')) !! id = Some r ∧ lease_agent r = agent ∧ lease_blocks r = blocks) ∧
  (∀ b rev, commit_upload_lease w id agent b rev = (w', Ok ()) →
     ∃ r, records (leases (sm_state w')) !! id = Some r ∧ lease_agent r = agent ∧
       committed r = Some (MkCommit b rev)) ∧
  (cancel_upload_lease w id agent = (w', Ok ()) →
     is_Some (cancelled (leases (sm_state w')) !! id) ∧
     ∃ r, records (leases (sm_state w')) !! id = Some r ∧ committed r = None) ∧
  (∀ gen ttl d, renew_upload_lease w id agent gen ttl = (w', Ok d) →
     deadlines (leases (sm_state w')) !! id = Some d).
Proof.
  intros Hs. split_and!.
  - intros blocks E. apply expect_ok in E as (r & E & Hr & Hf); [|by intros []].
    destruct (write_applied _ _ _ _ Hs E Hr) as (s & _ & El & _ & -> & _). rewrite El.
    apply begin_applied. cbn [apply_unfenced] in Hf. by destruct (reserve s id agent blocks).2.
  - intros b rev E. apply expect_ok in E as (r & E & Hr & Hf); [|by intros []].
    destruct (write_applied _ _ _ _ Hs E Hr) as (s & _ & El & _ & -> & _). rewrite El.
    apply commit_applied. by destruct (apply_unfenced s (CommitUploadLease id agent b rev)).2.
  - intros E. apply expect_ok in E as (r & E & Hr & Hf); [|by intros []].
    destruct (write_applied _ _ _ _ Hs E Hr) as (s & _ & El & _ & -> & Hi).
    assert (is_Some (cancelled (leases (sm_state w')) !! id)) as [a Ha].
    { rewrite El. cbn [apply_unfenced] in *. unfold cancel in *.
      repeat (case_goal; try done). cbn. unfold or_insert.
      destruct (cancelled (leases s) !! id) eqn:Ec; [rewrite Ec|rewrite lookup_insert_eq]; eauto. }
    split; [eauto|]. destruct (li_cancelled _ _ _ _ (inv_lease _ Hi) _ _ Ha) as (r & ? & ? & _). eauto.
  - intros gen ttl d E. unfold renew_upload_lease in E.
    destruct (write w _) as [w1 [r|e|]] eqn:Ew; cbn in E; [|done..]. destruct r; simplify_eq.
    destruct (write_applied _ _ _ _ Hs Ew eq_refl) as (s & _ & El & _ & Er & _). rewrite El.
    by apply renew_applied.
Qed.

End Client.

(** A commit on the single node of the examples. *)
Definition ex_acked : MetadataState * res ControlError () :=
  @commit_upload_lease _ (@local_raft toy_binding_key) ex_state (blk 1) (agt 1) ex_binding 0.

Lemma acknowledged_operations_hold_witness :
  ∃ r, records (leases ex_acked.1) !! blk 1 = Some r ∧ lease_agent r = agt 1 ∧
    committed r = Some (MkCommit ex_binding 0).
Proof.
  pose proof (@acknowledged_operations_hold _ (@local_raft toy_binding_key) toy_binding_key
    (@local_raft_laws toy_binding_key) ex_state ex_acked.1 (blk 1) (agt 1) ex_state_inv) as (_ & Hc & _).
  refine (Hc ex_binding 0 (pair_snd ex_acked (Ok ()) _)). vm_compute. reflexivity.
Defined.
