(* ===== verification/Durability.v ===== *)
(** * Small durable files ([crates/kalpak-control/src/durability.rs] and the
      file operations of the control plane)

    The directory of a control-plane node: named files, and a plan of faults
    with one item per file operation, as in [Io].  [replace] publishes new
    contents of a file through a temporary file and a rename. *)

From S2P Require Import Prelude Core.

Record Dir := MkDir {
  dir_files : gmap string bytes;
  dir_plan : list (option nat) }.

Definition set_dir_files m (d : Dir) : Dir := MkDir m (dir_plan d).
Definition dir_fault : io_error := io_other "file fault".

Abbreviation FS := (ST Dir io_error).

(** The next item of the plan: [Some k] fails this operation, a write after
    its first [k] bytes. *)
Definition dir_op {A} (ok : gmap string bytes → gmap string bytes * res io_error A)
    (failed : nat → gmap string bytes → gmap string bytes) : FS A := λ d,
  match dir_plan d with
  | Some k :: plan => (MkDir (failed k (dir_files d)) plan, Err dir_fault)
  | plan => let (m, r) := ok (dir_files d) in (MkDir m (tail plan), r)
  end.

Definition unchanged (k : nat) (m : gmap string bytes) := m.

(** [std::fs::read]. *)
Definition fs_read (name : string) : FS bytes :=
  dir_op (λ m, (m, match m !! name with
                   | Some l => Ok l
                   | None => Err (IoError KNotFound "no such file")
                   end)) unchanged.
(** [OpenOptions::new().create(true).truncate(true).write(true).open(..)]. *)
Definition fs_create (name : string) : FS () := dir_op (λ m, (<[name := []]> m, Ok ())) unchanged.
(** [write_all] at the end of an open file. *)
Definition fs_write (name : string) (l : bytes) : FS () :=
  dir_op (λ m, (<[name := default [] (m !! name) ++ l]> m, Ok ()))
    (λ k m, <[name := default [] (m !! name) ++ take k l]> m).
(** [sync_all] or [sync_data]. *)
Definition fs_sync (name : string) : FS () := dir_op (λ m, (m, Ok ())) unchanged.
Definition fs_rename (from to : string) : FS () :=
  dir_op (λ m, match m !! from with
               | Some l => (<[to := l]> (delete from m), Ok ())
               | None => (m, Err (IoError KNotFound "no such file"))
               end) unchanged.
(** [create_dir_all], for the directory the files live in. *)
Definition fs_create_dir : FS () := dir_op (λ m, (m, Ok ())) unchanged.
Definition sync_directory : FS () := dir_op (λ m, (m, Ok ())) unchanged.

(** [OpenOptions::new().append(true)], with or without [create(true)]. *)
Definition fs_open_append (create : bool) (name : string) : FS () :=
  dir_op (λ m, match m !! name with
               | Some _ => (m, Ok ())
               | None => if create then (<[name := []]> m, Ok ())
                         else (m, Err (IoError KNotFound "no such file"))
               end) unchanged.
(** [set_len], to a length the file has. *)
Definition fs_set_len (name : string) (n : Z) : FS () :=
  dir_op (λ m, (alter (take (Z.to_nat n)) name m, Ok ())) unchanged.

(** [replace], with the name of its temporary file. *)
Definition replace (path pending : string) (l : bytes) : FS () :=
  fs_create pending ≫= λ _,
  fs_write pending l ≫= λ _,
  fs_sync pending ≫= λ _,
  fs_rename pending path ≫= λ _,
  sync_directory.

(** [m'] is [m] but for the temporary file and possibly [path]. *)
Definition replaced (path pending : string) (v : option bytes) (m m' : gmap string bytes) : Prop :=
  m' !! path = v ∧ ∀ n, n ≠ path → n ≠ pending → m' !! n = m !! n.

Lemma dir_op_cases {A} (ok : gmap string bytes → gmap string bytes * res io_error A) failed d :
  (∃ k, dir_op ok failed d = (MkDir (failed k (dir_files d)) (tail (dir_plan d)), Err dir_fault) ∧
        dir_plan d ≠ []) ∨
  dir_op ok failed d = (MkDir (ok (dir_files d)).1 (tail (dir_plan d)), (ok (dir_files d)).2).
Proof.
  unfold dir_op. destruct (dir_plan d) as [|[k|] plan].
  - right. by destruct (ok (dir_files d)).
  - left. by exists k.
  - right. by destruct (ok (dir_files d)).
Qed.

Ltac fs_case := match goal with |- context [dir_op ?o ?f ?d] =>
  let k := fresh "k" in let E := fresh "E" in
  destruct (dir_op_cases o f d) as [(k & E & ?)|E]; rewrite E; clear E; cbn [fst snd dir_files dir_plan unchanged] in * end.

Lemma tail_ne {A} (l : list A) : tail l ≠ [] → l ≠ [].
Proof. by destruct l. Qed.

(** Publication is atomic: at whatever step it fails, [path] holds its old
    contents or all of the new; success means the new. *)
Lemma replace_spec path pending l d :
  path ≠ pending →
  let '(d', r) := replace path pending l d in
  (r = Ok () ∧ replaced path pending (Some l) (dir_files d) (dir_files d')) ∨
  (∃ e, r = Err e ∧ dir_plan d ≠ [] ∧
     (replaced path pending (dir_files d !! path) (dir_files d) (dir_files d') ∨
      replaced path pending (Some l) (dir_files d) (dir_files d'))).
Proof.
  intros Hne. unfold replace, mbind, ST_bind, fs_create, fs_write, fs_sync, fs_rename, sync_directory.
  fs_case; [right; eexists; split_and!; [done|done|left; by split]|].
  fs_case.
  { right. eexists. split_and!; [done|by eauto using tail_ne|left]. split.
    - by rewrite !lookup_insert_ne.
    - intros n Hn Hp. by rewrite !lookup_insert_ne. }
  rewrite lookup_insert_eq, insert_insert_eq. cbn [app default id].
  fs_case.
  { right. eexists. split_and!; [done|by eauto using tail_ne|left]. split.
    - by rewrite lookup_insert_ne.
    - intros n Hn Hp. by rewrite lookup_insert_ne. }
  fs_case.
  { right. eexists. split_and!; [done|by eauto using tail_ne|left]. split.
    - by rewrite lookup_insert_ne.
    - intros n Hn Hp. by rewrite lookup_insert_ne. }
  rewrite lookup_insert_eq. cbn [fst snd].
  assert (replaced path pending (Some l) (dir_files d)
    (<[path := l]> (delete pending (<[pending := l]> (dir_files d))))) as Hnew.
  { split; [by rewrite lookup_insert_eq|]. intros n Hn Hp.
    by rewrite lookup_insert_ne, lookup_delete_ne, lookup_insert_ne. }
  fs_case.
  - right. eexists. split_and!; [done|by eauto using tail_ne|by right].
  - left. by split.
Qed.

(** The same from the outcome. *)
Lemma replace_inv path pending l d d' r :
  path ≠ pending → replace path pending l d = (d', r) →
  (r = Ok () ∧ replaced path pending (Some l) (dir_files d) (dir_files d')) ∨
  (∃ e, r = Err e ∧ dir_plan d ≠ [] ∧
     (replaced path pending (dir_files d !! path) (dir_files d) (dir_files d') ∨
      replaced path pending (Some l) (dir_files d) (dir_files d'))).
Proof. intros Hne E. pose proof (replace_spec path pending l d Hne) as H. by rewrite E in H. Qed.

(** A device that answers keeps answering. *)
Definition quiet {A} (m : FS A) : Prop := ∀ d, dir_plan d = [] → dir_plan (m d).1 = [].

Lemma quiet_dir_op {A} (ok : gmap string bytes → gmap string bytes * res io_error A) failed :
  quiet (dir_op ok failed).
Proof. intros d E. unfold dir_op. rewrite E. by destruct (ok (dir_files d)). Qed.
Lemma quiet_bind {A B} (m : FS A) (f : A → FS B) : quiet m → (∀ a, quiet (f a)) → quiet (m ≫= f).
Proof.
  intros Hm Hf d E. unfold mbind, ST_bind. specialize (Hm d E).
  destruct (m d) as [d' [a|e|]]; cbn in *; [by apply Hf|done..].
Qed.
#[export] Hint Resolve quiet_dir_op quiet_bind : kalpak.

Lemma quiet_replace path pending l : quiet (replace path pending l).
Proof. unfold replace. repeat (apply quiet_bind; [apply quiet_dir_op|intros _]). apply quiet_dir_op. Qed.

(** Computations that leave a file alone. *)
Definition keeps (name : string) {A} (m : FS A) : Prop :=
  ∀ d, dir_files (m d).1 !! name = dir_files d !! name.

Lemma keeps_dir_op name {A} (ok : gmap string bytes → gmap string bytes * res io_error A) failed :
  (∀ m, (ok m).1 !! name = m !! name) → (∀ k m, failed k m !! name = m !! name) →
  keeps name (dir_op ok failed).
Proof.
  intros Hok Hf d. destruct (dir_op_cases ok failed d) as [(k & -> & _)| ->]; cbn; auto.
Qed.
Lemma keeps_bind name {A B} (m : FS A) (f : A → FS B) :
  keeps name m → (∀ a, keeps name (f a)) → keeps name (m ≫= f).
Proof.
  intros Hm Hf d. unfold mbind, ST_bind. specialize (Hm d).
  destruct (m d) as [d' [a|e|]]; cbn in *; [by rewrite Hf|done..].
Qed.
Lemma keeps_create name n : n ≠ name → keeps name (fs_create n).
Proof. intros. apply keeps_dir_op; [|done]. intros m. by apply lookup_insert_ne. Qed.
Lemma keeps_write name n l : n ≠ name → keeps name (fs_write n l).
Proof. intros. apply keeps_dir_op; intros; by apply lookup_insert_ne. Qed.
Lemma keeps_sync name n : keeps name (fs_sync n).
Proof. by apply keeps_dir_op. Qed.
Lemma keeps_sync_directory name : keeps name sync_directory.
Proof. by apply keeps_dir_op. Qed.
Lemma keeps_rename name a b : a ≠ name → b ≠ name → keeps name (fs_rename a b).
Proof.
  intros. apply keeps_dir_op; [|done]. intros m. destruct (m !! a); [cbn|done].
  by rewrite lookup_insert_ne, lookup_delete_ne.
Qed.
Lemma keeps_replace name path pending l :
  path ≠ name → pending ≠ name → keeps name (replace path pending l).
Proof.
  intros. unfold replace.
  apply keeps_bind; [by apply keeps_create|intros _]. apply keeps_bind; [by apply keeps_write|intros _].
  apply keeps_bind; [by apply keeps_sync|intros _]. apply keeps_bind; [by apply keeps_rename|intros _].
  apply keeps_sync_directory.
Qed.

(** [openraft]'s [StorageError]: what was being done, and the cause. *)
Inductive StorageError :=
| ReadStateMachine (cause : string)
| ReadSnapshot (cause : io_error)
| WriteStateMachine (cause : io_error)
| WriteLogs (cause : io_error).

(** A directory that was closed and is read back by a new process: the files,
    and a device that answers. *)
Definition reopened (d : Dir) : Dir := MkDir (dir_files d) [].

(** Reading a file on a responsive device. *)
Lemma fs_read_ok name d :
  dir_plan d = [] → fs_read name d =
  (d, match dir_files d !! name with Some l => Ok l | None => Err (IoError KNotFound "no such file") end).
Proof. intros E. unfold fs_read, dir_op. rewrite E. destruct d; cbn in *. by subst. Qed.

(** Opening for append creates an empty file or leaves the file there is. *)
Lemma fs_open_append_ok name m :
  fs_open_append true name (MkDir m []) = (MkDir (<[name := default [] (m !! name)]> m) [], Ok ()).
Proof. unfold fs_open_append, dir_op. cbn. destruct (m !! name) eqn:E; [by rewrite insert_id|done]. Qed.
