(* ===== verification/Codecs.v ===== *)
(** * Concrete codecs for the examples

    The encodings the code gets from [bincode] and [serde_json] are
    parameters of the models.  Here every type they are used at gets a
    [Countable] instance, and from it one textual encoding (the bits of the
    code, as characters 0 and 1, never a line break) that satisfies the laws. *)

From stdpp Require Import countable.
From S2P Require Import Prelude Core Metadata.
From Stdlib Require Import Strings.Byte.

Ltac countable_by f g := refine (inj_countable' f g _); by intros [].

#[export] Instance LogId_countable : Countable LogId.
Proof. countable_by (λ x, (log_term x, log_node x, log_index x)) (λ '(a, b, c), MkLogId a b c). Defined.
#[export] Instance Membership_countable : Countable Membership.
Proof. countable_by (λ x, (mem_configs x, mem_nodes x)) (λ '(a, b), MkMembership a b). Defined.
#[export] Instance StoredMembership_countable : Countable StoredMembership.
Proof. countable_by (λ x, (sm_log_id x, sm_membership x)) (λ '(a, b), MkStored a b). Defined.
#[export] Instance ChainBinding_countable : Countable ChainBinding.
Proof. countable_by (λ x, (cb_key x, cb_blocks x, cb_parent x)) (λ '(a, b, c), MkChainBinding a b c). Defined.

#[export] Instance LeaseDeadline_eq_dec : EqDecision LeaseDeadline.
Proof. solve_decision. Defined.
#[export] Instance LeaseDeadline_countable : Countable LeaseDeadline.
Proof. countable_by (λ x, (generation x, deadline_tick x, ttl_ticks x)) (λ '(a, b, c), MkDeadline a b c). Defined.
#[export] Instance LeaseCommit_eq_dec : EqDecision LeaseCommit.
Proof. solve_decision. Defined.
#[export] Instance LeaseCommit_countable : Countable LeaseCommit.
Proof. countable_by (λ x, (commit_binding x, commit_expected_revision x)) (λ '(a, b), MkCommit a b). Defined.
#[export] Instance UploadLease_eq_dec : EqDecision UploadLease.
Proof. solve_decision. Defined.
#[export] Instance UploadLease_countable : Countable UploadLease.
Proof.
  countable_by (λ x, (lease_agent x, lease_blocks x, created_at x, committed x))
    (λ '(a, b, c, d), MkLease a b c d).
Defined.
#[export] Instance LeaseState_eq_dec : EqDecision LeaseState.
Proof. solve_decision. Defined.
#[export] Instance LeaseState_countable : Countable LeaseState.
Proof.
  countable_by (λ x, (initialized x, records x, revisions x, cancelled x, clock x, deadlines x, expired x))
    (λ '(a, b, c, d, e, f, g), MkLeaseState a b c d e f g).
Defined.
#[export] Instance AgentRecord_eq_dec : EqDecision AgentRecord.
Proof. solve_decision. Defined.
#[export] Instance AgentRecord_countable : Countable AgentRecord.
Proof. countable_by (λ x, (display_name x, registered_at x)) (λ '(a, b), MkAgentRecord a b). Defined.
#[export] Instance BindingRecord_eq_dec : EqDecision BindingRecord.
Proof. solve_decision. Defined.
#[export] Instance BindingRecord_countable : Countable BindingRecord.
Proof. countable_by (λ x, (rec_agent x, rec_blocks x)) (λ '(a, b), MkBinding a b). Defined.
#[export] Instance MetadataState_eq_dec : EqDecision MetadataState.
Proof. solve_decision. Defined.
#[export] Instance MetadataState_countable : Countable MetadataState.
Proof.
  countable_by (λ x, (block_fences x, leases x, replica_requirements x, agents x, bindings x,
                      children x, block_refs x, last_applied x, membership x))
    (λ '(a, b, c, d, e, f, g, h, i), MkState a b c d e f g h i).
Defined.

(** Requests, as nested sums. *)
#[export] Instance Request_eq_dec : EqDecision Request.
Proof. solve_decision. Defined.
Definition request_code (r : Request) : nat * list BlockId * option AgentId * string *
    list ChainBinding * list Z * option BlockId :=
  match r with
  | RequireReplicas bs n => (0%nat, bs, None, "", [], [n], None)
  | RegisterAgent a s => (1%nat, [], Some a, s, [], [], None)
  | BindPrefix a k bs p => (2%nat, [], Some a, "", [MkChainBinding k bs p], [], None)
  | BindChain a bs => (3%nat, [], Some a, "", bs, [], None)
  | BeginUploadLease l a bs => (4%nat, bs, Some a, "", [], [], Some l)
  | CommitUploadLease l a b r => (5%nat, [], Some a, "", [b], [r], Some l)
  | CancelUploadLease l a => (6%nat, [], Some a, "", [], [], Some l)
  | RenewUploadLease l a g t => (7%nat, [], Some a, "", [], [g; t], Some l)
  | AdvanceLeaseClock t => (8%nat, [], None, "", [], [t], None)
  | ExpireUploadLease l g d => (9%nat, [], None, "", [], [g; d], Some l)
  end.
Definition request_decode (c : nat * list BlockId * option AgentId * string *
    list ChainBinding * list Z * option BlockId) : option Request :=
  match c with
  | (0%nat, bs, None, _, [], [n], None) => Some (RequireReplicas bs n)
  | (1%nat, [], Some a, s, [], [], None) => Some (RegisterAgent a s)
  | (2%nat, [], Some a, _, [MkChainBinding k bs p], [], None) => Some (BindPrefix a k bs p)
  | (3%nat, [], Some a, _, bs, [], None) => Some (BindChain a bs)
  | (4%nat, bs, Some a, _, [], [], Some l) => Some (BeginUploadLease l a bs)
  | (5%nat, [], Some a, _, [b], [r], Some l) => Some (CommitUploadLease l a b r)
  | (6%nat, [], Some a, _, [], [], Some l) => Some (CancelUploadLease l a)
  | (7%nat, [], Some a, _, [], [g; t], Some l) => Some (RenewUploadLease l a g t)
  | (8%nat, [], None, _, [], [t], None) => Some (AdvanceLeaseClock t)
  | (9%nat, [], None, _, [], [g; d], Some l) => Some (ExpireUploadLease l g d)
  | _ => None
  end.
#[export] Instance Request_countable : Countable Request.
Proof. refine (inj_countable request_code request_decode _). by intros []. Defined.
#[export] Instance EntryPayload_eq_dec : EqDecision EntryPayload.
Proof. solve_decision. Defined.
#[export] Instance EntryPayload_countable : Countable EntryPayload.
Proof.
  countable_by (λ x, match x with Blank => None | Normal r => Some (inl r) | EMembership m => Some (inr m) end)
    (λ x : option (Request + Membership),
       match x with None => Blank | Some (inl r) => Normal r | Some (inr m) => EMembership m end).
Defined.
#[export] Instance Entry_eq_dec : EqDecision Entry.
Proof. solve_decision. Defined.
#[export] Instance Entry_countable : Countable Entry.
Proof. countable_by (λ x, (entry_log_id x, entry_payload x)) (λ '(a, b), MkEntry a b). Defined.

(** ** The encoding *)
Fixpoint bits_bytes (p : positive) : bytes :=
  match p with
  | xH => []
  | xO p => x30 :: bits_bytes p
  | xI p => x31 :: bits_bytes p
  end.
Fixpoint bytes_bits (l : bytes) : option positive :=
  match l with
  | [] => Some xH
  | x30 :: l => xO <$> bytes_bits l
  | x31 :: l => xI <$> bytes_bits l
  | _ => None
  end.

Lemma bytes_bits_bytes p : bytes_bits (bits_bytes p) = Some p.
Proof. induction p as [p IH|p IH|]; cbn; [by rewrite IH..|done]. Qed.
Lemma bits_bytes_no_newline p : x0a ∉ bits_bytes p.
Proof. induction p; cbn; set_solver. Qed.

Definition toy_enc `{Countable A} (a : A) : bytes := bits_bytes (encode a).
Definition toy_dec `{Countable A} (l : bytes) : option A := bytes_bits l ≫= decode.

Lemma toy_dec_enc `{Countable A} (a : A) : toy_dec (toy_enc a) = Some a.
Proof. unfold toy_dec, toy_enc. rewrite bytes_bits_bytes. cbn. apply decode_encode. Qed.
