(* ===== verification/Snapshot.v ===== *)
(** * Snapshots of the state machine
      ([crates/kalpak-control/src/state_machine.rs], the [StateMachineStore]:
      [open], [decode_snapshot], [persist_snapshot], [build_snapshot],
      [install_snapshot])

    A snapshot is the metadata state in [bincode] behind a version tag; five
    versions and an untagged legacy layout are read.  On disk it is the field
    [data] of a JSON document.  [bincode] and [serde_json] are parameters:
    the code relies on decoding giving back what was encoded. *)

From stdpp Require Import pretty.
From S2P Require Import Prelude Core Metadata Leases StateMachine StateInvariant Lifecycle Durability Codecs.
Open Scope Z_scope.

(** ** The older layouts *)
Record V3LeaseState := MkV3Leases {
  v3_initialized : bool;
  v3_records : gmap BlockId UploadLease;
  v3_revisions : gmap string Z }.
Record V4LeaseState := MkV4Leases {
  v4_initialized : bool;
  v4_records : gmap BlockId UploadLease;
  v4_revisions : gmap string Z;
  v4_cancelled : gmap BlockId Z }.
Record VersionedMetadata (L : Type) := MkVersioned {
  vm_leases : L;
  vm_replica_requirements : gmap BlockId Z;
  vm_agents : gmap AgentId AgentRecord;
  vm_bindings : gmap string BindingRecord;
  vm_children : gmap string (list string);
  vm_block_refs : gmap BlockId Z;
  vm_last_applied : option LogId;
  vm_membership : StoredMembership }.
Record V2MetadataState := MkV2 {
  v2_replica_requirements : gmap BlockId Z;
  v2_agents : gmap AgentId AgentRecord;
  v2_bindings : gmap string BindingRecord;
  v2_children : gmap string (list string);
  v2_block_refs : gmap BlockId Z;
  v2_last_applied : option LogId;
  v2_membership : StoredMembership }.
Record LegacyMetadataState := MkLegacy {
  lg_agents : gmap AgentId AgentRecord;
  lg_bindings : gmap string BindingRecord;
  lg_children : gmap string (list string);
  lg_block_refs : gmap BlockId Z;
  lg_last_applied : option LogId;
  lg_membership : StoredMembership }.
Arguments MkVersioned {L}.
Arguments vm_leases {L}.
Arguments vm_replica_requirements {L}.
Arguments vm_agents {L}.
Arguments vm_bindings {L}.
Arguments vm_children {L}.
Arguments vm_block_refs {L}.
Arguments vm_last_applied {L}.
Arguments vm_membership {L}.

Definition with_leases {L} (v : VersionedMetadata L) (convert : L → LeaseState) : MetadataState :=
  MkState ∅ (convert (vm_leases v)) (vm_replica_requirements v) (vm_agents v) (vm_bindings v)
    (vm_children v) (vm_block_refs v) (vm_last_applied v) (vm_membership v).
Definition v4_leases (l : V4LeaseState) : LeaseState :=
  MkLeaseState (v4_initialized l) (v4_records l) (v4_revisions l) (v4_cancelled l) 0 ∅ ∅.
Definition v3_leases (l : V3LeaseState) : LeaseState :=
  MkLeaseState (v3_initialized l) (v3_records l) (v3_revisions l) ∅ 0 ∅ ∅.
Definition from_v2 (v : V2MetadataState) : MetadataState :=
  MkState ∅ default_leases (v2_replica_requirements v) (v2_agents v) (v2_bindings v)
    (v2_children v) (v2_block_refs v) (v2_last_applied v) (v2_membership v).
Definition from_legacy (v : LegacyMetadataState) : MetadataState :=
  MkState ∅ default_leases ∅ (lg_agents v) (lg_bindings v)
    (lg_children v) (lg_block_refs v) (lg_last_applied v) (lg_membership v).

(** ** The codecs *)
Class Bincode := {
  bin_encode : MetadataState → bytes + string;
  bin_v6 : bytes → MetadataState * Z + string;
  bin_v5 : bytes → VersionedMetadata LeaseState * Z + string;
  bin_v4 : bytes → VersionedMetadata V4LeaseState * Z + string;
  bin_v3 : bytes → VersionedMetadata V3LeaseState * Z + string;
  bin_v2 : bytes → V2MetadataState * Z + string;
  bin_legacy : bytes → LegacyMetadataState * Z + string }.

(** Plain data always encodes, and decoding the result consumes all of it. *)
Class BincodeLaws `{Bincode} :=
  bin_roundtrip : ∀ s, ∃ l, bin_encode s = inl l ∧ bin_v6 l = inl (s, zlen l).

Record SnapshotMeta := MkMeta {
  last_log_id : option LogId;
  last_membership : StoredMembership;
  snapshot_id : string }.
Record DurableSnapshot := MkDurable {
  ds_version : Z;
  ds_meta : SnapshotMeta;
  ds_data : bytes }.

Class SnapshotJson := {
  json_of_snapshot : DurableSnapshot → bytes + string;
  snapshot_of_json : bytes → DurableSnapshot + string }.
Class SnapshotJsonLaws `{SnapshotJson} :=
  snapshot_json_roundtrip : ∀ v, ∃ l, json_of_snapshot v = inl l ∧ snapshot_of_json l = inl v.

(** [strip_prefix]. *)
Definition strip_prefix (tag data : bytes) : option bytes :=
  if bool_decide (take (length tag) data = tag) then Some (drop (length tag) data) else None.

Lemma strip_prefix_app tag l : strip_prefix tag (tag ++ l) = Some l.
Proof. unfold strip_prefix. by rewrite take_app_length, bool_decide_eq_true_2, drop_app_length. Qed.

Definition tag_of (s : string) : bytes := str_bytes s.
Definition SNAPSHOT_V2 : bytes := tag_of "KLPKSM02".
Definition SNAPSHOT_V3 : bytes := tag_of "KLPKSM03".
Definition SNAPSHOT_V4 : bytes := tag_of "KLPKSM04".
Definition SNAPSHOT_V5 : bytes := tag_of "KLPKSM05".
Definition SNAPSHOT_V6 : bytes := tag_of "KLPKSM06".

(** [.map_err(std::io::Error::other)?] on a decoder's result. *)
Definition decoded {A} (r : A * Z + string) (convert : A → MetadataState) (tag : bytes)
    : res io_error (MetadataState * Z) :=
  match r with
  | inl (v, consumed) => Ok (convert v, consumed + zlen tag)
  | inr message => Err (io_other message)
  end.

(** [state.leases.records[id]]: indexing panics on an absent key. *)
Fixpoint any_position (f : UploadLease → Z → bool) (m : gmap BlockId UploadLease)
    (l : list (BlockId * Z)) : res io_error bool :=
  match l with
  | [] => Ok false
  | (id, at_) :: l =>
      match m !! id with
      | None => Panic
      | Some lease => if f lease at_ then Ok true else any_position f m l
      end
  end.

Section Snapshots.
Context `{BindingKey, Bincode, SnapshotJson}.

Definition decode_payload (data : bytes) : res io_error (MetadataState * Z) :=
  match strip_prefix SNAPSHOT_V6 data with
  | Some payload => decoded (bin_v6 payload) id SNAPSHOT_V6
  | None =>
  match strip_prefix SNAPSHOT_V5 data with
  | Some payload => decoded (bin_v5 payload) (λ old, with_leases old id) SNAPSHOT_V5
  | None =>
  match strip_prefix SNAPSHOT_V4 data with
  | Some payload => decoded (bin_v4 payload) (λ old, with_leases old v4_leases) SNAPSHOT_V4
  | None =>
  match strip_prefix SNAPSHOT_V3 data with
  | Some payload => decoded (bin_v3 payload) (λ old, with_leases old v3_leases) SNAPSHOT_V3
  | None =>
  match strip_prefix SNAPSHOT_V2 data with
  | Some payload => decoded (bin_v2 payload) from_v2 SNAPSHOT_V2
  | None => decoded (bin_legacy data) from_legacy []
  end end end end end.

Definition mispositioned (s : MetadataState) (lease : UploadLease) (at_ : Z) : bool :=
  (at_ <? created_at lease) || (applied_index s <? at_).

Definition inconsistent_lease (s : MetadataState) (lease : UploadLease) : bool :=
  negb (contains_key (agents s) (lease_agent lease))
  || match committed lease with
     | None => false
     | Some c =>
         match revisions (leases s) !! binding_key (cb_key (commit_binding c)) with
         | None => true
         | Some revision => revision <=? commit_expected_revision c
         end
     end.

Definition decode_snapshot (meta : SnapshotMeta) (data : bytes) : res io_error MetadataState :=
  '(s, consumed) ← decode_payload data;
  if negb (consumed =? zlen data) || negb (bool_decide (last_applied s = last_log_id meta))
     || negb (bool_decide (membership s = last_membership meta)) then
    Err (io_other "snapshot metadata/payload mismatch")
  else if (MAX_REQUIREMENTS <? zsize (replica_requirements s))
       || map_any (λ _ n, negb ((2 <=? n) && (n <=? 16))) (replica_requirements s) then
    Err (io_other "invalid snapshot replica requirements")
  else if negb (validate (leases s)) then Err (io_other "invalid upload lease snapshot")
  else if (MAX_BLOCK_FENCES <? zsize (block_fences s))
       || map_any (λ _ at_, applied_index s <? at_) (block_fences s) then
    Err (io_other "invalid block fence positions")
  else
    c ← any_position (mispositioned s) (records (leases s)) (map_to_list (cancelled (leases s)));
    if c : bool then Err (io_other "invalid lease cancellation position")
    else
      e ← any_position (mispositioned s) (records (leases s)) (map_to_list (expired (leases s)));
      if e : bool then Err (io_other "invalid lease expiry position")
      else if map_any (λ key _, negb (contains_key (bindings s) key)) (revisions (leases s))
           || map_any (λ _ lease, inconsistent_lease s lease) (records (leases s)) then
        Err (io_other "inconsistent upload lease snapshot")
      else Ok s.

(** ** The store *)
Record StateMachineStore := MkSm {
  sm_state : MetadataState;
  sm_snapshot : option (SnapshotMeta * bytes);
  sm_snapshot_idx : Z;
  sm_directory : bool (* [Some(directory)] *) }.
Definition default_sm : StateMachineStore := MkSm default_state None 0 false.

Definition SNAPSHOT_FILE : string := "raft-snapshot.json".
Definition SNAPSHOT_PENDING : string := "raft-snapshot.pending".

(** [StateMachineStore::open]. *)
Definition sm_open : FS StateMachineStore := λ d,
  match fs_create_dir d with
  | (d, Ok _) =>
      match fs_read SNAPSHOT_FILE d with
      | (d, Ok l) =>
          (d, match snapshot_of_json l with
              | inr message => Err (io_other message)
              | inl saved =>
                  if negb (ds_version saved =? 1) then Err (io_other "unsupported snapshot version")
                  else
                    s ← decode_snapshot (ds_meta saved) (ds_data saved);
                    Ok (MkSm s (Some (ds_meta saved, ds_data saved)) 0 true)
              end)
      | (d, Err e) =>
          match io_kind_of e with
          | KNotFound => (d, Ok (MkSm default_state None 0 true))
          | _ => (d, Err e)
          end
      | (d, Panic) => (d, Panic)
      end
  | (d, Err e) => (d, Err e)
  | (d, Panic) => (d, Panic)
  end.

Definition persist_snapshot (sm : StateMachineStore) (meta : SnapshotMeta) (data : bytes) : FS () :=
  if sm_directory sm then
    match json_of_snapshot (MkDurable 1 meta data) with
    | inr message => st_throw (io_other message)
    | inl l => replace SNAPSHOT_FILE SNAPSHOT_PENDING l
    end
  else mret ().

Definition set_snapshot (sm : StateMachineStore) (meta : SnapshotMeta) (data : bytes)
    : StateMachineStore :=
  MkSm (sm_state sm) (Some (meta, data)) (sm_snapshot_idx sm) (sm_directory sm).

Abbreviation SM := (ST (StateMachineStore * Dir) StorageError).

(** [build_snapshot]: the counter moves before the publication is attempted. *)
Definition build_snapshot : SM (SnapshotMeta * bytes) := λ '(sm, d),
  match bin_encode (sm_state sm) with
  | inr message => ((sm, d), Err (ReadStateMachine message))
  | inl encoded =>
      let data := SNAPSHOT_V6 ++ encoded in
      let idx := u64_add (sm_snapshot_idx sm) 1 in
      let sm := MkSm (sm_state sm) (sm_snapshot sm) idx (sm_directory sm) in
      let meta := MkMeta (last_applied (sm_state sm)) (membership (sm_state sm))
        ("snapshot-" +:+ pretty (applied_index (sm_state sm)) +:+ "-" +:+ pretty idx) in
      match persist_snapshot sm meta data d with
      | (d, Ok _) => ((set_snapshot sm meta data, d), Ok (meta, data))
      | (d, Err e) => ((sm, d), Err (WriteStateMachine e))
      | (d, Panic) => ((sm, d), Panic)
      end
  end.

Definition install_snapshot (meta : SnapshotMeta) (data : bytes) : SM () := λ '(sm, d),
  match decode_snapshot meta data with
  | Err e => ((sm, d), Err (ReadSnapshot e))
  | Panic => ((sm, d), Panic)
  | Ok new_state =>
      match persist_snapshot sm meta data d with
      | (d, Ok _) =>
          ((set_snapshot (MkSm new_state (sm_snapshot sm) (sm_snapshot_idx sm) (sm_directory sm))
              meta data, d), Ok ())
      | (d, Err e) => ((sm, d), Err (WriteStateMachine e))
      | (d, Panic) => ((sm, d), Panic)
      end
  end.

Definition get_current_snapshot (sm : StateMachineStore) : option (SnapshotMeta * bytes) :=
  sm_snapshot sm.
Definition applied_state (sm : StateMachineStore) : option LogId * StoredMembership :=
  (last_applied (sm_state sm), membership (sm_state sm)).

(** [RaftStateMachine::apply] on the store. *)
Definition sm_apply (es : list Entry) (sm : StateMachineStore) : StateMachineStore * list Response :=
  let (s, rs) := apply (sm_state sm) es in
  (MkSm s (sm_snapshot sm) (sm_snapshot_idx sm) (sm_directory sm), rs).

(** ** What the checks decide *)

(** [validate], read back: the parts of the invariant it tests. *)
Lemma validate_true l :
  validate l = true →
  zsize (records l) ≤ MAX_LEASES ∧ reserved_blocks l ≤ MAX_RESERVED_BLOCKS ∧
  (initialized l = false → records l = ∅ ∧ revisions l = ∅) ∧
  (∀ id d, deadlines l !! id = Some d → invalid_deadline l id d = false) ∧
  (∀ id a, expired l !! id = Some a → invalid_expired l id = false) ∧
  (∀ id a, cancelled l !! id = Some a → not_uncommitted l id = false) ∧
  (∀ id r, records l !! id = Some r → invalid_record l r = false).
Proof.
  unfold validate. rewrite negb_true_iff, !orb_false_iff, !map_any_false, !Z.ltb_ge.
  intros ((((((? & Hd) & He) & Hc) & Hi) & ?) & Hr). split_and!; [done|done| |naive_solver..].
  intros Hn. rewrite Hn in Hi. cbn in Hi. bool_prop. done.
Qed.

Lemma uncommitted_record l id :
  not_uncommitted l id = false → ∃ r, records l !! id = Some r ∧ committed r = None.
Proof. unfold not_uncommitted. destruct (records l !! id) as [r|]; [|done]. destruct (committed r) eqn:E; naive_solver. Qed.

Lemma invalid_deadline_false l id d :
  invalid_deadline l id d = false →
  is_Some (records l !! id) ∧ generation d ≠ 0 ∧ 1 ≤ ttl_ticks d ≤ MAX_TTL_TICKS ∧
  ttl_ticks d ≤ deadline_tick d ∧ deadline_tick d - ttl_ticks d ≤ clock l.
Proof.
  unfold invalid_deadline. rewrite !orb_false_iff, !negb_false_iff, andb_true_iff, contains_key_true.
  intros (((? & ?) & ?) & Hs). destruct (checked_sub _ _) eqn:E; [|done].
  apply checked_sub_Some in E as [-> ?]. bool_prop. split_and!; [done|lia..].
Qed.

Lemma invalid_expired_false l id :
  invalid_expired l id = false →
  ∃ r d, records l !! id = Some r ∧ committed r = None ∧ cancelled l !! id = None ∧
    deadlines l !! id = Some d ∧ deadline_tick d ≤ clock l.
Proof.
  unfold invalid_expired. rewrite !orb_false_iff, contains_key_false.
  intros (((r & ? & ?)%uncommitted_record & ?) & Hd). destruct (deadlines l !! id) as [d|] eqn:E; [|done].
  apply Z.ltb_ge in Hd. exists r, d. by split_and!.
Qed.

Lemma any_position_spec f m l :
  (∀ id a, (id, a) ∈ l → is_Some (m !! id)) →
  ∃ b, any_position f m l = Ok b ∧
    (b = false ↔ ∀ id a, (id, a) ∈ l → ∃ r, m !! id = Some r ∧ f r a = false).
Proof.
  induction l as [|[id a] l IH]; intros Hl; cbn.
  - exists false. split; [done|]. split; [|done]. intros _ ?? H'. by apply elem_of_nil in H'.
  - destruct (Hl id a ltac:(by left)) as [r Hr]. rewrite Hr. destruct (f r a) eqn:Hf.
    + exists true. split; [done|]. split; [done|]. intros Hall.
      destruct (Hall id a ltac:(by left)) as (r' & ? & ?). congruence.
    + destruct IH as (b & -> & Hb); [intros; eapply Hl; by right|]. exists b. split; [done|].
      rewrite Hb. split.
      * intros Hall id' a' [[= -> ->]|Hin]%elem_of_cons; eauto.
      * intros Hall id' a' Hin. apply Hall. by right.
Qed.

Record snapshot_valid (s : MetadataState) : Prop := {
  sv_req : req_inv (replica_requirements s);
  sv_leases : validate (leases s) = true;
  sv_fence : fence_inv (applied_index s) (block_fences s);
  sv_cancelled : ∀ id a, cancelled (leases s) !! id = Some a →
    ∃ r, records (leases s) !! id = Some r ∧ created_at r ≤ a ≤ applied_index s;
  sv_expired : ∀ id a, expired (leases s) !! id = Some a →
    ∃ r, records (leases s) !! id = Some r ∧ created_at r ≤ a ≤ applied_index s;
  sv_revisions : ∀ k r, revisions (leases s) !! k = Some r → is_Some (bindings s !! k);
  sv_records : ∀ id r, records (leases s) !! id = Some r →
    is_Some (agents s !! lease_agent r) ∧
    ∀ c, committed r = Some c →
      ∃ v, revisions (leases s) !! binding_key (cb_key (commit_binding c)) = Some v ∧
           commit_expected_revision c < v }.

Lemma positions_spec s (m : gmap BlockId Z) :
  (∀ id a, m !! id = Some a → is_Some (records (leases s) !! id)) →
  ∃ b, any_position (mispositioned s) (records (leases s)) (map_to_list m) = Ok b ∧
    (b = false ↔ ∀ id a, m !! id = Some a →
       ∃ r, records (leases s) !! id = Some r ∧ created_at r ≤ a ≤ applied_index s).
Proof.
  intros Hm. destruct (any_position_spec (mispositioned s) (records (leases s)) (map_to_list m))
    as (b & E & Hb).
  { intros id a. rewrite elem_of_map_to_list. eauto. }
  exists b. split; [done|]. rewrite Hb. setoid_rewrite elem_of_map_to_list.
  unfold mispositioned. setoid_rewrite orb_false_iff. setoid_rewrite Z.ltb_ge. naive_solver.
Qed.

Lemma inconsistent_lease_false s r :
  inconsistent_lease s r = false ↔
  is_Some (agents s !! lease_agent r) ∧
  ∀ c, committed r = Some c →
    ∃ v, revisions (leases s) !! binding_key (cb_key (commit_binding c)) = Some v ∧
         commit_expected_revision c < v.
Proof.
  unfold inconsistent_lease. rewrite orb_false_iff, negb_false_iff, contains_key_true.
  destruct (committed r) as [c|]; [|naive_solver].
  destruct (revisions (leases s) !! _) as [v|] eqn:E; [rewrite Z.leb_gt|]; naive_solver.
Qed.

Lemma meta_check_false s n (data : bytes) meta :
  negb (n =? zlen data) || negb (bool_decide (last_applied s = last_log_id meta))
    || negb (bool_decide (membership s = last_membership meta)) = false ↔
  n = zlen data ∧ last_applied s = last_log_id meta ∧ membership s = last_membership meta.
Proof. rewrite !orb_false_iff, !negb_false_iff, Z.eqb_eq, !bool_decide_eq_true. tauto. Qed.

Lemma req_check_false (m : gmap BlockId Z) :
  (MAX_REQUIREMENTS <? zsize m) || map_any (λ _ n, negb ((2 <=? n) && (n <=? 16))) m = false ↔
  req_inv m.
Proof.
  rewrite orb_false_iff, Z.ltb_ge, map_any_false. setoid_rewrite negb_false_iff.
  setoid_rewrite andb_true_iff. setoid_rewrite Z.leb_le. split; [by intros []; constructor|by intros []].
Qed.

Lemma fence_check_false a (m : gmap BlockId Z) :
  (MAX_BLOCK_FENCES <? zsize m) || map_any (λ _ at_, a <? at_) m = false ↔ fence_inv a m.
Proof.
  rewrite orb_false_iff, Z.ltb_ge, map_any_false. setoid_rewrite Z.ltb_ge.
  split; [by intros []; constructor|by intros []].
Qed.

Lemma lease_check_false s :
  map_any (λ key _, negb (contains_key (bindings s) key)) (revisions (leases s))
    || map_any (λ _ lease, inconsistent_lease s lease) (records (leases s)) = false ↔
  (∀ k r, revisions (leases s) !! k = Some r → is_Some (bindings s !! k)) ∧
  (∀ id r, records (leases s) !! id = Some r →
    is_Some (agents s !! lease_agent r) ∧
    ∀ c, committed r = Some c →
      ∃ v, revisions (leases s) !! binding_key (cb_key (commit_binding c)) = Some v ∧
           commit_expected_revision c < v).
Proof.
  rewrite orb_false_iff, !map_any_false. setoid_rewrite inconsistent_lease_false.
  setoid_rewrite negb_false_iff. setoid_rewrite contains_key_true. done.
Qed.

(** The checks of [decode_snapshot] after the payload: no panic, and they
    decide [snapshot_valid] and the agreement with the metadata. *)
Lemma decode_snapshot_spec meta data :
  match decode_payload data with
  | Ok (s, consumed) =>
      let good := consumed = zlen data ∧ last_applied s = last_log_id meta ∧
                  membership s = last_membership meta ∧ snapshot_valid s in
      (∃ e, decode_snapshot meta data = Err e ∧ ¬ good) ∨
      (decode_snapshot meta data = Ok s ∧ good)
  | r => decode_snapshot meta data = r ≫= λ p, Ok p.1
  end.
Proof.
  unfold decode_snapshot. destruct (decode_payload data) as [[s n]|e|]; cbn [mbind res_bind]; [|done..].
  destruct (negb (n =? zlen data) || _ || _) eqn:E1.
  { left. eexists. split; [done|]. intros (? & ? & ? & _).
    by rewrite (proj2 (meta_check_false s n data meta)) in E1. }
  apply meta_check_false in E1.
  destruct (_ || _) eqn:E2.
  { left. eexists. split; [done|]. intros (_ & _ & _ & []). by rewrite (proj2 (req_check_false _)) in E2. }
  apply req_check_false in E2. destruct (validate (leases s)) eqn:E3; cbn [negb].
  2: { left. eexists. split; [done|]. intros (_ & _ & _ & []). congruence. }
  destruct (validate_true _ E3) as (_ & _ & _ & _ & He & Hc & _).
  destruct (_ || _) eqn:E4.
  { left. eexists. split; [done|]. intros (_ & _ & _ & []). by rewrite (proj2 (fence_check_false _ _)) in E4. }
  apply fence_check_false in E4.
  destruct (positions_spec s (cancelled (leases s))) as (b & -> & Hb).
  { intros id a (r & Hr & _)%Hc%uncommitted_record. eauto. }
  cbn [mbind res_bind]. destruct b.
  { left. eexists. split; [done|]. intros (_ & _ & _ & []). by apply Hb in sv_cancelled0. }
  destruct (positions_spec s (expired (leases s))) as (b & -> & Hb').
  { intros id a (r & d & ? & _)%He%invalid_expired_false. eauto. }
  cbn [mbind res_bind]. destruct b.
  { left. eexists. split; [done|]. intros (_ & _ & _ & []). by apply Hb' in sv_expired0. }
  destruct (_ || _) eqn:E5.
  - left. eexists. split; [done|]. intros (_ & _ & _ & []). by rewrite (proj2 (lease_check_false _)) in E5.
  - apply lease_check_false in E5 as [? ?]. right. destruct E1 as (? & ? & ?). split_and!; [done..|].
    constructor; [done|done|done|by apply Hb|by apply Hb'|done|done].
Qed.

Lemma decode_payload_no_panic data : decode_payload data ≠ Panic.
Proof. intros E. unfold decode_payload in E. repeat (case_hyp E); unfold decoded in E; by run E. Qed.

Lemma decode_no_panic meta data : decode_snapshot meta data ≠ Panic.
Proof.
  pose proof (decode_snapshot_spec meta data) as H'. pose proof (decode_payload_no_panic data).
  destruct (decode_payload data) as [[s n]|e|]; [|by rewrite H'|done].
  destruct H' as [(e & -> & _)|[-> _]]; done.
Qed.

Lemma inv_snapshot_valid s : inv s → snapshot_valid s.
Proof.
  intros [HL HF HR]. constructor; [done|by eapply validate_inv|done|..]; destruct HL.
  - intros id a Ha. destruct (li_cancelled _ _ Ha) as (r & ? & ? & ?). eauto.
  - intros id a Ha. destruct (li_expired _ _ Ha) as (r & d & ? & ? & ? & ?). eauto.
  - intros k r Hr. by apply li_revisions in Hr as [? _].
  - intros id r Hr. destruct (li_record _ _ Hr). split; [done|]. intros c Hc.
    by destruct (lo_commit _ Hc) as (_ & _ & ?).
Qed.

(** Types of the fields the model keeps in [Z]. *)
Record u64_fields (s : MetadataState) : Prop := {
  uf_clock : 0 ≤ clock (leases s);
  uf_deadline : ∀ id d, deadlines (leases s) !! id = Some d → 0 ≤ generation d;
  uf_revision : ∀ k r, revisions (leases s) !! k = Some r → 0 ≤ r ≤ u64_max }.

Lemma snapshot_valid_inv s :
  snapshot_valid s → u64_fields s →
  (∀ id r, records (leases s) !! id = Some r → created_at r ≤ applied_index s) → inv s.
Proof.
  intros [Hr Hv Hf Hc He Hrev Hrec] [Huc Hud Hur] Hcr. constructor; [|done|done].
  destruct (validate_true _ Hv) as (? & ? & ? & Vd & Ve & Vc & Vr). constructor; try done.
  - intros id r Hid. pose proof (Vr _ _ Hid) as Hb. unfold invalid_record in Hb. bool_prop.
    destruct (Hrec _ _ Hid) as [? Hco]. constructor; [done|done|by eauto|done|].
    intros c Hcm. rewrite Hcm in *. bool_prop. eauto.
  - intros id d Hd. pose proof (Vd _ _ Hd) as Hb. apply invalid_deadline_false in Hb as (? & ? & ? & ? & ?).
    apply Hud in Hd. split_and!; [done|lia..].
  - intros id a Ha. destruct (uncommitted_record _ _ (Vc _ _ Ha)) as (r & ? & ?).
    destruct (Hc _ _ Ha) as (r' & ? & ?). simplify_eq. eauto.
  - intros id a Ha. pose proof (Ve _ _ Ha) as Hb. apply invalid_expired_false in Hb as (r & d & ? & ? & ? & ? & ?).
    destruct (He _ _ Ha) as (r' & ? & ?). simplify_eq. by exists r, d.
  - intros k r Hk. eauto.
Qed.

(** ** Reopening *)

(** What [open] makes of the snapshot file. *)
Definition restore (o : option bytes) : res io_error StateMachineStore :=
  match o with
  | None => Ok (MkSm default_state None 0 true)
  | Some l =>
      match snapshot_of_json l with
      | inr message => Err (io_other message)
      | inl saved =>
          if negb (ds_version saved =? 1) then Err (io_other "unsupported snapshot version")
          else s ← decode_snapshot (ds_meta saved) (ds_data saved);
               Ok (MkSm s (Some (ds_meta saved, ds_data saved)) 0 true)
      end
  end.

Lemma sm_open_quiet d :
  dir_plan d = [] → sm_open d = (d, restore (dir_files d !! SNAPSHOT_FILE)).
Proof.
  destruct d as [m plan]. cbn. intros ->. unfold sm_open, restore. cbn. by destruct (m !! SNAPSHOT_FILE).
Qed.
Lemma sm_open_reopened d : (sm_open (reopened d)).2 = restore (dir_files d !! SNAPSHOT_FILE).
Proof.
  unfold sm_open, reopened, restore. cbn. by destruct (dir_files d !! SNAPSHOT_FILE).
Qed.

Context `{!BincodeLaws, !SnapshotJsonLaws}.

Lemma restore_published meta data l s :
  json_of_snapshot (MkDurable 1 meta data) = inl l → decode_snapshot meta data = Ok s →
  restore (Some l) = Ok (MkSm s (Some (meta, data)) 0 true).
Proof.
  intros El Ed. unfold restore. destruct (snapshot_json_roundtrip (MkDurable 1 meta data)) as (l' & El' & E).
  rewrite El in El'. simplify_eq. rewrite E. cbn. by rewrite Ed.
Qed.

(** Publishing: the new file, or an error and the old or the new file. *)
Lemma persist_snapshot_spec sm meta data d d' r s :
  sm_directory sm = true → decode_snapshot meta data = Ok s →
  persist_snapshot sm meta data d = (d', r) →
  let new := Ok (MkSm s (Some (meta, data)) 0 true) in
  (r = Ok () ∧ (sm_open (reopened d')).2 = new) ∨
  (∃ e, r = Err e ∧ dir_plan d ≠ [] ∧
    ((sm_open (reopened d')).2 = (sm_open (reopened d)).2 ∨ (sm_open (reopened d')).2 = new)).
Proof.
  intros Hd Hs Hp. unfold persist_snapshot in Hp. rewrite Hd in Hp.
  destruct (snapshot_json_roundtrip (MkDurable 1 meta data)) as (l & El & _). rewrite El in Hp.
  pose proof (restore_published _ _ _ _ El Hs) as Hrs.
  rewrite !sm_open_reopened.
  apply replace_inv in Hp as [(-> & Hf & _)|(e & -> & ? & [[Hf _]|[Hf _]])]; [..|done];
    rewrite Hf; eauto 10.
Qed.

(** Publishing a snapshot leaves the log alone. *)
Lemma persist_snapshot_keeps sm meta data name :
  SNAPSHOT_FILE ≠ name → SNAPSHOT_PENDING ≠ name → keeps name (persist_snapshot sm meta data).
Proof.
  intros ?? d. unfold persist_snapshot. destruct (sm_directory sm); [|done].
  destruct (json_of_snapshot _); [by apply keeps_replace|done].
Qed.

Lemma decode_built s :
  snapshot_valid s → ∃ l, bin_encode s = inl l ∧
    ∀ sid, decode_snapshot (MkMeta (last_applied s) (membership s) sid) (SNAPSHOT_V6 ++ l) = Ok s.
Proof.
  intros Hs. destruct (bin_roundtrip s) as (l & El & Ed). exists l. split; [done|]. intros sid.
  pose proof (decode_snapshot_spec (MkMeta (last_applied s) (membership s) sid) (SNAPSHOT_V6 ++ l)) as H'.
  assert (decode_payload (SNAPSHOT_V6 ++ l) = Ok (s, zlen (SNAPSHOT_V6 ++ l))) as Ep.
  { unfold decode_payload. rewrite strip_prefix_app, Ed. cbn [decoded id]. do 2 f_equal. zl. }
  rewrite Ep in H'. destruct H' as [(e & _ & [])|[-> _]]; done.
Qed.

Lemma build_snapshot_spec sm d sm' d' r :
  inv (sm_state sm) → sm_directory sm = true → build_snapshot (sm, d) = ((sm', d'), r) →
  sm_state sm' = sm_state sm ∧ sm_directory sm' = true ∧
  (∀ name, SNAPSHOT_FILE ≠ name → SNAPSHOT_PENDING ≠ name → dir_files d' !! name = dir_files d !! name) ∧
  ∃ meta data,
    (last_log_id meta, last_membership meta) = applied_state sm ∧
    let new := Ok (MkSm (sm_state sm) (Some (meta, data)) 0 true) in
    (r = Ok (meta, data) ∧ get_current_snapshot sm' = Some (meta, data) ∧
     (sm_open (reopened d')).2 = new) ∨
    (∃ e, r = Err e ∧ get_current_snapshot sm' = get_current_snapshot sm ∧ dir_plan d ≠ [] ∧
     ((sm_open (reopened d')).2 = (sm_open (reopened d)).2 ∨ (sm_open (reopened d')).2 = new)).
Proof.
  intros HI Hdir E. destruct (decode_built _ (inv_snapshot_valid _ HI)) as (l & El & Ed).
  unfold build_snapshot in E. rewrite El in E. cbn zeta in E.
  match type of E with context [persist_snapshot ?sm1 ?meta ?data d] =>
    pose proof (persist_snapshot_keeps sm1 meta data) as Hk;
    destruct (persist_snapshot sm1 meta data d) as [d1 r1] eqn:Ep in E;
    eapply persist_snapshot_spec in Ep as Ep'; [|done|apply Ed];
    assert (∀ name, SNAPSHOT_FILE ≠ name → SNAPSHOT_PENDING ≠ name →
      dir_files d1 !! name = dir_files d !! name) as Hfr
      by (intros name ??; specialize (Hk name ltac:(done) ltac:(done) d); by rewrite Ep in Hk);
    destruct Ep' as [(-> & Hn)|(e & -> & ? & Hn)]; simplify_eq/=;
    (split_and!; [done|done|done|exists meta, data]) end; (split; [done|]).
  - left. done.
  - right. eauto 10.
Qed.

End Snapshots.

(** ** Properties *)
Section SnapshotTheorems.
Context `{BindingKey, BincodeLaws, SnapshotJsonLaws}.

(** A node can always restart from the snapshot it took, and taking one
    is atomic.  For every state reached by applying a log, [build_snapshot]
    under any sequence of file faults does not panic and leaves the state as
    it is; when it returns a snapshot, that snapshot describes the applied
    position and reopening the directory gives exactly this state; when it
    fails, reopening gives what it gave before, or the new state. *)
Theorem built_snapshots_restore es sm d sm' d' r :
  log_sorted 0 es → sm_state sm = (apply default_state es).1 → sm_directory sm = true →
  build_snapshot (sm, d) = ((sm', d'), r) →
  sm_state sm' = sm_state sm ∧
  match r with
  | Ok (meta, data) =>
      get_current_snapshot sm' = Some (meta, data) ∧
      (last_log_id meta, last_membership meta) = applied_state sm ∧
      (sm_open (reopened d')).2 = Ok (MkSm (sm_state sm) (Some (meta, data)) 0 true)
  | Err _ =>
      get_current_snapshot sm' = get_current_snapshot sm ∧ dir_plan d ≠ [] ∧
      ((sm_open (reopened d')).2 = (sm_open (reopened d)).2 ∨
       ∃ snap, (sm_open (reopened d')).2 = Ok (MkSm (sm_state sm) (Some snap) 0 true))
  | Panic => False
  end.
Proof.
  intros Hes Hst Hdir E. pose proof (apply_inv default_state es default_inv Hes) as HI.
  rewrite <-Hst in HI. apply build_snapshot_spec in E as (Hs & _ & _ & meta & data & Hm & Hr); [|done..].
  split; [done|]. destruct Hr as [(-> & ? & ?)|(e & -> & ? & ? & [?|?])]; eauto 10.
Qed.

(** C29. Decoding a snapshot of any bytes never panics (the indexed lookups of
    cancelled and expired leases are guarded by [validate]), and its checks are
    the invariant of the state machine: a state they accept agrees with the
    snapshot's metadata and satisfies [inv], provided no lease is dated after
    the applied position.  That one condition is not checked. *)
Theorem snapshot_checks_decide_invariant meta data :
  decode_snapshot meta data ≠ Panic ∧
  ∀ s, decode_snapshot meta data = Ok s →
    (last_applied s, membership s) = (last_log_id meta, last_membership meta) ∧
    (u64_fields s → (∀ id r, records (leases s) !! id = Some r → created_at r ≤ applied_index s) →
     inv s).
Proof.
  split; [apply decode_no_panic|]. intros s' E. pose proof (decode_snapshot_spec meta data) as H'.
  destruct (decode_payload data) as [[s n]|e|] eqn:Ep; [|by rewrite H' in E..].
  destruct H' as [(e & ? & _)|(E' & _ & Ha & Hm & Hv)]; [congruence|].
  rewrite E in E'. simplify_eq. split; [congruence|]. by apply snapshot_valid_inv.
Qed.

(** C30. Installing a snapshot from the leader is all or nothing: on success
    memory, the retained snapshot and the directory all hold the decoded
    state at the snapshot's position; on any error, of decoding or of a file
    operation, the store in memory is untouched, and the directory holds the
    old snapshot or the complete new one. *)
Theorem install_is_all_or_nothing sm d meta data sm' d' r :
  sm_directory sm = true → install_snapshot meta data (sm, d) = ((sm', d'), r) →
  match r with
  | Ok _ =>
      decode_snapshot meta data = Ok (sm_state sm') ∧
      get_current_snapshot sm' = Some (meta, data) ∧
      applied_state sm' = (last_log_id meta, last_membership meta) ∧
      (sm_open (reopened d')).2 = Ok (MkSm (sm_state sm') (Some (meta, data)) 0 true)
  | Err _ =>
      sm' = sm ∧
      ((sm_open (reopened d')).2 = (sm_open (reopened d)).2 ∨
       ∃ s, decode_snapshot meta data = Ok s ∧
            (sm_open (reopened d')).2 = Ok (MkSm s (Some (meta, data)) 0 true))
  | Panic => False
  end.
Proof.
  intros Hdir E. unfold install_snapshot in E.
  pose proof (decode_snapshot_spec meta data) as H'.
  destruct (decode_snapshot meta data) as [s|e|] eqn:Ed.
  - destruct (persist_snapshot _ _ _ _) as [d1 r1] eqn:Ep in E.
    eapply persist_snapshot_spec in Ep; [|done..].
    destruct Ep as [(-> & Hn)|(e & -> & ? & Hn)]; simplify_eq/=.
    + split_and!; [done|done| |done]. unfold applied_state; cbn.
      destruct (decode_payload data) as [[s1 n]|e|] eqn:Ep; [|by simplify_eq/=..].
      destruct H' as [(e & ? & _)|([= ->] & _ & -> & -> & _)]; [done|done].
    + split; [done|]. destruct Hn; eauto.
  - simplify_eq/=. eauto.
  - by apply decode_no_panic in Ed.
Qed.
End SnapshotTheorems.

(** ** Examples *)
#[export] Instance SnapshotMeta_eq_dec : EqDecision SnapshotMeta.
Proof. solve_decision. Defined.
#[export] Instance SnapshotMeta_countable : Countable SnapshotMeta.
Proof. countable_by (λ x, (last_log_id x, last_membership x, snapshot_id x)) (λ '(a, b, c), MkMeta a b c). Defined.
#[export] Instance DurableSnapshot_eq_dec : EqDecision DurableSnapshot.
Proof. solve_decision. Defined.
#[export] Instance DurableSnapshot_countable : Countable DurableSnapshot.
Proof. countable_by (λ x, (ds_version x, ds_meta x, ds_data x)) (λ '(a, b, c), MkDurable a b c). Defined.

Definition toy_bincode : Bincode := {|
  bin_encode := λ s, inl (toy_enc s);
  bin_v6 := λ l, match toy_dec l with Some s => inl (s, zlen l) | None => inr "bincode" end;
  bin_v5 := λ _, inr "bincode"; bin_v4 := λ _, inr "bincode"; bin_v3 := λ _, inr "bincode";
  bin_v2 := λ _, inr "bincode"; bin_legacy := λ _, inr "bincode" |}.
Lemma toy_bincode_laws : @BincodeLaws toy_bincode.
Proof. intros s. exists (toy_enc s). split; [done|]. cbn. by rewrite toy_dec_enc. Qed.

Definition toy_snapshot_json : SnapshotJson := {|
  json_of_snapshot := λ v, inl (toy_enc v);
  snapshot_of_json := λ l, match toy_dec l with Some v => inl v | None => inr "json" end |}.
Lemma toy_snapshot_json_laws : @SnapshotJsonLaws toy_snapshot_json.
Proof. intros v. exists (toy_enc v). split; [done|]. cbn. by rewrite toy_dec_enc. Qed.

Definition ex_sm : StateMachineStore := MkSm ex_state None 0 true.
Definition ex_dir : Dir := MkDir ∅ [].
Definition ex_build : StateMachineStore * Dir * res StorageError (SnapshotMeta * bytes) :=
  @build_snapshot toy_bincode toy_snapshot_json (ex_sm, ex_dir).

Lemma built_snapshots_restore_witness :
  sm_state ex_build.1.1 = ex_state ∧
  ∃ snap, ex_build.2 = Ok snap ∧
    (@sm_open toy_binding_key toy_bincode toy_snapshot_json (reopened ex_build.1.2)).2
      = Ok (MkSm ex_state (Some snap) 0 true).
Proof.
  destruct ex_build as [[sm d] r] eqn:E. unfold ex_build in E.
  pose proof (@built_snapshots_restore toy_binding_key toy_bincode toy_bincode_laws
    toy_snapshot_json toy_snapshot_json_laws ex_log ex_sm ex_dir sm d r
    ex_log_sorted eq_refl eq_refl E) as [Hst Hr].
  split; [exact Hst|]. cbn [fst snd]. destruct r as [[meta data]|e|].
  - exists (meta, data). split; [reflexivity|]. exact (proj2 (proj2 Hr)).
  - destruct Hr as [_ [[] _]]. reflexivity.
  - destruct Hr.
Defined.

Definition ex_meta : SnapshotMeta := MkMeta (last_applied ex_state) (membership ex_state) "s".
Definition ex_data : bytes := SNAPSHOT_V6 ++ toy_enc ex_state.

Lemma toy_decode s sid :
  @inv toy_binding_key s →
  @decode_snapshot toy_binding_key toy_bincode (MkMeta (last_applied s) (membership s) sid)
    (SNAPSHOT_V6 ++ toy_enc s) = Ok s.
Proof.
  intros Hs%inv_snapshot_valid.
  destruct (@decode_built toy_binding_key toy_bincode toy_bincode_laws s Hs) as (l & [= <-] & E).
  apply E.
Qed.
Lemma ex_decode : @decode_snapshot toy_binding_key toy_bincode ex_meta ex_data = Ok ex_state.
Proof. apply toy_decode, ex_state_inv. Qed.
Opaque toy_enc toy_dec.

Lemma snapshot_checks_decide_invariant_witness :
  (last_applied ex_state, membership ex_state) = (last_log_id ex_meta, last_membership ex_meta).
Proof.
  exact (proj1 (proj2 (@snapshot_checks_decide_invariant toy_binding_key toy_bincode ex_meta ex_data)
    ex_state ex_decode)).
Defined.

(** A fresh node receives the snapshot. *)
Definition ex_install : StateMachineStore * Dir * res StorageError () :=
  @install_snapshot toy_binding_key toy_bincode toy_snapshot_json ex_meta ex_data
    (MkSm default_state None 0 true, ex_dir).

Lemma ex_install_ok : ex_install.2 = Ok ().
Proof.
  unfold ex_install, install_snapshot. rewrite ex_decode. reflexivity.
Qed.

Lemma install_is_all_or_nothing_witness :
  applied_state ex_install.1.1 = (last_applied ex_state, membership ex_state).
Proof.
  pose proof ex_install_ok as Hok. destruct ex_install as [[sm d] r] eqn:E. cbn [fst snd] in *. subst r.
  pose proof (@install_is_all_or_nothing toy_binding_key toy_bincode
    toy_snapshot_json toy_snapshot_json_laws (MkSm default_state None 0 true) ex_dir
    ex_meta ex_data sm d (Ok ()) eq_refl E) as (_ & _ & Ha & _).
  exact Ha.
Defined.

(** ** A check that is missing

    A lease dated after the applied position passes every check, and
    cancelling it records a position before the lease's date: the next
    snapshot of that state no longer decodes. *)
Definition late_lease : UploadLease := MkLease (agt 1) [blk 10] 10 None.
Definition late_state : MetadataState :=
  MkState ∅ (MkLeaseState true {[blk 1 := late_lease]} ∅ ∅ 0 ∅ ∅) ∅
    {[agt 1 := MkAgentRecord "a" 1]} ∅ ∅ ∅ (Some (MkLogId 1 1 5)) default_membership.
Definition late_cancel : Entry := MkEntry (MkLogId 1 1 6) (Normal (CancelUploadLease (blk 1) (agt 1))).
Definition late_after : MetadataState * Response := @apply_entry toy_binding_key late_state late_cancel.

Lemma late_state_valid : @snapshot_valid toy_binding_key late_state.
Proof.
  constructor; [constructor| |constructor|..]; cbn; try done;
    try (intros ?? E; by rewrite lookup_empty in E).
  intros id r [<- <-]%lookup_singleton_Some. cbn. split; [|done].
  exists (MkAgentRecord "a" 1). apply lookup_insert_eq.
Qed.

Theorem late_lease_blocks_restart `{BincodeLaws} :
  (∃ l, bin_encode late_state = inl l ∧
     @decode_snapshot toy_binding_key _ (MkMeta (last_applied late_state) (membership late_state) "s")
       (SNAPSHOT_V6 ++ l) = Ok late_state) ∧
  late_after.2 = LeaseCancelled ∧
  ∃ l, bin_encode late_after.1 = inl l ∧
    ∀ meta, ∃ e, @decode_snapshot toy_binding_key _ meta (SNAPSHOT_V6 ++ l) = Err e.
Proof.
  split; [|split; [by vm_compute|]].
  - destruct (@decode_built toy_binding_key _ _ late_state late_state_valid) as (l & ? & ?). eauto.
  - destruct (bin_roundtrip late_after.1) as (l & El & Ed). exists l. split; [done|]. intros meta.
    pose proof (@decode_snapshot_spec toy_binding_key _ meta (SNAPSHOT_V6 ++ l)) as H'.
    unfold decode_payload in H'. rewrite strip_prefix_app, Ed in H'. cbn [decoded id] in H'.
    destruct H' as [(e & ? & _)|(_ & _ & _ & _ & [_ _ _ Hc _ _ _])]; [eauto|exfalso].
    destruct (Hc (blk 1) 6) as (r & Hr & ?); [by vm_compute|].
    assert (records (leases late_after.1) !! blk 1 = Some late_lease) as Hl by by vm_compute.
    rewrite Hl in Hr. injection Hr as <-. cbn in *. lia.
Qed.
