(* ===== verification/LogStore.v ===== *)
(** * The Raft log ([crates/kalpak-control/src/log_store.rs])

    [LogStore] keeps the log in memory and, when opened on a directory, as one
    JSON line per entry in an append-only file beside a small metadata file.
    The properties say that every operation refines its effect on an abstract
    log that reopening the directory reads back.

    The [BTreeMap] of entries is an association list sorted by index.  Each
    line is written in two steps, the text and the line break, and either can
    stop half way.  A handle kept open across a rename of its file still
    points at the old, now nameless, file: [Unlinked]. *)

From S2P Require Import Prelude Core Metadata Durability Codecs.
From Stdlib Require Import Strings.Byte.

(** ** [BTreeMap<u64, _>] *)
Abbreviation btree V := (list (Z * V)).

Fixpoint bt_insert {V} (k : Z) (v : V) (l : btree V) : btree V :=
  match l with
  | [] => [(k, v)]
  | (k', v') :: l' =>
      if k <? k' then (k, v) :: l
      else if k =? k' then (k, v) :: l'
      else (k', v') :: bt_insert k v l'
  end.
Definition bt_retain {V} (p : Z → bool) (l : btree V) : btree V := filter (λ kv, p kv.1 = true) l.

Definition key_lt {V} (a b : Z * V) : Prop := a.1 < b.1.
Definition bt_sorted {V} (l : btree V) : Prop := StronglySorted key_lt l.

Lemma bt_insert_keys {V} k (v : V) l x : x ∈ bt_insert k v l → x = (k, v) ∨ x ∈ l.
Proof.
  induction l as [|[k' v'] l IH]; cbn; [set_solver|].
  destruct (k <? k'); [set_solver|]. destruct (k =? k'); set_solver.
Qed.

Lemma bt_insert_sorted {V} k (v : V) l : bt_sorted l → bt_sorted (bt_insert k v l).
Proof.
  unfold bt_sorted. induction l as [|[k' v'] l IH]; cbn; intros Hs.
  - repeat constructor.
  - apply StronglySorted_inv in Hs as [Hs Hf].
    destruct (Z.ltb_spec k k'); [|destruct (Z.eqb_spec k k') as [->|]].
    + constructor; [by constructor|]. constructor; [done|].
      eapply Forall_impl; [done|]. unfold key_lt. cbn. intros. lia.
    + by constructor.
    + constructor; [by apply IH|]. apply Forall_forall. intros x [->|Hx]%bt_insert_keys.
      * unfold key_lt. cbn. lia.
      * rewrite Forall_forall in Hf. by apply Hf.
Qed.

Lemma bt_insert_last {V} k (v : V) l :
  Forall (λ x, x.1 < k) l → bt_insert k v l = l ++ [(k, v)].
Proof.
  induction l as [|[k' v'] l IH]; cbn; intros Hf; [done|]. apply Forall_cons in Hf as [Hk Hf]. cbn in Hk.
  destruct (Z.ltb_spec k k'); [lia|]. destruct (Z.eqb_spec k k'); [lia|]. by rewrite IH.
Qed.

Lemma bt_filter_sorted {V} (P : Z * V → Prop) `{∀ x, Decision (P x)} (l : btree V) :
  bt_sorted l → bt_sorted (filter P l).
Proof.
  unfold bt_sorted. induction l as [|x l IH]; intros Hs; [done|].
  apply StronglySorted_inv in Hs as [Hs Hf]. rewrite filter_cons. case_decide; [|by apply IH].
  constructor; [by apply IH|]. rewrite Forall_forall in *. intros y [_ Hy]%list_elem_of_filter. auto.
Qed.
Lemma bt_retain_sorted {V} p (l : btree V) : bt_sorted l → bt_sorted (bt_retain p l).
Proof. apply bt_filter_sorted. Qed.

(** ** Data *)
Record Vote := MkVote { vote_term : Z; vote_node : NodeId; vote_committed : bool }.
Record Meta := MkLogMeta {
  m_vote : option Vote;
  m_last_purged : option LogId;
  m_committed : option LogId }.
Definition default_meta : Meta := MkLogMeta None None None.

Inductive handle := Linked | Unlinked.
Record Inner := MkInner {
  il_log : btree Entry;
  il_last_purged : option LogId;
  il_vote : option Vote;
  il_committed : option LogId;
  il_file : option handle;
  il_dir : bool }.
Definition in_memory : Inner := MkInner [] None None None None false.

Definition set_log l (i : Inner) : Inner :=
  MkInner l (il_last_purged i) (il_vote i) (il_committed i) (il_file i) (il_dir i).
Definition set_purged p (i : Inner) : Inner :=
  MkInner (il_log i) p (il_vote i) (il_committed i) (il_file i) (il_dir i).
Definition set_vote v (i : Inner) : Inner :=
  MkInner (il_log i) (il_last_purged i) v (il_committed i) (il_file i) (il_dir i).
Definition set_committed c (i : Inner) : Inner :=
  MkInner (il_log i) (il_last_purged i) (il_vote i) c (il_file i) (il_dir i).
Definition set_file f (i : Inner) : Inner :=
  MkInner (il_log i) (il_last_purged i) (il_vote i) (il_committed i) f (il_dir i).

(** The serializers.  An entry's JSON text has no line break, and parsing
    ignores the one after it. *)
Class LogJson := {
  json_of_entry : Entry → bytes + string;
  entry_of_json : bytes → Entry + string;
  json_of_meta : Meta → bytes + string;
  meta_of_json : bytes → Meta + string }.
Class LogJsonLaws `{LogJson} := {
  entry_json_roundtrip : ∀ e, ∃ l, json_of_entry e = inl l ∧ x0a ∉ l ∧ entry_of_json (l ++ [x0a]) = inl e;
  meta_json_roundtrip : ∀ m, ∃ l, json_of_meta m = inl l ∧ meta_of_json l = inl m }.

Definition LOG_FILE : string := "raft-log.jsonl".
Definition LOG_TMP : string := "raft-log.jsonl.tmp".
Definition META_FILE : string := "raft-meta.json".
Definition META_PENDING : string := "raft-meta.pending".

(** ** Operations *)
Abbreviation LS := (ST (Inner * Dir) StorageError).

(** [.map_err(io_err)?] on a file operation. *)
Definition io_err {A} (m : FS A) : LS A := λ '(i, d),
  let (d, r) := m d in ((i, d), map_err WriteLogs r).
Definition ser_err {A} (r : A + string) : LS A := λ s,
  (s, match r with inl a => Ok a | inr message => Err (WriteLogs (io_other message)) end).

(** Writing and syncing through the append handle. *)
Definition file_write (f : handle) (l : bytes) : FS () :=
  match f with Linked => fs_write LOG_FILE l | Unlinked => dir_op (λ m, (m, Ok ())) unchanged end.
Definition file_sync (f : handle) : FS () := fs_sync LOG_FILE.

(** [slice::split_inclusive(|b| b == '\n')]. *)
Fixpoint split_inclusive_from (cur : bytes) (l : bytes) : list bytes :=
  match l with
  | [] => match cur with [] => [] | _ => [rev cur] end
  | b :: l =>
      if bool_decide (b = x0a) then rev (b :: cur) :: split_inclusive_from [] l
      else split_inclusive_from (b :: cur) l
  end.
Definition split_inclusive (l : bytes) : list bytes := split_inclusive_from [] l.
Definition ends_with_newline (l : bytes) : bool := bool_decide (last l = Some x0a).

Definition entry_index (e : Entry) : Z := log_index (entry_log_id e).

Section LogStore.
Context `{LogJson}.

Definition persist_meta : LS () := λ '(i, d),
  if il_dir i then
    (ser_err (json_of_meta (MkLogMeta (il_vote i) (il_last_purged i) (il_committed i))) ≫= λ l,
     io_err (replace META_FILE META_PENDING l)) (i, d)
  else ((i, d), Ok ()).

Fixpoint write_entries (name : string) (es : list Entry) : LS () :=
  match es with
  | [] => mret ()
  | e :: es =>
      ser_err (json_of_entry e) ≫= λ l,
      io_err (fs_write name l) ≫= λ _,
      io_err (fs_write name [x0a]) ≫= λ _,
      write_entries name es
  end.

(** After the rename the old handle's file has no name. *)
Definition rewrite_log : LS () := λ '(i, d),
  if il_dir i then
    (io_err (fs_create LOG_TMP) ≫= λ _,
     write_entries LOG_TMP (il_log i).*2 ≫= λ _,
     io_err (fs_sync LOG_TMP) ≫= λ _,
     io_err (fs_rename LOG_TMP LOG_FILE) ≫= λ _,
     st_modify (λ '(i, d), (set_file ((λ _, Unlinked) <$> il_file i) i, d)) ≫= λ _,
     io_err sync_directory ≫= λ _,
     io_err (fs_open_append false LOG_FILE) ≫= λ _,
     st_modify (λ '(i, d), (set_file (Some Linked) i, d))) (i, d)
  else ((i, d), Ok ()).

Definition append_durable (e : Entry) : LS () := λ '(i, d),
  match il_file i with
  | Some f =>
      (ser_err (json_of_entry e) ≫= λ l,
       io_err (file_write f l) ≫= λ _, io_err (file_write f [x0a])) (i, d)
  | None => ((i, d), Ok ())
  end.

Definition sync_log : LS () := λ '(i, d),
  match il_file i with
  | Some f => io_err (file_sync f) (i, d)
  | None => ((i, d), Ok ())
  end.

(** The replay loop of [open]: stop at an unterminated tail, fail on a
    complete line that does not parse. *)
Fixpoint replay (pieces : list bytes) (log : btree Entry) (valid_len : Z)
    : res StorageError (btree Entry * Z) :=
  match pieces with
  | [] => Ok (log, valid_len)
  | line :: pieces =>
      if negb (ends_with_newline line) then Ok (log, valid_len)
      else
        match entry_of_json line with
        | inr message => Err (WriteLogs (io_other message))
        | inl e => replay pieces (bt_insert (entry_index e) e log) (valid_len + zlen line)
        end
  end.

Abbreviation LogFS := (ST Dir StorageError).
Definition log_io {A} (m : FS A) : LogFS A := λ d, let (d, r) := m d in (d, map_err WriteLogs r).

Definition read_meta : LogFS Meta := λ d,
  match fs_read META_FILE d with
  | (d, Ok l) => (d, match meta_of_json l with
                     | inl m => Ok m
                     | inr message => Err (WriteLogs (io_other message))
                     end)
  | (d, Err e) => (d, match io_kind_of e with KNotFound => Ok default_meta | _ => Err (WriteLogs e) end)
  | (d, Panic) => (d, Panic)
  end.
Definition read_log : LogFS (btree Entry * Z) := λ d,
  match fs_read LOG_FILE d with
  | (d, Ok content) => (d, replay (split_inclusive content) [] 0)
  | (d, Err e) => (d, match io_kind_of e with KNotFound => Ok ([], 0) | _ => Err (WriteLogs e) end)
  | (d, Panic) => (d, Panic)
  end.

(** [LogStore::open]. *)
Definition log_open : LogFS Inner :=
  log_io fs_create_dir ≫= λ _,
  read_meta ≫= λ meta,
  read_log ≫= λ '(log, valid_len),
  log_io (fs_open_append true LOG_FILE) ≫= λ _,
  log_io (fs_set_len LOG_FILE valid_len) ≫= λ _,
  log_io (fs_sync LOG_FILE) ≫= λ _,
  log_io sync_directory ≫= λ _,
  mret (MkInner log (m_last_purged meta) (m_vote meta) (m_committed meta) (Some Linked) true).

(** ** [RaftLogReader] and [RaftLogStorage] *)
Definition try_get_log_entries (lo hi : Z) (i : Inner) : list Entry :=
  (filter (λ kv, lo ≤ kv.1 ∧ kv.1 < hi) (il_log i)).*2.
Definition get_log_state (i : Inner) : option LogId * option LogId :=
  (il_last_purged i,
   match last (il_log i) with Some (_, e) => Some (entry_log_id e) | None => il_last_purged i end).

Definition read_vote (i : Inner) : option Vote := il_vote i.
Definition read_committed (i : Inner) : option LogId := il_committed i.

Definition upd (f : Inner → Inner) : LS () := st_modify (λ '(i, d), (f i, d)).

Definition save_vote (v : Vote) : LS () := upd (set_vote (Some v)) ≫= λ _, persist_meta.
Definition save_committed (c : option LogId) : LS () := upd (set_committed c) ≫= λ _, persist_meta.

Fixpoint append_entries (es : list Entry) : LS () :=
  match es with
  | [] => mret ()
  | e :: es =>
      append_durable e ≫= λ _,
      upd (λ i, set_log (bt_insert (entry_index e) e (il_log i)) i) ≫= λ _,
      append_entries es
  end.
(** [append]: success is what [log_io_completed(Ok(()))] reports. *)
Definition log_append (es : list Entry) : LS () := append_entries es ≫= λ _, sync_log.

Definition log_truncate (id : LogId) : LS () :=
  upd (λ i, set_log (bt_retain (λ idx, idx <? log_index id) (il_log i)) i) ≫= λ _, rewrite_log.
Definition log_purge (id : LogId) : LS () :=
  upd (set_purged (Some id)) ≫= λ _,
  upd (λ i, set_log (bt_retain (λ idx, log_index id <? idx) (il_log i)) i) ≫= λ _,
  persist_meta ≫= λ _, rewrite_log.

(** ** The text of a log *)
Definition entry_text (e : Entry) : bytes :=
  match json_of_entry e with inl l => l | inr _ => [] end.
Definition lines (es : list Entry) : bytes := concat ((λ e, entry_text e ++ [x0a]) <$> es).
Definition ins (log : btree Entry) (e : Entry) : btree Entry := bt_insert (entry_index e) e log.

Lemma lines_app es es' : lines (es ++ es') = lines es ++ lines es'.
Proof. unfold lines. by rewrite fmap_app, concat_app. Qed.
Lemma lines_cons e es : lines (e :: es) = entry_text e ++ x0a :: lines es.
Proof. unfold lines. cbn. by rewrite <-app_assoc. Qed.

Lemma split_from_line cur t l :
  x0a ∉ t →
  split_inclusive_from cur (t ++ x0a :: l) = (rev cur ++ t ++ [x0a]) :: split_inclusive l.
Proof.
  revert cur. induction t as [|b t IH]; intros cur Ht; cbn.
  - by rewrite bool_decide_eq_true_2.
  - rewrite bool_decide_eq_false_2 by set_solver. rewrite IH by set_solver. cbn.
    by rewrite <-app_assoc.
Qed.
Lemma split_line t l : x0a ∉ t → split_inclusive (t ++ x0a :: l) = (t ++ [x0a]) :: split_inclusive l.
Proof. intros. unfold split_inclusive at 1. by rewrite split_from_line. Qed.

Lemma split_from_torn cur t :
  x0a ∉ t → split_inclusive_from cur t = [] ∨ split_inclusive_from cur t = [rev cur ++ t].
Proof.
  revert cur. induction t as [|b t IH]; intros cur Ht; cbn.
  - rewrite app_nil_r. destruct cur; auto.
  - rewrite bool_decide_eq_false_2 by set_solver.
    destruct (IH (b :: cur)) as [->| ->]; [set_solver|auto|right; cbn; by rewrite <-app_assoc].
Qed.
Lemma torn_not_terminated t : x0a ∉ t → ends_with_newline t = false.
Proof.
  intros Ht. apply bool_decide_eq_false. intros E. apply Ht. by apply last_Some_elem_of.
Qed.

Context `{!LogJsonLaws}.

Lemma entry_text_spec e :
  json_of_entry e = inl (entry_text e) ∧ x0a ∉ entry_text e ∧
  entry_of_json (entry_text e ++ [x0a]) = inl e.
Proof.
  destruct (entry_json_roundtrip e) as (l & E & Hn & Hd). unfold entry_text. by rewrite E.
Qed.

Lemma replay_lines es torn log n :
  x0a ∉ torn →
  replay (split_inclusive (lines es ++ torn)) log n = Ok (foldl ins log es, n + zlen (lines es)).
Proof.
  intros Ht. revert log n. induction es as [|e es IH]; intros log n.
  - cbn. rewrite Z.add_0_r. destruct (split_from_torn [] torn Ht) as [E|E];
      unfold split_inclusive; rewrite E; cbn; [done|]. by rewrite torn_not_terminated.
  - destruct (entry_text_spec e) as (_ & Hn & Hd).
    rewrite lines_cons, <-app_assoc. cbn [app]. rewrite split_line by done. cbn [replay].
    assert (ends_with_newline (entry_text e ++ [x0a]) = true) as ->.
    { apply bool_decide_eq_true. by rewrite last_snoc. }
    cbn [negb]. rewrite Hd, IH. cbn [foldl]. do 2 f_equal.
    change (x0a :: lines es) with ([x0a] ++ lines es). zl.
Qed.

(** A prefix of lines is some whole lines and an unterminated rest. *)
Lemma take_lines k es : ∃ j torn, take k (lines es) = lines (take j es) ++ torn ∧ x0a ∉ torn.
Proof.
  revert k. induction es as [|e es IH]; intros k.
  - exists 0%nat, []. cbn. rewrite take_nil. split; [done|]. set_solver.
  - destruct (entry_text_spec e) as (_ & Hn & _). rewrite lines_cons.
    destruct (decide (k ≤ length (entry_text e))%nat) as [Hk|Hk].
    + exists 0%nat, (take k (entry_text e)). rewrite take_app_le by done. split; [done|].
      intros Hin. apply Hn. eapply elem_of_submseteq; [done|]. apply sublist_submseteq, sublist_take.
    + destruct (IH (k - length (entry_text e) - 1)%nat) as (j & torn & E & Ht).
      exists (S j), torn. split; [|done]. cbn [take]. rewrite lines_cons, <-app_assoc. cbn [app].
      rewrite <-E. rewrite take_app_ge by lia. f_equal.
      destruct (k - length (entry_text e))%nat eqn:Ek; [lia|]. cbn. by rewrite Nat.sub_0_r.
Qed.

End LogStore.
