(* ===== verification/LogTheorems.v ===== *)
(** * The Raft log is durable

    Every operation of [LogStore], under any sequence of file faults, has its
    effect on an abstract log, and reopening the directory reads that log
    back.  After a failure the reopened log is one the interrupted operation
    may leave: the old one, the new one, or the old one with the first of the
    entries that were being appended. *)

From S2P Require Import Prelude Core Metadata Durability Codecs LogStore.
From Stdlib Require Import Strings.Byte.

Section LogProofs.
Context `{LogJsonLaws}.

(** ** What the directory holds *)
Definition meta_is (o : option bytes) (meta : Meta) : Prop :=
  match o with None => meta = default_meta | Some l => meta_of_json l = inl meta end.
Record stored (m : gmap string bytes) (es : list Entry) (torn : bytes) (meta : Meta) : Prop := {
  st_log : default [] (m !! LOG_FILE) = lines es ++ torn;
  st_torn : x0a ∉ torn;
  st_meta : meta_is (m !! META_FILE) meta }.

Definition meta_of (i : Inner) : Meta := MkLogMeta (il_vote i) (il_last_purged i) (il_committed i).
Definition opened (es : list Entry) (meta : Meta) : Inner :=
  MkInner (foldl ins [] es) (m_last_purged meta) (m_vote meta) (m_committed meta) (Some Linked) true.

(** Memory and directory agree, and the log ends with a line break. *)
Definition synced (i : Inner) (d : Dir) : Prop :=
  ∃ es, stored (dir_files d) es [] (meta_of i) ∧ i = opened es (meta_of i).

Lemma stored_frame m m' es torn meta :
  stored m es torn meta → m' !! LOG_FILE = m !! LOG_FILE → m' !! META_FILE = m !! META_FILE →
  stored m' es torn meta.
Proof. intros [] E1 E2. constructor; [by rewrite E1|done|by rewrite E2]. Qed.

Lemma opened_synced es meta d : stored (dir_files d) es [] meta → synced (opened es meta) d.
Proof. intros Hs. exists es. by destruct meta. Qed.

(** ** Opening *)
Lemma read_meta_stored m es torn meta :
  stored m es torn meta → read_meta (MkDir m []) = (MkDir m [], Ok meta).
Proof.
  intros [_ _ Hm]. unfold read_meta. rewrite fs_read_ok by done. cbn [dir_files].
  destruct (m !! META_FILE); cbn in *; [by rewrite Hm|by subst].
Qed.
Lemma read_log_stored m es torn meta :
  stored m es torn meta →
  read_log (MkDir m []) = (MkDir m [], Ok (foldl ins [] es, zlen (lines es))).
Proof.
  intros [Hl Ht _]. unfold read_log. rewrite fs_read_ok by done. cbn [dir_files].
  pose proof (replay_lines es torn [] 0 Ht) as Hr. rewrite <-Hl, Z.add_0_l in Hr.
  destruct (m !! LOG_FILE) as [c|]; cbn [default id] in *; [by rewrite Hr|].
  cbn in Hr. by injection Hr as <- <-.
Qed.

Lemma log_open_stored m es torn meta :
  stored m es torn meta → ∃ m', log_open (MkDir m []) = (MkDir m' [], Ok (opened es meta)) ∧
    stored m' es [] meta ∧ ∀ n, n ≠ LOG_FILE → m' !! n = m !! n.
Proof.
  intros Hs. pose proof Hs as [Hl Ht Hm].
  exists (<[LOG_FILE := lines es]> m). split_and!; [| |by intros; apply lookup_insert_ne].
  - unfold log_open, mbind, ST_bind. cbn [log_io fs_create_dir dir_op dir_plan dir_files map_err tail].
    rewrite (read_meta_stored _ _ _ _ Hs), (read_log_stored _ _ _ _ Hs).
    unfold log_io, fs_open_append, dir_op. cbn.
    assert (alter (take (Z.to_nat (zlen (lines es)))) LOG_FILE (<[LOG_FILE := lines es ++ torn]> m)
      = <[LOG_FILE := lines es]> m) as Ha.
    { rewrite alter_insert_eq. unfold zlen. by rewrite Nat2Z.id, take_app_length. }
    destruct (m !! LOG_FILE) as [c|] eqn:Ec; cbn in *; subst; cbn.
    + rewrite insert_id in Ha by done. by rewrite Ha.
    + rewrite <-Hl in Ha. by rewrite Ha.
  - constructor.
    + by rewrite lookup_insert_eq, app_nil_r.
    + set_solver.
    + by rewrite lookup_insert_ne.
Qed.

Lemma log_open_synced i d : synced i d → (log_open (reopened d)).2 = Ok i.
Proof.
  intros (es & Hs & Hi). destruct (log_open_stored _ _ _ _ Hs) as (m & E & _ & _).
  unfold reopened. rewrite E. cbn. by rewrite <-Hi.
Qed.

(** ** File operations *)
Lemma io_err_cases {A} (ok : gmap string bytes → gmap string bytes * res io_error A) failed i d :
  (∃ k, io_err (dir_op ok failed) (i, d) =
     ((i, MkDir (failed k (dir_files d)) (tail (dir_plan d))), Err (WriteLogs dir_fault)) ∧
     dir_plan d ≠ []) ∨
  io_err (dir_op ok failed) (i, d) =
    ((i, MkDir (ok (dir_files d)).1 (tail (dir_plan d))), map_err WriteLogs (ok (dir_files d)).2).
Proof.
  unfold io_err. destruct (dir_op_cases ok failed d) as [(k & -> & ?)| ->]; eauto.
Qed.

Ltac ls_case :=
  match goal with |- context [io_err (dir_op ?o ?f) (?i, ?d1)] =>
    let k := fresh "k" in let Hp := fresh "Hp" in
    destruct (io_err_cases o f i d1) as [(k & -> & Hp)| ->] end;
  cbn [fst snd map_err dir_files dir_plan unchanged] in *.

(** A device that answers keeps answering. *)
Definition lquiet {A} (m : ST (Inner * Dir) StorageError A) : Prop :=
  ∀ i d, dir_plan d = [] → dir_plan (m (i, d)).1.2 = [].
Lemma lquiet_io {A} (m : ST Dir io_error A) : quiet m → lquiet (io_err m).
Proof. intros Hm i d E. unfold io_err. specialize (Hm d E). by destruct (m d). Qed.
Lemma lquiet_bind {A B} (m : ST (Inner * Dir) StorageError A) (f : A → ST (Inner * Dir) StorageError B) :
  lquiet m → (∀ a, lquiet (f a)) → lquiet (m ≫= f).
Proof.
  intros Hm Hf i d E. unfold mbind, ST_bind. specialize (Hm i d E).
  destruct (m (i, d)) as [[i' d'] [a|e|]]; cbn in *; [by apply Hf|done..].
Qed.
Lemma lquiet_ser {A} (r : A + string) : lquiet (ser_err r).
Proof. by intros i d. Qed.
Lemma lquiet_upd f : lquiet (upd f).
Proof. by intros i d. Qed.
Hint Resolve lquiet_io lquiet_bind lquiet_ser lquiet_upd quiet_replace : kalpak.

Lemma lquiet_append_durable e : lquiet (append_durable e).
Proof.
  intros i d E. unfold append_durable. destruct (il_file i) as [f|]; [|done].
  apply lquiet_bind; [apply lquiet_ser| |done]. intros l.
  assert (∀ l, quiet (file_write f l)) by (intros; unfold file_write; destruct f; apply quiet_dir_op).
  apply lquiet_bind; intros; by apply lquiet_io.
Qed.
Lemma lquiet_append_entries es : lquiet (append_entries es).
Proof.
  induction es as [|e es IH]; [by intros i d|]. cbn.
  apply lquiet_bind; [apply lquiet_append_durable|]. intros _.
  apply lquiet_bind; [apply lquiet_upd|done].
Qed.
Lemma lquiet_write_entries name es : lquiet (write_entries name es).
Proof.
  induction es as [|e es IH]; [by intros i d|]. cbn.
  apply lquiet_bind; [apply lquiet_ser|]. intros l.
  do 2 (apply lquiet_bind; [apply lquiet_io, quiet_dir_op|]; intros _). done.
Qed.
Lemma lquiet_persist_meta : lquiet persist_meta.
Proof.
  intros i d E. unfold persist_meta. destruct (il_dir i); [|done].
  apply lquiet_bind; [apply lquiet_ser| |done]. intros l. apply lquiet_io, quiet_replace.
Qed.

(** Files the log does not own are left alone. *)
Definition lkeeps (name : string) {A} (m : ST (Inner * Dir) StorageError A) : Prop :=
  ∀ i d, dir_files (m (i, d)).1.2 !! name = dir_files d !! name.
Lemma lkeeps_io name {A} (m : ST Dir io_error A) : keeps name m → lkeeps name (io_err m).
Proof. intros Hm i d. unfold io_err. specialize (Hm d). by destruct (m d). Qed.
Lemma lkeeps_bind name {A B} (m : ST (Inner * Dir) StorageError A) (f : A → ST (Inner * Dir) StorageError B) :
  lkeeps name m → (∀ a, lkeeps name (f a)) → lkeeps name (m ≫= f).
Proof.
  intros Hm Hf i d. unfold mbind, ST_bind. specialize (Hm i d).
  destruct (m (i, d)) as [[i' d'] [a|e|]]; cbn in *; [by rewrite Hf|done..].
Qed.
Definition foreign (name : string) : Prop :=
  LOG_FILE ≠ name ∧ LOG_TMP ≠ name ∧ META_FILE ≠ name ∧ META_PENDING ≠ name.

Lemma lkeeps_persist_meta name : foreign name → lkeeps name persist_meta.
Proof.
  intros (? & ? & ? & ?) i d. unfold persist_meta. destruct (il_dir i); [|done].
  apply lkeeps_bind; [by intros ? ?|]. intros l. by apply lkeeps_io, keeps_replace.
Qed.
Lemma lkeeps_write_entries name n es : n ≠ name → lkeeps name (write_entries n es).
Proof.
  intros. induction es as [|e es IH]; [by intros i d|]. cbn. apply lkeeps_bind; [by intros ? ?|]. intros l.
  do 2 (apply lkeeps_bind; [by apply lkeeps_io, keeps_write|]; intros _). done.
Qed.
Lemma lkeeps_rewrite_log name : foreign name → lkeeps name rewrite_log.
Proof.
  intros (? & ? & ? & ?) i d. unfold rewrite_log. destruct (il_dir i); [|done].
  apply lkeeps_bind; [by apply lkeeps_io, keeps_create|intros _].
  apply lkeeps_bind; [by apply lkeeps_write_entries|intros _].
  apply lkeeps_bind; [by apply lkeeps_io, keeps_sync|intros _].
  apply lkeeps_bind; [by apply lkeeps_io, keeps_rename|intros _].
  apply lkeeps_bind; [by intros ? ?|intros _].
  apply lkeeps_bind; [by apply lkeeps_io, keeps_sync_directory|intros _].
  apply lkeeps_bind; [apply lkeeps_io, keeps_dir_op; [|done]|by intros _ ? ?].
  intros m. by destruct (m !! LOG_FILE).
Qed.
Lemma lkeeps_append name es : foreign name → lkeeps name (log_append es).
Proof.
  intros (? & ? & ? & ?). assert (∀ f l, keeps name (file_write f l)) as Hw.
  { intros [] l; [by apply keeps_write|by apply keeps_dir_op]. }
  apply lkeeps_bind.
  - induction es as [|e es IH]; [by intros i d|]. cbn. apply lkeeps_bind; [|intros _].
    + intros i d. unfold append_durable. destruct (il_file i); [|done].
      apply lkeeps_bind; [by intros ? ?|]. intros l. by apply lkeeps_bind; intros; apply lkeeps_io.
    + apply lkeeps_bind; [by intros ? ?|done].
  - intros _ i d. unfold sync_log. destruct (il_file i); [|done]. apply lkeeps_io, keeps_sync.
Qed.

Lemma persist_meta_spec es torn meta i d :
  il_dir i = true → stored (dir_files d) es torn meta →
  let '(s, r) := persist_meta (i, d) in
  s.1 = i ∧
  ((r = Ok () ∧ stored (dir_files s.2) es torn (meta_of i)) ∨
   (∃ e, r = Err e ∧ dir_plan d ≠ [] ∧
     (stored (dir_files s.2) es torn meta ∨ stored (dir_files s.2) es torn (meta_of i)))).
Proof.
  intros Hd Hs. unfold persist_meta. rewrite Hd.
  destruct (meta_json_roundtrip (meta_of i)) as (l & El & Dl). unfold meta_of in El.
  unfold mbind, ST_bind, ser_err. rewrite El. unfold io_err.
  destruct (replace META_FILE META_PENDING l d) as [d' r] eqn:E. cbn [fst snd map_err].
  assert (∀ v, replaced META_FILE META_PENDING v (dir_files d) (dir_files d') →
    dir_files d' !! LOG_FILE = dir_files d !! LOG_FILE) as Hlog by (intros v [_ Hf]; by apply Hf).
  assert (replaced META_FILE META_PENDING (Some l) (dir_files d) (dir_files d') →
    stored (dir_files d') es torn (meta_of i)) as Hnew.
  { intros Hr. destruct Hs as [Hl Ht _]. constructor; [by rewrite (Hlog _ Hr)|done|].
    destruct Hr as [-> _]. done. }
  split; [done|].
  apply replace_inv in E as [(-> & Hr)|(e & -> & ? & Hr)]; [left; auto| |done].
  right. eexists. split_and!; [done..|]. destruct Hr as [Hr|Hr]; [left|right; auto].
  apply (stored_frame _ _ _ _ _ Hs); [by eapply Hlog|by destruct Hr].
Qed.

(** ** Appending *)
Lemma stored_write m es l meta torn es' torn' :
  stored m es torn meta → torn ++ l = lines es' ++ torn' → x0a ∉ torn' →
  stored (<[LOG_FILE := default [] (m !! LOG_FILE) ++ l]> m) (es ++ es') torn' meta.
Proof.
  intros [Hl _ Hm] E Ht. constructor; [|done|by rewrite lookup_insert_ne].
  rewrite lookup_insert_eq. cbn [default id]. by rewrite Hl, <-app_assoc, E, lines_app, app_assoc.
Qed.

Lemma append_durable_spec e es meta i d :
  il_file i = Some Linked → stored (dir_files d) es [] meta →
  let '(s, r) := append_durable e (i, d) in
  s.1 = i ∧
  ((r = Ok () ∧ stored (dir_files s.2) (es ++ [e]) [] meta) ∨
   (∃ x j torn, r = Err x ∧ dir_plan d ≠ [] ∧ stored (dir_files s.2) (es ++ take j [e]) torn meta)).
Proof.
  intros Hf Hs. unfold append_durable. rewrite Hf.
  destruct (entry_text_spec e) as (El & Hn & _). unfold mbind, ST_bind, ser_err. rewrite El.
  cbn [file_write]. unfold fs_write. assert (lines [e] = entry_text e ++ [x0a]) as Hl by apply lines_cons.
  destruct (io_err_cases (λ m, (<[LOG_FILE := default [] (m !! LOG_FILE) ++ entry_text e]> m, Ok ()))
    (λ k m, <[LOG_FILE := default [] (m !! LOG_FILE) ++ take k (entry_text e)]> m) i d)
    as [(k & -> & Hp)| ->]; cbn [fst snd map_err dir_files dir_plan].
  { split; [done|]. right. eexists _, 0%nat, (take k (entry_text e)). split_and!; [done..|].
    apply (stored_write _ _ _ _ _ _ _ Hs); [done|].
    intros (? & ? & _)%elem_of_take. by eapply Hn, list_elem_of_lookup_2. }
  assert (stored (<[LOG_FILE := default [] (dir_files d !! LOG_FILE) ++ entry_text e]> (dir_files d))
    es (entry_text e) meta) as Hs1.
  { rewrite <-(app_nil_r es). by eapply (stored_write _ _ _ _ _ []). }
  ls_case.
  - split; [done|]. right. destruct k as [|k].
    + eexists _, 0%nat, (entry_text e). split_and!; [done|by apply tail_ne|].
      apply (stored_write _ _ _ _ _ _ _ Hs1); [cbn; by rewrite app_nil_r|done].
    + eexists _, 1%nat, []. split_and!; [done|by apply tail_ne|].
      apply (stored_write _ _ _ _ _ _ _ Hs1); [|set_solver]. cbn [take]. rewrite Hl. by rewrite take_nil, app_nil_r.
  - split; [done|]. left. split; [done|].
    apply (stored_write _ _ _ _ _ _ _ Hs1); [by rewrite Hl, app_nil_r|set_solver].
Qed.

Lemma append_entries_spec es es0 meta i d :
  il_file i = Some Linked → stored (dir_files d) es0 [] meta →
  let '(s, r) := append_entries es (i, d) in
  (r = Ok () ∧ s.1 = set_log (foldl ins (il_log i) es) i ∧ stored (dir_files s.2) (es0 ++ es) [] meta) ∨
  (∃ x j torn, r = Err x ∧ dir_plan d ≠ [] ∧ stored (dir_files s.2) (es0 ++ take j es) torn meta).
Proof.
  revert es0 i d. induction es as [|e es IH]; intros es0 i d Hf Hs; cbn.
  - left. rewrite app_nil_r. split_and!; [done|by destruct i|done].
  - pose proof (append_durable_spec e es0 meta i d Hf Hs) as Hap.
    pose proof (lquiet_append_durable e i d) as Hq.
    unfold mbind at 1, ST_bind at 1. destruct (append_durable e (i, d)) as [[i1 d1] r1].
    cbn [fst snd] in *. destruct Hap as [-> [(-> & Hs1)|(x & j & torn & -> & ? & Hs1)]].
    + unfold mbind, ST_bind. cbn [upd st_modify].
      specialize (IH (es0 ++ [e]) (set_log (ins (il_log i) e) i) d1 Hf Hs1).
      change (bt_insert (entry_index e) e (il_log i)) with (ins (il_log i) e).
      destruct (append_entries es _) as [[i2 d2] r2]. cbn [fst snd] in *.
      destruct IH as [(-> & -> & Hs2)|(x & j & torn & -> & ? & Hs2)].
      * left. rewrite <-app_assoc in Hs2. split_and!; [done|by destruct i|done].
      * right. exists x, (S j), torn. rewrite <-app_assoc in Hs2. split_and!; [done|by auto|done].
    + right. exists x, (min j 1), torn. split_and!; [done..|]. destruct j; cbn in *; [done|].
      by rewrite take_nil in Hs1; rewrite Nat.min_0_r.
Qed.

(** ** Rewriting *)
Definition keyed (log : btree Entry) : Prop := bt_sorted log ∧ Forall (λ kv, kv.1 = entry_index kv.2) log.

Lemma ins_keyed log e : keyed log → keyed (ins log e).
Proof.
  intros [Hs Hk]. split; [by apply bt_insert_sorted|]. rewrite Forall_forall in *.
  by intros x [->|Hx]%bt_insert_keys; [|apply Hk].
Qed.
Lemma replay_keyed es log : keyed log → keyed (foldl ins log es).
Proof. revert log. induction es; cbn; auto using ins_keyed. Qed.
Lemma retain_keyed p log : keyed log → keyed (bt_retain p log).
Proof.
  intros [Hs Hk]. split; [by apply bt_retain_sorted|]. rewrite Forall_forall in *.
  intros x [_ Hx]%list_elem_of_filter. auto.
Qed.

(** A sorted log is rebuilt by replaying its entries in order. *)
Lemma replay_sorted_from acc log :
  keyed (acc ++ log) → foldl ins acc log.*2 = acc ++ log.
Proof.
  revert acc. induction log as [|[k e] log IH]; intros acc [Hs Hk]; cbn; [by rewrite app_nil_r|].
  apply Forall_app in Hk as Hk'. destruct Hk' as [_ [Hke _]%Forall_cons]. cbn in Hke. subst k.
  unfold ins at 2. rewrite bt_insert_last.
  - rewrite IH; rewrite <-app_assoc; done.
  - apply Forall_forall. intros x Hx.
    apply (StronglySorted_app_1_elem_of _ _ _ x (entry_index e, e) Hs Hx). by left.
Qed.
Lemma replay_sorted log : keyed log → foldl ins [] log.*2 = log.
Proof. apply (replay_sorted_from []). Qed.

Lemma write_entries_spec name c es i d :
  dir_files d !! name = Some c →
  let '(s, r) := write_entries name es (i, d) in
  s.1 = i ∧ ∃ c', dir_files s.2 = <[name := c']> (dir_files d) ∧
  ((r = Ok () ∧ c' = c ++ lines es) ∨ ∃ x, r = Err x ∧ dir_plan d ≠ []).
Proof.
  revert c d. induction es as [|e es IH]; intros c d Hc.
  - split; [done|]. exists c. rewrite insert_id by done. cbn. rewrite app_nil_r. auto.
  - destruct (entry_text_spec e) as (El & _ & _).
    cbn. unfold mbind, ST_bind, ser_err. rewrite El. unfold fs_write.
    ls_case.
    { rewrite Hc. eauto 10. }
    ls_case.
    { rewrite Hc, insert_insert_eq. split; [done|]. eexists. split; [done|]. right. eauto using tail_ne. }
    rewrite Hc, lookup_insert_eq, insert_insert_eq. cbn [default id].
    match goal with |- context [write_entries name es (i, ?d1)] =>
      specialize (IH ((c ++ entry_text e) ++ [x0a]) d1); cbn [dir_files] in IH;
      destruct (write_entries name es (i, d1)) as [[i2 d2] r2] end.
    destruct IH as [-> (c' & Hf & Hr)]; [by rewrite lookup_insert_eq|].
    cbn [fst snd dir_plan] in *. split; [done|]. exists c'. rewrite insert_insert_eq in Hf. split; [done|].
    destruct Hr as [[-> ->]|(x & -> & Hp)]; [left|right; eauto using tail_ne].
    split; [done|]. by rewrite <-!app_assoc.
Qed.

Lemma rewrite_log_spec i d es meta :
  il_dir i = true → keyed (il_log i) → stored (dir_files d) es [] meta →
  let '(s, r) := rewrite_log (i, d) in
  (r = Ok () ∧ s.1 = set_file (Some Linked) i ∧ stored (dir_files s.2) (il_log i).*2 [] meta) ∨
  (∃ x, r = Err x ∧ dir_plan d ≠ [] ∧
    (stored (dir_files s.2) es [] meta ∨ stored (dir_files s.2) (il_log i).*2 [] meta)).
Proof.
  intros Hd Hk Hs. unfold rewrite_log. rewrite Hd. unfold mbind, ST_bind, fs_create, fs_sync, fs_rename, sync_directory, fs_open_append.
  ls_case; [right; eauto 10|].
  pose proof (write_entries_spec LOG_TMP [] (il_log i).*2 i
    (MkDir (<[LOG_TMP := []]> (dir_files d)) (tail (dir_plan d)))) as Hw.
  pose proof (lquiet_write_entries LOG_TMP (il_log i).*2 i
    (MkDir (<[LOG_TMP := []]> (dir_files d)) (tail (dir_plan d)))) as Hq.
  destruct (write_entries _ _ _) as [[i2 d2] r2]. cbn [fst snd dir_files dir_plan] in *.
  destruct Hw as [-> (c' & Hf & Hr)]; [by rewrite lookup_insert_eq|].
  rewrite insert_insert_eq in Hf.
  assert (stored (dir_files d2) es [] meta) as Hs2.
  { rewrite Hf. eapply stored_frame; [done|by rewrite lookup_insert_ne..]. }
  destruct Hr as [[-> ->]|(x & -> & Hp)]; [|right; eauto 10 using tail_ne].
  assert (∀ l : list (option nat), (dir_plan d2 = [] → l = []) → l ≠ [] → dir_plan d ≠ []) as Hpl.
  { intros l Hl Hne E. apply Hne, Hl, Hq. by rewrite E. }
  ls_case; [right; eauto 10|].
  ls_case; [right; eexists; split_and!; [done|by eauto using tail_ne|by left]|].
  rewrite Hf, lookup_insert_eq. cbn [fst snd map_err app st_modify].
  assert (stored (<[LOG_FILE := lines (il_log i).*2]> (delete LOG_TMP (<[LOG_TMP := lines (il_log i).*2]> (dir_files d))))
    (il_log i).*2 [] meta) as Hs3.
  { destruct Hs as [_ _ Hm]. constructor; [by rewrite lookup_insert_eq, app_nil_r|set_solver|].
    by rewrite lookup_insert_ne, lookup_delete_ne, lookup_insert_ne. }
  ls_case; [right; eexists; split_and!; [done|by eauto using tail_ne|by right]|].
  ls_case; [right; eexists; split_and!; [done|by eauto 10 using tail_ne|by right]|].
  rewrite lookup_insert_eq. cbn. left. by destruct i.
Qed.

(** ** The abstract log *)
Inductive LogOp :=
| OpVote (v : Vote)
| OpCommitted (c : option LogId)
| OpAppend (es : list Entry)
| OpTruncate (id : LogId)
| OpPurge (id : LogId).

Definition run_log_op (op : LogOp) : ST (Inner * Dir) StorageError () :=
  match op with
  | OpVote v => save_vote v
  | OpCommitted c => save_committed c
  | OpAppend es => log_append es
  | OpTruncate id => log_truncate id
  | OpPurge id => log_purge id
  end.

(** What an operation does to the log. *)
Definition effect (op : LogOp) (i : Inner) : Inner :=
  match op with
  | OpVote v => set_vote (Some v) i
  | OpCommitted c => set_committed c i
  | OpAppend es => set_log (foldl ins (il_log i) es) i
  | OpTruncate id => set_log (bt_retain (λ idx, idx <? log_index id) (il_log i)) i
  | OpPurge id =>
      set_purged (Some id) (set_log (bt_retain (λ idx, log_index id <? idx) (il_log i)) i)
  end.

(** What it may have done when it fails. *)
Definition may_leave (op : LogOp) (i j : Inner) : Prop :=
  match op with
  | OpAppend es => ∃ k, j = effect (OpAppend (take k es)) i
  | OpPurge id => j = i ∨ j = set_purged (Some id) i ∨ j = effect op i
  | _ => j = i ∨ j = effect op i
  end.

Definition outcome (op : LogOp) (i : Inner) (d : Dir) (o : Inner * Dir * res StorageError ()) : Prop :=
  match o with
  | (i', d', Ok _) => i' = effect op i ∧ synced i' d'
  | (i', d', Err _) =>
      dir_plan d ≠ [] ∧
      ∃ es torn meta, stored (dir_files d') es torn meta ∧ may_leave op i (opened es meta)
  | (_, _, Panic) => False
  end.

Lemma synced_parts i d : synced i d → ∃ es, stored (dir_files d) es [] (meta_of i) ∧
  i = opened es (meta_of i) ∧ il_log i = foldl ins [] es ∧ keyed (il_log i) ∧
  il_file i = Some Linked ∧ il_dir i = true.
Proof.
  intros (es & Hs & Hi). exists es. rewrite Hi. cbn. split_and!; try done.
  apply replay_keyed. split; [constructor|constructor].
Qed.

Lemma append_outcome es i d : synced i d → outcome (OpAppend es) i d (log_append es (i, d)).
Proof.
  intros (es0 & Hs & Hi & Hl & _ & Hf & Hd)%synced_parts. unfold log_append, mbind, ST_bind.
  pose proof (append_entries_spec es es0 (meta_of i) i d Hf Hs) as Ha.
  pose proof (lquiet_append_entries es i d) as Hq.
  destruct (append_entries es (i, d)) as [[i1 d1] r1]. cbn [fst snd] in *.
  assert (∀ k, opened (es0 ++ take k es) (meta_of i) = effect (OpAppend (take k es)) i) as Hop.
  { intros k. rewrite Hi. unfold opened, effect. by rewrite foldl_app. }
  destruct Ha as [(-> & -> & Hs1)|(x & j & torn & -> & Hp & Hs1)].
  - unfold sync_log. cbn [il_file set_log]. rewrite Hf. unfold file_sync, fs_sync.
    ls_case; cbn [outcome may_leave].
    + split; [auto|]. exists (es0 ++ es), [], (meta_of i). split; [done|].
      exists (length es). rewrite <-Hop. by rewrite firstn_all.
    + split; [done|]. exists (es0 ++ es). split; [done|].
      specialize (Hop (length es)). rewrite firstn_all in Hop. exact (eq_sym Hop).
  - cbn [outcome may_leave]. split; [done|]. exists (es0 ++ take j es), torn, (meta_of i). split; [done|]. by exists j.
Qed.

Lemma opened_meta i es :
  il_log i = foldl ins [] es → il_file i = Some Linked → il_dir i = true → opened es (meta_of i) = i.
Proof. destruct i; cbn. by intros -> -> ->. Qed.

Lemma meta_outcome op i d :
  synced i d → il_log (effect op i) = il_log i → il_file (effect op i) = il_file i →
  il_dir (effect op i) = il_dir i → (∀ j, j = i ∨ j = effect op i → may_leave op i j) →
  outcome op i d (persist_meta (effect op i, d)).
Proof.
  intros (es & Hs & Hi & Hl & _ & Hf & Hd)%synced_parts El Ef Ed Hm.
  rewrite Hl in El. rewrite Hf in Ef. rewrite Hd in Ed.
  pose proof (opened_meta _ _ El Ef Ed) as Ho.
  pose proof (persist_meta_spec es [] (meta_of i) (effect op i) d Ed Hs) as Hp.
  destruct (persist_meta _) as [[i1 d1] r1]. cbn [fst snd] in Hp.
  destruct Hp as [-> [[-> Hs1]|(x & -> & Hp & Hs1)]]; cbn [outcome].
  - split; [done|]. exists es. by split.
  - split; [done|]. destruct Hs1 as [Hs1|Hs1]; eexists es, [], _; (split; [exact Hs1|]); apply Hm.
    + by left.
    + by right.
Qed.

Lemma truncate_outcome id i d : synced i d → outcome (OpTruncate id) i d (log_truncate id (i, d)).
Proof.
  intros (es & Hs & Hi & Hl & Hk & Hf & Hd)%synced_parts. unfold log_truncate, mbind, ST_bind.
  cbn [upd st_modify]. set (i1 := set_log _ i).
  assert (keyed (il_log i1)) as Hk1 by by apply retain_keyed.
  pose proof (rewrite_log_spec i1 d es (meta_of i) Hd Hk1 Hs) as Hr.
  destruct (rewrite_log (i1, d)) as [[i2 d2] r2]. cbn [fst snd] in Hr.
  assert (opened (il_log i1).*2 (meta_of i) = i1) as Ho.
  { apply (opened_meta i1 (il_log i1).*2); [by rewrite replay_sorted|done..]. }
  destruct Hr as [(-> & -> & Hs1)|(x & -> & Hp & [Hs1|Hs1])]; cbn [outcome may_leave].
  - assert (set_file (Some Linked) i1 = i1) as -> by (unfold i1, set_file, set_log; cbn; by rewrite Hf).
    split; [done|]. exists (il_log i1).*2. by split.
  - split; [done|]. eexists es, [], _. split; [done|]. by left.
  - split; [done|]. eexists _, [], _. split; [done|]. by right.
Qed.

Lemma purge_outcome id i d : synced i d → outcome (OpPurge id) i d (log_purge id (i, d)).
Proof.
  intros (es & Hs & Hi & Hl & Hk & Hf & Hd)%synced_parts. unfold log_purge, mbind, ST_bind.
  cbn [upd st_modify]. set (i1 := set_log _ _).
  pose proof (persist_meta_spec es [] (meta_of i) i1 d Hd Hs) as Hp.
  pose proof (lquiet_persist_meta i1 d) as Hq.
  destruct (persist_meta (i1, d)) as [[i2 d2] r2]. cbn [fst snd] in Hp, Hq.
  assert (opened es (meta_of i1) = set_purged (Some id) i) as Hmid.
  { unfold opened, set_purged. rewrite Hl, Hf, Hd. done. }
  destruct Hp as [-> [[-> Hs1]|(x & -> & Hp & [Hs1|Hs1])]]; cbn [outcome may_leave].
  2: { split; [done|]. eexists es, [], _. split; [done|]. by left. }
  2: { split; [done|]. eexists es, [], _. split; [done|]. right. by left. }
  assert (keyed (il_log i1)) as Hk1 by by apply retain_keyed.
  pose proof (rewrite_log_spec i1 d2 es (meta_of i1) Hd Hk1 Hs1) as Hr.
  destruct (rewrite_log (i1, d2)) as [[i3 d3] r3]. cbn [fst snd] in Hr.
  assert (opened (il_log i1).*2 (meta_of i1) = i1) as Ho.
  { by apply opened_meta; [by rewrite replay_sorted| |]. }
  destruct Hr as [(-> & -> & Hs2)|(x & -> & Hp & [Hs2|Hs2])].
  - assert (set_file (Some Linked) i1 = i1) as -> by (unfold i1, set_file, set_log; cbn; by rewrite Hf).
    split; [by destruct i|]. exists (il_log i1).*2. by split.
  - split; [auto|]. eexists es, [], _. split; [done|]. right. by left.
  - split; [auto|]. eexists _, [], _. split; [done|]. right. right. rewrite Ho. by destruct i.
Qed.

Lemma lkeeps_log_op name op : foreign name → lkeeps name (run_log_op op).
Proof.
  intros Hn. destruct op; cbn [run_log_op].
  - apply lkeeps_bind; [by intros ? ?|]. intros _. by apply lkeeps_persist_meta.
  - apply lkeeps_bind; [by intros ? ?|]. intros _. by apply lkeeps_persist_meta.
  - by apply lkeeps_append.
  - apply lkeeps_bind; [by intros ? ?|]. intros _. by apply lkeeps_rewrite_log.
  - do 2 (apply lkeeps_bind; [by intros ? ?|]; intros _).
    apply lkeeps_bind; [by apply lkeeps_persist_meta|]. intros _. by apply lkeeps_rewrite_log.
Qed.

Lemma log_op_outcome op i d : synced i d → outcome op i d (run_log_op op (i, d)).
Proof.
  intros Hs. destruct op; cbn [run_log_op].
  - unfold save_vote, mbind, ST_bind. cbn [upd st_modify]. by apply (meta_outcome (OpVote v)).
  - unfold save_committed, mbind, ST_bind. cbn [upd st_modify]. by apply (meta_outcome (OpCommitted c)).
  - by apply append_outcome.
  - by apply truncate_outcome.
  - by apply purge_outcome.
Qed.

End LogProofs.

(** ** Properties *)
Section LogTheorems.
Context `{LogJsonLaws}.

(** C28. The Raft log is durable.  From a state where memory and directory
    agree, every operation (vote, committed position, append, truncate,
    purge), under any sequence of file faults, either succeeds, and then has
    exactly its effect on the log and reopening the directory gives that log;
    or fails (only when the device does), and then reopening succeeds and
    gives a log the operation may leave: for an append the old log with the
    first of the new entries, for a truncation the old or the new log, for a
    purge also the old entries with the new purge mark; and the reopened store
    is again in agreement with its directory.  No operation panics. *)
Theorem log_operations_durable op i d i' d' r :
  synced i d → run_log_op op (i, d) = ((i', d'), r) →
  match r with
  | Ok _ => i' = effect op i ∧ synced i' d' ∧ (log_open (reopened d')).2 = Ok i'
  | Err _ =>
      dir_plan d ≠ [] ∧
      ∃ d'' j, log_open (reopened d') = (d'', Ok j) ∧ synced j d'' ∧ may_leave op i j
  | Panic => False
  end.
Proof.
  intros Hs E. pose proof (log_op_outcome op i d Hs) as Ho. rewrite E in Ho.
  destruct r as [[]|e|]; [|destruct Ho as (Hp & es & torn & meta & Hst & Hm)|done].
  - destruct Ho as [-> Ho]. split_and!; [done|done|by apply log_open_synced].
  - split; [done|]. destruct (log_open_stored _ _ _ _ Hst) as (m & Eo & Hst' & _).
    exists (MkDir m []), (opened es meta). split_and!; [done|by apply opened_synced|done].
Qed.
End LogTheorems.

(** ** Examples *)
#[export] Instance Vote_eq_dec : EqDecision Vote.
Proof. solve_decision. Defined.
#[export] Instance Vote_countable : Countable Vote.
Proof. countable_by (λ x, (vote_term x, vote_node x, vote_committed x)) (λ '(a, b, c), MkVote a b c). Defined.
#[export] Instance Meta_eq_dec : EqDecision Meta.
Proof. solve_decision. Defined.
#[export] Instance Meta_countable : Countable Meta.
Proof. countable_by (λ x, (m_vote x, m_last_purged x, m_committed x)) (λ '(a, b, c), MkLogMeta a b c). Defined.

Definition toy_log_json : LogJson := {|
  json_of_entry := λ e, inl (toy_enc e);
  entry_of_json := λ l, match toy_dec (take (length l - 1) l) with Some e => inl e | None => inr "json" end;
  json_of_meta := λ m, inl (toy_enc m);
  meta_of_json := λ l, match toy_dec l with Some m => inl m | None => inr "json" end |}.
Lemma toy_log_json_laws : @LogJsonLaws toy_log_json.
Proof.
  constructor.
  - intros e. exists (toy_enc e). split_and!; [done|apply bits_bytes_no_newline|]. cbn.
    rewrite length_app. cbn. rewrite Nat.add_sub, take_app_length. by rewrite toy_dec_enc.
  - intros m. exists (toy_enc m). split; [done|]. cbn. by rewrite toy_dec_enc.
Qed.

(** An append that stops after three bytes of its text. *)
Definition ex_new_entry : Entry := MkEntry (MkLogId 1 1 1) Blank.
Definition ex_fresh : Inner := opened [] default_meta.
Definition ex_faulty : Dir := MkDir ∅ [Some 3%nat].
Definition ex_append : Inner * Dir * res StorageError () :=
  @run_log_op toy_log_json (OpAppend [ex_new_entry]) (ex_fresh, ex_faulty).

Lemma ex_fresh_synced : @synced toy_log_json ex_fresh ex_faulty.
Proof. exists []. split; [|reflexivity]. constructor; [reflexivity|set_solver|reflexivity]. Qed.

Lemma log_operations_durable_witness :
  @synced toy_log_json ex_fresh ex_faulty ∧ ex_append.2 = Err (WriteLogs dir_fault) ∧
  ∃ d'' j, @log_open toy_log_json (reopened ex_append.1.2) = (d'', Ok j) ∧
    may_leave (OpAppend [ex_new_entry]) ex_fresh j.
Proof.
  split; [exact ex_fresh_synced|]. split; [reflexivity|].
  pose proof (@log_operations_durable toy_log_json toy_log_json_laws (OpAppend [ex_new_entry])
    ex_fresh ex_faulty ex_append.1.1 ex_append.1.2 (Err (WriteLogs dir_fault)) ex_fresh_synced eq_refl)
    as (_ & d & j & E & _ & Hm).
  exists d, j. split; [exact E|exact Hm].
Defined.
