(* ===== verification/Recovery.v ===== *)
(** * Restarting a control-plane node
      ([crates/kalpak-control/src/lib.rs], the storage part of
      [start_node_with_mesh], over [LogStore] and [Snapshot])

    A node keeps its log and its snapshot in one directory.  The model runs
    the storage operations [openraft] calls, in any order its contract
    allows, each under any file faults, and restarts the node after any of
    them.  What [openraft] promises is [raft_allows]: applied entries are
    never rewritten, and only entries covered by the returned snapshot are
    purged. *)

From S2P Require Import Prelude Core Metadata Leases StateMachine StateInvariant Lifecycle ControlPlane Durability Codecs Snapshot LogStore LogTheorems.

(** ** Ranges of a log *)
Definition rng (lo hi : Z) (log : btree Entry) : btree Entry :=
  filter (λ kv, lo ≤ kv.1 ∧ kv.1 < hi) log.

Lemma filter_ext_in {A} (P Q : A → Prop) `{∀ x, Decision (P x), ∀ x, Decision (Q x)} (l : list A) :
  (∀ x, x ∈ l → P x ↔ Q x) → filter P l = filter Q l.
Proof.
  induction l as [|x l IH]; intros HPQ; [done|]. rewrite !filter_cons, IH by set_solver.
  destruct (HPQ x); [by left|]. repeat case_decide; naive_solver.
Qed.
Lemma filter_none {A} (P : A → Prop) `{∀ x, Decision (P x)} (l : list A) :
  (∀ x, x ∈ l → ¬ P x) → filter P l = [].
Proof.
  induction l as [|x l IH]; intros HP; [done|].
  rewrite filter_cons_False, IH; [done|set_solver|apply HP; by left].
Qed.

Lemma rng_insert lo hi k e log : hi ≤ k → rng lo hi (bt_insert k e log) = rng lo hi log.
Proof.
  intros Hk. unfold rng. induction log as [|[k' v'] log IH]; cbn [bt_insert].
  - rewrite filter_cons_False; [done|cbn; lia].
  - destruct (Z.ltb_spec k k'); [by rewrite filter_cons_False by (cbn; lia)|].
    destruct (Z.eqb_spec k k') as [->|]; [by rewrite !filter_cons_False by (cbn; lia)|].
    rewrite !filter_cons. by rewrite IH.
Qed.

Lemma rng_retain lo hi p log :
  (∀ k, lo ≤ k < hi → p k = true) → rng lo hi (bt_retain p log) = rng lo hi log.
Proof.
  intros Hp. unfold rng, bt_retain. rewrite list_filter_filter. apply filter_ext_in. naive_solver.
Qed.

Lemma rng_empty lo log : rng lo lo log = [].
Proof. unfold rng. apply filter_none. intros x _. lia. Qed.

Lemma rng_split lo mid hi log :
  bt_sorted log → lo ≤ mid ≤ hi → rng lo hi log = rng lo mid log ++ rng mid hi log.
Proof.
  intros Hs Hm. unfold rng. induction log as [|[k e] log IH]; [done|].
  apply StronglySorted_inv in Hs as [Hs Hf]. specialize (IH Hs). rewrite !filter_cons. cbn.
  repeat case_decide; try lia; try by rewrite IH.
  rewrite IH. rewrite (filter_none (λ kv, lo ≤ kv.1 ∧ kv.1 < mid) log); [done|].
  intros x Hx. rewrite Forall_forall in Hf. specialize (Hf _ Hx). unfold key_lt in Hf. cbn in Hf. lia.
Qed.

(** The range up to just after its own last entry. *)
Lemma sorted_last {V} (l : btree V) x y : bt_sorted l → last l = Some x → y ∈ l → y.1 ≤ x.1.
Proof.
  intros Hs Hl Hy. apply last_Some in Hl as [l' ->]. apply elem_of_app in Hy as [Hy|Hy].
  - apply (StronglySorted_app_1_elem_of _ _ _ y x Hs) in Hy; [unfold key_lt in Hy; lia|by left].
  - apply list_elem_of_singleton in Hy as ->. lia.
Qed.
Lemma rng_last mid hi log x :
  bt_sorted log → last (rng mid hi log) = Some x → rng mid (x.1 + 1) log = rng mid hi log.
Proof.
  intros Hs Hx. apply filter_ext_in. intros y Hy.
  assert (x ∈ rng mid hi log) as [[? ?] _]%list_elem_of_filter by by apply last_Some_elem_of.
  split; [lia|]. intros Hb. split; [lia|]. apply Z.lt_succ_r.
  eapply sorted_last; [|exact Hx|by apply list_elem_of_filter].
  by apply bt_filter_sorted.
Qed.

(** ** The node *)
Record Node := MkNode { nd_sm : StateMachineStore; nd_log : Inner; nd_dir : Dir }.

(** The index of the next entry to apply. *)
Definition next_index (s : MetadataState) : Z :=
  match last_applied s with None => 0 | Some id => log_index id + 1 end.

Section Node.
Context `{BindingKey, BincodeLaws, SnapshotJsonLaws, LogJsonLaws}.
(** [StorageError]'s [Display]. *)
Context (storage_text : StorageError → string).

(** The storage part of [start_node_with_mesh]. *)
Definition start_node : ST Dir ControlError (Inner * StateMachineStore) := λ d,
  match log_open d with
  | (d, Err e) => (d, Err (Init (storage_text e)))
  | (d, Panic) => (d, Panic)
  | (d, Ok i) =>
      match sm_open d with
      | (d, Err e) => (d, Err (Init ("snapshot recovery: " +:+ io_msg e)))
      | (d, Panic) => (d, Panic)
      | (d, Ok sm) =>
          (d, match (get_log_state i).1 with
              | None => Ok (i, sm)
              | Some purged =>
                  if negb match last_applied (sm_state sm) with
                          | Some id => log_index purged <=? log_index id
                          | None => false
                          end
                  then Err (Init "purged Raft logs require a durable snapshot; recover from a healthy peer or verified backup")
                  else Ok (i, sm)
              end)
      end
  end.

Inductive NodeOp :=
| NLog (op : LogOp)
| NApply (hi : Z)
| NSnapshot.

(** One storage call of [openraft]. *)
Definition node_run (op : NodeOp) (nd : Node) : Node * res StorageError () :=
  match op with
  | NLog op =>
      let '((i, d), r) := run_log_op op (nd_log nd, nd_dir nd) in (MkNode (nd_sm nd) i d, r)
  | NApply hi =>
      let es := try_get_log_entries (next_index (sm_state (nd_sm nd))) hi (nd_log nd) in
      (MkNode (sm_apply es (nd_sm nd)).1 (nd_log nd) (nd_dir nd), Ok ())
  | NSnapshot =>
      let '((sm, d), r) := build_snapshot (nd_sm nd, nd_dir nd) in
      (MkNode sm (nd_log nd) d, (λ _, ()) <$> r)
  end.

(** What [openraft] asks for. *)
Definition raft_allows (op : NodeOp) (nd : Node) : Prop :=
  let next := next_index (sm_state (nd_sm nd)) in
  match op with
  | NLog (OpAppend es) => Forall (λ e, next ≤ entry_index e) es
  | NLog (OpTruncate id) => next ≤ log_index id
  | NLog (OpPurge id) =>
      ∃ meta data id', get_current_snapshot (nd_sm nd) = Some (meta, data) ∧
        last_log_id meta = Some id' ∧ log_index id ≤ log_index id'
  | NLog _ | NSnapshot => True
  | NApply hi => next ≤ hi
  end.

(** The nodes that come about: a start on an empty directory, storage calls
    that succeed, and restarts after any storage call. *)
Inductive reachable : Node → Prop :=
| reach_start d i sm :
    start_node (MkDir ∅ []) = (d, Ok (i, sm)) → reachable (MkNode sm i d)
| reach_step nd op nd' :
    reachable nd → raft_allows op nd → node_run op nd = (nd', Ok ()) → reachable nd'
| reach_restart nd op nd' r d i sm :
    reachable nd → raft_allows op nd → node_run op nd = (nd', r) →
    start_node (reopened (nd_dir nd')) = (d, Ok (i, sm)) → reachable (MkNode sm i d)
| reach_faults nd plan :
    reachable nd → reachable (MkNode (nd_sm nd) (nd_log nd) (MkDir (dir_files (nd_dir nd)) plan)).

(** ** The invariant

    [h] is the history applied in memory, [k] how much of it the snapshot on
    disk holds: the log has the rest. *)
Definition state_of (h : list Entry) : MetadataState := (apply default_state h).1.

Definition purge_covered (i : Inner) (s : MetadataState) : Prop :=
  match il_last_purged i with
  | None => True
  | Some p => ∃ id, last_applied s = Some id ∧ log_index p ≤ log_index id
  end.

(** Reopening gives [i]; the log may end in a torn line. *)
Definition recoverable (i : Inner) (d : Dir) : Prop :=
  ∃ es torn, stored (dir_files d) es torn (meta_of i) ∧ i = opened es (meta_of i).

Record disk_ok (h : list Entry) (k : nat) (snap : option (SnapshotMeta * bytes)) (i : Inner) (d : Dir) : Prop := {
  dk_snapshot : restore (dir_files d !! SNAPSHOT_FILE) = Ok (MkSm (state_of (take k h)) snap 0 true);
  dk_meta : ∀ meta data, snap = Some (meta, data) → last_log_id meta = last_applied (state_of (take k h));
  dk_le : (k <= length h)%nat;
  dk_log : recoverable i d;
  dk_range : try_get_log_entries (next_index (state_of (take k h))) (next_index (state_of h)) i = drop k h;
  dk_purged : purge_covered i (state_of (take k h)) }.

Record node_inv (h : list Entry) (k : nat) (nd : Node) : Prop := {
  ni_sorted : log_sorted 0 h;
  ni_state : sm_state (nd_sm nd) = state_of h;
  ni_dir : sm_directory (nd_sm nd) = true;
  ni_synced : synced (nd_log nd) (nd_dir nd);
  ni_disk : disk_ok h k (sm_snapshot (nd_sm nd)) (nd_log nd) (nd_dir nd) }.

Lemma apply_unfenced_last_applied s req : last_applied (apply_unfenced s req).1 = last_applied s.
Proof.
  destruct req; cbn [apply_unfenced].
  1,2,5,7-10: unfold cancel, renew, advance, expire, reserve; repeat case_goal; reflexivity.
  - destruct (bind_one_fields s agent key blocks parent) as (? & ?). naive_solver.
  - cbn. revert s. induction bindings as [|b bs IH]; intros s; [done|]. cbn. rewrite IH. unfold bind_link.
    by destruct (bind_one_fields s agent (cb_key b) (cb_blocks b) (cb_parent b)) as (_ & _ & _ & _ & _ & ? & _).
  - destruct (validate_commit _ _ _ _ _) as [[]|]; [|done..]. cbn. unfold bind_link.
    destruct (bind_one_fields s agent (cb_key binding) (cb_blocks binding) (cb_parent binding)) as (? & ?).
    naive_solver.
Qed.
Lemma apply_entry_last_applied s e : last_applied (apply_entry s e).1 = Some (entry_log_id e).
Proof.
  unfold apply_entry. destruct (entry_payload e); [done| |done]. unfold apply_one.
  case_goal; [done|]. pose proof (apply_unfenced_last_applied (set_last_applied (Some (entry_log_id e)) s) req) as E'.
  destruct (apply_unfenced _ req) as [s1 r1]. destruct (is_rejected r1); done.
Qed.

Lemma last_applied_apply s es :
  last_applied (apply s es).1 =
  match last es with Some e => Some (entry_log_id e) | None => last_applied s end.
Proof.
  revert s. induction es as [|e es IH]; intros s; [done|]. cbn [apply].
  pose proof (apply_entry_last_applied s e) as He.
  destruct (apply_entry s e) as [s1 r]. specialize (IH s1). destruct (apply s1 es) as [s2 rs].
  cbn [fst] in *. rewrite IH. destruct es as [|e' es]; [done|]. rewrite last_cons_cons.
  destruct (last (e' :: es)) eqn:El; [done|]. by apply last_None in El.
Qed.

Lemma state_of_app h es : state_of (h ++ es) = (apply (state_of h) es).1.
Proof. unfold state_of. by rewrite apply_app. Qed.

(** Replaying the retained log on the snapshot gives the state in memory. *)
Lemma disk_replay h k snap i d :
  disk_ok h k snap i d →
  (apply (state_of (take k h))
     (try_get_log_entries (next_index (state_of (take k h))) (next_index (state_of h)) i)).1 = state_of h.
Proof. intros []. by rewrite dk_range0, <-state_of_app, take_drop. Qed.

Lemma log_sorted_take a k h : log_sorted a h → log_sorted a (take k h).
Proof. revert a k. induction h as [|e h IH]; intros a [|k]; cbn; [done..|]. intros [? ?]. auto. Qed.

Lemma restart_ok h k snap i d :
  log_sorted 0 h → disk_ok h k snap i d →
  ∃ d', start_node (reopened d) = (d', Ok (i, MkSm (state_of (take k h)) snap 0 true)) ∧
    node_inv (take k h) k (MkNode (MkSm (state_of (take k h)) snap 0 true) i d').
Proof.
  intros Hso [Hsn Hme Hkl (es & torn & Hst & Hi) Hrg Hpu].
  destruct (log_open_stored _ _ _ _ Hst) as (m' & Eo & Hst' & Hfr).
  assert (m' !! SNAPSHOT_FILE = dir_files d !! SNAPSHOT_FILE) as Hf by by apply Hfr.
  exists (MkDir m' []). split.
  - unfold start_node. unfold reopened. rewrite Eo, <-Hi. rewrite sm_open_quiet by done.
    cbn [dir_files]. rewrite Hf, Hsn. cbn [sm_state get_log_state fst]. unfold purge_covered in Hpu.
    destruct (il_last_purged i) as [p|]; [|done]. destruct Hpu as (id & -> & Hle).
    by rewrite (proj2 (Z.leb_le _ _) Hle).
  - constructor; cbn; [by apply log_sorted_take|done|done|by exists es|].
    constructor; cbn; [by rewrite Hf, take_take, Nat.min_id|by rewrite take_take, Nat.min_id| | | |by rewrite take_take, Nat.min_id].
    + rewrite length_take. lia.
    + by exists es, [].
    + rewrite take_take, Nat.min_id. unfold try_get_log_entries.
      change (filter _ _) with (rng (next_index (state_of (take k h))) (next_index (state_of (take k h))) (il_log i)).
      rewrite rng_empty, skipn_firstn_comm, Nat.sub_diag. done.
Qed.

(** ** The log operations *)
Lemma try_get_rng lo hi i : try_get_log_entries lo hi i = (rng lo hi (il_log i)).*2.
Proof. done. Qed.

Lemma rng_appended lo hi es log :
  Forall (λ e, hi ≤ entry_index e) es → rng lo hi (foldl ins log es) = rng lo hi log.
Proof.
  revert log. induction es as [|e es IH]; intros log Hf; [done|]. cbn [foldl].
  apply Forall_cons in Hf as [He Hf]. rewrite IH by done. by apply rng_insert.
Qed.

Lemma log_op_disk op h k snap i d j d' :
  disk_ok h k snap i d → raft_allows (NLog op) (MkNode (MkSm (state_of h) snap 0 true) i d) →
  next_index (state_of (take k h)) ≤ next_index (state_of h) →
  (j = effect op i ∨ may_leave op i j) → recoverable j d' →
  dir_files d' !! SNAPSHOT_FILE = dir_files d !! SNAPSHOT_FILE →
  disk_ok h k snap j d'.
Proof.
  intros [Hsn Hme Hkl Hlog Hrg Hpu] Hal Hle Hj Hrec Hf.
  assert (j = i ∨ j = effect op i ∨ may_leave op i j) as Hj' by auto. clear Hj.
  constructor; [by rewrite Hf|done..| |].
  - rewrite <-Hrg, !try_get_rng. f_equal. destruct op; cbn in Hal, Hj'.
    + by destruct Hj' as [->|[->|[->| ->]]].
    + by destruct Hj' as [->|[->|[->| ->]]].
    + destruct Hj' as [->|[->|[n ->]]]; cbn; [done|by apply rng_appended|].
      apply rng_appended. by apply Forall_take.
    + assert (rng (next_index (state_of (take k h))) (next_index (state_of h))
        (bt_retain (λ idx, idx <? log_index id) (il_log i))
        = rng (next_index (state_of (take k h))) (next_index (state_of h)) (il_log i)) as E.
      { apply rng_retain. intros x Hx. apply Z.ltb_lt. lia. }
      destruct Hj' as [->|[->|[->| ->]]]; done.
    + assert (rng (next_index (state_of (take k h))) (next_index (state_of h))
        (bt_retain (λ idx, log_index id <? idx) (il_log i))
        = rng (next_index (state_of (take k h))) (next_index (state_of h)) (il_log i)) as E.
      { apply rng_retain. intros x Hx. apply Z.ltb_lt. destruct Hal as (meta & data & id' & Hs & Hm & ?).
        cbn in Hs. rewrite (Hme _ _ Hs) in Hm. unfold next_index in Hx. rewrite Hm in Hx. lia. }
      destruct Hj' as [->|[->|[->|[->| ->]]]]; done.
  - unfold purge_covered in *. destruct op; cbn in Hal, Hj'.
    1,2,4: by destruct Hj' as [->|[->|[->| ->]]].
    + destruct Hj' as [->|[->|[n ->]]]; done.
    + destruct Hal as (meta & data & id' & Hs & Hm & ?). cbn in Hs. rewrite (Hme _ _ Hs) in Hm.
      destruct Hj' as [->|[->|[->|[->| ->]]]]; [done|cbn; eauto|done|cbn; eauto..].
Qed.

(** ** Positions *)
Lemma next_index_state h :
  next_index (state_of h) = match last h with Some e => entry_index e + 1 | None => 0 end.
Proof. unfold next_index, state_of. rewrite last_applied_apply. by destruct (last h). Qed.

Lemma log_sorted_elem a h e : log_sorted a h → e ∈ h → a ≤ entry_index e.
Proof.
  revert a. induction h as [|e' h IH]; intros a Hs He; [by apply elem_of_nil in He|].
  destruct Hs as [Ha Hs]. unfold entry_index in *.
  apply elem_of_cons in He as [->|He]; [done|]. specialize (IH _ Hs He). lia.
Qed.
Lemma log_sorted_app a h es :
  log_sorted a h → log_sorted (match last h with Some e => entry_index e | None => a end) es →
  log_sorted a (h ++ es).
Proof.
  revert a. induction h as [|e h IH]; intros a Hs Hes; [done|]. destruct Hs as [Ha Hs].
  split; [done|]. apply IH; [done|]. destruct h as [|e' h]; [done|].
  rewrite last_cons_cons in Hes. destruct (last (e' :: h)) eqn:El; [done|]. by apply last_None in El.
Qed.
Lemma log_sorted_last a h e x : log_sorted a h → last h = Some x → e ∈ h → entry_index e ≤ entry_index x.
Proof.
  revert a. induction h as [|e' h IH]; intros a Hs Hl He; [done|]. destruct Hs as [Ha Hs].
  destruct h as [|e2 h]; [cbn in Hl; simplify_eq; apply list_elem_of_singleton in He as ->; done|].
  rewrite last_cons_cons in Hl. apply elem_of_cons in He as [->|He]; [|by eauto].
  eapply (log_sorted_elem _ _ x Hs). by apply last_Some_elem_of.
Qed.
Lemma next_index_take k h :
  log_sorted 0 h → 0 ≤ next_index (state_of (take k h)) ≤ next_index (state_of h).
Proof.
  intros Hs. rewrite !next_index_state. destruct (last (take k h)) as [x|] eqn:Ex.
  - apply last_Some_elem_of, elem_of_take in Ex as (n & Hn & _). apply list_elem_of_lookup_2 in Hn.
    pose proof (log_sorted_elem _ _ _ Hs Hn). destruct (last h) as [y|] eqn:Ey.
    + pose proof (log_sorted_last _ _ _ _ Hs Ey Hn). lia.
    + apply last_None in Ey as ->. by apply elem_of_nil in Hn.
  - destruct (last h) as [y|] eqn:Ey; [|lia]. apply last_Some_elem_of in Ey.
    pose proof (log_sorted_elem _ _ _ Hs Ey). lia.
Qed.

Lemma keyed_log_sorted b log :
  keyed log → (∀ x, x ∈ log → b ≤ x.1) → log_sorted b log.*2.
Proof.
  revert b. induction log as [|[k e] log IH]; intros b [Hs Hk] Hb; [done|].
  apply StronglySorted_inv in Hs as [Hs Hf]. apply Forall_cons in Hk as [Hke Hk]. cbn in Hke.
  cbn. split; [specialize (Hb (k, e) ltac:(by left)); cbn in Hb; unfold entry_index in Hke; lia|].
  apply IH; [by split|]. intros x Hx. rewrite Forall_forall in Hf. apply Hf in Hx.
  unfold key_lt in Hx. cbn in Hx. unfold entry_index in Hke. lia.
Qed.
Lemma rng_keyed lo hi log : keyed log → keyed (rng lo hi log).
Proof.
  intros [Hs Hk]. split; [by apply bt_filter_sorted|]. rewrite Forall_forall in *.
  intros x [_ Hx]%list_elem_of_filter. auto.
Qed.

Lemma synced_keyed i d : synced i d → keyed (il_log i).
Proof. by intros (es & _ & _ & _ & ? & _)%synced_parts. Qed.
Lemma synced_recoverable i d : synced i d → recoverable i d.
Proof. intros (es & ? & ?). by exists es, []. Qed.

(** ** Applying *)
Lemma apply_node hi h k nd :
  node_inv h k nd → raft_allows (NApply hi) nd →
  let es := try_get_log_entries (next_index (sm_state (nd_sm nd))) hi (nd_log nd) in
  node_inv (h ++ es) k (node_run (NApply hi) nd).1.
Proof.
  intros [Hso Hst Hdir Hsy [Hsn Hme Hkl Hlog Hrg Hpu]] Hal es. cbn in Hal. unfold es in *. clear es.
  rewrite Hst in *. set (next := next_index (state_of h)) in *. set (log := il_log (nd_log nd)).
  pose proof (rng_keyed next hi log (synced_keyed _ _ Hsy)) as Hk.
  assert (0 ≤ next) as Hnn by (pose proof (next_index_take 0 h Hso); unfold next; lia).
  assert (log_sorted 0 (h ++ (rng next hi log).*2)) as Hso'.
  { apply log_sorted_app; [done|]. apply keyed_log_sorted; [done|]. intros x [[? _] _]%list_elem_of_filter.
    unfold next in *. rewrite next_index_state in *. destruct (last h); lia. }
  assert (∀ es, sm_apply es (nd_sm nd) = (MkSm (apply (state_of h) es).1 (sm_snapshot (nd_sm nd))
    (sm_snapshot_idx (nd_sm nd)) true, (apply (state_of h) es).2)) as Hap.
  { intros es. unfold sm_apply. rewrite Hst, Hdir. by destruct (apply _ _). }
  cbn [node_run]. rewrite Hst. fold next. rewrite Hap.
  constructor; cbn [fst nd_sm nd_log nd_dir sm_state sm_directory sm_snapshot];
    [exact Hso'|by rewrite state_of_app|done|done|].
  assert (∀ es, take k (h ++ es) = take k h) as Htk by (intros; by apply take_app_le).
  constructor; rewrite ?Htk; [done|done|rewrite length_app; lia|done| |done].
  rewrite drop_app_le by done. rewrite <-Hrg, !try_get_rng, <-fmap_app. f_equal.
  destruct (next_index_take k h Hso) as [? ?]. fold next.
  rewrite (next_index_state (h ++ _)), last_app. fold next. change (il_log (nd_log nd)) with log.
  rewrite fmap_last. destruct (last (rng next hi log)) as [x|] eqn:Ex; cbn [fmap option_fmap option_map].
  - destruct Hk as [_ Hk]. rewrite Forall_forall in Hk. pose proof (last_Some_elem_of _ _ Ex) as Hin.
    rewrite <-(Hk _ Hin). apply list_elem_of_filter in Hin as [[? ?] _].
    rewrite (rng_split _ next (x.1 + 1)); [|by apply synced_keyed in Hsy as []|lia].
    by rewrite (rng_last next hi log x); [|by apply synced_keyed in Hsy as []|].
  - apply last_None in Ex. rewrite Ex, app_nil_r. f_equal. unfold next. by rewrite next_index_state.
Qed.

(** ** One storage call

    Whatever its outcome, the directory holds enough to restart; after a
    success the running node is again in the invariant. *)
Definition settled (h : list Entry) (nd' : Node) (r : res StorageError ()) : Prop :=
  log_sorted 0 h ∧ sm_state (nd_sm nd') = state_of h ∧
  match r with
  | Ok _ => ∃ k, node_inv h k nd'
  | Err _ => ∃ k snap i, disk_ok h k snap i (nd_dir nd')
  | Panic => False
  end.

Lemma log_call_settled op h k nd nd' r :
  node_inv h k nd → raft_allows (NLog op) nd → node_run (NLog op) nd = (nd', r) → settled h nd' r.
Proof.
  intros [Hso Hst Hdir Hsy Hdk] Hal E. cbn [node_run] in E.
  pose proof (log_op_outcome op _ _ Hsy) as Ho.
  pose proof (lkeeps_log_op SNAPSHOT_FILE op ltac:(by repeat split) (nd_log nd) (nd_dir nd)) as Hkp.
  destruct (run_log_op op _) as [[i d] r1]. cbn [fst snd] in Hkp. simplify_eq/=.
  split_and!; [done|done|]. destruct (next_index_take k h Hso) as [_ Hle].
  assert (∀ j, (j = effect op (nd_log nd) ∨ may_leave op (nd_log nd) j) → recoverable j d →
    disk_ok h k (sm_snapshot (nd_sm nd)) j d) as Hd.
  { intros j Hj Hr. eapply log_op_disk; [done| |done..]. unfold raft_allows in *. cbn. by rewrite Hst in Hal. }
  destruct r as [[]|e|]; [|destruct Ho as (_ & es & torn & meta & Hs & Hm)|done].
  - destruct Ho as [-> Ho]. exists k. constructor; [done..|].
    apply Hd; [by left|by apply synced_recoverable].
  - exists k, (sm_snapshot (nd_sm nd)), (opened es meta). apply Hd; [by right|].
    exists es, torn. by destruct meta.
Qed.

Lemma snapshot_call_settled h k nd nd' r :
  node_inv h k nd → node_run NSnapshot nd = (nd', r) → settled h nd' r.
Proof.
  intros [Hso Hst Hdir Hsy [Hsn Hme Hkl Hlog Hrg Hpu]] E. cbn [node_run] in E.
  pose proof (apply_inv default_state h default_inv Hso) as HI. fold (state_of h) in HI. rewrite <-Hst in HI.
  destruct (build_snapshot _) as [[sm d] r1] eqn:Eb.
  apply build_snapshot_spec in Eb as (Hs1 & Hd1 & Hfr & meta & data & Hm & Hr); [|done..].
  assert (∀ es torn m, stored (dir_files (nd_dir nd)) es torn m → stored (dir_files d) es torn m) as Hsto.
  { intros es torn m Hsto. by eapply stored_frame; [done|apply Hfr..]. }
  rewrite !sm_open_reopened, Hst, Hsn in Hr.
  assert (recoverable (nd_log nd) d) as Hrec by (destruct Hlog as (es & torn & ? & ?); exists es, torn; auto).
  assert (restore (dir_files d !! SNAPSHOT_FILE) = Ok (MkSm (state_of h) (Some (meta, data)) 0 true) →
    disk_ok h (length h) (Some (meta, data)) (nd_log nd) d) as Hnew.
  { intros Hn. unfold applied_state in Hm. rewrite Hst in Hm.
    constructor; rewrite ?firstn_all; [done|naive_solver|done|done| |].
    - by rewrite try_get_rng, rng_empty, drop_all.
    - unfold purge_covered in *. destruct (il_last_purged _) as [p|]; [|done].
      destruct Hpu as (id & Ha & Hle). destruct (next_index_take k h Hso) as [_ Hx].
      unfold next_index in Hx. rewrite Ha in Hx. destruct (last_applied (state_of h)) as [id'|] eqn:El.
      + exists id'. split; [done|]. lia.
      + unfold state_of in El, Ha. rewrite last_applied_apply in El, Ha. cbn in El, Ha. destruct (last h) eqn:Eh; [done|].
        apply last_None in Eh as ->. by rewrite take_nil in Ha. }
  destruct Hr as [(-> & Hg & Hn)|(e & -> & Hg & _ & [Hn|Hn])]; simplify_eq/=;
    (split_and!; [done|cbn; congruence|]).
  - exists (length h). constructor; cbn; [done|congruence|done| |].
    + destruct Hsy as (es & ? & ?). exists es. auto.
    + unfold get_current_snapshot in Hg. rewrite Hg. auto.
  - exists k, (sm_snapshot (nd_sm nd)), (nd_log nd). by constructor.
  - exists (length h), (Some (meta, data)), (nd_log nd). auto.
Qed.

Lemma call_settled op h k nd nd' r :
  node_inv h k nd → raft_allows op nd → node_run op nd = (nd', r) →
  ∃ h', h `prefix_of` h' ∧ settled h' nd' r.
Proof.
  intros Hi Hal E. destruct op as [op|hi|].
  - exists h. split; [done|]. by eapply log_call_settled.
  - eexists. split; [by eapply prefix_app_r|]. pose proof (apply_node _ _ _ _ Hi Hal) as Hn.
    rewrite E in Hn. cbn in E. simplify_eq/=. split_and!; [by destruct Hn|by destruct Hn|by exists k].
  - exists h. split; [done|]. by eapply snapshot_call_settled.
Qed.

Lemma settled_disk h nd' r : settled h nd' r → ∃ k snap i, disk_ok h k snap i (nd_dir nd').
Proof. intros (_ & _ & Hr). destruct r; [|done..]. destruct Hr as (k & []). eauto. Qed.

Lemma fresh_node : ∃ d i sm, start_node (MkDir ∅ []) = (d, Ok (i, sm)) ∧ node_inv [] 0 (MkNode sm i d).
Proof.
  destruct (restart_ok [] 0 None (opened [] default_meta) (MkDir ∅ [])) as (d & E & Hn); [done| |eauto].
  constructor; try done. exists [], []. split; [|done]. constructor; [done|set_solver|done].
Qed.

Lemma reachable_inv nd : reachable nd → ∃ h k, node_inv h k nd.
Proof.
  induction 1 as [d i sm E|nd op nd' _ (h & k & Hi) Hal E|nd op nd' r d i sm _ (h & k & Hi) Hal E Es
                 |nd plan _ (h & k & [])].
  - destruct fresh_node as (d' & i' & sm' & E' & Hn). rewrite E in E'. simplify_eq. eauto.
  - destruct (call_settled _ _ _ _ _ _ Hi Hal E) as (h' & _ & _ & _ & k' & ?). eauto.
  - destruct (call_settled _ _ _ _ _ _ Hi Hal E) as (h' & _ & Hs).
    destruct (settled_disk _ _ _ Hs) as (k' & snap & j & Hd). destruct Hs as [Hso _].
    destruct (restart_ok _ _ _ _ _ Hso Hd) as (d' & E' & Hn). rewrite Es in E'. simplify_eq. eauto.
  - exists h, k. constructor; cbn; [done..| |].
    + destruct ni_synced0 as (es & ? & ?). by exists es.
    + by destruct ni_disk0.
Qed.
End Node.

(** ** Properties *)
Section RecoveryTheorem.
Context `{BindingKey, BincodeLaws, SnapshotJsonLaws, LogJsonLaws}.

(** C27. Nothing applied is lost.  Take any node reached by starting on an
    empty directory and running the storage calls [openraft] makes (votes,
    appends, truncations, purges, applying, snapshots), with restarts and file
    faults anywhere; run one more call, with any outcome.  Then the call did
    not panic, the node can restart from its directory (the check on purged
    logs passes), and replaying the retained log from the restored snapshot
    up to the position the node had applied rebuilds exactly the state it had
    in memory. *)
Theorem restart_rebuilds_applied_state storage_text nd op nd' r :
  reachable storage_text nd → raft_allows op nd → node_run op nd = (nd', r) →
  r ≠ Panic ∧
  ∃ d i sm, start_node storage_text (reopened (nd_dir nd')) = (d, Ok (i, sm)) ∧
    (apply (sm_state sm)
       (try_get_log_entries (next_index (sm_state sm)) (next_index (sm_state (nd_sm nd'))) i)).1
    = sm_state (nd_sm nd').
Proof.
  intros (h & k & Hi)%reachable_inv Hal E.
  destruct (call_settled _ _ _ _ _ _ Hi Hal E) as (h' & _ & Hs). split.
  { destruct Hs as (_ & _ & Hr). by destruct r. }
  destruct (settled_disk _ _ _ Hs) as (k' & snap & j & Hd). destruct Hs as (Hso & Hst & _).
  destruct (restart_ok storage_text _ _ _ _ _ Hso Hd) as (d & Es & _).
  eexists _, _, _. split; [exact Es|]. rewrite Hst. by eapply disk_replay.
Qed.
End RecoveryTheorem.

(** A fresh node appends its first entry. *)
Definition ex_text (e : StorageError) : string := "storage error".
Definition ex_node : Node :=
  MkNode (MkSm default_state None 0 true) (opened [] default_meta) (MkDir {[LOG_FILE := []]} []).
Definition ex_call : NodeOp := NLog (OpAppend [ex_new_entry]).
Definition ex_called : Node * res StorageError () :=
  @node_run toy_binding_key toy_bincode toy_snapshot_json toy_log_json ex_call ex_node.

Lemma ex_node_reachable :
  @reachable toy_binding_key toy_bincode toy_snapshot_json toy_log_json ex_text ex_node.
Proof. apply reach_start. reflexivity. Qed.
Lemma ex_call_allowed : raft_allows ex_call ex_node.
Proof. cbn. repeat constructor. cbn. discriminate. Qed.

Lemma restart_rebuilds_applied_state_witness :
  ex_called.2 = Ok () ∧ ex_called.2 ≠ Panic ∧
  ∃ d i sm, @start_node toy_binding_key toy_bincode toy_snapshot_json toy_log_json ex_text
      (reopened (nd_dir ex_called.1)) = (d, Ok (i, sm)).
Proof.
  split; [reflexivity|].
  pose proof (@restart_rebuilds_applied_state toy_binding_key toy_bincode toy_bincode_laws
    toy_snapshot_json toy_snapshot_json_laws toy_log_json toy_log_json_laws
    ex_text ex_node ex_call ex_called.1 ex_called.2 ex_node_reachable ex_call_allowed eq_refl)
    as [Hp (d & i & sm & E & _)].
  split; [exact Hp|]. exists d, i, sm. exact E.
Defined.
