(* ===== verification/Manifest.v ===== *)
(** * The prefix manifest ([crates/kalpak-storage/src/manifest.rs])

    A map from cache keys to block lists, kept in an append-only log of JSON
    lines that [open] replays.  The file is in the directory model of
    [Durability]; nobody else writes it, so the position of the open file is
    always its end.  [String::from_utf8] checking (by [read_line]) and
    [str::trim_end] are written out on bytes. *)

From S2P Require Import Prelude Core Durability Metadata Codecs LogStore.
From Stdlib Require Import Strings.Byte.

(** ** Text *)
Definition byte_in (lo hi : Z) (b : byte) : bool := (lo <=? byte_Z b) && (byte_Z b <=? hi).
Definition ascii_byte (b : byte) : bool := byte_in 0 127 b.
Definition continuation (b : byte) : bool := byte_in 128 191 b.
Definition utf8_two (a b : byte) : bool := byte_in 194 223 a && continuation b.
Definition utf8_three (a b c : byte) : bool :=
  (bool_decide (a = xe0) && byte_in 160 191 b || byte_in 225 236 a && continuation b ||
   bool_decide (a = xed) && byte_in 128 159 b || byte_in 238 239 a && continuation b) && continuation c.
Definition utf8_four (a b c d : byte) : bool :=
  (bool_decide (a = xf0) && byte_in 144 191 b || byte_in 241 243 a && continuation b ||
   bool_decide (a = xf4) && byte_in 128 143 b) && continuation c && continuation d.

Fixpoint valid_utf8 (l : bytes) : bool :=
  match l with
  | [] => true
  | a :: l1 =>
      if ascii_byte a then valid_utf8 l1 else
      match l1 with
      | [] => false
      | b :: l2 =>
          if utf8_two a b then valid_utf8 l2 else
          match l2 with
          | [] => false
          | c :: l3 =>
              if utf8_three a b c then valid_utf8 l3 else
              match l3 with
              | [] => false
              | d :: l4 => utf8_four a b c d && valid_utf8 l4
              end
          end
      end
  end.

(** The characters of [White_Space], by their encodings, last byte first. *)
Definition space1 (a : byte) : bool := byte_in 9 13 a || bool_decide (a = x20).
Definition space2 (a b : byte) : bool := (bool_decide (a = x85) || bool_decide (a = xa0)) && bool_decide (b = xc2).
Definition space3 (a b c : byte) : bool :=
  bool_decide ([a; b; c] = [x80; x9a; xe1]) || bool_decide ([a; b; c] = [x9f; x81; xe2]) ||
  bool_decide ([a; b; c] = [x80; x80; xe3]) ||
  (byte_in 128 138 a || byte_in 168 169 a || bool_decide (a = xaf)) && bool_decide ([b; c] = [x80; xe2]).

Fixpoint trim_rev (l : bytes) : bytes :=
  match l with
  | [] => []
  | a :: l1 =>
      if space1 a then trim_rev l1 else
      match l1 with
      | [] => l
      | b :: l2 =>
          if space2 a b then trim_rev l2 else
          match l2 with
          | [] => l
          | c :: l3 => if space3 a b c then trim_rev l3 else l
          end
      end
  end.
Definition trim_end (l : bytes) : bytes := rev (trim_rev (rev l)).

(** ** The manifest *)
Definition MANIFEST_LOG : string := "manifest.jsonl".

(** [serde_json] at the type [Binding].  A value is written as one object on
    one line; a truncated object does not parse, nor does one followed by
    another. *)
Class ManifestJson := {
  json_of_binding : CacheKey → list BlockId → bytes + string;
  binding_of_json : bytes → option (CacheKey * list BlockId) }.
Record line_ok `{ManifestJson} (k : CacheKey) (b : list BlockId) (l : bytes) : Prop := {
  lo_json : json_of_binding k b = inl l;
  lo_line : x0a ∉ l;
  lo_utf8 : valid_utf8 l = true;
  lo_last : last l = Some x7d;
  lo_parse : binding_of_json l = Some (k, b);
  lo_truncated : ∀ p x, x ≠ [] → l = p ++ x → binding_of_json p = None;
  lo_trailing : ∀ k' b' l', json_of_binding k' b' = inl l' → binding_of_json (l ++ l') = None }.
Class ManifestJsonLaws `{ManifestJson} := manifest_json : ∀ k b, ∃ l, line_ok k b l.

Record PrefixManifest := MkManifest { mf_map : gmap CacheKey (list BlockId) }.

Section Manifest.
Context `{ManifestJson}.

(** The loop of [read_line] calls: a line that is not UTF-8 is an error, one
    that does not parse ends the replay. *)
Fixpoint manifest_replay (lines : list bytes) (map : gmap CacheKey (list BlockId)) (valid_end : Z)
    : res io_error (gmap CacheKey (list BlockId) * Z) :=
  match lines with
  | [] => Ok (map, valid_end)
  | line :: lines =>
      if valid_utf8 line then
        match binding_of_json (trim_end line) with
        | Some (key, blocks) => manifest_replay lines (<[key := blocks]> map) (valid_end + zlen line)
        | None => Ok (map, valid_end)
        end
      else Err (IoError KInvalidData "stream did not contain valid UTF-8")
  end.

Definition manifest_open : FS PrefixManifest :=
  fs_create_dir ≫= λ _,
  fs_open_append true MANIFEST_LOG ≫= λ _,
  fs_read MANIFEST_LOG ≫= λ content,
  st_lift (manifest_replay (split_inclusive content) ∅ 0) ≫= λ '(map, valid_end),
  fs_set_len MANIFEST_LOG valid_end ≫= λ _,
  mret (MkManifest map).

Definition manifest_bind (key : CacheKey) (blocks : list BlockId)
    : ST (PrefixManifest * Dir) Error () := λ '(m, d),
  match json_of_binding key blocks with
  | inr _ => ((m, d), Panic)
  | inl line =>
      match (fs_write MANIFEST_LOG line ≫= λ _, fs_write MANIFEST_LOG [x0a] ≫= λ _,
             fs_sync MANIFEST_LOG) d with
      | (d, Ok _) => ((MkManifest (<[key := blocks]> (mf_map m)), d), Ok ())
      | (d, Err e) => ((m, d), Err (Io e))
      | (d, Panic) => ((m, d), Panic)
      end
  end.

Definition manifest_lookup (key : CacheKey) (m : PrefixManifest) : option (list BlockId) := mf_map m !! key.

(** The loop over the chain, with the best key so far. *)
Fixpoint probe (map : gmap CacheKey (list BlockId)) (best : option (CacheKey * list BlockId))
    (chain : list CacheKey) : option (CacheKey * list BlockId) :=
  match chain with
  | [] => best
  | key :: chain =>
      match map !! key with
      | Some blocks => probe map (Some (key, blocks)) chain
      | None => best
      end
  end.
Definition longest_prefix (chain : list CacheKey) (m : PrefixManifest) : option (CacheKey * list BlockId) :=
  probe (mf_map m) None chain.

Definition manifest_len (m : PrefixManifest) : Z := zsize (mf_map m).
Definition manifest_is_empty (m : PrefixManifest) : bool := bool_decide (mf_map m = ∅).
End Manifest.
