(* ===== verification/ManifestTheorems.v ===== *)
(** * The prefix manifest holds its bindings

    What a bind leaves in the log and what a restart reads from it, and the
    answer of [longest_prefix]. *)

From S2P Require Import Prelude Core Durability Metadata Codecs LogStore Manifest.
From Stdlib Require Import Strings.Byte.

(** ** Text *)
Lemma ascii_valid l : Forall (λ b, ascii_byte b = true) l → valid_utf8 l = true.
Proof. induction 1 as [|b l Hb _ IH]; cbn; [done|]. by rewrite Hb. Qed.

Lemma valid_utf8_app l k : valid_utf8 l = true → valid_utf8 k = true → valid_utf8 (l ++ k) = true.
Proof.
  intros Hl Hk. induction l as [l IH] using (induction_ltof1 _ (@length byte)). unfold ltof in IH.
  destruct l as [|a l1]; [done|]. cbn [valid_utf8 app] in *.
  destruct (ascii_byte a); [apply IH; [cbn; lia|done]|].
  destruct l1 as [|b l2]; [done|]. cbn [app]. destruct (utf8_two a b); [apply IH; [cbn; lia|done]|].
  destruct l2 as [|c l3]; [done|]. cbn [app]. destruct (utf8_three a b c); [apply IH; [cbn; lia|done]|].
  destruct l3 as [|e l4]; [done|]. cbn [app]. apply andb_true_iff in Hl as [-> Hl].
  apply IH; [cbn; lia|done].
Qed.

Lemma trim_rev_suffix l : ∃ w, l = w ++ trim_rev l.
Proof.
  induction l as [l IH] using (induction_ltof1 _ (@length byte)). unfold ltof in IH.
  destruct l as [|a l1]; [by exists []|]. cbn [trim_rev].
  destruct (space1 a); [destruct (IH l1) as [w Hw]; [cbn; lia|]; exists (a :: w); cbn; by rewrite <-Hw|].
  destruct l1 as [|b l2]; [by exists []|].
  destruct (space2 a b); [destruct (IH l2) as [w Hw]; [cbn; lia|]; exists (a :: b :: w); cbn; by rewrite <-Hw|].
  destruct l2 as [|c l3]; [by exists []|].
  destruct (space3 a b c); [destruct (IH l3) as [w Hw]; [cbn; lia|]; exists (a :: b :: c :: w); cbn; by rewrite <-Hw|].
  by exists [].
Qed.
Lemma trim_end_prefix l : ∃ w, l = trim_end l ++ w.
Proof.
  destruct (trim_rev_suffix (rev l)) as [w Hw]. exists (rev w). unfold trim_end.
  by rewrite <-rev_app_distr, <-Hw, rev_involutive.
Qed.
Lemma trim_end_newline l : trim_end (l ++ [x0a]) = trim_end l.
Proof. unfold trim_end. by rewrite rev_app_distr. Qed.
Lemma trim_rev_brace l : trim_rev (x7d :: l) = x7d :: l.
Proof.
  cbn [trim_rev]. assert (space1 x7d = false) as -> by by vm_compute.
  destruct l as [|b [|c l]]; [done| |].
  - assert (space2 x7d b = false) as -> by by vm_compute. done.
  - assert (space2 x7d b = false) as -> by by vm_compute.
    assert (space3 x7d b c = false) as ->; [|done]. unfold space3. rewrite !(bool_decide_eq_false_2 ([_; _; _] = _)) by done. done.
Qed.
Lemma trim_end_brace l : last l = Some x7d → trim_end l = l.
Proof.
  intros Hl. apply last_Some in Hl as [k ->]. unfold trim_end. rewrite rev_app_distr.
  change (rev [x7d] ++ rev k) with (x7d :: rev k). rewrite trim_rev_brace. cbn. by rewrite rev_involutive.
Qed.

Section Log.
Context `{ManifestJsonLaws}.

(** ** The log of a list of bindings *)
Definition line_of (x : CacheKey * list BlockId) : bytes :=
  match json_of_binding x.1 x.2 with inl l => l | inr _ => [] end.
Definition log_text (bs : list (CacheKey * list BlockId)) : bytes := concat ((λ x, line_of x ++ [x0a]) <$> bs).
Definition log_map (bs : list (CacheKey * list BlockId)) (m : gmap CacheKey (list BlockId)) :=
  foldl (λ m x, <[x.1 := x.2]> m) m bs.

Lemma line_of_ok x : line_ok x.1 x.2 (line_of x).
Proof. destruct (manifest_json x.1 x.2) as [l Hl]. unfold line_of. by rewrite (lo_json _ _ _ Hl). Qed.

Lemma log_text_app bs cs : log_text (bs ++ cs) = log_text bs ++ log_text cs.
Proof. unfold log_text. by rewrite fmap_app, concat_app. Qed.

(** Replaying the log, then whatever follows the last line break. *)
Lemma replay_log bs rest m n :
  manifest_replay (split_inclusive (log_text bs ++ rest)) m n =
  manifest_replay (split_inclusive rest) (log_map bs m) (n + zlen (log_text bs)).
Proof.
  revert m n. induction bs as [|x bs IH]; intros m n.
  - cbn. by rewrite Z.add_0_r.
  - cbn [log_text fmap list_fmap concat]. change (concat _) with (log_text bs). rewrite <-!app_assoc. cbn [app].
    destruct (line_of_ok x) as [_ Hn Hu Hl Hp _ _]. rewrite split_line by done. cbn [manifest_replay].
    rewrite valid_utf8_app, trim_end_newline, trim_end_brace, Hp, IH by done.
    unfold log_map at 2. cbn [foldl]. f_equal. zl.
Qed.

Lemma split_rest t : x0a ∉ t → split_inclusive t = match t with [] => [] | _ => [t] end.
Proof.
  intros Ht. destruct t as [|b t]; [done|].
  assert (∀ cur t', x0a ∉ t' → split_inclusive_from cur t' = match rev cur ++ t' with [] => [] | s => [s] end) as Hg.
  { clear. intros cur t'. revert cur. induction t' as [|b t' IH]; intros cur Hn; cbn.
    - rewrite app_nil_r. destruct cur as [|c cur]; [done|]. cbn. by destruct (rev cur ++ [c]) eqn:E;
        [apply app_eq_nil in E as [_ ?]|].
    - apply not_elem_of_cons in Hn as [Hb Hn]. rewrite bool_decide_eq_false_2 by done.
      rewrite IH by done. cbn. by rewrite <-app_assoc. }
  unfold split_inclusive. by rewrite Hg.
Qed.

(** A truncated line, in ASCII, is dropped; a whole one is read even without
    its line break. *)
Lemma replay_torn x k m n :
  Forall (λ b, ascii_byte b = true) (line_of x) → (k < length (line_of x))%nat →
  manifest_replay (split_inclusive (take k (line_of x))) m n = Ok (m, n).
Proof.
  intros Ha Hk. destruct (line_of_ok x) as [_ Hn _ _ _ Ht _].
  rewrite split_rest by (intros (i & Hi & _)%elem_of_take; by eapply Hn, list_elem_of_lookup_2).
  destruct (take k (line_of x)) as [|b t] eqn:E; [done|]. cbn [manifest_replay].
  rewrite ascii_valid by (rewrite <-E; by apply Forall_take).
  destruct (trim_end_prefix (b :: t)) as [w Hw].
  rewrite (Ht _ (w ++ drop k (line_of x))); [done| |].
  - intros Hnil. apply app_eq_nil in Hnil as [_ Hd]. apply (f_equal length) in Hd. rewrite length_drop in Hd.
    cbn in Hd. lia.
  - by rewrite app_assoc, <-Hw, <-E, take_drop.
Qed.
Lemma replay_unended x m n :
  manifest_replay (split_inclusive (line_of x)) m n = Ok (<[x.1 := x.2]> m, n + zlen (line_of x)).
Proof.
  destruct (line_of_ok x) as [_ Hn Hu Hl Hp _ _]. rewrite split_rest by done.
  destruct (line_of x) as [|b l] eqn:E; [done|]. cbn [manifest_replay].
  rewrite Hu, trim_end_brace, Hp by done. done.
Qed.

(** ** Directories *)
Definition log_content (d : Dir) : bytes := default [] (dir_files d !! MANIFEST_LOG).
(** The log is whole lines, and memory is their replay. *)
Definition log_clean (m : PrefixManifest) (d : Dir) : Prop :=
  ∃ bs, log_content d = log_text bs ∧ mf_map m = log_map bs ∅.
(** The same, but the last line has lost its line break. *)
Definition log_unended (m : PrefixManifest) (d : Dir) : Prop :=
  ∃ bs x, log_content d = log_text bs ++ line_of x ∧ mf_map m = log_map (bs ++ [x]) ∅.

Lemma manifest_open_replay d map n :
  manifest_replay (split_inclusive (log_content d)) ∅ 0 = Ok (map, n) →
  ∃ d', manifest_open (reopened d) = (d', Ok (MkManifest map)) ∧ log_content d' = take (Z.to_nat n) (log_content d).
Proof.
  intros Hr. destruct d as [fs plan]. unfold log_content in *. cbn [dir_files] in *.
  eexists (MkDir (<[MANIFEST_LOG := take (Z.to_nat n) (default [] (fs !! MANIFEST_LOG))]> fs) []).
  split; [|by cbn; rewrite lookup_insert_eq].
  unfold manifest_open, reopened, mbind, ST_bind, fs_create_dir, dir_op. cbn [dir_plan dir_files tail].
  rewrite fs_open_append_ok, fs_read_ok by done. cbn [dir_files]. rewrite lookup_insert_eq. unfold st_lift. rewrite Hr.
  unfold fs_set_len, dir_op. cbn [dir_plan dir_files tail]. by rewrite alter_insert_eq.
Qed.

Lemma open_clean m d : log_clean m d → ∃ d', manifest_open (reopened d) = (d', Ok m) ∧ log_clean m d'.
Proof.
  intros (bs & Hc & Hm). destruct (manifest_open_replay d (log_map bs ∅) (zlen (log_text bs))) as (d' & E & Hd).
  { rewrite Hc, <-(app_nil_r (log_text bs)), replay_log. cbn. by rewrite app_nil_r. }
  exists d'. destruct m as [map]. cbn in Hm. subst map. split; [done|]. exists bs. split; [|done].
  rewrite Hd, Hc. unfold zlen. by rewrite Nat2Z.id, firstn_all.
Qed.

Lemma open_unended m d : log_unended m d → ∃ d', manifest_open (reopened d) = (d', Ok m) ∧ log_unended m d'.
Proof.
  intros (bs & x & Hc & Hm).
  destruct (manifest_open_replay d (log_map (bs ++ [x]) ∅) (zlen (log_text bs ++ line_of x))) as (d' & E & Hd).
  { rewrite Hc, replay_log, replay_unended. unfold log_map. rewrite foldl_app, zlen_app. cbn. done. }
  exists d'. destruct m as [map]. cbn in Hm. subst map. split; [done|]. exists bs, x. split; [|done].
  rewrite Hd, Hc. unfold zlen. by rewrite Nat2Z.id, firstn_all.
Qed.

(** What the writes of one bind leave. *)
Lemma write_line l d :
  let '(d', r) := (fs_write MANIFEST_LOG l ≫= λ _, fs_write MANIFEST_LOG [x0a] ≫= λ _, fs_sync MANIFEST_LOG) d in
  (r = Ok () ∧ log_content d' = log_content d ++ l ++ [x0a]) ∨
  (∃ e, r = Err e ∧
     ((∃ k, (k < length l)%nat ∧ log_content d' = log_content d ++ take k l) ∨
      log_content d' = log_content d ++ l ∨ log_content d' = log_content d ++ l ++ [x0a])).
Proof.
  unfold mbind, ST_bind, fs_write, fs_sync, log_content.
  fs_case.
  { right. eexists. split; [done|]. rewrite lookup_insert_eq. destruct (decide (k < length l)%nat).
    - left. by exists k.
    - right. left. by rewrite take_ge by lia. }
  fs_case.
  { right. eexists. split; [done|]. right. rewrite !lookup_insert_eq. cbn [default id].
    destruct k as [|k]; cbn; [left; by rewrite app_nil_r|right; by rewrite take_nil, <-app_assoc]. }
  fs_case; rewrite !lookup_insert_eq; cbn [default id]; rewrite <-app_assoc; [right|by left].
  eexists. split; [done|]. by do 2 right.
Qed.

Lemma clean_snoc m d d' x :
  log_clean m d → log_content d' = log_content d ++ line_of x ++ [x0a] →
  log_clean (MkManifest (<[x.1 := x.2]> (mf_map m))) d'.
Proof.
  intros (bs & Hc & Hm) Hd. exists (bs ++ [x]). rewrite Hd, Hc, log_text_app. split.
  - cbn. by rewrite app_nil_r.
  - cbn. unfold log_map. by rewrite foldl_app, Hm.
Qed.
End Log.

(** ** Properties *)
Section ManifestTheorems.
Context `{ManifestJsonLaws}.


(** After such a failure and a restart, the next bind is acknowledged, but its
    text joins the unended line: a second restart loses both. *)
Theorem acknowledged_binding_lost bs x key blocks m d :
  log_content d = log_text bs ++ line_of x → mf_map m = log_map (bs ++ [x]) ∅ → dir_plan d = [] →
  ∃ m' d', manifest_bind key blocks (m, d) = ((m', d'), Ok ()) ∧
    ∃ d'' m2, manifest_open (reopened d') = (d'', Ok m2) ∧ mf_map m2 = log_map bs ∅.
Proof.
  intros Hc Hm Hp. unfold manifest_bind.
  pose proof (line_of_ok (key, blocks)) as Hl. pose proof (lo_json _ _ _ Hl) as Ej. cbn [fst snd] in Ej. rewrite Ej.
  set (l := line_of (key, blocks)) in *.
  destruct ((fs_write MANIFEST_LOG l ≫= λ _, fs_write MANIFEST_LOG [x0a] ≫= λ _, fs_sync MANIFEST_LOG) d)
    as [d' r] eqn:Ew.
  assert (r = Ok () ∧ log_content d' = log_content d ++ l ++ [x0a]) as [-> Hd].
  { destruct d as [fs plan]. cbn in Hp. subst plan. unfold mbind, ST_bind, fs_write, fs_sync, dir_op in Ew.
    cbn in Ew. simplify_eq. split; [done|]. unfold log_content. cbn. by rewrite !lookup_insert_eq; cbn; rewrite <-app_assoc. }
  eexists _, d'. split; [done|].
  destruct (line_of_ok x) as [Hx1 Hx2 Hx3 Hx4 Hx5 Hx6 Hx7].
  destruct (manifest_open_replay d' (log_map bs ∅) (zlen (log_text bs))) as (d'' & Eo & _); [|eauto].
  rewrite Hd, Hc, <-app_assoc, replay_log, Z.add_0_l, app_assoc.
  assert (x0a ∉ line_of x ++ l) as Hn by (rewrite elem_of_app; intros [?|?]; [done|by apply (lo_line _ _ _ Hl)]).
  rewrite (split_line _ []) by done. cbn [manifest_replay].
  rewrite trim_end_newline, trim_end_brace by (rewrite last_app, (lo_last _ _ _ Hl); done).
  rewrite (Hx7 key blocks) by done.
  assert (valid_utf8 ((line_of x ++ l) ++ [x0a]) = true) as ->; [|done].
  apply valid_utf8_app; [|done]. apply valid_utf8_app; [done|apply (lo_utf8 _ _ _ Hl)].
Qed.

(** A line cut inside a multi-byte character keeps the manifest from opening. *)
Theorem torn_character_blocks_open bs x k d :
  log_content d = log_text bs ++ take k (line_of x) → valid_utf8 (take k (line_of x)) = false →
  ∃ d' message, manifest_open (reopened d) = (d', Err (IoError KInvalidData message)).
Proof.
  intros Hc Hu. destruct (line_of_ok x) as [_ Hn _ _ _ _ _]. destruct d as [fs plan]. unfold log_content in Hc.
  cbn [dir_files] in Hc.
  unfold manifest_open, reopened, mbind, ST_bind, fs_create_dir, dir_op. cbn [dir_plan dir_files tail].
  rewrite fs_open_append_ok, fs_read_ok by done. cbn [dir_files]. rewrite lookup_insert_eq, Hc, replay_log. unfold st_lift.
  rewrite split_rest by (intros (i & Hi & _)%elem_of_take; by eapply Hn, list_elem_of_lookup_2).
  destruct (take k (line_of x)) as [|b t] eqn:E; [done|]. cbn [manifest_replay]. rewrite Hu. eauto.
Qed.

(** [longest_prefix] answers the deepest key reachable from the root
    through bound keys: the chain splits into bound keys, the answer being the
    last of them with its blocks, and a rest that is empty or starts with an
    unbound key. *)
Theorem longest_prefix_is_deepest chain m :
  ∃ bound rest, chain = bound ++ rest ∧
    Forall (λ k, is_Some (manifest_lookup k m)) bound ∧
    (∀ k, head rest = Some k → manifest_lookup k m = None) ∧
    longest_prefix chain m = (last bound ≫= λ k, pair k <$> manifest_lookup k m).
Proof.
  unfold longest_prefix, manifest_lookup.
  assert (∀ best, ∃ bound rest, chain = bound ++ rest ∧
    Forall (λ k, is_Some (mf_map m !! k)) bound ∧ (∀ k, head rest = Some k → mf_map m !! k = None) ∧
    probe (mf_map m) best chain =
      match last bound with None => best | Some k => pair k <$> mf_map m !! k end) as Hg.
  { induction chain as [|key chain IH]; intros best; cbn [probe]; [by exists [], []|].
    destruct (mf_map m !! key) as [blocks|] eqn:E.
    - destruct (IH (Some (key, blocks))) as (bound & rest & -> & Hf & Hr & ->). exists (key :: bound), rest.
      split_and!; [done|by constructor; eauto|done|]. rewrite last_cons. destruct (last bound); [done|by rewrite E].
    - exists [], (key :: chain). split_and!; [done|done| |done]. by intros k [= <-]. }
  destruct (Hg None) as (bound & rest & ? & ? & ? & ->). by exists bound, rest.
Qed.
End ManifestTheorems.

(** ** Witness *)
Module ManifestExamples.
Definition toy_manifest_json : ManifestJson := {|
  json_of_binding k b := inl (toy_enc (k, b) ++ [x7d]);
  binding_of_json l := match rev l with x7d :: k => toy_dec (rev k) | _ => None end |}.
#[local] Existing Instance toy_manifest_json.

Lemma bits_ascii p : Forall (λ b, ascii_byte b = true) (bits_bytes p).
Proof. induction p; cbn; by constructor. Qed.
Lemma bits_digit p : x7d ∉ bits_bytes p.
Proof. induction p; cbn; set_solver. Qed.
Lemma bytes_bits_digits l p : bytes_bits l = Some p → x7d ∉ l.
Proof.
  revert p. induction l as [|b l IH]; intros p Hl; [set_solver|]. apply not_elem_of_cons.
  destruct b; cbn in Hl; try done; split; try done;
    destruct (bytes_bits l) as [q|] eqn:E; try done; by apply (IH q).
Qed.
Lemma toy_line_ascii (k : CacheKey) (b : list BlockId) : Forall (λ b, ascii_byte b = true) (toy_enc (k, b) ++ [x7d]).
Proof. apply Forall_app. split; [apply bits_ascii|by constructor]. Qed.

Lemma parse_brace l : binding_of_json (l ++ [x7d]) = toy_dec l.
Proof. unfold binding_of_json, toy_manifest_json. rewrite rev_app_distr. cbn [rev app]. by rewrite rev_involutive. Qed.

Lemma toy_manifest_json_laws : ManifestJsonLaws.
Proof.
  intros k b. exists (toy_enc (k, b) ++ [x7d]). constructor.
  - done.
  - rewrite elem_of_app. intros [Hi|Hi]; [by apply bits_bytes_no_newline in Hi|set_solver].
  - apply ascii_valid, toy_line_ascii.
  - apply last_snoc.
  - by rewrite parse_brace, toy_dec_enc.
  - intros p x Hx Hl. unfold binding_of_json, toy_manifest_json. destruct (rev p) as [|c q] eqn:E; [done|].
    assert (p = rev q ++ [c]) as -> by (rewrite <-(rev_involutive p), E; done).
    destruct (decide (c = x7d)) as [->|Hc]; [|by destruct c].
    exfalso. apply (bits_digit (encode (k, b))).
    destruct x as [|y x _] using rev_ind; [done|]. rewrite <-app_assoc in Hl.
    change (toy_enc (k, b) ++ [x7d] = rev q ++ [x7d] ++ x ++ [y]) in Hl.
    rewrite !app_assoc in Hl. apply app_inj_tail in Hl as [Hl _]. unfold toy_enc in Hl. rewrite Hl.
    rewrite !elem_of_app. left. right. by left.
  - intros k' b' l' [= <-]. rewrite app_assoc, parse_brace. unfold toy_dec. destruct (bytes_bits _) as [p|] eqn:E; [|done]. exfalso. apply bytes_bits_digits in E.
    apply E. rewrite !elem_of_app. left. right. by left.
Qed.

Definition empty_manifest : PrefixManifest := MkManifest ∅.
(** The device fails the sync after the text and its line break. *)
Definition sync_fails : Dir := MkDir ∅ [None; None; Some 0%nat].

End ManifestExamples.
