(* ===== verification/Scrub.v ===== *)
(** * Offline segment inspection ([crates/kalpak-storage/src/scrub.rs])

    A sweep over every segment file with a checkpoint after every record, so
    that an interrupted sweep can be resumed.  The files are in the directory
    model of [Durability]; the state is the findings reported, the bytes read
    by this run and the directory.  [verdict] is the judgement on one offset
    of a file's bytes, shared with the online scrubber.  Pacing (sleeps) is
    left out.  The hasher is the bytes it was fed, hashed at the end. *)

From stdpp Require Import pretty.
From S2P Require Import Prelude Core Durability Segment.
From Stdlib Require Import Strings.Byte.
Open Scope Z_scope.

Record ScrubFinding := MkFinding {
  fi_segment : string;
  fi_offset : Z;
  fi_kind : string;
  fi_block : option BlockId }.
Record ScrubSummary := MkSummary {
  records_verified : Z;
  su_findings : Z;
  su_bytes_read : Z;
  complete : bool }.
Record Progress := MkProgress {
  pr_version : Z;
  pr_manifest : string;
  pr_segment : Z;
  pr_offset : Z;
  pr_summary : ScrubSummary }.

(** The dev:ino and mtime of a file, as text: writers are stopped, so it
    depends on nothing that changes during a sweep. *)
Class FileStamp := stamp_of : string → bytes → string.

(** [serde_json] at the types of the checkpoint, and of the layout. *)
Class ScrubJson := {
  json_of_layout : list (string * (Z * string)) → bytes + string;
  json_of_progress : Progress → bytes + string;
  json_of_saved : string → Progress → bytes + string;
  saved_of_json : bytes → (string * Progress) + string }.
Class ScrubJsonLaws `{ScrubJson} := {
  layout_json : ∀ l, ∃ x, json_of_layout l = inl x;
  progress_json : ∀ p, ∃ x, json_of_progress p = inl x;
  saved_json : ∀ c p, ∃ x, json_of_saved c p = inl x ∧ saved_of_json x = inl (c, p) }.

Definition PROGRESS_FILE : string := "scrub-progress.json".
Definition PROGRESS_PENDING : string := "scrub-progress.pending".
Definition CHUNK : Z := 64 * 1024.

(** ** Segment names *)
Definition starts_with (p l : bytes) : bool := bool_decide (take (length p) l = p).
Definition ends_with (p l : bytes) : bool := bool_decide (drop (length l - length p) l = p) && (zlen p <=? zlen l).
Definition strip_prefix (p l : bytes) : option bytes := if starts_with p l then Some (drop (length p) l) else None.
Definition strip_suffix (p l : bytes) : option bytes := if ends_with p l then Some (take (length l - length p) l) else None.

(** [str::parse::<u32>]: an optional plus sign and digits. *)
Fixpoint decimal (acc : Z) (l : bytes) : option Z :=
  match l with
  | [] => Some acc
  | b :: l =>
      let d := byte_Z b - 48 in
      if (0 <=? d) && (d <=? 9) then decimal (acc * 10 + d) l else None
  end.
Definition parse_u32 (l : bytes) : option Z :=
  match (match l with x2b :: l => l | _ => l end) with
  | [] => None
  | digits => n ← decimal 0 digits; if n <=? u32_max then Some n else None
  end.

Definition SEG : bytes := str_bytes "seg-".
Definition KLPK : bytes := str_bytes ".klpk".
(** [format!("seg-{id:08}.klpk")]. *)
Definition seg_name (id : Z) : string :=
  let digits := str_bytes (pretty (Z.to_N id)) in
  String.string_of_list_byte (SEG ++ replicate (8 - length digits) x30 ++ digits ++ KLPK).
Definition is_segment (name : string) : bool :=
  starts_with SEG (str_bytes name) && ends_with KLPK (str_bytes name).
Definition segment_id (name : string) : option Z :=
  n ← strip_prefix SEG (str_bytes name); n ← strip_suffix KLPK n; parse_u32 n.

(** The names of a listing, by number; [files.sort()] orders the pairs, whose
    names are determined by the numbers. *)
Fixpoint segment_ids (names : list string) (acc : list Z) : res io_error (list Z) :=
  match names with
  | [] => Ok acc
  | name :: names =>
      if is_segment name then
        match segment_id name with
        | None => Err (io_other "invalid segment filename")
        | Some id =>
            if bool_decide (name = seg_name id) then
              if 65536 <? zlen (acc ++ [id]) then Err (io_other "scrub segment limit exceeded")
              else segment_ids names (acc ++ [id])
            else Err (io_other "noncanonical segment filename")
        end
      else segment_ids names acc
  end.
Definition sort_files (ids : list Z) : list string := seg_name <$> merge_sort Z.le ids.

(** ** The judgement on one offset *)
Definition reserved_clear (header : bytes) : bool := forallb (λ b, bool_decide (b = x00)) (zslice header 48 16).
(** Header and payload, rounded up, with overflow checked. *)
Definition padded (payload_len : Z) : option Z :=
  n ← checked_add64 payload_len HEADER_LEN;
  n ← checked_add64 n (BLOCK_ALIGN - 1);
  Some (n / BLOCK_ALIGN * BLOCK_ALIGN).

Record Verdict := MkVerdict { v_bad : option string; v_block : option BlockId; v_next : Z }.

Section Verdict.
Context `{Blake3}.

Definition verdict (c : bytes) (offset : Z) : Verdict :=
  let next := saturating_add64 offset BLOCK_ALIGN in
  if zlen c - offset <? HEADER_LEN then MkVerdict (Some "truncated_header") None next
  else
    let header := zslice c offset HEADER_LEN in
    match parse_header header with
    | None => MkVerdict (Some "invalid_header") None next
    | Some rec =>
        let block := Some (hdr_id rec) in
        if negb (reserved_clear header) then MkVerdict (Some "invalid_reserved_header") block next
        else
          match padded (hdr_payload_len rec) with
          | None => MkVerdict (Some "length_overflow") block next
          | Some total =>
              if zlen c - offset <? total then MkVerdict (Some "truncated_or_invalid_length") block next
              else if block_verify (hdr_id rec) (zslice c (offset + HEADER_LEN) (hdr_payload_len rec)) then
                MkVerdict None block (offset + total)
              else MkVerdict (Some "payload_hash_mismatch") block next
          end
    end.

(** All offsets visited, with their verdicts; the fuel is the file's length in
    4 KiB units, rounded up, since every step advances by one or more. *)
Fixpoint sweep (fuel : nat) (c : bytes) (offset : Z) : list (Z * Verdict) :=
  match fuel with
  | O => []
  | S fuel =>
      if offset <? zlen c then
        let v := verdict c offset in (offset, v) :: sweep fuel c (v_next v)
      else []
  end.
Definition sweep_fuel (length_ : Z) : nat := S (Z.to_nat (length_ / BLOCK_ALIGN)).
End Verdict.

Section Scrub.
Context `{Blake3, Hex, HashOrder, FileStamp, ScrubJson}.

(** ** The run *)
Abbreviation SM := (ST (list ScrubFinding * Z * Dir) io_error).
Definition on_dir {A} (m : FS A) : SM A := λ '(reports, read, d),
  let (d, r) := m d in ((reports, read, d), r).
Definition other_err {A} (x : A + string) : SM A :=
  st_lift (match x with inl a => Ok a | inr message => Err (io_other message) end).

Definition fs_names : FS (list string) := dir_op (λ m, (m, Ok (hash_order (fst <$> map_to_list m)))) unchanged.
Definition fs_open_read (name : string) : FS () :=
  dir_op (λ m, (m, match m !! name with
                   | Some _ => Ok ()
                   | None => Err (IoError KNotFound "no such file")
                   end)) unchanged.
(** [SegmentFile::read_at]: all the bytes or an error. *)
Definition fs_read_at (name : string) (offset n : Z) : FS bytes :=
  dir_op (λ m, (m, match m !! name with
                   | Some c =>
                       if offset + n <=? zlen c then Ok (zslice c offset n)
                       else Err (IoError KUnexpectedEof "failed to fill whole buffer")
                   | None => Err (IoError KNotFound "no such file")
                   end)) unchanged.
Definition stamp (name : string) : FS (Z * string) :=
  dir_op (λ m, (m, match m !! name with
                   | Some c => Ok (zlen c, stamp_of name c)
                   | None => Err (IoError KNotFound "no such file")
                   end)) unchanged.

Definition hex_hash (l : bytes) : string := block_display (block_of l).

Definition checkpoint (progress : Progress) : SM () :=
  other_err (json_of_progress progress) ≫= λ encoded,
  other_err (json_of_saved (hex_hash encoded) progress) ≫= λ bytes_,
  on_dir (replace PROGRESS_FILE PROGRESS_PENDING bytes_).

(** [Reader::read]. *)
Definition reader_read (name : string) (offset n : Z) : SM bytes := λ '(reports, read, d),
  match fs_read_at name offset n d with
  | (d, Ok l) => ((reports, saturating_add64 read n, d), Ok l)
  | (d, r) => ((reports, read, d), r)
  end.

(** [report], the caller's callback, which may fail. *)
Definition report (f : ScrubFinding) : SM () := λ '(reports, read, d),
  match dir_op (λ m, (m, Ok ())) unchanged d with
  | (d, Ok _) => ((reports ++ [f], read, d), Ok ())
  | (d, r) => ((reports, read, d), r)
  end.

(** The payload in chunks, fed to the hasher. *)
Fixpoint hash_payload (fuel : nat) (name : string) (base len read : Z) (acc : bytes) : SM bytes :=
  match fuel with
  | O => st_lift Panic
  | S fuel =>
      if read <? len then
        let count := Z.min (len - read) CHUNK in
        reader_read name (base + read) count ≫= λ l,
        hash_payload fuel name base len (read + count) (acc ++ l)
      else mret acc
  end.
Definition chunk_fuel (len : Z) : nat := S (S (Z.to_nat (len / CHUNK))).

(** The inspection of the record at [offset]. *)
Definition inspect (name : string) (length_ offset : Z) : SM Verdict :=
  let next := saturating_add64 offset BLOCK_ALIGN in
  if length_ - offset <? HEADER_LEN then
    reader_read name offset (length_ - offset) ≫= λ _,
    mret (MkVerdict (Some "truncated_header") None next)
  else
    reader_read name offset HEADER_LEN ≫= λ header,
    match parse_header header with
    | None => mret (MkVerdict (Some "invalid_header") None next)
    | Some rec =>
        let block := Some (hdr_id rec) in
        if negb (reserved_clear header) then mret (MkVerdict (Some "invalid_reserved_header") block next)
        else
          match padded (hdr_payload_len rec) with
          | None => mret (MkVerdict (Some "length_overflow") block next)
          | Some total =>
              if length_ - offset <? total then
                mret (MkVerdict (Some "truncated_or_invalid_length") block next)
              else
                hash_payload (chunk_fuel (hdr_payload_len rec)) name (offset + HEADER_LEN)
                  (hdr_payload_len rec) 0 [] ≫= λ payload,
                mret (if block_verify (hdr_id rec) payload then MkVerdict None block (offset + total)
                      else MkVerdict (Some "payload_hash_mismatch") block next)
          end
    end.

Definition unchanged_stamp (name : string) (expected : Z * string) : SM () :=
  on_dir (stamp name) ≫= λ now,
  if bool_decide (now = expected) then mret ()
  else st_throw (io_other "segment changed during offline scrub").

(** What one record adds to the progress. *)
Definition advance_progress (p : Progress) (v : Verdict) (bytes_read : Z) : Progress :=
  let s := pr_summary p in
  MkProgress (pr_version p) (pr_manifest p) (pr_segment p) (v_next v)
    (match v_bad v with
     | None => MkSummary (saturating_add64 (records_verified s) 1) (su_findings s) bytes_read (complete s)
     | Some _ => MkSummary (records_verified s) (saturating_add64 (su_findings s) 1) bytes_read (complete s)
     end).

Definition read_so_far : SM Z := λ '(reports, read, d), ((reports, read, d), Ok read).

(** The inner loop. *)
Fixpoint scrub_segment (fuel : nat) (name : string) (expected : Z * string) (initial_bytes : Z)
    (p : Progress) : SM Progress :=
  match fuel with
  | O => st_lift Panic
  | S fuel =>
      if pr_offset p <? expected.1 then
        unchanged_stamp name expected ≫= λ _,
        inspect name expected.1 (pr_offset p) ≫= λ v,
        unchanged_stamp name expected ≫= λ _,
        match v_bad v with
        | Some kind => report (MkFinding name (pr_offset p) kind (v_block v))
        | None => mret ()
        end ≫= λ _,
        read_so_far ≫= λ read,
        let p := advance_progress p v (saturating_add64 initial_bytes read) in
        checkpoint p ≫= λ _,
        scrub_segment fuel name expected initial_bytes p
      else mret p
  end.

Definition next_segment (p : Progress) : Progress :=
  MkProgress (pr_version p) (pr_manifest p) (pr_segment p + 1) 0 (pr_summary p).

(** The outer loop, over the files from [progress.segment] on. *)
Fixpoint scrub_files (rest : list (string * (Z * string))) (initial_bytes : Z) (p : Progress) : SM Progress :=
  match rest with
  | [] => mret p
  | (name, expected) :: rest =>
      on_dir (fs_open_read name) ≫= λ _,
      scrub_segment (S (sweep_fuel expected.1)) name expected initial_bytes p ≫= λ p,
      checkpoint (next_segment p) ≫= λ _,
      scrub_files rest initial_bytes (next_segment p)
  end.

Fixpoint stamp_all (names : list string) : FS (list (string * (Z * string))) :=
  match names with
  | [] => mret []
  | name :: names => stamp name ≫= λ s, stamp_all names ≫= λ l, mret ((name, s) :: l)
  end.
Fixpoint all_unchanged (layout : list (string * (Z * string))) : SM () :=
  match layout with
  | [] => mret ()
  | (name, expected) :: layout => unchanged_stamp name expected ≫= λ _, all_unchanged layout
  end.

Definition fresh_progress (manifest : string) : Progress := MkProgress 1 manifest 0 0 (MkSummary 0 0 0 false).

(** The saved progress, if there is any. *)
Definition load_progress : SM (option Progress) := λ s,
  match on_dir (fs_read PROGRESS_FILE) s with
  | (s, Ok bytes_) =>
      (other_err (saved_of_json bytes_) ≫= λ '(checksum, progress),
       other_err (json_of_progress progress) ≫= λ encoded,
       if bool_decide (hex_hash encoded = checksum) then mret (Some progress)
       else st_throw (io_other "scrub checkpoint checksum mismatch")) s
  | (s, Err e) => if bool_decide (io_kind_of e = KNotFound) then (s, Ok None) else (s, Err e)
  | (s, Panic) => (s, Panic)
  end.

Definition progress_mismatch (layout : list (string * (Z * string))) (manifest : string) (p : Progress) : bool :=
  negb (pr_version p =? 1) || negb (bool_decide (pr_manifest p = manifest)) ||
  (zlen layout <? pr_segment p) || negb (pr_offset p mod BLOCK_ALIGN =? 0) ||
  match layout !! Z.to_nat (pr_segment p) with
  | Some (_, (len, _)) => saturating_add64 len BLOCK_ALIGN <? pr_offset p
  | None => false
  end ||
  complete (pr_summary p) && (negb (pr_segment p =? zlen layout) || negb (pr_offset p =? 0)).

Definition set_complete (p : Progress) : Progress :=
  MkProgress (pr_version p) (pr_manifest p) (pr_segment p) (pr_offset p)
    (MkSummary (records_verified (pr_summary p)) (su_findings (pr_summary p)) (su_bytes_read (pr_summary p)) true).

Definition scrub (rate : Z) (restart : bool) : SM ScrubSummary :=
  if negb ((1024 * 1024 <=? rate) && (rate <=? 1024 * 1024 * 1024)) then
    st_throw (io_other "scrub rate must be 1..=1024 MiB/s")
  else
    on_dir fs_names ≫= λ names,
    st_lift (segment_ids names []) ≫= λ ids,
    if bool_decide (ids = []) then st_throw (io_other "no segment files found")
    else
      on_dir (stamp_all (sort_files ids)) ≫= λ layout,
      other_err (json_of_layout layout) ≫= λ text,
      let manifest := hex_hash text in
      (if restart then mret None else load_progress) ≫= λ saved,
      let p := default (fresh_progress manifest) saved in
      if progress_mismatch layout manifest p then
        st_throw (io_other "scrub checkpoint/layout mismatch; stop writers and use --restart for a new sweep")
      else if complete (pr_summary p) then mret (pr_summary p)
      else
        checkpoint p ≫= λ _,
        scrub_files (drop (Z.to_nat (pr_segment p)) layout) (su_bytes_read (pr_summary p)) p ≫= λ p,
        all_unchanged layout ≫= λ _,
        on_dir fs_names ≫= λ names,
        if negb (Z.of_nat (length (filter (λ n, is_segment n = true) names)) =? zlen layout) then
          st_throw (io_other "segment set changed during offline scrub")
        else
          checkpoint (set_complete p) ≫= λ _,
          mret (pr_summary (set_complete p)).

End Scrub.

Example seg_name_7 : seg_name 7 = "seg-00000007.klpk".
Proof. by vm_compute. Qed.
Example segment_id_12 : segment_id (seg_name 12) = Some 12 ∧ is_segment (seg_name 12) = true.
Proof. by vm_compute. Qed.
