(* ===== verification/ScrubTheorems.v ===== *)
(** * The sweeps agree with the reference

    Every visited offset gets its [verdict]; an interrupted offline sweep
    resumes from its checkpoint and misses nothing. *)

From stdpp Require Import pretty.
From S2P Require Import Prelude Core Durability Metadata Codecs Segment Scrub.
From Stdlib Require Import Strings.Byte.
Open Scope Z_scope.

#[local] Ltac Zify.zify_post_hook ::= Z.div_mod_to_equations.

(** ** Verdicts *)
Section Verdicts.
Context `{Blake3}.

Lemma padded_spec n total :
  0 ≤ n → padded n = Some total → n + HEADER_LEN ≤ total ∧ BLOCK_ALIGN ≤ total ∧ total mod BLOCK_ALIGN = 0.
Proof.
  intros Hn. unfold padded. intros Hp. destruct (checked_add64 n _) as [a|] eqn:Ea; [|done]. cbn in Hp.
  destruct (checked_add64 a _) as [b|] eqn:Eb; [|done]. injection Hp as <-.
  apply checked_add64_Some in Ea as [-> _]. apply checked_add64_Some in Eb as [-> _].
  unfold HEADER_LEN, BLOCK_ALIGN. rewrite Z.mod_mul by lia. lia.
Qed.

(** Sizes a file can have. *)
Definition fits (c : bytes) : Prop := zlen c ≤ MAX_PAYLOAD.

Lemma v_next_spec c off :
  fits c → 0 ≤ off < zlen c → off mod BLOCK_ALIGN = 0 →
  off + BLOCK_ALIGN ≤ v_next (verdict c off) < zlen c + BLOCK_ALIGN ∧ v_next (verdict c off) mod BLOCK_ALIGN = 0.
Proof.
  intros Hf Ho Hm. unfold fits, MAX_PAYLOAD in Hf.
  assert (saturating_add64 off BLOCK_ALIGN = off + BLOCK_ALIGN) as Es
    by (unfold saturating_add64, u64_max, BLOCK_ALIGN; lia).
  assert ((off + BLOCK_ALIGN) mod BLOCK_ALIGN = 0) as Ea by (unfold BLOCK_ALIGN in *; lia).
  assert (off + BLOCK_ALIGN ≤ off + BLOCK_ALIGN < zlen c + BLOCK_ALIGN ∧ (off + BLOCK_ALIGN) mod BLOCK_ALIGN = 0)
    as Hd by (split; [lia|done]).
  unfold verdict. rewrite Es. case_match; [done|]. destruct (parse_header _) as [rec|] eqn:Ep; [|done].
  pose proof (parse_header_len _ _ Ep). case_match; [done|]. destruct (padded _) as [total|] eqn:Et; [|done].
  apply padded_spec in Et as (Ht1 & Ht2 & Ht3); [|lia]. case_match eqn:El; [done|]. apply Z.ltb_ge in El.
  case_match; [|done]. cbn. unfold BLOCK_ALIGN in *. lia.
Qed.

Lemma sweep_stable c : fits c → ∀ f1 f2 off, 0 ≤ off → off mod BLOCK_ALIGN = 0 →
  zlen c - off ≤ BLOCK_ALIGN * Z.of_nat f1 → zlen c - off ≤ BLOCK_ALIGN * Z.of_nat f2 →
  sweep f1 c off = sweep f2 c off.
Proof.
  intros Hc f1. induction f1 as [|f1 IH]; intros f2 off H0 Hm H1 H2.
  - destruct f2; cbn; [done|]. by rewrite (proj2 (Z.ltb_ge _ _)) by lia.
  - destruct f2 as [|f2]; cbn [sweep].
    + by rewrite (proj2 (Z.ltb_ge _ _)) by lia.
    + case_match eqn:E; [|done]. apply Z.ltb_lt in E. f_equal.
      destruct (v_next_spec c off) as [Hn Ha]; [done|lia|done|]. apply IH; [unfold BLOCK_ALIGN in *; lia|done|lia..].
Qed.

(** The sweep from an offset, with all the fuel it needs. *)
Definition entries (c : bytes) (off : Z) : list (Z * Verdict) := sweep (sweep_fuel (zlen c)) c off.

Lemma sweep_fuel_enough (c : bytes) : zlen c ≤ BLOCK_ALIGN * Z.of_nat (sweep_fuel (zlen c)).
Proof.
  unfold sweep_fuel. pose proof (zlen_nonneg c).
  pose proof (Z.div_mod (zlen c) BLOCK_ALIGN ltac:(done)).
  pose proof (Z.mod_pos_bound (zlen c) BLOCK_ALIGN ltac:(done)).
  pose proof (Z.div_pos (zlen c) BLOCK_ALIGN ltac:(done) ltac:(done)). lia.
Qed.
Lemma entries_end c off : zlen c ≤ off → entries c off = [].
Proof. intros. unfold entries, sweep_fuel. cbn. by rewrite (proj2 (Z.ltb_ge _ _)). Qed.
Lemma entries_step c off :
  fits c → 0 ≤ off < zlen c → off mod BLOCK_ALIGN = 0 →
  entries c off = (off, verdict c off) :: entries c (v_next (verdict c off)).
Proof.
  intros Hc Ho Hm. unfold entries at 1. unfold sweep_fuel. cbn [sweep].
  rewrite (proj2 (Z.ltb_lt _ _)) by lia. f_equal. destruct (v_next_spec c off) as [Hn Ha]; [done|lia|done|].
  pose proof (sweep_fuel_enough c) as He. unfold sweep_fuel in He.
  apply sweep_stable; [done|unfold BLOCK_ALIGN in *; lia|done|lia|]. pose proof (sweep_fuel_enough c). lia.
Qed.

(** What the verdicts mean: verified offsets hold a whole record whose payload
    has the hash it claims, and every other offset does not. *)
Definition sound_record (c : bytes) (off : Z) (id : BlockId) : Prop :=
  ∃ rec total, off + HEADER_LEN ≤ zlen c ∧ parse_header (zslice c off HEADER_LEN) = Some rec ∧ hdr_id rec = id ∧
    reserved_clear (zslice c off HEADER_LEN) = true ∧ padded (hdr_payload_len rec) = Some total ∧
    off + total ≤ zlen c ∧ block_of (zslice c (off + HEADER_LEN) (hdr_payload_len rec)) = id.

Lemma verdict_sound c off :
  v_bad (verdict c off) = None ↔ ∃ id, sound_record c off id.
Proof.
  unfold verdict, sound_record. case_match eqn:E1.
  { apply Z.ltb_lt in E1. split; [done|]. intros (id & rec & total & ? & _). lia. }
  apply Z.ltb_ge in E1. destruct (parse_header _) as [rec|] eqn:Ep; [|naive_solver].
  destruct (reserved_clear _) eqn:Er; cbn [negb]; [|naive_solver].
  destruct (padded _) as [total|] eqn:Et; [|naive_solver].
  case_match eqn:E2; [apply Z.ltb_lt in E2; split; [done|]; naive_solver lia|]. apply Z.ltb_ge in E2.
  case_match eqn:E3.
  - apply block_verify_spec in E3. split; [|done]. intros _. exists (hdr_id rec), rec, total. split_and!; (done || lia).
  - apply block_verify_false in E3. split; [done|]. intros (id & rec' & total' & ? & [= <-] & <- & ? & Et' & ? & ?). done.
Qed.

(** ** Segments the store wrote *)
Lemma padded_record_len n : 0 ≤ n ≤ MAX_PAYLOAD → padded n = Some (record_len n).
Proof.
  intros Hn. destruct (record_len_small n Hn) as [-> _]. unfold MAX_PAYLOAD in Hn. unfold padded.
  assert (checked_add64 n HEADER_LEN = Some (n + HEADER_LEN)) as ->
    by (apply checked_add64_Some; unfold u64_max, HEADER_LEN; lia).
  assert (checked_add64 (n + HEADER_LEN) (BLOCK_ALIGN - 1) = Some (n + HEADER_LEN + (BLOCK_ALIGN - 1))) as E
    by (apply checked_add64_Some; unfold u64_max, HEADER_LEN, BLOCK_ALIGN; lia).
  cbn [mbind option_bind]. rewrite E. cbn [mbind option_bind].
  pose proof (div_ceil_spec (HEADER_LEN + n) BLOCK_ALIGN ltac:(done)) as Hd. f_equal. f_equal.
  unfold HEADER_LEN, BLOCK_ALIGN in *. lia.
Qed.

Lemma reserved_encoded id p rest : reserved_clear (zslice (encode_record id p ++ rest) 0 HEADER_LEN) = true.
Proof.
  unfold reserved_clear. rewrite zslice_zslice by (unfold HEADER_LEN; lia). unfold encode_record. rewrite <-!app_assoc.
  rewrite zslice_cut by done. change (0 + 48 - zlen MAGIC) with 44.
  do 2 (rewrite zslice_cut by (rewrite zlen_le_bytes; lia); rewrite zlen_le_bytes).
  rewrite zslice_cut by (rewrite arr_zlen; lia). rewrite arr_zlen.
  change (44 - Z.of_nat 4 - Z.of_nat 8 - Z.of_nat 32) with 0. rewrite zslice_here by done. done.
Qed.

Definition judged (off : Z) (id : BlockId) (p : bytes) : Verdict :=
  if block_verify id p then MkVerdict None (Some id) (off + record_len (zlen p))
  else MkVerdict (Some "payload_hash_mismatch") (Some id) (off + BLOCK_ALIGN).

Lemma verdict_encoded pre id p rest :
  zlen p ≤ MAX_PAYLOAD → fits (pre ++ encode_record id p ++ rest) →
  verdict (pre ++ encode_record id p ++ rest) (zlen pre) = judged (zlen pre) id p.
Proof.
  intros Hp Hf. unfold fits in Hf. pose proof (zlen_encode_record id p Hp) as He.
  pose proof (zlen_nonneg p). pose proof (zlen_nonneg pre). pose proof (zlen_nonneg rest).
  destruct (record_len_small (zlen p)) as [_ Hr]; [lia|]. rewrite !zlen_app, He in Hf.
  unfold verdict, judged. rewrite !zlen_app, He, (proj2 (Z.ltb_ge _ _)) by (unfold HEADER_LEN in *; lia).
  rewrite zslice_cut, Z.sub_diag, parse_encoded by done || lia. cbn [hdr_id hdr_payload_len].
  rewrite reserved_encoded, padded_record_len by lia. cbn [negb]. rewrite (proj2 (Z.ltb_ge _ _)) by lia.
  rewrite zslice_cut by (unfold HEADER_LEN; lia). replace (zlen pre + HEADER_LEN - zlen pre) with HEADER_LEN by lia.
  destruct (encode_record_fields id p rest) as (_ & _ & _ & _ & ->). case_match; [done|].
  f_equal. unfold MAX_PAYLOAD, saturating_add64, u64_max, BLOCK_ALIGN, HEADER_LEN in *. lia.
Qed.

(** The entries of a run of records. *)
Fixpoint judged_all (off : Z) (recs : list (BlockId * bytes)) : list (Z * Verdict) :=
  match recs with
  | [] => []
  | (id, p) :: recs => (off, judged off id p) :: judged_all (off + record_len (zlen p)) recs
  end.
Definition intact (recs : list (BlockId * bytes)) : Prop := Forall (λ r, block_verify r.1 r.2 = true) recs.

Lemma record_len_aligned n : 0 ≤ n ≤ MAX_PAYLOAD → record_len n mod BLOCK_ALIGN = 0.
Proof. intros Hn. destruct (record_len_small n Hn) as [-> _]. by apply Z.mod_mul. Qed.

Lemma entries_records pre recs rest :
  intact recs → small recs → fits (pre ++ enc_all recs ++ rest) → zlen pre mod BLOCK_ALIGN = 0 →
  let c := pre ++ enc_all recs ++ rest in
  entries c (zlen pre) = judged_all (zlen pre) recs ++ entries c (zlen pre + zlen (enc_all recs)) ∧
  (zlen pre + zlen (enc_all recs)) mod BLOCK_ALIGN = 0.
Proof.
  intros Hi. revert pre. induction Hi as [|[id p] recs Hv _ IH]; intros pre Hs Hf Ha; cbn zeta.
  - cbn. by rewrite Z.add_0_r.
  - apply Forall_cons in Hs as [Hp Hs]. cbn [fst snd] in *. rewrite enc_all_cons in *.
    pose proof (zlen_encode_record id p Hp) as He. pose proof (zlen_nonneg p). pose proof (zlen_nonneg pre).
    pose proof (record_len_min (zlen p) ltac:(lia)) as Hm.
    assert (0 ≤ zlen pre < zlen (pre ++ (encode_record id p ++ enc_all recs) ++ rest)) as Hin.
    { rewrite !zlen_app, He. pose proof (zlen_nonneg (enc_all recs)). pose proof (zlen_nonneg rest).
      unfold BLOCK_ALIGN in *. lia. }
    rewrite <-app_assoc in *. rewrite entries_step, verdict_encoded by done. cbn [judged_all].
    destruct (IH (pre ++ encode_record id p)) as [IH1 IH2]; [done|by rewrite <-app_assoc| |].
    { rewrite zlen_app, He. rewrite Z.add_mod, Ha, record_len_aligned by (done || lia). done. }
    rewrite zlen_app, He in IH1, IH2. rewrite <-app_assoc in IH1.
    assert (v_next (judged (zlen pre) id p) = zlen pre + record_len (zlen p)) as -> by (unfold judged; by rewrite Hv).
    rewrite IH1. cbn [app]. rewrite zlen_app, He, Z.add_assoc. done.
Qed.
End Verdicts.

(** ** Runs under faults *)
Section Runs.
Context `{Blake3, Hex, HashOrderLaws, FileStamp, ScrubJsonLaws}.
Abbreviation post A := (A → list ScrubFinding → Z → gmap string bytes → Prop).
Abbreviation fail := (list ScrubFinding → gmap string bytes → Prop).

(** [q] says that the device was responsive from the start; then nothing
    fails.  [Q] holds after success and [E] after failure. *)
Definition wp (q : Prop) {A} (m : ST (list ScrubFinding * Z * Dir) io_error A)
    (s : list ScrubFinding * Z * Dir) (Q : post A) (E : fail) : Prop :=
  (q → dir_plan s.2 = []) →
  match m s with
  | ((reports, read, d), Ok a) => (q → dir_plan d = []) ∧ Q a reports read (dir_files d)
  | ((reports, read, d), Err _) => ¬ q ∧ E reports (dir_files d)
  | (_, Panic) => False
  end.

Lemma sw_bind q {A B} (m : ST _ _ A) (f : A → ST _ _ B) s (Q : post B) (E : fail) :
  wp q m s (λ a reports read fs, ∀ d, dir_files d = fs → wp q (f a) (reports, read, d) Q E) E →
  wp q (m ≫= f) s Q E.
Proof.
  unfold wp, mbind, ST_bind. intros Hm Hq. specialize (Hm Hq).
  destruct (m s) as [[[reports read] d] [a|e|]]; [|done..]. destruct Hm as [Hp Hm]. by apply (Hm d eq_refl).
Qed.
Lemma sw_ret q {A} (a : A) reports read d (Q : post A) (E : fail) :
  Q a reports read (dir_files d) → wp q (mret a) (reports, read, d) Q E.
Proof. by intros HQ Hq. Qed.
Lemma wp_weaken q {A} (m : ST _ _ A) s (Q Q' : post A) (E E' : fail) :
  wp q m s Q E → (∀ a reports read fs, Q a reports read fs → Q' a reports read fs) →
  (∀ reports fs, E reports fs → E' reports fs) → wp q m s Q' E'.
Proof.
  unfold wp. intros Hm HQ HE Hq. specialize (Hm Hq).
  destruct (m s) as [[[reports read] d] [a|e|]]; [|naive_solver..]. destruct Hm. auto.
Qed.
Lemma wp_look q {A} (g : gmap string bytes → res io_error A) a reports read d (Q : post A) (E : fail) :
  g (dir_files d) = Ok a → Q a reports read (dir_files d) → E reports (dir_files d) →
  wp q (on_dir (dir_op (λ m, (m, g m)) unchanged)) (reports, read, d) Q E.
Proof.
  intros Hg HQ HE Hq. unfold on_dir. cbn [snd] in Hq.
  destruct (dir_op_cases (λ m, (m, g m)) unchanged d) as [(k & -> & Hne)|Ed].
  - cbn. split; [auto|done].
  - rewrite Ed. cbn. rewrite Hg. split; [|done]. intros Hqq. by rewrite (Hq Hqq).
Qed.

Lemma wp_on_dir_bind q {A B} (m : FS A) (f : A → FS B) s (Q : post B) (E : fail) :
  wp q (on_dir m) s (λ a reports read fs, ∀ d, dir_files d = fs → wp q (on_dir (f a)) (reports, read, d) Q E) E →
  wp q (on_dir (m ≫= f)) s Q E.
Proof.
  intros Hm%sw_bind Hq. specialize (Hm Hq). destruct s as [[reports read] d]. revert Hm.
  unfold on_dir, mbind, ST_bind. by destruct (m d) as [d' [a|e|]].
Qed.

Lemma wp_reader q name off n c reports read d (Q : post bytes) (E : fail) :
  dir_files d !! name = Some c → off + n ≤ zlen c →
  (∀ read', Q (zslice c off n) reports read' (dir_files d)) → E reports (dir_files d) →
  wp q (reader_read name off n) (reports, read, d) Q E.
Proof.
  intros Hc Hn HQ HE Hq. unfold reader_read, fs_read_at. cbn [snd] in Hq.
  match goal with |- context [dir_op ?g ?u d] => destruct (dir_op_cases g u d) as [(k & -> & Hne)|Ed] end.
  - cbn. split; [auto|done].
  - rewrite Ed. cbn. rewrite Hc, (proj2 (Z.leb_le _ _)) by done. split; [|done]. intros Hqq. by rewrite (Hq Hqq).
Qed.

Lemma wp_report q f reports read d (Q : post ()) (E : fail) :
  Q () (reports ++ [f]) read (dir_files d) → E reports (dir_files d) → wp q (report f) (reports, read, d) Q E.
Proof.
  intros HQ HE Hq. unfold report. cbn [snd] in Hq.
  match goal with |- context [dir_op ?g ?u d] => destruct (dir_op_cases g u d) as [(k & -> & Hne)|Ed] end.
  - cbn. split; [auto|done].
  - rewrite Ed. cbn. split; [|done]. intros Hqq. by rewrite (Hq Hqq).
Qed.

(** ** Checkpoints *)
Definition saved (p : Progress) (fs : gmap string bytes) : Prop :=
  ∃ encoded x, json_of_progress p = inl encoded ∧ json_of_saved (hex_hash encoded) p = inl x ∧
    saved_of_json x = inl (hex_hash encoded, p) ∧ fs !! PROGRESS_FILE = Some x.
(** The same files but for the checkpoint. *)
Definition same_files (fs fs' : gmap string bytes) : Prop :=
  ∀ n, n ≠ PROGRESS_FILE → n ≠ PROGRESS_PENDING → fs' !! n = fs !! n.

Lemma same_files_trans fs1 fs2 fs3 : same_files fs1 fs2 → same_files fs2 fs3 → same_files fs1 fs3.
Proof. intros H12 H23 n Hn Hp. by rewrite H23, H12. Qed.

Lemma wp_checkpoint q p reports read d (Q : post ()) (E : fail) :
  (∀ fs', same_files (dir_files d) fs' → saved p fs' → Q () reports read fs' ∧ E reports fs') →
  (∀ fs', same_files (dir_files d) fs' → fs' !! PROGRESS_FILE = dir_files d !! PROGRESS_FILE → E reports fs') →
  wp q (checkpoint p) (reports, read, d) Q E.
Proof.
  intros Hnew Hold Hq. cbn [snd] in Hq. unfold checkpoint. destruct (progress_json p) as [enc Eenc].
  destruct (saved_json (hex_hash enc) p) as (x & Ex & Ed). unfold mbind, ST_bind, other_err, st_lift.
  rewrite Eenc, Ex. unfold on_dir. pose proof (replace_spec PROGRESS_FILE PROGRESS_PENDING x d ltac:(done)) as Hr.
  pose proof (quiet_replace PROGRESS_FILE PROGRESS_PENDING x d) as Hqu.
  destruct (replace PROGRESS_FILE PROGRESS_PENDING x d) as [d' r].
  assert (∀ v, replaced PROGRESS_FILE PROGRESS_PENDING v (dir_files d) (dir_files d') →
    same_files (dir_files d) (dir_files d') ∧ dir_files d' !! PROGRESS_FILE = v) as Hs by (intros v [? ?]; done).
  assert (dir_files d' !! PROGRESS_FILE = Some x → saved p (dir_files d')) as Hsv by (intros; by exists enc, x).
  destruct Hr as [[-> [Hf Hx]%Hs]|(e & -> & Hne & [[Hf Hx]%Hs|[Hf Hx]%Hs])]; cbn.
  - split; [intros Hqq; apply Hqu, Hq, Hqq|]. apply (Hnew _ Hf (Hsv Hx)).
  - split; [by intros Hqq; apply Hne, Hq|by apply Hold].
  - split; [by intros Hqq; apply Hne, Hq|]. apply (Hnew _ Hf (Hsv Hx)).
Qed.

(** ** Inspecting a record *)
Lemma zslice_extend {A} (c : list A) off a b :
  0 ≤ a → 0 ≤ b → 0 ≤ off → zslice c off a ++ zslice c (off + a) b = zslice c off (a + b).
Proof.
  intros. unfold zslice. rewrite !Z2Nat.inj_add by lia. rewrite <-drop_drop.
  by rewrite take_take_drop.
Qed.

Lemma wp_payload q fuel name c base len n reports read d (Q : post bytes) (E : fail) :
  dir_files d !! name = Some c → 0 ≤ base → 0 ≤ n ≤ len → base + len ≤ zlen c →
  len - n + CHUNK ≤ CHUNK * Z.of_nat fuel →
  (∀ read', Q (zslice c base len) reports read' (dir_files d)) → E reports (dir_files d) →
  wp q (hash_payload fuel name base len n (zslice c base n)) (reports, read, d) Q E.
Proof.
  intros Hc Hb Hn Hl Hf HQ HE. revert n read d Hc Hn Hf HQ HE. induction fuel as [|fuel IH]; intros n read d Hc Hn Hf HQ HE.
  { unfold CHUNK in *. lia. }
  cbn [hash_payload]. case_match eqn:Ec.
  - apply Z.ltb_lt in Ec. apply sw_bind. eapply (wp_reader _ _ _ _ c); [done|unfold CHUNK in *; lia| |done].
    intros read' d' Hd. rewrite zslice_extend by (unfold CHUNK; lia).
    apply IH; rewrite ?Hd; try done; unfold CHUNK in *; lia.
  - apply Z.ltb_ge in Ec. assert (n = len) as -> by lia. by apply sw_ret.
Qed.

Lemma wp_inspect q name c off reports read d (Q : post Verdict) (E : fail) :
  dir_files d !! name = Some c → 0 ≤ off < zlen c →
  (∀ read', Q (verdict c off) reports read' (dir_files d)) → E reports (dir_files d) →
  wp q (inspect name (zlen c) off) (reports, read, d) Q E.
Proof.
  intros Hc Ho HQ HE. unfold inspect. unfold verdict in HQ. destruct (zlen c - off <? HEADER_LEN) eqn:E1.
  { apply sw_bind. eapply (wp_reader _ _ _ _ c); [done|lia| |done]. intros read' d' Hd. apply sw_ret. by rewrite Hd. }
  apply Z.ltb_ge in E1. apply sw_bind. eapply (wp_reader _ _ _ _ c); [done|lia| |done]. intros read' d' Hd.
  destruct (parse_header _) as [rec|] eqn:Ep; [|by apply sw_ret; rewrite Hd].
  pose proof (parse_header_len _ _ Ep) as Hr. case_match; [by apply sw_ret; rewrite Hd|].
  destruct (padded _) as [total|] eqn:Et; [|by apply sw_ret; rewrite Hd].
  apply padded_spec in Et as (Ht & _ & _); [|lia]. case_match eqn:E2; [by apply sw_ret; rewrite Hd|]. apply Z.ltb_ge in E2.
  apply sw_bind. replace (@nil byte) with (zslice c (off + HEADER_LEN) 0) by done.
  eapply wp_payload; rewrite ?Hd; try done; try (unfold HEADER_LEN in *; lia).
  - unfold chunk_fuel, CHUNK. lia.
  - intros read'' d'' Hd'. apply sw_ret. rewrite Hd'. case_match; apply HQ.
Qed.

(** ** The sweep over all files *)
Section Track.
Context (fs0 : gmap string bytes) (L : list (string * (Z * string))) (manifest : string).

Definition content (name : string) : bytes := default [] (fs0 !! name).
Definition file_ok (x : string * (Z * string)) : Prop :=
  fs0 !! x.1 = Some (content x.1) ∧ x.2 = (zlen (content x.1), stamp_of x.1 (content x.1)) ∧
  fits (content x.1) ∧ x.1 ≠ PROGRESS_FILE ∧ x.1 ≠ PROGRESS_PENDING.
Hypothesis L_ok : Forall file_ok L.

Abbreviation entry := (string * (Z * Verdict))%type.
Fixpoint ref_from (rest : list (string * (Z * string))) (off : Z) : list entry :=
  match rest with
  | [] => []
  | (name, _) :: rest => (pair name <$> entries (content name) off) ++ ref_from rest 0
  end.
Definition reference : list entry := ref_from L 0.

Definition finding_of (e : entry) : option ScrubFinding :=
  let '(name, (off, v)) := e in (λ kind, MkFinding name off kind (v_block v)) <$> v_bad v.
Definition findings (l : list entry) : list ScrubFinding := omap finding_of l.
Definition verified_count (l : list entry) : Z := zlen l - zlen (findings l).

(** [done] has been inspected when the progress is [p]. *)
Record on_track (done : list entry) (p : Progress) : Prop := {
  ot_version : pr_version p = 1;
  ot_manifest : pr_manifest p = manifest;
  ot_segment : 0 ≤ pr_segment p ≤ zlen L;
  ot_offset : 0 ≤ pr_offset p ∧ pr_offset p mod BLOCK_ALIGN = 0;
  ot_bound : ∀ x, L !! Z.to_nat (pr_segment p) = Some x → pr_offset p < x.2.1 + BLOCK_ALIGN;
  ot_end : pr_segment p = zlen L → pr_offset p = 0;
  ot_rest : done ++ ref_from (drop (Z.to_nat (pr_segment p)) L) (pr_offset p) = reference;
  ot_verified : records_verified (pr_summary p) = Z.min (verified_count done) u64_max;
  ot_findings : su_findings (pr_summary p) = Z.min (zlen (findings done)) u64_max;
  ot_complete : complete (pr_summary p) = true → pr_segment p = zlen L }.

(** A checkpoint can be resumed: what it has not counted is swept again. *)
Definition resumable (reported : list entry) (fs : gmap string bytes) : Prop :=
  same_files fs0 fs ∧
  (fs !! PROGRESS_FILE = None ∨
   ∃ done p, saved p fs ∧ on_track done p ∧ done `prefix_of` reported).

Section Run.
Context (q : Prop) (done0 : list entry).

(** After a success: everything up to [p] is reported and checkpointed. *)
Definition good (p : Progress) (reports : list ScrubFinding) (fs : gmap string bytes) : Prop :=
  same_files fs0 fs ∧ saved p fs ∧
  ∃ new, on_track (done0 ++ new) p ∧ reports = findings new ∧ complete (pr_summary p) = false.
(** After a failure: a prefix was reported, and the checkpoint is in it. *)
Definition bad (reports : list ScrubFinding) (fs : gmap string bytes) : Prop :=
  ∃ new, done0 ++ new `prefix_of` reference ∧ reports = findings new ∧ resumable (done0 ++ new) fs.

Lemma good_bad p reports fs : good p reports fs → bad reports fs.
Proof.
  intros (Hs & Hsv & new & Ht & -> & _). exists new. split_and!; [|done|].
  - exists (ref_from (drop (Z.to_nat (pr_segment p)) L) (pr_offset p)). by rewrite (ot_rest _ _ Ht).
  - split; [done|]. right. by exists (done0 ++ new), p.
Qed.

Lemma findings_app l k : findings (l ++ k) = findings l ++ findings k.
Proof. unfold findings. by rewrite omap_app. Qed.
Lemma findings_le l : zlen (findings l) ≤ zlen l.
Proof.
  induction l as [|e l IH]; [done|]. change (findings (e :: l)) with (findings ([e] ++ l)). rewrite findings_app, zlen_app, zlen_cons.
  assert (zlen (findings [e]) ≤ 1); [|lia]. unfold findings. cbn. by destruct (finding_of e).
Qed.

(** One record further. *)
Lemma on_track_step done p v n x :
  on_track done p → L !! Z.to_nat (pr_segment p) = Some x → v = verdict (content x.1) (pr_offset p) →
  pr_offset p < x.2.1 → on_track (done ++ [(x.1, (pr_offset p, v))]) (advance_progress p v n).
Proof.
  intros [] Hx Hv Hlt. rewrite Forall_forall in L_ok.
  destruct (L_ok x) as (_ & Hst & Hf & _); [by eapply list_elem_of_lookup_2|]. rewrite Hst in Hlt. cbn in Hlt.
  destruct (v_next_spec (content x.1) (pr_offset p)) as [Hn Ha]; [done|lia|naive_solver|]. rewrite <-Hv in Hn, Ha.
  assert (findings [(x.1, (pr_offset p, v))] =
    match v_bad v with Some kind => [MkFinding x.1 (pr_offset p) kind (v_block v)] | None => [] end) as Hfi
    by (unfold findings; cbn; by destruct (v_bad v)).
  assert (∀ s, pr_segment (advance_progress p v s) = pr_segment p) as Hsg by by destruct p.
  constructor; try done; cbn.
  - destruct ot_offset0. unfold BLOCK_ALIGN in *. lia.
  - intros x' Hx'. rewrite Hx in Hx'. injection Hx' as <-. rewrite Hst. cbn. lia.
  - intros E. apply lookup_lt_Some in Hx. unfold zlen in E. lia.
  - rewrite <-ot_rest0, <-app_assoc. f_equal. rewrite (drop_S _ _ _ Hx). destruct x as [name st]. cbn [ref_from fst] in *.
    rewrite (entries_step _ (pr_offset p)), <-Hv by (done || lia || naive_solver). done.
  - unfold verified_count in *. rewrite findings_app, Hfi, !zlen_app.
    destruct (v_bad v); cbn; rewrite ?ot_verified0; unfold saturating_add64, u64_max, zlen; cbn; lia.
  - rewrite findings_app, Hfi, zlen_app. destruct (v_bad v); cbn; rewrite ?ot_findings0; unfold saturating_add64, u64_max, zlen; cbn; lia.
  - destruct (v_bad v); cbn; auto.
Qed.

Lemma on_track_next done p x :
  on_track done p → L !! Z.to_nat (pr_segment p) = Some x → x.2.1 ≤ pr_offset p → on_track done (next_segment p).
Proof.
  intros [] Hx Hge. pose proof (lookup_lt_Some _ _ _ Hx) as Hlt. rewrite Forall_forall in L_ok.
  destruct (L_ok x) as (_ & Hst & Hf & _); [by eapply list_elem_of_lookup_2|]. rewrite Hst in Hge. cbn in Hge.
  constructor; try done; cbn.
  - unfold zlen. lia.
  - intros y Hy. destruct (L_ok y) as (_ & -> & _); [by eapply list_elem_of_lookup_2|]. cbn.
    pose proof (zlen_nonneg (content y.1)). unfold BLOCK_ALIGN. lia.
  - rewrite <-ot_rest0. f_equal. rewrite (drop_S _ _ _ Hx). destruct x as [name st]. cbn [ref_from fst] in *.
    rewrite entries_end by done. cbn. by rewrite Z2Nat.inj_add, Nat.add_1_r by lia.
  - intros Hc. specialize (ot_complete0 Hc). unfold zlen in *. lia.
Qed.

Lemma wp_stamp x reports read d (Q : post ()) (E : fail) :
  x ∈ L → same_files fs0 (dir_files d) → Q () reports read (dir_files d) → E reports (dir_files d) →
  wp q (unchanged_stamp x.1 x.2) (reports, read, d) Q E.
Proof.
  intros Hx Hs HQ HE. rewrite Forall_forall in L_ok. destruct (L_ok x Hx) as (Hc & Hst & _ & Hp1 & Hp2).
  unfold unchanged_stamp, stamp. apply sw_bind. eapply wp_look; [by rewrite Hs, Hc by done| |done].
  intros d' Hd. rewrite bool_decide_eq_true_2 by done. apply sw_ret. by rewrite Hd.
Qed.

(** A finding reported but not yet checkpointed. *)
Lemma bad_ahead p new e fs :
  same_files fs0 fs → saved p fs → on_track (done0 ++ new) p → done0 ++ new ++ [e] `prefix_of` reference →
  bad (findings (new ++ [e])) fs.
Proof.
  intros Hs Hsv Ht Hp. exists (new ++ [e]). split_and!; [done|done|]. split; [done|]. right.
  exists (done0 ++ new), p. split_and!; [done|done|]. rewrite app_assoc. by apply prefix_app_r.
Qed.

Lemma wp_segment fuel x ib p reports read d :
  L !! Z.to_nat (pr_segment p) = Some x → good p reports (dir_files d) →
  Z.max 0 (x.2.1 - pr_offset p) + BLOCK_ALIGN ≤ BLOCK_ALIGN * Z.of_nat fuel →
  wp q (scrub_segment fuel x.1 x.2 ib p) (reports, read, d)
    (λ p' reports' _ fs', good p' reports' fs' ∧ pr_segment p' = pr_segment p ∧ x.2.1 ≤ pr_offset p') bad.
Proof.
  revert p reports read d. induction fuel as [|fuel IH]; intros p reports read d Hx Hg Hf; [unfold BLOCK_ALIGN in *; lia|].
  cbn [scrub_segment]. pose proof (list_elem_of_lookup_2 _ _ _ Hx) as Hin.
  case_match eqn:Ec; [apply Z.ltb_lt in Ec|apply Z.ltb_ge in Ec; by apply sw_ret].
  pose proof (good_bad _ _ _ Hg) as Hb. pose proof Hg as (Hs & Hsv & new & Ht & -> & Hcp).
  pose proof L_ok as HL. rewrite Forall_forall in HL. destruct (HL x Hin) as (Hc & Hst & Hfit & Hp1 & Hp2).
  apply sw_bind, wp_stamp; [done|done| |done]. intros d1 Hd1. apply sw_bind.
  assert (x.2.1 = zlen (content x.1)) as Hlen by by rewrite Hst.
  replace (inspect x.1 x.2.1 (pr_offset p)) with (inspect x.1 (zlen (content x.1)) (pr_offset p)) by by rewrite Hlen.
  rewrite Hlen in Ec. pose proof (ot_offset _ _ Ht) as [Ho Hal].
  eapply wp_inspect; [by rewrite Hd1, Hs| done| |by rewrite Hd1]. intros read2 d2 Hd2.
  apply sw_bind, wp_stamp; [done|by rewrite Hd2, Hd1| |by rewrite Hd2, Hd1]. intros d3 Hd3. rewrite Hd2, Hd1 in Hd3.
  set (v := verdict (content x.1) (pr_offset p)).
  assert (∀ n, on_track (done0 ++ new ++ [(x.1, (pr_offset p, v))]) (advance_progress p v n)) as Hn.
  { intros n. rewrite app_assoc. apply on_track_step; [done|done|done|]. by rewrite Hlen. }
  assert (done0 ++ new ++ [(x.1, (pr_offset p, v))] `prefix_of` reference) as Hpre
    by (rewrite <-(ot_rest _ _ (Hn 0)); by apply prefix_app_r).
  assert (pr_offset p + BLOCK_ALIGN ≤ v_next v) as Hv
    by (destruct (v_next_spec (content x.1) (pr_offset p)) as [? _]; [done|lia|done|unfold v; lia]).
  assert (findings (new ++ [(x.1, (pr_offset p, v))]) = findings new ++
    match v_bad v with Some kind => [MkFinding x.1 (pr_offset p) kind (v_block v)] | None => [] end) as Hfi
    by (rewrite findings_app; f_equal; unfold findings; cbn; by destruct (v_bad v)).
  apply sw_bind. apply (wp_weaken _ _ _ (λ _ reports' _ fs',
    reports' = findings (new ++ [(x.1, (pr_offset p, v))]) ∧ fs' = dir_files d) _ bad); [|intros [] reports' read' fs' [-> ->]|done].
  { rewrite Hfi. destruct (v_bad v) as [kind|].
    - apply wp_report; [by rewrite Hd3|by rewrite Hd3].
    - apply sw_ret. by rewrite app_nil_r, Hd3. }
  intros d4 Hd4. apply sw_bind. intros Hq. split; [done|]. cbn [fst snd]. intros d5 Hd5. rewrite Hd4 in Hd5.
  apply sw_bind, wp_checkpoint.
  - intros fs' Hs' Hsv'. rewrite Hd5 in Hs'.
    assert (good (advance_progress p v (saturating_add64 ib read')) (findings (new ++ [(x.1, (pr_offset p, v))])) fs') as Hg'.
    { split_and!; [by eapply same_files_trans|done|]. exists (new ++ [(x.1, (pr_offset p, v))]). split_and!; [done..|].
      cbn. by destruct (v_bad v). }
    split; [|by eapply good_bad]. intros d6 Hd6.
    apply (IH (advance_progress p v (saturating_add64 ib read'))); cbn [pr_segment pr_offset advance_progress];
      [done|by rewrite Hd6|]. clearbody v. unfold BLOCK_ALIGN in *. lia.
  - intros fs' Hs' He. rewrite Hd5 in Hs', He. eapply bad_ahead; [by eapply same_files_trans| |done|done].
    destruct Hsv as (enc & y & ? & ? & ? & Hy). exists enc, y. by rewrite He.
Qed.

Lemma wp_files rest ib p reports read d :
  rest = drop (Z.to_nat (pr_segment p)) L → good p reports (dir_files d) →
  wp q (scrub_files rest ib p) (reports, read, d)
    (λ p' reports' _ fs', good p' reports' fs' ∧ pr_segment p' = zlen L) bad.
Proof.
  revert p reports read d. induction rest as [|[name expected] rest IH]; intros p reports read d Hr Hg; cbn [scrub_files].
  - apply sw_ret. split; [done|]. destruct Hg as (_ & _ & new & Ht & _). destruct (ot_segment _ _ Ht).
    apply (f_equal length) in Hr. rewrite length_drop in Hr. cbn in Hr. unfold zlen in *. lia.
  - assert (L !! Z.to_nat (pr_segment p) = Some (name, expected)) as Hx.
    { rewrite <-(Nat.add_0_r (Z.to_nat _)), <-lookup_drop, <-Hr. done. }
    pose proof (list_elem_of_lookup_2 _ _ _ Hx) as Hin. pose proof L_ok as HL. rewrite Forall_forall in HL.
    destruct (HL _ Hin) as (Hc & Hst & Hfit & Hp1 & Hp2). cbn [fst snd] in *.
    pose proof Hg as (Hs & _ & new0 & Ht0 & _). pose proof (ot_offset _ _ Ht0) as [Ho _].
    apply sw_bind. unfold fs_open_read. eapply (wp_look _ _ ()); [by rewrite Hs, Hc|intros d1 Hd1|by eapply good_bad].
    apply sw_bind. eapply wp_weaken; [apply (wp_segment _ (name, expected)); [done|by rewrite Hd1|]| |done].
    + pose proof (sweep_fuel_enough (content name)). rewrite Hst. cbn [fst snd]. unfold BLOCK_ALIGN in *. lia.
    + intros p' reports' read' fs' (Hg' & Hsg & Hge) d2 Hd2. cbn [fst snd] in Hge.
      pose proof Hg' as (Hs' & Hsv' & new & Ht & -> & Hcp). rewrite <-Hsg in Hx.
      assert (on_track (done0 ++ new) (next_segment p')) as Hn by by eapply on_track_next.
      apply sw_bind, wp_checkpoint; rewrite Hd2.
      * intros fs2 Hs2 Hsv2.
        assert (good (next_segment p') (findings new) fs2) as Hg2.
        { split_and!; [by eapply same_files_trans|done|]. by exists new. }
        split; [|by eapply good_bad]. intros d3 Hd3. apply IH; [|by rewrite Hd3]. cbn [pr_segment next_segment].
        rewrite Hsg. pose proof (ot_segment _ _ Ht0). rewrite Z2Nat.inj_add, Nat.add_1_r by lia.
        rewrite Hsg in Hx. rewrite (drop_S _ _ _ Hx) in Hr. by injection Hr.
      * intros fs2 Hs2 He. eapply (good_bad p'). split_and!; [by eapply same_files_trans| |by exists new].
        destruct Hsv' as (enc & y & ? & ? & ? & Hy). exists enc, y. by rewrite He.
Qed.
End Run.

(** ** Loading and listing *)
Lemma wp_load q reports read d o (Q : post (option Progress)) (E : fail) :
  match o with None => dir_files d !! PROGRESS_FILE = None | Some p => saved p (dir_files d) end →
  Q o reports read (dir_files d) → E reports (dir_files d) → wp q load_progress (reports, read, d) Q E.
Proof.
  intros Ho HQ HE Hq. cbn [snd] in Hq. unfold load_progress, on_dir, fs_read.
  match goal with |- context [dir_op ?g ?u d] => destruct (dir_op_cases g u d) as [(k & -> & Hne)|Ed] end.
  - cbn. split; [auto|done].
  - rewrite Ed. cbn. destruct o as [p|].
    + destruct Ho as (enc & x & He & Hx & Hb & ->). unfold mbind, ST_bind, other_err, st_lift. rewrite Hb, He.
      rewrite bool_decide_eq_true_2 by done. cbn. split; [|done]. intros Hqq. by rewrite (Hq Hqq).
    + rewrite Ho. cbn. split; [|done]. intros Hqq. by rewrite (Hq Hqq).
Qed.

Lemma on_track_no_mismatch done p : on_track done p → progress_mismatch L manifest p = false.
Proof.
  intros []. unfold progress_mismatch. rewrite ot_version0, bool_decide_eq_true_2 by done.
  destruct ot_offset0 as [? ->]. rewrite (proj2 (Z.ltb_ge _ _)) by lia. cbn [negb orb Z.eqb Pos.eqb].
  assert (match L !! Z.to_nat (pr_segment p) with
    | Some (_, (len, _)) => saturating_add64 len BLOCK_ALIGN <? pr_offset p | None => false end = false) as ->.
  { destruct (L !! _) as [x|] eqn:Ex; [|done]. specialize (ot_bound0 _ eq_refl).
    rewrite Forall_forall in L_ok. destruct (L_ok x) as (_ & Hst & Hf & _); [by eapply list_elem_of_lookup_2|].
    destruct x as [name [len st]]. cbn in *. injection Hst as -> _. apply Z.ltb_ge. unfold fits, MAX_PAYLOAD in Hf.
    unfold saturating_add64, u64_max, BLOCK_ALIGN in *. lia. }
  destruct (complete (pr_summary p)); [|done]. specialize (ot_complete0 eq_refl). specialize (ot_end0 ot_complete0).
  by rewrite ot_complete0, ot_end0, !Z.eqb_refl.
Qed.

Lemma on_track_fresh : on_track [] (fresh_progress manifest).
Proof.
  constructor; try done; cbn.
  - unfold zlen. lia.
  - intros x Hx. rewrite Forall_forall in L_ok. destruct (L_ok x) as (_ & -> & _); [by eapply list_elem_of_lookup_2|].
    cbn. pose proof (zlen_nonneg (content x.1)). unfold BLOCK_ALIGN. lia.
Qed.

Lemma wp_all_unchanged q l reports read d (Q : post ()) (E : fail) :
  (∀ x, x ∈ l → x ∈ L) → same_files fs0 (dir_files d) →
  Q () reports read (dir_files d) → E reports (dir_files d) →
  wp q (all_unchanged l) (reports, read, d) Q E.
Proof.
  intros Hl Hs HQ HE. revert d Hs HQ HE. induction l as [|[name st] l IH]; intros d Hs HQ HE; cbn [all_unchanged].
  - by apply sw_ret.
  - apply sw_bind, (wp_stamp _ (name, st)); [apply Hl; by left|done| |done]. intros d' Hd.
    apply IH; rewrite ?Hd; try done. intros x Hx. apply Hl. by right.
Qed.

Lemma wp_stamp_all q l reports read d (Q : post (list (string * (Z * string)))) (E : fail) :
  (∀ x, x ∈ l → x ∈ L) → same_files fs0 (dir_files d) →
  Q l reports read (dir_files d) → E reports (dir_files d) →
  wp q (on_dir (stamp_all (fst <$> l))) (reports, read, d) Q E.
Proof.
  intros Hl Hs HQ HE. revert d Q Hs HQ HE. induction l as [|x l IH]; intros d Q Hs HQ HE; cbn [stamp_all fmap list_fmap].
  - by intros Hq.
  - rewrite Forall_forall in L_ok. destruct (L_ok x) as (Hc & Hst & _ & Hp1 & Hp2); [apply Hl; by left|].
    apply wp_on_dir_bind. eapply wp_look; [by rewrite Hs, Hc by done| |done]. intros d' Hd.
    apply wp_on_dir_bind, IH; rewrite ?Hd; [by intros y Hy; apply Hl; right|done| |done].
    intros d2 Hd2. intros Hq. split; [done|]. cbn. rewrite Hd2, <-Hst. by destruct x.
Qed.
End Track.

(** The directory's segment files. *)
Definition seg_names (fs : gmap string bytes) : list string :=
  filter (λ n, is_segment n = true) (fst <$> map_to_list fs).
Definition canonical (fs : gmap string bytes) : Prop :=
  ∀ name, name ∈ seg_names fs → ∃ id, segment_id name = Some id ∧ name = seg_name id.
Definition layout_of (fs : gmap string bytes) : list (string * (Z * string)) :=
  (λ name, (name, (zlen (content fs name), stamp_of name (content fs name)))) <$>
    sort_files (omap segment_id (seg_names fs)).

Lemma segment_ids_ok names acc :
  (∀ n, n ∈ names → is_segment n = true → ∃ id, segment_id n = Some id ∧ n = seg_name id) →
  zlen acc + zlen (filter (λ n, is_segment n = true) names) ≤ 65536 →
  segment_ids names acc = Ok (acc ++ omap segment_id (filter (λ n, is_segment n = true) names)).
Proof.
  revert acc. induction names as [|n names IH]; intros acc Hc Hl; cbn [segment_ids]; [by rewrite app_nil_r|].
  rewrite filter_cons in *. destruct (is_segment n) eqn:En.
  - rewrite decide_True in Hl |- * by done. destruct (Hc n ltac:(by left) En) as (id & Hid & Hn). rewrite Hid.
    rewrite bool_decide_eq_true_2 by done. rewrite zlen_cons in Hl. pose proof (zlen_nonneg (filter (λ n, is_segment n = true) names)).
    rewrite (proj2 (Z.ltb_ge _ _)) by zl. rewrite IH; [|by intros; apply Hc; [right|]|zl].
    rewrite <-app_assoc. cbn. by rewrite Hid.
  - rewrite decide_False in Hl |- * by done. apply IH; [|done]. intros m Hm. apply Hc. by right.
Qed.

Lemma seg_names_elem fs n : n ∈ seg_names fs ↔ is_segment n = true ∧ is_Some (fs !! n).
Proof.
  unfold seg_names. rewrite list_elem_of_filter, list_elem_of_fmap. split; intros [Hs Hn]; (split; [done|]).
  - destruct Hn as ([k v] & -> & Hn%elem_of_map_to_list). eauto.
  - destruct Hn as [v Hv]. exists (n, v). split; [done|]. by apply elem_of_map_to_list.
Qed.

Lemma listing_same fs fs' names :
  same_files fs fs' → names ≡ₚ (fst <$> map_to_list fs') → filter (λ n, is_segment n = true) names ≡ₚ seg_names fs.
Proof.
  intros Hs Hn. transitivity (seg_names fs'); [unfold seg_names; by rewrite Hn|].
  assert (∀ m : gmap string bytes, NoDup (seg_names m)) as Hnd
    by (intros m; apply NoDup_filter, NoDup_fst_map_to_list).
  apply NoDup_Permutation; [done..|]. intros n. rewrite !seg_names_elem.
  split; intros [Hi Hx]; (split; [done|]); rewrite ?Hs in *; try done; by intros ->.
Qed.

Lemma sort_files_perm l k : l ≡ₚ k → sort_files l = sort_files k.
Proof.
  intros Hp. unfold sort_files. f_equal. apply (StronglySorted_unique Z.le).
  - apply StronglySorted_merge_sort; apply _.
  - apply StronglySorted_merge_sort; apply _.
  - by rewrite !merge_sort_Permutation.
Qed.

(** A directory whose segments can be swept. *)
Record sweepable (fs : gmap string bytes) : Prop := {
  sw_canonical : canonical fs;
  sw_some : seg_names fs ≠ [];
  sw_count : zlen (seg_names fs) ≤ 65536;
  sw_fits : ∀ n, n ∈ seg_names fs → fits (content fs n) }.

Lemma layout_names fs x : sweepable fs → x ∈ layout_of fs → x.1 ∈ seg_names fs.
Proof.
  intros [Hc _ _ _] (name & -> & Hn)%list_elem_of_fmap. cbn. unfold sort_files in Hn.
  apply list_elem_of_fmap in Hn as (id & -> & Hid). rewrite merge_sort_Permutation in Hid.
  apply list_elem_of_omap in Hid as (n & Hn & Hi). destruct (Hc n Hn) as (id' & Hi' & ->).
  rewrite Hi' in Hi. by injection Hi as ->.
Qed.

Lemma omap_length fs : sweepable fs → length (omap segment_id (seg_names fs)) = length (seg_names fs).
Proof.
  intros [Hc _ _ _]. unfold canonical in Hc. induction (seg_names fs) as [|n l IH]; [done|].
  destruct (Hc n ltac:(by left)) as (id & Hid & _). cbn. rewrite Hid. cbn. f_equal. apply IH. intros; apply Hc. by right.
Qed.
Lemma layout_length fs : sweepable fs → zlen (layout_of fs) = zlen (seg_names fs).
Proof.
  intros Hs. unfold layout_of, sort_files, zlen. rewrite !length_fmap, merge_sort_Permutation, omap_length by done. done.
Qed.

Lemma layout_ok fs : sweepable fs → Forall (file_ok fs) (layout_of fs).
Proof.
  intros Hsw. apply Forall_forall. intros x Hx. pose proof (layout_names _ _ Hsw Hx) as Hn.
  pose proof (sw_fits _ Hsw _ Hn) as Hf. apply seg_names_elem in Hn as [Hi [c Hc]].
  apply list_elem_of_fmap in Hx as (name & -> & _). cbn [fst snd] in *. unfold file_ok. cbn [fst snd].
  assert (fs !! name = Some (content fs name)) by (unfold content; by rewrite Hc). split_and!; try done; by intros ->.
Qed.

(** ** The whole command *)
Section Command.
Context (fs0 : gmap string bytes) (text : bytes).
Hypothesis Hsw : sweepable fs0.
Hypothesis Htext : json_of_layout (layout_of fs0) = inl text.
Abbreviation L := (layout_of fs0).
Abbreviation M := (hex_hash text).
Abbreviation REF := (reference fs0 L).

Definition totals (s : ScrubSummary) : Prop :=
  complete s = true ∧ records_verified s = Z.min (verified_count REF) u64_max ∧
  su_findings s = Z.min (zlen (findings REF)) u64_max.

(** Where a run starts: nothing saved, or a checkpoint it may use. *)
Definition starts (restart : bool) (done0 : list (string * (Z * Verdict))) (fs : gmap string bytes) : Prop :=
  same_files fs0 fs ∧
  (fs !! PROGRESS_FILE = None ∧ done0 = [] ∨ restart = false ∧ ∃ p, saved p fs ∧ on_track fs0 L M done0 p).

Lemma starts_bad restart done0 fs : starts restart done0 fs → bad fs0 L M done0 [] fs.
Proof.
  intros [Hs Hst]. exists []. rewrite app_nil_r. split_and!; [|done|split; [done|]].
  - destruct Hst as [[_ ->]|(_ & p & _ & Ht)]; [apply prefix_nil|].
    exists (ref_from fs0 (drop (Z.to_nat (pr_segment p)) L) (pr_offset p)). by rewrite (ot_rest _ _ _ _ _ Ht).
  - destruct Hst as [[? ->]|(_ & p & Hsv & Ht)]; [by left|]. right. by exists done0, p.
Qed.

Lemma wp_listing q reports read d (Q : post (list string)) (E : fail) :
  same_files fs0 (dir_files d) →
  (∀ names, filter (λ n, is_segment n = true) names ≡ₚ seg_names fs0 → Q names reports read (dir_files d)) →
  E reports (dir_files d) → wp q (on_dir fs_names) (reports, read, d) Q E.
Proof.
  intros Hs HQ HE. unfold fs_names.
  apply (wp_look q (λ m, Ok (hash_order (fst <$> map_to_list m))) (hash_order (fst <$> map_to_list (dir_files d))));
    [done| |done]. apply HQ. eapply listing_same; [done|]. apply hash_order_perm.
Qed.

(** From the start of the loops to the end. *)
Lemma wp_sweep q done0 p d :
  same_files fs0 (dir_files d) → on_track fs0 L M done0 p → complete (pr_summary p) = false →
  bad fs0 L M done0 [] (dir_files d) →
  wp q (checkpoint p ≫= λ _,
        scrub_files (drop (Z.to_nat (pr_segment p)) L) (su_bytes_read (pr_summary p)) p ≫= λ p,
        all_unchanged L ≫= λ _,
        on_dir fs_names ≫= λ names,
        if negb (Z.of_nat (length (filter (λ n, is_segment n = true) names)) =? zlen L) then
          st_throw (io_other "segment set changed during offline scrub")
        else checkpoint (set_complete p) ≫= λ _, mret (pr_summary (set_complete p))) ([], 0, d)
    (λ s reports _ fs', totals s ∧ (∃ new, done0 ++ new = REF ∧ reports = findings new) ∧
       resumable fs0 L M REF fs') (bad fs0 L M done0).
Proof.
  intros Hs Ht Hcp Hbad. pose proof (layout_ok _ Hsw) as HL. apply sw_bind, wp_checkpoint.
  - intros fs1 Hs1 Hsv1.
    assert (good fs0 L M done0 p [] fs1) as Hg.
    { split_and!; [by eapply same_files_trans|done|]. exists []. by rewrite app_nil_r. }
    split; [|by eapply good_bad]. intros d1 Hd1. apply sw_bind.
    eapply wp_weaken; [apply (wp_files fs0 L M HL q done0); [done|by rewrite Hd1]| |done].
    intros p' reports read' fs2 [Hg2 Hend] d2 Hd2. pose proof (good_bad _ _ _ _ _ _ _ Hg2) as Hb2.
    pose proof Hg2 as (Hs2 & Hsv2 & new & Ht2 & -> & Hcp2).
    apply sw_bind, (wp_all_unchanged fs0 L HL); rewrite ?Hd2; [done|done| |done]. intros d3 Hd3.
    apply sw_bind, wp_listing; rewrite ?Hd3; [done| |done]. intros names Hnames d4 Hd4.
    assert (Z.of_nat (length (filter (λ n, is_segment n = true) names)) = zlen L) as ->.
    { rewrite (layout_length _ Hsw), Hnames. done. }
    rewrite Z.eqb_refl. cbn [negb].
    assert (done0 ++ new = REF) as Hdone.
    { pose proof (ot_rest _ _ _ _ _ Ht2) as Hr. rewrite Hend in Hr. unfold zlen in Hr. rewrite Nat2Z.id, drop_all in Hr.
      cbn in Hr. by rewrite app_nil_r in Hr. }
    assert (on_track fs0 L M (done0 ++ new) (set_complete p')) as Hc by (destruct Ht2; constructor; try done).
    apply sw_bind, wp_checkpoint; rewrite Hd4.
    + intros fs5 Hs5 Hsv5.
      assert (resumable fs0 L M REF fs5) as Hre.
      { split; [by eapply same_files_trans|]. right. exists (done0 ++ new), (set_complete p'). by rewrite Hdone in *. }
      split.
      * intros d5 Hd5. apply sw_ret. rewrite Hd5. split_and!; [|by exists new|done]. destruct Hc.
        unfold totals. by rewrite <-Hdone.
      * exists new. split_and!; [by rewrite Hdone|done|by rewrite Hdone].
    + intros fs5 Hs5 He. eapply (good_bad _ _ _ _ p'). split_and!; [by eapply same_files_trans| |by exists new].
      destruct Hsv2 as (enc & y & ? & ? & ? & Hy). exists enc, y. by rewrite He.
  - intros fs1 Hs1 He. destruct Hbad as (new & Hp & Hr & [_ Hres]). exists new. split_and!; [done|done|].
    split; [by eapply same_files_trans|]. destruct Hres as [Hn|(done & p1 & Hsv & Hrest)]; [left; by rewrite He|right].
    exists done, p1. split; [|done]. destruct Hsv as (enc & y & ? & ? & ? & Hy). exists enc, y. by rewrite He.
Qed.

Lemma wp_scrub q rate restart done0 d :
  1024 * 1024 ≤ rate ≤ 1024 * 1024 * 1024 → starts restart done0 (dir_files d) →
  wp q (scrub rate restart) ([], 0, d)
    (λ s reports _ fs', totals s ∧ (∃ new, done0 ++ new = REF ∧ reports = findings new) ∧
       resumable fs0 L M REF fs') (bad fs0 L M done0).
Proof.
  intros Hr Hst. pose proof (layout_ok _ Hsw) as HL. pose proof (starts_bad _ _ _ Hst) as Hbad. pose proof Hst as [Hs Hst'].
  unfold scrub. rewrite !(proj2 (Z.leb_le _ _)) by lia. cbn [negb andb].
  apply sw_bind, wp_listing; [done| |done]. intros names Hnames d1 Hd1.
  assert (segment_ids names [] = Ok (omap segment_id (filter (λ n, is_segment n = true) names))) as Eids.
  { apply (segment_ids_ok names []).
    - intros n Hn Hi. apply (sw_canonical _ Hsw). rewrite <-Hnames. by apply list_elem_of_filter.
    - rewrite zlen_nil. unfold zlen. rewrite Hnames. apply (sw_count _ Hsw). }
  rewrite Eids. apply sw_bind. intros Hq. split; [done|]. intros d2 Hd2. rewrite Hd1 in Hd2. clear Hq.
  rewrite bool_decide_eq_false_2.
  2:{ intros En. apply (sw_some _ Hsw). rewrite <-length_zero_iff_nil, <-omap_length by done. rewrite <-Hnames, En. done. }
  rewrite (sort_files_perm _ (omap segment_id (seg_names fs0))) by by rewrite Hnames.
  assert (sort_files (omap segment_id (seg_names fs0)) = fst <$> L) as ->.
  { unfold layout_of. rewrite <-list_fmap_compose. symmetry. apply list_fmap_id. }
  apply sw_bind, (wp_stamp_all fs0 L HL); rewrite ?Hd2; [done|done| |done]. intros d3 Hd3.
  apply sw_bind. rewrite Htext. intros Hq. split; [done|]. intros d4 Hd4. rewrite Hd3 in Hd4. clear Hq.
  cbn zeta. apply sw_bind.
  apply (wp_weaken _ _ _ (λ o reports read fs', reports = [] ∧ read = 0 ∧ fs' = dir_files d ∧
    on_track fs0 L M done0 (default (fresh_progress M) o)) _ (bad fs0 L M done0)); [| |done].
  { destruct Hst' as [[Hn ->]|(-> & p & Hsv & Ht)].
    - destruct restart.
      + apply sw_ret. split_and!; [done..|]. by apply on_track_fresh.
      + apply (wp_load q _ _ _ None); rewrite ?Hd4; [done| |done]. split_and!; [done..|]. by apply on_track_fresh.
    - apply (wp_load q _ _ _ (Some p)); rewrite ?Hd4; [done| |done]. by split_and!. }
  intros o reports read fs5 (-> & -> & -> & Ht) d5 Hd5.
  rewrite (on_track_no_mismatch fs0 L M HL _ _ Ht). set (p := default _ o) in *.
  destruct (complete (pr_summary p)) eqn:Ecp.
  - apply sw_ret. rewrite Hd5. pose proof (ot_complete _ _ _ _ _ Ht Ecp) as Hend.
    pose proof (ot_rest _ _ _ _ _ Ht) as Hrest. rewrite Hend in Hrest. unfold zlen in Hrest.
    rewrite Nat2Z.id, drop_all in Hrest. cbn in Hrest. rewrite app_nil_r in Hrest. subst done0. split_and!.
    + destruct Ht. by unfold totals.
    + exists []. by rewrite app_nil_r.
    + destruct Hbad as (new & Hp & Hre & Hres). apply prefix_length in Hp as Hlen. rewrite length_app in Hlen.
      assert (new = []) as -> by (destruct new; [done|cbn in Hlen; lia]). by rewrite app_nil_r in Hres.
  - apply wp_sweep; rewrite ?Hd5; done.
Qed.
End Command.
End Runs.

(** ** Properties *)
Section ScrubTheorems.
Context `{Blake3, Hex, HashOrderLaws, FileStamp, ScrubJsonLaws}.

(** A sweep judges what the store wrote: on a segment of intact records it
    verifies every record and finds nothing; where a record's payload no longer
    has its hash, after any number of intact ones, the sweep verifies those and
    reports [payload_hash_mismatch] for that block at its offset.  At any
    offset of any file a record is verified exactly when a whole record with
    the payload its id names is there. *)
Theorem sweep_finds_rot recs id p rest c off :
  intact recs → small recs → zlen p ≤ MAX_PAYLOAD → block_of p ≠ id →
  fits (enc_all recs) → fits (enc_all recs ++ encode_record id p ++ rest) →
  entries (enc_all recs) 0 = judged_all 0 recs ∧
  Forall (λ e, v_bad e.2 = None) (judged_all 0 recs) ∧
  (∃ more, entries (enc_all recs ++ encode_record id p ++ rest) 0 =
     judged_all 0 recs ++
     (zlen (enc_all recs), MkVerdict (Some "payload_hash_mismatch") (Some id) (zlen (enc_all recs) + BLOCK_ALIGN)) :: more) ∧
  (v_bad (verdict c off) = None ↔ ∃ i, sound_record c off i).
Proof.
  intros Hi Hs Hp Hne Hf1 Hf2.
  destruct (entries_records [] recs [] Hi Hs) as [E1 Ha]; [by rewrite app_nil_r|done|].
  destruct (entries_records [] recs (encode_record id p ++ rest) Hi Hs) as [E2 _]; [done|done|].
  cbn [app] in E1, E2. rewrite app_nil_r in E1. change (zlen []) with 0 in *. rewrite Z.add_0_l in *.
  pose proof (zlen_encode_record id p Hp) as He. pose proof (zlen_nonneg p). pose proof (zlen_nonneg rest).
  pose proof (record_len_min (zlen p) ltac:(lia)) as Hm. pose proof (zlen_nonneg (enc_all recs)).
  split_and!.
  - rewrite E1, entries_end by done. by rewrite app_nil_r.
  - clear -Hi. generalize 0. induction Hi as [|[i q] recs Hv _ IH]; intros o; [constructor|]. cbn [judged_all].
    constructor; [|apply IH]. cbn in *. unfold judged. by rewrite Hv.
  - rewrite E2. eexists. rewrite (entries_step _ (zlen (enc_all recs))); [|done| |done].
    + rewrite verdict_encoded by done. unfold judged. apply block_verify_false in Hne. by rewrite Hne.
    + rewrite !zlen_app, He. unfold BLOCK_ALIGN in *. lia.
  - apply verdict_sound.
Qed.

(** C36. An interrupted offline sweep can be resumed and misses nothing.  On a
    directory with segment files and no checkpoint, [scrub] under any faults
    does not panic and does not touch the segments; it fails only if the
    device did.  Whatever it returned, running it again on a responsive device
    completes: its totals are those of the reference sweep over all files, and
    every finding of the reference was reported by the first run or is
    reported by the second, in order.  A first run that returned has already
    reported them all, with the same totals. *)
Theorem interrupted_scrub_resumes rate restart d reports read d1 r :
  1024 * 1024 ≤ rate ≤ 1024 * 1024 * 1024 → sweepable (dir_files d) →
  dir_files d !! PROGRESS_FILE = None →
  scrub rate restart ([], 0, d) = ((reports, read, d1), r) →
  let all := reference (dir_files d) (layout_of (dir_files d)) in
  r ≠ Panic ∧ (is_ok r = false → dir_plan d ≠ []) ∧ same_files (dir_files d) (dir_files d1) ∧
  reports `prefix_of` findings all ∧
  (∀ s, r = Ok s → totals (dir_files d) s ∧ reports = findings all) ∧
  ∃ s more read2 d2, scrub rate false ([], 0, reopened d1) = ((more, read2, d2), Ok s) ∧
    totals (dir_files d) s ∧ ∃ before, findings all = before ++ more ∧ before `prefix_of` reports.
Proof.
  intros Hr Hsw Hn E. cbn zeta. destruct (layout_json (layout_of (dir_files d))) as [text Ht].
  assert (∀ a b : list (string * (Z * Verdict)), a `prefix_of` b → findings a `prefix_of` findings b) as Hmono.
  { intros a b [k ->]. rewrite findings_app. by apply prefix_app_r. }
  pose proof (wp_scrub (dir_files d) text Hsw Ht (dir_plan d = []) rate restart [] d Hr
    (conj (λ _ _ _, eq_refl) (or_introl (conj Hn eq_refl))) id) as Hw. rewrite E in Hw.
  assert (∃ new, (is_ok r = true → new = reference (dir_files d) (layout_of (dir_files d))) ∧
    new `prefix_of` reference (dir_files d) (layout_of (dir_files d)) ∧ reports = findings new ∧
    resumable (dir_files d) (layout_of (dir_files d)) (hex_hash text) new (dir_files d1)) as
    (new & Hnew & Hpre & -> & Hres).
  { destruct r as [s|e|]; [|destruct Hw as [_ (new & Hp & -> & Hres)]; by exists new|done].
    destruct Hw as (_ & _ & (new & <- & ->) & Hres). by exists new. }
  split_and!.
  - by destruct r.
  - destruct r as [s|e|]; [done| |done]. intros _. apply Hw.
  - apply Hres.
  - by apply Hmono.
  - intros s ->. split; [apply Hw|]. by rewrite Hnew.
  - destruct Hres as [Hsame Hres].
    assert (∃ done0, starts (dir_files d) text false done0 (dir_files d1) ∧ done0 `prefix_of` new) as (done0 & Hst & Hd0).
    { destruct Hres as [Hnone|(done0 & p & Hsv & Ht0 & Hd0)].
      - exists []. split; [|apply prefix_nil]. split; [done|by left].
      - exists done0. split; [|done]. split; [done|]. right. by eauto. }
    pose proof (wp_scrub (dir_files d) text Hsw Ht True rate false done0 (reopened d1) Hr Hst (λ _, eq_refl)) as Hw2.
    destruct (scrub rate false ([], 0, reopened d1)) as [[[more read2] d2] [s|e|]]; [|by destruct Hw2 as [[] _]|done].
    destruct Hw2 as (_ & Htot & (new2 & Hall & ->) & _). exists s, (findings new2), read2, d2. split_and!; [done|done|].
    exists (findings done0). rewrite <-Hall, findings_app. split; [done|by apply Hmono].
Qed.
End ScrubTheorems.

(** ** Witnesses *)
Module ScrubExamples.
#[local] Existing Instance toy_blake3.
#[local] Existing Instance toy_hex.
#[local] Existing Instance toy_order.
#[local] Existing Instance toy_order_laws.
#[local] Instance toy_stamp : FileStamp := λ _ _, "dev:ino:mtime".

#[local] Instance ScrubSummary_eq_dec : EqDecision ScrubSummary.
Proof. solve_decision. Defined.
#[local] Instance ScrubSummary_countable : Countable ScrubSummary.
Proof.
  countable_by (λ x, (records_verified x, su_findings x, su_bytes_read x, complete x)) (λ '(a, b, c, d), MkSummary a b c d).
Defined.
#[local] Instance Progress_eq_dec : EqDecision Progress.
Proof. solve_decision. Defined.
#[local] Instance Progress_countable : Countable Progress.
Proof.
  countable_by (λ x, (pr_version x, pr_manifest x, pr_segment x, pr_offset x, pr_summary x))
    (λ '(a, b, c, d, e), MkProgress a b c d e).
Defined.
#[local] Instance toy_scrub_json : ScrubJson := {|
  json_of_layout l := inl (toy_enc l);
  json_of_progress p := inl (toy_enc p);
  json_of_saved c p := inl (toy_enc (c, p));
  saved_of_json l := match toy_dec l with Some x => inl x | None => inr "malformed" end |}.
#[local] Instance toy_scrub_json_laws : ScrubJsonLaws.
Proof.
  constructor; [by eexists..|]. intros c p. eexists. split; [done|]. cbn. by rewrite toy_dec_enc.
Qed.

Definition good_record : BlockId * bytes := (block_of [x01], [x01]).
Definition rotten_record : BlockId * bytes := (block_of [x01], [x02]).
Definition one_segment : bytes := enc_all [good_record; rotten_record].

Lemma one_segment_fits : fits one_segment.
Proof. unfold fits. by vm_compute. Qed.

Lemma sweep_finds_rot_witness :
  ∃ more, entries one_segment 0 = judged_all 0 [good_record] ++
    (4096, MkVerdict (Some "payload_hash_mismatch") (Some (block_of [x01])) 8192) :: more.
Proof.
  destruct (sweep_finds_rot [good_record] (block_of [x01]) [x02] [] [] 0) as (_ & _ & (more & E) & _).
  - by repeat constructor.
  - by repeat constructor.
  - by vm_compute.
  - by vm_compute.
  - by vm_compute.
  - apply one_segment_fits.
  - exists more. exact E.
Defined.

Definition scrub_files0 : gmap string bytes := {[ seg_name 0 := one_segment ]}.
(** The device fails in the middle of the second record. *)
Definition scrub_dir : Dir := MkDir scrub_files0 (replicate 20 None ++ [Some 0%nat]).

Lemma scrub_sweepable : sweepable scrub_files0.
Proof.
  assert (seg_names scrub_files0 = [seg_name 0]) as E by by vm_compute.
  constructor; unfold canonical; rewrite ?E.
  - intros n ->%list_elem_of_singleton. exists 0. clear E. split; by vm_compute.
  - clear E. done.
  - clear E. by vm_compute.
  - intros n ->%list_elem_of_singleton. unfold content, scrub_files0. rewrite lookup_singleton_eq. exact one_segment_fits.
Qed.

Lemma interrupted_scrub_resumes_witness :
  ∃ s more read d, scrub 1048576 false ([], 0, reopened (scrub 1048576 false ([], 0, scrub_dir)).1.2) = ((more, read, d), Ok s) ∧
    complete s = true.
Proof.
  destruct (scrub 1048576 false ([], 0, scrub_dir)) as [[[reports read] d1] r] eqn:E.
  destruct (interrupted_scrub_resumes 1048576 false scrub_dir reports read d1 r) as (_ & _ & _ & _ & _ & H).
  - lia.
  - exact scrub_sweepable.
  - by vm_compute.
  - exact E.
  - destruct H as (s & more & read2 & d2 & E2 & (Hc & _) & _). exists s, more, read2, d2. split; [exact E2|exact Hc].
Defined.
End ScrubExamples.
