(* ===== verification/OnlineScrub.v ===== *)
(** * Online segment inspection ([crates/kalpak-storage/src/online_scrub.rs]
      and [sealed_scrub_view] of [store.rs])

    A scanner that inspects sealed segments of a running store in small steps,
    at most one header or one 64 KiB payload read each, and saves its cursor
    in a checksummed file.  The state of a step is the scanner, the store with
    its I/O world, and the directory that holds the cursor.  Other threads
    appear twice in a step: [busy] is [foreground_io_active] as it answers
    then, and [others] is what they do to the store between the read and the
    second look at the generation. *)

From S2P Require Import Prelude Core Durability Io Segment Store Scrub.
From Stdlib Require Import Strings.Byte.

Record Cursor := MkCursor {
  cu_version : Z;
  cu_segment : Z;
  cu_generation : option string;
  cu_offset : Z;
  cu_sweeps : Z }.
Record OnlineFinding := MkOnlineFinding {
  of_segment : Z;
  of_generation : string;
  of_offset : Z;
  of_block : option BlockId;
  of_kind : string }.
Record ScrubStep := MkStep {
  sp_bytes_read : Z;
  sp_page_budget : Z;
  sp_verified : Z;
  sp_findings : list OnlineFinding;
  sp_reset : bool;
  sp_yielded : bool;
  sp_idle : bool }.
Definition no_step : ScrubStep := MkStep 0 0 0 [] false false false.
Definition set_idle (r : ScrubStep) : ScrubStep :=
  MkStep (sp_bytes_read r) (sp_page_budget r) (sp_verified r) (sp_findings r) (sp_reset r) (sp_yielded r) true.

(** The hasher is the bytes it was fed. *)
Record Partial (F : Type) := MkPartial {
  pa_file : F;
  pa_id : BlockId;
  pa_length : Z;
  pa_total : Z;
  pa_read : Z;
  pa_hash : bytes }.
Arguments MkPartial {F}.
Arguments pa_file {F}.
Arguments pa_id {F}.
Arguments pa_length {F}.
Arguments pa_total {F}.
Arguments pa_read {F}.
Arguments pa_hash {F}.

Record OnlineScrubber (F : Type) := MkScrubber { os_cursor : Cursor; os_partial : option (Partial F) }.
Arguments MkScrubber {F}.
Arguments os_cursor {F}.
Arguments os_partial {F}.

Class CursorJson := {
  json_of_cursor : Cursor → bytes + string;
  json_of_saved_cursor : string → Cursor → bytes + string;
  saved_cursor_of_json : bytes → (string * Cursor) + string }.
Class CursorJsonLaws `{CursorJson} := {
  cursor_json : ∀ c, ∃ x, json_of_cursor c = inl x;
  saved_cursor_json : ∀ h c, ∃ x, json_of_saved_cursor h c = inl x ∧ saved_cursor_of_json x = inl (h, c) }.

(** [std::fs::metadata] of a segment file, as the text of its generation (its
    identity, length and times) and its length. *)
Class SegmentMeta (W : Type) := seg_meta : fname → ST W io_error (string * Z).
Class SegmentMetaLaws (W F : Type) `{SegmentMeta W, SegmentView W F} := {
  generation_of : W → F → string;
  generation_stable : ∀ w w' f, same_disk w w' → generation_of w' f = generation_of w f;
  law_meta : ∀ p f w w' r, seg_meta p w = (w', r) → dir_of w !! p = Some f → healthy w →
    same_disk w w' ∧ healthy w' ∧ r = Ok (generation_of w f, zlen (bytes_of w f)) }.

Definition CURSOR_FILE : string := "online-scrub-progress.json".
Definition CURSOR_PENDING : string := "online-scrub-progress.pending".

Section OnlineScrub.
Context {W F : Type} `{SegmentIo W F, SegmentMeta W, Blake3, Hex, CursorJson}.

Abbreviation St := (W * BlockStore F)%type.
Abbreviation OM := (ST (OnlineScrubber F * St * Dir) io_error).

(** ** [open] and [save] *)
Definition cursor_err {S A} (x : A + string) : ST S io_error A :=
  st_lift (match x with inl a => Ok a | inr message => Err (io_other message) end).

Definition read_cursor (content : bytes) : FS Cursor :=
  if 16 * 1024 <? zlen content then st_throw (io_other "online scrub checkpoint too large")
  else
    cursor_err (saved_cursor_of_json content) ≫= λ '(checksum, cursor),
    cursor_err (json_of_cursor cursor) ≫= λ encoded,
    if bool_decide (checksum = hex_hash encoded) then mret cursor
    else st_throw (io_other "online scrub checkpoint checksum mismatch").

Definition invalid_cursor (c : Cursor) : bool :=
  negb (cu_version c =? 1) || negb (cu_offset c mod BLOCK_ALIGN =? 0) ||
  match cu_generation c with Some g => 512 <? str_len g | None => false end.

Definition load_cursor : FS Cursor := λ d,
  match fs_read CURSOR_FILE d with
  | (d, Ok content) => read_cursor content d
  | (d, Err e) => if bool_decide (io_kind_of e = KNotFound) then (d, Ok (MkCursor 1 0 None 0 0)) else (d, Err e)
  | (d, Panic) => (d, Panic)
  end.
Definition online_open : FS (OnlineScrubber F) :=
  load_cursor ≫= λ cursor,
  if invalid_cursor cursor then st_throw (io_other "invalid online scrub checkpoint")
  else mret (MkScrubber cursor None).

Definition save : OM () := λ '(sc, st, d),
  let (d, r) :=
    (cursor_err (json_of_cursor (os_cursor sc)) ≫= λ encoded,
     cursor_err (json_of_saved_cursor (hex_hash encoded) (os_cursor sc)) ≫= λ bytes_,
     replace CURSOR_FILE CURSOR_PENDING bytes_) d in
  ((sc, st, d), r).

(** ** The store's view of a sealed segment *)
Record SealedScrubView := MkView { vw_file : F; vw_generation : string; vw_length : Z }.

Definition sealed_scrub_view (segment : Z) : ST St io_error (option SealedScrubView) := λ '(w, s),
  if Z.max 0 (zlen (files s) - 1) <=? segment then ((w, s), Ok None)
  else
    match seg_meta (SegName segment) w with
    | (w, Ok (generation, length_)) =>
        match files s !! Z.to_nat segment with
        | Some file => ((w, s), Ok (Some (MkView file generation length_)))
        | None => ((w, s), Panic)
        end
    | (w, Err e) => ((w, s), Err e)
    | (w, Panic) => ((w, s), Panic)
    end.

(** ** One step *)
Definition on_store {A} (m : ST St io_error A) : OM A := λ '(sc, st, d),
  let (st, r) := m st in ((sc, st, d), r).
Definition on_file {A} (m : ST W io_error A) : OM A := λ '(sc, (w, s), d),
  let (w, r) := m w in ((sc, (w, s), d), r).
Definition scanner : OM (OnlineScrubber F) := λ '(sc, st, d), ((sc, st, d), Ok sc).
Definition set_scanner (f : OnlineScrubber F → OnlineScrubber F) : OM () := λ '(sc, st, d), ((f sc, st, d), Ok ()).
Definition interfere (others : St → St) : OM () := λ '(sc, st, d), ((sc, others st, d), Ok ()).

Definition restart_sweep (sc : OnlineScrubber F) : OnlineScrubber F :=
  let c := os_cursor sc in MkScrubber (MkCursor (cu_version c) 0 None 0 (saturating_add64 (cu_sweeps c) 1)) None.
Definition enter_generation (g : string) (sc : OnlineScrubber F) : OnlineScrubber F :=
  let c := os_cursor sc in MkScrubber (MkCursor (cu_version c) (cu_segment c) (Some g) 0 (cu_sweeps c)) None.
Definition leave_generation (sc : OnlineScrubber F) : OnlineScrubber F :=
  let c := os_cursor sc in MkScrubber (MkCursor (cu_version c) (cu_segment c) None 0 (cu_sweeps c)) None.
Definition enter_segment (segment : Z) (sc : OnlineScrubber F) : OnlineScrubber F :=
  let c := os_cursor sc in MkScrubber (MkCursor (cu_version c) segment None 0 (cu_sweeps c)) None.
Definition move_to (offset : Z) (sc : OnlineScrubber F) : OnlineScrubber F :=
  let c := os_cursor sc in
  MkScrubber (MkCursor (cu_version c) (cu_segment c) (cu_generation c) offset (cu_sweeps c)) None.
Definition set_partial (p : option (Partial F)) (sc : OnlineScrubber F) : OnlineScrubber F :=
  MkScrubber (os_cursor sc) p.

(** What one read found: where to go next, what is wrong, which block. *)
Record Outcome := MkOutcome {
  oc_next : option Z;
  oc_bad : option string;
  oc_block : option BlockId;
  oc_read : Z;
  oc_budget : Z;
  oc_verified : Z }.

Definition page_budget (offset count : Z) : Z := div_ceil (offset mod BLOCK_ALIGN + count) BLOCK_ALIGN * BLOCK_ALIGN.

(** The next piece of a payload. *)
Definition payload_step (start : Z) (p : Partial F) : OM Outcome :=
  let count := Z.min (pa_length p - pa_read p) CHUNK in
  let offset := start + HEADER_LEN + pa_read p in
  on_file (f_read (pa_file p) offset count) ≫= λ buffer,
  let p := MkPartial (pa_file p) (pa_id p) (pa_length p) (pa_total p) (pa_read p + count) (pa_hash p ++ buffer) in
  set_scanner (set_partial (Some p)) ≫= λ _,
  let done := MkOutcome None None (Some (pa_id p)) count (page_budget offset count) 0 in
  mret (if pa_read p =? pa_length p then
          if block_verify (pa_id p) (pa_hash p) then
            MkOutcome (Some (start + pa_total p)) None (Some (pa_id p)) count (page_budget offset count) 1
          else MkOutcome None (Some "payload_hash_mismatch") (Some (pa_id p)) count (page_budget offset count) 0
        else done).

(** A header. *)
Definition header_step (start : Z) (view : SealedScrubView) : OM Outcome :=
  let count := Z.min (vw_length view - start) HEADER_LEN in
  on_file (f_read (vw_file view) start count) ≫= λ header,
  let out next bad block verified := mret (MkOutcome next bad block count BLOCK_ALIGN verified) in
  if negb (count =? HEADER_LEN) then out None (Some "truncated_header") None 0
  else
    match parse_header header with
    | None => out None (Some "invalid_header") None 0
    | Some rec =>
        let block := Some (hdr_id rec) in
        if negb (reserved_clear header) then out None (Some "invalid_reserved_header") block 0
        else
          match padded (hdr_payload_len rec) with
          | None => out None (Some "length_overflow") block 0
          | Some total =>
              if vw_length view - start <? total then out None (Some "truncated_or_invalid_length") block 0
              else if hdr_payload_len rec =? 0 then
                if bool_decide (hdr_id rec = block_of []) then out (Some (start + total)) None block 1
                else out None (Some "payload_hash_mismatch") block 0
              else
                set_scanner (set_partial (Some (MkPartial (vw_file view) (hdr_id rec) (hdr_payload_len rec) total 0 [])))
                  ≫= λ _, out None None block 0
          end
    end.

(** After the read: publish against the generation it was made in, or not. *)
Definition publish (view : SealedScrubView) (start : Z) (reset : bool) (o : Outcome) : OM ScrubStep :=
  scanner ≫= λ sc,
  on_store (sealed_scrub_view (cu_segment (os_cursor sc))) ≫= λ current,
  if negb (bool_decide (vw_generation <$> current = Some (vw_generation view))) then
    set_scanner leave_generation ≫= λ _,
    save ≫= λ _,
    mret (MkStep (oc_read o) (oc_budget o) 0 [] true false false)
  else
    let findings :=
      match oc_bad o with
      | Some kind => [MkOnlineFinding (cu_segment (os_cursor sc)) (vw_generation view) start (oc_block o) kind]
      | None => []
      end in
    let next := match oc_bad o with Some _ => Some (saturating_add64 start BLOCK_ALIGN) | None => oc_next o end in
    match next with
    | Some next => set_scanner (move_to next) ≫= λ _, save
    | None => mret ()
    end ≫= λ _,
    mret (MkStep (oc_read o) (oc_budget o) (oc_verified o) findings reset false false).

Definition inspect_view (others : St → St) (view : SealedScrubView) (reset : bool) : OM ScrubStep :=
  scanner ≫= λ sc,
  let start := cu_offset (os_cursor sc) in
  if vw_length view <=? start then
    match (if cu_segment (os_cursor sc) <? u32_max then Some (cu_segment (os_cursor sc) + 1) else None) with
    | None => st_throw (io_other "segment cursor overflow")
    | Some segment =>
        set_scanner (enter_segment segment) ≫= λ _,
        save ≫= λ _,
        mret (MkStep 0 0 0 [] reset false true)
    end
  else
    match os_partial sc with
    | Some p => payload_step start p
    | None => header_step start view
    end ≫= λ o,
    interfere others ≫= λ _,
    publish view start reset o.

Definition step (busy : bool) (others : St → St) : OM ScrubStep :=
  if busy then mret (MkStep 0 0 0 [] false true false)
  else
    scanner ≫= λ sc,
    on_store (sealed_scrub_view (cu_segment (os_cursor sc))) ≫= λ view,
    match view with
    | None =>
        (if cu_segment (os_cursor sc) =? 0 then mret () else set_scanner restart_sweep ≫= λ _, save) ≫= λ _,
        mret (set_idle no_step)
    | Some view =>
        if bool_decide (cu_generation (os_cursor sc) = Some (vw_generation view)) then
          inspect_view others view false
        else
          set_scanner (enter_generation (vw_generation view)) ≫= λ _,
          save ≫= λ _,
          inspect_view others view (bool_decide (is_Some (cu_generation (os_cursor sc))))
    end.

End OnlineScrub.
