(* ===== verification/OnlineScrubTheorems.v ===== *)
(** * The online scanner agrees with the reference sweep

    Steps over a sealed segment, interleaved with foreground activity in any
    way, report what the [sweep] of its bytes reports. *)

From S2P Require Import Prelude Core Durability Metadata Codecs Io Segment Store Scrub ScrubTheorems OnlineScrub.
From Stdlib Require Import Strings.Byte.
#[local] Ltac Zify.zify_post_hook ::= Z.div_mod_to_equations.

Section Online.
Context {W F : Type} `{SegmentIoLaws W F, SegmentMeta W, !SegmentMetaLaws W F, Blake3, Hex, CursorJsonLaws}.
Abbreviation St := (W * BlockStore F)%type.
Abbreviation State := (OnlineScrubber F * St * Dir)%type.

(** A sealed segment [seg], open as [f] with bytes [c] in generation [g], on
    devices that answer. *)
Record stable (seg : Z) (f : F) (c : bytes) (g : string) (st : St) (d : Dir) : Prop := {
  sb_file : files st.2 !! Z.to_nat seg = Some f;
  sb_sealed : 0 ≤ seg ∧ seg + 1 < zlen (files st.2) ∧ seg < u32_max;
  sb_named : dir_of st.1 !! SegName seg = Some f;
  sb_healthy : healthy st.1;
  sb_bytes : bytes_of st.1 f = c;
  sb_fits : fits c;
  sb_generation : generation_of st.1 f = g;
  sb_answers : dir_plan d = [] }.

Lemma stable_same seg f c g w w' s d d' :
  stable seg f c g (w, s) d → same_disk w w' → healthy w' → dir_plan d' = [] → stable seg f c g (w', s) d'.
Proof.
  intros [] [Hd Hb] Hh Hp. constructor; cbn in *; try done.
  - by rewrite Hd.
  - by rewrite Hb.
  - rewrite <-sb_generation0. by apply generation_stable.
Qed.

Lemma view_ok seg f c g w s d :
  stable seg f c g (w, s) d →
  ∃ w', sealed_scrub_view seg (w, s) = ((w', s), Ok (Some (MkView f g (zlen c)))) ∧ stable seg f c g (w', s) d.
Proof.
  intros Hs. pose proof Hs as []. cbn in *. unfold sealed_scrub_view.
  rewrite (proj2 (Z.leb_gt _ _)) by lia. destruct (seg_meta (SegName seg) w) as [w' r] eqn:E.
  destruct (law_meta _ _ _ _ _ E sb_named0 sb_healthy0) as (Hd & Hh & ->). rewrite sb_file0.
  rewrite sb_generation0, sb_bytes0. eexists. split; [done|]. by eapply stable_same.
Qed.

Lemma save_ok (sc : OnlineScrubber F) (st : St) d : dir_plan d = [] → ∃ d', save (sc, st, d) = ((sc, st, d'), Ok ()) ∧ dir_plan d' = [].
Proof.
  intros Hp. unfold save. destruct (cursor_json (os_cursor sc)) as [enc Ee].
  destruct (saved_cursor_json (hex_hash enc) (os_cursor sc)) as (x & Ex & _).
  unfold cursor_err, st_lift, mbind, ST_bind. rewrite Ee, Ex.
  pose proof (replace_spec CURSOR_FILE CURSOR_PENDING x d ltac:(done)) as Hr.
  pose proof (quiet_replace CURSOR_FILE CURSOR_PENDING x d Hp) as Hq.
  destruct (replace CURSOR_FILE CURSOR_PENDING x d) as [d' r]. destruct Hr as [[-> _]|(e & _ & ? & _)]; [|done].
  by exists d'.
Qed.

Lemma read_ok seg f c g (sc : OnlineScrubber F) w s d off n :
  stable seg f c g (w, s) d → 0 ≤ off → 0 ≤ n → off + n ≤ zlen c →
  ∃ w', on_file (f_read f off n) (sc, (w, s), d) = ((sc, (w', s), d), Ok (zslice c off n)) ∧ stable seg f c g (w', s) d.
Proof.
  intros Hs Ho Hn Hl. pose proof Hs as []. cbn in *. unfold on_file. destruct (f_read f off n w) as [w' r] eqn:E.
  destruct (law_read _ _ _ _ _ _ E) as (Hd & _ & Hr & Hh). destruct (Hh sb_healthy0) as [Hh' Hok]. rewrite sb_bytes0 in *.
  specialize (Hok Ho Hn Hl). destruct r as [l| |]; [|done..]. destruct (Hr l eq_refl Ho Hn) as [_ ->].
  exists w'. split; [done|]. by eapply stable_same.
Qed.

(** ** Scanner positions *)
Definition at_ (seg : Z) (g : string) (off sweeps : Z) (p : option (Partial F)) : OnlineScrubber F :=
  MkScrubber (MkCursor 1 seg (Some g) off sweeps) p.

Definition online_finding (seg : Z) (g : string) (e : Z * Verdict) : option OnlineFinding :=
  (λ kind, MkOnlineFinding seg g e.1 (v_block e.2) kind) <$> v_bad e.2.
Definition ok_count (e : Z * Verdict) : Z := if decide (v_bad e.2 = None) then 1 else 0.
Definition all_findings (rs : list ScrubStep) : list OnlineFinding := concat (sp_findings <$> rs).
Definition all_verified (rs : list ScrubStep) : Z := foldr (λ r n, sp_verified r + n) 0 rs.

(** The steps report these entries. *)
Definition reports (seg : Z) (g : string) (es : list (Z * Verdict)) (rs : list ScrubStep) : Prop :=
  all_findings rs = omap (online_finding seg g) es ∧
  all_verified rs = foldr (λ e n, ok_count e + n) 0 es.

Lemma reports_app seg g es1 es2 rs1 rs2 :
  reports seg g es1 rs1 → reports seg g es2 rs2 → reports seg g (es1 ++ es2) (rs1 ++ rs2).
Proof.
  intros [Hf1 Hv1] [Hf2 Hv2]. split.
  - unfold all_findings in *. by rewrite fmap_app, concat_app, omap_app, Hf1, Hf2.
  - unfold all_verified in *. rewrite !foldr_app, Hv2.
    assert (∀ rs n, foldr (λ r n, sp_verified r + n) n rs = foldr (λ r n, sp_verified r + n) 0 rs + n) as Hr
      by (induction rs as [|r rs IH]; intros n; cbn; [lia|rewrite IH; lia]).
    assert (∀ (es : list (Z * Verdict)) n, foldr (λ e n, ok_count e + n) n es = foldr (λ e n, ok_count e + n) 0 es + n) as He
      by (induction es as [|e es IH]; intros n; cbn; [lia|rewrite IH; lia]).
    rewrite Hr, Hv1. symmetry. apply He.
Qed.

Fixpoint steps (pattern : list bool) : ST State io_error (list ScrubStep) :=
  match pattern with
  | [] => mret []
  | busy :: pattern => step busy id ≫= λ r, steps pattern ≫= λ rs, mret (r :: rs)
  end.

(** [n] steps with no foreground activity lead from [x] to [y]. *)
Definition reaches (x : State) (n : nat) (rs : list ScrubStep) (y : State) : Prop :=
  steps (replicate n false) x = (y, Ok rs).
Lemma reaches_0 x : reaches x 0 [] x.
Proof. done. Qed.
Lemma reaches_1 x r y : step false id x = (y, Ok r) → reaches x 1 [r] y.
Proof. intros E. unfold reaches. cbn [steps replicate]. unfold mbind, ST_bind. by rewrite E. Qed.
Lemma reaches_app x n rs y m rs' z : reaches x n rs y → reaches y m rs' z → reaches x (n + m) (rs ++ rs') z.
Proof.
  unfold reaches. revert x rs. induction n as [|n IH]; intros x rs E1 E2; cbn [steps replicate Nat.add] in *.
  - by injection E1 as -> <-.
  - unfold mbind, ST_bind in *. destruct (step false id x) as [x1 [r| |]]; [|done..].
    destruct (steps (replicate n false) x1) as [y1 [rs1| |]] eqn:E; [|done..].
    injection E1 as -> <-. by rewrite (IH x1 rs1 E E2).
Qed.

(** ** Single steps *)
Lemma publish_ok seg f c g w s d off sweeps p o :
  stable seg f c g (w, s) d →
  let next := match oc_bad o with Some _ => Some (saturating_add64 off BLOCK_ALIGN) | None => oc_next o end in
  ∃ w' d', publish (MkView f g (zlen c)) off false o (at_ seg g off sweeps p, (w, s), d) =
    ((match next with Some n => at_ seg g n sweeps None | None => at_ seg g off sweeps p end, (w', s), d'),
     Ok (MkStep (oc_read o) (oc_budget o) (oc_verified o)
       (match oc_bad o with Some kind => [MkOnlineFinding seg g off (oc_block o) kind] | None => [] end)
       false false false)) ∧ stable seg f c g (w', s) d'.
Proof.
  intros Hs next. destruct (view_ok _ _ _ _ _ _ _ Hs) as (w1 & Ev & Hs1).
  unfold publish, scanner, on_store, mbind, ST_bind. cbn [os_cursor at_ cu_segment]. rewrite Ev.
  rewrite bool_decide_eq_true_2 by done. cbn [negb]. fold next. destruct next as [n|].
  - unfold set_scanner. destruct (save_ok (move_to n (at_ seg g off sweeps p)) (w1, s) d (sb_answers _ _ _ _ _ _ Hs1))
      as (d' & Es & Hp). rewrite Es. exists w1, d'. split; [done|]. eapply stable_same; [done|done| |done].
    apply (sb_healthy _ _ _ _ _ _ Hs1).
  - exists w1, d. by split.
Qed.

(** What a step at [off] does, once its read gave [o]. *)
Definition lands (seg : Z) (g : string) (off sweeps : Z) (p : option (Partial F)) (o : Outcome) : OnlineScrubber F :=
  match (match oc_bad o with Some _ => Some (saturating_add64 off BLOCK_ALIGN) | None => oc_next o end) with
  | Some n => at_ seg g n sweeps None
  | None => at_ seg g off sweeps p
  end.
Definition step_of (seg : Z) (g : string) (off : Z) (o : Outcome) : ScrubStep :=
  MkStep (oc_read o) (oc_budget o) (oc_verified o)
    (match oc_bad o with Some kind => [MkOnlineFinding seg g off (oc_block o) kind] | None => [] end) false false false.

(** A step is a read followed by its publication. *)
Lemma step_reads seg f c g w s d off sweeps p :
  stable seg f c g (w, s) d → 0 ≤ off < zlen c →
  (∀ w1, stable seg f c g (w1, s) d → ∃ w2 p2 o,
     match p with Some x => payload_step off x | None => header_step off (MkView f g (zlen c)) end
       (at_ seg g off sweeps p, (w1, s), d) = ((at_ seg g off sweeps p2, (w2, s), d), Ok o) ∧
     stable seg f c g (w2, s) d) →
  ∃ w1 p2 o w2 w' d', stable seg f c g (w1, s) d ∧
    match p with Some x => payload_step off x | None => header_step off (MkView f g (zlen c)) end
       (at_ seg g off sweeps p, (w1, s), d) = ((at_ seg g off sweeps p2, (w2, s), d), Ok o) ∧
    step false id (at_ seg g off sweeps p, (w, s), d) =
      ((lands seg g off sweeps p2 o, (w', s), d'), Ok (step_of seg g off o)) ∧ stable seg f c g (w', s) d'.
Proof.
  intros Hs Ho Hread. destruct (view_ok _ _ _ _ _ _ _ Hs) as (w1 & Ev & Hs1).
  destruct (Hread w1 Hs1) as (w2 & p2 & o & Er & Hs2).
  destruct (publish_ok seg f c g w2 s d off sweeps p2 o Hs2) as (w' & d' & Ep & Hs').
  exists w1, p2, o, w2, w', d'. split_and!; [done|done| |done].
  unfold step, scanner, on_store. unfold mbind at 1, ST_bind at 1. cbn [os_cursor at_ cu_segment].
  unfold mbind at 1, ST_bind at 1. rewrite Ev. rewrite bool_decide_eq_true_2 by done.
  unfold inspect_view, scanner. unfold mbind at 1, ST_bind at 1. cbn [os_cursor at_ cu_offset vw_length os_partial].
  rewrite (proj2 (Z.leb_gt _ _)) by lia. unfold mbind at 1, ST_bind at 1.
  change (MkScrubber (MkCursor 1 seg (Some g) off sweeps) p) with (at_ seg g off sweeps p).
  destruct p; rewrite Er; unfold interfere, mbind, ST_bind; exact Ep.
Qed.

(** The end of the segment. *)
Lemma step_end seg f c g w s d off sweeps p :
  stable seg f c g (w, s) d → zlen c ≤ off →
  ∃ w' d', step false id (at_ seg g off sweeps p, (w, s), d) =
    ((MkScrubber (MkCursor 1 (seg + 1) None 0 sweeps) None, (w', s), d'), Ok (set_idle no_step)) ∧
    stable seg f c g (w', s) d'.
Proof.
  intros Hs Ho. destruct (view_ok _ _ _ _ _ _ _ Hs) as (w1 & Ev & Hs1).
  destruct (save_ok (enter_segment (seg + 1) (at_ seg g off sweeps p)) (w1, s) d (sb_answers _ _ _ _ _ _ Hs1)) as (d' & Es & Hp).
  exists w1, d'. split.
  - unfold step, scanner, on_store. unfold mbind at 1, ST_bind at 1. cbn [os_cursor at_ cu_segment].
    unfold mbind at 1, ST_bind at 1. rewrite Ev. rewrite bool_decide_eq_true_2 by done.
    unfold inspect_view, scanner. unfold mbind at 1, ST_bind at 1. cbn [os_cursor at_ cu_offset vw_length cu_segment].
    rewrite (proj2 (Z.leb_le _ _)) by lia. destruct (sb_sealed _ _ _ _ _ _ Hs) as (_ & _ & Hu).
    rewrite (proj2 (Z.ltb_lt _ _)) by done. unfold set_scanner, mbind, ST_bind. by rewrite Es.
  - eapply stable_same; [done|done| |done]. apply (sb_healthy _ _ _ _ _ _ Hs1).
Qed.

(** A partial record: its header is good, part of the payload is hashed. *)
Record in_payload (f : F) (c : bytes) (off : Z) (p : Partial F) : Prop := {
  ip_header : off + HEADER_LEN ≤ zlen c ∧
    parse_header (zslice c off HEADER_LEN) = Some (MkHeader (pa_id p) (pa_length p));
  ip_reserved : reserved_clear (zslice c off HEADER_LEN) = true;
  ip_total : padded (pa_length p) = Some (pa_total p);
  ip_whole : off + pa_total p ≤ zlen c;
  ip_file : pa_file p = f;
  ip_read : 0 ≤ pa_read p < pa_length p;
  ip_hash : pa_hash p = zslice c (off + HEADER_LEN) (pa_read p) }.

Lemma verdict_in_payload f c off p :
  in_payload f c off p →
  verdict c off = if block_verify (pa_id p) (zslice c (off + HEADER_LEN) (pa_length p))
    then MkVerdict None (Some (pa_id p)) (off + pa_total p)
    else MkVerdict (Some "payload_hash_mismatch") (Some (pa_id p)) (saturating_add64 off BLOCK_ALIGN).
Proof.
  intros [[Hl Hh] Hr Ht Hw _ _ _]. unfold verdict. rewrite (proj2 (Z.ltb_ge _ _)) by lia. rewrite Hh. cbn.
  by rewrite Hr, Ht, (proj2 (Z.ltb_ge _ _)) by lia.
Qed.

(** The outcome that settles the verdict [v] of the offset. *)
Definition settles (v : Verdict) (o : Outcome) : Prop :=
  oc_bad o = v_bad v ∧ oc_block o = v_block v ∧
  match v_bad v with None => oc_next o = Some (v_next v) ∧ oc_verified o = 1 | Some _ => oc_verified o = 0 end.
Definition pending_ (o : Outcome) : Prop := oc_bad o = None ∧ oc_next o = None ∧ oc_verified o = 0.

Lemma payload_read seg f c g w s d off sweeps p :
  stable seg f c g (w, s) d → 0 ≤ off → in_payload f c off p →
  ∃ w' p' o, payload_step off p (at_ seg g off sweeps (Some p), (w, s), d) =
      ((at_ seg g off sweeps (Some p'), (w', s), d), Ok o) ∧ stable seg f c g (w', s) d ∧ 0 ≤ oc_read o ≤ CHUNK ∧
    (settles (verdict c off) o ∨ pending_ o ∧ in_payload f c off p' ∧ pa_length p' - pa_read p' < pa_length p - pa_read p).
Proof.
  intros Hs Ho Hip. pose proof (verdict_in_payload _ _ _ _ Hip) as Hv.
  destruct Hip as [[Hl Hh] Hr Ht Hw Hf Hrd Hhash].
  destruct (padded_spec (pa_length p) (pa_total p)) as [Hpad _]; [lia|done|].
  unfold payload_step. cbn zeta. set (count := Z.min (pa_length p - pa_read p) CHUNK).
  assert (0 < count ≤ CHUNK ∧ count ≤ pa_length p - pa_read p) as Hc by (unfold count, CHUNK in *; lia).
  destruct (read_ok seg f c g (at_ seg g off sweeps (Some p)) w s d (off + HEADER_LEN + pa_read p) count) as (w1 & Er & Hs1);
    [done|unfold HEADER_LEN in *; lia..|].
  unfold mbind, ST_bind. rewrite Hf, Er. unfold set_scanner. cbn [pa_read pa_length pa_id pa_hash pa_total].
  rewrite Hhash, zslice_extend by (unfold HEADER_LEN; lia).
  eexists w1, _, _. split; [reflexivity|]. split; [done|]. destruct (Z.eqb_spec (pa_read p + count) (pa_length p)) as [He|He].
  - rewrite He. rewrite Hv. split; [case_match; cbn; lia|]. left. by destruct (block_verify _ _).
  - split; [cbn; lia|]. right. split; [done|]. split; [|cbn; lia]. constructor; cbn; try done. lia.
Qed.

(** A header settles the offset, or opens a payload. *)
Lemma header_read seg f c g w s d off sweeps :
  stable seg f c g (w, s) d → 0 ≤ off < zlen c →
  ∃ w' p' o, header_step off (MkView f g (zlen c)) (at_ seg g off sweeps None, (w, s), d) =
      ((at_ seg g off sweeps p', (w', s), d), Ok o) ∧ stable seg f c g (w', s) d ∧ 0 ≤ oc_read o ≤ HEADER_LEN ∧
    (settles (verdict c off) o ∨ pending_ o ∧ ∃ p, p' = Some p ∧ in_payload f c off p).
Proof.
  intros Hs Ho. unfold header_step. cbn zeta. cbn [vw_length vw_file].
  set (count := Z.min (zlen c - off) HEADER_LEN).
  destruct (read_ok seg f c g (at_ seg g off sweeps None) w s d off count) as (w1 & Er & Hs1);
    [done|unfold count, HEADER_LEN; lia..|].
  assert (0 ≤ count ≤ HEADER_LEN) as Hcr by (unfold count, HEADER_LEN; lia).
  unfold mbind at 1, ST_bind at 1. rewrite Er. unfold verdict.
  destruct (Z.eqb_spec count HEADER_LEN) as [Ec|Ec]; cbn [negb].
  2:{ rewrite (proj2 (Z.ltb_lt _ _)) by (unfold count in *; lia). eexists w1, _, _. split; [reflexivity|]. by split_and!; [done|cbn; lia..|left]. }
  rewrite (proj2 (Z.ltb_ge _ _)) by (unfold count in *; lia). rewrite Ec.
  destruct (parse_header _) as [rec|] eqn:Ep.
  2:{ eexists w1, _, _. split; [reflexivity|]. by split_and!; [done|cbn; lia..|left]. }
  pose proof (parse_header_len _ _ Ep) as Hlen.
  destruct (reserved_clear _) eqn:Er'; cbn [negb].
  2:{ eexists w1, _, _. split; [reflexivity|]. by split_and!; [done|cbn; lia..|left]. }
  destruct (padded _) as [total|] eqn:Et.
  2:{ eexists w1, _, _. split; [reflexivity|]. by split_and!; [done|cbn; lia..|left]. }
  destruct (zlen c - off <? total) eqn:El.
  { eexists w1, _, _. split; [reflexivity|]. by split_and!; [done|cbn; lia..|left]. }
  apply Z.ltb_ge in El. destruct (Z.eqb_spec (hdr_payload_len rec) 0) as [E0|E0].
  - rewrite E0. assert (zslice c (off + HEADER_LEN) 0 = []) as -> by done. unfold block_verify.
    rewrite (bool_decide_ext (hdr_id rec = block_of []) (block_of [] = hdr_id rec)) by (split; congruence).
    case_match; (eexists w1, _, _; split; [reflexivity|]; by split_and!; [done|cbn; lia..|left]).
  - eexists w1, _, _. split; [reflexivity|]. split_and!; [done|cbn; lia..|right]. split; [done|].
    eexists. split; [done|]. constructor; cbn; try done; try lia.
    + split; [unfold count in *; lia|]. rewrite Ep. by destruct rec.
Qed.

Lemma verdict_bad_next c off : v_bad (verdict c off) ≠ None → v_next (verdict c off) = saturating_add64 off BLOCK_ALIGN.
Proof. unfold verdict. repeat (case_match; try done). Qed.

Lemma settled_lands seg g c off sweeps p o :
  settles (verdict c off) o → lands seg g off sweeps p o = at_ seg g (v_next (verdict c off)) sweeps None.
Proof.
  intros (Hb & _ & Hn). unfold lands. rewrite Hb. destruct (v_bad (verdict c off)) eqn:E.
  - rewrite verdict_bad_next; [done|]. by rewrite E.
  - by destruct Hn as [-> _].
Qed.
Lemma settled_reports seg g c off o :
  settles (verdict c off) o → reports seg g [(off, verdict c off)] [step_of seg g off o].
Proof.
  intros (Hb & Hk & Hn). unfold reports, all_findings, all_verified, step_of, online_finding, ok_count. cbn.
  rewrite Hb, Hk. destruct (v_bad (verdict c off)); cbn; [by rewrite Hn|]. by destruct Hn as [_ ->].
Qed.
Lemma pending_reports seg g off o : pending_ o → reports seg g [] [step_of seg g off o].
Proof.
  intros (Hb & _ & Hv). unfold reports, all_findings, all_verified, step_of. cbn. by rewrite Hb, Hv.
Qed.

Definition bounded (rs : list ScrubStep) : Prop := Forall (λ r, 0 ≤ sp_bytes_read r ≤ CHUNK) rs.

(** The rest of a payload. *)
Lemma payload_steps k seg f c g w s d off sweeps p :
  stable seg f c g (w, s) d → 0 ≤ off < zlen c → in_payload f c off p → pa_length p - pa_read p ≤ Z.of_nat k →
  ∃ n rs w' d', reaches (at_ seg g off sweeps (Some p), (w, s), d) n rs
      (at_ seg g (v_next (verdict c off)) sweeps None, (w', s), d') ∧
    stable seg f c g (w', s) d' ∧ reports seg g [(off, verdict c off)] rs ∧ bounded rs.
Proof.
  revert w d p. induction k as [|k IH]; intros w d p Hs Ho Hip Hk; [destruct (ip_read _ _ _ _ Hip); lia|].
  destruct (step_reads seg f c g w s d off sweeps (Some p)) as (w1 & p2 & o & w2 & w' & d' & Hs1 & Er & Est & Hs'); [done|done| |].
  { intros w1 Hs1. destruct (payload_read seg f c g w1 s d off sweeps p) as (w2 & p' & o & E & Hs2 & _); [done|lia|done|].
    by exists w2, (Some p'), o. }
  destruct (payload_read seg f c g w1 s d off sweeps p) as (w2' & p' & o' & E & _ & Hrd & Hcase); [done|lia|done|].
  rewrite E in Er. injection Er as <- <- <-. destruct Hcase as [Hset|(Hpend & Hip' & Hlt)].
  - exists 1%nat, [step_of seg g off o'], w', d'. rewrite <-(settled_lands seg g c off sweeps (Some p') o' Hset).
    split_and!; [by apply reaches_1|done|by apply settled_reports|by constructor].
  - assert (lands seg g off sweeps (Some p') o' = at_ seg g off sweeps (Some p')) as El
      by (destruct Hpend as (Hb & Hn & _); unfold lands; by rewrite Hb, Hn).
    rewrite El in Est. destruct (IH w' d' p' Hs' Ho Hip') as (n & rs & w3 & d3 & Hr & Hs3 & Hrep & Hbd); [lia|].
    exists (1 + n)%nat, ([step_of seg g off o'] ++ rs), w3, d3. split_and!; [|done| |].
    + by eapply reaches_app; [apply reaches_1|].
    + apply (reports_app seg g [] [_]); [by apply pending_reports|done].
    + by constructor.
Qed.

(** A whole record, from its boundary to the next. *)
Lemma record_steps seg f c g w s d off sweeps :
  stable seg f c g (w, s) d → 0 ≤ off < zlen c →
  ∃ n rs w' d', reaches (at_ seg g off sweeps None, (w, s), d) n rs
      (at_ seg g (v_next (verdict c off)) sweeps None, (w', s), d') ∧
    stable seg f c g (w', s) d' ∧ reports seg g [(off, verdict c off)] rs ∧ bounded rs.
Proof.
  intros Hs Ho.
  destruct (step_reads seg f c g w s d off sweeps None) as (w1 & p2 & o & w2 & w' & d' & Hs1 & Er & Est & Hs'); [done|done| |].
  { intros w1 Hs1. destruct (header_read seg f c g w1 s d off sweeps) as (w2 & p' & o & E & Hs2 & _); [done|done|].
    by exists w2, p', o. }
  destruct (header_read seg f c g w1 s d off sweeps) as (w2' & p' & o' & E & _ & Hrd & Hcase); [done|done|].
  rewrite E in Er. injection Er as <- <- <-.
  assert (bounded [step_of seg g off o']) as Hb1 by (constructor; [unfold CHUNK, HEADER_LEN in *; cbn; lia|done]).
  destruct Hcase as [Hset|(Hpend & p & -> & Hip)].
  - exists 1%nat, [step_of seg g off o'], w', d'. rewrite <-(settled_lands seg g c off sweeps p' o' Hset).
    split_and!; [by apply reaches_1|done|by apply settled_reports|done].
  - assert (lands seg g off sweeps (Some p) o' = at_ seg g off sweeps (Some p)) as El
      by (destruct Hpend as (Hb & Hn & _); unfold lands; by rewrite Hb, Hn).
    rewrite El in Est.
    destruct (payload_steps (Z.to_nat (pa_length p - pa_read p)) seg f c g w' s d' off sweeps p)
      as (n & rs & w3 & d3 & Hr & Hs3 & Hrep & Hbd); [done|done|done|destruct (ip_read _ _ _ _ Hip); lia|].
    exists (1 + n)%nat, ([step_of seg g off o'] ++ rs), w3, d3. split_and!; [|done| |].
    + by eapply reaches_app; [apply reaches_1|].
    + apply (reports_app seg g [] [_]); [by apply pending_reports|done].
    + apply Forall_app. by split.
Qed.

(** The rest of the segment, to the entry of the next one. *)
Lemma segment_steps k seg f c g w s d off sweeps :
  stable seg f c g (w, s) d → 0 ≤ off → off mod BLOCK_ALIGN = 0 → zlen c - off ≤ BLOCK_ALIGN * Z.of_nat k →
  ∃ n rs w' d', reaches (at_ seg g off sweeps None, (w, s), d) n rs
      (MkScrubber (MkCursor 1 (seg + 1) None 0 sweeps) None, (w', s), d') ∧
    stable seg f c g (w', s) d' ∧ reports seg g (entries c off) rs ∧ bounded rs.
Proof.
  revert w d off. induction k as [|k IH]; intros w d off Hs Ho Ha Hk;
    destruct (decide (zlen c ≤ off)) as [Hend|Hin]; try lia.
  1,2: destruct (step_end seg f c g w s d off sweeps None Hs Hend) as (w' & d' & E & Hs');
    exists 1%nat, [set_idle no_step], w', d'; rewrite entries_end by done;
    (split_and!; [by apply reaches_1|done|done|constructor; [unfold CHUNK; cbn; lia|done]]).
  destruct (record_steps seg f c g w s d off sweeps Hs) as (n & rs & w1 & d1 & Hr & Hs1 & Hrep & Hbd); [lia|].
  destruct (v_next_spec c off) as [Hn Hna]; [apply Hs|lia|done|].
  destruct (IH w1 d1 (v_next (verdict c off)) Hs1) as (n2 & rs2 & w2 & d2 & Hr2 & Hs2 & Hrep2 & Hbd2);
    [unfold BLOCK_ALIGN in *; lia|done|unfold BLOCK_ALIGN in *; lia|].
  exists (n + n2)%nat, (rs ++ rs2), w2, d2. rewrite entries_step by (apply Hs || lia || done).
  split_and!; [by eapply reaches_app|done|by apply (reports_app _ _ [_])|by apply Forall_app].
Qed.

(** Foreground activity only delays. *)
Definition free (pattern : list bool) : nat := length (filter (λ b, b = false) pattern).
Lemma steps_pattern pattern (x y : State) rs :
  reaches x (free pattern) rs y → bounded rs →
  ∃ rs', steps pattern x = (y, Ok rs') ∧ all_findings rs' = all_findings rs ∧ all_verified rs' = all_verified rs ∧
    bounded rs'.
Proof.
  revert x rs. induction pattern as [|[] pattern IH]; intros x rs Hr Hb.
  - unfold reaches in Hr. cbn in Hr. injection Hr as <- <-. by exists [].
  - destruct (IH x rs Hr Hb) as (rs' & E & Hf & Hv & Hb'). exists (MkStep 0 0 0 [] false true false :: rs').
    split_and!; [|done|done|constructor; [unfold CHUNK; cbn; lia|done]]. cbn [steps]. unfold step at 1, mbind, ST_bind. cbn. by rewrite E.
  - unfold reaches in Hr. unfold free in Hr. rewrite filter_cons, decide_True in Hr by done. cbn [length replicate steps] in Hr.
    unfold mbind, ST_bind in Hr. cbn [steps]. unfold mbind, ST_bind.
    destruct (step false id x) as [x1 [r| |]]; [|done..].
    destruct (steps (replicate (length (filter (λ b, b = false) pattern)) false) x1) as [y1 [rs1| |]] eqn:E1; [|done..].
    injection Hr as -> <-. apply Forall_cons in Hb as [Hb1 Hb2]. destruct (IH x1 rs1 E1 Hb2) as (rs' & E & Hf & Hv & Hb').
    rewrite E. exists (r :: rs'). split_and!; [done| | |by constructor].
    + unfold all_findings in *. cbn. by rewrite Hf.
    + unfold all_verified in *. cbn. by rewrite Hv.
Qed.

(** ** Property *)

End Online.

(** ** Witness *)
Module OnlineExamples.
#[local] Existing Instance toy_blake3.
#[local] Existing Instance toy_hex.

#[local] Instance Cursor_eq_dec : EqDecision Cursor.
Proof. solve_decision. Defined.
#[local] Instance Cursor_countable : Countable Cursor.
Proof.
  countable_by (λ x, (cu_version x, cu_segment x, cu_generation x, cu_offset x, cu_sweeps x))
    (λ '(a, b, c, d, e), MkCursor a b c d e).
Defined.
#[local] Instance toy_cursor_json : CursorJson := {|
  json_of_cursor c := inl (toy_enc c);
  json_of_saved_cursor h c := inl (toy_enc (h, c));
  saved_cursor_of_json l := match toy_dec l with Some x => inl x | None => inr "malformed" end |}.
#[local] Instance toy_cursor_json_laws : CursorJsonLaws.
Proof. constructor; [by eexists|]. intros h c. eexists. split; [done|]. cbn. by rewrite toy_dec_enc. Qed.

#[local] Instance toy_meta : SegmentMeta Disk := λ p w,
  match dir_of w !! p with
  | Some f => (w, Ok ("dev:ino:ctime", zlen (bytes_of w f)))
  | None => (w, Err (IoError KNotFound "no such file"))
  end.
#[local] Instance toy_meta_laws : SegmentMetaLaws Disk N.
Proof.
  refine (Build_SegmentMetaLaws _ _ _ _ (λ _ _, "dev:ino:ctime") _ _); [done|].
  intros p f w w' r E Hd Hh. unfold seg_meta, toy_meta in E. rewrite Hd in E. by injection E as <- <-.
Defined.

(** Two segments; the first holds a rotten record and is sealed. *)
Definition rot_segment : bytes := enc_all [(block_of [x01], [x02])].
Definition rot_disk : Disk := MkDisk {[ 0%N := rot_segment; 1%N := [] ]} {[ SegName 0 := 0%N; SegName 1 := 1%N ]} [].
Definition rot_store : BlockStore N := MkStore ∅ [0%N; 1%N] 0 4096 false.

Lemma rot_stable : stable 0 0%N rot_segment "dev:ino:ctime" (rot_disk, rot_store) (MkDir ∅ []).
Proof. by constructor. Qed.

End OnlineExamples.
