(* ===== verification/ScrubTask.v ===== *)
(** * The online scrub task ([crates/kalpakdb/src/online_scrub.rs])

    The background task around the scanner of [OnlineScrub]: it waits for the
    scrub slot, makes one step, counts what the step reports, and sleeps for
    as long as its reads are worth at the configured rate.  A round is given
    by what it finds: whether the slot is free, whether foreground reads are
    active, and what other threads do to the store during the step.  Sleeping
    times are exact rationals in seconds, where the code rounds [f64]. *)

From S2P Require Import Prelude Core Durability Io Segment Store Scrub OnlineScrub.
From Stdlib Require Import QArith Qminmax.

#[local] Open Scope Z_scope.

Record Metrics := MkMetrics {
  mt_running : bool;
  mt_bytes : Z;
  mt_verified : Z;
  mt_findings : Z;
  mt_resets : Z;
  mt_yields : Z;
  mt_errors : Z }.
Definition fresh_metrics : Metrics := MkMetrics true 0 0 0 0 0 0.

(** The loop over the findings: the first sixteen are printed. *)
Fixpoint report_findings (findings : list OnlineFinding) (n : Z) (printed : list OnlineFinding) : Z * list OnlineFinding :=
  match findings with
  | [] => (n, printed)
  | f :: findings => report_findings findings (u64_add n 1) (if n <? 16 then printed ++ [f] else printed)
  end.
Definition count_step (s : ScrubStep) (m : Metrics) (printed : list OnlineFinding) : Metrics * list OnlineFinding :=
  let (findings, printed) := report_findings (sp_findings s) (mt_findings m) printed in
  (MkMetrics (mt_running m) (u64_add (mt_bytes m) (sp_bytes_read s)) (u64_add (mt_verified m) (sp_verified s)) findings
     (u64_add (mt_resets m) (Z.b2z (sp_reset s))) (u64_add (mt_yields m) (Z.b2z (sp_yielded s))) (mt_errors m), printed).
Definition stop (m : Metrics) : Metrics :=
  MkMetrics false (mt_bytes m) (mt_verified m) (mt_findings m) (mt_resets m) (mt_yields m) (u64_add (mt_errors m) 1).

Definition delay (rate : Z) (s : ScrubStep) : Q :=
  if sp_page_budget s =? 0 then (1 # 10)%Q
  else Qmax (inject_Z (sp_page_budget s) / inject_Z (u64_mul (u64_mul rate 1024) 1024)) (1 # 1000).

Section ScrubTask.
Context {W F : Type} `{SegmentIo W F, SegmentMeta W, Blake3, Hex, CursorJson}.
Abbreviation St := (W * BlockStore F)%type.

(** Without a scanner the task has returned. *)
Record Task := MkTask {
  tk_metrics : Metrics;
  tk_printed : list OnlineFinding;
  tk_scanner : option (OnlineScrubber F);
  tk_store : St;
  tk_dir : Dir }.
Record Round := MkRound { rd_slot : bool; rd_busy : bool; rd_others : St → St }.

(** One pass of the loop: the new state, the step it made, how long it sleeps. *)
Definition scrub_round (rate : Z) (rd : Round) (t : Task) : Task * option ScrubStep * Q :=
  match tk_scanner t with
  | None => (t, None, 0%Q)
  | Some sc =>
      if negb (rd_slot rd) then (t, None, (1 # 10)%Q)
      else
        match step (rd_busy rd) (rd_others rd) (sc, tk_store t, tk_dir t) with
        | ((sc, st, d), Ok s) =>
            let (m, printed) := count_step s (tk_metrics t) (tk_printed t) in
            (MkTask m printed (Some sc) st d, Some s, delay rate s)
        | ((_, st, d), _) => (MkTask (stop (tk_metrics t)) (tk_printed t) None st d, None, 0%Q)
        end
  end.
(** [start], for the rounds given; the steps in order, and the time slept. *)
Fixpoint scrub_task (rate : Z) (rounds : list Round) (t : Task) : Task * list ScrubStep * Q :=
  match rounds with
  | [] => (t, [], 0%Q)
  | rd :: rounds =>
      let '(t, s, q) := scrub_round rate rd t in
      let '(t, ss, qs) := scrub_task rate rounds t in
      (t, option_list s ++ ss, (q + qs)%Q)
  end.
Definition start_task (sc : OnlineScrubber F) (st : St) (d : Dir) : Task := MkTask fresh_metrics [] (Some sc) st d.

(** ** Accounts *)
Definition total {A} (f : A → Z) (l : list A) : Z := foldr (λ x n, f x + n) 0 l.
Lemma u64_add_mod a b c : u64_add (u64_add a b) c = u64_add a (b + c).
Proof. unfold u64_add. rewrite Zplus_mod_idemp_l. f_equal. lia. Qed.
Lemma u64_add_is_u64 a b : is_u64 (u64_add a b).
Proof. unfold is_u64, u64_add, u64_max. pose proof (Z.mod_pos_bound (a + b) (2 ^ 64)). lia. Qed.
Lemma u64_add_0 a : is_u64 a → u64_add a 0 = a.
Proof. unfold is_u64. intros. rewrite u64_add_small; lia. Qed.
Lemma report_count fs n printed : is_u64 n → (report_findings fs n printed).1 = u64_add n (zlen fs).
Proof.
  revert n printed. induction fs as [|f fs IH]; intros n printed Hn; cbn [report_findings].
  { symmetry. by apply u64_add_0. }
  rewrite IH by apply u64_add_is_u64. rewrite u64_add_mod, zlen_cons. done.
Qed.

(** What the counters hold after the steps [ss], from the values in [m]. *)
Definition counters (m : Metrics) : list Z := [mt_bytes m; mt_verified m; mt_findings m; mt_resets m; mt_yields m].
Definition charges (s : ScrubStep) : list Z :=
  [sp_bytes_read s; sp_verified s; zlen (sp_findings s); Z.b2z (sp_reset s); Z.b2z (sp_yielded s)].
Definition counted (ss : list ScrubStep) (m m' : Metrics) : Prop :=
  ∀ i c, counters m !! i = Some c → counters m' !! i = Some (u64_add c (total (λ s, default 0 (charges s !! i)) ss)).
Definition counters_ok (m : Metrics) : Prop := Forall is_u64 (counters m).

Lemma counted_nil m : counters_ok m → counted [] m m.
Proof. intros Hm i c Hc. rewrite Hc. f_equal. symmetry. apply u64_add_0. by eapply Forall_lookup_1. Qed.
Lemma counted_step s m printed : counters_ok m → counted [s] m (count_step s m printed).1.
Proof.
  intros Hm i c Hc. unfold count_step. destruct (report_findings _ _ _) as [n l] eqn:E.
  assert (Hn : n = u64_add (mt_findings m) (zlen (sp_findings s))).
  { rewrite <-(report_count _ _ printed), E; [done|]. by apply (Forall_lookup_1 _ _ 2 _ Hm). }
  do 5 (destruct i as [|i]; [cbn in *; injection Hc as <-; rewrite Z.add_0_r; congruence|]). done.
Qed.
Lemma counters_lookup m m' i c : counters m !! i = Some c → ∃ c', counters m' !! i = Some c'.
Proof. do 5 (destruct i as [|i]; [intros; by eexists|]). done. Qed.
Lemma total_app {A} (f : A → Z) l k : total f (l ++ k) = total f l + total f k.
Proof. unfold total. induction l as [|x l IH]; cbn; [done|]. rewrite IH. lia. Qed.
Lemma counted_app ss ss' m m' m'' : counted ss m m' → counted ss' m' m'' → counted (ss ++ ss') m m''.
Proof.
  intros Hss Hss' i c Hc. apply Hss in Hc. rewrite (Hss' _ _ Hc). f_equal. by rewrite u64_add_mod, total_app.
Qed.
Lemma count_step_ok s m printed : counters_ok m → counters_ok (count_step s m printed).1.
Proof.
  intros Hm. apply Forall_lookup_2. intros i c Hc. destruct (counters_lookup _ m _ _ Hc) as [c' Hc'].
  pose proof (counted_step s m printed Hm i c' Hc') as E. rewrite Hc in E. injection E as ->. apply u64_add_is_u64.
Qed.
Lemma count_step_flags s m printed :
  mt_running (count_step s m printed).1 = mt_running m ∧ mt_errors (count_step s m printed).1 = mt_errors m.
Proof. unfold count_step. by destruct (report_findings _ _ _). Qed.

(** The task is live with no error counted, or stopped after one. *)
Definition task_ok (t : Task) : Prop :=
  counters_ok (tk_metrics t) ∧ mt_running (tk_metrics t) = bool_decide (is_Some (tk_scanner t)) ∧
  mt_errors (tk_metrics t) = Z.b2z (negb (mt_running (tk_metrics t))).

(** Rates the command line accepts, in MiB per second. *)
Definition rate_ok (rate : Z) : Prop := 1 ≤ rate ≤ 1024.
Lemma rate_bytes rate : rate_ok rate → u64_mul (u64_mul rate 1024) 1024 = rate * 1048576.
Proof. unfold rate_ok, u64_mul. intros. rewrite (Z.mod_small (rate * 1024)) by lia. rewrite Z.mod_small; lia. Qed.
Definition paid (rate : Z) (ss : list ScrubStep) (q : Q) : Prop :=
  (inject_Z (total sp_page_budget ss) <= inject_Z (rate * 1048576) * q)%Q.
Lemma delay_pays rate s : rate_ok rate → paid rate [s] (delay rate s).
Proof.
  intros Hr. unfold paid, delay. rewrite rate_bytes by done. cbn [total foldr]. rewrite Z.add_0_r.
  assert (Hp : (0 < inject_Z (rate * 1048576))%Q) by (change 0%Q with (inject_Z 0); rewrite <-Zlt_Qlt; unfold rate_ok in Hr; lia).
  destruct (Z.eqb_spec (sp_page_budget s) 0) as [->|].
  - apply Qmult_le_0_compat; [by apply Qlt_le_weak|done].
  - eapply Qle_trans; [|apply Qmult_le_l; [done|apply Q.le_max_l]]. rewrite Qmult_div_r; [apply Qle_refl|].
    intros E. rewrite E in Hp. discriminate Hp.
Qed.
Lemma paid_app rate ss ss' q q' : paid rate ss q → paid rate ss' q' → paid rate (ss ++ ss') (q + q').
Proof.
  unfold paid. intros A B. rewrite total_app, inject_Z_plus, Qmult_plus_distr_r. by apply Qplus_le_compat.
Qed.
Lemma paid_idle rate q : rate_ok rate → (0 <= q)%Q → paid rate [] q.
Proof.
  intros Hr Hq. unfold paid. cbn. apply Qmult_le_0_compat; [|done]. change 0%Q with (inject_Z 0).
  rewrite <-Zle_Qle. unfold rate_ok in Hr. lia.
Qed.

Lemma scrub_round_spec rate rd t t' s q :
  rate_ok rate → task_ok t → scrub_round rate rd t = (t', s, q) →
  task_ok t' ∧ counted (option_list s) (tk_metrics t) (tk_metrics t') ∧ paid rate (option_list s) q.
Proof.
  intros Hr Ht. pose proof Ht as (Hc & Hrun & Herr). unfold scrub_round.
  destruct (tk_scanner t) as [sc|] eqn:Esc.
  2:{ intros [= <- <- <-]. split_and!; [done|by apply counted_nil|by apply paid_idle]. }
  destruct (rd_slot rd); cbn [negb].
  2:{ intros [= <- <- <-]. split_and!; [done|by apply counted_nil|by apply paid_idle]. }
  assert (Hstop : ∀ st d, task_ok (MkTask (stop (tk_metrics t)) (tk_printed t) None st d) ∧
    counted [] (tk_metrics t) (stop (tk_metrics t))).
  { intros st d. split; [|exact (counted_nil _ Hc)]. unfold task_ok. cbn. by rewrite Herr, Hrun. }
  destruct (step _ _ _) as [[[sc' st] d] [s'|e|]].
  - destruct (count_step _ _ _) as [m printed] eqn:E. intros [= <- <- <-].
    pose proof (count_step_ok s' _ (tk_printed t) Hc) as Hok. pose proof (counted_step s' _ (tk_printed t) Hc) as Hcs.
    pose proof (count_step_flags s' (tk_metrics t) (tk_printed t)) as [Hf He]. rewrite E in *. cbn [fst] in *.
    split_and!; [|done|by apply delay_pays]. unfold task_ok. cbn. rewrite Hf, He, Hrun, Herr, Hrun. by split_and!.
  - intros [= <- <- <-]. destruct (Hstop st d). split_and!; [done..|by apply paid_idle].
  - intros [= <- <- <-]. destruct (Hstop st d). split_and!; [done..|by apply paid_idle].
Qed.
Lemma scrub_task_spec rate rounds t t' ss q :
  rate_ok rate → task_ok t → scrub_task rate rounds t = (t', ss, q) →
  task_ok t' ∧ counted ss (tk_metrics t) (tk_metrics t') ∧ paid rate ss q.
Proof.
  intros Hr. revert t t' ss q. induction rounds as [|rd rounds IH]; intros t t' ss q Ht; cbn [scrub_task].
  { intros [= <- <- <-]. split_and!; [done|by apply counted_nil, Ht|by apply paid_idle]. }
  destruct (scrub_round rate rd t) as [[t1 s1] q1] eqn:E. destruct (scrub_task rate rounds t1) as [[t2 ss2] q2] eqn:E2.
  intros [= <- <- <-]. destruct (scrub_round_spec _ _ _ _ _ _ Hr Ht E) as (Ht1 & Hc1 & Hp1).
  destruct (IH _ _ _ _ Ht1 E2) as (Ht2 & Hc2 & Hp2). split_and!; [done| |by apply paid_app].
  by eapply counted_app.
Qed.

(** After any rounds from the start, however the scanner, the store and the
    other threads behave: the counters are the totals of the steps made,
    wrapping at 64 bits; the task runs exactly while it still holds its
    scanner, and has counted one error otherwise; and the pages its reads were
    charged for never exceed the configured rate over the time it slept. *)
Theorem scrub_task_accounts rate rounds sc st d t ss q :
  rate_ok rate → scrub_task rate rounds (start_task sc st d) = (t, ss, q) →
  counters (tk_metrics t) = (λ i, total (λ s, default 0 (charges s !! i)) ss mod 2 ^ 64) <$> seq 0 5 ∧
  mt_running (tk_metrics t) = bool_decide (is_Some (tk_scanner t)) ∧
  mt_errors (tk_metrics t) = Z.b2z (negb (mt_running (tk_metrics t))) ∧
  (inject_Z (total sp_page_budget ss) <= inject_Z (rate * 1048576) * q)%Q.
Proof.
  intros Hr E. eapply scrub_task_spec in E as ((_ & Hrun & Herr) & Hc & Hp); [|done|].
  - split_and!; [|done..]. pose proof (λ i, Hc i 0) as Hc'.
    unfold counters in *.
    pose proof (Hc' 0%nat eq_refl) as [= ->]. pose proof (Hc' 1%nat eq_refl) as [= ->].
    pose proof (Hc' 2%nat eq_refl) as [= ->]. pose proof (Hc' 3%nat eq_refl) as [= ->].
    pose proof (Hc' 4%nat eq_refl) as [= ->]. done.
  - unfold task_ok, counters_ok. cbn. split_and!; [|done..]. repeat constructor; done.
Qed.
End ScrubTask.
