(* ===== verification/Tiered.v ===== *)
(** * The two-tier store ([crates/kalpak-storage/src/tiered.rs])

    A byte-budgeted warm cache and a set of pinned blocks over the durable
    block store.  The cold store is seen through the interface [ColdStore]
    (what [BlockStore] promises to this layer; [ColdBlocks] discharges it),
    the warm cache through [Moka]: the [moka] crate is not part of the
    repository, and the code relies on a cache returning only what was
    inserted and not since invalidated.  Each operation is one atomic step;
    the counters are [u64] atomics, with their wrap-around. *)

From S2P Require Import Prelude Core Segment Store.
From Stdlib Require Import Strings.Byte.

(** ** Interfaces *)
Class ColdStore (S : Type) := {
  cold_get : BlockId → ST S Error bytes;
  cold_put : bytes → ST S Error BlockId;
  cold_put_many : list bytes → ST S Error (list BlockId);
  cold_repair : BlockId → bytes → ST S Error BlockId;
  cold_compact : (BlockId → bool) → ST S Error CompactStats;
  cold_contains : S → BlockId → bool }.

(** [s'] holds at least the blocks of [s]. *)
Definition grows {S} `{ColdStore S} (s s' : S) : Prop :=
  ∀ i, cold_contains s i = true → cold_contains s' i = true.

Class ColdStoreLaws (S : Type) `{ColdStore S, Blake3} := {
  cold_ok : S → Prop;
  law_cold_get : ∀ id s s' r, cold_ok s → cold_get id s = (s', r) →
    cold_ok s' ∧ (∀ i, cold_contains s' i = cold_contains s i) ∧
    match r with
    | Ok p => block_of p = id ∧ zlen p ≤ MAX_PAYLOAD ∧ cold_contains s id = true
    | Err e => (∃ i, e = BlockNotFound i) ↔ cold_contains s id = false
    | Panic => False
    end;
  law_cold_put_many : ∀ ps s s' r, cold_ok s → Forall (λ p, zlen p ≤ MAX_PAYLOAD) ps →
    cold_put_many ps s = (s', r) →
    cold_ok s' ∧ grows s s' ∧
    match r with
    | Ok ids => ids = block_of <$> ps ∧ Forall (λ i, cold_contains s' i = true) ids
    | Err _ => True
    | Panic => False
    end;
  law_cold_put : ∀ p s s' r, cold_ok s → zlen p ≤ MAX_PAYLOAD → cold_put p s = (s', r) →
    cold_ok s' ∧ grows s s' ∧
    match r with
    | Ok id => id = block_of p ∧ cold_contains s' id = true
    | Err _ => True
    | Panic => False
    end;
  law_cold_repair : ∀ id p s s' r, cold_ok s → zlen p ≤ MAX_PAYLOAD → cold_repair id p s = (s', r) →
    cold_ok s' ∧ grows s s' ∧
    match r with
    | Ok i => i = id ∧ block_of p = id ∧ cold_contains s' id = true
    | Err _ => True
    | Panic => False
    end;
  law_cold_compact : ∀ live s s' r, cold_ok s → cold_compact live s = (s', r) →
    cold_ok s' ∧
    match r with
    | Ok st => 0 ≤ blocks_dropped st ∧ (blocks_dropped st = 0 → grows s s')
    | Err _ => True
    | Panic => False
    end }.

(** Writes add only the blocks they name, also when they fail. *)
Definition adds {S} `{ColdStore S} (ids : list BlockId) (s s' : S) : Prop :=
  ∀ i, cold_contains s' i = true → cold_contains s i = true ∨ i ∈ ids.
Class ColdStoreExact (S : Type) `{ColdStoreLaws S} := {
  law_cold_put_many_adds : ∀ ps s, cold_ok s → Forall (λ p, zlen p ≤ MAX_PAYLOAD) ps →
    adds (block_of <$> ps) s (cold_put_many ps s).1;
  law_cold_put_adds : ∀ p s, cold_ok s → zlen p ≤ MAX_PAYLOAD → adds [block_of p] s (cold_put p s).1;
  law_cold_repair_adds : ∀ id p s, cold_ok s → zlen p ≤ MAX_PAYLOAD → adds [id] s (cold_repair id p s).1 }.

(** [moka::sync::Cache]. *)
Class Moka (C : Type) := {
  moka_get : C → BlockId → C * option bytes;
  moka_insert : C → BlockId → bytes → C;
  moka_invalidate : C → BlockId → C;
  moka_iter : C → list (BlockId * bytes);
  moka_flush : C → C;
  moka_count : C → Z;
  moka_weight : C → Z }.

(** Any entry may be evicted at any call; nothing else appears. *)
Class MokaLaws (C : Type) `{Moka C} := {
  cached : C → gmap BlockId bytes;
  law_moka_get : ∀ c id, (moka_get c id).2 = cached c !! id ∧ cached (moka_get c id).1 ⊆ cached c;
  law_moka_insert : ∀ c id p, cached (moka_insert c id p) ⊆ <[id := p]> (cached c);
  law_moka_invalidate : ∀ c id, cached (moka_invalidate c id) ⊆ delete id (cached c);
  law_moka_iter : ∀ c id p, (id, p) ∈ moka_iter c ↔ cached c !! id = Some p;
  law_moka_flush : ∀ c, cached (moka_flush c) ⊆ cached c }.

(** ** State *)
Record TieredStore (S C : Type) := MkTiered {
  quarantined : gset BlockId;
  cold : S;
  warm : C;
  warm_budget : Z;
  pinned : gmap BlockId bytes;
  pinned_bytes : Z;
  pinned_budget : Z;
  hits : Z;
  misses : Z }.
Arguments MkTiered {S C}.
Arguments quarantined {S C}.
Arguments cold {S C}.
Arguments warm {S C}.
Arguments warm_budget {S C}.
Arguments pinned {S C}.
Arguments pinned_bytes {S C}.
Arguments pinned_budget {S C}.
Arguments hits {S C}.
Arguments misses {S C}.

Record TierStats := MkTierStats {
  ts_warm_blocks : Z; ts_warm_bytes : Z; ts_warm_budget : Z;
  ts_pinned_blocks : Z; ts_pinned_bytes : Z; ts_pinned_budget : Z;
  ts_hits : Z; ts_misses : Z }.

(** [fetch_sub] on [u64]. *)
Definition u64_sub (a b : Z) : Z := (a - b) mod 2 ^ 64.

Section Tiered.
Context {S C : Type} `{ColdStore S, Moka C, Blake3}.

Abbreviation T := (TieredStore S C).
Abbreviation TM := (ST (TieredStore S C) Error).

Definition set_quarantined q (t : T) : T :=
  MkTiered q (cold t) (warm t) (warm_budget t) (pinned t) (pinned_bytes t) (pinned_budget t) (hits t) (misses t).
Definition set_cold s (t : T) : T :=
  MkTiered (quarantined t) s (warm t) (warm_budget t) (pinned t) (pinned_bytes t) (pinned_budget t) (hits t) (misses t).
Definition set_warm c (t : T) : T :=
  MkTiered (quarantined t) (cold t) c (warm_budget t) (pinned t) (pinned_bytes t) (pinned_budget t) (hits t) (misses t).
Definition set_pinned m n (t : T) : T :=
  MkTiered (quarantined t) (cold t) (warm t) (warm_budget t) m n (pinned_budget t) (hits t) (misses t).
Definition hit (t : T) : T :=
  MkTiered (quarantined t) (cold t) (warm t) (warm_budget t) (pinned t) (pinned_bytes t) (pinned_budget t)
    (u64_add (hits t) 1) (misses t).
Definition miss (t : T) : T :=
  MkTiered (quarantined t) (cold t) (warm t) (warm_budget t) (pinned t) (pinned_bytes t) (pinned_budget t)
    (hits t) (u64_add (misses t) 1).

(** A call of the cold store. *)
Definition on_cold {A} (m : ST S Error A) : TM A := λ t,
  let (s, r) := m (cold t) in (set_cold s t, r).

(** [TieredStore::new], with the empty cache of the builder. *)
Definition tiered_new (s : S) (empty : C) (budget : Z) : T :=
  MkTiered ∅ s empty budget ∅ 0 (budget / 4) 0 0.

Definition warm_insert (id : BlockId) (payload : bytes) (t : T) : T :=
  if zlen payload <=? warm_budget t then set_warm (moka_insert (warm t) id payload) t else t.

Definition tiered_get (id : BlockId) : TM bytes := λ t,
  if bool_decide (id ∈ quarantined t) then (t, Err (Corrupt id))
  else
    match pinned t !! id with
    | Some payload => (hit t, Ok payload)
    | None =>
        let (c, found) := moka_get (warm t) id in
        let t := set_warm c t in
        match found with
        | Some payload => (hit t, Ok payload)
        | None =>
            (on_cold (cold_get id) ≫= λ payload,
             st_modify (warm_insert id payload) ≫= λ _, mret payload) (miss t)
        end
    end.

(** The part of [pin] under the write lock. *)
Definition pin_payload (id : BlockId) (payload : bytes) : TM bool := λ t,
  if contains_key (pinned t) id then (t, Ok true)
  else if pinned_budget t <? u64_add (pinned_bytes t) (zlen payload) then (t, Ok false)
  else (set_pinned (<[id := payload]> (pinned t)) (u64_add (pinned_bytes t) (zlen payload)) t, Ok true).
Definition pin (id : BlockId) : TM bool := λ t,
  if contains_key (pinned t) id then (t, Ok true) else (tiered_get id ≫= pin_payload id) t.

Definition tiered_put (payload : bytes) : TM BlockId :=
  on_cold (cold_put payload) ≫= λ id, st_modify (warm_insert id payload) ≫= λ _, mret id.

Definition warm_all (l : list (BlockId * bytes)) (t : T) : T :=
  foldl (λ t p, warm_insert p.1 p.2 t) t l.
Definition tiered_put_many (payloads : list bytes) : TM (list BlockId) :=
  on_cold (cold_put_many payloads) ≫= λ ids,
  st_modify (warm_all (zip ids payloads)) ≫= λ _, mret ids.

Definition tiered_contains (t : T) (id : BlockId) : bool :=
  negb (bool_decide (id ∈ quarantined t)) && cold_contains (cold t) id.

(** Drop a pinned block and its weight. *)
Definition unpin (id : BlockId) (t : T) : T :=
  match pinned t !! id with
  | Some payload => set_pinned (delete id (pinned t)) (u64_sub (pinned_bytes t) (zlen payload)) t
  | None => t
  end.

Definition verify_cold (id : BlockId) : TM () := λ t,
  match on_cold (cold_get id) t with
  | (t, Ok _) => (set_quarantined (quarantined t ∖ {[id]}) t, Ok ())
  | (t, Err e) =>
      (match e with
       | BlockNotFound _ => t
       | _ => unpin id (set_warm (moka_invalidate (warm t) id)
                 (set_quarantined (quarantined t ∪ {[id]}) t))
       end, Err e)
  | (t, Panic) => (t, Panic)
  end.

Definition tiered_repair (id : BlockId) (payload : bytes) : TM BlockId :=
  on_cold (cold_repair id payload) ≫= λ _,
  st_modify (λ t, set_quarantined (quarantined t ∖ {[id]}) t) ≫= λ _,
  st_modify (warm_insert id payload) ≫= λ _, mret id.

(** The sweeps after a compaction that dropped something. *)
Definition unbacked (t : T) (id : BlockId) : bool := negb (cold_contains (cold t) id).
Definition sweep_pinned (t : T) : T :=
  foldl (λ t id, unpin id t) t (base.filter (λ id, unbacked t id = true) (map_to_list (pinned t)).*1).
Definition sweep_warm (t : T) : T :=
  foldl (λ t id, set_warm (moka_invalidate (warm t) id) t) t
    (base.filter (λ id, unbacked t id = true) (moka_iter (warm t)).*1).

Definition tiered_compact (live : BlockId → bool) : TM CompactStats :=
  on_cold (cold_compact live) ≫= λ stats,
  (if 0 <? blocks_dropped stats then st_modify (λ t, sweep_warm (sweep_pinned t)) else mret ()) ≫= λ _,
  mret stats.

Definition tier_stats (t : T) : T * TierStats :=
  let t := set_warm (moka_flush (warm t)) t in
  (t, MkTierStats (moka_count (warm t)) (moka_weight (warm t)) (warm_budget t)
        (zsize (pinned t)) (pinned_bytes t) (pinned_budget t) (hits t) (misses t)).

(** ** Invariant *)
Context `{!ColdStoreLaws S, !MokaLaws C}.

Definition authentic (m : gmap BlockId bytes) : Prop :=
  ∀ id p, m !! id = Some p → block_of p = id ∧ zlen p ≤ MAX_PAYLOAD.

Record tiered_inv (t : T) : Prop := {
  ti_cold : cold_ok (cold t);
  ti_warm : authentic (cached (warm t));
  ti_pinned : authentic (pinned t);
  ti_bytes : pinned_bytes t = map_sum zlen (pinned t);
  ti_budget : pinned_bytes t ≤ pinned_budget t;
  ti_bound : 0 ≤ pinned_budget t ≤ u64_max / 4;
  ti_apart : ∀ id, id ∈ quarantined t → pinned t !! id = None }.

(** The warm tiers are never the only copy. *)
Definition backed (t : T) : Prop :=
  ∀ id, is_Some (cached (warm t) !! id) ∨ is_Some (pinned t !! id) → cold_contains (cold t) id = true.

Lemma authentic_mono m m' : authentic m → m' ⊆ m → authentic m'.
Proof. intros Hm Hs id p Hp. apply Hm. by eapply lookup_weaken. Qed.

Lemma authentic_insert m id p :
  authentic m → block_of p = id → zlen p ≤ MAX_PAYLOAD → authentic (<[id := p]> m).
Proof.
  intros Hm Hb Hz i q Hq. apply lookup_insert_Some in Hq as [[<- <-]|[_ Hq]]; [done|by apply Hm].
Qed.

Lemma backed_grow t t' :
  backed t → grows (cold t) (cold t') → cached (warm t') ⊆ cached (warm t) → pinned t' ⊆ pinned t →
  backed t'.
Proof.
  intros Hb Hg Hw Hp id Hid. apply Hg, Hb. destruct Hid as [[p Hx]|[p Hx]]; [left|right];
    exists p; by eapply lookup_weaken.
Qed.

(** ** Warming *)
Lemma warm_insert_fields id p t :
  cold (warm_insert id p t) = cold t ∧ pinned (warm_insert id p t) = pinned t ∧
  pinned_bytes (warm_insert id p t) = pinned_bytes t ∧
  pinned_budget (warm_insert id p t) = pinned_budget t ∧
  quarantined (warm_insert id p t) = quarantined t ∧
  cached (warm (warm_insert id p t)) ⊆ <[id := p]> (cached (warm t)) ∨
  warm_insert id p t = t.
Proof. unfold warm_insert. case_goal; [left|by right]. cbn. split_and!; try done. apply law_moka_insert. Qed.

Lemma warm_insert_inv id p t :
  tiered_inv t → block_of p = id → zlen p ≤ MAX_PAYLOAD → tiered_inv (warm_insert id p t).
Proof.
  intros [] Hb Hz. destruct (warm_insert_fields id p t) as [(Ec & Ep & Eb & Eg & Eq & Hw)| ->]; [|by constructor].
  constructor; rewrite ?Ec, ?Ep, ?Eb, ?Eg, ?Eq; try done.
  eapply authentic_mono; [|exact Hw]. by apply authentic_insert.
Qed.

Lemma warm_insert_backed id p t :
  backed t → cold_contains (cold t) id = true → backed (warm_insert id p t).
Proof.
  intros Hb Hc. destruct (warm_insert_fields id p t) as [(Ec & Ep & _ & _ & _ & Hw)| ->]; [|done].
  intros i Hi. rewrite Ec, Ep in *. destruct (decide (i = id)) as [->|Hne]; [done|]. apply Hb.
  destruct Hi as [[q Hq]|Hi]; [left|by right]. exists q.
  eapply lookup_weaken in Hq; [|exact Hw]. by rewrite lookup_insert_ne in Hq.
Qed.

(** ** Unpinning *)
Lemma map_sum_zlen_nonneg (m : gmap BlockId bytes) : 0 ≤ map_sum zlen m.
Proof. apply map_sum_nonneg. intros. apply zlen_nonneg. Qed.

Lemma unpin_inv id t : tiered_inv t → tiered_inv (unpin id t).
Proof.
  intros []. unfold unpin. destruct (pinned t !! id) as [p|] eqn:Hp; [|by constructor].
  pose proof (map_sum_delete zlen _ _ _ Hp) as Hsum.
  pose proof (map_sum_zlen_nonneg (delete id (pinned t))). pose proof (zlen_nonneg p).
  assert (u64_sub (pinned_bytes t) (zlen p) = map_sum zlen (delete id (pinned t))) as Eb.
  { unfold u64_sub. rewrite Z.mod_small; [lia|]. change (u64_max / 4) with 4611686018427387903 in *. lia. }
  constructor; cbn; try done; [|lia|].
  - eapply authentic_mono; [exact ti_pinned0|]. apply delete_subseteq.
  - intros i Hi. apply lookup_delete_None. right. by apply ti_apart0.
Qed.

Lemma unpin_all_inv ids t : tiered_inv t → tiered_inv (foldl (λ t id, unpin id t) t ids).
Proof. revert t. induction ids as [|i ids IH]; intros t Ht; [done|]. cbn. by apply IH, unpin_inv. Qed.

Lemma unpin_fields id t :
  quarantined (unpin id t) = quarantined t ∧ cold (unpin id t) = cold t ∧ warm (unpin id t) = warm t ∧
  pinned (unpin id t) = delete id (pinned t).
Proof.
  unfold unpin. destruct (pinned t !! id) eqn:E; [done|]. split_and!; [done..|].
  symmetry. by apply delete_id.
Qed.

Lemma unpin_all_fields ids t :
  let t' := foldl (λ t id, unpin id t) t ids in
  quarantined t' = quarantined t ∧ cold t' = cold t ∧ warm t' = warm t ∧ pinned t' ⊆ pinned t ∧
  ∀ id, id ∈ ids → pinned t' !! id = None.
Proof.
  revert t. induction ids as [|i ids IH]; intros t; cbn.
  - split_and!; try done. intros id Hid. by apply elem_of_nil in Hid.
  - destruct (IH (unpin i t)) as (E1 & E2 & E3 & E4 & E5). destruct (unpin_fields i t) as (F1 & F2 & F3 & F4).
    rewrite E1, E2, E3, F1, F2, F3. rewrite F4 in E4. split_and!; try done.
    + etrans; [exact E4|]. apply delete_subseteq.
    + intros id [->|Hid]%elem_of_cons; [|auto]. apply (lookup_weaken_None _ (delete i (pinned t))); [|done].
      by rewrite lookup_delete_eq.
Qed.

Lemma invalidate_all_fields ids t :
  let t' := foldl (λ t id, set_warm (moka_invalidate (warm t) id) t) t ids in
  t' = set_warm (warm t') t ∧ cached (warm t') ⊆ cached (warm t) ∧
  ∀ id, id ∈ ids → cached (warm t') !! id = None.
Proof.
  revert t. induction ids as [|i ids IH]; intros t; cbn.
  - split_and!; try done; [by destruct t|]. intros id Hid. by apply elem_of_nil in Hid.
  - destruct (IH (set_warm (moka_invalidate (warm t) i) t)) as (E1 & E2 & E3). cbn in *.
    pose proof (law_moka_invalidate (warm t) i) as Hl. split_and!.
    + rewrite E1 at 1. done.
    + etrans; [exact E2|]. etrans; [exact Hl|]. apply delete_subseteq.
    + intros id [->|Hid]%elem_of_cons; [|auto]. eapply lookup_weaken_None; [|exact E2].
      eapply lookup_weaken_None; [|exact Hl]. by rewrite lookup_delete_eq.
Qed.

(** ** The operations *)
Inductive TierOp :=
| TPut (payload : bytes)
| TPutMany (payloads : list bytes)
| TGet (id : BlockId)
| TPin (id : BlockId)
| TVerify (id : BlockId)
| TRepair (id : BlockId) (payload : bytes)
| TCompact (live : BlockId → bool).

Definition forget {A} (m : TM A) : TM () := m ≫= λ _, mret ().
Definition run_tier (op : TierOp) : TM () :=
  match op with
  | TPut p => forget (tiered_put p)
  | TPutMany ps => forget (tiered_put_many ps)
  | TGet id => forget (tiered_get id)
  | TPin id => forget (pin id)
  | TVerify id => verify_cold id
  | TRepair id p => forget (tiered_repair id p)
  | TCompact live => forget (tiered_compact live)
  end.
Definition op_small (op : TierOp) : Prop :=
  match op with
  | TPut p | TRepair _ p => zlen p ≤ MAX_PAYLOAD
  | TPutMany ps => Forall (λ p, zlen p ≤ MAX_PAYLOAD) ps
  | _ => True
  end.

(** What one call keeps.  A compaction that fails half way has dropped blocks
    the warm tiers still hold, so it alone may lose [backed]. *)
Definition kept {A} (t : T) (o : T * res Error A) : Prop :=
  tiered_inv o.1 ∧ o.2 ≠ Panic ∧ (backed t → backed o.1).

Lemma forget_kept {A} (m : TM A) t : kept t (m t) → kept t (forget m t).
Proof. unfold kept, forget, mbind, ST_bind. destruct (m t) as [t' [a|e|]]; cbn; naive_solver. Qed.

Lemma set_cold_inv s t : tiered_inv t → cold_ok s → tiered_inv (set_cold s t).
Proof. intros [] Hs. by constructor. Qed.

Lemma cold_get_case id t :
  tiered_inv t →
  ∃ s r, on_cold (cold_get id) t = (set_cold s t, r) ∧ tiered_inv (set_cold s t) ∧
    (backed t → backed (set_cold s t)) ∧
    match r with
    | Ok p => block_of p = id ∧ zlen p ≤ MAX_PAYLOAD ∧ cold_contains s id = true
    | Err e => (∃ i, e = BlockNotFound i) ↔ cold_contains (cold t) id = false
    | Panic => False
    end.
Proof.
  intros Ht. unfold on_cold. destruct (cold_get id (cold t)) as [s r] eqn:E. exists s, r. split; [done|].
  destruct (law_cold_get _ _ _ _ (ti_cold _ Ht) E) as (Hok & Hc & Hr).
  split; [by apply set_cold_inv|]. split; [intros Hb i Hi; cbn; rewrite Hc; by apply Hb|].
  destruct r; [|done..]. by rewrite Hc.
Qed.

(** A read: what comes back hashes to the id, and the reasons for an error. *)
Lemma tiered_get_spec id t :
  tiered_inv t →
  let o := tiered_get id t in
  kept t o ∧ quarantined o.1 = quarantined t ∧ pinned o.1 = pinned t ∧ pinned_bytes o.1 = pinned_bytes t ∧
  match o.2 with
  | Ok p => id ∉ quarantined t ∧ block_of p = id ∧ zlen p ≤ MAX_PAYLOAD ∧
            (backed t → cold_contains (cold o.1) id = true)
  | Err e => (id ∈ quarantined t ∧ e = Corrupt id) ∨
             (pinned t !! id = None ∧ cached (warm t) !! id = None ∧
              (cold_get id (cold t)).2 = Err e)
  | Panic => False
  end.
Proof.
  intros Ht o. subst o. unfold tiered_get. destruct (decide (id ∈ quarantined t)) as [Hq|Hq].
  { rewrite bool_decide_eq_true_2 by done. cbn. unfold kept. cbn. split_and!; auto. }
  rewrite bool_decide_eq_false_2 by done.
  destruct (pinned t !! id) as [p|] eqn:Hp.
  { destruct (ti_pinned _ Ht _ _ Hp). unfold kept. cbn. split_and!; try done.
    - destruct Ht. by constructor.
    - intros Hb. apply Hb. right. eauto. }
  destruct (law_moka_get (warm t) id) as [Hf Hsub]. destruct (moka_get (warm t) id) as [c found].
  cbn [fst snd] in *.
  assert (tiered_inv (set_warm c t)) as Ht1 by (destruct Ht; constructor; cbn; eauto using authentic_mono).
  assert (backed t → backed (set_warm c t)) as Hb1.
  { intros Hb. apply (backed_grow t); cbn; [done|by intros ?|done|done]. }
  destruct found as [p|].
  { symmetry in Hf. destruct (ti_warm _ Ht _ _ Hf). unfold kept. cbn. split_and!; try done.
    - destruct Ht1. by constructor.
    - intros Hb. apply Hb. left. eauto. }
  assert (tiered_inv (miss (set_warm c t))) as Ht2 by (destruct Ht1; by constructor).
  destruct (cold_get_case id _ Ht2) as (s & r & E & Ht3 & Hb3 & Hr).
  assert ((cold_get id (cold t)).2 = r) as Er.
  { unfold on_cold in E. cbn in E. destruct (cold_get id (cold t)). by simplify_eq. }
  unfold mbind, ST_bind. rewrite E. destruct r as [p|e|]; [|unfold kept; cbn; split_and!; try done; auto|done].
  destruct Hr as (Hh & Hz & Hc). unfold mret, ST_ret, st_modify.
  destruct (warm_insert_fields id p (set_cold s (miss (set_warm c t)))) as [(F1 & F2 & F3 & F4 & F5 & _)|Es];
    unfold kept; cbn [fst snd].
  - rewrite F1, F2, F3, F5. cbn. split_and!; try done; [by apply warm_insert_inv|].
    intros Hb. apply warm_insert_backed; [|done]. auto.
  - rewrite Es. cbn. split_and!; try done. auto.
Qed.

Lemma pin_kept id t : tiered_inv t → kept t (pin id t) ∧ quarantined (pin id t).1 = quarantined t.
Proof.
  intros Ht. unfold pin. destruct (contains_key (pinned t) id) eqn:Ec; [by unfold kept; cbn|].
  destruct (tiered_get_spec id t Ht) as ((Hi & Hp & Hb) & Hq & Hpi & Hpb & Hr).
  unfold mbind, ST_bind. destruct (tiered_get id t) as [t' [p|e|]]; cbn [fst snd] in *; [|by unfold kept; cbn|done].
  destruct Hr as (Hnq & Hh & Hz & Hback). unfold pin_payload. rewrite Hpi, Ec.
  destruct (pinned_budget t' <? _) eqn:Eb; [by unfold kept; cbn|]. unfold kept. cbn.
  apply contains_key_false in Ec. apply Z.ltb_ge in Eb. pose proof Hi as [Hc Hw Hpn Hby Hbu Hbo Hap].
  pose proof (zlen_nonneg p). pose proof (map_sum_zlen_nonneg (pinned t')).
  assert (u64_add (pinned_bytes t') (zlen p) = pinned_bytes t' + zlen p) as Ea.
  { apply u64_add_small. change (u64_max / 4) with 4611686018427387903 in *.
    unfold MAX_PAYLOAD, u64_max in *. lia. }
  split; [|done]. split_and!; [|done|].
  - constructor; cbn; try done.
    + rewrite <-Hpi. by apply authentic_insert.
    + rewrite Ea, map_sum_insert by done. rewrite <-Hpi. lia.
    + intros i Hin. rewrite lookup_insert_ne; [rewrite <-Hpi; by apply Hap|]. rewrite Hq in Hin. congruence.
  - intros Hbk i Hid. cbn in *. destruct (decide (i = id)) as [->|Hne]; [by apply Hback|].
    rewrite lookup_insert_ne in Hid by done. apply Hb; [done|]. by rewrite Hpi.
Qed.

Definition warmable (s : S) (x : BlockId * bytes) : Prop :=
  block_of x.2 = x.1 ∧ zlen x.2 ≤ MAX_PAYLOAD ∧ cold_contains s x.1 = true.

Lemma warm_all_spec l t :
  tiered_inv t → Forall (warmable (cold t)) l →
  tiered_inv (warm_all l t) ∧ (backed t → backed (warm_all l t)) ∧
  quarantined (warm_all l t) = quarantined t.
Proof.
  revert t. induction l as [|[i q] l IH]; intros t Ht Hl; [done|].
  apply Forall_cons in Hl as [(Hh & Hz & Hc) Hl]. cbn [fst snd] in *.
  change (warm_all ((i, q) :: l) t) with (warm_all l (warm_insert i q t)).
  destruct (IH (warm_insert i q t)) as (? & Hb & Hq).
  - by apply warm_insert_inv.
  - destruct (warm_insert_fields i q t) as [(-> & _)| ->]; done.
  - split_and!; [done|auto using warm_insert_backed|]. rewrite Hq.
    by destruct (warm_insert_fields i q t) as [(_ & _ & _ & _ & -> & _)| ->].
Qed.

Lemma warmable_batch s ps :
  Forall (λ p, zlen p ≤ MAX_PAYLOAD) ps → Forall (λ i, cold_contains s i = true) (block_of <$> ps) →
  Forall (warmable s) (zip (block_of <$> ps) ps).
Proof.
  induction ps as [|p ps IH]; cbn; [constructor|]. intros [? ?]%Forall_cons [? ?]%Forall_cons.
  constructor; auto. by split.
Qed.

(** A call of the cold store that only adds. *)
Lemma refused_kept t s :
  tiered_inv t → cold_ok s → grows (cold t) s →
  tiered_inv (set_cold s t) ∧ (backed t → backed (set_cold s t)).
Proof. intros Ht Hok Hg. split; [by apply set_cold_inv|]. intros Hb. by apply (backed_grow t); cbn. Qed.

(** A batch that the cold store accepted, warmed. *)
Lemma accepted_kept t s l :
  tiered_inv t → cold_ok s → grows (cold t) s → Forall (warmable s) l →
  let t' := warm_all l (set_cold s t) in
  tiered_inv t' ∧ (backed t → backed t') ∧ quarantined t' = quarantined t.
Proof.
  intros Ht Hok Hg Hl. destruct (warm_all_spec l (set_cold s t)) as (? & Hb & ?);
    [by apply set_cold_inv|done|]. split_and!; [done| |done].
  intros Hbk. apply Hb, (backed_grow t); cbn; done.
Qed.

Lemma put_many_kept ps t :
  tiered_inv t → Forall (λ p, zlen p ≤ MAX_PAYLOAD) ps →
  kept t (tiered_put_many ps t) ∧ quarantined (tiered_put_many ps t).1 = quarantined t.
Proof.
  intros Ht Hps. unfold tiered_put_many, mbind, ST_bind, on_cold.
  destruct (cold_put_many ps (cold t)) as [s r] eqn:E.
  destruct (law_cold_put_many _ _ _ _ (ti_cold _ Ht) Hps E) as (Hok & Hg & Hr).
  unfold kept, st_modify, mret, ST_ret. destruct r as [ids|e|]; cbn [fst snd]; [|by destruct (refused_kept t s)|done].
  destruct Hr as [-> Hids].
  destruct (accepted_kept t s (zip (block_of <$> ps) ps)) as (? & ? & ?); try done. by apply warmable_batch.
Qed.

Lemma put_kept p t :
  tiered_inv t → zlen p ≤ MAX_PAYLOAD →
  kept t (tiered_put p t) ∧ quarantined (tiered_put p t).1 = quarantined t.
Proof.
  intros Ht Hp. unfold tiered_put, mbind, ST_bind, on_cold.
  destruct (cold_put p (cold t)) as [s r] eqn:E.
  destruct (law_cold_put _ _ _ _ (ti_cold _ Ht) Hp E) as (Hok & Hg & Hr).
  unfold kept, st_modify, mret, ST_ret. destruct r as [id|e|]; cbn [fst snd]; [|by destruct (refused_kept t s)|done].
  destruct Hr as [-> Hc]. destruct (accepted_kept t s [(block_of p, p)]) as (? & ? & ?); try done.
  by repeat constructor.
Qed.

Lemma unquarantine_inv q t : tiered_inv t → q ⊆ quarantined t → tiered_inv (set_quarantined q t).
Proof. intros [] Hq. constructor; cbn; try done. intros id Hid. apply ti_apart0. set_solver. Qed.

Lemma repair_kept id p t :
  tiered_inv t → zlen p ≤ MAX_PAYLOAD →
  kept t (tiered_repair id p t) ∧
  quarantined (tiered_repair id p t).1 =
    if is_ok (tiered_repair id p t).2 then quarantined t ∖ {[id]} else quarantined t.
Proof.
  intros Ht Hp. unfold tiered_repair, mbind, ST_bind, on_cold.
  destruct (cold_repair id p (cold t)) as [s r] eqn:E.
  destruct (law_cold_repair _ _ _ _ _ (ti_cold _ Ht) Hp E) as (Hok & Hg & Hr).
  unfold kept, st_modify, mret, ST_ret. destruct r as [i|e|]; cbn [fst snd is_ok]; [|by destruct (refused_kept t s)|done].
  destruct Hr as (-> & Hh & Hc). set (t1 := set_quarantined (quarantined t ∖ {[id]}) t).
  assert (tiered_inv t1) as Ht1 by (apply unquarantine_inv; [done|set_solver]).
  destruct (accepted_kept t1 s [(id, p)]) as (? & ? & ?); try done. by repeat constructor.
Qed.

Lemma unpin_commutes id c q t :
  unpin id (set_warm c (set_quarantined q t)) = set_warm c (set_quarantined q (unpin id t)).
Proof. unfold unpin. cbn. by destruct (pinned t !! id). Qed.

Lemma quarantine_kept id t :
  tiered_inv t →
  let t' := unpin id (set_warm (moka_invalidate (warm t) id) (set_quarantined (quarantined t ∪ {[id]}) t)) in
  tiered_inv t' ∧ (backed t → backed t') ∧ quarantined t' = quarantined t ∪ {[id]}.
Proof.
  intros Ht. cbn zeta. rewrite unpin_commutes. pose proof (law_moka_invalidate (warm t) id) as Hl.
  destruct (unpin_fields id t) as (F1 & F2 & F3 & F4).
  assert (cached (moka_invalidate (warm t) id) ⊆ cached (warm t)) as Hsub.
  { etrans; [exact Hl|]. apply delete_subseteq. }
  pose proof (unpin_inv id t Ht) as []. split_and!; [|intros Hb|done].
  - constructor; cbn; try done.
    + eapply authentic_mono; [by apply Ht|done].
    + intros i. rewrite F4. intros Hi. apply lookup_delete_None.
      destruct (decide (i = id)) as [->|]; [by left|right]. apply (ti_apart _ Ht). set_solver.
  - apply (backed_grow t); cbn; [done|rewrite F2; by intros i|done|]. rewrite F4. apply delete_subseteq.
Qed.

(** The sweeps leave only entries the cold store backs. *)
Lemma sweep_spec t :
  tiered_inv t →
  tiered_inv (sweep_warm (sweep_pinned t)) ∧ quarantined (sweep_warm (sweep_pinned t)) = quarantined t ∧
  backed (sweep_warm (sweep_pinned t)).
Proof.
  intros Ht. set (ids := base.filter (λ id, unbacked t id = true) (map_to_list (pinned t)).*1).
  destruct (unpin_all_fields ids t) as (E1 & E2 & E3 & E4 & E5).
  assert (tiered_inv (sweep_pinned t)) as Hi.
  { unfold sweep_pinned. fold ids. by apply unpin_all_inv. }
  set (t1 := sweep_pinned t) in *. change (sweep_pinned t) with t1.
  change (foldl (λ t id, unpin id t) t ids) with t1 in *.
  destruct (invalidate_all_fields (base.filter (λ id, unbacked t1 id = true) (moka_iter (warm t1)).*1) t1)
    as (F1 & F2 & F3). fold (sweep_warm t1) in F1, F2, F3.
  rewrite F1. split_and!.
  - destruct Hi. constructor; cbn; try done. eapply authentic_mono; [exact ti_warm0|exact F2].
  - by cbn.
  - intros id Hid. cbn in *. rewrite E2 in *. destruct (cold_contains (cold t) id) eqn:Ec; [done|exfalso].
    destruct Hid as [[p Hp]|[p Hp]].
    + rewrite F3 in Hp; [done|]. apply list_elem_of_filter. unfold unbacked. rewrite E2, Ec. split; [done|].
      apply list_elem_of_fmap. exists (id, p). split; [done|]. apply law_moka_iter. by eapply lookup_weaken.
    + rewrite E5 in Hp; [done|]. apply list_elem_of_filter. unfold unbacked. rewrite Ec. split; [done|].
      apply list_elem_of_fmap. exists (id, p). split; [done|]. apply elem_of_map_to_list. by eapply lookup_weaken.
Qed.

Lemma verify_kept id t :
  tiered_inv t →
  kept t (verify_cold id t) ∧
  quarantined (verify_cold id t).1 =
    match (verify_cold id t).2 with
    | Ok _ => quarantined t ∖ {[id]}
    | Err (BlockNotFound _) => quarantined t
    | _ => quarantined t ∪ {[id]}
    end.
Proof.
  intros Ht. unfold verify_cold. destruct (cold_get_case id t Ht) as (s & r & -> & Ht1 & Hb1 & Hr).
  destruct r as [p|e|]; [| |done].
  - unfold kept. cbn. split; [|done]. split_and!; [|done|exact Hb1]. apply unquarantine_inv; [done|set_solver].
  - destruct (quarantine_kept id (set_cold s t) Ht1) as (Hi & Hbk & Hq).
    unfold kept. destruct e; cbn [fst snd]; (split; [split_and!; [done|done|auto]|done]).
Qed.

Lemma compact_kept live t :
  tiered_inv t →
  let o := tiered_compact live t in
  tiered_inv o.1 ∧ o.2 ≠ Panic ∧ quarantined o.1 = quarantined t ∧
  (backed t → is_ok o.2 = true → backed o.1).
Proof.
  intros Ht o. subst o. unfold tiered_compact, mbind, ST_bind, on_cold.
  destruct (cold_compact live (cold t)) as [s r] eqn:E.
  destruct (law_cold_compact _ _ _ _ (ti_cold _ Ht) E) as (Hok & Hr).
  assert (tiered_inv (set_cold s t)) as Ht1 by by apply set_cold_inv.
  destruct r as [st|e|]; [|done|done]. destruct Hr as [Hnn Hz].
  destruct (Z.ltb_spec 0 (blocks_dropped st)) as [Hlt|Hge]; unfold st_modify, mret, ST_ret; cbn [fst snd].
  - destruct (sweep_spec (set_cold s t) Ht1) as (? & ? & ?). by split_and!.
  - split_and!; try done. intros Hb _. apply (backed_grow t); cbn; [done|apply Hz; lia|done|done].
Qed.

(** A compaction that stopped half way. *)
Definition interrupted {A} (op : TierOp) (r : res Error A) : bool :=
  match op with TCompact _ => negb (is_ok r) | _ => false end.

Lemma forget_out {A} (m : TM A) t :
  (forget m t).1 = (m t).1 ∧ is_ok (forget m t).2 = is_ok (m t).2.
Proof. unfold forget, mbind, ST_bind. by destruct (m t) as [t' [a|e|]]. Qed.

Lemma run_tier_kept op t :
  tiered_inv t → op_small op →
  let o := run_tier op t in
  tiered_inv o.1 ∧ o.2 ≠ Panic ∧ (backed t → interrupted op o.2 = false → backed o.1).
Proof.
  intros Ht Hs. destruct op; cbn [run_tier interrupted op_small] in *.
  1: pose proof (forget_kept (tiered_put payload) t (proj1 (put_kept _ _ Ht Hs))) as (? & ? & ?); by split_and!; auto.
  1: pose proof (forget_kept (tiered_put_many payloads) t (proj1 (put_many_kept _ _ Ht Hs))) as (? & ? & ?); by split_and!; auto.
  1: pose proof (forget_kept (tiered_get id) t (proj1 (tiered_get_spec _ _ Ht))) as (? & ? & ?); by split_and!; auto.
  1: pose proof (forget_kept (pin id) t (proj1 (pin_kept _ _ Ht))) as (? & ? & ?); by split_and!; auto.
  1: destruct (verify_kept id t Ht) as [(? & ? & ?) _]; by split_and!; auto.
  1: pose proof (forget_kept (tiered_repair id payload) t (proj1 (repair_kept _ _ _ Ht Hs))) as (? & ? & ?); by split_and!; auto.
  destruct (compact_kept live t Ht) as (Hi & Hp & _ & Hb). unfold forget, mbind, ST_bind.
  destruct (tiered_compact live t) as [t' [a|e|]]; cbn in *; split_and!; try done. auto.
Qed.

(** Which operations can lift a quarantine. *)
Definition lifts (id : BlockId) (op : TierOp) : bool :=
  match op with TVerify i | TRepair i _ => bool_decide (i = id) | _ => false end.

Lemma run_tier_quarantine op t id :
  tiered_inv t → op_small op → id ∈ quarantined t → lifts id op = false →
  id ∈ quarantined (run_tier op t).1.
Proof.
  intros Ht Hs Hq Hl. destruct op; cbn [run_tier lifts op_small] in *.
  - rewrite (proj1 (forget_out _ t)). by rewrite (proj2 (put_kept _ _ Ht Hs)).
  - rewrite (proj1 (forget_out _ t)). by rewrite (proj2 (put_many_kept _ _ Ht Hs)).
  - rewrite (proj1 (forget_out _ t)). by destruct (tiered_get_spec id0 _ Ht) as (_ & -> & _).
  - rewrite (proj1 (forget_out _ t)). by rewrite (proj2 (pin_kept _ _ Ht)).
  - apply bool_decide_eq_false in Hl. rewrite (proj2 (verify_kept id0 t Ht)).
    destruct (verify_cold id0 t) as [t' [a|[]|]]; cbn; set_solver.
  - apply bool_decide_eq_false in Hl. rewrite (proj1 (forget_out _ t)).
    rewrite (proj2 (repair_kept id0 payload t Ht Hs)). destruct (is_ok _); set_solver.
  - rewrite (proj1 (forget_out _ t)). by destruct (compact_kept live t Ht) as (_ & _ & -> & _).
Qed.

Definition run_all (ops : list TierOp) (t : T) : T := foldl (λ t op, (run_tier op t).1) t ops.

Lemma run_all_quarantine ops t id :
  tiered_inv t → Forall op_small ops → Forall (λ op, lifts id op = false) ops → id ∈ quarantined t →
  tiered_inv (run_all ops t) ∧ id ∈ quarantined (run_all ops t).
Proof.
  revert t. induction ops as [|op ops IH]; intros t Ht Hs Hl Hq; [done|].
  apply Forall_cons in Hs as [? ?], Hl as [? ?]. cbn. apply IH; [|done|done|].
  - by apply run_tier_kept.
  - by apply run_tier_quarantine.
Qed.

End Tiered.

(** ** Properties *)
Section TieredTheorems.
Context {S C : Type} `{ColdStoreLaws S, !Moka C, !MokaLaws C}.

(** Every call of the tiered store keeps its invariant, whatever the cold
    store's device does, and none panics: cached and pinned blocks hash to
    their ids, so a read that succeeds returns bytes of exactly that hash; the
    pinned byte counter is exactly the size of what is pinned and stays within
    its budget, with no wrap-around; and no block is only in memory (every
    cached or pinned block is in the cold store), except after a compaction
    that was interrupted. *)
Theorem tiers_stay_consistent op t t' r :
  tiered_inv t → op_small op → run_tier op t = (t', r) →
  r ≠ Panic ∧ tiered_inv t' ∧
  (backed t → interrupted op r = false → backed t') ∧
  pinned_bytes t' = map_sum zlen (pinned t') ∧ 0 ≤ pinned_bytes t' ≤ pinned_budget t' ∧
  (∀ id p, (tiered_get id t').2 = Ok p → block_of p = id).
Proof.
  intros Ht Hs E. destruct (run_tier_kept op t Ht Hs) as (Hi & Hp & Hb). rewrite E in *. cbn [fst snd] in *.
  split_and!; try done; try apply Hi.
  - rewrite (ti_bytes _ Hi). apply map_sum_zlen_nonneg.
  - intros id p Hg. destruct (tiered_get_spec id t' Hi) as (_ & _ & _ & _ & Hr). rewrite Hg in Hr. tauto.
Qed.

(** C32. A damaged block is withheld.  When [verify_cold] finds that the cold
    copy of a block cannot be read back (any error but "not found"), then
    after any further calls other than verifying or repairing that block,
    every read answers [Corrupt] and [contains] answers no, even if a correct
    copy was cached, pinned or written again; a successful repair, whose
    payload must hash to the id, makes the block available again. *)
Theorem quarantine_holds id t t1 e ops :
  tiered_inv t → run_tier (TVerify id) t = (t1, Err e) → (∀ i, e ≠ BlockNotFound i) →
  Forall op_small ops → Forall (λ op, lifts id op = false) ops →
  let t2 := run_all ops t1 in
  tiered_get id t2 = (t2, Err (Corrupt id)) ∧ tiered_contains t2 id = false ∧
  ∀ p t3, zlen p ≤ MAX_PAYLOAD → tiered_repair id p t2 = (t3, Ok id) →
    block_of p = id ∧ tiered_contains t3 id = true.
Proof.
  intros Ht E Hn Hs Hl. destruct (verify_kept id t Ht) as [(Hi & _ & _) Hq]. cbn [run_tier] in E.
  rewrite E in *. cbn [fst snd] in *.
  assert (id ∈ quarantined t1) as Hin by (rewrite Hq; destruct e; [set_solver|naive_solver|set_solver..]).
  destruct (run_all_quarantine ops t1 id Hi Hs Hl Hin) as [Hi2 Hin2]. cbn zeta. split_and!.
  - unfold tiered_get. by rewrite bool_decide_eq_true_2.
  - unfold tiered_contains. by rewrite bool_decide_eq_true_2.
  - intros p t3 Hp Hr. destruct (repair_kept id p _ Hi2 Hp) as [_ Hq3]. rewrite Hr in Hq3. cbn in Hq3.
    unfold tiered_repair, mbind, ST_bind, on_cold in Hr. destruct (cold_repair id p _) as [s r] eqn:Ec in Hr.
    destruct (law_cold_repair _ _ _ _ _ (ti_cold _ Hi2) Hp Ec) as (_ & _ & Hcr).
    destruct r as [i|?|]; [|done..]. destruct Hcr as (-> & Hh & Hc). split; [done|].
    unfold tiered_contains. rewrite Hq3, bool_decide_eq_false_2 by set_solver. cbn.
    unfold st_modify, mret, ST_ret in Hr. simplify_eq.
    match goal with |- context [warm_insert ?a ?b ?c] =>
      destruct (warm_insert_fields a b c) as [(-> & _)| ->] end; done.
Qed.
End TieredTheorems.
