(* ===== verification/TieredCold.v ===== *)
(** * [BlockStore] as the cold tier

    The block store of [Store], on any backend that satisfies the I/O laws,
    keeps the promises the tiered store is built on, so the theorems of
    [Tiered] hold of the composition. *)

From S2P Require Import Prelude Core Io Segment Store StoreInvariant StorePut StoreTheorems StoreOpen StoreCompact Tiered.
From Stdlib Require Import Strings.Byte.

Section Cold.
Context {W F : Type} `{SegmentIoLaws W F, Blake3, HashOrderLaws}.

#[export] Instance cold_blocks : ColdStore (W * BlockStore F) := {|
  cold_get := get;
  cold_put := put;
  cold_put_many := put_many;
  cold_repair := repair;
  cold_compact := compact;
  cold_contains := λ st id, contains st.2 id |}.

Definition blocks_ok (st : W * BlockStore F) : Prop := ∃ segs, store_ok st.1 st.2 segs.

Lemma view_small w s segs id p : store_ok w s segs → view w s id = Some p → zlen p ≤ MAX_PAYLOAD.
Proof.
  intros Hok Hv. unfold view in Hv. destruct (index s !! id) as [loc|] eqn:Hi; [|done].
  destruct (list_elem_of_lookup_1 _ _ (so_index _ _ _ Hok _ _ Hi)) as [k Hk].
  destruct (view_spec _ _ _ _ _ _ (so_disk _ _ _ Hok) Hi Hk) as (q & Hq & Hv').
  unfold view in Hv'. rewrite Hi in Hv'. rewrite Hv' in Hv. simplify_eq.
  destruct (all_locs_nth _ _ _ _ _ Hk) as (i & recs & junk & j & Hs & _ & Hr). rewrite Hq in Hr.
  destruct (Forall2_lookup_r _ _ _ _ _ (od_segs _ _ _ (so_disk _ _ _ Hok)) Hs) as (f & _ & _ & Hsm & _).
  cbn in Hsm. unfold small in Hsm. rewrite Forall_lookup in Hsm. by apply (Hsm j (id, p)).
Qed.

Lemma contains_iff w s segs id : store_ok w s segs → contains s id = true ↔ is_Some (view w s id).
Proof. apply contains_view. Qed.

Lemma blocks_get id (st st' : W * BlockStore F) r :
  blocks_ok st → get id st = (st', r) →
  blocks_ok st' ∧ (∀ i, contains st'.2 i = contains st.2 i) ∧
  match r with
  | Ok p => block_of p = id ∧ zlen p ≤ MAX_PAYLOAD ∧ contains st.2 id = true
  | Err e => (∃ i, e = BlockNotFound i) ↔ contains st.2 id = false
  | Panic => False
  end.
Proof.
  destruct st as [w s]. intros [segs Hok] E. cbn [fst snd] in *.
  pose proof (get_wp id w s segs (so_disk _ _ _ Hok) (so_index _ _ _ Hok)) as Hg. unfold wp in Hg. rewrite E in Hg.
  pose proof (contains_iff w s segs id Hok) as Hc.
  destruct r as [p|e|]; [| |done]; destruct st' as [w' s']; cbn in Hg; destruct Hg as (-> & Hs & _ & Hr);
    (split; [by exists segs; apply (store_ok_same w)|]); (split; [done|]); cbn in *.
  - destruct Hr as [Hv Hb]. split_and!; [done|by eapply view_small|]. apply Hc. eauto.
  - destruct Hr as [[-> Hv]|[[-> (p & Hv & _)]|(_ & Hv & i & ->)]].
    + split; [intros _|eauto]. apply not_true_iff_false. rewrite Hc, Hv. by intros [].
    + split; [by intros [? ?]|]. intros Hf. rewrite (proj2 Hc) in Hf; [done|eauto].
    + split; [by intros [? ?]|]. intros Hf. by rewrite (proj2 Hc) in Hf.
Qed.

(** Appending, repairing or not. *)
Lemma blocks_append ps rep (st st' : W * BlockStore F) r :
  blocks_ok st → Forall (λ p, zlen p ≤ MAX_PAYLOAD) ps → put_many_inner ps rep st = (st', r) →
  blocks_ok st' ∧ grows st st' ∧
  match r with
  | Ok ids => ids = block_of <$> ps ∧ Forall (λ i, contains st'.2 i = true) ids
  | Err _ => True
  | Panic => False
  end.
Proof.
  destruct st as [w s], st' as [w' s']. intros [segs Hok] Hps E. cbn [fst snd] in *.
  pose proof (put_many_inner_wp ps rep w s segs Hok Hps) as Hm. unfold wp in Hm. rewrite E in Hm.
  destruct r as [ids|e|]; [| |done].
  - destruct Hm as (-> & _ & segs' & news & [A1 A2 A3 [N1 N2 N3 N4] A4 A5 A6 A7 A8]). cbn [fst snd] in *.
    assert (∀ i, is_Some (view w s i) → is_Some (view w' s' i)) as Hv.
    { intros i Hi. rewrite A8. destruct ((list_to_map news : gmap BlockId bytes) !! i); eauto. }
    split; [by exists segs'|]. split.
    + intros i Hi. cbn in *. apply (contains_iff w' s' segs'); [done|]. apply Hv. by apply (contains_iff w s segs).
    + split; [done|]. apply Forall_forall. intros i Hi. apply (contains_iff w' s' segs'); [done|].
      apply list_elem_of_fmap in Hi as (p & -> & Hp).
      destruct (N4 (block_of p, p)) as [Hn|Hc]; [by apply list_elem_of_fmap; exists p| |].
      * rewrite A8. cbn in Hn. destruct (list_to_map news !! block_of p) eqn:En; [eauto|].
        by apply not_elem_of_list_to_map in En.
      * apply Hv. by apply (contains_iff w s segs).
  - destruct (write_failed s) eqn:Hf.
    + destruct Hm as [[= -> ->] _]. split; [by exists segs|]. split; [by intros i|done].
    + destruct Hm as [Hwf Hb]. destruct (broken_store_ok w s segs _ (w', s') Hok Hwf Hb) as (? & Ei & _).
      split; [done|]. split; [|done]. intros i. cbn. unfold contains. cbn in Ei. by rewrite Ei.
Qed.

Lemma blocks_append_adds ps rep (st : W * BlockStore F) :
  blocks_ok st → Forall (λ p, zlen p ≤ MAX_PAYLOAD) ps → adds (block_of <$> ps) st (put_many_inner ps rep st).1.
Proof.
  destruct st as [w s]. intros [segs Hok] Hps i Hi. cbn [cold_contains cold_blocks fst snd] in *.
  pose proof (put_many_inner_wp ps rep w s segs Hok Hps) as Hm. unfold wp in Hm.
  destruct (put_many_inner ps rep (w, s)) as [[w' s'] r] eqn:E. cbn [fst snd] in *. destruct r as [ids|e|]; [| |done].
  - destruct Hm as (_ & _ & segs' & news & [A1 A2 A3 [N1 N2 N3 N4] A4 A5 A6 A7 A8]). cbn [fst snd] in *.
    apply (contains_iff w' s' segs') in Hi; [|done]. rewrite A8 in Hi.
    destruct ((list_to_map news : gmap BlockId bytes) !! i) as [p|] eqn:En.
    + right. apply elem_of_list_to_map_2, N3, list_elem_of_fmap in En as (q & [= -> _] & Hq).
      by apply list_elem_of_fmap_2.
    + left. by apply (contains_iff w s segs).
  - left. destruct (write_failed s) eqn:Hf.
    + destruct Hm as [[= -> ->] _]. done.
    + destruct Hm as [Hwf Hb]. destruct (broken_store_ok w s segs _ (w', s') Hok Hwf Hb) as (_ & Ei & _).
      unfold contains in *. cbn in Ei. by rewrite Ei in Hi.
Qed.

#[export] Instance cold_blocks_laws : ColdStoreLaws (W * BlockStore F).
Proof.
  refine {| cold_ok := blocks_ok |}.
  - intros id st st' r Hok E. by apply blocks_get.
  - intros ps st st' r Hok Hps E. by apply (blocks_append ps false).
  - intros p st st' r Hok Hp E. cbn in E. unfold put, mbind, ST_bind in E.
    destruct (put_many [p] st) as [st1 r1] eqn:E1.
    apply (blocks_append [p] false) in E1 as (? & ? & Hr); [|done|by repeat constructor].
    destruct r1 as [ids|e|]; [|simplify_eq; by split_and!|done]. destruct Hr as [-> Hc]. unfold first_id, st_lift in E. cbn in E. simplify_eq.
    apply Forall_cons in Hc as [? _]. by split_and!.
  - intros id p st st' r Hok Hp E. cbn in E. unfold repair in E.
    destruct (block_verify id p) eqn:Ev; cbn [negb] in E; [|unfold st_throw in E; simplify_eq; split_and!; [done|by intros i|done]].
    apply block_verify_spec in Ev. unfold mbind, ST_bind in E.
    destruct (put_many_inner [p] true st) as [st1 r1] eqn:E1.
    apply (blocks_append [p] true) in E1 as (? & ? & Hr); [|done|by repeat constructor].
    destruct r1 as [ids|e|]; [|simplify_eq; by split_and!|done]. destruct Hr as [-> Hc]. unfold first_id, st_lift in E. cbn in E. simplify_eq.
    apply Forall_cons in Hc as [? _]. by split_and!.
  - intros live [w s] st' r [segs Hok] E. cbn in E, Hok. pose proof (compact_wp live w s segs Hok) as Hwp.
    unfold wp in Hwp. rewrite E in Hwp. destruct r as [st|e|]; [| |done].
    + destruct Hwp as [Hc _]. split; [apply Hc|]. destruct (compact_dropped _ _ _ _ E) as [? Hz].
      split; [done|]. intros ->%Hz. by intros i.
    + destruct Hwp as [Hc _]. split; [apply Hc|done].
Defined.

#[export] Instance cold_blocks_exact : ColdStoreExact (W * BlockStore F).
Proof.
  assert (∀ p rep (st : W * BlockStore F), ((put_many_inner [p] rep ≫= first_id) st).1 = (put_many_inner [p] rep st).1) as Hf.
  { intros p rep st. unfold mbind, ST_bind, first_id, st_lift.
    by destruct (put_many_inner [p] rep st) as [st' [ids|e|]]. }
  constructor.
  - intros ps st Hok Hps. by apply (blocks_append_adds ps false).
  - intros p st Hok Hp. cbn [cold_put cold_blocks]. unfold put, put_many. rewrite Hf.
    apply (blocks_append_adds [p] false); [done|by repeat constructor].
  - intros id p st Hok Hp. cbn [cold_repair cold_blocks]. unfold repair.
    destruct (block_verify id p) eqn:Ev; cbn [negb]; [|intros i Hi; by left].
    apply block_verify_spec in Ev as <-. rewrite Hf. apply (blocks_append_adds [p] true); [done|by repeat constructor].
Qed.
End Cold.

(** ** Examples: a cache that never evicts, over one-segment stores *)
Definition map_cache : Moka (gmap BlockId bytes) := {|
  moka_get := λ c id, (c, c !! id);
  moka_insert := λ c id p, <[id := p]> c;
  moka_invalidate := λ c id, delete id c;
  moka_iter := λ c, map_to_list c;
  moka_flush := λ c, c;
  moka_count := λ c, zsize c;
  moka_weight := λ c, map_sum zlen c |}.
Definition map_cache_laws : @MokaLaws _ map_cache.
Proof.
  refine (@Build_MokaLaws _ map_cache (λ c, c) _ _ _ _ _); cbn; try done.
  intros c id p. apply elem_of_map_to_list.
Defined.

#[local] Existing Instance toy_blake3.
#[local] Existing Instance toy_order.
#[local] Existing Instance toy_order_laws.
#[local] Existing Instance map_cache.
#[local] Existing Instance map_cache_laws.

Abbreviation ToyTier := (TieredStore (Disk * BlockStore N) (gmap BlockId bytes)).
(** One good block, and one whose bytes have rotted while a good copy is cached. *)
Definition good_tier : ToyTier := tiered_new (disk_of [rec1] [], store_of [rec1]) ∅ 1024.
Definition bad_tier : ToyTier :=
  MkTiered ∅ (disk_of [rotten] [], store_of [rotten]) {[block_of [x02] := [x02]]} 1024 ∅ 0 256 0 0.

Lemma authentic_empty : authentic ∅.
Proof. intros id p Hp. by rewrite lookup_empty in Hp. Qed.

Lemma good_tier_inv : tiered_inv good_tier.
Proof.
  constructor; cbn; try done; try apply authentic_empty.
  - exists [([rec1], [])]. apply rec1_ok.
Qed.
Lemma bad_tier_inv : tiered_inv bad_tier.
Proof.
  constructor; cbn; try done; try apply authentic_empty.
  - exists [([rotten], [])]. apply rotten_ok.
  - intros id p [<- <-]%lookup_singleton_Some. by split; vm_compute.
Qed.

Definition pinned_tier : ToyTier * res Error () := run_tier (TPin (block_of [x01])) good_tier.

Lemma tiers_stay_consistent_witness :
  pinned_tier.2 = Ok () ∧ tiered_inv pinned_tier.1 ∧
  pinned_bytes pinned_tier.1 = map_sum zlen (pinned pinned_tier.1).
Proof.
  split; [vm_compute; reflexivity|].
  pose proof (tiers_stay_consistent (TPin (block_of [x01])) good_tier pinned_tier.1 pinned_tier.2
    good_tier_inv I (surjective_pairing _)) as (_ & Hi & _ & Hb & _).
  split; [exact Hi|exact Hb].
Defined.

(** The cold copy is rotten: the cached copy is withheld, also after it is
    written again. *)
Definition verified_tier : ToyTier * res Error () := run_tier (TVerify (block_of [x02])) bad_tier.

Lemma quarantine_holds_witness :
  verified_tier.2 = Err (Corrupt (block_of [x02])) ∧
  tiered_contains (run_all [TPut [x02]] verified_tier.1) (block_of [x02]) = false.
Proof.
  assert (verified_tier.2 = Err (Corrupt (block_of [x02]))) as He by (vm_compute; reflexivity).
  split; [exact He|].
  pose proof (quarantine_holds (block_of [x02]) bad_tier verified_tier.1 (Corrupt (block_of [x02])) [TPut [x02]]
    bad_tier_inv (pair_snd _ _ He)) as Hq.
  apply Hq.
  - intros i. discriminate.
  - constructor; [discriminate|constructor].
  - constructor; [reflexivity|constructor].
Defined.
