(* ===== verification/StoreRestart.v ===== *)
(** * Restarting the block store

    The interface of a cold store once more, with a stronger invariant: at any
    moment, whatever failed before, opening the files again finds every block
    of the index under its hash.  It holds from a store whose segments have no
    torn bytes, up to and including the next failure.  It cannot hold for
    longer: the last example shows how bytes left behind by a crash come back
    after the next restart and hide an acknowledged block. *)

From S2P Require Import Prelude Core Io Segment Store StoreInvariant StorePut StoreTheorems StoreOpen StoreCompact Tiered TieredCold.
From Stdlib Require Import Strings.Byte.

Section Restart.
Context {W F : Type} `{SegmentIoLaws W F, Blake3, HashOrderLaws}.
Abbreviation St := (W * BlockStore F)%type.

Definition durable_st (st : St) : Prop := durable st.1 st.2.

Lemma durable_blocks st : durable_st st → blocks_ok st.
Proof. intros (segs & Hok & _). by exists segs. Qed.

(** ** Every operation keeps it *)
Lemma durable_same w w' s : durable w s → same_disk w w' → durable w' s.
Proof. intros (segs & Hok & Hs) Hsame. exists segs. split; [by apply (store_ok_same w)|done]. Qed.

(** A durable store, with its segments. *)
Definition durable_as (st : St) (segs : list segment) : Prop := store_ok st.1 st.2 segs ∧ sound_segs st.2 segs.
Lemma batch_hashed ps (recs : list (BlockId * bytes)) : Forall (of_batch ps) recs → hashed recs.
Proof. intros Hr. eapply Forall_impl; [exact Hr|]. by intros r [? _]. Qed.
(** New records are of the payloads. *)
Definition adds_only (ids : list BlockId) (segs segs' : list segment) : Prop :=
  (∀ x, x ∈ all_locs 0 segs → x ∈ all_locs 0 segs') ∧
  ∀ x, x ∈ all_locs 0 segs' → x ∈ all_locs 0 segs ∨ x.1 ∈ ids.
Lemma adds_only_batch ps segs segs' dl dn :
  all_locs 0 segs' = all_locs 0 segs ++ dl → all_recs segs' = all_recs segs ++ dn → Forall (of_batch ps) dn →
  adds_only (block_of <$> ps) segs segs'.
Proof.
  intros El Er Hdn. pose proof (added_ids segs segs' dl dn El Er) as Hids. split; [rewrite El; set_solver|].
  intros x. rewrite El, elem_of_app. intros [?|Hx]; [by left|right].
  assert (x.1 ∈ dn.*1) as (r & -> & Hr)%list_elem_of_fmap by (rewrite <-Hids; by apply list_elem_of_fmap; exists x).
  destruct (proj1 (Forall_forall _ _) Hdn r Hr) as [<- Hp]. by apply list_elem_of_fmap_2.
Qed.
Lemma append_later ps rep (st : St) segs :
  Forall (λ p, zlen p ≤ MAX_PAYLOAD) ps → durable_as st segs →
  ∃ segs', durable_as (put_many_inner ps rep st).1 segs' ∧ adds_only (block_of <$> ps) segs segs'.
Proof.
  destruct st as [w s]. intros Hps Hdur. pose proof Hdur as (Hok & Hsc & Hha & Ht). cbn [fst snd] in *.
  pose proof (put_many_inner_wp ps rep w s segs Hok Hps) as Hm. unfold wp in Hm.
  destruct (put_many_inner ps rep (w, s)) as [[w' s'] r]. destruct r as [ids|e|]; [| |done].
  - destruct Hm as (_ & Hf & segs' & news & [A1 A2 _ _ (dl & A5 & _) A6 _ A8 _ A10]). cbn [fst snd] in *. exists segs'.
    pose proof (A8 (Ht Hf)) as Ht'. split; [|by eapply adds_only_batch]. split; [done|].
    split_and!; [by eapply tidy_scannable; [apply A1|]| |done]. cbn. rewrite A6. apply Forall_app. split; [done|by eapply batch_hashed].
  - destruct (write_failed s) eqn:Hf; [destruct Hm as [[= -> ->] _]; exists segs; split; [done|split; auto]|]. destruct Hm as [Hwf Hb].
    destruct Hb as (_ & _ & _ & _ & _ & _ & X4 & X5 & X6 & _ & Htorn). cbn [fst snd] in *.
    destruct (Htorn (Ht eq_refl)) as (sg & dl & dn & D & Hsc' & El & Er & Hdn). cbn [fst snd] in *. exists sg.
    split; [|by eapply adds_only_batch]. split.
    + cbn [fst snd]. constructor; auto.
      * rewrite X4. intros i loc Hi. rewrite El. apply elem_of_app. left. by apply (so_index _ _ _ Hok).
      * by rewrite Hwf.
      * rewrite X5. apply Hok.
    + unfold sound_segs. cbn [snd]. split_and!; [done|rewrite Er; apply Forall_app; split; [done|by eapply batch_hashed]|congruence].
Qed.
Lemma durable_append ps rep (st : St) :
  durable_st st → Forall (λ p, zlen p ≤ MAX_PAYLOAD) ps → durable_st (put_many_inner ps rep st).1.
Proof. intros (segs & Hd) Hps. destruct (append_later ps rep st segs Hps Hd) as (segs' & Hd' & _). by exists segs'. Qed.
Lemma durable_first ps rep (st : St) :
  durable_st st → Forall (λ p, zlen p ≤ MAX_PAYLOAD) ps → durable_st ((put_many_inner ps rep ≫= first_id) st).1.
Proof.
  intros Hd Hps. pose proof (durable_append ps rep st Hd Hps) as Ha. unfold mbind, ST_bind, first_id, st_lift.
  by destruct (put_many_inner ps rep st) as [st' [ids|e|]].
Qed.
Lemma durable_compact live (st : St) : durable_st st → durable_st (compact live st).1.
Proof.
  destruct st as [w s]. intros Hd. pose proof Hd as (segs & Hok & _). pose proof (compact_wp live w s segs Hok) as Hwp.
  unfold wp in Hwp. destruct (compact live (w, s)) as [[w' s'] [c|e|]]; [| |done]; by destruct Hwp as [Hc _]; apply Hc.
Qed.
Lemma durable_get id (st : St) : durable_st st → durable_st (get id st).1.
Proof.
  destruct st as [w s]. intros Hd. pose proof Hd as (segs & Hok & _).
  pose proof (get_wp id w s segs (so_disk _ _ _ Hok) (so_index _ _ _ Hok)) as Hg. unfold wp in Hg.
  destruct (get id (w, s)) as [[w' s'] [p|e|]]; [| |done]; destruct Hg as (Es & Hs & _); cbn in *; subst s'; by eapply durable_same.
Qed.

(** The block store as a cold store that a restart finds again. *)
Definition durable_laws : ColdStoreLaws St.
Proof.
  refine {| cold_ok := durable_st |}.
  - intros id st st' r Hd E. destruct (blocks_get id st st' r (durable_blocks _ Hd) E) as (_ & ? & ?).
    split; [|done]. change st' with (st', r).1. rewrite <-E. by apply durable_get.
  - intros ps st st' r Hd Hps E. destruct (law_cold_put_many ps st st' r) as (_ & ?); [exact (durable_blocks _ Hd)|done|done|].
    split; [|done]. change st' with (st', r).1. rewrite <-E. by apply (durable_append ps false).
  - intros p st st' r Hd Hp E. destruct (law_cold_put p st st' r) as (_ & ?); [exact (durable_blocks _ Hd)|done|done|].
    split; [|done]. change st' with (st', r).1. rewrite <-E. apply (durable_first [p] false); [done|by constructor].
  - intros id p st st' r Hd Hp E. destruct (law_cold_repair id p st st' r) as (_ & ?); [exact (durable_blocks _ Hd)|done|done|].
    split; [|done]. change st' with (st', r).1. rewrite <-E. cbn. unfold repair.
    destruct (block_verify id p); cbn [negb]; [|done]. apply (durable_first [p] true); [done|by constructor].
  - intros live st st' r Hd E. destruct (law_cold_compact live st st' r) as (_ & ?); [exact (durable_blocks _ Hd)|done|].
    split; [|done]. change st' with (st', r).1. rewrite <-E. by apply durable_compact.
Defined.
Lemma durable_exact : @ColdStoreExact St _ _ durable_laws.
Proof.
  constructor; intros.
  - apply law_cold_put_many_adds; [by apply durable_blocks|done].
  - apply law_cold_put_adds; [by apply durable_blocks|done].
  - apply law_cold_repair_adds; [by apply durable_blocks|done].
Qed.

(** ** Opening the files again *)
Lemma insert_all_id (l : list (BlockId * Location)) (m : gmap BlockId Location) id : id ∈ l.*1 → is_Some (insert_all m l !! id).
Proof.
  induction l as [|[i x] l IH] using rev_ind; [by intros ?%elem_of_nil|].
  rewrite insert_all_app, fmap_app, elem_of_app. cbn. destruct (decide (i = id)) as [->|Hne].
  - intros _. rewrite lookup_insert_eq. eauto.
  - rewrite lookup_insert_ne by done. intros [?|[->|?%elem_of_nil]%elem_of_cons]; [by apply IH|done..].
Qed.
Lemma contains_recorded w (s : BlockStore F) segs id :
  store_ok w s segs → contains s id = true → ∃ loc, (id, loc) ∈ all_locs 0 segs.
Proof. intros Hok [loc Hi]%contains_key_true. exists loc. by apply (so_index _ _ _ Hok). Qed.
Lemma stored_hashed w s segs id :
  store_ok w s segs → hashed (all_recs segs) → contains s id = true → ∃ p, view w s id = Some p ∧ block_of p = id.
Proof.
  intros Hok Hha Hc. apply (contains_view w s segs) in Hc as [p Hp]; [|done]. exists p. split; [done|].
  unfold view in Hp. destruct (index s !! id) as [loc|] eqn:Hi; [|done].
  destruct (list_elem_of_lookup_1 _ _ (so_index _ _ _ Hok _ _ Hi)) as [k Hk].
  destruct (view_spec _ _ _ _ _ _ (so_disk _ _ _ Hok) Hi Hk) as (q & Hq & Hv).
  unfold view in Hv. rewrite Hi in Hv. cbn in Hp, Hv. rewrite Hv in Hp. simplify_eq.
  by apply (proj1 (Forall_lookup _ _) Hha k (id, p)).
Qed.
Lemma reopen_durable w s w1 :
  durable w s → same_disk w w1 → healthy w1 →
  ∃ w2 s2, open_with w1 = (w2, Ok s2) ∧ blocks_ok (w2, s2) ∧ same_disk w1 w2 ∧ healthy w2 ∧ write_failed s2 = false ∧
    (∀ id, contains s id = true → contains s2 id = true) ∧
    (∀ id, contains s2 id = true → ∃ p, view w2 s2 id = Some p ∧ block_of p = id) ∧
    (write_failed s = false → durable w2 s2).
Proof.
  intros (segs & Hok & Hsc & Hha & Ht) Hsame Hw. pose proof (on_disk_same _ _ _ _ Hsame (so_disk _ _ _ Hok)) as Hd.
  pose proof (open_wp w1 (files s) segs Hd Hsc (so_files _ _ _ Hok)) as Ho. unfold wp in Ho.
  destruct (open_with w1) as [w2 [s2|e|]]; [|by destruct Ho|done].
  destruct Ho as (Hs2 & Hh & Ef & Hex & _ & Hf & Hok2). exists w2, s2.
  split_and!; [done|by exists segs|done|auto|done| | |].
  - intros id Hc. apply contains_key_true in Hc as [loc Hi]. apply contains_key_true. unfold exact in Hex. rewrite Hex.
    apply insert_all_id, list_elem_of_fmap. exists (id, loc). split; [done|]. by apply (so_index _ _ _ Hok).
  - intros id Hc. by apply (stored_hashed w2 s2 segs).
  - intros Hwf. exists segs. split; [done|]. by split_and!; auto.
Qed.
End Restart.

(** ** What a crash can bring back *)
Module StaleTail.
#[local] Existing Instance toy_blake3.
#[local] Existing Instance toy_order.

Abbreviation store_run A := (Disk * res Error A)%type.
(** One process: open the store and do one thing, on a device with [plan]. *)
Definition session {A} (plan : list (option nat)) (m : ST (Disk * BlockStore N) Error A) (d : Disk) : store_run A :=
  match open_with d with
  | (d, Ok s) => let '((d, _), r) := m (MkDisk (inodes d) (entries d) plan, s) in (MkDisk (inodes d) (entries d) [], r)
  | (d, Err e) => (d, Err (Io e))
  | (d, Panic) => (d, Panic)
  end.

Definition victim : bytes := [x01].
(** A payload that spells, where the second aligned block of its record will
    be, the header of another record of the victim's id. *)
Definition crafted : bytes :=
  replicate 4032 x00 ++ take 64 (encode_record (block_of victim) [x00]) ++ replicate 4042 x00.
(** The crash: the append of [crafted] stops after two of its three blocks. *)
Definition crash : list (option nat) := [Some (Z.to_nat 8192)].

Definition day1 : store_run BlockId := session [] (put victim) empty_disk.
Definition day2 : store_run BlockId := session crash (put crafted) day1.1.
Definition day3 : store_run BlockId := session [] (put [x02]) day2.1.

(** The disk after each day. *)
Definition disk1 : Disk := Eval vm_compute in day1.1.
Definition disk2 : Disk := Eval vm_compute in day2.1.
Definition disk3 : Disk := Eval vm_compute in day3.1.
Lemma day1_run : day1 = (disk1, Ok (block_of victim)).
Proof. by vm_compute. Qed.
Lemma day2_run : session crash (put crafted) disk1 = (disk2, Err (Io io_fault)).
Proof. by vm_compute. Qed.
Lemma day3_run : session [] (put [x02]) disk2 = (disk3, Ok (block_of [x02])).
Proof. by vm_compute. Qed.

(** Bytes of a torn append can hide an acknowledged block.  The recovery scan
    stops at the torn record but leaves its bytes in the file, and the next
    append overwrites only the first of them; the scan after that runs into
    the rest.  Here the victim is acknowledged and readable, an upload fails,
    another one succeeds, and nothing else goes wrong; but after the next
    restart the victim's id leads to a forged record and reads as corrupt,
    although its own record is still in the file. *)
Theorem stale_tail_hides_block :
  day1.2 = Ok (block_of victim) ∧ (session [] (get (block_of victim)) day1.1).2 = Ok victim ∧
  is_ok day2.2 = false ∧ (session [] (get (block_of victim)) day2.1).2 = Ok victim ∧
  day3.2 = Ok (block_of [x02]) ∧
  (session [] (get (block_of victim)) day3.1).2 = Err (Corrupt (block_of victim)).
Proof.
  unfold day3, day2. rewrite day1_run. cbn [fst snd]. rewrite day2_run. cbn [fst snd]. rewrite day3_run. cbn [fst snd].
  split_and!; [reflexivity|vm_compute; reflexivity|reflexivity|vm_compute; reflexivity|reflexivity|vm_compute; reflexivity].
Qed.
End StaleTail.
