(* ===== verification/Retention.v ===== *)
(** * Upload guards ([crates/kalpakdb/src/retention.rs])

    A journal of the blocks uploads may write, in numbered checksummed
    records, and in memory the writes in progress and the release checks that
    exclude them.  The file is in the directory model of [Durability]; one
    read of the whole file stands for the loop of [read_exact] calls.  Guards
    ([WriteGuard], [ReleaseCheck]) are values that are dropped later: [System]
    is the journal together with the guards that are out. *)

From S2P Require Import Prelude Core Durability.
From Stdlib Require Import Strings.Byte.

Definition RET_HEADER : Z := 56.
Definition MAX_BATCH : Z := 4096.
Definition MAX_IDS : Z := 1048576.
Definition MAX_BYTES : Z := 128 * 1024 * 1024.
Definition RET_FILE : string := "upload-retention.log".

Record RetState := MkRet {
  rt_ids : gmap BlockId Z;
  rt_sequence : Z;
  rt_bytes : Z;
  rt_failed : bool;
  rt_active : gmap BlockId Z;
  rt_checks : gset BlockId }.

Definition set_ret_failed b (s : RetState) : RetState :=
  MkRet (rt_ids s) (rt_sequence s) (rt_bytes s) b (rt_active s) (rt_checks s).
Definition set_active m (s : RetState) : RetState :=
  MkRet (rt_ids s) (rt_sequence s) (rt_bytes s) (rt_failed s) m (rt_checks s).
Definition set_checks q (s : RetState) : RetState :=
  MkRet (rt_ids s) (rt_sequence s) (rt_bytes s) (rt_failed s) (rt_active s) q.

Definition id_bytes (id : BlockId) : bytes := arr (block_bytes id).
Definition KLPKUL01 : bytes := str_bytes "KLPKUL01".
Definition KLPKUL02 : bytes := str_bytes "KLPKUL02".

(** [as_chunks::<32>().0]: the whole chunks, as block ids. *)
Fixpoint id_chunks (n : nat) (l : bytes) : list BlockId :=
  match n with
  | O => []
  | S n =>
      match to_array 32 (take 32 l) with
      | Some a => MkBlockId a :: id_chunks n (drop 32 l)
      | None => []
      end
  end.

Section Retention.
Context `{Blake3, HashOrder}.

(** ** The record format *)
Definition ret_header (tag : bytes) (count next : Z) : bytes :=
  let h := tag ++ le_bytes 4 count ++ replicate 4 x00 ++ le_bytes 8 next in
  h ++ id_bytes (block_of h).
Definition ret_record (ids : list BlockId) (next : Z) : bytes :=
  let body := concat (id_bytes <$> ids) in
  ret_header KLPKUL02 (zlen ids) next ++ body ++ id_bytes (block_of body).

(** ** [open] *)

(** One turn of the loop: stop at the end or at a partial record, fail on a
    corrupt one. *)
Inductive ret_step :=
| RetStop
| RetBad (message : string)
| RetNext (ids : list BlockId) (next size : Z).

Definition read_record (l : bytes) (sequence : Z) : ret_step :=
  if zlen l <? RET_HEADER then RetStop
  else
    let header := zslice l 0 RET_HEADER in
    if (negb (bool_decide (zslice header 0 8 = KLPKUL01)) && negb (bool_decide (zslice header 0 8 = KLPKUL02)))
       || negb (bool_decide (zslice header 12 4 = replicate 4 x00))
       || negb (bool_decide (id_bytes (block_of (zslice header 0 24)) = zslice header 24 32)) then
      RetBad "corrupt upload retention header"
    else
      let count := le_val (zslice header 8 4) in
      let next := le_val (zslice header 16 8) in
      if negb ((1 <=? count) && (count <=? MAX_BATCH))
         || negb (bool_decide (checked_add64 sequence 1 = Some next)) then
        RetBad "invalid upload retention record"
      else if zlen l - RET_HEADER <? count * 32 + 32 then RetStop
      else
        let body := zslice l RET_HEADER (count * 32 + 32) in
        let payload := zslice body 0 (count * 32) in
        if negb (bool_decide (id_bytes (block_of payload) = zslice body (count * 32) 32)) then
          RetBad "corrupt upload retention payload"
        else RetNext (id_chunks (Z.to_nat count) payload) next (RET_HEADER + (count * 32 + 32)).

Definition guard_all (ids : list BlockId) (next : Z) (m : gmap BlockId Z) : gmap BlockId Z :=
  foldl (λ m id, <[id := next]> m) m ids.

(** The loop; every record shortens the rest, so the length is fuel enough. *)
Fixpoint ret_replay (fuel : nat) (l : bytes) (ids : gmap BlockId Z) (sequence bytes_ : Z)
    : res io_error (gmap BlockId Z * Z * Z) :=
  match fuel with
  | O => Panic
  | S fuel =>
      match read_record l sequence with
      | RetStop => Ok (ids, sequence, bytes_)
      | RetBad message => Err (io_other message)
      | RetNext new next size =>
          let ids := guard_all new next ids in
          if MAX_IDS <? zsize ids then Err (io_other "upload retention capacity exceeded")
          else ret_replay fuel (drop (Z.to_nat size) l) ids next (bytes_ + size)
      end
  end.

Definition ret_open : FS RetState :=
  fs_open_append true RET_FILE ≫= λ _,
  fs_read RET_FILE ≫= λ content,
  if MAX_BYTES <? zlen content then st_throw (io_other "upload retention journal exceeds capacity")
  else
    st_lift (ret_replay (S (length content)) content ∅ 0 0) ≫= λ '(ids, sequence, bytes_),
    fs_set_len RET_FILE bytes_ ≫= λ _,
    fs_sync RET_FILE ≫= λ _,
    sync_directory ≫= λ _,
    mret (MkRet ids sequence bytes_ false ∅ ∅).

(** ** [protect] *)
Abbreviation RM := (ST (RetState * Dir) io_error).

(** [*active.entry(id).or_default() += 1]. *)
Definition add_writer (m : gmap BlockId Z) (id : BlockId) : gmap BlockId Z :=
  <[id := default 0 (m !! id) + 1]> m.

Definition protect (ids : list BlockId) : RM (gset BlockId) := λ '(s, d),
  if MAX_BATCH <? zlen ids then ((s, d), Err (io_other "upload retention batch too large"))
  else if rt_failed s then
    ((s, d), Err (io_other "upload retention journal needs restart after I/O failure"))
  else
    let requested : gset BlockId := list_to_set ids in
    if bool_decide (requested ∩ rt_checks s ≠ ∅) then
      ((s, d), Err (IoError KWouldBlock "block reserved by local release check"))
    else if bool_decide (requested = ∅) then ((s, d), Ok requested)
    else
      let n := Z.of_nat (size requested) in
      let fresh := Z.of_nat (size (filter (λ id, rt_ids s !! id = None) requested)) in
      match checked_add64 (rt_sequence s) 1 with
      | None => ((s, d), Err (io_other "upload retention sequence exhausted"))
      | Some next =>
          let size_ := RET_HEADER + n * 32 + 32 in
          if (MAX_IDS <? zsize (rt_ids s) + fresh) || (MAX_BYTES <? rt_bytes s + size_) then
            ((s, d), Err (io_other
               "upload retention capacity exhausted; safe reclamation is not implemented"))
          else
            let order := hash_order (elements requested) in
            match (fs_write RET_FILE (ret_record order next) ≫= λ _, fs_sync RET_FILE) d with
            | (d, Ok _) =>
                ((MkRet (guard_all order next (rt_ids s)) next (rt_bytes s + size_) (rt_failed s)
                    (foldl add_writer (rt_active s) order) (rt_checks s), d), Ok requested)
            | (d, Err e) => ((set_ret_failed true s, d), Err e)
            | (d, Panic) => ((s, d), Panic)
            end
      end.

(** [Drop for WriteGuard]: panics when a count is missing. *)
Definition drop_writer (m : gmap BlockId Z) (id : BlockId) : res io_error (gmap BlockId Z) :=
  match m !! id with
  | None => Panic
  | Some count =>
      match checked_sub count 1 with
      | None => Panic
      | Some c => Ok (if c =? 0 then delete id m else <[id := c]> m)
      end
  end.
Fixpoint drop_writers (m : gmap BlockId Z) (ids : list BlockId) : res io_error (gmap BlockId Z) :=
  match ids with
  | [] => Ok m
  | id :: ids => drop_writer m id ≫= λ m, drop_writers m ids
  end.
Definition drop_guard (ids : gset BlockId) (s : RetState) : res io_error RetState :=
  m ← drop_writers (rt_active s) (hash_order (elements ids)); Ok (set_active m s).

(** ** Release checks *)
Definition try_release_check (id : BlockId) (expected : Z) (s : RetState) : RetState * res io_error () :=
  if rt_failed s then (s, Err (io_other "retention journal failed"))
  else if (expected =? 0) || negb (bool_decide (rt_ids s !! id = Some expected)) then
    (s, Err (IoError KInvalidInput "unknown or stale local generation"))
  else if contains_key (rt_active s) id || bool_decide (id ∈ rt_checks s) then
    (s, Err (IoError KWouldBlock "block has an active local operation"))
  else (set_checks (rt_checks s ∪ {[id]}) s, Ok ()).

(** [Drop for ReleaseCheck]. *)
Definition drop_check (id : BlockId) (s : RetState) : RetState := set_checks (rt_checks s ∖ {[id]}) s.

(** [evidence] and [snapshot]. *)
Record GuardEvidence := MkGuardEvidence {
  ge_guarded : bool;
  ge_local_generation : option Z;
  ge_active_local_writes : Z;
  ge_local_release_check : bool;
  ge_journal_sequence : Z;
  ge_write_failed : bool }.
Definition evidence (id : BlockId) (s : RetState) : GuardEvidence :=
  MkGuardEvidence (contains_key (rt_ids s) id) (rt_ids s !! id) (default 0 (rt_active s !! id))
    (bool_decide (id ∈ rt_checks s)) (rt_sequence s) (rt_failed s).
Definition ret_snapshot (s : RetState) : Z * Z * bool := (zsize (rt_ids s), rt_bytes s, rt_failed s).

End Retention.
