(* ===== verification/RetentionTheorems.v ===== *)
(** * The upload guards hold

    The journal survives restarts and torn writes, and writers and release
    checks exclude each other. *)

From S2P Require Import Prelude Core Durability Retention.
From Stdlib Require Import Strings.Byte.

(** ** Slices *)
Lemma zslice_mid {A} (a b c : list A) off n :
  off = zlen a → n = zlen b → zslice (a ++ b ++ c) off n = b.
Proof. intros -> ->. rewrite zslice_app_r by done. unfold zlen. by rewrite Nat2Z.id, take_app_length. Qed.
Lemma zslice_first {A} (b c : list A) n : n = zlen b → zslice (b ++ c) 0 n = b.
Proof. intros. by apply (zslice_mid []). Qed.
Lemma zslice_last {A} (a b : list A) off n : off = zlen a → n = zlen b → zslice (a ++ b) off n = b.
Proof. intros. rewrite <-(app_nil_r b) at 1. by apply zslice_mid. Qed.

Lemma zlen_id_bytes id : zlen (id_bytes id) = 32.
Proof. unfold id_bytes. by rewrite arr_zlen. Qed.
#[export] Hint Rewrite zlen_id_bytes : len.

Lemma zlen_concat_ids ids : zlen (concat (id_bytes <$> ids)) = 32 * zlen ids.
Proof. induction ids as [|id ids IH]; [done|]. cbn. zl. Qed.
#[export] Hint Rewrite zlen_concat_ids : len.

Lemma id_chunks_concat ids l : id_chunks (length ids) (concat (id_bytes <$> ids) ++ l) = ids.
Proof.
  induction ids as [|id ids IH]; [done|]. cbn [length id_chunks fmap list_fmap concat].
  rewrite <-app_assoc.
  assert (length (id_bytes id) = 32%nat) as Hl by (unfold id_bytes; by rewrite arr_length).
  rewrite take_app_length' by done. rewrite drop_app_length' by done.
  unfold id_bytes at 1. rewrite to_array_arr. rewrite IH. by destruct id.
Qed.

Section Journal.
Context `{Blake3, HashOrderLaws}.

(** ** One record *)
Definition valid_batch (ids : list BlockId) : Prop := 1 ≤ zlen ids ≤ MAX_BATCH.
Definition record_size (ids : list BlockId) : Z := RET_HEADER + (zlen ids * 32 + 32).

Lemma zlen_ret_header n next : zlen (ret_header KLPKUL02 n next) = RET_HEADER.
Proof. unfold ret_header. zl. by vm_compute. Qed.
Lemma zlen_ret_record ids next : zlen (ret_record ids next) = record_size ids.
Proof. unfold ret_record, record_size. rewrite zlen_app, zlen_ret_header. zl. Qed.

Lemma header_fields n next :
  let header := ret_header KLPKUL02 n next in
  zslice header 0 8 = KLPKUL02 ∧ zslice header 8 4 = le_bytes 4 n ∧
  zslice header 12 4 = replicate 4 x00 ∧ zslice header 16 8 = le_bytes 8 next ∧
  id_bytes (block_of (zslice header 0 24)) = zslice header 24 32.
Proof.
  assert (zlen KLPKUL02 = 8) as Ht by by vm_compute. unfold ret_header. cbn zeta.
  assert (zlen (KLPKUL02 ++ le_bytes 4 n ++ replicate 4 x00 ++ le_bytes 8 next) = 24) as Hh by zl.
  split_and!.
  - rewrite <-!app_assoc. by apply zslice_first.
  - rewrite <-!app_assoc. apply zslice_mid; zl.
  - rewrite <-!app_assoc. rewrite (app_assoc KLPKUL02). apply zslice_mid; zl.
  - rewrite <-!app_assoc. rewrite (app_assoc KLPKUL02), (app_assoc (KLPKUL02 ++ _)). apply zslice_mid; zl.
  - rewrite zslice_first by done. rewrite zslice_last by (zl; done). done.
Qed.

Lemma read_header n next l seq :
  1 ≤ n ≤ MAX_BATCH → 0 ≤ next ≤ u64_max → checked_add64 seq 1 = Some next →
  read_record (ret_header KLPKUL02 n next ++ l) seq =
  if zlen l <? n * 32 + 32 then RetStop
  else
    let body := zslice l 0 (n * 32 + 32) in
    if negb (bool_decide (id_bytes (block_of (zslice body 0 (n * 32))) = zslice body (n * 32) 32)) then
      RetBad "corrupt upload retention payload"
    else RetNext (id_chunks (Z.to_nat n) (zslice body 0 (n * 32))) next (RET_HEADER + (n * 32 + 32)).
Proof.
  intros Hn Hx Hc. unfold read_record. rewrite zslice_first by by rewrite zlen_ret_header.
  destruct (header_fields n next) as (-> & -> & -> & -> & ->).
  rewrite zlen_app, zlen_ret_header.
  rewrite (proj2 (Z.ltb_ge (RET_HEADER + zlen l) RET_HEADER)) by (pose proof (zlen_nonneg l); lia).
  assert (bool_decide (KLPKUL02 = KLPKUL01) = false) as -> by by vm_compute.
  rewrite (bool_decide_eq_true_2 (KLPKUL02 = KLPKUL02)), (bool_decide_eq_true_2 (replicate 4 x00 = _)),
    (bool_decide_eq_true_2 (zslice _ _ _ = _)) by done. cbn [negb andb orb].
  rewrite !le_val_bytes_small by (unfold MAX_BATCH, u64_max in *; cbn; lia).
  rewrite (proj2 (Z.leb_le 1 n)), (proj2 (Z.leb_le n MAX_BATCH)) by lia.
  rewrite (bool_decide_eq_true_2 (checked_add64 seq 1 = Some next)) by done. cbn [negb andb orb].
  replace (RET_HEADER + zlen l - RET_HEADER) with (zlen l) by lia.
  rewrite (zslice_app_r (ret_header KLPKUL02 n next) l) by by rewrite zlen_ret_header.
  change (take (Z.to_nat (n * 32 + 32)) l) with (zslice l 0 (n * 32 + 32)). done.
Qed.

(** A complete record is read back; a proper prefix of one ends the loop. *)
Lemma read_complete ids next l seq :
  valid_batch ids → 0 ≤ next ≤ u64_max → checked_add64 seq 1 = Some next →
  read_record (ret_record ids next ++ l) seq = RetNext ids next (record_size ids).
Proof.
  intros Hv Hx Hc. unfold ret_record. rewrite <-app_assoc, read_header by done. cbn zeta.
  rewrite <-app_assoc. rewrite (proj2 (Z.ltb_ge _ _)) by (zl).
  rewrite (app_assoc (concat _)).
  rewrite (zslice_first (concat (id_bytes <$> ids) ++ _)) by zl.
  rewrite zslice_first by zl. rewrite zslice_last by zl.
  rewrite bool_decide_eq_true_2 by done. cbn [negb].
  rewrite <-(app_nil_r (concat _)). unfold zlen at 1. rewrite Nat2Z.id, id_chunks_concat. done.
Qed.

Lemma read_torn ids next k seq :
  valid_batch ids → 0 ≤ next ≤ u64_max → checked_add64 seq 1 = Some next →
  Z.of_nat k < record_size ids → read_record (take k (ret_record ids next)) seq = RetStop.
Proof.
  intros Hv Hx Hc Hk. unfold ret_record.
  assert (length (ret_header KLPKUL02 (zlen ids) next) = 56%nat) as Hl.
  { pose proof (zlen_ret_header (zlen ids) next) as E. unfold RET_HEADER in E.
    unfold zlen at 1 in E. lia. }
  destruct (decide (k < 56)%nat) as [Hlt|Hge].
  - unfold read_record. rewrite (proj2 (Z.ltb_lt _ _)); [done|]. rewrite zlen_take. unfold RET_HEADER. lia.
  - rewrite take_app_ge, read_header by (done || lia).
    rewrite (proj2 (Z.ltb_lt _ _)); [done|]. rewrite zlen_take, Hl. unfold record_size, RET_HEADER in Hk. lia.
Qed.
(** ** The journal: batches numbered from [seq + 1] *)
Fixpoint enc_from (seq : Z) (js : list (list BlockId)) : bytes :=
  match js with
  | [] => []
  | ids :: js => ret_record ids (seq + 1) ++ enc_from (seq + 1) js
  end.
Fixpoint ids_from (seq : Z) (js : list (list BlockId)) (m : gmap BlockId Z) : gmap BlockId Z :=
  match js with
  | [] => m
  | ids :: js => ids_from (seq + 1) js (guard_all ids (seq + 1) m)
  end.
Definition torn_ok (seq : Z) (torn : bytes) : Prop :=
  ∃ ids k, valid_batch ids ∧ Z.of_nat k < record_size ids ∧ torn = take k (ret_record ids (seq + 1)).

Lemma enc_from_app seq js ids :
  enc_from seq (js ++ [ids]) = enc_from seq js ++ ret_record ids (seq + zlen js + 1).
Proof.
  revert seq. induction js as [|j js IH]; intros seq; cbn [app enc_from].
  - rewrite app_nil_r. f_equal. zl.
  - rewrite IH, <-app_assoc. do 3 f_equal. zl.
Qed.
Lemma ids_from_app seq js ids m :
  ids_from seq (js ++ [ids]) m = guard_all ids (seq + zlen js + 1) (ids_from seq js m).
Proof.
  revert seq m. induction js as [|j js IH]; intros seq m; cbn [app ids_from].
  - f_equal. zl.
  - rewrite IH. f_equal. zl.
Qed.

Lemma guard_all_lookup ids n m id :
  guard_all ids n m !! id = if decide (id ∈ ids) then Some n else m !! id.
Proof.
  revert m. induction ids as [|i ids IH]; intros m.
  - rewrite decide_False; [done|]. apply not_elem_of_nil.
  - change (guard_all (i :: ids) n m) with (guard_all ids n (<[i := n]> m)). rewrite IH. destruct (decide (id ∈ ids)) as [Hi|Hi].
    + rewrite decide_True; [done|by right].
    + destruct (decide (id = i)) as [->|Hne].
      * rewrite lookup_insert_eq, decide_True; [done|by left].
      * rewrite lookup_insert_ne by done. rewrite decide_False; [done|]. intros [?|?]%elem_of_cons; done.
Qed.
Lemma guard_all_grows ids n m : zsize m ≤ zsize (guard_all ids n m).
Proof.
  unfold zsize. rewrite <-!size_dom. apply inj_le, subseteq_size. intros id. rewrite !elem_of_dom, guard_all_lookup.
  by case_decide.
Qed.
Lemma ids_from_grows seq js m : zsize m ≤ zsize (ids_from seq js m).
Proof.
  revert seq m. induction js as [|j js IH]; intros seq m; cbn; [lia|].
  etrans; [apply guard_all_grows|apply IH].
Qed.

Lemma zlen_enc_from seq js : Forall valid_batch js → 120 * zlen js ≤ zlen (enc_from seq js).
Proof.
  intros Hv. revert seq. induction Hv as [|ids js Hids Hv IH]; intros seq; [done|]. cbn [enc_from].
  rewrite zlen_cons, zlen_app, zlen_ret_record. specialize (IH (seq + 1)).
  unfold record_size, RET_HEADER, valid_batch in *. lia.
Qed.

Lemma replay_journal fuel js seq m b torn :
  Forall valid_batch js → 0 ≤ seq → seq + zlen js < u64_max → torn_ok (seq + zlen js) torn →
  zsize (ids_from seq js m) ≤ MAX_IDS → (length (enc_from seq js ++ torn) < fuel)%nat →
  ret_replay fuel (enc_from seq js ++ torn) m seq b =
  Ok (ids_from seq js m, seq + zlen js, b + zlen (enc_from seq js)).
Proof.
  intros Hv. revert fuel seq m b. induction Hv as [|ids js Hids Hv IH]; intros fuel seq m b Hseq Hmax Ht Hcap Hf.
  - destruct fuel as [|fuel]; [lia|]. cbn [enc_from app ret_replay] in *. rewrite zlen_nil in *.
    destruct Ht as (ids & k & Hi & Hk & ->). rewrite Z.add_0_r in *. rewrite read_torn; [|done|lia| |done].
    + cbn. by rewrite !Z.add_0_r.
    + apply checked_add64_Some. lia.
  - destruct fuel as [|fuel]; [lia|]. cbn [enc_from ids_from ret_replay] in *. rewrite zlen_cons in *.
    pose proof (zlen_nonneg js). pose proof (zlen_ret_record ids (seq + 1)) as Hlen.
    rewrite <-app_assoc in *. rewrite read_complete; [|done|lia|apply checked_add64_Some; lia].
    pose proof (ids_from_grows (seq + 1) js (guard_all ids (seq + 1) m)).
    rewrite (proj2 (Z.ltb_ge _ _)) by lia.
    assert (Z.to_nat (record_size ids) = length (ret_record ids (seq + 1))) as -> by (unfold zlen in Hlen; lia).
    rewrite drop_app_length. replace (seq + (1 + zlen js)) with (seq + 1 + zlen js) in * by lia.
    assert (0 < length (ret_record ids (seq + 1)))%nat.
    { unfold zlen, record_size, RET_HEADER, valid_batch in *. lia. }
    rewrite length_app in Hf. rewrite IH; [|lia|lia|done|done|lia]. do 2 f_equal. rewrite zlen_app. lia.
Qed.

(** The file holds these batches and a partial record. *)
Record on_file (js : list (list BlockId)) (torn : bytes) (d : Dir) : Prop := {
  of_content : default [] (dir_files d !! RET_FILE) = enc_from 0 js ++ torn;
  of_valid : Forall valid_batch js;
  of_torn : torn_ok (zlen js) torn;
  of_fits : zlen (enc_from 0 js ++ torn) ≤ MAX_BYTES;
  of_cap : zsize (ids_from 0 js ∅) ≤ MAX_IDS }.

Definition opened_ret (js : list (list BlockId)) : RetState :=
  MkRet (ids_from 0 js ∅) (zlen js) (zlen (enc_from 0 js)) false ∅ ∅.
Definition ret_memory (js : list (list BlockId)) (s : RetState) : Prop :=
  rt_ids s = ids_from 0 js ∅ ∧ rt_sequence s = zlen js ∧ rt_bytes s = zlen (enc_from 0 js).

(** Memory and file agree; after a failure the file may be ahead. *)
Definition ret_ok (s : RetState) (d : Dir) : Prop :=
  ∃ js torn js', on_file js torn d ∧ ret_memory js' s ∧ js' `prefix_of` js ∧
    (rt_failed s = false → torn = [] ∧ js = js').

Lemma torn_ok_nil seq : torn_ok seq [].
Proof. exists [block_of []], 0%nat. split_and!; [by vm_compute|by vm_compute|done]. Qed.

Lemma journal_count js torn d : on_file js torn d → zlen js < u64_max.
Proof.
  intros []. pose proof (zlen_enc_from 0 js of_valid0). rewrite zlen_app in of_fits0.
  pose proof (zlen_nonneg torn). unfold MAX_BYTES, u64_max in *. lia.
Qed.

(** A restart finds the complete records, with no writers and no checks. *)
Lemma ret_open_journal js torn d :
  on_file js torn d →
  ∃ d', ret_open (reopened d) = (d', Ok (opened_ret js)) ∧ ret_ok (opened_ret js) d'.
Proof.
  intros Hj. pose proof (journal_count _ _ _ Hj) as Hn. pose proof Hj as [Hc Hv Ht Hf Hcap].
  exists (MkDir (<[RET_FILE := enc_from 0 js]> (dir_files d)) []). split.
  - unfold ret_open, mbind, ST_bind, reopened. destruct d as [m plan]. cbn [dir_files] in *.
    rewrite fs_open_append_ok, Hc.
    rewrite fs_read_ok by done. cbn [dir_files]. rewrite lookup_insert_eq.
    rewrite (proj2 (Z.ltb_ge _ _)) by done. unfold st_lift.
    rewrite replay_journal; [|done|lia|lia|by rewrite Z.add_0_l|done|lia].
    rewrite !Z.add_0_l. unfold fs_set_len, fs_sync, sync_directory, dir_op. cbn [dir_plan dir_files tail].
    rewrite alter_insert_eq.
    assert (take (Z.to_nat (zlen (enc_from 0 js))) (enc_from 0 js ++ torn) = enc_from 0 js) as ->
      by (unfold zlen; by rewrite Nat2Z.id, take_app_length).
    done.
  - exists js, [], js. split_and!; try done.
    constructor; cbn; try done; [by rewrite lookup_insert_eq, app_nil_r|apply torn_ok_nil|].
    rewrite app_nil_r. rewrite zlen_app in Hf. pose proof (zlen_nonneg torn). lia.
Qed.

(** ** Generations *)
Lemma ids_from_bound seq js m id g :
  ids_from seq js m !! id = Some g → m !! id = Some g ∨ seq < g ≤ seq + zlen js.
Proof.
  revert seq m. induction js as [|j js IH]; intros seq m Hg; [by left|]. cbn in Hg. rewrite zlen_cons.
  pose proof (zlen_nonneg js).
  apply IH in Hg as [Hg|?]; [|right; lia]. rewrite guard_all_lookup in Hg.
  case_decide; [simplify_eq; right; lia|by left].
Qed.
Lemma generation_bound js id g : ids_from 0 js ∅ !! id = Some g → 0 < g ≤ zlen js.
Proof. intros [Hg|Hg]%ids_from_bound; [by rewrite lookup_empty in Hg|lia]. Qed.

Lemma ids_from_prefix js js' id g :
  js' `prefix_of` js → ids_from 0 js' ∅ !! id = Some g → ∃ g', ids_from 0 js ∅ !! id = Some g' ∧ g ≤ g'.
Proof.
  intros [k ->] Hg. induction k as [|ids k IH] using rev_ind.
  { rewrite app_nil_r. exists g. split; [done|lia]. }
  rewrite app_assoc, ids_from_app, guard_all_lookup. destruct IH as (g' & Hg' & Hle).
  case_decide; [|eauto]. eexists. split; [done|]. apply generation_bound in Hg'. lia.
Qed.

(** A restart finds every guard that is in memory, or a later one. *)
Lemma ret_ok_reopens s d :
  ret_ok s d → ∃ d' s', ret_open (reopened d) = (d', Ok s') ∧ ret_ok s' d' ∧
    (∀ id g, rt_ids s !! id = Some g → ∃ g', rt_ids s' !! id = Some g' ∧ g ≤ g') ∧
    (rt_failed s = false → rt_ids s' = rt_ids s).
Proof.
  intros (js & torn & js' & Hf & (Hi & _) & Hpre & Hcl).
  destruct (ret_open_journal _ _ _ Hf) as (d' & Eo & Ho). exists d', (opened_ret js).
  split_and!; [done|done|rewrite Hi; intros id g; by apply ids_from_prefix|].
  intros [_ ->]%Hcl. by rewrite Hi.
Qed.

(** ** Protecting *)

(** The batch [protect] writes: the requested ids, each once. *)
Definition batch_of (ids : list BlockId) : list BlockId :=
  hash_order (elements (list_to_set ids : gset BlockId)).

Lemma batch_of_elem ids id : id ∈ batch_of ids ↔ id ∈ ids.
Proof. unfold batch_of. rewrite hash_order_perm. set_solver. Qed.
Lemma zlen_batch_of ids : zlen (batch_of ids) = Z.of_nat (size (list_to_set ids : gset BlockId)).
Proof. unfold batch_of, zlen. by rewrite hash_order_perm. Qed.
Lemma size_list_to_set (ids : list BlockId) : Z.of_nat (size (list_to_set ids : gset BlockId)) ≤ zlen ids.
Proof.
  induction ids as [|i ids IH]; [done|]. cbn. rewrite zlen_cons.
  pose proof (size_union_alt {[i]} (list_to_set ids : gset BlockId)) as E. rewrite size_singleton in E.
  assert (size ((list_to_set ids : gset BlockId) ∖ {[i]}) <= size (list_to_set ids : gset BlockId))%nat
    by (apply subseteq_size; set_solver). lia.
Qed.

Lemma guard_all_size ids n (m : gmap BlockId Z) :
  zsize (guard_all ids n m) ≤
  zsize m + Z.of_nat (size (filter (λ id, m !! id = None) (list_to_set ids : gset BlockId))).
Proof.
  unfold zsize. rewrite <-!size_dom.
  assert (dom (guard_all ids n m) = dom m ∪ filter (λ id, m !! id = None) (list_to_set ids : gset BlockId)) as ->.
  { apply set_eq. intros id. rewrite elem_of_union, elem_of_filter, elem_of_list_to_set, !elem_of_dom, guard_all_lookup.
    case_decide; [|naive_solver]. destruct (m !! id); naive_solver. }
  rewrite size_union; [lia|]. intros id. rewrite elem_of_filter, elem_of_dom. intros [? E] [E' _]. congruence.
Qed.

(** What [protect] does once its checks passed: the write, then memory. *)
Lemma append_record js s d order :
  on_file js [] d → ret_memory js s → valid_batch order →
  rt_bytes s + record_size order ≤ MAX_BYTES → zsize (guard_all order (zlen js + 1) (rt_ids s)) ≤ MAX_IDS →
  let '(d', r) := (fs_write RET_FILE (ret_record order (zlen js + 1)) ≫= λ _, fs_sync RET_FILE) d in
  (r = Ok () ∧ on_file (js ++ [order]) [] d') ∨
  (∃ e, r = Err e ∧ dir_plan d ≠ [] ∧
     ((∃ torn, on_file js torn d') ∨ on_file (js ++ [order]) [] d')).
Proof.
  intros [Hc Hv Ht Hf Hcap] (Hi & Hs & Hb) Hvo Hfit Hids. rewrite Hi in Hids.
  rewrite app_nil_r in Hc. unfold mbind, ST_bind, fs_write, fs_sync.
  assert (∀ l, on_file (js ++ [order]) [] (MkDir (<[RET_FILE := default [] (dir_files d !! RET_FILE)
      ++ ret_record order (zlen js + 1)]> (dir_files d)) l)) as Hfull.
  { intros l. constructor; cbn [dir_files].
    - rewrite lookup_insert_eq. cbn [default id]. by rewrite Hc, app_nil_r, enc_from_app.
    - apply Forall_app. split; [done|by constructor].
    - apply torn_ok_nil.
    - rewrite app_nil_r, enc_from_app, zlen_app, zlen_ret_record. lia.
    - by rewrite ids_from_app. }
  fs_case.
  { right. eexists. split_and!; [done|done|].
    destruct (decide (Z.of_nat k < record_size order)) as [Hk|Hk]; [left|right].
    - exists (take k (ret_record order (zlen js + 1))). constructor; cbn [dir_files]; try done.
      + by rewrite lookup_insert_eq; cbn [default id]; rewrite Hc.
      + by exists order, k.
      + rewrite zlen_app, zlen_take, zlen_ret_record. lia.
    - rewrite take_ge; [apply Hfull|]. pose proof (zlen_ret_record order (zlen js + 1)) as E.
      unfold zlen at 1 in E. lia. }
  fs_case.
  - right. eexists. split_and!; [done|by apply tail_ne|right]. apply Hfull.
  - left. split; [done|]. apply Hfull.
Qed.

(** [protect], case by case. *)
Definition protected (ids : list BlockId) (s : RetState) (d : Dir) (s' : RetState) (d' : Dir)
    (r : res io_error (gset BlockId)) : Prop :=
  match r with
  | Ok g =>
      g = list_to_set ids ∧ g ## rt_checks s ∧ rt_checks s' = rt_checks s ∧ rt_failed s = false ∧
      rt_failed s' = false ∧ rt_active s' = foldl add_writer (rt_active s) (batch_of ids) ∧
      rt_ids s' = guard_all (batch_of ids) (rt_sequence s') (rt_ids s) ∧
      (ids ≠ [] → rt_sequence s' = rt_sequence s + 1)
  | Err _ => (s' = s ∧ d' = d) ∨ (s' = set_ret_failed true s ∧ rt_failed s = false ∧ dir_plan d ≠ [])
  | Panic => False
  end.

Lemma protect_spec ids s d s' d' r :
  ret_ok s d → protect ids (s, d) = ((s', d'), r) → protected ids s d s' d' r ∧ ret_ok s' d'.
Proof.
  intros Hok E. pose proof Hok as (js & torn & js' & Hfile & Hmem & Hpre & Hcl). unfold protect in E.
  destruct (MAX_BATCH <? zlen ids) eqn:Emax; [simplify_eq; split; [by left|done]|]. apply Z.ltb_ge in Emax.
  destruct (rt_failed s) eqn:Ef; [simplify_eq; split; [by left|done]|].
  destruct (Hcl eq_refl) as [-> ->]. clear Hcl Hpre. cbn zeta in E.
  destruct (bool_decide (_ ≠ ∅)) eqn:Ech; [simplify_eq; split; [by left|done]|].
  apply bool_decide_eq_false, dec_stable in Ech.
  assert ((list_to_set ids : gset BlockId) ## rt_checks s) as Hdis by set_solver.
  destruct (bool_decide (_ = ∅)) eqn:Eem.
  { apply bool_decide_eq_true in Eem. simplify_eq. split; [|done]. unfold protected, batch_of.
    rewrite Eem, elements_empty.
    assert (hash_order (@nil BlockId) = []) as -> by (apply Permutation_nil_r, hash_order_perm).
    split_and!; try done; try set_solver. intros Hne. destruct ids; [done|set_solver]. }
  apply bool_decide_eq_false in Eem. destruct Hmem as (Hi & Hs & Hb).
  rewrite Hs in E. pose proof (journal_count _ _ _ Hfile) as Hn.
  destruct (checked_add64 (zlen js') 1) as [next|] eqn:Enx; [|simplify_eq; split; [by left|done]].
  apply checked_add64_Some in Enx as [-> _].
  destruct (_ || _) eqn:Ecap; [simplify_eq; split; [by left|done]|].
  apply orb_false_iff in Ecap as [Hc1%Z.ltb_ge Hc2%Z.ltb_ge].
  change (hash_order (elements (list_to_set ids))) with (batch_of ids) in E.
  assert (valid_batch (batch_of ids)) as Hvb.
  { unfold valid_batch. rewrite zlen_batch_of. pose proof (size_list_to_set ids).
    pose proof (size_non_empty_iff (list_to_set ids : gset BlockId)) as [_ Hne].
    assert (size (list_to_set ids : gset BlockId) ≠ 0)%nat by (apply Hne; set_solver). lia. }
  pose proof (append_record js' s d (batch_of ids) Hfile) as Hw.
  destruct ((fs_write RET_FILE _ ≫= _) d) as [d1 r1] eqn:Ew in E. rewrite Ew in Hw.
  assert (record_size (batch_of ids) = RET_HEADER + Z.of_nat (size (list_to_set ids : gset BlockId)) * 32 + 32) as Hrs
    by (unfold record_size; rewrite zlen_batch_of; lia).
  assert ((list_to_set (batch_of ids) : gset BlockId) = list_to_set ids) as Hset.
  { apply set_eq. intros i. by rewrite !elem_of_list_to_set, batch_of_elem. }
  pose proof (guard_all_size (batch_of ids) (zlen js' + 1) (rt_ids s)) as Hgs. rewrite Hset in Hgs.
  destruct Hw as [(-> & Hf')|(e & -> & Hpl & Hf')]; [done|done|lia|lia| |]; simplify_eq/=.
  - split; [unfold protected; cbn; split_and!; try done; by rewrite Hs|].
    exists (js' ++ [batch_of ids]), [], (js' ++ [batch_of ids]). split_and!; try done. unfold ret_memory. cbn.
    rewrite Hi, ids_from_app, enc_from_app, !zlen_app, zlen_ret_record, Hb, Hrs. split_and!; [done|zl|lia].
  - split; [right; by split_and!|]. destruct Hf' as [[torn' Hf']|Hf'].
    + exists js', torn', js'. by split_and!.
    + exists (js' ++ [batch_of ids]), [], js'. split_and!; try done. by apply prefix_app_r.
Qed.

(** ** Writers and checks *)
Record System := MkSys {
  sy_ret : RetState;
  sy_dir : Dir;
  sy_guards : list (gset BlockId);  (** write guards not yet dropped *)
  sy_held : gset BlockId            (** release checks not yet dropped *) }.

Inductive sys_step : System → System → Prop :=
| ss_protect s d gs held ids s' d' g :
    protect ids (s, d) = ((s', d'), Ok g) →
    sys_step (MkSys s d gs held) (MkSys s' d' (g :: gs) held)
| ss_refused s d gs held ids s' d' e :
    protect ids (s, d) = ((s', d'), Err e) →
    sys_step (MkSys s d gs held) (MkSys s' d' gs held)
| ss_drop s d gs1 g gs2 held s' :
    drop_guard g s = Ok s' →
    sys_step (MkSys s d (gs1 ++ g :: gs2) held) (MkSys s' d (gs1 ++ gs2) held)
| ss_check s d gs held id expected s' :
    try_release_check id expected s = (s', Ok ()) →
    sys_step (MkSys s d gs held) (MkSys s' d gs (held ∪ {[id]}))
| ss_uncheck s d gs held id :
    id ∈ held → sys_step (MkSys s d gs held) (MkSys (drop_check id s) d gs (held ∖ {[id]}))
| ss_restart s d gs held s' d' :
    ret_open (reopened d) = (d', Ok s') → sys_step (MkSys s d gs held) (MkSys s' d' [] ∅)
| ss_faults s d gs held plan :
    sys_step (MkSys s d gs held) (MkSys s (MkDir (dir_files d) plan) gs held).

Inductive sys_reach : System → Prop :=
| sr_start d s : ret_open (MkDir ∅ []) = (d, Ok s) → sys_reach (MkSys s d [] ∅)
| sr_step sy sy' : sys_reach sy → sys_step sy sy' → sys_reach sy'.

(** How many guards are out for a block. *)
Definition writers (gs : list (gset BlockId)) (id : BlockId) : Z :=
  zlen (base.filter (λ g, id ∈ g) gs).
Definition counted (n : Z) : option Z := if n =? 0 then None else Some n.

Record sys_inv (sy : System) : Prop := {
  si_ret : ret_ok (sy_ret sy) (sy_dir sy);
  si_active : ∀ id, rt_active (sy_ret sy) !! id = counted (writers (sy_guards sy) id);
  si_checks : rt_checks (sy_ret sy) = sy_held sy;
  si_apart : ∀ id, id ∈ sy_held sy → writers (sy_guards sy) id = 0 }.

Lemma writers_cons g gs id : writers (g :: gs) id = (if decide (id ∈ g) then 1 else 0) + writers gs id.
Proof. unfold writers. rewrite filter_cons. case_decide; rewrite ?zlen_cons; lia. Qed.
Lemma writers_nonneg gs id : 0 ≤ writers gs id.
Proof. apply zlen_nonneg. Qed.
Lemma writers_drop gs1 g gs2 id : writers (gs1 ++ g :: gs2) id = writers (g :: gs1 ++ gs2) id.
Proof. unfold writers. rewrite !filter_app, !filter_cons, filter_app. case_decide; zl. Qed.

Lemma add_writers_lookup ids m id :
  NoDup ids → foldl add_writer m ids !! id = if decide (id ∈ ids) then Some (default 0 (m !! id) + 1) else m !! id.
Proof.
  intros Hn. revert m. induction Hn as [|i ids Hi Hn IH]; intros m; cbn.
  - rewrite decide_False; [done|]. apply not_elem_of_nil.
  - rewrite IH. unfold add_writer. destruct (decide (id = i)) as [->|Hne].
    + rewrite decide_False by done. rewrite lookup_insert_eq, decide_True; [done|by left].
    + rewrite lookup_insert_ne by done. destruct (decide (id ∈ ids)) as [Hin|Hin].
      * rewrite decide_True; [done|by right].
      * rewrite decide_False; [done|]. by intros [?|?]%elem_of_cons.
Qed.

Lemma drop_writers_spec ids m :
  NoDup ids → (∀ id, id ∈ ids → ∃ c, m !! id = Some c ∧ 1 ≤ c) →
  ∃ m', drop_writers m ids = Ok m' ∧
    ∀ id, m' !! id = if decide (id ∈ ids) then counted (default 0 (m !! id) - 1) else m !! id.
Proof.
  intros Hn. revert m. induction Hn as [|i ids Hi Hn IH]; intros m Hm; cbn [drop_writers].
  - exists m. split; [done|]. intros id. rewrite decide_False; [done|]. apply not_elem_of_nil.
  - destruct (Hm i ltac:(by left)) as (c & Hc & Hge). unfold drop_writer. rewrite Hc.
    assert (checked_sub c 1 = Some (c - 1)) as -> by (apply checked_sub_Some; lia). cbn [mbind res_bind].
    set (m1 := if c - 1 =? 0 then delete i m else <[i := c - 1]> m).
    assert (∀ id, m1 !! id = if decide (id = i) then counted (c - 1) else m !! id) as Hm1.
    { intros id. unfold m1, counted. destruct (c - 1 =? 0); case_decide; subst;
        rewrite ?lookup_delete_eq, ?lookup_insert_eq, ?lookup_delete_ne, ?lookup_insert_ne by done; done. }
    destruct (IH m1) as (m' & -> & Hm').
    { intros id Hid. rewrite Hm1, decide_False by (intros ->; done). apply Hm. by right. }
    exists m'. split; [done|]. intros id. rewrite Hm', Hm1. destruct (decide (id = i)) as [->|Hne].
    + rewrite decide_False by done. rewrite decide_True by by left. by rewrite Hc.
    + destruct (decide (id ∈ ids)) as [Hin|Hin].
      * rewrite decide_True; [done|by right].
      * rewrite decide_False; [done|]. by intros [?|?]%elem_of_cons.
Qed.

Lemma drop_guard_spec g s gs :
  (∀ id, rt_active s !! id = counted (writers gs id)) → (∀ id, id ∈ g → 1 ≤ writers gs id) →
  ∃ s', drop_guard g s = Ok s' ∧ s' = set_active (rt_active s') s ∧
    ∀ id, rt_active s' !! id = counted (writers gs id - if decide (id ∈ g) then 1 else 0).
Proof.
  intros Ha Hg. unfold drop_guard.
  destruct (drop_writers_spec (hash_order (elements g)) (rt_active s)) as (m' & -> & Hm').
  - rewrite hash_order_perm. apply NoDup_elements.
  - intros id. rewrite hash_order_perm, elem_of_elements. intros Hid%Hg. rewrite Ha. unfold counted.
    destruct (Z.eqb_spec (writers gs id) 0); [lia|]. eauto.
  - eexists. split; [done|]. split; [done|]. intros id. cbn. rewrite Hm', Ha.
    rewrite (decide_ext (id ∈ hash_order (elements g)) (id ∈ g)) by by rewrite hash_order_perm, elem_of_elements.
    destruct (decide (id ∈ g)) as [Hid|]; [|by rewrite Z.sub_0_r]. apply Hg in Hid. unfold counted.
    destruct (Z.eqb_spec (writers gs id) 0); [lia|]. done.
Qed.

Lemma batch_of_NoDup ids : NoDup (batch_of ids).
Proof. unfold batch_of. rewrite hash_order_perm. apply NoDup_elements. Qed.

Lemma try_release_check_spec id expected s s' r :
  try_release_check id expected s = (s', r) →
  match r with
  | Ok _ => s' = set_checks (rt_checks s ∪ {[id]}) s ∧ rt_ids s !! id = Some expected ∧
            rt_active s !! id = None ∧ id ∉ rt_checks s ∧ rt_failed s = false
  | Err _ => s' = s
  | Panic => False
  end.
Proof.
  unfold try_release_check. destruct (rt_failed s) eqn:Ef; [by intros [= <- <-]|].
  destruct (_ || negb _) eqn:E1; [by intros [= <- <-]|].
  destruct (_ || bool_decide (_ ∈ _)) eqn:E2; [by intros [= <- <-]|].
  intros [= <- <-]. apply orb_false_iff in E1 as [_ E1%negb_false_iff%bool_decide_eq_true].
  apply orb_false_iff in E2 as [E2%contains_key_false E3%bool_decide_eq_false]. done.
Qed.

Lemma sys_step_inv sy sy' : sys_inv sy → sys_step sy sy' → sys_inv sy'.
Proof.
  intros Hi Hst. destruct Hst as [s d gs held ids s' d' g E|s d gs held ids s' d' e E|s d gs1 g gs2 held s' E
    |s d gs held id ex s' E|s d gs held id Hid|s d gs held s' d' E|s d gs held plan];
    destruct Hi as [Hr Ha Hc Hap]; cbn in *.
  - apply protect_spec in E as [(-> & Hdis & Hck & _ & _ & Hact & _ & _) Hr']; [|done].
    constructor; cbn; [done| |congruence|].
    + intros id. rewrite Hact, add_writers_lookup, Ha, writers_cons by apply batch_of_NoDup.
      rewrite (decide_ext (id ∈ batch_of ids) (id ∈ (list_to_set ids : gset BlockId)))
        by by rewrite batch_of_elem, elem_of_list_to_set.
      pose proof (writers_nonneg gs id). unfold counted. case_decide; [|done].
      destruct (Z.eqb_spec (writers gs id) 0), (Z.eqb_spec (1 + writers gs id) 0); try lia; cbn; f_equal; lia.
    + intros id Hid. rewrite writers_cons, decide_False, Hap by set_solver. lia.
  - apply protect_spec in E as [[[-> ->]|(-> & _ & _)] Hr']; [by constructor| |done]. by constructor.
  - assert (∀ id, id ∈ g → 1 ≤ writers (gs1 ++ g :: gs2) id) as Hg.
    { intros id Hid. rewrite writers_drop, writers_cons, decide_True by done.
      pose proof (writers_nonneg (gs1 ++ gs2) id). lia. }
    destruct (drop_guard_spec g s _ Ha Hg) as (s1 & E1 & Es & Ha1). rewrite E in E1. simplify_eq.
    assert (∀ id, writers (gs1 ++ g :: gs2) id - (if decide (id ∈ g) then 1 else 0) = writers (gs1 ++ gs2) id) as Hw.
    { intros id. rewrite writers_drop, writers_cons. lia. }
    constructor; cbn; [by rewrite Es|by intros id; rewrite Ha1, Hw|by rewrite Es|].
    intros id Hid. rewrite <-Hw. pose proof (Hap id Hid) as Hz. case_decide as Hd; [|lia].
    apply Hg in Hd. lia.
  - apply try_release_check_spec in E as (-> & _ & Hn & _ & _). constructor; cbn; [done|done|by rewrite Hc|].
    intros i [Hi|Hi]%elem_of_union; [by apply Hap|]. apply elem_of_singleton in Hi as ->.
    rewrite Ha in Hn. unfold counted in Hn. by destruct (Z.eqb_spec (writers gs id) 0).
  - constructor; cbn; [done|done|by rewrite Hc|]. intros i Hi. apply Hap. set_solver.
  - destruct Hr as (js & torn & js' & Hf & _). destruct (ret_open_journal _ _ _ Hf) as (d1 & E1 & Hok).
    rewrite E in E1. simplify_eq. constructor; cbn; [done|done|done|set_solver].
  - constructor; cbn; [|done..]. destruct Hr as (js & torn & js' & [] & ? & ? & ?). by exists js, torn, js'.
Qed.

Lemma fresh_journal : ∃ d, ret_open (MkDir ∅ []) = (d, Ok (opened_ret [])) ∧ ret_ok (opened_ret []) d.
Proof.
  apply (ret_open_journal [] [] (MkDir ∅ [])). constructor; try done. apply torn_ok_nil.
Qed.

Lemma sys_reach_inv sy : sys_reach sy → sys_inv sy.
Proof.
  induction 1 as [d s E|sy sy' _ IH Hst]; [|by eapply sys_step_inv].
  destruct fresh_journal as (d' & E' & Hok). rewrite E in E'. simplify_eq.
  constructor; cbn; [done|done|done|set_solver].
Qed.

(** While a check is held the generation of its block does not move. *)
Lemma sys_step_frozen sy sy' id :
  sys_inv sy → sys_step sy sy' → id ∈ sy_held sy → id ∈ sy_held sy' →
  rt_ids (sy_ret sy') !! id = rt_ids (sy_ret sy) !! id.
Proof.
  intros Hi Hst. destruct Hst as [s d gs held ids s' d' g E|s d gs held ids s' d' e E|s d gs1 g gs2 held s' E
    |s d gs held i ex s' E|s d gs held i Hid|s d gs held s' d' E|s d gs held plan];
    destruct Hi as [Hr Ha Hc Hap]; cbn in *; intros H2 H3.
  - apply protect_spec in E as [(-> & Hdis & _ & _ & _ & _ & -> & _) _]; [|done].
    rewrite guard_all_lookup, decide_False; [done|]. rewrite batch_of_elem. set_solver.
  - by apply protect_spec in E as [[[-> ->]|(-> & _ & _)] _].
  - unfold drop_guard in E. apply bind_Ok in E as (m & _ & [= <-]). done.
  - by apply try_release_check_spec in E as (-> & _).
  - done.
  - set_solver.
  - done.
Qed.
End Journal.

(** ** Properties *)
Section RetentionTheorems.
Context `{Blake3, HashOrderLaws}.

(** C33. Upload guards are durable.  From any consistent journal and under any
    file faults, [protect] does not panic; when it returns a guard, every
    requested block has the new journal position as its generation, above any
    it had, and a restart finds it there; when it fails, no generation changed
    in memory, and either nothing at all changed or the journal refuses
    everything until it is reopened.  In every case reopening succeeds, torn
    tail or not, and no guard that was ever recorded is missing. *)
Theorem guards_survive_restart ids s d s' d' r :
  ret_ok s d → protect ids (s, d) = ((s', d'), r) →
  ret_ok s' d' ∧
  (∃ d'' s2, ret_open (reopened d') = (d'', Ok s2) ∧ ret_ok s2 d'' ∧
     (∀ id g, rt_ids s' !! id = Some g → ∃ g', rt_ids s2 !! id = Some g' ∧ g ≤ g') ∧
     (is_ok r = true → rt_ids s2 = rt_ids s')) ∧
  match r with
  | Ok g => g = list_to_set ids ∧
      ∀ id, id ∈ ids → rt_ids s' !! id = Some (rt_sequence s') ∧
        ∀ old, rt_ids s !! id = Some old → old < rt_sequence s'
  | Err _ => rt_ids s' = rt_ids s ∧
      ((s' = s ∧ d' = d) ∨
       ∀ more, ∃ e, protect more (s', d') = ((s', d'), Err e))
  | Panic => False
  end.
Proof.
  intros Hok E. destruct (protect_spec _ _ _ _ _ _ Hok E) as [Hp Hok'].
  split; [done|]. split.
  - destruct (ret_ok_reopens _ _ Hok') as (d'' & s2 & Eo & Ho & Hg & Hcl). exists d'', s2. split_and!; [done..|].
    intros Hr. destruct r as [g| |]; [|done..]. by apply Hcl, Hp.
  - destruct r as [g|e|]; [| |done].
    + destruct Hp as (-> & _ & _ & Hff & _ & _ & Hids & Hseq). split; [done|]. intros id Hid.
      rewrite Hids, guard_all_lookup, decide_True by by apply batch_of_elem. split; [done|].
      intros old Ho. rewrite Hseq by (intros ->; by apply elem_of_nil in Hid).
      destruct Hok as (js & torn & js' & _ & (Hi & Hs & _) & _). rewrite Hi in Ho.
      apply generation_bound in Ho. lia.
    + destruct Hp as [[-> ->]|(-> & _ & _)]; [split; [done|by left]|]. split; [done|]. right. intros more.
      unfold protect. cbn. case_goal; eauto.
Qed.

(** C34. Writers and release checks exclude each other.  In every state reached
    by granting and dropping write guards and release checks, with refusals,
    faults and restarts anywhere: no outstanding write guard covers a block
    under a release check; dropping any outstanding guard finds its counters
    and does not panic; a write that names a block under a check is refused
    with no effect; and while a check is held the generation it was granted
    for does not change. *)
Theorem release_checks_exclude_writers sy :
  sys_reach sy →
  (∀ id g, id ∈ sy_held sy → g ∈ sy_guards sy → id ∉ g) ∧
  (∀ g, g ∈ sy_guards sy → ∃ s', drop_guard g (sy_ret sy) = Ok s') ∧
  (∀ id ids, id ∈ sy_held sy → id ∈ ids → ∃ e,
     protect ids (sy_ret sy, sy_dir sy) = ((sy_ret sy, sy_dir sy), Err e)) ∧
  (∀ id sy', id ∈ sy_held sy → sys_step sy sy' → id ∈ sy_held sy' →
     rt_ids (sy_ret sy') !! id = rt_ids (sy_ret sy) !! id).
Proof.
  intros Hi%sys_reach_inv. pose proof Hi as [Hr Ha Hc Hap].
  assert (∀ g id, g ∈ sy_guards sy → id ∈ g → 1 ≤ writers (sy_guards sy) id) as Hw.
  { intros g id Hg Hid. apply list_elem_of_split in Hg as (gs1 & gs2 & ->).
    rewrite writers_drop, writers_cons, decide_True by done. pose proof (writers_nonneg (gs1 ++ gs2) id). lia. }
  split_and!.
  - intros id g Hid Hg Hin. pose proof (Hw _ _ Hg Hin). apply Hap in Hid. lia.
  - intros g Hg. destruct (drop_guard_spec g (sy_ret sy) (sy_guards sy) Ha) as (s' & E & _); [|eauto].
    intros id. by apply Hw.
  - intros id ids Hid Hin. unfold protect. case_goal; [eauto|]. case_goal; [eauto|].
    rewrite (bool_decide_eq_true_2 (_ ≠ ∅)); [eauto|]. rewrite Hc. set_solver.
  - intros id sy' Hid Hst Hid'. by eapply sys_step_frozen.
Qed.
End RetentionTheorems.

(** ** Witnesses *)
Module RetentionExamples.
#[local] Existing Instance toy_blake3.
#[local] Existing Instance toy_order.
#[local] Existing Instance toy_order_laws.

Definition toy_block : BlockId := block_of [].
Definition fresh_dir : Dir := fst (ret_open (MkDir ∅ [])).
Definition granted : RetState * Dir * res io_error (gset BlockId) :=
  protect [toy_block] (opened_ret [], fresh_dir).

Lemma fresh_ok : ret_open (MkDir ∅ []) = (fresh_dir, Ok (opened_ret [])) ∧ ret_ok (opened_ret []) fresh_dir.
Proof.
  destruct fresh_journal as (d & E & Hd). assert (fresh_dir = d) as <- by (unfold fresh_dir; by rewrite E).
  done.
Qed.

Lemma guards_survive_restart_witness :
  is_ok (snd granted) = true ∧ rt_ids (fst (fst granted)) !! toy_block = Some 1.
Proof.
  assert (is_ok (snd granted) = true) as Hok by by vm_compute.
  assert (rt_sequence (fst (fst granted)) = 1) as Hs by by vm_compute.
  split; [exact Hok|]. destruct granted as [[s' d'] r] eqn:E. cbn [fst snd] in *.
  destruct (guards_survive_restart [toy_block] (opened_ret []) fresh_dir s' d' r (proj2 fresh_ok) E) as (_ & _ & Hg).
  destruct r as [g| |]; [|done..]. destruct Hg as [_ Hg].
  destruct (Hg toy_block) as [-> _]; [by left|by rewrite Hs].
Defined.

Definition granted_sys : System :=
  MkSys (fst (fst granted)) (snd (fst granted)) [list_to_set [toy_block]] ∅.
Lemma granted_reach : sys_reach granted_sys.
Proof.
  destruct granted as [[s' d'] r] eqn:E. assert (is_ok (snd granted) = true) as Hok by by vm_compute.
  rewrite E in Hok. unfold granted_sys. rewrite E. cbn [fst snd] in *.
  destruct (protect_spec _ _ _ _ _ _ (proj2 fresh_ok) E) as [Hp _]. destruct r as [g| |]; [|done..].
  destruct Hp as (-> & _). eapply sr_step; [by apply sr_start, fresh_ok|]. by eapply ss_protect.
Qed.

(** A write is out; then a check on the block is refused, and the write ends. *)
Lemma release_checks_exclude_writers_witness :
  is_ok (snd (try_release_check toy_block 1 (sy_ret granted_sys))) = false ∧
  ∃ s', drop_guard (list_to_set [toy_block]) (sy_ret granted_sys) = Ok s'.
Proof.
  split; [by vm_compute|].
  destruct (release_checks_exclude_writers granted_sys granted_reach) as (_ & Hd & _ & _).
  apply Hd. by left.
Defined.
End RetentionExamples.
