(* ===== verification/Repair.v ===== *)
(** * Replica intents ([crates/kalpakdb/src/repair.rs])

    The blocks this node promised to replicate, with the nodes observed to
    hold them, in one JSON file that every change replaces; and the random
    identity of the storage directory.  The files are in the directory model
    of [Durability].  [BTreeMap]s are finite maps, with their order written
    out where it matters.  [RepairTask] has the rounds of the repair task. *)

From S2P Require Import Prelude Core Durability Metadata Codecs LogStore Manifest ManifestTheorems.
From Stdlib Require Import Strings.Byte.

Definition MAX_RECORDS : Z := 16384.
Definition is_hexdigit (b : byte) : bool := byte_in 48 57 b || byte_in 65 70 b || byte_in 97 102 b.
Definition valid_generation (value : string) : bool :=
  (str_len value =? 64) && forallb is_hexdigit (str_bytes value).

Record Requirements := MkReqs {
  rq_version : Z;
  rq_blocks : gmap BlockId Z;
  rq_locations : gmap BlockId (gmap Z string) }.
Record RepairLog := MkRepairLog { rl_generation : string; rl_requirements : Requirements }.

Class ReqsJson := {
  json_of_reqs : Requirements → bytes + string;
  reqs_of_json : bytes → Requirements + string }.
Class ReqsJsonLaws `{ReqsJson} := reqs_json : ∀ r, ∃ x, json_of_reqs r = inl x ∧ reqs_of_json x = inl r.

Definition GENERATION_FILE : string := "storage-generation".
Definition REQS_FILE : string := "replica-requirements.json".
Definition REQS_PENDING : string := "replica-requirements.pending".

Definition fresh_reqs : Requirements := MkReqs 1 ∅ ∅.
Definition between (lo hi n : Z) : bool := (lo <=? n) && (n <=? hi).

(** The checks of [open] on a decoded file. *)
Definition invalid_reqs (r : Requirements) : bool :=
  negb (rq_version r =? 1) || (MAX_RECORDS <? zsize (rq_blocks r)) ||
  map_any (λ _ n, negb (between 1 16 n)) (rq_blocks r) ||
  map_any (λ id nodes, negb (contains_key (rq_blocks r) id) || (16 <? zsize nodes) ||
    map_any (λ _ g, negb (valid_generation g)) nodes) (rq_locations r).

(** [BTreeMap::pop_first]. *)
Definition pop_first (m : gmap Z string) : gmap Z string :=
  match merge_sort Z.le (fst <$> map_to_list m) with
  | k :: _ => delete k m
  | [] => m
  end.

Section Repair.
Context `{Blake3, Hex, ReqsJson}.

(** A missing identity file is created through a temporary file, which is
    removed when that fails; [seed] is the text of the path, time and pid. *)
Definition open_generation (temporary : string) (seed : bytes) : FS string := λ d,
  match fs_read GENERATION_FILE d with
  | (d, Ok content) =>
      if valid_utf8 content then (d, Ok (String.string_of_list_byte content))
      else (d, Err (IoError KInvalidData "stream did not contain valid UTF-8"))
  | (d, Err e) =>
      if bool_decide (io_kind_of e = KNotFound) then
        let value := block_display (block_of seed) in
        match replace GENERATION_FILE temporary (str_bytes value) d with
        | (d, Ok _) => (d, Ok value)
        | (d, Err e) => (set_dir_files (delete temporary (dir_files d)) d, Err e)
        | (d, Panic) => (d, Panic)
        end
      else (d, Err e)
  | (d, Panic) => (d, Panic)
  end.

Definition read_reqs : FS Requirements := λ d,
  match fs_read REQS_FILE d with
  | (d, Ok content) =>
      match reqs_of_json content with
      | inl r => (d, Ok r)
      | inr message => (d, Err (io_other message))
      end
  | (d, Err e) => if bool_decide (io_kind_of e = KNotFound) then (d, Ok fresh_reqs) else (d, Err e)
  | (d, Panic) => (d, Panic)
  end.

Definition repair_open (temporary : string) (seed : bytes) : FS RepairLog :=
  open_generation temporary seed ≫= λ generation,
  if negb (valid_generation generation) then st_throw (io_other "invalid storage generation")
  else
    read_reqs ≫= λ r,
    if invalid_reqs r then st_throw (io_other "invalid replica requirements")
    else mret (MkRepairLog generation r).

Abbreviation LM := (ST (RepairLog * Dir) io_error).

Definition reqs_publish (next : Requirements) : FS () :=
  match json_of_reqs next with
  | inl bytes_ => replace REQS_FILE REQS_PENDING bytes_
  | inr message => st_throw (io_other message)
  end.
(** [self.publish(&next)?; *current = next]. *)
Definition publish_reqs (next : Requirements) : LM () := λ '(l, d),
  match reqs_publish next d with
  | (d, Ok _) => ((MkRepairLog (rl_generation l) next, d), Ok ())
  | (d, r) => ((l, d), r)
  end.

(** ** [record] *)
Definition require (replicas : Z) (blocks : gmap BlockId Z) (id : BlockId) : gmap BlockId Z :=
  <[id := Z.max (default replicas (blocks !! id)) replicas]> blocks.
Definition record_reqs (ids : list BlockId) (replicas : Z) : LM () := λ '(l, d),
  if negb (between 1 16 replicas) then ((l, d), Err (io_other "invalid replica count"))
  else
    let current := rl_requirements l in
    let blocks := foldl (require replicas) (rq_blocks current) ids in
    if bool_decide (blocks = rq_blocks current) then ((l, d), Ok ())
    else if MAX_RECORDS <? zsize blocks then ((l, d), Err (io_other "replica requirement capacity exhausted"))
    else publish_reqs (MkReqs (rq_version current) blocks (rq_locations current)) (l, d).

Definition retained (l : RepairLog) (id : BlockId) : bool := contains_key (rq_blocks (rl_requirements l)) id.
Definition known_nodes (l : RepairLog) (id : BlockId) : list Z :=
  match rq_locations (rl_requirements l) !! id with
  | Some nodes => merge_sort Z.le (fst <$> map_to_list nodes)
  | None => []
  end.

(** ** [observe] *)

(** Observations of [node] in another incarnation are dropped everywhere. *)
Definition drop_stale (node : Z) (g : string) (nodes : gmap Z string) : gmap Z string :=
  match nodes !! node with
  | Some old => if bool_decide (old = g) then nodes else delete node nodes
  | None => nodes
  end.
Definition observe_one (node : Z) (generation : option string) (blocks : gmap BlockId Z)
    (locations : gmap BlockId (gmap Z string)) (id : BlockId) : gmap BlockId (gmap Z string) :=
  if contains_key blocks id then
    let nodes := default ∅ (locations !! id) in
    <[id := match generation with
            | Some g =>
                <[node := g]> (if negb (contains_key nodes node) && (16 <=? zsize nodes) then pop_first nodes else nodes)
            | None => delete node nodes
            end]> locations
  else locations.
Definition observe (ids : list BlockId) (node : Z) (generation : option string) : LM () := λ '(l, d),
  if match generation with Some g => negb (valid_generation g) | None => false end then
    ((l, d), Err (io_other "invalid peer storage generation"))
  else
    let current := rl_requirements l in
    let locations :=
      match generation with
      | Some g => drop_stale node g <$> rq_locations current
      | None => rq_locations current
      end in
    let locations := foldl (observe_one node generation (rq_blocks current)) locations ids in
    if bool_decide (locations = rq_locations current) then ((l, d), Ok ())
    else publish_reqs (MkReqs (rq_version current) (rq_blocks current) locations) (l, d).

(** ** [batch]: the next blocks to repair, in the order of their bytes. *)
Definition block_le (a b : BlockId * Z) : Prop := bytes_leb (block_bytes a.1) (block_bytes b.1) = true.
#[export] Instance block_le_dec a b : Decision (block_le a b) := bool_eq_dec _ _.
Definition wanted (after : option BlockId) (x : BlockId * Z) : bool :=
  (1 <? x.2) &&
  match after with Some a => negb (bytes_leb (block_bytes x.1) (block_bytes a)) | None => true end.
Definition repair_batch (l : RepairLog) (after : option BlockId) : list (BlockId * Z) :=
  take 16 (filter (λ x, wanted after x = true)
    (merge_sort block_le (map_to_list (rq_blocks (rl_requirements l))))).

End Repair.

(** ** Invariants *)
Section RepairLog.
Context `{Blake3, Hex, ReqsJsonLaws}.

(** Every requirement of [a] is in [b], at least as high. *)
Definition covered (a b : gmap BlockId Z) : Prop :=
  ∀ id n, a !! id = Some n → ∃ n', b !! id = Some n' ∧ n ≤ n'.
#[export] Instance covered_preorder : PreOrder covered.
Proof.
  split.
  - intros a id n Hn. exists n. split; [done|lia].
  - intros a b c Hab Hbc id n (n1 & H1' & ?)%Hab. apply Hbc in H1' as (n2 & ? & ?). exists n2. split; [done|lia].
Qed.

Record reqs_ok (r : Requirements) : Prop := {
  ro_version : rq_version r = 1;
  ro_count : zsize (rq_blocks r) ≤ MAX_RECORDS;
  ro_replicas : ∀ id n, rq_blocks r !! id = Some n → 1 ≤ n ≤ 16;
  ro_known : ∀ id nodes, rq_locations r !! id = Some nodes → is_Some (rq_blocks r !! id);
  ro_nodes : ∀ id nodes, rq_locations r !! id = Some nodes → zsize nodes ≤ 16;
  ro_generations : ∀ id nodes k g, rq_locations r !! id = Some nodes → nodes !! k = Some g → valid_generation g = true }.

Lemma reqs_ok_valid r : reqs_ok r → invalid_reqs r = false.
Proof.
  intros []. unfold invalid_reqs. rewrite !orb_false_iff. split_and!.
  - by rewrite ro_version0.
  - by apply Z.ltb_ge.
  - apply map_any_false. intros id n Hn. apply ro_replicas0 in Hn. unfold between.
    by rewrite !(proj2 (Z.leb_le _ _)) by lia.
  - apply map_any_false. intros id nodes Hn. rewrite !orb_false_iff. split_and!.
    + apply negb_false_iff, contains_key_true. by eapply ro_known0.
    + apply Z.ltb_ge. by eapply ro_nodes0.
    + apply map_any_false. intros k g Hg. by rewrite (ro_generations0 _ _ _ _ Hn Hg).
Qed.

(** The file holds [v]. *)
Definition on_disk (v : Requirements) (d : Dir) : Prop :=
  match dir_files d !! REQS_FILE with
  | Some x => reqs_of_json x = inl v
  | None => v = fresh_reqs
  end.
(** Memory is valid, and the file has at least its requirements. *)
Definition repair_ok (l : RepairLog) (d : Dir) : Prop :=
  reqs_ok (rl_requirements l) ∧ valid_generation (rl_generation l) = true ∧
  dir_files d !! GENERATION_FILE = Some (str_bytes (rl_generation l)) ∧
  ∃ v, on_disk v d ∧ reqs_ok v ∧ covered (rq_blocks (rl_requirements l)) (rq_blocks v).

Lemma publish_reqs_spec next l d l' d' r :
  repair_ok l d → reqs_ok next → covered (rq_blocks (rl_requirements l)) (rq_blocks next) →
  publish_reqs next (l, d) = ((l', d'), r) →
  repair_ok l' d' ∧
  match r with
  | Ok _ => l' = MkRepairLog (rl_generation l) next ∧ on_disk next d'
  | Err _ => l' = l ∧ dir_plan d ≠ []
  | Panic => False
  end.
Proof.
  intros (Hm & Hg & Hgf & v & Hv & Hvo & Hc) Hn Hcn E. unfold publish_reqs, reqs_publish in E.
  destruct (reqs_json next) as (x & Ex & Ed). rewrite Ex in E.
  destruct (replace REQS_FILE REQS_PENDING x d) as [d1 r1] eqn:Er.
  apply replace_inv in Er; [|done].
  assert (∀ w, replaced REQS_FILE REQS_PENDING w (dir_files d) (dir_files d1) →
    dir_files d1 !! REQS_FILE = w ∧ dir_files d1 !! GENERATION_FILE = Some (str_bytes (rl_generation l))) as Hk.
  { intros w [Hw Ho]. split; [done|]. by rewrite Ho. }
  destruct Er as [[-> [Hf Hgen]%Hk]|(e & -> & Hp & [[Hf Hgen]%Hk|[Hf Hgen]%Hk])]; simplify_eq.
  - assert (on_disk next d') as Hod by (unfold on_disk; by rewrite Hf). split; [|done].
    split_and!; try done. by exists next.
  - split; [|done]. split_and!; try done. exists v. split_and!; [|done|done]. unfold on_disk in *. by rewrite Hf.
  - split; [|done]. split_and!; try done. exists next. split_and!; [|done|done]. unfold on_disk. by rewrite Hf.
Qed.

(** ** Recording *)
Lemma require_covered n b id : covered b (require n b id).
Proof.
  intros i m Hm. unfold require. destruct (decide (i = id)) as [->|Hne].
  - rewrite lookup_insert_eq, Hm. cbn. eexists. split; [done|]. lia.
  - rewrite lookup_insert_ne by done. exists m. split; [done|lia].
Qed.
Lemma require_all n ids b :
  covered b (foldl (require n) b ids) ∧
  (∀ id, id ∈ ids → ∃ m, foldl (require n) b ids !! id = Some m ∧ n ≤ m) ∧
  (1 ≤ n ≤ 16 → (∀ id m, b !! id = Some m → 1 ≤ m ≤ 16) →
   ∀ id m, foldl (require n) b ids !! id = Some m → 1 ≤ m ≤ 16).
Proof.
  revert b. induction ids as [|i ids IH]; intros b; cbn [foldl].
  - split_and!; [done|set_solver|done].
  - destruct (IH (require n b i)) as (Hc & Hi & Hr). split_and!.
    + etrans; [apply require_covered|done].
    + intros id [->|Hid]%elem_of_cons; [|by apply Hi].
      destruct (Hc i (Z.max (default n (b !! i)) n)) as (m & Hm & ?); [unfold require; by rewrite lookup_insert_eq|].
      exists m. split; [done|lia].
    + intros Hn Hb. apply Hr; [done|]. intros id m. unfold require. destruct (decide (id = i)) as [->|Hne].
      * rewrite lookup_insert_eq. intros [= <-]. destruct (b !! i) as [k|] eqn:E; cbn; [apply Hb in E|]; lia.
      * rewrite lookup_insert_ne by done. apply Hb.
Qed.

Lemma covered_some b b' id : covered b b' → is_Some (b !! id) → is_Some (b' !! id).
Proof. intros Hc [n Hn]. apply Hc in Hn as (n' & -> & _). by eexists. Qed.

(** ** Observing *)
Definition locs_ok (b : gmap BlockId Z) (locs : gmap BlockId (gmap Z string)) : Prop :=
  ∀ id nodes, locs !! id = Some nodes →
    is_Some (b !! id) ∧ zsize nodes ≤ 16 ∧ ∀ k g, nodes !! k = Some g → valid_generation g = true.

Lemma pop_first_size m : 1 ≤ zsize m → zsize (pop_first m) = zsize m - 1.
Proof.
  intros Hm. unfold pop_first. destruct (merge_sort _ _) as [|k l] eqn:E.
  - apply (f_equal length) in E. rewrite merge_sort_Permutation, length_fmap, length_map_to_list in E.
    unfold zsize in Hm. cbn in E. lia.
  - assert (k ∈ merge_sort Z.le (fst <$> map_to_list m)) as Hk by (rewrite E; by left).
    rewrite merge_sort_Permutation in Hk. apply list_elem_of_fmap in Hk as ([k' v] & -> & Hk%elem_of_map_to_list).
    unfold zsize in *. rewrite map_size_delete_Some by by eexists. lia.
Qed.
Lemma pop_first_sub m k g : pop_first m !! k = Some g → m !! k = Some g.
Proof. unfold pop_first. destruct (merge_sort _ _); [done|]. intros Hk. by apply lookup_delete_Some in Hk as [_ Hk]. Qed.
Lemma zsize_insert_le (m : gmap Z string) k g :
  zsize (<[k := g]> m) ≤ zsize m + (if contains_key m k then 0 else 1).
Proof.
  destruct (contains_key m k) eqn:E.
  - apply contains_key_true in E as [v Hv]. rewrite (zsize_insert_Some _ _ _ _ Hv). lia.
  - apply contains_key_false in E. rewrite zsize_insert_None by done. lia.
Qed.

Lemma observe_one_ok node gen b locs id :
  locs_ok b locs → (∀ g, gen = Some g → valid_generation g = true) → locs_ok b (observe_one node gen b locs id).
Proof.
  intros Hl Hg. unfold observe_one. destruct (contains_key b id) eqn:Eb; [|done]. intros i nodes Hi.
  destruct (decide (i = id)) as [->|Hne]; [|rewrite lookup_insert_ne in Hi by done; by apply Hl].
  rewrite lookup_insert_eq in Hi. injection Hi as <-. split; [by apply contains_key_true in Eb as [v ->]|].
  set (old := default ∅ (locs !! id)).
  assert (zsize old ≤ 16 ∧ ∀ k g, old !! k = Some g → valid_generation g = true) as [Hs Hv].
  { unfold old. destruct (locs !! id) as [nodes|] eqn:E; [apply (Hl _ _ E)|]. cbn. split; [by rewrite zsize_empty|].
    intros k g. by rewrite lookup_empty. }
  destruct gen as [g|].
  - specialize (Hg g eq_refl). split.
    + pose proof (zsize_insert_le (if negb (contains_key old node) && (16 <=? zsize old) then pop_first old else old) node g) as Hz.
      destruct (contains_key old node) eqn:Ec; cbn [negb andb] in *; [rewrite Ec in Hz; lia|].
      destruct (Z.leb_spec 16 (zsize old)).
      * rewrite pop_first_size in Hz by lia. destruct (contains_key (pop_first old) node); lia.
      * rewrite Ec in Hz. lia.
    + intros k g'. destruct (decide (k = node)) as [->|Hk]; [rewrite lookup_insert_eq; by intros [= <-]|].
      rewrite lookup_insert_ne by done. case_match; [intros ?%pop_first_sub|]; by eapply Hv.
  - split.
    + etrans; [|done]. unfold zsize. apply inj_le, map_subseteq_size, delete_subseteq.
    + intros k g. rewrite lookup_delete_Some. intros [_ ?]. by eapply Hv.
Qed.

Lemma observe_all_ok node gen b ids locs :
  locs_ok b locs → (∀ g, gen = Some g → valid_generation g = true) →
  locs_ok b (foldl (observe_one node gen b) locs ids).
Proof. revert locs. induction ids as [|id ids IH]; intros locs Hl Hg; [done|]. cbn. apply IH; [|done]. by apply observe_one_ok. Qed.

(** No observation of [node] is of another incarnation than [g]. *)
Definition current_only (node : Z) (g : string) (locs : gmap BlockId (gmap Z string)) : Prop :=
  ∀ id nodes old, locs !! id = Some nodes → nodes !! node = Some old → old = g.
Lemma observe_one_current node g b locs id :
  current_only node g locs → current_only node g (observe_one node (Some g) b locs id).
Proof.
  intros Hc. unfold observe_one. destruct (contains_key b id); [|done]. intros i nodes old Hi Ho.
  destruct (decide (i = id)) as [->|Hne]; [|rewrite lookup_insert_ne in Hi by done; by eapply Hc].
  rewrite lookup_insert_eq in Hi. injection Hi as <-. rewrite lookup_insert_eq in Ho. by injection Ho.
Qed.
Lemma observe_all_current node g b ids locs :
  current_only node g locs → current_only node g (foldl (observe_one node (Some g) b) locs ids).
Proof. revert locs. induction ids as [|id ids IH]; intros locs Hc; [done|]. cbn. by apply IH, observe_one_current. Qed.
Lemma drop_stale_current node g locs : current_only node g (drop_stale node g <$> locs).
Proof.
  intros id nodes old Hi Ho. rewrite lookup_fmap in Hi. destruct (locs !! id) as [n|]; [|done]. injection Hi as <-.
  unfold drop_stale in Ho. destruct (n !! node) as [x|] eqn:E; [|by rewrite E in Ho].
  case_bool_decide; [rewrite E in Ho; by injection Ho as <-|by rewrite lookup_delete_eq in Ho].
Qed.
Lemma drop_stale_ok node g b locs : locs_ok b locs → locs_ok b (drop_stale node g <$> locs).
Proof.
  intros Hl id nodes Hi. rewrite lookup_fmap in Hi. destruct (locs !! id) as [n|] eqn:E; [|done]. injection Hi as <-.
  destruct (Hl _ _ E) as (Hb & Hs & Hv). split; [done|]. unfold drop_stale.
  destruct (n !! node); [|done]. case_bool_decide; [done|]. split.
  - etrans; [|done]. unfold zsize. apply inj_le, map_subseteq_size, delete_subseteq.
  - intros k g'. rewrite lookup_delete_Some. intros [_ ?]. by eapply Hv.
Qed.

Lemma reqs_ok_locs r locs :
  reqs_ok r → locs_ok (rq_blocks r) locs → reqs_ok (MkReqs (rq_version r) (rq_blocks r) locs).
Proof. intros [] Hl. constructor; try done; cbn; intros; by edestruct Hl as (? & ? & ?); eauto. Qed.
Lemma locs_of_reqs r : reqs_ok r → locs_ok (rq_blocks r) (rq_locations r).
Proof. intros [] id nodes Hn. split_and!; [by eapply ro_known0|by eapply ro_nodes0|]. intros k g. by eapply ro_generations0. Qed.

(** ** Restarts *)
Lemma hexdigit_ascii b : is_hexdigit b = true → ascii_byte b = true.
Proof. unfold is_hexdigit, ascii_byte, byte_in. rewrite !orb_true_iff, !andb_true_iff, !Z.leb_le. lia. Qed.

Lemma repair_open_ok temporary seed l d :
  repair_ok l d →
  ∃ l2, repair_open temporary seed (reopened d) = (reopened d, Ok l2) ∧ repair_ok l2 (reopened d) ∧
    rl_generation l2 = rl_generation l ∧ covered (rq_blocks (rl_requirements l)) (rq_blocks (rl_requirements l2)).
Proof.
  intros (Hm & Hg & Hgf & v & Hv & Hvo & Hc). exists (MkRepairLog (rl_generation l) v). split_and!; [|split_and!|done|done].
  - unfold repair_open, open_generation, mbind, ST_bind. rewrite fs_read_ok by done. cbn [reopened dir_files]. rewrite Hgf.
    rewrite ascii_valid.
    2:{ unfold valid_generation in Hg. apply andb_true_iff in Hg as [_ Hg]. rewrite forallb_forall in Hg.
        apply Forall_forall. intros b Hb. by apply hexdigit_ascii, Hg, list_elem_of_In. }
    unfold str_bytes. rewrite String.string_of_list_byte_of_string, Hg. cbn [negb].
    unfold read_reqs. rewrite fs_read_ok by done. cbn [reopened dir_files]. unfold on_disk in Hv.
    destruct (dir_files d !! REQS_FILE) as [x|]; [rewrite Hv|subst v; cbn [io_kind_of]; rewrite bool_decide_eq_true_2 by done]; by rewrite (reqs_ok_valid _ Hvo).
  - done.
  - done.
  - done.
  - by exists v.
Qed.
End RepairLog.

(** ** Property *)
Inductive RepairOp :=
| RecordOp (ids : list BlockId) (replicas : Z)
| ObserveOp (ids : list BlockId) (node : Z) (generation : option string).
Definition run_repair `{ReqsJson} (op : RepairOp) : ST (RepairLog * Dir) io_error () :=
  match op with
  | RecordOp ids n => record_reqs ids n
  | ObserveOp ids node g => observe ids node g
  end.

Section RepairTheorems.
Context `{Blake3, Hex, ReqsJsonLaws}.

(** What an operation that answered [Ok] established. *)
Definition op_done (op : RepairOp) (l' : RepairLog) : Prop :=
  match op with
  | RecordOp ids n => ∀ id, id ∈ ids → ∃ m, rq_blocks (rl_requirements l') !! id = Some m ∧ n ≤ m
  | ObserveOp _ node (Some g) => current_only node g (rq_locations (rl_requirements l'))
  | ObserveOp _ node None => True
  end.
Definition op_outcome (op : RepairOp) (l l' : RepairLog) (d' : Dir) (r : res io_error ()) : Prop :=
  repair_ok l' d' ∧ covered (rq_blocks (rl_requirements l)) (rq_blocks (rl_requirements l')) ∧
  rl_generation l' = rl_generation l ∧
  match r with Ok _ => op_done op l' | Err _ => l' = l | Panic => False end.

Lemma record_outcome ids n l d l' d' r :
  repair_ok l d → record_reqs ids n (l, d) = ((l', d'), r) → op_outcome (RecordOp ids n) l l' d' r.
Proof.
  intros Hok E. pose proof Hok as (Hm & _).
  unfold record_reqs in E. destruct (between 1 16 n) eqn:En; cbn [negb] in E; [|by simplify_eq].
  unfold between in En. apply andb_true_iff in En as [En1%Z.leb_le En2%Z.leb_le].
  destruct (require_all n ids (rq_blocks (rl_requirements l))) as (Hc & Hi & Hrange).
  case_bool_decide as Heq; [simplify_eq; rewrite Heq in Hi; by split_and!|].
  destruct (MAX_RECORDS <? _) eqn:Ecap; [by simplify_eq|]. apply Z.ltb_ge in Ecap.
  eapply publish_reqs_spec in E as [Hok' Hr]; [|done| |done].
  - split; [done|]. destruct r as [u|e|]; [destruct Hr as [-> _]|destruct Hr as [-> _]|done]; done.
  - destruct Hm. constructor; cbn; try done; [by apply Hrange|]. intros id nodes Hn.
    eapply covered_some; [done|]. by eapply ro_known0.
Qed.

Lemma observe_outcome ids node gen l d l' d' r :
  repair_ok l d → observe ids node gen (l, d) = ((l', d'), r) → op_outcome (ObserveOp ids node gen) l l' d' r.
Proof.
  intros Hok E. pose proof Hok as (Hm & _). unfold observe in E.
  destruct (match gen with Some g => negb (valid_generation g) | None => false end) eqn:Eg; [by simplify_eq|].
  assert (∀ g, gen = Some g → valid_generation g = true) as Hg by (intros g ->; by apply negb_false_iff).
  set (locs0 := match gen with Some g => drop_stale node g <$> rq_locations (rl_requirements l)
                | None => rq_locations (rl_requirements l) end) in E.
  assert (locs_ok (rq_blocks (rl_requirements l)) locs0) as Hl0
    by (destruct gen; [by apply drop_stale_ok, locs_of_reqs|by apply locs_of_reqs]).
  pose proof (observe_all_ok node gen _ ids locs0 Hl0 Hg) as Hl.
  assert (match gen with Some g => current_only node g (foldl (observe_one node gen (rq_blocks (rl_requirements l))) locs0 ids)
          | None => True end) as Hcur
    by (destruct gen as [g|]; [apply observe_all_current, drop_stale_current|done]).
  case_bool_decide as Heq.
  { simplify_eq. split_and!; [done|done|done|]. destruct gen; [cbn; by rewrite Heq in Hcur|done]. }
  eapply publish_reqs_spec in E as [Hok' Hr]; [|done|by apply reqs_ok_locs|done].
  split; [done|]. destruct r as [u|e|]; [destruct Hr as [-> _]|destruct Hr as [-> _]|done]; [|done].
  split_and!; [done|done|]. by destruct gen.
Qed.

(** C38. A replica intent is never lost or lowered.  From a consistent log and
    under any file faults, [record] and [observe] do not panic; an error
    leaves memory as it was.  No requirement is dropped or reduced; after
    [record] every named block is required at least as often as asked; after
    an [observe] of a node's incarnation, no observation of that node in
    another incarnation is left anywhere.  The file stays valid: a restart
    succeeds, with the same storage identity and at least the requirements of
    memory. *)
Theorem replica_intents_survive op temporary seed l d l' d' r :
  repair_ok l d → run_repair op (l, d) = ((l', d'), r) →
  repair_ok l' d' ∧ covered (rq_blocks (rl_requirements l)) (rq_blocks (rl_requirements l')) ∧
  match r with Ok _ => op_done op l' | Err _ => l' = l | Panic => False end ∧
  ∃ l2, repair_open temporary seed (reopened d') = (reopened d', Ok l2) ∧ rl_generation l2 = rl_generation l ∧
    covered (rq_blocks (rl_requirements l')) (rq_blocks (rl_requirements l2)).
Proof.
  intros Hok E. assert (op_outcome op l l' d' r) as (Hok' & Hcov & Hgen & Hr)
    by (destruct op; [by eapply record_outcome|by eapply observe_outcome]).
  split_and!; [done|done|done|]. destruct (repair_open_ok temporary seed l' d' Hok') as (l2 & Eo & _ & Hg & Hc).
  exists l2. by rewrite Hg.
Qed.
End RepairTheorems.

(** ** Witness *)
Module RepairExamples.
#[local] Existing Instance toy_blake3.
#[local] Existing Instance toy_hex.
#[local] Instance Requirements_eq_dec : EqDecision Requirements.
Proof. solve_decision. Defined.
#[local] Instance Requirements_countable : Countable Requirements.
Proof. countable_by (λ x, (rq_version x, rq_blocks x, rq_locations x)) (λ '(a, b, c), MkReqs a b c). Defined.
#[local] Instance toy_reqs_json : ReqsJson := {|
  json_of_reqs r := inl (toy_enc r);
  reqs_of_json l := match toy_dec l with Some x => inl x | None => inr "malformed" end |}.
#[local] Instance toy_reqs_json_laws : ReqsJsonLaws.
Proof. intros r. eexists. split; [done|]. cbn. by rewrite toy_dec_enc. Qed.

Definition identity : string := String.string_of_list_byte (replicate 64 x61).
Definition log0 : RepairLog := MkRepairLog identity fresh_reqs.
(** The first write of the new file fails. *)
Definition dir0 : Dir := MkDir {[ GENERATION_FILE := str_bytes identity ]} [None; Some 7%nat].

Lemma log0_ok : repair_ok log0 dir0.
Proof.
  split_and!; [|by vm_compute|done|].
  - by constructor; cbn; intros; try rewrite lookup_empty in *.
  - exists fresh_reqs. split_and!; [done| |done]. by constructor; cbn; intros; try rewrite lookup_empty in *.
Qed.

Lemma replica_intents_survive_witness :
  ∃ l' d' r, run_repair (RecordOp [blk 3] 2) (log0, dir0) = ((l', d'), r) ∧ r ≠ Panic ∧
    ∃ l2, repair_open "tmp" [] (reopened d') = (reopened d', Ok l2) ∧ rl_generation l2 = identity.
Proof.
  destruct (run_repair (RecordOp [blk 3] 2) (log0, dir0)) as [[l' d'] r] eqn:E. exists l', d', r. split; [reflexivity|].
  destruct (replica_intents_survive (RecordOp [blk 3] 2) "tmp" [] log0 dir0 l' d' r log0_ok E) as (_ & _ & Hr & l2 & Eo & Hg & _).
  split; [clear E; destruct r; [discriminate|discriminate|destruct Hr]|]. exists l2. split; [exact Eo|exact Hg].
Defined.
End RepairExamples.
