(* ===== verification/Api.v ===== *)
(** * Signed writes over HTTP ([crates/kalpakdb/src/leases.rs] and the
      signed handlers of [crates/kalpakdb/src/server.rs])

    The handlers that change metadata: they check the request, verify its
    signature over the canonical message, ask the local control plane, and
    relay the request to the leader when this node is a follower.  The state
    is the Raft node and the background pin jobs that were started.  The
    network is a parameter: [post] is one request to a peer, during which the
    local node may move on.  Bodies and replies are records instead of JSON. *)

From S2P Require Import Prelude Core Signing Metadata Leases StateMachine StateInvariant ControlPlane.
From Stdlib Require Import Strings.Byte.

(** ** Errors *)
Record ApiError := MkApiError { ae_status : Z; ae_message : string }.
Definition BAD_REQUEST : Z := 400.
Definition UNAUTHORIZED : Z := 401.
Definition NOT_FOUND : Z := 404.
Definition CONFLICT : Z := 409.
Definition UNPROCESSABLE_ENTITY : Z := 422.
Definition INTERNAL_SERVER_ERROR : Z := 500.
Definition BAD_GATEWAY : Z := 502.
Definition SERVICE_UNAVAILABLE : Z := 503.

Definition quoted (s : string) : string :=
  let q := String.string_of_list_byte [x22] in q +:+ s +:+ q.
(** [Display for ControlError] (addresses need no escapes). *)
Definition control_message (e : ControlError) : string :=
  match e with
  | Init m => "raft init: " +:+ m
  | Write m => "raft write: " +:+ m
  | RejectedErr m => "metadata request rejected: " +:+ m
  | MembershipErr m => "raft membership: " +:+ m
  | NotLeader None => "not the leader; leader is None"
  | NotLeader (Some addr) => "not the leader; leader is Some(" +:+ quoted addr +:+ ")"
  end.
Definition api_of_control (e : ControlError) : ApiError :=
  MkApiError match e with
             | NotLeader _ => SERVICE_UNAVAILABLE
             | RejectedErr _ => CONFLICT
             | _ => INTERNAL_SERVER_ERROR
             end (control_message e).

(** ** Requests and replies *)
Record Begin := MkBegin { bg_lease : BlockId; bg_agent : AgentId; bg_blocks : list BlockId; bg_signature : string }.
Record Commit := MkCommitReq {
  cm_lease : BlockId;
  cm_agent : AgentId;
  cm_binding : ChainBinding;
  cm_expected_revision : Z;
  cm_signature : string }.
Record Cancel := MkCancel { cn_lease : BlockId; cn_agent : AgentId; cn_signature : string }.
Record Renew := MkRenew {
  rn_lease : BlockId;
  rn_agent : AgentId;
  rn_expected_generation : Z;
  rn_ttl_ticks : Z;
  rn_signature : string }.
Record RegisterAgentReq := MkRegisterReq { ra_agent : AgentId; ra_display_name : string; ra_signature : option string }.
Record BindReq := MkBindReq {
  bq_agent : AgentId;
  bq_key : CacheKey;
  bq_blocks : list BlockId;
  bq_parent : option CacheKey;
  bq_signature : option string }.
Record BindChainReq := MkBindChainReq {
  bc_agent : AgentId;
  bc_bindings : list ChainBinding;
  bc_signature : option string }.

Inductive ApiRequest :=
| ABegin (r : Begin)
| ACommit (r : Commit)
| ACancel (r : Cancel)
| ARenew (r : Renew)
| ARegister (r : RegisterAgentReq)
| ABind (r : BindReq)
| AChain (r : BindChainReq).

(** A peer's answer: not sent, no JSON, or a status with a JSON value [J]. *)
Inductive PeerAnswer (J : Type) :=
| SendFailed (message : string)
| BadBody (message : string)
| Answered (status : Z) (value : J).
Arguments SendFailed {J}.
Arguments BadBody {J}.
Arguments Answered {J}.

Class Peers (W J : Type) := {
  post : string → string → ApiRequest → W → W * PeerAnswer J;
  json_error : J → option string }.

Inductive ApiReply (J : Type) :=
| Reserved (lease : BlockId)
| BoundLease (lease : BlockId)
| CancelledLease (lease : BlockId)
| Renewed (generation deadline_tick : Z)
| Registered (agent : AgentId)
| BoundPrefix
| BoundChain (count : Z)
| Relayed (value : J).
Arguments Reserved {J}.
Arguments BoundLease {J}.
Arguments CancelledLease {J}.
Arguments Renewed {J}.
Arguments Registered {J}.
Arguments BoundPrefix {J}.
Arguments BoundChain {J}.
Arguments Relayed {J}.

Record ApiState (W : Type) := MkApi { ap_raft : W; ap_pins : list (list BlockId) }.
Arguments MkApi {W}.
Arguments ap_raft {W}.
Arguments ap_pins {W}.

Section Api.
Context {W J : Type} `{Raft W, Peers W J, Hex, Ed25519, BindingKey}.
(** What the handlers read of the node: its options and its block store. *)
Context (require_signatures : bool) (stored : BlockId → bool).

Abbreviation AM := (ST (ApiState W) ApiError).

Definition on_raft {A} (f : W → W * res ControlError A) : ST (ApiState W) ControlError A := λ s,
  let (w, r) := f (ap_raft s) in (MkApi w (ap_pins s), r).

Definition forward_to_leader (err : ControlError) (path : string) (body : ApiRequest) : AM (ApiReply J) := λ s,
  match err with
  | NotLeader (Some addr) =>
      let (w, answer) := post addr path body (ap_raft s) in
      (MkApi w (ap_pins s),
       match answer with
       | SendFailed e => Err (MkApiError BAD_GATEWAY ("leader forward: " +:+ e))
       | BadBody e => Err (MkApiError BAD_GATEWAY ("leader response: " +:+ e))
       | Answered status value =>
           if (200 <=? status) && (status <? 300) then Ok (Relayed value)
           else Err (MkApiError status (default "forwarded write failed" (json_error value)))
       end)
  | _ => (s, Err (api_of_control err))
  end.

(** The common shape: the local answer, or what forwarding gives. *)
Definition propose {A} (op : W → W * res ControlError A) (reply : A → AM (ApiReply J)) (path : string)
    (body : ApiRequest) : AM (ApiReply J) := λ s,
  match on_raft op s with
  | (s, Ok a) => reply a s
  | (s, Err e) => forward_to_leader e path body s
  | (s, Panic) => (s, Panic)
  end.

(** [verify] of [leases.rs]. *)
Definition verify (agent : AgentId) (message : bytes) (signature : string) : res ApiError () :=
  match signature_from_hex signature with
  | Ok sig =>
      match agent_verify agent message sig with
      | Ok _ => Ok ()
      | _ => Err (MkApiError UNAUTHORIZED "invalid lease signature")
      end
  | _ => Err (MkApiError UNAUTHORIZED "malformed lease signature")
  end.

(** [verify_signature] of [server.rs]; the headers are not looked at. *)
Definition verify_signature (agent : AgentId) (message : bytes) (signature : option string) : res ApiError () :=
  if negb require_signatures then Ok ()
  else
    match signature with
    | None => Err (MkApiError UNAUTHORIZED "this node requires signed writes: missing 'signature'")
    | Some sig_hex =>
        match signature_from_hex sig_hex with
        | Ok sig =>
            match agent_verify agent message sig with
            | Ok _ => Ok ()
            | _ => Err (MkApiError UNAUTHORIZED "signature does not verify against the agent's public key")
            end
        | _ => Err (MkApiError UNAUTHORIZED "malformed signature")
        end
    end.

(** ** Lease handlers *)
Definition renew_handler (req : Renew) : AM (ApiReply J) :=
  st_lift (verify (rn_agent req)
    (lease_renew_message (rn_agent req) (rn_lease req) (rn_expected_generation req) (rn_ttl_ticks req))
    (rn_signature req)) ≫= λ _,
  propose (λ w, renew_upload_lease w (rn_lease req) (rn_agent req) (rn_expected_generation req) (rn_ttl_ticks req))
    (λ deadline, mret (Renewed (generation deadline) (deadline_tick deadline))) "/v1/leases/renew" (ARenew req).

Definition cancel_handler (req : Cancel) : AM (ApiReply J) :=
  st_lift (verify (cn_agent req) (lease_cancel_message (cn_agent req) (cn_lease req)) (cn_signature req)) ≫= λ _,
  propose (λ w, cancel_upload_lease w (cn_lease req) (cn_agent req))
    (λ _, mret (CancelledLease (cn_lease req))) "/v1/leases/cancel" (ACancel req).

Definition bad_lease_blocks (blocks : list BlockId) : bool :=
  bool_decide (blocks = []) || (MAX_LEASE_BLOCKS <? zlen blocks).
Definition lease_blocks_error : ApiError := MkApiError BAD_REQUEST "lease requires 1..256 block hashes".

Definition begin_handler (req : Begin) : AM (ApiReply J) :=
  if bad_lease_blocks (bg_blocks req) then st_throw lease_blocks_error
  else
    st_lift (verify (bg_agent req) (lease_begin_message (bg_agent req) (bg_lease req) (bg_blocks req))
      (bg_signature req)) ≫= λ _,
    propose (λ w, begin_upload_lease w (bg_lease req) (bg_agent req) (bg_blocks req))
      (λ _, mret (Reserved (bg_lease req))) "/v1/leases/begin" (ABegin req).

Definition commit_handler (req : Commit) : AM (ApiReply J) :=
  let b := cm_binding req in
  if bad_lease_blocks (cb_blocks b) then st_throw lease_blocks_error
  else
    st_lift (verify (cm_agent req)
      (lease_commit_message (cm_agent req) (cm_lease req) (cb_key b) (cb_blocks b) (cb_parent b)
         (cm_expected_revision req)) (cm_signature req)) ≫= λ _,
    if existsb (λ id, negb (stored id)) (cb_blocks b) then
      st_throw (MkApiError UNPROCESSABLE_ENTITY "upload leased blocks to the committing leader first")
    else
      propose (λ w, commit_upload_lease w (cm_lease req) (cm_agent req) b (cm_expected_revision req))
        (λ _, mret (BoundLease (cm_lease req))) "/v1/leases/commit" (ACommit req).

(** ** Agents and bindings *)
Definition register_handler (req : RegisterAgentReq) : AM (ApiReply J) :=
  st_lift (verify_signature (ra_agent req) (register_message (ra_agent req) (ra_display_name req))
    (ra_signature req)) ≫= λ _,
  propose (λ w, register_agent w (ra_agent req) (ra_display_name req))
    (λ _, mret (Registered (ra_agent req))) "/v1/agents" (ARegister req).

(** The first block that is not stored, for requests that did not come from a
    peer ([internal] is the presence of the forwarding header). *)
Definition check_stored (internal : bool) (blocks : list BlockId) : res ApiError () :=
  if internal then Ok ()
  else
    match base.filter (λ b, stored b = false) blocks with
    | [] => Ok ()
    | b :: _ => Err (MkApiError UNPROCESSABLE_ENTITY
        ("block " +:+ block_display b +:+ " is not stored; upload blocks before binding"))
    end.
(** [pin_shared_blocks]: starts a background job. *)
Definition pin_shared_blocks (blocks : list BlockId) : AM () := λ s,
  (MkApi (ap_raft s) (ap_pins s ++ [blocks]), Ok ()).

Definition bind_handler (internal : bool) (req : BindReq) : AM (ApiReply J) :=
  st_lift (verify_signature (bq_agent req) (bind_message (bq_agent req) (bq_key req) (bq_blocks req) (bq_parent req))
    (bq_signature req)) ≫= λ _,
  st_lift (check_stored internal (bq_blocks req)) ≫= λ _,
  propose (λ w, bind_prefix w (bq_agent req) (bq_key req) (bq_blocks req) (bq_parent req))
    (λ _, pin_shared_blocks (bq_blocks req) ≫= λ _, mret BoundPrefix) "/v1/manifest/bind" (ABind req).

Definition chain_handler (internal : bool) (req : BindChainReq) : AM (ApiReply J) :=
  let links := (λ b, (cb_key b, cb_blocks b, cb_parent b)) <$> bc_bindings req in
  let all := concat (cb_blocks <$> bc_bindings req) in
  st_lift (verify_signature (bc_agent req) (chain_message (bc_agent req) links) (bc_signature req)) ≫= λ _,
  st_lift (check_stored internal all) ≫= λ _,
  propose (λ w, bind_chain w (bc_agent req) (bc_bindings req))
    (λ _, pin_shared_blocks all ≫= λ _, mret (BoundChain (zlen (bc_bindings req)))) "/v1/manifest/bind-chain" (AChain req).

(** The routes. *)
Definition handle_request (internal : bool) (req : ApiRequest) : AM (ApiReply J) :=
  match req with
  | ABegin r => begin_handler r
  | ACommit r => commit_handler r
  | ACancel r => cancel_handler r
  | ARenew r => renew_handler r
  | ARegister r => register_handler r
  | ABind r => bind_handler internal r
  | AChain r => chain_handler internal r
  end.

End Api.

(** ** What a request stands for *)
Definition request_message (req : ApiRequest) : message :=
  match req with
  | ABegin r => MLeaseBegin (bg_agent r) (bg_lease r) (bg_blocks r)
  | ACommit r => MLeaseCommit (cm_agent r) (cm_lease r) (cb_key (cm_binding r)) (cb_blocks (cm_binding r))
      (cb_parent (cm_binding r)) (cm_expected_revision r)
  | ACancel r => MLeaseCancel (cn_agent r) (cn_lease r)
  | ARenew r => MLeaseRenew (rn_agent r) (rn_lease r) (rn_expected_generation r) (rn_ttl_ticks r)
  | ARegister r => MRegister (ra_agent r) (ra_display_name r)
  | ABind r => MBind (bq_agent r) (bq_key r) (bq_blocks r) (bq_parent r)
  | AChain r => MChain (bc_agent r) ((λ b, (cb_key b, cb_blocks b, cb_parent b)) <$> bc_bindings r)
  end.
Definition request_signature (req : ApiRequest) : option string :=
  match req with
  | ABegin r => Some (bg_signature r) | ACommit r => Some (cm_signature r) | ACancel r => Some (cn_signature r)
  | ARenew r => Some (rn_signature r) | ARegister r => ra_signature r | ABind r => bq_signature r
  | AChain r => bc_signature r
  end.
(** The entry it proposes to the log. *)
Definition request_of (req : ApiRequest) : Request :=
  match req with
  | ABegin r => BeginUploadLease (bg_lease r) (bg_agent r) (bg_blocks r)
  | ACommit r => CommitUploadLease (cm_lease r) (cm_agent r) (cm_binding r) (cm_expected_revision r)
  | ACancel r => CancelUploadLease (cn_lease r) (cn_agent r)
  | ARenew r => RenewUploadLease (rn_lease r) (rn_agent r) (rn_expected_generation r) (rn_ttl_ticks r)
  | ARegister r => RegisterAgent (ra_agent r) (ra_display_name r)
  | ABind r => BindPrefix (bq_agent r) (bq_key r) (bq_blocks r) (bq_parent r)
  | AChain r => BindChain (bc_agent r) (bc_bindings r)
  end.
Definition must_sign (require_signatures : bool) (req : ApiRequest) : bool :=
  match req with ABegin _ | ACommit _ | ACancel _ | ARenew _ => true | _ => require_signatures end.
(** The blocks that must be stored here. *)
Definition needed (internal : bool) (req : ApiRequest) : list BlockId :=
  match req with
  | ACommit r => cb_blocks (cm_binding r)
  | ABind r => if internal then [] else bq_blocks r
  | AChain r => if internal then [] else concat (cb_blocks <$> bc_bindings r)
  | _ => []
  end.
(** The path it is posted to. *)
Definition route (req : ApiRequest) : string :=
  match req with
  | ABegin _ => "/v1/leases/begin" | ACommit _ => "/v1/leases/commit" | ACancel _ => "/v1/leases/cancel"
  | ARenew _ => "/v1/leases/renew" | ARegister _ => "/v1/agents" | ABind _ => "/v1/manifest/bind"
  | AChain _ => "/v1/manifest/bind-chain"
  end.
Definition is_register (req : ApiRequest) : bool := match req with ARegister _ => true | _ => false end.

Section Outcomes.
Context {W J : Type} `{Raft W, Peers W J, Hex, Ed25519, BindingKey}.
Context (require_signatures : bool) (stored : BlockId → bool).

(** The agent of the request signed exactly its message. *)
Definition authorized (req : ApiRequest) : Prop :=
  ∃ hex sig, request_signature req = Some hex ∧ signature_from_hex hex = Ok sig ∧
    agent_verify (message_agent (request_message req)) (message_bytes (request_message req)) sig = Ok ().

(** A control-plane operation is a write of [rq]. *)
Definition writes (rq : Request) (any : bool) {A} (op : W → W * res ControlError A) : Prop :=
  ∀ w w' r, op w = (w', r) →
    match r with
    | Ok _ => ∃ data, write w rq = (w', Ok data) ∧ (any = true ∨ is_rejected data = false)
    | Err (NotLeader addr) => write w rq = (w', Err (NotLeader addr))
    | Err _ => True
    | Panic => False
    end.

Lemma write_no_panic w rq w' : write w rq ≠ (w', Panic).
Proof. unfold write. destruct (client_write w rq) as [w1 []]; by intros [= ]. Qed.

Lemma writes_expect rq m (f : Response → option (res ControlError ())) :
  (∀ r out, f r = Some out → out = Ok () ∧ is_rejected r = false) → writes rq false (λ w, expect w rq f m).
Proof.
  intros Hf w w' r E. unfold expect in E. destruct (write w rq) as [w1 r1] eqn:Ew.
  destruct r1 as [data|e|]; cbn in E; [| |by apply write_no_panic in Ew].
  - destruct (f data) as [out|] eqn:Ef.
    + apply Hf in Ef as [-> Hr]. simplify_eq. eauto.
    + by destruct data; simplify_eq.
  - simplify_eq. by destruct e.
Qed.
Lemma writes_renew lease agent gen ttl :
  writes (RenewUploadLease lease agent gen ttl) false (λ w, renew_upload_lease w lease agent gen ttl).
Proof.
  intros w w' r E. unfold renew_upload_lease in E. destruct (write w _) as [w1 r1] eqn:Ew.
  destruct r1 as [data|e|]; cbn in E; [| |by apply write_no_panic in Ew].
  - destruct data; simplify_eq; eauto.
  - simplify_eq. by destruct e.
Qed.
Lemma writes_register agent name : writes (RegisterAgent agent name) true (λ w, register_agent w agent name).
Proof.
  intros w w' r E. unfold register_agent in E. destruct (write w _) as [w1 r1] eqn:Ew.
  destruct r1 as [data|e|]; cbn in E; [| |by apply write_no_panic in Ew]; simplify_eq; [eauto|by destruct e].
Qed.

(** What a handler that got as far as proposing did. *)
Definition proposed (req : ApiRequest) (s s' : ApiState W) (r : res ApiError (ApiReply J)) : Prop :=
  match r with
  | Ok reply =>
      (∃ data, write (ap_raft s) (request_of req) = (ap_raft s', Ok data) ∧
         (is_register req = true ∨ is_rejected data = false)) ∨
      ∃ w1 addr status value, reply = Relayed value ∧
        write (ap_raft s) (request_of req) = (w1, Err (NotLeader (Some addr))) ∧
        post addr (route req) req w1 = (ap_raft s', Answered status value) ∧ 200 ≤ status < 300
  | Err e => ae_status e = UNAUTHORIZED → ∃ w1 addr value,
      write (ap_raft s) (request_of req) = (w1, Err (NotLeader (Some addr))) ∧
      post addr (route req) req w1 = (ap_raft s', Answered UNAUTHORIZED value)
  | Panic => False
  end.

Lemma propose_proposed {A} req (op : W → W * res ControlError A) reply s s' r :
  writes (request_of req) (is_register req) op →
  (∀ a t, ∃ t' x, reply a t = (t', Ok x) ∧ ap_raft t' = ap_raft t) →
  propose op reply (route req) req s = (s', r) → proposed req s s' r.
Proof.
  intros Hw Hr E. unfold propose, on_raft in E. destruct (op (ap_raft s)) as [w1 [a|e|]] eqn:Eo; pose proof (Hw _ _ _ Eo) as Hx.
  - destruct (Hr a (MkApi w1 (ap_pins s))) as (t' & x & Er & Ht). rewrite Er in E. simplify_eq. left.
    cbn in Ht. by rewrite Ht.
  - unfold forward_to_leader in E. destruct e as [| | | |[addr|]]; simplify_eq; try done.
    cbn [ap_raft] in E. destruct (post addr (route req) req w1) as [w2 answer] eqn:Ep. simplify_eq.
    destruct answer as [m|m|status value]; try done.
    case_match eqn:Es; [|intros Hst; cbn in Hst; subst status; by exists w1, addr, value].
    apply andb_true_iff in Es as [?%Z.leb_le ?%Z.ltb_lt]. right. by exists w1, addr, status, value.
  - done.
Qed.

Lemma verify_cases agent m hex :
  verify agent m hex = Ok () ∧ (∃ sig, signature_from_hex hex = Ok sig ∧ agent_verify agent m sig = Ok ()) ∨
  ∃ text, verify agent m hex = Err (MkApiError UNAUTHORIZED text) ∧
    ∀ sig, signature_from_hex hex = Ok sig → agent_verify agent m sig ≠ Ok ().
Proof.
  unfold verify. destruct (signature_from_hex hex) as [sig| |]; [|right; by eexists..].
  destruct (agent_verify agent m sig) as [[]| |] eqn:E; [left; eauto|right|right];
    (eexists; split; [done|]; intros ? [= <-]; by rewrite E).
Qed.
Lemma verify_signature_cases agent m o :
  verify_signature require_signatures agent m o = Ok () ∧
    (require_signatures = false ∨
     ∃ hex sig, o = Some hex ∧ signature_from_hex hex = Ok sig ∧ agent_verify agent m sig = Ok ()) ∨
  ∃ text, verify_signature require_signatures agent m o = Err (MkApiError UNAUTHORIZED text) ∧
    require_signatures = true ∧
    ∀ hex sig, o = Some hex → signature_from_hex hex = Ok sig → agent_verify agent m sig ≠ Ok ().
Proof.
  unfold verify_signature. destruct require_signatures; [|left; auto]. cbn [negb].
  destruct o as [hex|]; [|right; by eexists]. destruct (signature_from_hex hex) as [sig| |] eqn:Eh.
  2,3: right; eexists; split_and!; [done|done|]; intros ? ? [= <-]; congruence.
  destruct (agent_verify agent m sig) as [[]| |] eqn:E.
  - left. split; [done|]. right. by exists hex, sig.
  - right. eexists. split_and!; [done|done|]. intros ? ? [= <-] ?. congruence.
  - right. eexists. split_and!; [done|done|]. intros ? ? [= <-] ?. congruence.
Qed.

(** ** Handlers *)

(** How a handler can end. *)
Inductive handled (internal : bool) (req : ApiRequest) (s : ApiState W) : ApiState W → res ApiError (ApiReply J) → Prop :=
| h_malformed : handled internal req s s (Err lease_blocks_error)
| h_unsigned text : must_sign require_signatures req = true → ¬ authorized req →
    handled internal req s s (Err (MkApiError UNAUTHORIZED text))
| h_missing text b : b ∈ needed internal req → stored b = false →
    handled internal req s s (Err (MkApiError UNPROCESSABLE_ENTITY text))
| h_proposed s' r :
    (must_sign require_signatures req = true → authorized req) →
    (∀ b, b ∈ needed internal req → stored b = true) →
    proposed req s s' r → handled internal req s s' r.

Lemma lease_handled internal req s s' r (k : ST (ApiState W) ApiError (ApiReply J)) :
  must_sign require_signatures req = true → request_signature req ≠ None →
  (∀ t t' x, k t = (t', x) → authorized req → handled internal req t t' x) →
  (st_lift (verify (message_agent (request_message req)) (message_bytes (request_message req))
     (default "" (request_signature req))) ≫= λ _, k) s = (s', r) →
  handled internal req s s' r.
Proof.
  intros Hm Hs Hk E. destruct (request_signature req) as [hex|] eqn:Eh; [|done]. cbn [default id] in E.
  unfold mbind, ST_bind, st_lift in E.
  destruct (verify_cases (message_agent (request_message req)) (message_bytes (request_message req)) hex)
    as [[Ev (sig & Hs1 & Hs2)]|(text & Ev & Hno)]; rewrite Ev in E.
  - apply (Hk _ _ _ E). by exists hex, sig.
  - simplify_eq. apply h_unsigned; [done|]. intros (hex' & sig & Hh & Hs1 & Hs2). rewrite Eh in Hh. simplify_eq.
    by apply (Hno sig).
Qed.
Lemma signed_handled internal req s s' r (k : ST (ApiState W) ApiError (ApiReply J)) :
  must_sign require_signatures req = require_signatures →
  (∀ t t' x, k t = (t', x) → (require_signatures = true → authorized req) → handled internal req t t' x) →
  (st_lift (verify_signature require_signatures (message_agent (request_message req))
     (message_bytes (request_message req)) (request_signature req)) ≫= λ _, k) s = (s', r) →
  handled internal req s s' r.
Proof.
  intros Hm Hk E. unfold mbind, ST_bind, st_lift in E.
  destruct (verify_signature_cases (message_agent (request_message req)) (message_bytes (request_message req))
    (request_signature req)) as [[Ev Hok]|(text & Ev & Ht & Hno)]; rewrite Ev in E.
  - apply (Hk _ _ _ E). intros Ht. destruct Hok as [?|(hex & sig & ? & ? & ?)]; [congruence|]. by exists hex, sig.
  - simplify_eq. apply h_unsigned; [by rewrite Hm|]. intros (hex & sig & Hh & Hs1 & Hs2). by apply (Hno hex sig).
Qed.
Lemma stored_handled internal req s s' r blocks (k : ST (ApiState W) ApiError (ApiReply J)) :
  needed internal req = (if internal then [] else blocks) →
  (∀ t t' x, k t = (t', x) → (∀ b, b ∈ needed internal req → stored b = true) → handled internal req t t' x) →
  (st_lift (check_stored stored internal blocks) ≫= λ _, k) s = (s', r) → handled internal req s s' r.
Proof.
  intros Hn Hk E. unfold mbind, ST_bind, st_lift, check_stored in E. destruct internal.
  - apply (Hk _ _ _ E). rewrite Hn. by intros b ?%elem_of_nil.
  - destruct (base.filter _ blocks) as [|b rest] eqn:Ef.
    + apply (Hk _ _ _ E). rewrite Hn. intros b Hb. destruct (stored b) eqn:Es; [done|].
      assert (b ∈ base.filter (λ b, stored b = false) blocks) as Hf by by apply list_elem_of_filter.
      rewrite Ef in Hf. by apply elem_of_nil in Hf.
    + assert (b ∈ base.filter (λ b, stored b = false) blocks) as Hf by (rewrite Ef; by left).
      apply list_elem_of_filter in Hf as [Hs Hb]. injection E as <- <-.
      apply (h_missing _ _ _ _ b); [by rewrite Hn|done].
Qed.

Lemma handle_handled internal req s s' r :
  handle_request require_signatures stored internal req s = (s', r) → handled internal req s s' r.
Proof.
  assert (∀ {A} (op : W → W * res ControlError A) reply t t' x,
    writes (request_of req) (is_register req) op →
    (∀ a u, ∃ u' y, reply a u = (u', Ok y) ∧ ap_raft u' = ap_raft u) →
    (must_sign require_signatures req = true → authorized req) → (∀ b, b ∈ needed internal req → stored b = true) →
    propose op reply (route req) req t = (t', x) → handled internal req t t' x) as Hp.
  { intros A op reply t t' x Hw Hr Ha Hn E. apply h_proposed; [done|done|]. by eapply propose_proposed. }
  destruct req as [q|q|q|q|q|q|q]; cbn [handle_request].
  - unfold begin_handler. case_match; [intros [= <- <-]; constructor|].
    apply (lease_handled _ (ABegin q)); [done|done|]. intros t t' x E Ha. eapply Hp; [| |done| |done].
    + by apply writes_expect; intros [] ? [= <-].
    + intros a u. by eexists _, _.
    + by intros b ?%elem_of_nil.
  - unfold commit_handler. cbn zeta. case_match; [intros [= <- <-]; constructor|].
    apply (lease_handled _ (ACommit q)); [done|done|]. intros t t' x E Ha. destruct (existsb _ _) eqn:Ex.
    + injection E as <- <-. apply existsb_exists in Ex as (b & Hb & Hs%negb_true_iff).
      apply (h_missing _ _ _ _ b); [by apply list_elem_of_In|done].
    + eapply Hp; [| |done| |done].
      * by apply writes_expect; intros [] ? [= <-].
      * intros a u. by eexists _, _.
      * intros b Hb. destruct (stored b) eqn:Es; [done|]. exfalso. apply not_true_iff_false in Ex. apply Ex.
        apply existsb_exists. exists b. rewrite Es. split; [by apply list_elem_of_In|done].
  - apply (lease_handled _ (ACancel q)); [done|done|]. intros t t' x E Ha. eapply Hp; [| |done| |done].
    + by apply writes_expect; intros [] ? [= <-].
    + intros a u. by eexists _, _.
    + by intros b ?%elem_of_nil.
  - apply (lease_handled _ (ARenew q)); [done|done|]. intros t t' x E Ha. eapply Hp; [apply writes_renew| |done| |done].
    + intros a u. by eexists _, _.
    + by intros b ?%elem_of_nil.
  - apply (signed_handled _ (ARegister q)); [done|]. intros t t' x E Ha. eapply Hp; [apply writes_register| |done| |done].
    + intros a u. by eexists _, _.
    + by intros b ?%elem_of_nil.
  - apply (signed_handled _ (ABind q)); [done|]. intros t t' x E Ha. revert E.
    apply (stored_handled _ (ABind q)); [done|]. intros t1 t1' x1 E Hn. eapply Hp; [| |done|done|done].
    + by apply writes_expect; intros [] ? [= <-].
    + intros a u. by eexists _, _.
  - apply (signed_handled _ (AChain q)); [done|]. intros t t' x E Ha. revert E.
    apply (stored_handled _ (AChain q)); [done|]. intros t1 t1' x1 E Hn. eapply Hp; [| |done|done|done].
    + by apply writes_expect; intros [] ? [= <-].
    + intros a u. by eexists _, _.
Qed.

(** ** Property *)

(** C39. A handler proposes only what its agent signed.  Whatever a request
    holds, a handler does not panic; the node's state moves, or the reply is a
    success, only if the agent named in the request signed exactly the
    canonical message of that request (always for leases, for the others when
    signatures are required) and every block it binds is stored here, or the
    request came from a peer.  A success means that the log entry of exactly
    this request was written and accepted here, or that this node is a
    follower and the leader it named answered the same request on the same
    route with a success, which is relayed. *)
Theorem handlers_propose_signed internal req s s' r :
  handle_request require_signatures stored internal req s = (s', r) →
  r ≠ Panic ∧
  (s' ≠ s ∨ is_ok r = true →
     (must_sign require_signatures req = true → authorized req) ∧
     (∀ b, b ∈ needed internal req → stored b = true)) ∧
  (∀ reply, r = Ok reply →
     (∃ data, write (ap_raft s) (request_of req) = (ap_raft s', Ok data) ∧
        (is_register req = true ∨ is_rejected data = false)) ∨
     ∃ w1 addr status value, reply = Relayed value ∧
       write (ap_raft s) (request_of req) = (w1, Err (NotLeader (Some addr))) ∧
       post addr (route req) req w1 = (ap_raft s', Answered status value) ∧ 200 ≤ status < 300).
Proof.
  intros E%handle_handled. destruct E as [|text Hm Hna|text b Hb Hs|s' r Ha Hn Hp].
  1-3: split_and!; [done|by intros [?|?]|done].
  split_and!; [by destruct r|done|]. intros reply ->. apply Hp.
Qed.
End Outcomes.

(** ** Witness *)
Module ApiExamples.
#[local] Existing Instance toy_hex.
#[local] Existing Instance toy_ed25519.
#[local] Existing Instance toy_binding_key.
#[local] Existing Instance local_raft.
#[local] Instance no_peers : Peers MetadataState () := {|
  post _ _ _ w := (w, SendFailed "no peers"); json_error _ := None |}.

Definition api_key : SigningKey := array_of 32 5.
Definition api_agent : AgentId := MkAgentId (verifying_key api_key).
Definition api_begin : ApiRequest :=
  ABegin (MkBegin (blk 1) api_agent [blk 2] (sign_hex api_key (lease_begin_message api_agent (blk 1) [blk 2]))).
(** The agent has registered before. *)
Definition api_start : ApiState MetadataState :=
  MkApi (register_agent default_state api_agent "agent").1 [].

Lemma handlers_propose_signed_witness :
  is_ok (handle_request (J := ()) true (λ _, true) false api_begin api_start).2 = true ∧ authorized api_begin.
Proof.
  assert (is_ok (handle_request (J := ()) true (λ _, true) false api_begin api_start).2 = true) as Hok by by vm_compute.
  split; [exact Hok|].
  destruct (handle_request (J := ()) true (λ _, true) false api_begin api_start) as [s' r] eqn:E.
  destruct (handlers_propose_signed (J := ()) true (λ _, true) false api_begin api_start s' r E) as (_ & Ha & _).
  destruct Ha as [Ha _]; [by right|]. by apply Ha.
Defined.
End ApiExamples.
