(* ===== verification/Transport.v ===== *)
(** * Raft transport and membership ([crates/kalpak-control/src/network.rs],
      [crates/kalpak-control/src/lib.rs], [crates/kalpakdb/src/server.rs])

    The calls of a Raft node to its peers: JSON over HTTP, from the client
    side ([HttpNetwork]) to the handlers that pass them to [openraft]; and the
    calls that form and grow a cluster.  [openraft]'s own request, response
    and error types, its state, JSON and HTTP are parameters. *)

From S2P Require Import Prelude Core Metadata ControlPlane Api.

Inductive RpcKind := Append | InstallSnapshot | RequestVote.
#[export] Instance RpcKind_eq_dec : EqDecision RpcKind.
Proof. solve_decision. Defined.

Class RaftRpc (W : Type) := {
  Req : RpcKind → Type;
  Resp : RpcKind → Type;
  RErr : RpcKind → Type;
  raft_rpc : ∀ k, Req k → W → W * (Resp k + RErr k);
  raft_init : list (NodeId * string) → W → W * (() + string);
  raft_add_learner : NodeId → string → W → W * (() + string);
  raft_change_membership : gset NodeId → W → W * (() + string);
  raft_trigger_snapshot : W → W * (() + string) }.
Class RpcJson (J : Type) {W} `{RaftRpc W} := {
  req_to_json : ∀ k, Req k → J;
  req_of_json : ∀ k, J → Req k + string;
  result_to_json : ∀ k, Resp k + RErr k → J + string;
  result_of_json : ∀ k, J → (Resp k + RErr k) + string;
  json_message : string → J }.
(** Each end reads what the other wrote, and an error object is no result. *)
Class RpcJsonLaws (J : Type) {W} `{RpcJson J W} := {
  law_request : ∀ k r, req_of_json k (req_to_json k r) = inl r;
  law_result : ∀ k x, ∃ j, result_to_json k x = inl j ∧ result_of_json k j = inl x;
  law_message : ∀ k m, ∃ e, result_of_json k (json_message m) = inr e }.
(** An HTTP call: the response with its body, if that is JSON. *)
Inductive RpcReply (J : Type) := NotSent (message : string) | Received (status : Z) (body : option J).
Arguments NotSent {J}.
Arguments Received {J}.
Class RpcHttp (N J : Type) := rpc_post : string → J → N → N * RpcReply J.

(** ** The caller *)
Record HttpNetworkFactory := MkFactory { nf_scheme : string }.
Definition default_factory : HttpNetworkFactory := MkFactory "http".
Definition mesh_factory : HttpNetworkFactory := MkFactory "https".
Record HttpNetwork := MkNetwork { hn_target : NodeId; hn_base : string }.
Definition new_client (f : HttpNetworkFactory) (target : NodeId) (addr : string) : HttpNetwork :=
  MkNetwork target (nf_scheme f +:+ "://" +:+ addr).

Inductive RPCError (E : Type) :=
| Network (message : string)
| RemoteError (target : NodeId) (e : E).
Arguments Network {E}.
Arguments RemoteError {E}.

Definition rpc_path (k : RpcKind) : string :=
  match k with Append => "append" | InstallSnapshot => "snapshot" | RequestVote => "vote" end.
Definition rpc_url (base : string) (k : RpcKind) : string := base +:+ "/raft/" +:+ rpc_path k.

Section Rpc.
Context {W J : Type} `{RpcJson J W}.

Section Caller.
Context {N : Type} `{!RpcHttp N J}.
(** [rpc]: the status is not looked at; what does not read as a result is a
    network error, which makes [openraft] try again. *)
Definition rpc (c : HttpNetwork) (k : RpcKind) (req : Req k) : ST N (RPCError (RErr k)) (Resp k) := λ n,
  let (n, reply) := rpc_post (rpc_url (hn_base c) k) (req_to_json k req) n in
  (n, match reply with
      | NotSent m => Err (Network m)
      | Received _ None => Err (Network "error decoding response body")
      | Received _ (Some body) =>
          match result_of_json k body with
          | inr m => Err (Network m)
          | inl (inr e) => Err (RemoteError (hn_target c) e)
          | inl (inl resp) => Ok resp
          end
      end).
Definition net_append_entries c : Req Append → ST N (RPCError (RErr Append)) (Resp Append) := rpc c Append.
Definition net_install_snapshot c : Req InstallSnapshot → ST N (RPCError (RErr InstallSnapshot)) (Resp InstallSnapshot) := rpc c InstallSnapshot.
Definition net_vote c : Req RequestVote → ST N (RPCError (RErr RequestVote)) (Resp RequestVote) := rpc c RequestVote.
End Caller.

(** ** The callee *)

(** [handle_append_entries], [handle_vote], [handle_install_snapshot]: a
    request that does not read changes nothing. *)
Definition handle_rpc (k : RpcKind) (body : J) : ST W string J := λ w,
  match req_of_json k body with
  | inr m => (w, Err m)
  | inl req =>
      let (w, result) := raft_rpc k req w in
      (w, match result_to_json k result with inl j => Ok j | inr m => Err m end)
  end.
(** [raft_append], [raft_vote], [raft_snapshot]. *)
Definition raft_handler (k : RpcKind) (body : J) : ST W ApiError J := λ w,
  let (w, r) := handle_rpc k body w in (w, map_err (MkApiError BAD_REQUEST) r).

(** ** Membership *)
Definition control_call (f : string → ControlError) (m : W → W * (() + string)) : ST W ControlError () := λ w,
  let (w, r) := m w in (w, match r with inl _ => Ok () | inr e => Err (f e) end).
Definition init_cluster (members : list (NodeId * string)) : ST W ControlError () := control_call Init (raft_init members).
Definition add_learner (id : NodeId) (addr : string) : ST W ControlError () := control_call MembershipErr (raft_add_learner id addr).
Definition change_membership (voters : gset NodeId) : ST W ControlError () := control_call MembershipErr (raft_change_membership voters).
Definition trigger_snapshot : ST W ControlError () := control_call Write raft_trigger_snapshot.

Inductive ClusterReq :=
| ClusterInit (members : list (NodeId * string))
| AddLearner (node_id : NodeId) (addr : string)
| Promote (voters : gset NodeId).
Definition cluster_op (req : ClusterReq) : ST W ControlError () :=
  match req with
  | ClusterInit members => init_cluster members
  | AddLearner id addr => add_learner id addr
  | Promote voters => change_membership voters
  end.
(** [cluster_init], [cluster_add_learner], [cluster_promote]. *)
Definition cluster_handler (req : ClusterReq) : ST W ApiError () := λ w,
  let (w, r) := cluster_op req w in (w, map_err api_of_control r).

(** ** A call and its handler *)

(** The routes of a peer at [base], as the network of a caller. *)
Definition respond_rpc (x : W * res ApiError J) : W * RpcReply J :=
  let (w, r) := x in
  (w, match r with
      | Ok j => Received 200 (Some j)
      | Err e => Received (ae_status e) (Some (json_message (ae_message e)))
      | Panic => NotSent "connection closed before message completed"
      end).
Definition serve_rpc (base url : string) (body : J) (w : W) : W * RpcReply J :=
  match list_find (λ k, url = rpc_url base k) [Append; InstallSnapshot; RequestVote] with
  | Some (_, k) => respond_rpc (raft_handler k body w)
  | None => (w, Received 404 None)
  end.

Lemma string_app_inj_l a b c : a +:+ b = a +:+ c → b = c.
Proof. induction a as [|x a IH]; [done|]. cbn. intros [= E]. auto. Qed.
Lemma rpc_url_inj base k k' : rpc_url base k = rpc_url base k' → k = k'.
Proof. intros E%string_app_inj_l. destruct k, k'; done. Qed.
Lemma find_route base k : ∃ i, list_find (λ k', rpc_url base k = rpc_url base k') [Append; InstallSnapshot; RequestVote] = Some (i, k).
Proof.
  exists (match k with Append => 0 | InstallSnapshot => 1 | RequestVote => 2 end)%nat. apply list_find_Some.
  split_and!; [by destruct k|done|]. intros j y Hy Hj E%rpc_url_inj. subst y.
  destruct k, j as [|[|[|]]]; cbn in *; try lia; discriminate.
Qed.

(** A Raft call means what it says.  Through the caller, HTTP and the peer's
    handler, a call returns exactly what the peer's Raft returned for that
    request, its refusals as remote errors of the target, and changes the
    peer exactly as that Raft call does.  A body that is no request changes
    nothing there and comes back as a network error. *)
Theorem rpc_is_transparent `{!RpcJsonLaws J} (c : HttpNetwork) k req (w : W) :
  let peer : RpcHttp W J := serve_rpc (hn_base c) in
  let (w', result) := raft_rpc k req w in
  rpc c k req w = (w', match result with inl resp => Ok resp | inr e => Err (RemoteError (hn_target c) e) end) ∧
  ∀ body m, req_of_json k body = inr m →
    ∃ status j e, serve_rpc (hn_base c) (rpc_url (hn_base c) k) body w = (w, Received status (Some j)) ∧ result_of_json k j = inr e.
Proof.
  cbn zeta. destruct (raft_rpc k req w) as [w' result] eqn:Er. destruct (find_route (hn_base c) k) as [i Hi]. split.
  - destruct (law_result k result) as (j & Ej & Ej'). unfold rpc, rpc_post, serve_rpc. rewrite Hi.
    unfold respond_rpc, raft_handler, handle_rpc. rewrite law_request, Er, Ej. cbn. rewrite Ej'. by destruct result.
  - intros body m Hm. destruct (law_message k m) as [e He]. unfold serve_rpc. rewrite Hi. exists BAD_REQUEST, (json_message m), e.
    split; [|done]. unfold respond_rpc, raft_handler, handle_rpc. by rewrite Hm.
Qed.
End Rpc.
