(* ===== verification/Backup.v ===== *)
(** * Backup and restore ([admin_backup] of [crates/kalpakdb/src/server.rs],
      [Retention::archive] of [retention.rs], and the [restore] command of
      [main.rs])

    A backup copies the files of a running node one after the other; whatever
    else the node does in between is a schedule of changes, one before each
    file operation.  The archive is the list of its members, which is what the
    [tar] crate stores; writing it to the temporary file can fail at every
    member.  The control directory of a running node exists. *)

From S2P Require Import Prelude Core Durability Io Segment Store StoreInvariant StorePut StoreTheorems StoreOpen StoreCompact Tiered TieredCold StoreRestart Scrub Retention RetentionTheorems Metadata Codecs LogStore Manifest ManifestTheorems Repair Api.
From Stdlib Require Import Strings.Byte.

Inductive Member :=
| RootFile (name : string)
| ControlFile (name : string)
| SegmentMember (p : fname).
Abbreviation Archive := (list (Member * bytes)).

(** Reading a whole segment file ([append_path_with_name]). *)
Class SegmentCopy (W : Type) := seg_copy : fname → ST W io_error bytes.
Class SegmentCopyLaws (W F : Type) `{SegmentCopy W, SegmentView W F} :=
  law_copy : ∀ p w w' r, seg_copy p w = (w', r) → same_disk w w' ∧ r ≠ Panic ∧
    (∀ l, r = Ok l → ∃ f, dir_of w !! p = Some f ∧ l = bytes_of w f) ∧
    (healthy w → healthy w' ∧ (is_Some (dir_of w !! p) → is_ok r = true)).

(** The portable backend. *)
#[export] Instance std_copy : SegmentCopy Disk := λ p,
  disk_op (λ d, (d, match entries d !! p with
                    | Some f => Ok (disk_bytes d f)
                    | None => Err (IoError KNotFound "no such file")
                    end)).
#[export] Instance std_copy_laws : SegmentCopyLaws Disk N.
Proof.
  intros p w w' r E. disk_step E. cbn. rewrite <-Ee. split_and!; [by apply same_disk_ext|by destruct (entries _ !! p)| |].
  - intros l El. destruct (entries _ !! p) as [f|]; [|done]. injection El as <-. exists f. split; [done|].
    by apply disk_bytes_ext.
  - intros Hh. split; [auto|]. by intros [f ->].
Qed.

(** The names [seg-*.klpk]; the temporary of a compaction ends in [.compact]. *)
Definition segment_name (p : fname) : bool :=
  match p with
  | SegName _ => true
  | CompactName _ => false
  | OtherName s => is_segment s
  end.

(** ** The files of a node *)
Record Files (W : Type) := MkFiles { fl_disk : W; fl_ret : Dir; fl_log : Dir; fl_control : Dir }.
Arguments MkFiles {W}.
Arguments fl_disk {W}.
Arguments fl_ret {W}.
Arguments fl_log {W}.
Arguments fl_control {W}.
(** A running node, as far as a backup can see its changes. *)
Record Live (W F : Type) := MkLive { lv_files : Files W; lv_tmp : Dir; lv_store : BlockStore F; lv_ret : RetState }.
Arguments MkLive {W F}.
Arguments lv_files {W F}.
Arguments lv_tmp {W F}.
Arguments lv_store {W F}.
Arguments lv_ret {W F}.

(** [Path::exists]: an error counts as absence. *)
Definition fs_exists (name : string) : FS bool := λ d,
  match dir_plan d with
  | Some _ :: plan => (MkDir (dir_files d) plan, Ok false)
  | plan => (MkDir (dir_files d) (tail plan), Ok (bool_decide (is_Some (dir_files d !! name))))
  end.

Section Backup.
Context {W F : Type} `{!SegmentIo W F, !Blake3, !HashOrder, !SegmentCopy W}.
Abbreviation Running := (Live W F).
Abbreviation BK := (ST (Running * list (Running → Running)) io_error).

Definition on_files {S A} (get : Files W → S) (set : S → Files W → Files W) (m : ST S io_error A) : BK A := λ '(h, sched),
  let h := match sched with f :: _ => f h | [] => h end in
  let (s, r) := m (get (lv_files h)) in
  ((MkLive (set s (lv_files h)) (lv_tmp h) (lv_store h) (lv_ret h), tail sched), r).
Definition on_segments {A} : ST W io_error A → BK A :=
  on_files fl_disk (λ w f, MkFiles w (fl_ret f) (fl_log f) (fl_control f)).
Definition on_ret {A} : FS A → BK A :=
  on_files fl_ret (λ d f, MkFiles (fl_disk f) d (fl_log f) (fl_control f)).
Definition on_root {A} : FS A → BK A :=
  on_files fl_log (λ d f, MkFiles (fl_disk f) (fl_ret f) d (fl_control f)).
Definition on_control {A} : FS A → BK A :=
  on_files fl_control (λ d f, MkFiles (fl_disk f) (fl_ret f) (fl_log f) d).
(** An operation on the temporary file. *)
Definition tmp_op : BK () := λ '(h, sched),
  let (d, r) := dir_op (λ m, (m, Ok ())) unchanged (lv_tmp h) in
  ((MkLive (lv_files h) d (lv_store h) (lv_ret h), sched), r).

(** [append_path_with_name]: the file is read, then written to the archive. *)
Definition add (m : Member) (read : BK bytes) (a : Archive) : BK Archive :=
  read ≫= λ l, tmp_op ≫= λ _, mret (a ++ [(m, l)]).

Fixpoint add_control (names : list string) (a : Archive) : BK Archive :=
  match names with
  | [] => mret a
  | name :: names => add (ControlFile name) (on_control (fs_read name)) a ≫= add_control names
  end.
Fixpoint add_segments (names : list fname) (a : Archive) : BK Archive :=
  match names with
  | [] => mret a
  | p :: names =>
      (if segment_name p then add (SegmentMember p) (on_segments (seg_copy p)) a else mret a) ≫= add_segments names
  end.
(** [Retention::archive], under the lock of the journal. *)
Definition archive : Archive → BK Archive := add (RootFile RET_FILE) (on_ret (fs_read RET_FILE)).

Definition collect : BK Archive :=
  tmp_op ≫= λ _,
  add (RootFile GENERATION_FILE) (on_root (fs_read GENERATION_FILE)) [] ≫= λ a,
  on_root (fs_exists REQS_FILE) ≫= λ published : bool,
  (if published then add (RootFile REQS_FILE) (on_root (fs_read REQS_FILE)) a else mret a) ≫= λ a,
  on_control fs_names ≫= λ names,
  add_control names a ≫= λ a,
  on_segments fs_list ≫= λ names,
  add_segments names a ≫= λ a,
  archive a ≫= λ a,
  tmp_op ≫= λ _, mret a.
(** The response streams the temporary file once it is complete. *)
Definition admin_backup : ST (Running * list (Running → Running)) ApiError Archive := λ h,
  match collect h with
  | (h, Ok a) => let (h, r) := tmp_op h in (h, map_err (λ e, MkApiError INTERNAL_SERVER_ERROR (io_msg e)) ((λ _, a) <$> r))
  | (h, Err e) => (h, Err (MkApiError INTERNAL_SERVER_ERROR ("backup: " +:+ io_msg e)))
  | (h, Panic) => (h, Err (MkApiError INTERNAL_SERVER_ERROR "task panicked"))
  end.

(** ** Restoring *)
Abbreviation RS := (ST (Files W) io_error).
Definition unpack_file (name : string) (l : bytes) : FS () := fs_create name ≫= λ _, fs_write name l.
Definition unpack_segment (p : fname) (l : bytes) : ST W io_error () :=
  fs_truncate p ≫= λ _, b_open p ≫= λ f, f_write f l 0.
Definition unpack_member (m : Member) (l : bytes) : RS () := λ f,
  match m with
  | SegmentMember p => let (w, r) := unpack_segment p l (fl_disk f) in (MkFiles w (fl_ret f) (fl_log f) (fl_control f), r)
  | ControlFile name => let (d, r) := unpack_file name l (fl_control f) in (MkFiles (fl_disk f) (fl_ret f) (fl_log f) d, r)
  | RootFile name =>
      if bool_decide (name = RET_FILE)
      then let (d, r) := unpack_file name l (fl_ret f) in (MkFiles (fl_disk f) d (fl_log f) (fl_control f), r)
      else let (d, r) := unpack_file name l (fl_log f) in (MkFiles (fl_disk f) (fl_ret f) d (fl_control f), r)
  end.
Fixpoint unpack (a : Archive) : RS () :=
  match a with
  | [] => mret ()
  | (m, l) :: a => unpack_member m l ≫= λ _, unpack a
  end.
(** Unpack, open the store and verify every block. *)
Definition restore (a : Archive) : ST (Files W) Error (BlockStore F * VerifyReport) := λ f,
  match unpack a f with
  | (f, Ok _) =>
      match open_with (fl_disk f) with
      | (w, Ok s) =>
          let '((w, s), r) := verify_all (w, s) in
          (MkFiles w (fl_ret f) (fl_log f) (fl_control f), (λ r, (s, r)) <$> r)
      | (w, Err e) => (MkFiles w (fl_ret f) (fl_log f) (fl_control f), Err (Io e))
      | (w, Panic) => (MkFiles w (fl_ret f) (fl_log f) (fl_control f), Panic)
      end
  | (f, Err e) => (f, Err (Io e))
  | (f, Panic) => (f, Panic)
  end.
End Backup.
