(* ===== verification/BackupTheorems.v ===== *)
(** * What a backup is good for

    A backup of a running node, unpacked into an empty directory, opens as a
    node that serves every block the running node had when the backup began,
    with the guard of every block it serves; whatever was uploaded meanwhile.
    The control directory has no such guarantee: see [TornControl]. *)

From S2P Require Import Prelude Core Durability Io Segment Store StoreInvariant StorePut StoreTheorems StoreOpen StoreCompact Tiered TieredCold StoreRestart Retention RetentionTheorems Backup.
From S2P Require Metadata StateMachine ControlPlane Codecs Snapshot LogStore LogTheorems Recovery Repair.
From Stdlib Require Import Strings.Byte.

(** ** Records by segment *)
Lemma locs_of_segment seg off recs x : x ∈ locs seg off recs → loc_segment x.2 = seg.
Proof. destruct x. apply locs_segment. Qed.
Lemma elem_all_locs n segs x :
  x ∈ all_locs n segs ↔ ∃ i sg, segs !! i = Some sg ∧ x ∈ locs (n + Z.of_nat i) 0 sg.1.
Proof.
  revert n. induction segs as [|[recs junk] segs IH]; intros n; cbn [all_locs].
  { split; [by intros ?%elem_of_nil|by intros (i & sg & ? & _)]. }
  rewrite elem_of_app, IH. split.
  - intros [Hx|(i & sg & Hi & Hx)].
    + exists 0%nat, (recs, junk). by rewrite Z.add_0_r.
    + exists (S i), sg. split; [done|]. by replace (n + Z.of_nat (S i)) with (n + 1 + Z.of_nat i) by lia.
  - intros ([|i] & sg & Hi & Hx); cbn in Hi; simplify_eq; [left; by rewrite Z.add_0_r in Hx|].
    right. exists i, sg. split; [done|]. by replace (n + 1 + Z.of_nat i) with (n + Z.of_nat (S i)) by lia.
Qed.
Lemma elem_all_recs segs r : r ∈ all_recs segs ↔ ∃ i sg, segs !! i = Some sg ∧ r ∈ sg.1.
Proof.
  unfold all_recs. rewrite list_elem_of_In, in_concat. setoid_rewrite <-list_elem_of_In. split.
  - intros (l & (sg & -> & Hsg)%list_elem_of_fmap & Hr). apply list_elem_of_lookup in Hsg as [i Hi]. eauto.
  - intros (i & sg & Hi & Hr). exists sg.1. split; [|done]. apply list_elem_of_fmap. exists sg. split; [done|].
    by eapply list_elem_of_lookup_2.
Qed.
(** A list of choices. *)
Lemma choose_list {A} (P : nat → A → Prop) n :
  (∀ i, (i < n)%nat → ∃ x, P i x) → ∃ l, length l = n ∧ ∀ i x, l !! i = Some x → P i x.
Proof.
  induction n as [|n IH]; intros HP; [by exists []|]. destruct IH as (l & El & Hl); [auto with lia|].
  destruct (HP n) as [x Hx]; [lia|]. exists (l ++ [x]). rewrite length_app. split; [cbn; lia|].
  intros i y [Hi|[Hi Hy]]%lookup_app_Some; [by apply Hl|]. destruct (i - length l)%nat eqn:E; [|done].
  cbn in Hy. injection Hy as <-. by replace i with n by lia.
Qed.

Section BackupTheorems.
Context {W F : Type} `{SegmentIoLaws W F, Blake3, HashOrderLaws, SegmentCopy W, !SegmentCopyLaws W F}.
Abbreviation Running := (Live W F).
Abbreviation BK := (ST (Running * list (Running → Running)) io_error).

(** ** Running nodes *)
Definition store_state (h : Running) : W * BlockStore F := (fl_disk (lv_files h), lv_store h).
Definition guarded (h : Running) (id : BlockId) : Prop := is_Some (rt_ids (lv_ret h) !! id).
(** Every record on disk is of a guarded block: guards come first. *)
Definition live_ok (segs : list segment) (h : Running) : Prop :=
  durable_as (store_state h) segs ∧ ret_ok (lv_ret h) (fl_ret (lv_files h)) ∧
  ∀ x, x ∈ all_locs 0 segs → guarded h x.1.
(** What may happen meanwhile: no record is lost. *)
Definition kept (segs segs' : list segment) : Prop := ∀ x, x ∈ all_locs 0 segs → x ∈ all_locs 0 segs'.
#[global] Instance kept_preorder : PreOrder kept.
Proof. split; [by intros segs x|]. intros s1 s2 s3 A B x Hx. by apply B, A. Qed.
Definition advances (h h' : Running) : Prop :=
  ∀ segs, live_ok segs h → ∃ segs', live_ok segs' h' ∧ kept segs segs'.
Definition rely (f : Running → Running) : Prop := ∀ h, advances h (f h).

(** ** The steps of a backup

    [bk m Q segs]: from a good node with these segments, and under any
    schedule, what [m] returns satisfies [Q] with the segments of that time. *)
Definition bk {A} (m : BK A) (Q : A → list segment → Prop) (segs : list segment) : Prop :=
  ∀ h sched st a, live_ok segs h → Forall rely sched → m (h, sched) = (st, Ok a) →
  ∃ segs', live_ok segs' st.1 ∧ Forall rely st.2 ∧ kept segs segs' ∧ Q a segs'.
Lemma bk_ret {A} (a : A) (Q : A → list segment → Prop) segs : Q a segs → bk (mret a) Q segs.
Proof. intros HQ h sched st b Hok Hr [= <- <-]. by exists segs. Qed.
Lemma bk_bind {A B} (m : BK A) (f : A → BK B) Q segs :
  bk m (λ a, bk (f a) (λ b segs', kept segs segs' → Q b segs')) segs → bk (m ≫= f) Q segs.
Proof.
  intros Hm h sched st b Hok Hr E. unfold mbind, ST_bind in E. destruct (m (h, sched)) as [[h1 sched1] [a|e|]] eqn:Em; [|done..].
  destruct (Hm _ _ _ _ Hok Hr Em) as (s1 & Hok1 & Hr1 & K1 & Hf). destruct (Hf _ _ _ _ Hok1 Hr1 E) as (s2 & Hok2 & Hr2 & K2 & HQ).
  exists s2. split_and!; [done|done|by etrans|]. apply HQ. by etrans.
Qed.
Lemma bk_mono {A} (m : BK A) (Q Q' : A → list segment → Prop) segs :
  bk m Q segs → (∀ a segs', kept segs segs' → Q a segs' → Q' a segs') → bk m Q' segs.
Proof.
  intros Hm HQ h sched st a Hok Hr E. destruct (Hm _ _ _ _ Hok Hr E) as (s1 & Hok1 & Hr1 & K1 & HQ1). exists s1. auto.
Qed.

(** The schedule advances before an operation on the node's files, and the
    operation leaves the files as they are. *)
Lemma bk_files {S A} get set (m : ST S io_error A) (Q : A → list segment → Prop) segs :
  (∀ h segs' s a, live_ok segs' h → kept segs segs' → m (get (lv_files h)) = (s, Ok a) →
     live_ok segs' (MkLive (set s (lv_files h)) (lv_tmp h) (lv_store h) (lv_ret h)) ∧ Q a segs') →
  bk (on_files get set m : BK A) Q segs.
Proof.
  intros Hm h sched st a Hok Hr E. unfold on_files in E.
  assert (∃ segs', live_ok segs' (match sched with f :: _ => f h | [] => h end) ∧ kept segs segs') as (segs' & Hok' & K).
  { destruct Hr as [|f sched Hf Hr]; [by exists segs|]. by apply Hf. }
  destruct (m _) as [s r] eqn:Em. injection E as <- ->. destruct (Hm _ _ _ _ Hok' K Em) as [Hok2 HQ].
  exists segs'. split_and!; [done| |done|done]. cbn. by destruct Hr.
Qed.
Lemma bk_tmp segs : bk (tmp_op : BK ()) (λ _ _, True) segs.
Proof.
  intros h sched st a Hok Hr E. unfold tmp_op in E. destruct (dir_op _ _ _) as [d r]. injection E as <- ->. by exists segs.
Qed.
Lemma bk_root {A} (m : FS A) (Q : A → list segment → Prop) segs : (∀ a segs', Q a segs') → bk (on_root m : BK A) Q segs.
Proof. intros HQ. apply bk_files. intros h segs' d a Hok _ _. by split. Qed.
Lemma bk_control {A} (m : FS A) (Q : A → list segment → Prop) segs : (∀ a segs', Q a segs') → bk (on_control m : BK A) Q segs.
Proof. intros HQ. apply bk_files. intros h segs' d a Hok _ _. by split. Qed.
Lemma bk_add m (read : BK bytes) a (Q : bytes → list segment → Prop) segs :
  bk read Q segs → bk (add m read a) (λ a' segs', ∃ l segs1, kept segs segs1 ∧ kept segs1 segs' ∧ Q l segs1 ∧ a' = a ++ [(m, l)]) segs.
Proof.
  intros Hr. unfold add. apply bk_bind. eapply bk_mono; [exact Hr|]. intros l segs1 K HQ. apply bk_bind.
  eapply bk_mono; [apply bk_tmp|]. intros _ segs2 K2 _. apply bk_ret. intros _ _. by exists l, segs1.
Qed.

Lemma live_same segs (h : Running) w' :
  live_ok segs h → same_disk (fl_disk (lv_files h)) w' →
  live_ok segs (MkLive (MkFiles w' (fl_ret (lv_files h)) (fl_log (lv_files h)) (fl_control (lv_files h))) (lv_tmp h) (lv_store h) (lv_ret h)).
Proof.
  intros ([Hok Hs] & Hr & Hg) Hsame. split_and!; [|done|done]. split; [|done]. by apply (store_ok_same (fl_disk (lv_files h))).
Qed.

(** *** Segments *)
Definition listed (names : list fname) (segs : list segment) : Prop :=
  NoDup names ∧ ∀ i, SegName i ∈ names ↔ 0 ≤ i < zlen segs.
Lemma bk_list segs : bk (on_segments fs_list : BK (list fname)) listed segs.
Proof.
  apply bk_files. intros h segs' w names Hok _ E. destruct (law_list _ _ _ E) as (Hsame & _ & Hl & _).
  split; [by apply live_same|]. destruct (Hl _ eq_refl) as [Hn Hin]. split; [done|]. intros i. rewrite Hin.
  destruct Hok as ([Hso _] & _). pose proof (so_disk _ _ _ Hso) as Hd. cbn in Hd.
  pose proof (on_disk_length _ _ _ Hd) as El. unfold zlen. rewrite <-El. split.
  - intros Hs. pose proof (od_only _ _ _ Hd _ Hs). destruct Hs as [f Hf]. replace i with (Z.of_nat (Z.to_nat i)) in Hf by lia.
    apply (od_dir _ _ _ Hd), lookup_lt_Some in Hf. cbn in Hf. lia.
  - intros Hi. destruct (lookup_lt_is_Some_2 (files (lv_store h)) (Z.to_nat i)) as [f Hf]; [lia|].
    apply (od_dir _ _ _ Hd) in Hf. rewrite Z2Nat.id in Hf by lia. eauto.
Qed.

(** A copy of a segment: well-formed, with at least the records of [segs1]
    and at most those of [cur]. *)
Record good_copy (segs1 cur : list segment) (i : Z) (l : bytes) (sg : segment) : Prop := {
  gc_bytes : l = enc_all sg.1 ++ sg.2;
  gc_small : small sg.1;
  gc_size : zlen (enc_all sg.1) ≤ SEGMENT_MAX;
  gc_scan : scannable sg;
  gc_hashed : hashed sg.1;
  gc_most : ∀ x, x ∈ locs i 0 sg.1 → x ∈ all_locs 0 cur;
  gc_least : ∀ x, x ∈ all_locs 0 segs1 → loc_segment x.2 = i → x ∈ locs i 0 sg.1 }.
Definition copied (segs1 cur : list segment) (m : fname * bytes) : Prop :=
  ∀ i, m.1 = SegName i → ∃ sg, good_copy segs1 cur i m.2 sg.
Lemma copied_kept segs1 cur cur' m : kept cur cur' → copied segs1 cur m → copied segs1 cur' m.
Proof. intros K Hm i Hi. destruct (Hm i Hi) as (sg & []). exists sg. constructor; auto. Qed.

Lemma bk_copy p segs1 segs : kept segs1 segs → bk (on_segments (seg_copy p) : BK bytes) (λ l cur, copied segs1 cur (p, l)) segs.
Proof.
  intros K1. apply bk_files. intros h cur w l Hok K E. destruct (law_copy _ _ _ _ E) as (Hsame & _ & Hl & _).
  split; [by apply live_same|]. destruct (Hl _ eq_refl) as (f & Hf & ->). intros i Hi. cbn in Hi. subst p.
  destruct Hok as ([Hso (Hsc & Hha & _)] & _). pose proof (so_disk _ _ _ Hso) as Hd. cbn in Hd.
  assert (0 ≤ i) as Hi by (apply (od_only _ _ _ Hd); eauto). replace i with (Z.of_nat (Z.to_nat i)) in Hf by lia.
  apply (od_dir _ _ _ Hd) in Hf. destruct (Forall2_lookup_l _ _ _ _ _ (od_segs _ _ _ Hd) Hf) as (sg & Hsg & Hb & Hsm & Hsz).
  assert (∀ x, x ∈ locs i 0 sg.1 → x ∈ all_locs 0 cur) as Hmost.
  { intros x Hx. apply elem_all_locs. exists (Z.to_nat i), sg. split; [done|]. by rewrite Z.add_0_l, Z2Nat.id. }
  exists sg. constructor; auto.
  - by apply (proj1 (Forall_lookup _ _) Hsc _ _ Hsg).
  - apply Forall_forall. intros r Hr. apply (proj1 (Forall_forall _ _) Hha). apply elem_all_recs. eauto.
  - intros x Hx Hs. apply K1, K in Hx. apply elem_all_locs in Hx as (j & sg' & Hj & Hx). pose proof (locs_of_segment _ _ _ _ Hx) as Ej.
    assert (j = Z.to_nat i) as -> by lia. rewrite Hsg in Hj. injection Hj as <-. by rewrite Z.add_0_l, Z2Nat.id in Hx.
Qed.
Definition as_members : list (fname * bytes) → Archive := fmap (λ m, (SegmentMember m.1, m.2)).
Lemma bk_segments names a segs1 segs :
  kept segs1 segs →
  bk (add_segments names a : BK Archive)
    (λ a' cur, ∃ ms, a' = a ++ as_members ms ∧ ms.*1 = filter (λ p, segment_name p = true) names ∧ Forall (copied segs1 cur) ms) segs.
Proof.
  revert a segs. induction names as [|p names IH]; intros a segs K1; cbn [add_segments].
  { apply bk_ret. exists []. by rewrite app_nil_r. }
  apply bk_bind. rewrite filter_cons. destruct (segment_name p) eqn:Ep; cycle 1.
  { apply bk_ret. rewrite decide_False by done. eapply bk_mono; [by apply IH|]. done. }
  rewrite decide_True by done. eapply bk_mono; [by eapply bk_add, bk_copy|].
  intros a' cur K (l & s1 & _ & K' & Hl & ->). eapply bk_mono; [apply IH; by etrans|].
  intros a'' cur' K'' (ms & -> & Ems & Hms) _. exists ((p, l) :: ms). split_and!.
  - by rewrite <-app_assoc.
  - cbn. by rewrite Ems.
  - constructor; [|done]. eapply copied_kept; [|exact Hl]. by etrans.
Qed.

(** *** The rest *)
Definition guards_file (g : bytes) (cur : list segment) : Prop :=
  ∃ s d, ret_ok s d ∧ dir_files d !! RET_FILE = Some g ∧ ∀ x, x ∈ all_locs 0 cur → is_Some (rt_ids s !! x.1).
Lemma ret_ok_files s d d' : dir_files d' !! RET_FILE = dir_files d !! RET_FILE → ret_ok s d → ret_ok s d'.
Proof.
  intros E (js & torn & js' & [] & Hrest). exists js, torn, js'. split; [|done]. constructor; auto. by rewrite E.
Qed.
Lemma fs_read_Ok name d d' l : fs_read name d = (d', Ok l) → dir_files d !! name = Some l ∧ dir_files d' = dir_files d.
Proof.
  unfold fs_read. destruct (dir_op_cases (λ m, (m, match m !! name with Some l => Ok l | None => Err (IoError KNotFound "no such file") end))
    unchanged d) as [(k & -> & _)| ->]; [done|]. cbn. destruct (dir_files d !! name); [|done]. by intros [= <- <-].
Qed.
Lemma bk_guards segs : bk (on_ret (fs_read RET_FILE) : BK bytes) guards_file segs.
Proof.
  apply bk_files. intros h cur d g (Hd & Hr & Hg) _ E. apply fs_read_Ok in E as [Eg Ed].
  split; [|by exists (lv_ret h), (fl_ret (lv_files h))].
  split_and!; [done| |done]. cbn. by apply (ret_ok_files _ (fl_ret (lv_files h))); [rewrite Ed|].
Qed.

(** Members that are neither segments nor guards. *)
Definition plain_member (m : Member * bytes) : Prop :=
  match m.1 with SegmentMember _ => False | RootFile name => name ≠ RET_FILE | ControlFile _ => True end.
Lemma bk_add_control names a segs :
  Forall plain_member a → bk (add_control names a : BK Archive) (λ a' _, Forall plain_member a') segs.
Proof.
  revert a segs. induction names as [|n names IH]; intros a segs Ha; cbn [add_control]; [by apply bk_ret|].
  apply bk_bind. eapply bk_mono; [eapply (bk_add _ _ _ (λ _ _, True)), bk_control; done|].
  intros a' cur _ (l & s1 & _ & _ & _ & ->). eapply bk_mono; [apply IH|done].
  apply Forall_app. split; [done|]. by constructor.
Qed.

(** What the archive of a backup holds. *)
Definition good_archive (segs : list segment) (a : Archive) : Prop :=
  ∃ pre names ms g segs1 cur, a = pre ++ as_members ms ++ [(RootFile RET_FILE, g)] ∧ Forall plain_member pre ∧
    kept segs segs1 ∧ segs1 ≠ [] ∧ listed names segs1 ∧ ms.*1 = filter (λ p, segment_name p = true) names ∧
    Forall (copied segs1 cur) ms ∧ guards_file g cur.
Lemma live_nonempty segs h : live_ok segs h → segs ≠ [].
Proof.
  intros ([Hok _] & _) ->. apply (so_files _ _ _ Hok). apply nil_length_inv.
  by rewrite (on_disk_length _ _ _ (so_disk _ _ _ Hok)).
Qed.
Lemma bk_nonempty {A} (m : BK A) Q segs : bk m Q segs → bk m (λ a segs', segs' ≠ [] ∧ Q a segs') segs.
Proof.
  intros Hm h sched st a Hok Hr E. destruct (Hm _ _ _ _ Hok Hr E) as (s1 & Hok1 & Hr1 & K1 & HQ).
  exists s1. split_and!; auto. by eapply live_nonempty.
Qed.
Lemma bk_root_add name a segs :
  Forall plain_member a → name ≠ RET_FILE →
  bk (add (RootFile name) (on_root (fs_read name)) a : BK Archive) (λ a' _, Forall plain_member a') segs.
Proof.
  intros Ha Hn. eapply bk_mono; [eapply (bk_add _ _ _ (λ _ _, True)), bk_root; done|].
  intros a' cur _ (l & s1 & _ & _ & _ & ->). apply Forall_app. split; [done|]. by constructor.
Qed.
Lemma bk_collect segs : bk (collect : BK Archive) (λ a _, good_archive segs a) segs.
Proof.
  unfold collect. apply bk_bind. eapply bk_mono; [apply bk_tmp|]. intros _ s0 K0 _. apply bk_bind.
  eapply bk_mono; [by apply bk_root_add|]. intros a s1 K1 Ha. apply bk_bind.
  eapply bk_mono; [by apply (bk_root _ (λ _ _, True))|]. intros published s2 K2 _. apply bk_bind.
  eapply (bk_mono _ (λ a' _, Forall plain_member a')); [destruct published; [by apply bk_root_add|by apply bk_ret]|].
  clear a Ha. intros a s3 K3 Ha. apply bk_bind. eapply bk_mono; [by apply (bk_control _ (λ _ _, True))|]. intros names s4 K4 _.
  apply bk_bind. eapply bk_mono; [by apply bk_add_control|]. clear a Ha. intros a s5 K5 Ha. apply bk_bind.
  eapply bk_mono; [apply bk_nonempty, bk_list|]. clear names. intros names s6 K6 [Hne Hl]. apply bk_bind.
  eapply bk_mono; [by apply (bk_segments _ _ s6)|]. intros a7 s7 K7 (ms & -> & Ems & Hms). apply bk_bind.
  unfold archive. eapply bk_mono; [apply bk_add, bk_guards|]. intros a8 s8 K8 (g & s9 & K9 & _ & Hg & ->). apply bk_bind.
  eapply bk_mono; [apply bk_tmp|]. intros _ s10 K10 _. apply bk_ret. intros.
  exists a, names, ms, g, s6, s9. split_and!; [by rewrite <-app_assoc|done| |done|done|done| |done].
  - intros x Hx. by apply K6, K5, K4, K3, K2, K1, K0.
  - eapply Forall_impl; [exact Hms|]. intros m. by apply copied_kept.
Qed.

(** ** Unpacking *)
Definition injective (w : W) : Prop := ∀ p q f, dir_of w !! p = Some f → dir_of w !! q = Some f → p = q.
Lemma unpack_segment_spec p l w :
  healthy w → injective w →
  ∃ w' f, unpack_segment p l w = (w', Ok ()) ∧ healthy w' ∧ injective w' ∧ dir_of w' = <[p := f]> (dir_of w) ∧
    bytes_of w' f = l ∧ ∀ q g, q ≠ p → dir_of w !! q = Some g → bytes_of w' g = bytes_of w g.
Proof.
  intros Hw Hi. unfold unpack_segment, mbind, ST_bind.
  destruct (fs_truncate p w) as [w1 r1] eqn:E1. destruct (law_truncate _ _ _ _ E1) as (_ & _ & Ht & Hh1).
  destruct (Hh1 Hw) as [Hw1 ->]. destruct (Ht eq_refl) as (f & D1 & B1 & Hf & O1).
  destruct (b_open p w1) as [w2 r2] eqn:E2. destruct (law_open _ _ _ _ E2) as (_ & _ & Ho & Hh2).
  destruct (Hh2 Hw1) as [Hw2 Hr2]. destruct r2 as [f'|e|]; [|done..]. specialize (Ho f' eq_refl).
  rewrite D1, lookup_insert_eq in Ho. destruct Ho as [-> [D2 B2]].
  destruct (f_write f l 0 w2) as [w3 r3] eqn:E3. destruct (law_write _ _ _ _ _ _ E3) as (_ & D3 & O3 & _ & Hok & Hh3).
  destruct (Hh3 Hw2) as [Hw3 ->].
  assert (∀ q g, q ≠ p → dir_of w !! q = Some g → g ≠ f) as Hne.
  { intros q g Hq Hg ->. destruct Hf as [Hf|Hu]; [by apply Hq; eapply Hi|by apply (Hu q)]. }
  exists w3, f. split_and!; [done|done| |by rewrite D3, D2| |].
  - unfold injective. rewrite D3, D2, D1. intros q q' g. destruct (decide (q = p)) as [->|], (decide (q' = p)) as [->|].
    + done.
    + rewrite lookup_insert_eq, lookup_insert_ne by done. intros [= <-] Hg. by destruct (Hne q' f).
    + rewrite lookup_insert_eq, lookup_insert_ne by done. intros Hg [= <-]. by destruct (Hne q f).
    + rewrite !lookup_insert_ne by done. apply Hi.
  - rewrite Hok by done. rewrite B2, B1. pose proof (splice_app [] [] l) as Es. change (zlen (@nil byte)) with 0 in Es. cbn [app] in Es. by rewrite Es, drop_nil, app_nil_r.
  - intros q g Hq Hg. rewrite O3, B2, O1; [done|by eapply Hne..].
Qed.

(** Where the members went. *)
Definition empty_target (f : Files W) : Prop :=
  healthy (fl_disk f) ∧ injective (fl_disk f) ∧ (∀ i, dir_of (fl_disk f) !! SegName i = None) ∧
  dir_plan (fl_ret f) = [] ∧ dir_plan (fl_log f) = [] ∧ dir_plan (fl_control f) = [].
Record unpacked (done : Archive) (f : Files W) : Prop := {
  up_healthy : healthy (fl_disk f);
  up_inj : injective (fl_disk f);
  up_segs : ∀ p l, (SegmentMember p, l) ∈ done → ∃ g, dir_of (fl_disk f) !! p = Some g ∧ bytes_of (fl_disk f) g = l;
  up_only : ∀ i, is_Some (dir_of (fl_disk f) !! SegName i) → ∃ l, (SegmentMember (SegName i), l) ∈ done;
  up_plans : dir_plan (fl_ret f) = [] ∧ dir_plan (fl_log f) = [] ∧ dir_plan (fl_control f) = [] }.
Lemma unpack_file_quiet name l d :
  dir_plan d = [] → unpack_file name l d = (MkDir (<[name := l]> (dir_files d)) [], Ok ()).
Proof.
  intros E. unfold unpack_file, mbind, ST_bind, fs_create, fs_write, dir_op. rewrite E. cbn.
  by rewrite lookup_insert_eq, insert_insert_eq.
Qed.
Definition member_segment (m : Member * bytes) : option fname := match m.1 with SegmentMember p => Some p | _ => None end.
Lemma unpacked_plain done m l f f' :
  unpacked done f → member_segment (m, l) = None → fl_disk f' = fl_disk f →
  dir_plan (fl_ret f') = [] ∧ dir_plan (fl_log f') = [] ∧ dir_plan (fl_control f') = [] → unpacked (done ++ [(m, l)]) f'.
Proof.
  intros [U1 U2 U3 U4 U5] Hm Ed Hp. constructor; rewrite ?Ed; auto.
  - intros p l' [Hin|E%list_elem_of_singleton]%elem_of_app; [by apply U3|]. injection E as <- <-. done.
  - intros i Hi. destruct (U4 i Hi) as [l' Hl]. exists l'. apply elem_of_app. by left.
Qed.
Lemma unpack_member_spec done m l f :
  unpacked done f → (∀ p, member_segment (m, l) = Some p → p ∉ omap member_segment done) →
  ∃ f', unpack_member m l f = (f', Ok ()) ∧ unpacked (done ++ [(m, l)]) f' ∧
    (m = RootFile RET_FILE → dir_files (fl_ret f') !! RET_FILE = Some l).
Proof.
  intros U Hfresh. pose proof U as [U1 U2 U3 U4 (P1 & P2 & P3)]. unfold unpack_member. destruct m as [name|name|p].
  - case_bool_decide as En; rewrite unpack_file_quiet by done; eexists; (split; [done|]);
      (split; [by eapply unpacked_plain|]); [|by intros [= ->]]. intros _. cbn. by rewrite En, lookup_insert_eq.
  - rewrite unpack_file_quiet by done. eexists. split; [done|]. split; [by eapply unpacked_plain|done].
  - destruct (unpack_segment_spec p l (fl_disk f) U1 U2) as (w' & g & -> & Hw & Hi & D & Hb & Ho).
    eexists. split; [done|]. split; [|done]. specialize (Hfresh p eq_refl). constructor; cbn [fl_disk fl_ret fl_log fl_control]; auto.
    + intros q l' [Hin|E%list_elem_of_singleton]%elem_of_app; cycle 1.
      { injection E as -> ->. exists g. by rewrite D, lookup_insert_eq. }
      assert (q ≠ p) as Hq. { intros ->. apply Hfresh, list_elem_of_omap. by exists (SegmentMember p, l'). }
      destruct (U3 q l' Hin) as (g' & Hg & Hb'). exists g'. rewrite D, lookup_insert_ne by done. split; [done|].
      by rewrite (Ho q).
    + intros i. rewrite D. destruct (decide (SegName i = p)) as [<-|].
      * intros _. exists l. apply elem_of_app. right. by apply list_elem_of_singleton.
      * rewrite lookup_insert_ne by done. intros Hs. destruct (U4 i Hs) as [l' Hl]. exists l'. apply elem_of_app. by left.
Qed.
Lemma unpack_spec a done f :
  unpacked done f → NoDup (omap member_segment (done ++ a)) →
  ∃ f', unpack a f = (f', Ok ()) ∧ unpacked (done ++ a) f' ∧
    ∀ g, last a = Some (RootFile RET_FILE, g) → dir_files (fl_ret f') !! RET_FILE = Some g.
Proof.
  revert done f. induction a as [|[m l] a IH]; intros done f U Hn; cbn [unpack].
  { exists f. by rewrite app_nil_r. }
  destruct (unpack_member_spec done m l f U) as (f1 & E1 & U1 & R1).
  { intros p Hp Hin. rewrite omap_app in Hn. cbn [omap list_omap] in Hn. rewrite Hp in Hn.
    apply NoDup_app in Hn as (_ & Hn & _). apply (Hn p Hin). by left. }
  rewrite (cons_middle _ done), app_assoc in Hn |- *. destruct (IH _ _ U1 Hn) as (f2 & E2 & U2 & R2).
  exists f2. unfold mbind, ST_bind. rewrite E1. split_and!; [done|done|]. intros g. destruct a as [|x a]; [|apply R2].
  intros [= -> ->]. injection E2 as <-. by apply R1.
Qed.
Lemma empty_unpacked f : empty_target f → unpacked [] f.
Proof.
  intros (? & ? & He & ?). constructor; auto; [by intros p l ?%elem_of_nil|]. intros i [g Hg]. by rewrite He in Hg.
Qed.
Lemma archive_segments pre ms g :
  Forall plain_member pre → omap member_segment (pre ++ as_members ms ++ [(RootFile RET_FILE, g)]) = ms.*1.
Proof.
  intros Hp. rewrite !omap_app. cbn. rewrite app_nil_r.
  assert (omap member_segment pre = []) as ->.
  { induction Hp as [|[[]] pre Hm Hp IH]; cbn in *; done. }
  cbn [app]. clear Hp. unfold as_members. induction ms as [|m ms IH]; cbn; [done|]. cbn in IH. by rewrite IH.
Qed.

(** ** The restored node *)

(** The unpacked segments, as segments of a store. *)
Lemma unpacked_segments names ms segs1 cur a f :
  listed names segs1 → ms.*1 = filter (λ p, segment_name p = true) names → Forall (copied segs1 cur) ms →
  unpacked a f → (∀ p l, (SegmentMember p, l) ∈ a ↔ (p, l) ∈ ms) →
  ∃ fs segs, on_disk (fl_disk f) fs segs ∧ Forall scannable segs ∧ hashed (all_recs segs) ∧ length segs = length segs1 ∧
    kept segs1 segs ∧ kept segs cur.
Proof.
  intros [Hn Hin] Ems Hms [U1 U2 U3 U4 _] Ha.
  assert (∀ i, (i < length segs1)%nat → ∃ x, dir_of (fl_disk f) !! SegName (Z.of_nat i) = Some x.1 ∧
    good_copy segs1 cur (Z.of_nat i) (bytes_of (fl_disk f) x.1) x.2) as Hc.
  { intros i Hi. assert (SegName (Z.of_nat i) ∈ ms.*1) as ([p l] & Ep & Hm)%list_elem_of_fmap.
    { rewrite Ems. apply list_elem_of_filter. split; [done|]. apply Hin. unfold zlen. lia. }
    cbn in Ep. subst p. destruct (proj1 (Forall_forall _ _) Hms _ Hm _ eq_refl) as (sg & Hsg).
    destruct (U3 (SegName (Z.of_nat i)) l) as (g & Hg & Hb); [by apply Ha|]. exists (g, sg). cbn. by rewrite Hb. }
  destruct (choose_list _ _ Hc) as (xs & El & Hxs). exists xs.*1, xs.*2.
  assert (∀ i sg, xs.*2 !! i = Some sg → ∃ l, good_copy segs1 cur (Z.of_nat i) l sg) as Hsg.
  { intros i sg Hi. rewrite list_lookup_fmap in Hi. destruct (xs !! i) as [x|] eqn:Ex; [|done]. cbn in Hi. injection Hi as <-.
    eexists. by apply Hxs. }
  split_and!.
  - constructor; [| | |exact U2].
    + apply Forall2_fmap, Forall_Forall2_diag, Forall_lookup. intros i x Hx. destruct (Hxs _ _ Hx) as (_ & []). done.
    + intros i g. rewrite list_lookup_fmap. split.
      * destruct (xs !! i) as [x|] eqn:Ex; [|done]. intros [= <-]. by apply Hxs.
      * intros Hg. destruct (U4 (Z.of_nat i)) as [l Hl%Ha]; [eauto|].
        assert (SegName (Z.of_nat i) ∈ names) as Hni%Hin.
        { assert (SegName (Z.of_nat i) ∈ ms.*1) as Hm by (apply list_elem_of_fmap; by exists (SegName (Z.of_nat i), l)).
          rewrite Ems in Hm. by apply list_elem_of_filter in Hm as [_ ?]. }
        destruct (lookup_lt_is_Some_2 xs i) as [x Hx]; [unfold zlen in Hni; lia|]. rewrite Hx. cbn.
        destruct (Hxs _ _ Hx) as [Hd _]. congruence.
    + intros n Hs. destruct (U4 n Hs) as [l Hl%Ha].
      assert (SegName n ∈ ms.*1) as Hm by (apply list_elem_of_fmap; by exists (SegName n, l)).
      rewrite Ems in Hm. apply list_elem_of_filter in Hm as [_ Hm%Hin]. lia.
  - apply Forall_lookup. intros i sg Hi. destruct (Hsg _ _ Hi) as (l & []). done.
  - apply Forall_forall. intros r (i & sg & Hi & Hr)%elem_all_recs. destruct (Hsg _ _ Hi) as (l & []).
    by apply (proj1 (Forall_forall _ _) gc_hashed0).
  - by rewrite length_fmap.
  - intros x Hx. pose proof Hx as (i & sg1 & Hi & Hx1)%elem_all_locs. pose proof (locs_of_segment _ _ _ _ Hx1) as Es.
    apply lookup_lt_Some in Hi. destruct (lookup_lt_is_Some_2 xs i) as [y Hy]; [lia|]. destruct (Hxs _ _ Hy) as (_ & []).
    apply elem_all_locs. exists i, y.2. rewrite list_lookup_fmap, Hy. split; [done|]. rewrite Z.add_0_l in Es |- *. by apply gc_least0.
  - intros x (i & sg & Hi & Hx)%elem_all_locs. destruct (Hsg _ _ Hi) as (l & []). by apply gc_most0.
Qed.

(** A store of hashed records passes verification and serves what it has. *)
Lemma verified_store w s segs :
  store_ok w s segs → hashed (all_recs segs) → healthy w →
  ∃ w' r, verify_all (w, s) = ((w', s), Ok r) ∧ is_clean r = true ∧ healthy w' ∧ same_disk w w' ∧
    ∀ id, contains s id = true → ∃ w'' p, get id (w', s) = ((w'', s), Ok p) ∧ block_of p = id.
Proof.
  intros Hok Hha Hw. destruct (verify_all_finds_rot w s segs Hok Hw) as (w' & r & E & Hs & _ & _ & _ & Hcl & Hw').
  exists w', r. split_and!; [done| |done|done|].
  - apply Hcl. intros id p Hp. destruct (stored_hashed w s segs id Hok Hha) as (q & Hq & <-).
    + apply (contains_view w s segs); [done|]. eauto.
    + congruence.
  - intros id Hc. assert (store_ok w' s segs) as Hok' by by apply (store_ok_same w).
    destruct (stored_hashed w' s segs id Hok' Hha Hc) as (p & Hp & Hid).
    destruct (get_refines_lookup id w' s segs Hok' Hw') as (w'' & Eg & _). unfold abs_get in Eg. rewrite Hp in Eg.
    rewrite (proj2 (block_verify_spec _ _) Hid) in Eg. eauto.
Qed.
Lemma guards_restored g cur d :
  guards_file g cur → dir_files d !! RET_FILE = Some g → dir_plan d = [] →
  ∃ d' ret, ret_open d = (d', Ok ret) ∧ ∀ x, x ∈ all_locs 0 cur → is_Some (rt_ids ret !! x.1).
Proof.
  intros (s & d0 & Hok & Hg & Hall) Hd Hp. apply (ret_ok_files _ _ d) in Hok; [|congruence].
  destruct (ret_ok_reopens _ _ Hok) as (d' & ret & E & _ & Hk & _). unfold reopened in E. destruct d as [m plan]. cbn in *. subst plan.
  exists d', ret. split; [done|]. intros x Hx. destruct (Hall x Hx) as [n Hn]. destruct (Hk _ _ Hn) as (n' & -> & _). eauto.
Qed.
Lemma archive_members pre ms g p l :
  Forall plain_member pre → (SegmentMember p, l) ∈ pre ++ as_members ms ++ [(RootFile RET_FILE, g)] ↔ (p, l) ∈ ms.
Proof.
  intros Hp. rewrite !elem_of_app, list_elem_of_singleton. unfold as_members. rewrite list_elem_of_fmap. split.
  - intros [Hin|[([q l'] & [= -> ->] & Hin)|?]]; [|done|done]. by apply (proj1 (Forall_forall _ _) Hp) in Hin.
  - intros Hin. right. left. by exists (p, l).
Qed.
Lemma restore_good segs a f :
  good_archive segs a → empty_target f →
  ∃ f' s r segs' cur, restore a f = (f', Ok (s, r)) ∧ is_clean r = true ∧ store_ok (fl_disk f') s segs' ∧ exact s segs' ∧
    kept segs segs' ∧ kept segs' cur ∧
    (∀ id, contains s id = true → ∃ w p, get id (fl_disk f', s) = ((w, s), Ok p) ∧ block_of p = id) ∧
    ∃ d ret, ret_open (fl_ret f') = (d, Ok ret) ∧ ∀ x, x ∈ all_locs 0 cur → is_Some (rt_ids ret !! x.1).
Proof.
  intros (pre & names & ms & g & segs1 & cur & -> & Hpre & K1 & Hne & Hl & Ems & Hms & Hg) He.
  destruct (unpack_spec (pre ++ as_members ms ++ [(RootFile RET_FILE, g)]) [] f (empty_unpacked f He)) as (f1 & E1 & U & R).
  { cbn [app]. rewrite archive_segments, Ems by done. apply NoDup_filter, Hl. }
  cbn [app] in U. specialize (R g). rewrite app_assoc, last_snoc in R. specialize (R eq_refl).
  destruct (unpacked_segments names ms segs1 cur _ f1 Hl Ems Hms U) as (fs & segs' & Hd & Hsc & Hha & El & K2 & K3).
  { intros p l. by apply archive_members. }
  assert (fs ≠ []) as Hfs.
  { intros ->. apply on_disk_length in Hd. apply Hne, nil_length_inv. by rewrite <-El, <-Hd. }
  pose proof (open_wp _ _ _ Hd Hsc Hfs) as Ho. unfold wp in Ho. unfold restore. rewrite E1.
  destruct (open_with (fl_disk f1)) as [w [s|e|]]; [|by destruct Ho as [_ []]; apply U|done].
  destruct Ho as (_ & Hh & _ & Hex & _ & _ & Hok).
  destruct (verified_store w s segs' Hok Hha (Hh (up_healthy _ _ U))) as (w' & r & Ev & Hcl & Hw' & Hs & Hget). rewrite Ev.
  exists (MkFiles w' (fl_ret f1) (fl_log f1) (fl_control f1)), s, r, segs', cur. split_and!; try done.
  - by apply (store_ok_same w).
  - by etrans.
  - by apply (guards_restored g); [|done|apply U].
Qed.

(** ** What a node may do meanwhile *)
Definition set_files_of (f : Files W) (h : Running) : Running := MkLive f (lv_tmp h) (lv_store h) (lv_ret h).
(** Taking guards. *)
Definition guard_blocks (ids : list BlockId) (h : Running) : Running :=
  let f := lv_files h in
  let '((ret, d), _) := protect ids (lv_ret h, fl_ret f) in
  MkLive (MkFiles (fl_disk f) d (fl_log f) (fl_control f)) (lv_tmp h) (lv_store h) ret.
(** Storing payloads, once they are guarded. *)
Definition put_guarded (ps : list bytes) (h : Running) : Running :=
  if forallb (λ p, contains_key (rt_ids (lv_ret h)) (block_of p) && (zlen p <=? MAX_PAYLOAD)) ps then
    let f := lv_files h in
    let '((w, s), _) := put_many ps (store_state h) in
    MkLive (MkFiles w (fl_ret f) (fl_log f) (fl_control f)) (lv_tmp h) s (lv_ret h)
  else h.
(** Changing the control directory or the intents, in any way. *)
Definition write_control (g : Dir → Dir) (h : Running) : Running :=
  set_files_of (MkFiles (fl_disk (lv_files h)) (fl_ret (lv_files h)) (fl_log (lv_files h)) (g (fl_control (lv_files h)))) h.
Definition write_intents (g : Dir → Dir) (h : Running) : Running :=
  set_files_of (MkFiles (fl_disk (lv_files h)) (fl_ret (lv_files h)) (g (fl_log (lv_files h))) (fl_control (lv_files h))) h.

Lemma rely_guard ids : rely (guard_blocks ids).
Proof.
  intros h segs (Hd & Hr & Hg). unfold guard_blocks. destruct (protect _ _) as [[ret d] r] eqn:E.
  destruct (protect_spec _ _ _ _ _ _ Hr E) as [Hp Hr']. exists segs. split; [|done]. split_and!; [done|done|].
  intros x Hx. specialize (Hg x Hx). unfold guarded in *. cbn. destruct r as [g|e|]; [| |done].
  - destruct Hp as (_ & _ & _ & _ & _ & _ & -> & _). rewrite guard_all_lookup. case_decide; eauto.
  - by destruct Hp as [[-> _]|[-> _]].
Qed.
Lemma rely_put ps : rely (put_guarded ps).
Proof.
  intros h segs Hok. unfold put_guarded. destruct (forallb _ ps) eqn:Eb; [|by exists segs].
  rewrite forallb_forall in Eb. setoid_rewrite <-list_elem_of_In in Eb. setoid_rewrite andb_true_iff in Eb.
  pose proof Hok as (Hd & Hr & Hg). destruct (append_later ps false (store_state h) segs) as (segs' & Hd' & K & Hnew); [|done|].
  { apply Forall_forall. intros p [_ Hp%Z.leb_le]%Eb. done. }
  unfold put_many. destruct (put_many_inner ps false (store_state h)) as [[w s] r]. exists segs'. split; [|done].
  split_and!; [done|done|]. intros x [Hx|(p & Ep & [Hp _]%Eb)%list_elem_of_fmap]%Hnew; [by apply Hg|].
  unfold guarded. cbn. rewrite Ep. by apply contains_key_true.
Qed.
Lemma rely_control g : rely (write_control g).
Proof. intros h segs Hok. by exists segs. Qed.
Lemma rely_intents g : rely (write_intents g).
Proof. intros h segs Hok. by exists segs. Qed.

End BackupTheorems.

(** ** A backup during an upload *)
Module BackupExamples.
#[local] Existing Instance toy_blake3.
#[local] Existing Instance toy_order.
#[local] Existing Instance toy_order_laws.

Definition first : BlockId := block_of [x01].
Definition journal : RetState * Dir := (protect [first] (opened_ret [], RetentionExamples.fresh_dir)).1.
Definition log_dir : Dir := MkDir {[ Repair.GENERATION_FILE := [x30] ]} [].
Definition node (control : Dir) : Live Disk N :=
  MkLive (MkFiles (disk_of [rec1] []) journal.2 log_dir control) (MkDir ∅ []) (store_of [rec1]) journal.1.
Definition calm : Live Disk N → Live Disk N := write_control (λ d, d).
(** Another block is guarded when the backup starts, and stored before the
    segments are copied. *)
Definition schedule : list (Live Disk N → Live Disk N) :=
  [guard_blocks [block_of [x02]]; calm; calm; put_guarded [[x02]]].
Definition target : Files Disk := MkFiles empty_disk (MkDir ∅ []) (MkDir ∅ []) (MkDir ∅ []).
Definition backup_run := admin_backup (node (MkDir ∅ []), schedule).

Lemma journal_ok : ret_ok journal.1 journal.2 ∧ is_Some (rt_ids journal.1 !! first).
Proof.
  unfold journal. destruct (protect _ _) as [[s d] r] eqn:E.
  destruct (protect_spec _ _ _ _ _ _ (proj2 RetentionExamples.fresh_ok) E) as [Hp Hok]. split; [exact Hok|]. cbn [fst].
  assert (is_ok (protect [first] (opened_ret [], RetentionExamples.fresh_dir)).2 = true) as Hk by by vm_compute.
  rewrite E in Hk. destruct r as [g| |]; [|done..]. destruct Hp as (_ & _ & _ & _ & _ & _ & -> & _).
  rewrite guard_all_lookup, decide_True; [eauto|]. apply batch_of_elem. by left.
Qed.
Lemma node_ok control : live_ok [([rec1], [])] (node control).
Proof.
  destruct journal_ok as [Hr Hg]. split_and!; [|exact Hr|].
  - split; [apply rec1_ok|]. split_and!; [|by repeat constructor|intros _; by repeat constructor].
    apply (tidy_scannable (disk_of [rec1] []) [0%N]); [apply rec1_ok|by repeat constructor].
  - intros x [->|?%elem_of_nil]%elem_of_cons; [exact Hg|done].
Qed.
Lemma target_empty : empty_target target.
Proof. by split_and!. Qed.

End BackupExamples.

(** ** A backup during a snapshot *)
Module TornControl.
Import Metadata StateMachine ControlPlane Codecs Snapshot LogStore LogTheorems Recovery BackupExamples.
#[local] Existing Instances toy_blake3 toy_order toy_binding_key toy_bincode toy_snapshot_json toy_log_json.

(** A node that has applied two entries; then it takes a snapshot and purges
    the log up to it, as [openraft] does now and then. *)
Definition entry (i : Z) : Entry := MkEntry (MkLogId 1 1 i) Blank.
Definition voted : Node := (node_run (NLog (OpVote (MkVote 1 1 true))) ex_node).1.
Definition appended : Node := (node_run (NLog (OpAppend [entry 0; entry 1])) voted).1.
Definition before : Node := (node_run (NApply 2) appended).1.
Definition snapped : Node := (node_run NSnapshot before).1.
Definition after : Node := (node_run (NLog (OpPurge (MkLogId 1 1 1))) snapped).1.
Lemma reach_run op nd :
  reachable ex_text nd → raft_allows op nd → (node_run op nd).2 = Ok () → reachable ex_text (node_run op nd).1.
Proof. intros Hr Ha E. eapply reach_step; [exact Hr|exact Ha|]. by destruct (node_run op nd) as [nd' r]; cbn in E; subst r. Qed.
Lemma before_reachable : reachable ex_text before.
Proof.
  assert (reachable ex_text voted) as Hv.
  { refine (reach_run _ _ ex_node_reachable _ _); [exact I|vm_compute; reflexivity]. }
  assert (reachable ex_text appended) as Ha.
  { refine (reach_run _ _ Hv _ _); [repeat constructor; vm_compute; discriminate|vm_compute; reflexivity]. }
  refine (reach_run _ _ Ha _ _); [vm_compute; discriminate|vm_compute; reflexivity].
Qed.
Lemma after_reachable : reachable ex_text after.
Proof.
  assert (reachable ex_text snapped) as Hs.
  { refine (reach_run _ _ before_reachable _ _); [exact I|vm_compute; reflexivity]. }
  refine (reach_run _ _ Hs _ _); [|vm_compute; reflexivity].
  assert (last_log_id <$> (fst <$> get_current_snapshot (nd_sm snapped)) = Some (Some (MkLogId 1 1 1))) as El by (vm_compute; reflexivity).
  destruct (get_current_snapshot (nd_sm snapped)) as [[meta data]|] eqn:E; [|discriminate El]. injection El as El.
  exists meta, data, (MkLogId 1 1 1). split_and!; [exact E|exact El|discriminate].
Qed.

(** Both happen after the names of the directory were read. *)
Definition torn_run :=
  admin_backup (node (nd_dir before), [calm; calm; calm; write_control (λ _, nd_dir after)]).

(** A backup can be beyond restoring.  The control directory is copied file
    by file.  Here it is listed before the node's first snapshot, and the log
    and its metadata are copied after that snapshot replaced them; the backup
    succeeds, but the node it restores refuses to start, for the snapshot
    that the purged log needs is not in the archive.  Before and after, the
    node itself could have restarted, so that the archive is no state the
    node was ever in. *)
Theorem backup_tears_control :
  reachable ex_text before ∧ reachable ex_text after ∧
  is_ok (start_node ex_text (reopened (nd_dir before))).2 = true ∧
  is_ok (start_node ex_text (reopened (nd_dir after))).2 = true ∧
  ∃ a f', torn_run.2 = Ok a ∧ unpack a target = (f', Ok ()) ∧
    (start_node ex_text (fl_control f')).2 =
      Err (Init "purged Raft logs require a durable snapshot; recover from a healthy peer or verified backup").
Proof.
  split; [apply before_reachable|]. split; [apply after_reachable|]. split; [by vm_compute|]. split; [by vm_compute|].
  assert (match torn_run.2 with Ok a => is_ok (unpack a target).2 | _ => false end = true) as Hok by by vm_compute.
  assert (match torn_run.2 with
          | Ok a => (λ x, ()) <$> (start_node ex_text (fl_control (unpack a target).1)).2
          | _ => Ok () end = Err (Init "purged Raft logs require a durable snapshot; recover from a healthy peer or verified backup"))
    as He by by vm_compute.
  destruct torn_run.2 as [a| |]; [|discriminate Hok..]. destruct (unpack a target) as [f [[]| |]] eqn:Eu; [|discriminate Hok..].
  exists a, f. split_and!; [done|done|]. cbn in He. by destruct (start_node _ _) as [d [x|e|]]; [|injection He as ->|].
Qed.
End TornControl.
