(* ===== verification/Admission.v ===== *)
(** * Upload admission ([crates/kalpakdb/src/admission.rs])

    Every upload, over HTTP or gRPC, and every repair holds a reservation of a
    shared budget of 512 MiB before it buffers anything.  The reservation is a
    [tokio] semaphore permit in an [Arc]: the handler, its blocking disk work
    and its replication clone it, and the permits return with the last clone.
    The semaphore is a parameter with its documented behaviour; the [Arc]s are
    their reference counts.  [admit_upload] of [server.rs] is the middleware
    that takes the reservation around the ingest routes. *)

From S2P Require Import Prelude Core Api.

(** ** The semaphore *)
Class Semaphore (M : Type) := {
  sem_new : Z → M;
  sem_try_acquire : M → Z → option M;
  sem_release : M → Z → M }.
Class SemaphoreLaws (M : Type) `{Semaphore M} := {
  permits : M → Z;
  law_sem_new : ∀ n, permits (sem_new n) = n;
  law_sem_acquire : ∀ m n,
    match sem_try_acquire m n with
    | Some m' => n ≤ permits m ∧ permits m' = permits m - n
    | None => permits m < n
    end;
  law_sem_release : ∀ m n, permits (sem_release m n) = permits m + n }.

Definition MIB : Z := 1024 * 1024.
Definition BUDGET : Z := 512.

Record UploadBudget (M : Type) := MkBudget { ub_available : M; ub_reservation : Z }.
Arguments MkBudget {M}.
Arguments ub_available {M}.
Arguments ub_reservation {M}.

(** The budget with the reservations that are out: how many clones each has. *)
Record Admission (M : Type) := MkAdmission { ad_budget : UploadBudget M; ad_leases : gmap N Z }.
Arguments MkAdmission {M}.
Arguments ad_budget {M}.
Arguments ad_leases {M}.

Section Admission.
Context {M : Type} `{Semaphore M}.

(** [UploadBudget::new]; [usize] is 64 bits wide. *)
Definition budget_new (max_block_bytes : Z) : res string (UploadBudget M) :=
  n ← ok_or (checked_add64 max_block_bytes (64 * MIB) ≫= λ n, checked_add64 n (MIB - 1)) "upload reservation overflow";
  let reservation := n / MIB in
  if BUDGET <? reservation then Err "max block size exceeds shared upload budget (maximum 448 MiB)"
  else Ok (MkBudget (sem_new BUDGET) (Z.max reservation 128)).

(** [try_acquire]: a new [Arc] with one owner. *)
Definition try_acquire (a : Admission M) : option (N * Admission M) :=
  m ← sem_try_acquire (ub_available (ad_budget a)) (ub_reservation (ad_budget a));
  let id := fresh (dom (ad_leases a)) in
  Some (id, MkAdmission (MkBudget m (ub_reservation (ad_budget a))) (<[id := 1]> (ad_leases a))).

(** [Arc::clone], and dropping a clone. *)
Definition clone_lease (id : N) (a : Admission M) : Admission M :=
  MkAdmission (ad_budget a) (alter (λ n, n + 1) id (ad_leases a)).
Definition drop_lease (id : N) (a : Admission M) : Admission M :=
  match ad_leases a !! id with
  | Some n =>
      if n =? 1 then
        MkAdmission (MkBudget (sem_release (ub_available (ad_budget a)) (ub_reservation (ad_budget a)))
                       (ub_reservation (ad_budget a))) (delete id (ad_leases a))
      else MkAdmission (ad_budget a) (<[id := n - 1]> (ad_leases a))
  | None => a
  end.

(** [admit_upload]: the request carries a clone into the handler; [next] is
    the handler, which drops it, or [None] when the 60 s have passed. *)
Definition admit_upload {R} (next : N → Admission M → Admission M * option R) (a : Admission M)
    : Admission M * (Z + R) :=
  match try_acquire a with
  | None => (a, inl SERVICE_UNAVAILABLE)
  | Some (id, a) =>
      match next id (clone_lease id a) with
      | (a, Some response) => (drop_lease id a, inr response)
      | (a, None) => (drop_lease id a, inl 408)
      end
  end.

(** ** Reachable states *)
Inductive adm_step : Admission M → Admission M → Prop :=
| as_acquire a id a' : try_acquire a = Some (id, a') → adm_step a a'
| as_clone a id : is_Some (ad_leases a !! id) → adm_step a (clone_lease id a)
| as_drop a id : is_Some (ad_leases a !! id) → adm_step a (drop_lease id a).
Inductive adm_reach (max_block_bytes : Z) : Admission M → Prop :=
| ar_start b : budget_new max_block_bytes = Ok b → adm_reach max_block_bytes (MkAdmission b ∅)
| ar_step a a' : adm_reach max_block_bytes a → adm_step a a' → adm_reach max_block_bytes a'.

Context `{!SemaphoreLaws M}.

Record adm_inv (max_block_bytes : Z) (a : Admission M) : Prop := {
  ai_total : permits (ub_available (ad_budget a)) + zsize (ad_leases a) * ub_reservation (ad_budget a) = BUDGET;
  ai_free : 0 ≤ permits (ub_available (ad_budget a));
  ai_size : 128 ≤ ub_reservation (ad_budget a) ≤ BUDGET;
  ai_covers : max_block_bytes + 64 * MIB ≤ ub_reservation (ad_budget a) * MIB;
  ai_counts : ∀ id n, ad_leases a !! id = Some n → 1 ≤ n }.

Lemma budget_new_Ok max b :
  budget_new max = Ok b → permits (ub_available b) = BUDGET ∧ 128 ≤ ub_reservation b ≤ BUDGET ∧
    max + 64 * MIB ≤ ub_reservation b * MIB.
Proof.
  unfold budget_new. intros (n & Hn & E)%bind_Ok. apply ok_or_Ok, bind_Some in Hn as (k & Hk & Hn).
  apply checked_add64_Some in Hk as [-> _]. apply checked_add64_Some in Hn as [-> _].
  destruct (Z.ltb_spec BUDGET ((max + 64 * MIB + (MIB - 1)) / MIB)) as [|Hle]; [done|]. simplify_eq. cbn.
  rewrite law_sem_new. unfold BUDGET, MIB in *. split_and!; [done|lia|lia|]. Z.to_euclidean_division_equations. lia.
Qed.
Lemma budget_new_total max :
  0 ≤ max → is_ok (budget_new max) = true ↔ max ≤ 448 * MIB.
Proof.
  intros Hm. unfold budget_new, checked_add64, MIB, BUDGET, u64_max. cbn [mbind].
  destruct (Z.leb_spec (max + 64 * (1024 * 1024)) (2 ^ 64 - 1)); cbn; [|split; [done|lia]].
  destruct (Z.leb_spec (max + 64 * (1024 * 1024) + (1024 * 1024 - 1)) (2 ^ 64 - 1)); cbn; [|split; [done|lia]].
  case_goal; bool_prop; split; try done; intros; Z.to_euclidean_division_equations; lia.
Qed.

Lemma try_acquire_inv max a id a' :
  adm_inv max a → try_acquire a = Some (id, a') → adm_inv max a' ∧ ad_leases a !! id = None ∧ ad_leases a' = <[id := 1]> (ad_leases a).
Proof.
  intros [] E. unfold try_acquire in E. apply bind_Some in E as (m & Em & [= <- <-]).
  pose proof (law_sem_acquire (ub_available (ad_budget a)) (ub_reservation (ad_budget a))) as Hs. rewrite Em in Hs.
  destruct Hs as [Hle Hp]. assert (ad_leases a !! fresh (dom (ad_leases a)) = None) as Hf by (apply not_elem_of_dom, is_fresh).
  split_and!; [|done|done]. constructor; cbn; try done; [rewrite zsize_insert_None by done; lia|lia|].
  intros i n [[_ <-]|[_ Hi]]%lookup_insert_Some; [lia|by eapply ai_counts0].
Qed.
Lemma clone_inv max a id : adm_inv max a → adm_inv max (clone_lease id a).
Proof.
  intros []. constructor; cbn; try done.
  - unfold zsize in *. by rewrite <-size_dom, dom_alter_L, size_dom.
  - intros i n Hi. apply lookup_alter_Some in Hi as [(-> & k & Hk & ->)|[_ Hi]]; [apply ai_counts0 in Hk; lia|by eapply ai_counts0].
Qed.
Lemma drop_inv max a id : adm_inv max a → adm_inv max (drop_lease id a).
Proof.
  intros Ha. pose proof Ha as []. unfold drop_lease. destruct (ad_leases a !! id) as [n|] eqn:En; [|done].
  destruct (Z.eqb_spec n 1) as [->|Hn]; constructor; cbn; try done.
  - rewrite law_sem_release. rewrite (zsize_delete _ _ _ En). lia.
  - rewrite law_sem_release. lia.
  - intros i k [_ Hi]%lookup_delete_Some. by eapply ai_counts0.
  - by rewrite (zsize_insert_Some _ _ _ _ En).
  - intros i k [[_ <-]|[_ Hi]]%lookup_insert_Some; [apply ai_counts0 in En; lia|by eapply ai_counts0].
Qed.
Lemma adm_reach_inv max a : adm_reach max a → adm_inv max a.
Proof.
  induction 1 as [b Hb|a a' _ IH Hst].
  - apply budget_new_Ok in Hb as (? & ? & ?). constructor; cbn; try done; unfold BUDGET in *; [unfold zsize; rewrite map_size_empty; cbn|]; lia.
  - destruct Hst as [a id a' E|a id _|a id _]; [by eapply try_acquire_inv|by apply clone_inv|by apply drop_inv].
Qed.

(** C17. Uploads buffer within a fixed budget.  A budget can be made exactly for
    block sizes up to 448 MiB.  In every state reached by taking, cloning and
    dropping reservations: at most four are out at once; each covers a largest
    block and a completed 64 MiB batch, and together they stay within 512 MiB;
    a new one is refused exactly when the free permits do not suffice, and
    then at least one is out; and when the last clone of each has been
    dropped, the whole budget is free again, so none leaks. *)
Theorem uploads_within_budget max_block_bytes a :
  0 ≤ max_block_bytes →
  (is_ok (budget_new max_block_bytes) = true ↔ max_block_bytes ≤ 448 * MIB) ∧
  (adm_reach max_block_bytes a →
   zsize (ad_leases a) ≤ 4 ∧
   zsize (ad_leases a) * (max_block_bytes + 64 * MIB) ≤ BUDGET * MIB ∧
   (try_acquire a = None ↔ permits (ub_available (ad_budget a)) < ub_reservation (ad_budget a)) ∧
   (try_acquire a = None → 1 ≤ zsize (ad_leases a)) ∧
   (ad_leases a = ∅ → permits (ub_available (ad_budget a)) = BUDGET)).
Proof.
  intros Hm. split; [by apply budget_new_total|]. intros []%adm_reach_inv.
  assert (try_acquire a = None ↔ permits (ub_available (ad_budget a)) < ub_reservation (ad_budget a)) as Hn.
  { unfold try_acquire. pose proof (law_sem_acquire (ub_available (ad_budget a)) (ub_reservation (ad_budget a))) as Hs.
    destruct (sem_try_acquire _ _); cbn; split; try done; lia. }
  assert (0 ≤ zsize (ad_leases a)) by (unfold zsize; lia). unfold BUDGET, MIB in *.
  split_and!; [nia|nia|done|intros ?%Hn; nia|]. intros E. rewrite E in ai_total0. unfold zsize in ai_total0. rewrite map_size_empty in ai_total0. lia.
Qed.

(** The middleware gives back what it took, if the handler drops its clone. *)
Lemma admit_upload_balanced {R} max (next : N → Admission M → Admission M * option R) a :
  adm_inv max a → (∀ id a1, adm_inv max a1 → adm_inv max (next id a1).1) → adm_inv max (admit_upload next a).1.
Proof.
  intros Ha Hn. unfold admit_upload. destruct (try_acquire a) as [[id a1]|] eqn:E; [|done].
  apply (try_acquire_inv max) in E as [Ha1 _]; [|done].
  pose proof (Hn id _ (clone_inv max a1 id Ha1)) as Hi. destruct (next id (clone_lease id a1)) as [a2 [r|]]; by apply drop_inv.
Qed.
End Admission.

(** ** Witness: a counting semaphore *)
Module AdmissionExamples.
#[local] Instance toy_semaphore : Semaphore Z := {|
  sem_new n := n;
  sem_try_acquire m n := if n <=? m then Some (m - n) else None;
  sem_release m n := m + n |}.
#[local] Instance toy_semaphore_laws : SemaphoreLaws Z.
Proof. refine {| permits m := m |}; try done. intros m n. cbn. case_goal; bool_prop; [done|lia]. Defined.

Definition budget : UploadBudget Z := MkBudget 512 320.
(** One upload with two owners. *)
Definition one_upload : Admission Z := MkAdmission (MkBudget 192 320) {[ 0%N := 2 ]}.
Lemma one_upload_reach : adm_reach (256 * MIB) one_upload.
Proof.
  eapply ar_step; [eapply ar_step; [apply (ar_start _ budget); by vm_compute|apply (as_acquire _ 0%N (MkAdmission (MkBudget 192 320) {[ 0%N := 1 ]})); by vm_compute]|].
  replace one_upload with (clone_lease 0%N (MkAdmission (MkBudget 192 320) {[ 0%N := 1 ]})) by by vm_compute.
  apply as_clone. by eexists.
Qed.
Lemma uploads_within_budget_witness :
  try_acquire one_upload = None ∧ zsize (ad_leases one_upload) ≤ 4.
Proof.
  split; [by vm_compute|]. destruct (uploads_within_budget (256 * MIB) one_upload) as [_ Hb]; [by vm_compute|].
  by destruct (Hb one_upload_reach) as (? & _).
Defined.
End AdmissionExamples.
