(* ===== verification/Upload.v ===== *)
(** * Uploads, replication and reads over HTTP ([crates/kalpakdb/src/server.rs])

    The handlers that move blocks: [put_block] and [put_blocks_batch] guard
    the blocks in the journal, record replica intents, write the tiered store
    and collect acknowledgements from peers; [get_block] fetches a missing
    block from a peer; [block_presence] answers a peer's probe.  The state is
    one node: its Raft node, journal, intent log, tiered store and the
    background pushes that were started.  A call to a peer is a parameter that
    maps the whole node to a node, because other handlers run while a request
    waits; the laws of [UploadTheorems] say what they may do.  Each call can
    also be cut by the deadline around it.  The admission lease that is passed
    along only limits memory and is left out, as are the metrics. *)

From stdpp Require Import pretty.
From S2P Require Import Prelude Core Metadata StateMachine ControlPlane Durability Store Tiered Retention Scrub Repair Api.
From Stdlib Require Import Strings.Byte.

(** ** Errors *)

(** [Display for Error]. *)
Definition error_message `{Hex} (e : Error) : string :=
  match e with
  | InvalidId s => "invalid identifier: " +:+ s
  | BlockNotFound id => "block not found: " +:+ block_display id
  | Corrupt id => "block " +:+ block_display id +:+ " failed integrity check: stored bytes do not hash to their id"
  | InvalidAgentKey => "invalid agent public key"
  | BadSignature => "signature verification failed"
  | Io e => io_msg e
  end.
Definition api_of_error `{Hex} (e : Error) : ApiError :=
  MkApiError match e with
             | BlockNotFound _ => NOT_FOUND
             | InvalidId _ => BAD_REQUEST
             | _ => INTERNAL_SERVER_ERROR
             end (error_message e).
Definition api_of_io `{Hex} (e : io_error) : ApiError := api_of_error (Io e).

(** ** Headers *)
Record UploadHeaders := MkHeaders {
  uh_replicas : option (option string);  (** [x-kalpak-replicas], if it is text *)
  uh_retain : bool;                      (** [x-kalpak-retain-replica] is there *)
  uh_internal : bool                     (** [INTERNAL_HEADER] is there *) }.

(** [str::parse::<usize>]. *)
Definition parse_usize (s : string) : option Z :=
  match (match str_bytes s with x2b :: l => l | l => l end) with
  | [] => None
  | digits => n ← decimal 0 digits; if n <=? u64_max then Some n else None
  end.
Definition parse_replicas (value : option (option string)) : res string Z :=
  match value with
  | None => Ok 1
  | Some (Some value) =>
      ok_or (n ← parse_usize value; if between 1 16 n then Some n else None)
        "x-kalpak-replicas must be an integer from 1 to 16"
  | Some None => Err "invalid x-kalpak-replicas encoding"
  end.

(** ** Batch framing *)
Definition bad_batch {A} (m : string) : res ApiError A := Err (MkApiError BAD_REQUEST m).

(** The loop; [rest] is the body from [at] on. *)
Fixpoint batch_payloads (count : nat) (rest : bytes) : res ApiError (list bytes * bytes) :=
  match count with
  | O => Ok ([], rest)
  | S count =>
      if zlen rest <? 4 then bad_batch "truncated block length"
      else
        let len := le_val (take 4 rest) in
        let rest := drop 4 rest in
        if zlen rest <? len then bad_batch "truncated block payload"
        else
          '(payloads, rest') ← batch_payloads count (drop (Z.to_nat len) rest);
          Ok (take (Z.to_nat len) rest :: payloads, rest')
  end.
Definition decode_batch (body : bytes) : res ApiError (list bytes) :=
  if zlen body <? 4 then bad_batch "truncated batch header"
  else
    let count := le_val (take 4 body) in
    if 4096 <? count then bad_batch "batch exceeds 4096 blocks"
    else
      '(payloads, rest) ← batch_payloads (Z.to_nat count) (drop 4 body);
      if bool_decide (rest = []) then Ok payloads else bad_batch "trailing bytes after batch".

(** ** Messages between nodes *)

(** The fields of the JSON replies the code looks at. *)
Record Presence := MkPresence {
  ps_id : option string;
  ps_node_id : option Z;
  ps_generation : option string;
  ps_present : option bool;
  ps_cold_verified : option bool;
  ps_retained : option bool }.
Record Ack := MkAck {
  ak_id : option string;
  ak_ids : option (list string);
  ak_node_id : option Z;
  ak_generation : option string;
  ak_cold_verified : option bool;
  ak_retained : option bool }.
Class PeerJson := {
  presence_of_json : bytes → option Presence;
  ack_of_json : bytes → option Ack }.

(** What an acknowledgement must repeat. *)
Inductive Expected :=
| ExpectId (id : string)
| ExpectIds (ids : list string).

(** A body in chunks; [None] is a read error. *)
Abbreviation chunks := (list (option bytes)).
(** [Cut]: the deadline passed; [Refused]: another status. *)
Inductive Reply (A : Type) :=
| Cut
| NoReply (message : string)
| Refused
| Replied (body : A).
Arguments Cut {A}.
Arguments NoReply {A}.
Arguments Refused {A}.
Arguments Replied {A}.

Class DataPeers (N : Type) := {
  get_presence : string → BlockId → N → N * Reply chunks;
  push_replica : string → string → bytes → N → N * Reply chunks;
  post_requirements : string → list BlockId → Z → N → N * Reply ();
  fetch_block : string → BlockId → N → N * option bytes;
  consensus_deadline : N → bool;                 (** 5 s after the proposal *)
  verification_slot : N → N * option string;     (** [None]: a permit *)
  cluster : N → Membership }.

Fixpoint bounded_body (limit : Z) (acc : bytes) (l : chunks) : option bytes :=
  match l with
  | [] => Some acc
  | None :: _ => None
  | Some chunk :: l =>
      if saturating_sub limit (zlen acc) <? zlen chunk then None else bounded_body limit (acc ++ chunk) l
  end.
Definition bounded_peer_json {A} (parse : bytes → option A) (limit : Z) (reply : Reply chunks) : option A :=
  match reply with
  | Replied l => bounded_body limit [] l ≫= parse
  | _ => None
  end.

(** ** The node *)

(** An answer the node got; the code keeps no such list, the theorems speak of
    it. *)
Inductive Heard :=
| HeardPresence (addr : string) (id : BlockId) (reply : Reply chunks)
| HeardPush (addr path : string) (body : bytes) (reply : Reply chunks)
| HeardProposal (blocks : list BlockId) (replicas : Z) (r : res ControlError ())
| HeardLeader (addr : string) (blocks : list BlockId) (replicas : Z) (reply : Reply ()).

Record NodeState (W S C : Type) := MkNode {
  nd_raft : W;
  nd_ret : RetState;
  nd_ret_dir : Dir;
  nd_log : RepairLog;
  nd_log_dir : Dir;
  nd_store : TieredStore S C;
  nd_pushes : list (string * bytes);
  nd_heard : list Heard }.
Arguments MkNode {W S C}.
Arguments nd_raft {W S C}.
Arguments nd_ret {W S C}.
Arguments nd_ret_dir {W S C}.
Arguments nd_log {W S C}.
Arguments nd_log_dir {W S C}.
Arguments nd_store {W S C}.
Arguments nd_pushes {W S C}.
Arguments nd_heard {W S C}.

Section Node.
Context {W S C : Type} `{Raft W, ColdStore S, Moka C, Blake3, HashOrder, Hex, ReqsJson, PeerJson}.
Abbreviation Node := (NodeState W S C).
Context `{DataPeers Node}.

Abbreviation NM := (ST Node ApiError).
Abbreviation PM := (ST Node string).

Definition set_raft w (s : Node) : Node :=
  MkNode w (nd_ret s) (nd_ret_dir s) (nd_log s) (nd_log_dir s) (nd_store s) (nd_pushes s) (nd_heard s).
Definition set_ret r d (s : Node) : Node :=
  MkNode (nd_raft s) r d (nd_log s) (nd_log_dir s) (nd_store s) (nd_pushes s) (nd_heard s).
Definition set_reqs l d (s : Node) : Node :=
  MkNode (nd_raft s) (nd_ret s) (nd_ret_dir s) l d (nd_store s) (nd_pushes s) (nd_heard s).
Definition set_store t (s : Node) : Node :=
  MkNode (nd_raft s) (nd_ret s) (nd_ret_dir s) (nd_log s) (nd_log_dir s) t (nd_pushes s) (nd_heard s).
Definition hear e (s : Node) : Node :=
  MkNode (nd_raft s) (nd_ret s) (nd_ret_dir s) (nd_log s) (nd_log_dir s) (nd_store s) (nd_pushes s) (nd_heard s ++ [e]).
Definition self_id (s : Node) : Z := node_id (nd_raft s).

(** A call of a component, with its error converted. *)
Definition on_ret {E A} (f : io_error → E) (m : ST (RetState * Dir) io_error A) : ST Node E A := λ s,
  let '((r, d), x) := m (nd_ret s, nd_ret_dir s) in (set_ret r d s, map_err f x).
Definition on_log {E A} (f : io_error → E) (m : ST (RepairLog * Dir) io_error A) : ST Node E A := λ s,
  let '((l, d), x) := m (nd_log s, nd_log_dir s) in (set_reqs l d s, map_err f x).
Definition on_store {E A} (f : Error → E) (m : ST (TieredStore S C) Error A) : ST Node E A := λ s,
  let (t, x) := m (nd_store s) in (set_store t s, map_err f x).

(** The scope of a [_write_guard]: dropped on every way out. *)
Definition in_scope {E A} (k : ST Node E A) (g : gset BlockId) : ST Node E A := λ s,
  let (s, r) := k s in
  match drop_guard g (nd_ret s) with
  | Ok ret => (set_ret ret (nd_ret_dir s) s, r)
  | _ => (s, Panic)
  end.
Definition guarded {E A} (f : io_error → E) (ids : list BlockId) (k : ST Node E A) : ST Node E A :=
  on_ret f (protect ids) ≫= in_scope k.

(** ** Replication *)
Definition DEADLINE : string := "replica acknowledgement deadline exceeded; partial writes may exist".
(** A request under the 30 s deadline. *)
Definition call {A} (f : Node → Node * Reply A) (e : Reply A → Heard) : PM (Reply A) := λ s,
  match f s with
  | (s, Cut) => (s, Err DEADLINE)
  | (s, reply) => (hear (e reply) s, Ok reply)
  end.

Definition presence_matches (node : Z) (id : BlockId) (v : Presence) (generation : string) : bool :=
  bool_decide (ps_node_id v = Some node) && bool_decide (ps_id v = Some (block_display id))
  && valid_generation generation.
Definition presence_confirmed (v : Presence) : bool :=
  bool_decide (ps_present v = Some true) && bool_decide (ps_cold_verified v = Some true)
  && bool_decide (ps_retained v = Some true).

(** [.ok()?] on an observation: an error ends the probe without an answer. *)
Definition if_observed {A} (node : Z) (generation : string) (k : PM (option A)) : PM (option A) := λ s,
  match on_log io_msg (observe [] node (Some generation)) s with
  | (s, Ok _) => k s
  | (s, Err _) => (s, Ok None)
  | (s, Panic) => (s, Panic)
  end.
Definition other_incarnation (incarnation : option string) (generation : string) : bool :=
  match incarnation with Some old => negb (bool_decide (old = generation)) | None => false end.

Fixpoint probe_peer (node : Z) (addr : string) (ids : list BlockId) (incarnation : option string)
    : PM (option string) :=
  match ids with
  | [] => mret incarnation
  | id :: ids =>
      call (get_presence addr id) (HeardPresence addr id) ≫= λ reply,
      match bounded_peer_json presence_of_json 2048 reply with
      | None => mret None
      | Some v =>
          match ps_generation v with
          | None => mret None
          | Some generation =>
              if negb (presence_matches node id v generation) then mret None
              else if_observed node generation
                (if negb (presence_confirmed v) then mret None
                 else if other_incarnation incarnation generation then mret None
                 else probe_peer node addr ids (Some generation))
          end
      end
  end.

Definition ack_accepted (node : Z) (expected : Expected) (v : Ack) : bool :=
  bool_decide (ak_node_id v = Some node) && bool_decide (ak_retained v = Some true)
  && bool_decide (ak_cold_verified v = Some true)
  && match ak_generation v with Some g => valid_generation g | None => false end
  && match expected with
     | ExpectId id => bool_decide (ak_id v = Some id)
     | ExpectIds ids => bool_decide (ak_ids v = Some ids)
     end.

(** The peers in turn, each endpoint once. *)
Fixpoint ack_peers (path : string) (body : bytes) (expected : Expected) (ids : list BlockId) (required : Z)
    (peers : list (Z * string)) (acknowledged : Z) (endpoints : gset string) : PM () :=
  match peers with
  | [] => st_throw ("need " +:+ pretty required +:+ " replicas, received " +:+ pretty acknowledged
      +:+ " durable acknowledgements; partial writes may exist")
  | (node, addr) :: peers =>
      let next := ack_peers path body expected ids required peers in
      let seen := endpoints ∪ {[addr]} in
      let count := if required <=? acknowledged + 1 then mret () else next (acknowledged + 1) seen in
      if bool_decide (addr ∈ endpoints) then next acknowledged endpoints
      else
        probe_peer node addr ids None ≫= λ found,
        match found with
        | Some generation => on_log io_msg (observe ids node (Some generation)) ≫= λ _, count
        | None =>
            on_log io_msg (observe ids node None) ≫= λ _,
            call (push_replica addr path body) (HeardPush addr path body) ≫= λ reply,
            match bounded_peer_json ack_of_json (512 * 1024) reply with
            | Some v =>
                if ack_accepted node expected v then
                  on_log io_msg (observe ids node (ak_generation v)) ≫= λ _, count
                else next acknowledged seen
            | None => next acknowledged seen
            end
        end
  end.

Definition commit_requirements (blocks : list BlockId) (replicas : Z) : PM () := λ s,
  let (w, r) := require_replicas (nd_raft s) blocks replicas in
  let s := hear (HeardProposal blocks replicas r) (set_raft w s) in
  if consensus_deadline s then (s, Err "replica requirement consensus deadline exceeded")
  else
    match r with
    | Ok _ => (s, Ok ())
    | Err (NotLeader (Some addr)) =>
        match post_requirements addr blocks replicas s with
        | (s, Cut) => (s, Err "replica requirement consensus deadline exceeded")
        | (s, NoReply e) => (s, Err e)
        | (s, Refused) => (s, Err "leader rejected replica requirements")
        | (s, Replied u) => (hear (HeardLeader addr blocks replicas (Replied u)) s, Ok ())
        end
    | Err e => (s, Err (control_message e))
    | Panic => (s, Panic)
    end.

Definition expected_ids (expected : Expected) : res string (list BlockId) :=
  match expected with
  | ExpectId id => b ← map_err (λ _, "invalid replica block id") (block_from_str id); Ok [b]
  | ExpectIds ids => ok_or (mapM block_deserialize ids) "invalid replica block ids"
  end.
Fixpoint verify_all_cold (ids : list BlockId) : ST (TieredStore S C) Error () :=
  match ids with
  | [] => mret ()
  | id :: ids => verify_cold id ≫= λ _, verify_all_cold ids
  end.

(** Known holders first, then by node id. *)
Definition peer_key_le (known : list Z) (p q : Z * string) : Prop :=
  match bool_decide (p.1 ∈ known), bool_decide (q.1 ∈ known) with
  | true, false => True
  | false, true => False
  | _, _ => p.1 ≤ q.1
  end.
#[export] Instance peer_key_le_dec known p q : Decision (peer_key_le known p q).
Proof. unfold peer_key_le. repeat case_bool_decide; apply _. Defined.
Definition known_holders (ids : list BlockId) (l : RepairLog) : list Z :=
  match ids with id :: _ => known_nodes l id | [] => [] end.

Definition observe_self (ids : list BlockId) : PM () := λ s,
  on_log io_msg (observe ids (self_id s) (Some (rl_generation (nd_log s)))) s.
(** Enough peers, known holders first. *)
Definition ask_peers (path : string) (body : bytes) (expected : Expected) (ids : list BlockId) (required : Z) : PM () := λ s,
  let peers := merge_sort (peer_key_le (known_holders ids (nd_log s))) (peer_nodes (self_id s) (cluster s)) in
  if zlen peers + 1 <? required then
    (s, Err ("need " +:+ pretty required +:+ " replicas, membership has only " +:+ pretty (zlen peers + 1)
       +:+ " nodes; local write may already exist"))
  else ack_peers path body expected ids required peers 1 ∅ s.

Definition acknowledge_replicas (path : string) (body : bytes) (expected : Expected) (required : Z) : PM () :=
  if required =? 1 then mret ()
  else
    st_lift (expected_ids expected) ≫= λ ids,
    commit_requirements ids required ≫= λ _,
    on_store error_message (verify_all_cold ids) ≫= λ _,
    observe_self ids ≫= λ _,
    ask_peers path body expected ids required.

(** ** Handlers *)
Definition unavailable (m : string) : ApiError := MkApiError SERVICE_UNAVAILABLE m.
Definition lift_err {E A} (f : string → E) (m : PM A) : ST Node E A := λ s, let (s, r) := m s in (s, map_err f r).
Definition durably (replicas : Z) (h : UploadHeaders) : bool := (1 <? replicas) || uh_retain h.

(** The background push to every peer. *)
Definition start_push (path : string) (body : bytes) : NM () :=
  st_modify (λ s, MkNode (nd_raft s) (nd_ret s) (nd_ret_dir s) (nd_log s) (nd_log_dir s) (nd_store s)
                    (nd_pushes s ++ [(path, body)]) (nd_heard s)).
(** After the write: acknowledgements or a background push. *)
Definition replicate (path : string) (body : bytes) (expected : Expected) (replicas : Z) (h : UploadHeaders) : NM () :=
  (if 1 <? replicas then lift_err unavailable (acknowledge_replicas path body expected replicas) else mret ()) ≫= λ _,
  if (replicas =? 1) && negb (uh_internal h) then start_push path body else mret ().
Definition ack_reply (expected : Expected) (replicas : Z) (h : UploadHeaders) : NM Ack := λ s,
  (s, Ok (MkAck (match expected with ExpectId id => Some id | ExpectIds _ => None end)
            (match expected with ExpectId _ => None | ExpectIds ids => Some ids end)
            (Some (self_id s)) (Some (rl_generation (nd_log s)))
            (Some (durably replicas h)) (Some (durably replicas h)))).

Definition put_block (h : UploadHeaders) (body : bytes) : NM Ack :=
  st_lift (map_err (MkApiError BAD_REQUEST) (parse_replicas (uh_replicas h))) ≫= λ replicas,
  guarded api_of_io [block_of body] (
    (if durably replicas h then on_log api_of_io (record_reqs [block_of body] replicas) else mret ()) ≫= λ _,
    on_store api_of_error
      (if durably replicas h then tiered_repair (block_of body) body else tiered_put body) ≫= λ id,
    replicate "/v1/blocks" body (ExpectId (block_display id)) replicas h ≫= λ _,
    ack_reply (ExpectId (block_display id)) replicas h).

Fixpoint repair_all (l : list (BlockId * bytes)) : ST (TieredStore S C) Error () :=
  match l with
  | [] => mret ()
  | (id, payload) :: l => tiered_repair id payload ≫= λ _, repair_all l
  end.

Definition put_blocks_batch (h : UploadHeaders) (body : bytes) : NM Ack :=
  st_lift (map_err (MkApiError BAD_REQUEST) (parse_replicas (uh_replicas h))) ≫= λ replicas,
  st_lift (decode_batch body) ≫= λ payloads,
  let guard := block_of <$> payloads in
  guarded api_of_io guard (
    (if durably replicas h then on_log api_of_io (record_reqs guard replicas) else mret ()) ≫= λ _,
    on_store api_of_error (tiered_put_many payloads) ≫= λ ids,
    (if durably replicas h then on_store api_of_error (repair_all (zip ids payloads)) else mret ()) ≫= λ _,
    replicate "/v1/blocks/batch" body (ExpectIds (block_display <$> ids)) replicas h ≫= λ _,
    ack_reply (ExpectIds (block_display <$> ids)) replicas h).

(** The peers in turn, until one has the bytes. *)
Fixpoint fetch_from (id : BlockId) (peers : list string) : NM bytes :=
  match peers with
  | [] => st_throw (api_of_error (BlockNotFound id))
  | peer :: peers => λ s,
      match fetch_block peer id s with
      | (s, Some bytes_) =>
          if bool_decide (block_of bytes_ = id) then
            guarded api_of_io [id] (on_store api_of_error (tiered_put bytes_) ≫= λ _, mret bytes_) s
          else fetch_from id peers s
      | (s, None) => fetch_from id peers s
      end
  end.
Definition read_block (h : UploadHeaders) (id : BlockId) : NM bytes := λ s,
  match on_store (λ e, e) (tiered_get id) s with
  | (s, Ok payload) => (s, Ok payload)
  | (s, Err e) =>
      match e with
      | BlockNotFound _ =>
          if uh_internal h then (s, Err (api_of_error e))
          else fetch_from id (peer_addrs (self_id s) (cluster s)) s
      | _ => (s, Err (api_of_error e))
      end
  | (s, Panic) => (s, Panic)
  end.

Definition get_block (h : UploadHeaders) (id : string) : NM bytes :=
  st_lift (map_err api_of_error (block_from_str id)) ≫= read_block h.

Definition presence_of (id : string) (block : BlockId) : NM Presence := λ s,
  match verification_slot s with
  | (s, Some busy) => (s, Err (unavailable busy))
  | (s, None) =>
      let (t, r) := verify_cold block (nd_store s) in
      let s := set_store t s in
      let verified := is_ok r in
      match r with
      | Panic => (s, Err (MkApiError INTERNAL_SERVER_ERROR "verification task panicked"))
      | _ => (s, Ok (MkPresence (Some id) (Some (self_id s)) (Some (rl_generation (nd_log s)))
                       (Some verified) (Some verified) (Some (retained (nd_log s) block))))
      end
  end.

Definition block_presence (id : string) : NM Presence :=
  st_lift (map_err api_of_error (block_from_str id)) ≫= presence_of id.

(** The handler of [/v1/cluster/replica-requirements]. *)
Definition require_replicas_handler (blocks : list BlockId) (replicas : Z) : NM () := λ s,
  let (w, r) := require_replicas (nd_raft s) blocks replicas in
  (set_raft w s, map_err api_of_control r).

End Node.
