(* ===== verification/Reclamation.v ===== *)
(** * The reclamation dry run ([crates/kalpakdb/src/reclamation.rs] and its
      handlers in [server.rs])

    An observation collects what one node knows about a block: the metadata
    evidence, the upload guard, the storage identity.  Validation compares it
    with the fences of an earlier observation and lists what speaks against
    releasing the block.  It never authorizes a release; what is proved is that
    its answer can be trusted: a clear first observation and matching fences
    later mean that nothing touched the block in between, neither in the
    replicated metadata nor in the journal of local writes.  The JSON values
    are records with the same fields. *)

From S2P Require Import Prelude Core Signing Metadata Leases StateMachine StateInvariant ControlPlane Fences RefCounts Durability Segment Store Tiered Retention RetentionTheorems Scrub Repair Api Upload Lifecycle.
From Stdlib Require Import Strings.Byte.

Definition GC_REASON : string := "compaction blocked: upload retention requires a coordinated GC watermark".

Record ExpectedFences := MkExpected {
  xf_storage_generation : string;
  xf_local_generation : Z;
  xf_block_reference_fence : Z }.
Record Observation := MkObservation {
  ob_metadata : Evidence;
  ob_guard : GuardEvidence;
  ob_generation : string;
  ob_present : bool }.
(** The fields of the report that depend on the input; [mode] is "dry_run" and
    [authoritative], [reclaimable], [release_authorized] and [gc_enabled] are
    always false. *)
Record Validation := MkValidation { va_fences_match : bool; va_blockers : list string }.

(** ** Validation *)
Definition when (b : bool) (reason : string) : list string := if b then [reason] else [].

(** The three fences: a missing value never matches. *)
Definition fence_blockers (expected : ExpectedFences) (o : Observation) : list string :=
  when (negb (bool_decide (ob_generation o = xf_storage_generation expected))) "storage_generation_mismatch"
  ++ when (negb (bool_decide (ge_local_generation (ob_guard o) = Some (xf_local_generation expected))))
       "local_generation_unknown_or_changed"
  ++ when (negb (bool_decide (ev_fence (ob_metadata o) = Some (xf_block_reference_fence expected))))
       "reference_fence_unknown_or_changed".
Definition local_blockers (o : Observation) : list string :=
  let g := ob_guard o in
  when (negb (ge_guarded g)) "local_guard_missing"
  ++ when (ge_write_failed g) "journal_health_unknown_or_failed"
  ++ when (negb (ge_active_local_writes g =? 0)) "active_local_writes_present_or_unknown"
  ++ when (ge_local_release_check g) "local_release_check_present_or_unknown".
Definition metadata_blockers (o : Observation) : list string :=
  let m := ob_metadata o in
  when (negb (ev_references m =? 0)) "binding_references_present_or_unknown"
  ++ when (negb (ev_pending m =? 0)) "pending_leases_present_or_unknown"
  ++ when (negb (ev_replicas m =? 0)) "replica_requirement_present_or_unknown".
Definition STANDING_BLOCKERS : list string :=
  ["in_flight_writes_not_coordinated"; "legacy_provenance_not_verified"; "cluster_gc_watermark_missing";
   "linearizable_release_validation_missing"; "restore_rollback_not_fenced"; "physical_gc_disabled"].

Definition validate_fences (expected : ExpectedFences) (o : Observation) : Validation :=
  MkValidation (bool_decide (fence_blockers expected o = []))
    (fence_blockers expected o ++ local_blockers o ++ metadata_blockers o ++ STANDING_BLOCKERS).

(** ** The handlers *)
Section Handlers.
Context {W S C : Type} `{Raft W, ColdStore S, Blake3, HashOrder, Hex}.
Abbreviation Node := (NodeState W S C).

Definition reclamation_observation (id : BlockId) (s : Node) : Observation :=
  MkObservation (reclamation_evidence (sm_state (nd_raft s)) id) (evidence id (nd_ret s))
    (rl_generation (nd_log s)) (tiered_contains (nd_store s) id).

(** The credentials of a read: the [Authorization] header, if it is text, and
    the [token] parameter. *)
Definition BEARER : bytes := str_bytes "Bearer ".
Definition check_read_token (read_token : option string) (authorization query_token : option string) : res ApiError () :=
  match read_token with
  | None => Ok ()
  | Some expected =>
      let bearer := authorization ≫= λ v, String.string_of_list_byte <$> strip_prefix BEARER (str_bytes v) in
      let presented := match bearer with Some t => Some t | None => query_token end in
      if bool_decide (presented = Some expected) then Ok ()
      else Err (MkApiError UNAUTHORIZED "this node requires a read token: Authorization: Bearer <token>")
  end.

Definition invalid_block_id (id : string) : res ApiError BlockId :=
  map_err (λ _, MkApiError BAD_REQUEST "invalid block ID") (block_from_str id).
Definition reclamation_plan (read_token authorization : option string) (id : string) (s : Node) : res ApiError Observation :=
  _ ← check_read_token read_token authorization None;
  b ← invalid_block_id id;
  Ok (reclamation_observation b s).
(** [query] is what the query string parsed to. *)
Definition reclamation_validate (read_token authorization : option string) (id : string) (query : option ExpectedFences)
    (s : Node) : res ApiError Validation :=
  _ ← check_read_token read_token authorization None;
  b ← invalid_block_id id;
  expected ← ok_or query
    (MkApiError BAD_REQUEST "expected storage_generation, local_generation and block_reference_fence");
  Ok (validate_fences expected (reclamation_observation b s)).
Definition admin_compact : res ApiError () := Err (MkApiError CONFLICT GC_REASON).
End Handlers.

(** ** What the report says *)
Lemma when_nil b reason : when b reason = [] ↔ b = false.
Proof. by destruct b. Qed.
Lemma fence_blockers_nil expected o :
  fence_blockers expected o = [] ↔
  ob_generation o = xf_storage_generation expected ∧
  ge_local_generation (ob_guard o) = Some (xf_local_generation expected) ∧
  ev_fence (ob_metadata o) = Some (xf_block_reference_fence expected).
Proof.
  unfold fence_blockers. rewrite !app_nil, !when_nil, !negb_false_iff, !bool_decide_eq_true. done.
Qed.
(** Nothing is observed that holds the block. *)
Definition clear (o : Observation) : Prop :=
  ge_guarded (ob_guard o) = true ∧ ge_write_failed (ob_guard o) = false ∧
  ge_active_local_writes (ob_guard o) = 0 ∧ ge_local_release_check (ob_guard o) = false ∧
  ev_references (ob_metadata o) = 0 ∧ ev_pending (ob_metadata o) = 0 ∧ ev_replicas (ob_metadata o) = 0.
Lemma blockers_nil o : local_blockers o ++ metadata_blockers o = [] ↔ clear o.
Proof.
  unfold local_blockers, metadata_blockers, clear. rewrite !app_nil, !when_nil, !negb_false_iff, !Z.eqb_eq. naive_solver.
Qed.
Lemma app_standing l : l ++ STANDING_BLOCKERS = STANDING_BLOCKERS ↔ l = [].
Proof.
  split; [|by intros ->]. intros E%(f_equal length). rewrite length_app in E. destruct l; [done|cbn in E; lia].
Qed.
Lemma validate_clear expected o :
  va_blockers (validate_fences expected o) = STANDING_BLOCKERS ↔ va_fences_match (validate_fences expected o) = true ∧ clear o.
Proof.
  cbn. rewrite app_assoc, app_assoc, app_standing, <-app_assoc, app_nil, blockers_nil, bool_decide_eq_true. done.
Qed.

(** ** Between two observations *)
Section Between.
Context `{Blake3, HashOrderLaws, BindingKey}.

(** Any run of the journal, with the batches of the write guards granted. *)
Inductive sys_run : System → list (list BlockId) → System → Prop :=
| run_done sy : sys_run sy [] sy
| run_grant s d gs held ids s' d' g granted sy :
    protect ids (s, d) = ((s', d'), Ok g) →
    sys_run (MkSys s' d' (g :: gs) held) granted sy → sys_run (MkSys s d gs held) (ids :: granted) sy
| run_other sy1 sy2 granted sy :
    sys_step sy1 sy2 → sys_run sy2 granted sy → sys_run sy1 granted sy.

Lemma ret_ok_bound s d id g : ret_ok s d → rt_ids s !! id = Some g → 0 < g ≤ rt_sequence s.
Proof.
  intros (js & torn & js' & _ & (Hi & Hs & _) & _) Hg. rewrite Hi in Hg. rewrite Hs. by eapply generation_bound.
Qed.
(** Generations never go back. *)
Lemma protect_mono ids s d s' d' r id g :
  ret_ok s d → protect ids (s, d) = ((s', d'), r) → rt_ids s !! id = Some g →
  ∃ g', rt_ids s' !! id = Some g' ∧ g ≤ g' ∧ (is_ok r = true → id ∈ ids → g < g').
Proof.
  intros Hok E Hg. destruct (protect_spec _ _ _ _ _ _ Hok E) as [Hp _]. pose proof (ret_ok_bound _ _ _ _ Hok Hg).
  destruct r as [x|e|]; [| |done].
  - destruct Hp as (_ & _ & _ & _ & _ & _ & -> & Hseq). rewrite guard_all_lookup. case_decide as Hd.
    + rewrite batch_of_elem in Hd. rewrite Hseq by (intros ->; by apply elem_of_nil in Hd). eexists. split; [done|]. lia.
    + exists g. split_and!; [done|lia|]. intros _ Hi. by rewrite batch_of_elem in Hd.
  - exists g. split_and!; [by destruct Hp as [[-> _]|[-> _]]|lia|done].
Qed.
Lemma sys_step_mono sy sy' id g :
  sys_inv sy → sys_step sy sy' → rt_ids (sy_ret sy) !! id = Some g →
  ∃ g', rt_ids (sy_ret sy') !! id = Some g' ∧ g ≤ g'.
Proof.
  intros Hi Hst Hg. pose proof (si_ret _ Hi) as Hok.
  destruct Hst as [s d gs held ids s' d' x E|s d gs held ids s' d' e E|s d gs1 x gs2 held s' E
    |s d gs held i ex s' E|s d gs held i Hid|s d gs held s' d' E|s d gs held plan]; cbn in *.
  1,2: destruct (protect_mono _ _ _ _ _ _ _ _ Hok E Hg) as (g' & ? & ? & _); by exists g'.
  - unfold drop_guard in E. apply bind_Ok in E as (m & _ & [= <-]). exists g. split; [done|lia].
  - apply try_release_check_spec in E as (-> & _). exists g. split; [done|lia].
  - exists g. split; [done|lia].
  - destruct (ret_ok_reopens _ _ Hok) as (d1 & s1 & E1 & _ & Hm & _). rewrite E in E1. simplify_eq. by apply Hm.
  - exists g. split; [done|lia].
Qed.
Lemma sys_run_mono sy granted sy' id g :
  sys_inv sy → sys_run sy granted sy' → rt_ids (sy_ret sy) !! id = Some g →
  ∃ g', rt_ids (sy_ret sy') !! id = Some g' ∧ g ≤ g' ∧ (id ∈ concat granted → g < g').
Proof.
  intros Hi Hr. revert g Hi. induction Hr as [sy|s d gs held ids s' d' x granted sy E Hr IH|sy1 sy2 granted sy Hst Hr IH]; intros g Hi Hg.
  - exists g. split_and!; [done|lia|]. by intros ?%elem_of_nil.
  - pose proof (sys_step_inv _ _ Hi (ss_protect _ _ _ _ _ _ _ _ E)) as Hi'.
    destruct (protect_mono _ _ _ _ _ _ _ _ (si_ret _ Hi) E Hg) as (g1 & Hg1 & Hle & Hlt).
    destruct (IH g1 Hi' Hg1) as (g2 & Hg2 & Hle2 & Hlt2). exists g2. split_and!; [done|lia|].
    cbn [concat]. intros [Hin|Hin]%elem_of_app; [specialize (Hlt eq_refl Hin); lia|specialize (Hlt2 Hin); lia].
  - destruct (sys_step_mono _ _ _ _ Hi Hst Hg) as (g1 & Hg1 & Hle).
    destruct (IH g1 (sys_step_inv _ _ Hi Hst) Hg1) as (g2 & Hg2 & ? & Hlt2). exists g2. split_and!; [done|lia|].
    intros Hin. specialize (Hlt2 Hin). lia.
Qed.

(** What two observations of one node see: metadata and journal then and now. *)
Definition observed (m : MetadataState) (s : RetState) (generation : string) (present : bool) (id : BlockId) : Observation :=
  MkObservation (reclamation_evidence m id) (evidence id s) generation present.

(** C16. Matching fences mean that nothing happened.  Take a first observation
    whose report lists only the six standing blockers, and let the log and the
    journal go on in any way, with writes granted and refused, faults and
    restarts.  If validating a second observation against the fences of the
    first reports that they match, then between the two no write guard was
    granted for the block, and still no binding contains it, its reference
    count and replica requirement are zero and no pending lease covers it.
    A report lists no more than the standing blockers exactly if the fences
    match and nothing observed holds the block. *)
Theorem matching_fences_mean_untouched m es sy granted sy' generation present generation' present' expected id :
  inv m → refs_exact m → log_strict (applied_index m) es → sys_inv sy → sys_run sy granted sy' →
  let o1 := observed m (sy_ret sy) generation present id in
  let o2 := observed (apply m es).1 (sy_ret sy') generation' present' id in
  va_blockers (validate_fences expected o1) = STANDING_BLOCKERS →
  va_fences_match (validate_fences expected o2) = true →
  id ∉ concat granted ∧ generation' = generation ∧
  (∀ k, ¬ bound_at (apply m es).1 k id) ∧
  ev_references (ob_metadata o2) = 0 ∧ ev_replicas (ob_metadata o2) = 0 ∧ ev_pending (ob_metadata o2) = 0 ∧
  (va_blockers (validate_fences expected o2) = STANDING_BLOCKERS ↔ clear o2).
Proof.
  intros Hm Hx Hes Hs Hr o1 o2 Hv1%validate_clear Hv2. destruct Hv1 as [Hf1 Hc].
  assert (va_blockers (validate_fences expected o2) = STANDING_BLOCKERS ↔ clear o2) as Hiff by (rewrite validate_clear; tauto).
  cbn in Hf1, Hv2. apply bool_decide_eq_true, fence_blockers_nil in Hf1 as (G1 & L1 & F1).
  apply bool_decide_eq_true, fence_blockers_nil in Hv2 as (G2 & L2 & F2). destruct Hc as (_ & _ & _ & _ & C1 & C2 & C3).
  cbn in G1, G2, L1, L2, F1, F2, C1, C2, C3.
  pose proof (apply_unaffected m es id Hm Hes ltac:(congruence)) as Hu. pose proof (pending_anti _ _ _ Hu) as Hp.
  assert (0 ≤ ev_pending (reclamation_evidence (apply m es).1 id)).
  { cbn. unfold count_status. rewrite map_count_size. apply zsize_nonneg. }
  destruct Hu as [R1 R2 R3 _ _ _]. split_and!; [|congruence| |cbn; by rewrite R1|cbn; by rewrite R2|cbn in *; lia|done].
  - intros Hin. destruct (sys_run_mono _ _ _ _ _ Hs Hr L1) as (g' & Hg' & _ & Hlt). rewrite L2 in Hg'. simplify_eq.
    specialize (Hlt Hin). lia.
  - intros k Hb. rewrite R3 in Hb. pose proof (Hx id) as He. pose proof (ref_count_nonneg (bindings m) id).
    assert (0 < ref_count (bindings m) id) as Hpos by (apply ref_count_bound; destruct Hb as (r & ? & ?); eauto).
    rewrite He in C1. destruct (Z.eqb_spec (ref_count (bindings m) id) 0); cbn in C1; lia.
Qed.
End Between.

(** ** Witnesses *)
Module ReclamationExamples.
Import RetentionExamples.
#[local] Existing Instance toy_blake3.
#[local] Existing Instance toy_order.
#[local] Existing Instance toy_order_laws.
#[local] Existing Instance toy_binding_key.

(** The block is bound and then released by a new binding of the same key;
    its upload ended, and then another block is written. *)
Definition release_log : list Entry :=
  [ex_entry 1 (BindPrefix (agt 1) (key0 1) [toy_block] None);
   ex_entry 2 (BindPrefix (agt 1) (key0 1) [blk 4] None)].
Definition later_log : list Entry := [ex_entry 3 (BindPrefix (agt 1) (key0 2) [blk 9] None)].
Definition released : MetadataState := (apply default_state release_log).1.
Definition ended : RetState :=
  match drop_guard (list_to_set [toy_block]) (sy_ret granted_sys) with Ok s => s | _ => sy_ret granted_sys end.
Definition ended_sys : System := MkSys ended (sy_dir granted_sys) [] ∅.
Definition next_write := protect [blk 9] (ended, sy_dir granted_sys).
Definition next_sys : System := MkSys (fst (fst next_write)) (snd (fst next_write)) [list_to_set [blk 9]] ∅.
Definition first_fences : ExpectedFences := MkExpected "g" 1 2.

Lemma released_ok : inv released ∧ refs_exact released.
Proof.
  split.
  - unfold released. apply apply_inv; [apply default_inv|cbn; lia].
  - apply apply_exact; [apply default_inv|cbn; lia|by intros ?|vm_compute; discriminate].
Qed.

Lemma grant_run s d gs held ids (r := protect ids (s, d)) :
  ret_ok s d → is_ok (snd r) = true →
  sys_run (MkSys s d gs held) [ids] (MkSys (fst (fst r)) (snd (fst r)) (list_to_set ids :: gs) held).
Proof.
  intros Hok Hn. destruct r as [[s' d'] [g| |]] eqn:E; [|discriminate Hn..]. cbn.
  destruct (protect_spec _ _ _ _ _ _ Hok E) as [(-> & _) _]. eapply run_grant; [exact E|constructor].
Qed.
Lemma ended_run : sys_reach ended_sys ∧ sys_run ended_sys [[blk 9]] next_sys.
Proof.
  assert (is_ok (drop_guard (list_to_set [toy_block]) (sy_ret granted_sys)) = true) as Hd by by vm_compute.
  assert (is_ok (snd next_write) = true) as Hn by by vm_compute.
  assert (sys_reach ended_sys) as Hr.
  { eapply sr_step; [exact granted_reach|]. unfold ended_sys, ended.
    destruct (drop_guard _ _) as [s| |] eqn:E; [|discriminate Hd..]. exact (ss_drop _ _ [] (list_to_set [toy_block]) [] _ _ E). }
  split; [exact Hr|]. exact (grant_run _ _ [] ∅ _ (si_ret _ (sys_reach_inv _ Hr)) Hn).
Qed.

Lemma matching_fences_mean_untouched_witness :
  va_fences_match (validate_fences first_fences
    (observed (apply released later_log).1 (sy_ret next_sys) "g" true toy_block)) = true ∧
  toy_block ∉ concat [[blk 9]].
Proof.
  assert (va_blockers (validate_fences first_fences (observed released (sy_ret ended_sys) "g" true toy_block))
    = STANDING_BLOCKERS) as H1 by by vm_compute.
  assert (va_fences_match (validate_fences first_fences
    (observed (apply released later_log).1 (sy_ret next_sys) "g" true toy_block)) = true) as H2 by by vm_compute.
  split; [exact H2|]. destruct released_ok as [Hi Hx]. destruct ended_run as [Hr Hrun].
  refine (proj1 (matching_fences_mean_untouched released later_log ended_sys [[blk 9]] next_sys "g" true "g" true
    first_fences toy_block Hi Hx _ (sys_reach_inv _ Hr) Hrun H1 H2)).
  split; [vm_compute; reflexivity|exact I].
Defined.
End ReclamationExamples.
