(* ===== verification/UploadLogic.v ===== *)
(** * Reasoning about the upload handlers

    The batch decoder; the calls of the tiered store as steps that only add;
    and a small program logic for code on a node: [runs] says that a piece of
    [Upload] keeps the node consistent, only lets it grow and establishes its
    result, also when other handlers run during a call to a peer.  Every
    function of [Upload] has its rule here. *)

From S2P Require Import Prelude Core Metadata StateMachine ControlPlane Durability Segment Store Tiered Retention RetentionTheorems Scrub Repair Api Upload.
From Stdlib Require Import Strings.Byte.

(** ** Framing *)
Definition frame (p : bytes) : bytes := le_bytes 4 (zlen p) ++ p.
Definition encode_batch (ps : list bytes) : bytes := le_bytes 4 (zlen ps) ++ concat (frame <$> ps).
Definition framable (p : bytes) : Prop := zlen p < 2 ^ 32.

Lemma take_le4 (l : bytes) : 4 ≤ zlen l → le_bytes 4 (le_val (take 4 l)) = take 4 l.
Proof.
  intros Hl. rewrite <-(le_bytes_val (take 4 l)) at 2. f_equal. rewrite length_take. unfold zlen in Hl. lia.
Qed.
Lemma le4_range (l : bytes) : 0 ≤ le_val (take 4 l) < 2 ^ 32.
Proof.
  pose proof (le_val_range (take 4 l)) as Hr. split; [lia|]. eapply Z.lt_le_trans; [apply Hr|].
  apply Z.pow_le_mono_r; [lia|]. rewrite zlen_take. lia.
Qed.

Lemma batch_payloads_encode ps rest :
  Forall framable ps → batch_payloads (length ps) (concat (frame <$> ps) ++ rest) = Ok (ps, rest).
Proof.
  induction 1 as [|p ps Hp Hps IH]; [done|]. cbn [length fmap list_fmap concat batch_payloads].
  change (frame p) with (le_bytes 4 (zlen p) ++ p). rewrite <-!app_assoc. pose proof (zlen_nonneg p).
  rewrite (proj2 (Z.ltb_ge _ _)) by zl.
  rewrite take_app_length' by by rewrite length_le_bytes.
  rewrite drop_app_length' by by rewrite length_le_bytes.
  unfold framable in Hp. rewrite le_val_bytes_small by (change (8 * Z.of_nat 4) with 32; lia).
  rewrite (proj2 (Z.ltb_ge _ _)) by zl. unfold zlen at 1 2. rewrite Nat2Z.id, drop_app_length, take_app_length. by rewrite IH.
Qed.

Lemma batch_payloads_Ok n l ps rest :
  batch_payloads n l = Ok (ps, rest) → l = concat (frame <$> ps) ++ rest ∧ length ps = n ∧ Forall framable ps.
Proof.
  revert l ps. induction n as [|n IH]; intros l ps E; [by simplify_eq/=|]. cbn in E.
  destruct (Z.ltb_spec (zlen l) 4) as [|Hl]; [done|]. pose proof (le4_range l) as Hr.
  destruct (Z.ltb_spec (zlen (drop 4 l)) (le_val (take 4 l))) as [|Hd]; [done|].
  apply bind_Ok in E as ([ps' rest'] & E & [= <- <-]). apply IH in E as (El & Hn & Hf).
  assert (zlen (take (Z.to_nat (le_val (take 4 l))) (drop 4 l)) = le_val (take 4 l)) as Hz by (rewrite zlen_take; lia).
  split_and!; [|cbn; by rewrite Hn|constructor; [unfold framable; lia|done]].
  set (x := take _ (drop 4 l)) in *. change (l = ((le_bytes 4 (zlen x) ++ x) ++ concat (frame <$> ps')) ++ rest').
  rewrite Hz, take_le4, <-!app_assoc, <-El by done. unfold x. by rewrite !take_drop.
Qed.
Lemma batch_payloads_total n l : is_ok (batch_payloads n l) = true ∨ ∃ m, batch_payloads n l = bad_batch m.
Proof.
  revert l. induction n as [|n IH]; intros l; [by left|]. cbn. case_goal; [by right; eexists|]. case_goal; [by right; eexists|].
  destruct (IH (drop (Z.to_nat (le_val (take 4 l))) (drop 4 l))) as [Ho|[m ->]]; [|by right; eexists].
  destruct (batch_payloads n _) as [[]| |]; [by left|done..].
Qed.

Lemma decode_batch_Ok body ps :
  decode_batch body = Ok ps ↔ body = encode_batch ps ∧ zlen ps ≤ 4096 ∧ Forall framable ps.
Proof.
  split.
  - unfold decode_batch. destruct (Z.ltb_spec (zlen body) 4) as [|Hl]; [done|].
    destruct (Z.ltb_spec 4096 (le_val (take 4 body))) as [|Hc]; [done|]. pose proof (le4_range body).
    intros ([ps' rest] & (Eb & Hn & Hf)%batch_payloads_Ok & E)%bind_Ok. case_bool_decide; [|done]. simplify_eq.
    rewrite app_nil_r in Eb. assert (zlen ps = le_val (take 4 body)) as Hz by (unfold zlen; lia).
    split_and!; [|lia|done]. unfold encode_batch. by rewrite Hz, take_le4, <-Eb, take_drop.
  - intros (-> & Hn & Hf). unfold decode_batch, encode_batch. pose proof (zlen_nonneg ps).
    rewrite (proj2 (Z.ltb_ge _ _)) by zl.
    rewrite take_app_length' by by rewrite length_le_bytes.
    rewrite drop_app_length' by by rewrite length_le_bytes.
    rewrite le_val_bytes_small by (change (8 * Z.of_nat 4) with 32; lia).
    rewrite (proj2 (Z.ltb_ge _ _)) by lia. unfold zlen. rewrite Nat2Z.id.
    rewrite <-(app_nil_r (concat _)), batch_payloads_encode by done. cbn [mbind res_bind]. by rewrite bool_decide_eq_true_2.
Qed.
Lemma decode_batch_total body : is_ok (decode_batch body) = true ∨ ∃ m, decode_batch body = Err (MkApiError BAD_REQUEST m).
Proof.
  unfold decode_batch. case_goal; [by right; eexists|]. case_goal; [by right; eexists|].
  destruct (batch_payloads_total (Z.to_nat (le_val (take 4 body))) (drop 4 body)) as [Ho|[m ->]]; [|by right; eexists].
  destruct (batch_payloads _ _) as [[ps' rest]| |]; [|done..]. cbn. case_bool_decide; [by left|by right; eexists].
Qed.

(** ** The tiered store, as the handlers use it *)
Section TierSteps.
Context {S C : Type} `{ColdStoreExact S, !Moka C, !MokaLaws C}.

Lemma warm_insert_cold id p (t : TieredStore S C) : cold (warm_insert id p t) = cold t.
Proof. unfold warm_insert. by case_goal. Qed.
Lemma warm_all_cold l (t : TieredStore S C) : cold (warm_all l t) = cold t.
Proof. revert t. induction l as [|x l IH]; intros t; [done|]. cbn. unfold warm_all in IH. by rewrite IH, warm_insert_cold. Qed.

(** A call keeps the invariant, does not panic, loses nothing and adds at most
    [ids]. *)
Definition tier_step {A} (ids : list BlockId) (m : ST (TieredStore S C) Error A) (Q : A → TieredStore S C → Prop) : Prop :=
  ∀ t t' r, tiered_inv t → m t = (t', r) →
    tiered_inv t' ∧ grows (cold t) (cold t') ∧ adds ids (cold t) (cold t') ∧
    match r with Ok a => Q a t' | Err _ => True | Panic => False end.

Lemma adds_mono ids ids' (s s' : S) : (∀ i, i ∈ ids → i ∈ ids') → adds ids s s' → adds ids' s s'.
Proof. intros Hi Ha i Hc. destruct (Ha i Hc); auto. Qed.
Lemma adds_trans ids (s1 s2 s3 : S) : adds ids s1 s2 → adds ids s2 s3 → adds ids s1 s3.
Proof. intros H1' H2' i Hc. destruct (H2' i Hc) as [Hc'|]; auto. Qed.

Lemma tier_step_weaken {A} ids (m : ST (TieredStore S C) Error A) (Q R : A → TieredStore S C → Prop) :
  tier_step ids m Q → (∀ a t, Q a t → R a t) → tier_step ids m R.
Proof. intros Hm HR t t' r Ht E. destruct (Hm _ _ _ Ht E) as (? & ? & ? & Hr). split_and!; [done..|]. destruct r; eauto. Qed.
Lemma tier_step_ret {A} ids (a : A) (Q : A → TieredStore S C → Prop) :
  (∀ t, Q a t) → tier_step ids (mret a) Q.
Proof. intros HQ t t' r Ht [= <- <-]. split_and!; [done|by intros i|by intros i; left|done]. Qed.
Lemma tier_step_bind {A B} ids ids' (m : ST (TieredStore S C) Error A) (f : A → ST (TieredStore S C) Error B) Q R :
  (∀ i, i ∈ ids' → i ∈ ids) → tier_step ids' m Q →
  (∀ a, tier_step ids (f a) (λ b t', ∀ t, Q a t → grows (cold t) (cold t') → R b t')) → tier_step ids (m ≫= f) R.
Proof.
  intros Hi Hm Hf t t' r Ht E. unfold mbind, ST_bind in E. destruct (m t) as [t1 r1] eqn:E1.
  destruct (Hm _ _ _ Ht E1) as (Ht1 & Hg1 & Ha1 & Hr1). apply (adds_mono _ ids) in Ha1; [|done].
  destruct r1 as [a|e|]; [|by simplify_eq|done].
  destruct (Hf a _ _ _ Ht1 E) as (Ht' & Hg & Ha & Hr). split_and!; [done|intros i Hc; auto|by eapply adds_trans|].
  destruct r; [|done..]. by eapply Hr.
Qed.

Lemma tier_put p : zlen p ≤ MAX_PAYLOAD →
  tier_step [block_of p] (tiered_put p) (λ id t, id = block_of p ∧ cold_contains (cold t) id = true).
Proof.
  intros Hp t t' r Ht E. destruct (put_kept p t Ht Hp) as [(Hi & Hn & _) _]. rewrite E in Hi, Hn. cbn [fst snd] in *.
  split; [done|]. unfold tiered_put, mbind, ST_bind, on_cold in E.
  pose proof (law_cold_put_adds p (cold t) (ti_cold _ Ht) Hp) as Ha.
  destruct (cold_put p (cold t)) as [s x] eqn:Ec. destruct (law_cold_put _ _ _ _ (ti_cold _ Ht) Hp Ec) as (_ & Hg & Hr).
  cbn [fst] in Ha. unfold st_modify, mret, ST_ret in E. destruct x as [id|e|]; simplify_eq; rewrite ?warm_insert_cold; done.
Qed.
Lemma tier_put_many ps : Forall (λ p, zlen p ≤ MAX_PAYLOAD) ps →
  tier_step (block_of <$> ps) (tiered_put_many ps)
    (λ ids t, ids = block_of <$> ps ∧ Forall (λ i, cold_contains (cold t) i = true) ids).
Proof.
  intros Hp t t' r Ht E. destruct (put_many_kept ps t Ht Hp) as [(Hi & Hn & _) _]. rewrite E in Hi, Hn. cbn [fst snd] in *.
  split; [done|]. unfold tiered_put_many, mbind, ST_bind, on_cold in E.
  pose proof (law_cold_put_many_adds ps (cold t) (ti_cold _ Ht) Hp) as Ha.
  destruct (cold_put_many ps (cold t)) as [s x] eqn:Ec.
  destruct (law_cold_put_many _ _ _ _ (ti_cold _ Ht) Hp Ec) as (_ & Hg & Hr).
  cbn [fst] in Ha. unfold st_modify, mret, ST_ret in E. destruct x as [id|e|]; simplify_eq; rewrite ?warm_all_cold; done.
Qed.
Lemma tier_repair id p : zlen p ≤ MAX_PAYLOAD →
  tier_step [id] (tiered_repair id p) (λ i t, i = id ∧ cold_contains (cold t) id = true).
Proof.
  intros Hp t t' r Ht E. destruct (repair_kept id p t Ht Hp) as [(Hi & Hn & _) _]. rewrite E in Hi, Hn. cbn [fst snd] in *.
  split; [done|]. unfold tiered_repair, mbind, ST_bind, on_cold in E.
  pose proof (law_cold_repair_adds id p (cold t) (ti_cold _ Ht) Hp) as Ha.
  destruct (cold_repair id p (cold t)) as [s x] eqn:Ec.
  destruct (law_cold_repair _ _ _ _ _ (ti_cold _ Ht) Hp Ec) as (_ & Hg & Hr).
  cbn [fst] in Ha. unfold st_modify, mret, ST_ret in E. destruct x as [i|e|]; simplify_eq; rewrite ?warm_insert_cold; try done.
  by destruct Hr as (_ & _ & Hr).
Qed.

Lemma same_contents (s s' : S) : (∀ i, cold_contains s' i = cold_contains s i) → grows s s' ∧ adds [] s s'.
Proof. intros He. split; intros i; rewrite He; auto. Qed.
Lemma tier_verify id : tier_step [] (verify_cold id) (λ _ t, cold_contains (cold t) id = true).
Proof.
  intros t t' r Ht E. destruct (verify_kept id t Ht) as [(Hi & Hn & _) _]. rewrite E in Hi, Hn. cbn [fst snd] in *.
  split; [done|]. unfold verify_cold, on_cold in E. destruct (cold_get id (cold t)) as [s x] eqn:Ec.
  destruct (law_cold_get _ _ _ _ (ti_cold _ Ht) Ec) as (_ & He & Hr). destruct (same_contents _ _ He) as [Hg Ha].
  destruct x as [p|e|]; [| |done].
  - simplify_eq. cbn. split_and!; [done|done|]. rewrite He. tauto.
  - assert (cold t' = s) as -> by (destruct e; simplify_eq; try done; by rewrite (proj1 (proj2 (unpin_fields _ _)))).
    split_and!; [done|done|]. by destruct e; simplify_eq.
Qed.
Lemma tier_get id : tier_step [] (tiered_get id) (λ p _, block_of p = id ∧ zlen p ≤ MAX_PAYLOAD).
Proof.
  intros t t' r Ht E. destruct (tiered_get_spec id t Ht) as ((Hi & Hn & _) & _ & _ & _ & Hr). rewrite E in *. cbn [fst snd] in *.
  split; [done|]. assert (grows (cold t) (cold t') ∧ adds [] (cold t) (cold t')) as [Hg Ha].
  { unfold tiered_get in E. case_bool_decide; [simplify_eq; by apply same_contents|].
    destruct (pinned t !! id); [simplify_eq; by apply same_contents|]. destruct (moka_get (warm t) id) as [c found].
    destruct found; [simplify_eq; by apply same_contents|]. unfold mbind, ST_bind, on_cold in E. cbn [cold miss set_warm] in E.
    destruct (cold_get id (cold t)) as [s x] eqn:Ec. destruct (law_cold_get _ _ _ _ (ti_cold _ Ht) Ec) as (_ & He & _).
    unfold st_modify, mret, ST_ret in E. apply same_contents. by destruct x; simplify_eq; rewrite ?warm_insert_cold. }
  split_and!; [done|done|]. destruct r; [tauto|done|done].
Qed.

Lemma tier_verify_all ids : tier_step [] (verify_all_cold ids) (λ _ _, True).
Proof.
  induction ids as [|id ids IH]; [by apply tier_step_ret|].
  cbn. eapply tier_step_bind; [done|apply tier_verify|]. intros []. eapply tier_step_weaken; [apply IH|done].
Qed.
Lemma tier_repair_all l : Forall (λ x, zlen x.2 ≤ MAX_PAYLOAD) l → tier_step l.*1 (repair_all l) (λ _ _, True).
Proof.
  induction 1 as [|[id p] l Hp Hl IH]; [by apply tier_step_ret|]. cbn.
  eapply tier_step_bind; [|by apply tier_repair|]; [set_solver|].
  intros i t t' r Ht E. destruct (IH _ _ _ Ht E) as (? & ? & Ha & Hr). split_and!; [done|done| |by destruct r].
  eapply adds_mono; [|done]. set_solver.
Qed.
End TierSteps.

(** ** A consistent node, and how it may change *)
Section NodeLogic.
Context {W S C : Type} `{!Raft W, ColdStoreExact S, !Moka C, !MokaLaws C, HashOrderLaws, HexLaws, ReqsJsonLaws, !PeerJson}.
Abbreviation Node := (NodeState W S C).

(** [mine] are guards this handler holds; other handlers may hold more. *)
Record node_ok (mine : list (gset BlockId)) (s : Node) : Prop := {
  no_guards : ∃ others held, sys_inv (MkSys (nd_ret s) (nd_ret_dir s) (mine ++ others) held);
  no_log : repair_ok (nd_log s) (nd_log_dir s);
  no_store : tiered_inv (nd_store s) }.

Definition stored_at (s : Node) (i : BlockId) : bool := cold_contains (cold (nd_store s)) i.

(** Nothing is forgotten, and what is new in the store is guarded. *)
Record moves (s s' : Node) : Prop := {
  mv_store : grows (cold (nd_store s)) (cold (nd_store s'));
  mv_guards : ∀ id g, rt_ids (nd_ret s) !! id = Some g → ∃ g', rt_ids (nd_ret s') !! id = Some g' ∧ g ≤ g';
  mv_reqs : covered (rq_blocks (rl_requirements (nd_log s))) (rq_blocks (rl_requirements (nd_log s')));
  mv_identity : rl_generation (nd_log s') = rl_generation (nd_log s);
  mv_heard : ∃ new, nd_heard s' = nd_heard s ++ new;
  mv_new : ∀ i, stored_at s' i = true → stored_at s i = true ∨ is_Some (rt_ids (nd_ret s') !! i) }.

#[export] Instance moves_preorder : PreOrder moves.
Proof.
  split.
  - intros s. constructor; try done; [by intros i|intros id g Hg; exists g; split; [done|lia]|by exists []; rewrite app_nil_r|by left].
  - intros s1 s2 s3 [A1 A2 A3 A4 [n1 A5] A6] [B1 B2 B3 B4 [n2 B5] B6]. constructor.
    + intros i Hi. auto.
    + intros id g (g1 & Hg1 & ?)%A2. apply B2 in Hg1 as (g2 & ? & ?). exists g2. split; [done|lia].
    + by etrans.
    + congruence.
    + exists (n1 ++ n2). by rewrite B5, A5, app_assoc.
    + intros i [Hi|Hi]%B6; [|by right]. apply A6 in Hi as [Hi|[g Hg]]; [by left|right].
      apply B2 in Hg as (g' & -> & _). by eexists.
Qed.

(** A step that changes only the guards, or adds to what was heard. *)
Lemma moves_ret s rs d :
  (∀ id g, rt_ids (nd_ret s) !! id = Some g → ∃ g', rt_ids rs !! id = Some g' ∧ g ≤ g') → moves s (set_ret rs d s).
Proof. intros Hg. constructor; cbn; try done; [by intros i|by exists []; rewrite app_nil_r|by left]. Qed.
Lemma moves_same s s' :
  nd_ret s' = nd_ret s → nd_log s' = nd_log s → nd_store s' = nd_store s → (∃ new, nd_heard s' = nd_heard s ++ new) →
  moves s s'.
Proof.
  intros Hr Hl Hs Hh. constructor; unfold stored_at; rewrite ?Hr, ?Hl, ?Hs; try done; [by intros i| |by left].
  intros id g Hi. exists g. split; [done|lia].
Qed.

(** What any other handler may do to the node. *)
Definition others (s s' : Node) : Prop := ∀ mine, node_ok mine s → node_ok mine s' ∧ moves s s'.

Definition guarded_in (ids : list BlockId) (s : Node) : Prop := ∀ i, i ∈ ids → is_Some (rt_ids (nd_ret s) !! i).
Definition stored_in (ids : list BlockId) (s : Node) : Prop := ∀ i, i ∈ ids → stored_at s i = true.
Definition required_in (n : Z) (ids : list BlockId) (s : Node) : Prop :=
  ∀ i, i ∈ ids → ∃ m, rq_blocks (rl_requirements (nd_log s)) !! i = Some m ∧ n ≤ m.
(** Heard since the list had length [n]. *)
Definition heard_since (n : nat) (e : Heard) (s : Node) : Prop := e ∈ drop n (nd_heard s).

Class Stable (P : Node → Prop) := stable : ∀ s s', moves s s' → P s → P s'.
#[export] Instance stable_and P Q : Stable P → Stable Q → Stable (λ s, P s ∧ Q s).
Proof. intros HP HQ s s' Hm [? ?]. split; [by eapply HP|by eapply HQ]. Qed.
#[export] Instance stable_pure (P : Prop) : Stable (λ _, P).
Proof. by intros s s'. Qed.
#[export] Instance stable_impl (P : Prop) Q : Stable Q → Stable (λ s, P → Q s).
Proof. intros HQ s s' Hm Hp ?. eapply HQ; eauto. Qed.
#[export] Instance guarded_in_stable ids : Stable (guarded_in ids).
Proof. intros s s' Hm Hg i Hi. destruct (Hg i Hi) as [g Hx]. apply (mv_guards _ _ Hm) in Hx as (g' & -> & _). by eexists. Qed.
#[export] Instance stored_in_stable ids : Stable (stored_in ids).
Proof. intros s s' Hm Hg i Hi. by apply (mv_store _ _ Hm), Hg. Qed.
#[export] Instance required_in_stable n ids : Stable (required_in n ids).
Proof.
  intros s s' Hm Hg i Hi. destruct (Hg i Hi) as (m & Hx & ?). apply (mv_reqs _ _ Hm) in Hx as (m' & ? & ?).
  exists m'. split; [done|lia].
Qed.
#[export] Instance heard_since_stable n e : Stable (heard_since n e).
Proof.
  intros s s' Hm Hg. destruct (mv_heard _ _ Hm) as [new E]. unfold heard_since. rewrite E, drop_app. apply elem_of_app. by left.
Qed.

(** ** Running code on a node *)

(** From a consistent node where [P] holds: the node stays consistent and
    moves, the code does not panic, and its result satisfies [Q]. *)
Definition runs {E A} (mine : list (gset BlockId)) (P : Node → Prop) (m : ST Node E A) (Q : A → Node → Prop) : Prop :=
  ∀ s s' r, node_ok mine s → P s → m s = (s', r) →
    node_ok mine s' ∧ moves s s' ∧ match r with Ok a => Q a s' | Err _ => True | Panic => False end.

Lemma runs_ret {E A} mine (P : Node → Prop) (a : A) (Q : A → Node → Prop) :
  (∀ s, P s → Q a s) → runs mine P (mret a : ST Node E A) Q.
Proof. intros HQ s s' r Ho HP [= <- <-]. split_and!; auto. reflexivity. Qed.
Lemma runs_throw {E A} mine P (e : E) (Q : A → Node → Prop) : runs mine P (st_throw e) Q.
Proof. intros s s' r Ho HP [= <- <-]. by split_and!. Qed.
Lemma runs_lift {E A} mine P (x : res E A) (Q : A → Node → Prop) :
  x ≠ Panic → (∀ a s, x = Ok a → P s → Q a s) → runs mine P (st_lift x) Q.
Proof. intros Hx HQ s s' r Ho HP [= <- <-]. split_and!; [done|done|]. destruct x; eauto. Qed.
Lemma runs_bind {E A B} mine P Q (R : B → Node → Prop) (m : ST Node E A) (f : A → ST Node E B) :
  runs mine P m Q → (∀ a, runs mine (Q a) (f a) R) → runs mine P (m ≫= f) R.
Proof.
  intros Hm Hf s s' r Ho HP Er. unfold mbind, ST_bind in Er. destruct (m s) as [s1 x] eqn:E1.
  destruct (Hm _ _ _ Ho HP E1) as (Ho1 & Hm1 & Hx). destruct x as [a|e|]; [|by simplify_eq|done].
  destruct (Hf a _ _ _ Ho1 Hx Er) as (? & ? & ?). split_and!; [done|by etrans|done].
Qed.
Lemma runs_weaken {E A} mine (P P' : Node → Prop) (Q Q' : A → Node → Prop) (m : ST Node E A) :
  runs mine P m Q → (∀ s, P' s → P s) → (∀ a s, Q a s → Q' a s) → runs mine P' m Q'.
Proof. intros Hm HP HQ s s' r Ho H' Er. destruct (Hm _ _ _ Ho (HP _ H') Er) as (? & ? & ?). split_and!; [done..|]. destruct r; eauto. Qed.
Lemma runs_pre {E A} mine (P P' : Node → Prop) (Q : A → Node → Prop) (m : ST Node E A) :
  (∀ s, P' s → P s) → runs mine P m Q → runs mine P' m Q.
Proof. intros HP Hm. by eapply runs_weaken. Qed.
Lemma runs_frame {E A} mine F P (Q : A → Node → Prop) (m : ST Node E A) `{!Stable F} :
  runs mine P m Q → runs mine (λ s, P s ∧ F s) m (λ a s, Q a s ∧ F s).
Proof.
  intros Hm s s' r Ho [HP HF] Er. destruct (Hm _ _ _ Ho HP Er) as (? & Hv & ?). split_and!; [done..|].
  destruct r; [|done..]. split; [done|]. by eapply stable.
Qed.
(** The common case of a sequence: keep what is known. *)
Lemma runs_seq {E A B} mine P Q (R : B → Node → Prop) (m : ST Node E A) (f : A → ST Node E B) `{!Stable P} :
  runs mine P m Q → (∀ a, runs mine (λ s, Q a s ∧ P s) (f a) R) → runs mine P (m ≫= f) R.
Proof.
  intros Hm Hf. eapply runs_bind; [|exact Hf]. eapply runs_weaken; [by apply (runs_frame mine P P Q m)|done|done].
Qed.

(** ** Components *)
Lemma store_runs {E A} mine ids (f : Error → E) (m : ST (TieredStore S C) Error A) Q :
  tier_step ids m Q → runs mine (guarded_in ids) (on_store f m) (λ a s, Q a (nd_store s)).
Proof.
  intros Hm s s' r [Hg Hl Ht] HP Er. unfold on_store in Er. destruct (m (nd_store s)) as [t x] eqn:Em. simplify_eq.
  destruct (Hm _ _ _ Ht Em) as (Ht' & Hgr & Had & Hx). split_and!; [by constructor| |by destruct x].
  constructor; cbn; try done; [intros id g Hi; exists g; split; [done|lia]|by exists []; rewrite app_nil_r|].
  intros i Hi. apply Had in Hi as [?|?]; [by left|right]. by apply HP.
Qed.
Lemma log_runs {E} mine op (f : io_error → E) P :
  runs mine P (on_log f (run_repair op)) (λ _ s, op_done op (nd_log s)).
Proof.
  intros s s' r [Hg Hl Ht] HP Er. unfold on_log in Er.
  destruct (run_repair op (nd_log s, nd_log_dir s)) as [[l d] x] eqn:Em. simplify_eq.
  assert (op_outcome op (nd_log s) l d x) as (Hok & Hc & Hid & Hx)
    by (destruct op; [by eapply record_outcome|by eapply observe_outcome]).
  split_and!; [by constructor| |by destruct x].
  constructor; cbn; try done; [by intros i|intros id g Hi; exists g; split; [done|lia]|by exists []; rewrite app_nil_r|by left].
Qed.

(** The scope of a guard. *)
Lemma guarded_runs {E A} mine ids (f : io_error → E) (k : ST Node E A) P Q `{!Stable P} `{!∀ a, Stable (Q a)} :
  runs (list_to_set ids :: mine) (λ s, P s ∧ guarded_in ids s) k Q → runs mine P (guarded f ids k) Q.
Proof.
  intros Hk s s' r [(oth & held & Hg) Hl Ht] HP Er. unfold guarded, on_ret, mbind, ST_bind in Er.
  destruct (protect ids (nd_ret s, nd_ret_dir s)) as [[rs d] x] eqn:Ep.
  destruct (protect_spec _ _ _ _ _ _ (si_ret _ Hg) Ep) as [Hp Hok].
  destruct x as [g|e|]; [| |done]; cbn [map_err] in Er.
  - pose proof (sys_step_inv _ _ Hg (ss_protect _ _ _ _ _ _ _ _ Ep)) as Hg1.
    destruct Hp as (-> & _ & _ & _ & _ & _ & Hids & Hseq).
    assert (moves s (set_ret rs d s)) as Hm1.
    { apply moves_ret. intros id g Hi. rewrite Hids, guard_all_lookup. case_decide as Hd; [|exists g; split; [done|lia]].
      eexists. split; [done|]. rewrite Hseq by (intros ->; by apply batch_of_elem, elem_of_nil in Hd).
      destruct Hg as [(js & torn & js' & _ & (Hi' & Hs & _) & _) _ _ _]. cbn in *. rewrite Hi' in Hi.
      apply generation_bound in Hi. lia. }
    unfold in_scope in Er. destruct (k (set_ret rs d s)) as [s1 r1] eqn:Ek.
    destruct (Hk (set_ret rs d s) s1 r1) as ([(oth1 & held1 & Hg2) Hl2 Ht2] & Hm2 & Hr1); [|split|done|].
    + constructor; [|done|done]. by exists oth, held.
    + by eapply stable.
    + intros i Hi. cbn. rewrite Hids, guard_all_lookup, decide_True by by apply batch_of_elem. by eexists.
    + destruct (drop_guard_spec (list_to_set ids) (nd_ret s1) _ (si_active _ Hg2)) as (s2 & Ed & Es2 & _).
      { cbn [sy_guards]. intros id Hid. cbn [app]. rewrite writers_cons, decide_True by done. pose proof (writers_nonneg (mine ++ oth1) id). lia. }
      rewrite Ed in Er. simplify_eq.
      pose proof (sys_step_inv _ _ Hg2 (ss_drop _ _ [] _ _ _ _ Ed)) as Hg3.
      assert (moves s1 (set_ret s2 (nd_ret_dir s1) s1)) as Hm3.
      { rewrite Es2. apply moves_ret. intros id g Hi. exists g. split; [done|lia]. }
      split_and!; [constructor; [by exists oth1, held1|done|done]|etrans; [exact Hm1|by etrans]|].
      destruct r; [|done..]. by eapply stable.
  - simplify_eq. pose proof (sys_step_inv _ _ Hg (ss_refused _ _ _ _ _ _ _ _ Ep)) as Hg1.
    split_and!; [constructor; [by exists oth, held|done|done]| |done].
    assert (rt_ids rs = rt_ids (nd_ret s)) as Er by (by destruct Hp as [[-> _]|[-> _]]).
    apply moves_ret. intros id g Hi. rewrite Er. exists g. split; [done|lia].
Qed.

(** ** Peers *)

(** Whatever happens to this node during a call is the work of its other
    handlers, and a response fits in memory. *)
Class DataPeersLaws `{!DataPeers Node} := {
  law_presence : ∀ addr id s, others s (get_presence addr id s).1;
  law_push : ∀ addr path body s, others s (push_replica addr path body s).1;
  law_requirements : ∀ addr blocks n s, others s (post_requirements addr blocks n s).1;
  law_slot : ∀ s, others s (verification_slot s).1;
  law_fetch : ∀ addr id s, others s (fetch_block addr id s).1 ∧
    ∀ b, (fetch_block addr id s).2 = Some b → zlen b ≤ MAX_PAYLOAD }.
Context `{DataPeersLaws}.

Definition since (n : nat) (s : Node) : Prop := (n <= length (nd_heard s))%nat.
#[export] Instance since_stable n : Stable (since n).
Proof. intros s s' Hm. destruct (mv_heard _ _ Hm) as [new E]. unfold since. rewrite E, length_app. lia. Qed.
#[export] Instance stable_forall {X} (P : X → Node → Prop) : (∀ x, Stable (P x)) → Stable (λ s, ∀ x, P x s).
Proof. intros HP s s' Hm Hx x. by eapply HP. Qed.
#[export] Instance stable_exist {X} (P : X → Node → Prop) : (∀ x, Stable (P x)) → Stable (λ s, ∃ x, P x s).
Proof. intros HP s s' Hm [x Hx]. exists x. by eapply HP. Qed.
#[export] Instance stable_or P Q : Stable P → Stable Q → Stable (λ s, P s ∨ Q s).
Proof. intros HP HQ s s' Hm [?|?]; [left; by eapply HP|right; by eapply HQ]. Qed.
#[export] Instance moves_stable s0 : Stable (moves s0).
Proof. intros s s' Hm Hx. by etrans. Qed.

Lemma hear_spec mine e s n : node_ok mine s → since n s → node_ok mine (hear e s) ∧ moves s (hear e s) ∧ heard_since n e (hear e s).
Proof.
  intros [] Hn. split_and!; [by constructor|by apply moves_same; [..|exists [e]]|].
  unfold heard_since, hear. cbn. rewrite drop_app_le by done. apply elem_of_app. right. by left.
Qed.
Lemma call_runs {A} mine n (f : Node → Node * Reply A) e :
  (∀ s, others s (f s).1) → runs mine (since n) (call f e) (λ reply s, heard_since n (e reply) s).
Proof.
  intros Hf s s' r Ho Hn Er. unfold call in Er. destruct (Hf s mine Ho) as [Ho1 Hm1].
  destruct (f s) as [s1 reply]. cbn [fst] in *. pose proof (stable (P := since n) _ _ Hm1 Hn) as Hn1.
  destruct (hear_spec mine (e reply) s1 n Ho1 Hn1) as (Ho2 & Hm2 & Hh).
  destruct reply; simplify_eq; split_and!; try done; by etrans.
Qed.

(** A probe that found the blocks: every one was confirmed, by the same
    incarnation of the node. *)
Definition seen_at (n : nat) (node : Z) (addr g : string) (id : BlockId) (s : Node) : Prop :=
  ∃ reply v, heard_since n (HeardPresence addr id reply) s ∧
    bounded_peer_json presence_of_json 2048 reply = Some v ∧ ps_generation v = Some g ∧
    presence_matches node id v g = true ∧ presence_confirmed v = true.
#[export] Instance seen_at_stable n node addr g id : Stable (seen_at n node addr g id).
Proof. unfold seen_at. apply _. Qed.

Definition probed (n : nat) (node : Z) (addr : string) (ids : list BlockId) (incarnation : option string)
    (found : option string) (s : Node) : Prop :=
  ∀ g, found = Some g → (∀ id, id ∈ ids → seen_at n node addr g id s) ∧
    (incarnation = Some g ∨ incarnation = None ∧ ids ≠ []).
Lemma probe_runs mine n node addr ids incarnation :
  runs mine (since n) (probe_peer node addr ids incarnation) (probed n node addr ids incarnation).
Proof.
  revert incarnation. induction ids as [|id ids IH]; intros incarnation; cbn [probe_peer].
  { apply runs_ret. intros s _ g ->. split; [by intros i ?%elem_of_nil|by left]. }
  eapply runs_seq; [apply _|by apply call_runs, law_presence|]. intros reply.
  assert (∀ P, runs mine P (mret None : ST Node string _) (probed n node addr (id :: ids) incarnation)) as Hno
    by (intros P; by apply runs_ret).
  destruct (bounded_peer_json _ _ reply) as [v|] eqn:Ev; [|done].
  destruct (ps_generation v) as [g|] eqn:Eg; [|done]. destruct (presence_matches node id v g) eqn:Em; [|done].
  cbn [negb]. intros s s' r Ho [Hh Hn] Er. unfold if_observed in Er.
  destruct (on_log io_msg (observe [] node (Some g)) s) as [s1 x] eqn:Ex.
  destruct (log_runs mine (ObserveOp [] node (Some g)) io_msg (λ _, True) s s1 x Ho I Ex) as (Ho1 & Hm1 & Hx).
  pose proof (stable (P := since n) _ _ Hm1 Hn) as Hn1. pose proof (stable (P := heard_since _ _) _ _ Hm1 Hh) as Hh1.
  destruct x as [u|e|]; [|by simplify_eq|done].
  destruct (presence_confirmed v) eqn:Ec; cbn [negb] in Er; [|by injection Er as <- <-].
  destruct (other_incarnation incarnation g) eqn:Ei; [by injection Er as <- <-|].
  destruct (IH (Some g) _ _ _ Ho1 Hn1 Er) as (Ho2 & Hm2 & Hr). split_and!; [done|by etrans|].
  destruct r as [found|e|]; [|done..]. intros g' ->. destruct (Hr g' eq_refl) as [Hall [[= <-]|[? _]]]; [|done]. split.
  - intros i [->|Hi]%elem_of_cons; [|by apply Hall]. exists reply, v. split_and!; try done. by eapply stable.
  - destruct incarnation as [old|]; [left|by right]. unfold other_incarnation in Ei.
    apply negb_false_iff, bool_decide_eq_true in Ei. by subst.
Qed.

(** [peer], a node and its address, said that it holds the blocks: it
    confirmed each of them, or acknowledged a push of the whole body. *)
Definition holder (n : nat) (path : string) (body : bytes) (expected : Expected) (ids : list BlockId)
    (peer : Z * string) (s : Node) : Prop :=
  (∃ g, ids ≠ [] ∧ ∀ id, id ∈ ids → seen_at n peer.1 peer.2 g id s) ∨
  (∃ reply v, heard_since n (HeardPush peer.2 path body reply) s ∧
     bounded_peer_json ack_of_json (512 * 1024) reply = Some v ∧ ack_accepted peer.1 expected v = true).
#[export] Instance holder_stable n path body expected ids peer : Stable (holder n path body expected ids peer).
Proof. unfold holder. apply _. Qed.

Section Acks.
Context (mine : list (gset BlockId)) (n : nat) (path : string) (body : bytes) (expected : Expected) (ids : list BlockId) (required : Z).
Definition held (acks : list (Z * string)) (s : Node) : Prop :=
  ∀ x, x ∈ acks → holder n path body expected ids x s.
Definition ackers (all acks : list (Z * string)) : Prop :=
  NoDup acks.*1 ∧ NoDup acks.*2 ∧ ∀ x, x ∈ acks → x ∈ all.

(** Counting one more peer. *)
Lemma count_runs all acks peers node addr acknowledged (endpoints : gset string) P :
  ackers all acks → acknowledged = 1 + zlen acks → (node, addr) ∈ all → node ∉ acks.*1 → addr ∉ acks.*2 →
  (∀ s, P s → since n s ∧ held acks s ∧ holder n path body expected ids (node, addr) s) →
  (ackers all ((node, addr) :: acks) →
   runs mine (λ s, since n s ∧ held ((node, addr) :: acks) s)
     (ack_peers path body expected ids required peers (acknowledged + 1) (endpoints ∪ {[addr]}))
     (λ _ s, ∃ acks, ackers all acks ∧ required ≤ 1 + zlen acks ∧ held acks s)) →
  runs mine P
    (if required <=? acknowledged + 1 then mret ()
     else ack_peers path body expected ids required peers (acknowledged + 1) (endpoints ∪ {[addr]}))
    (λ _ s, ∃ acks, ackers all acks ∧ required ≤ 1 + zlen acks ∧ held acks s).
Proof.
  intros (Ha1 & Ha2 & Ha3) -> Hin Hn1 Hn2 HP Hnext.
  assert (ackers all ((node, addr) :: acks)) as Ha.
  { split_and!; [by constructor|by constructor|]. by intros x [->|?]%elem_of_cons; [|apply Ha3]. }
  assert (∀ s, P s → since n s ∧ held ((node, addr) :: acks) s) as HP'.
  { intros s (Hs & Hh & Hx)%HP. split; [done|]. by intros x [->|?]%elem_of_cons; [|apply Hh]. }
  destruct (Z.leb_spec required (1 + zlen acks + 1)).
  - apply runs_ret. intros s [_ Hh]%HP'. exists ((node, addr) :: acks). split_and!; [done|zl|done].
  - eapply runs_weaken; [by apply Hnext|done|done].
Qed.

Lemma ack_peers_runs all peers : ∀ acks acknowledged (endpoints : gset string),
  (∀ x, x ∈ peers → x ∈ all) → NoDup peers.*1 → (∀ x, x ∈ peers → x.1 ∉ acks.*1) →
  ackers all acks → acknowledged = 1 + zlen acks → (∀ a, a ∈ acks.*2 → a ∈ endpoints) →
  runs mine (λ s, since n s ∧ held acks s) (ack_peers path body expected ids required peers acknowledged endpoints)
    (λ _ s, ∃ acks, ackers all acks ∧ required ≤ 1 + zlen acks ∧ held acks s).
Proof.
  induction peers as [|[node addr] peers IH]; intros acks acknowledged endpoints Hall Hnd Hfresh Ha Hk Hend; cbn [ack_peers].
  { apply runs_throw. }
  rewrite fmap_cons in Hnd. apply NoDup_cons in Hnd as [Hnew Hnd]. cbn [fst] in Hnew.
  assert (∀ e, (∀ a, a ∈ acks.*2 → a ∈ e) → runs mine (λ s, since n s ∧ held acks s)
    (ack_peers path body expected ids required peers acknowledged e)
    (λ _ s, ∃ acks, ackers all acks ∧ required ≤ 1 + zlen acks ∧ held acks s)) as Hskip.
  { intros e He. apply IH; try done; intros x Hx; [apply Hall|apply Hfresh]; by right. }
  case_bool_decide as Hd; [by apply Hskip|].
  assert (node ∉ acks.*1) as Hn1 by (apply (Hfresh (node, addr)); by left).
  assert (addr ∉ acks.*2) as Hn2 by (intros ?%Hend; done).
  assert ((node, addr) ∈ all) as Hin by (apply Hall; by left).
  assert (ackers all ((node, addr) :: acks) → runs mine (λ s, since n s ∧ held ((node, addr) :: acks) s)
     (ack_peers path body expected ids required peers (acknowledged + 1) (endpoints ∪ {[addr]}))
     (λ _ s, ∃ acks, ackers all acks ∧ required ≤ 1 + zlen acks ∧ held acks s)) as Hnext.
  { intros Ha'. apply IH; try done.
    - intros x Hx. apply Hall. by right.
    - intros x Hx [Hx'|Hx']%elem_of_cons; [|by apply (Hfresh x); [right|]].
      apply Hnew. cbn in Hx'. rewrite <-Hx'. by apply (list_elem_of_fmap_2 fst).
    - subst acknowledged. zl.
    - intros a [->|Hx]%elem_of_cons; [set_solver|]. apply Hend in Hx. set_solver. }
  assert (Stable (λ s, since n s ∧ held acks s)) as Hst by (unfold held; apply _).
  eapply runs_seq; [done|eapply runs_pre; [|apply (probe_runs mine n)]; by intros s [? _]|]. intros [g|]; cbn beta.
  - assert (Stable (λ s, probed n node addr ids None (Some g) s ∧ since n s ∧ held acks s)) by (unfold probed; apply _).
    eapply runs_seq; [done|apply (log_runs mine (ObserveOp ids node (Some g)))|]. intros u.
    eapply count_runs; try done. intros s (_ & Hp & Hs & Hh). split_and!; [done|done|left]. exists g.
    destruct (Hp g eq_refl) as [Hseen [?|[_ ?]]]; [done|]. by split.
  - assert (Stable (λ s, probed n node addr ids None None s ∧ since n s ∧ held acks s)) by (unfold probed; apply _).
    eapply runs_seq; [done|apply (log_runs mine (ObserveOp ids node None))|]. intros u.
    apply (runs_pre _ (λ s, since n s ∧ held acks s)); [by intros s (_ & _ & ?)|].
    eapply runs_seq; [done|eapply runs_pre; [|apply (call_runs mine n), law_push]; by intros s [? _]|]. intros reply. cbn beta.
    assert (∀ Q, runs mine (λ s, Q s ∧ since n s ∧ held acks s)
       (ack_peers path body expected ids required peers acknowledged (endpoints ∪ {[addr]}))
       (λ _ s, ∃ acks, ackers all acks ∧ required ≤ 1 + zlen acks ∧ held acks s)) as Hgo.
    { intros Q. eapply runs_pre; [|apply (Hskip (endpoints ∪ {[addr]}))]; [by intros s [_ ?]|intros a Hx%Hend; set_solver]. }
    destruct (bounded_peer_json _ _ reply) as [v|] eqn:Ev; [|by apply Hgo].
    destruct (ack_accepted node expected v) eqn:Eacc; [|by apply Hgo].
    assert (Stable (λ s, heard_since n (HeardPush addr path body reply) s ∧ since n s ∧ held acks s)) by (apply _).
    eapply runs_seq; [done|apply (log_runs mine (ObserveOp ids node (ak_generation v)))|]. intros u'.
    eapply count_runs; try done. intros s (_ & Hp & Hs & Hh). split_and!; [done|done|right]. by exists reply, v.
Qed.
End Acks.

(** The requirement went through consensus. *)
Definition committed_reqs (n : nat) (blocks : list BlockId) (replicas : Z) (s : Node) : Prop :=
  heard_since n (HeardProposal blocks replicas (Ok ())) s ∨
  ∃ addr, heard_since n (HeardProposal blocks replicas (Err (NotLeader (Some addr)))) s ∧
    heard_since n (HeardLeader addr blocks replicas (Replied ())) s.
Lemma require_replicas_no_panic (w : W) blocks replicas : (require_replicas w blocks replicas).2 ≠ Panic.
Proof.
  unfold require_replicas. case_goal; [done|]. case_goal; [by destruct (ensure_linearizable w) as [? []]|].
  destruct (write w _) as [w' [resp|e|]] eqn:Ew; [by destruct resp|done|]. by apply write_no_panic in Ew.
Qed.
Lemma set_raft_spec mine w s : node_ok mine s → node_ok mine (set_raft w s) ∧ moves s (set_raft w s).
Proof. intros []. split; [by constructor|]. apply moves_same; try done. exists []. by rewrite app_nil_r. Qed.
Lemma commit_runs mine n blocks replicas :
  runs mine (since n) (commit_requirements blocks replicas) (λ _ s, committed_reqs n blocks replicas s).
Proof.
  intros s s' r Ho Hn Er. unfold commit_requirements in Er. pose proof (require_replicas_no_panic (nd_raft s) blocks replicas) as Hp.
  destruct (require_replicas (nd_raft s) blocks replicas) as [w x]. cbn [snd] in Hp.
  destruct (set_raft_spec mine w s Ho) as [Ho1 Hm1]. pose proof (stable (P := since n) _ _ Hm1 Hn) as Hn1.
  destruct (hear_spec mine (HeardProposal blocks replicas x) _ n Ho1 Hn1) as (Ho2 & Hm2 & Hh).
  set (s2 := hear (HeardProposal blocks replicas x) (set_raft w s)) in *.
  assert (moves s s2) as Hm by by etrans. destruct (consensus_deadline s2); [by simplify_eq|].
  destruct x as [[]|e|]; [injection Er as <- <-; split_and!; [done|done|by left]| |done].
  destruct e as [| | | |[addr|]]; try by simplify_eq.
  destruct (law_requirements addr blocks replicas s2 mine Ho2) as [Ho3 Hm3].
  destruct (post_requirements addr blocks replicas s2) as [s3 reply]. cbn [fst] in *.
  assert (moves s s3) as Hm' by by etrans. pose proof (stable (P := since n) _ _ Hm' Hn) as Hn3.
  destruct reply as [| | |[]]; [by simplify_eq..|].
  destruct (hear_spec mine (HeardLeader addr blocks replicas (Replied ())) s3 n Ho3 Hn3) as (Ho4 & Hm4 & Hh4).
  injection Er as <- <-. split_and!; [done|by etrans|]. right. exists addr. split; [|done].
  eapply stable; [exact Hm4|]. by apply (stable _ _ Hm3).
Qed.

Definition quorum (n : nat) (path : string) (body : bytes) (expected : Expected) (ids : list BlockId) (required : Z) (s : Node) : Prop :=
  ∃ s0 acks, since n s0 ∧ moves s0 s ∧ ackers (peer_nodes (self_id s0) (cluster s0)) acks ∧
    required ≤ 1 + zlen acks ∧ held n path body expected ids acks s.
#[export] Instance quorum_stable n path body expected ids required : Stable (quorum n path body expected ids required).
Proof. unfold quorum, held. apply _. Qed.
#[export] Instance committed_reqs_stable n blocks replicas : Stable (committed_reqs n blocks replicas).
Proof. unfold committed_reqs. apply _. Qed.

Lemma peer_nodes_NoDup me m : NoDup (peer_nodes me m).*1.
Proof.
  unfold peer_nodes. apply (sublist_NoDup _ (merge_sort node_le (map_to_list (mem_nodes m))).*1).
  - rewrite merge_sort_Permutation. apply NoDup_fst_map_to_list.
  - apply fmap_sublist, sublist_filter.
Qed.

Lemma ask_peers_runs mine n path body expected ids required :
  runs mine (since n) (ask_peers path body expected ids required) (λ _ s, quorum n path body expected ids required s).
Proof.
  intros s s' r Ho Hn Er. unfold ask_peers in Er. case_match; [by simplify_eq|].
  set (all := peer_nodes (self_id s) (cluster s)) in *.
  destruct (ack_peers_runs mine n path body expected ids required all
    (merge_sort (peer_key_le (known_holders ids (nd_log s))) all) [] 1 ∅) with (s := s) (s' := s') (r := r)
    as (Ho' & Hm & Hr); try done.
  - intros x. by rewrite merge_sort_Permutation.
  - rewrite merge_sort_Permutation. apply peer_nodes_NoDup.
  - intros x _. apply not_elem_of_nil.
  - split_and!; [constructor|constructor|by intros x ?%elem_of_nil].
  - by intros a ?%elem_of_nil.
  - split; [done|by intros x ?%elem_of_nil].
  - split_and!; [done|done|]. destruct r; [|done..]. destruct Hr as (acks & ? & ? & ?). by exists s, acks.
Qed.

Lemma verify_runs {E} mine (f : Error → E) ids P : runs mine P (on_store f (verify_all_cold ids)) (λ _ _, True).
Proof.
  apply (runs_pre _ (guarded_in [])); [by intros s Hs i ?%elem_of_nil|]. apply (store_runs mine [] f _ (λ _ _, True)).
  apply tier_verify_all.
Qed.

Lemma acknowledge_runs mine n path body expected ids required :
  expected_ids expected = Ok ids → required ≠ 1 →
  runs mine (since n) (acknowledge_replicas path body expected required)
    (λ _ s, committed_reqs n ids required s ∧ quorum n path body expected ids required s).
Proof.
  intros He Hr. unfold acknowledge_replicas. rewrite (proj2 (Z.eqb_neq _ _)) by done.
  eapply runs_seq; [apply _|apply (runs_lift _ _ _ (λ i _, i = ids)); [by rewrite He|intros a s; rewrite He; by intros [= <-]]|].
  intros i. cbn beta. eapply runs_pre with (P := λ s, i = ids ∧ since n s); [done|].
  intros s s' r Ho [-> Hn] Er. revert s s' r Ho Hn Er. change (runs mine (since n)
    (commit_requirements ids required ≫= λ _, on_store error_message (verify_all_cold ids) ≫= λ _,
     observe_self ids ≫= λ _, ask_peers path body expected ids required)
    (λ _ s, committed_reqs n ids required s ∧ quorum n path body expected ids required s)).
  eapply runs_seq; [apply _|apply commit_runs|]. intros u1. cbn beta.
  eapply runs_seq; [apply _|apply verify_runs|].
  intros u2. cbn beta. eapply runs_pre with (P := λ s, committed_reqs n ids required s ∧ since n s); [by intros s [_ ?]|].
  eapply runs_seq with (Q := λ _ _, True); [apply _| |].
  - intros s s' r Ho _ Er. destruct (log_runs mine (ObserveOp ids (self_id s) (Some (rl_generation (nd_log s)))) io_msg (λ _, True) s s' r Ho I Er)
      as (? & ? & ?). split_and!; [done|done|]. by destruct r.
  - intros u3. cbn beta. eapply runs_weaken with (P := λ s, since n s ∧ committed_reqs n ids required s);
      [apply (runs_frame mine (committed_reqs n ids required)), ask_peers_runs; apply _|naive_solver|naive_solver].
Qed.

(** ** Handlers *)

(** What a successful upload of [ids] established. *)
Definition uploaded (n : nat) (h : UploadHeaders) (path : string) (body : bytes) (expected : Expected) (ids : list BlockId)
    (ack : Ack) (s : Node) : Prop :=
  ∃ replicas, parse_replicas (uh_replicas h) = Ok replicas ∧
    stored_in ids s ∧ guarded_in ids s ∧
    (durably replicas h = true → required_in replicas ids s) ∧
    (1 < replicas → committed_reqs n ids replicas s ∧ quorum n path body expected ids replicas s) ∧
    match expected with ExpectId id => ak_id ack = Some id | ExpectIds l => ak_ids ack = Some l end ∧
    ak_generation ack = Some (rl_generation (nd_log s)) ∧
    ak_retained ack = Some (durably replicas h) ∧ ak_cold_verified ack = Some (durably replicas h).
#[export] Instance generation_stable ack : Stable (λ s, ak_generation ack = Some (rl_generation (nd_log s))).
Proof. intros s s' Hm ->. by rewrite (mv_identity _ _ Hm). Qed.
#[export] Instance uploaded_stable n h path body expected ids ack : Stable (uploaded n h path body expected ids ack).
Proof. unfold uploaded. destruct expected; apply _. Qed.

Lemma expected_one id : expected_ids (ExpectId (block_display id)) = Ok [id].
Proof. cbn. by rewrite (proj2 (block_from_str_Ok _ id)) by apply hex_decode_encode. Qed.
Lemma expected_all ids : expected_ids (ExpectIds (block_display <$> ids)) = Ok ids.
Proof.
  cbn. apply ok_or_Ok, mapM_Some. apply Forall2_fmap_l, Forall_Forall2_diag, Forall_true. intros id.
  apply block_deserialize_serialize.
Qed.
Lemma parse_replicas_range v n : parse_replicas v = Ok n → 1 ≤ n ≤ 16.
Proof.
  destruct v as [[v|]|]; cbn; [|done|intros [= <-]; lia]. intros (k & _ & Hk)%ok_or_Ok%bind_Some.
  unfold between in Hk. case_match eqn:E; [|done]. simplify_eq. apply andb_true_iff in E as [?%Z.leb_le ?%Z.leb_le]. lia.
Qed.
Lemma parse_replicas_no_panic v : parse_replicas v ≠ Panic.
Proof. destruct v as [[v|]|]; cbn; [|done..]. by destruct (parse_usize v ≫= _). Qed.

Lemma lift_err_runs {E A} mine P (f : string → E) (m : ST Node string A) Q :
  runs mine P m Q → runs mine P (lift_err f m) Q.
Proof.
  intros Hm s s' r Ho HP Er. unfold lift_err in Er. destruct (m s) as [s1 x] eqn:Ex.
  destruct (Hm _ _ _ Ho HP Ex) as (? & ? & ?). injection Er as <- <-. split_and!; [done..|]. by destruct x.
Qed.
Lemma replicate_runs mine n path body expected ids replicas h :
  expected_ids expected = Ok ids → 1 ≤ replicas →
  runs mine (since n) (replicate path body expected replicas h)
    (λ _ s, 1 < replicas → committed_reqs n ids replicas s ∧ quorum n path body expected ids replicas s).
Proof.
  intros He Hr. unfold replicate. apply (runs_bind _ _ (λ _ s,
    1 < replicas → committed_reqs n ids replicas s ∧ quorum n path body expected ids replicas s)).
  - destruct (Z.ltb_spec 1 replicas); [|apply runs_ret; intros; lia].
    eapply runs_weaken; [apply lift_err_runs, (acknowledge_runs mine n); [done|lia]|done|done].
  - intros []. case_match; [|by apply runs_ret]. intros s s' r Ho HP [= <- <-].
    assert (moves s (start_push path body s).1) as Hm by (by apply moves_same; [..|exists []; rewrite app_nil_r]).
    split_and!; [|done|by eapply (stable (P := λ s, 1 < replicas → _ s ∧ _ s))].
    destruct Ho. by constructor.
Qed.

(** The common end of an upload, once the blocks are in the store. *)
Lemma finish_runs mine n h path body expected ids replicas :
  parse_replicas (uh_replicas h) = Ok replicas → expected_ids expected = Ok ids →
  runs mine (λ s, since n s ∧ stored_in ids s ∧ guarded_in ids s ∧ (durably replicas h = true → required_in replicas ids s))
    (replicate path body expected replicas h ≫= λ _, ack_reply expected replicas h)
    (uploaded n h path body expected ids).
Proof.
  intros Hp He. pose proof (parse_replicas_range _ _ Hp). eapply runs_seq; [apply _|
    eapply runs_pre; [|apply (replicate_runs mine n path body expected ids); [done|lia]]; by intros s [? _]|].
  intros u s s' r Ho (Hq & _ & Hs & Hg & Hr) [= <- <-]. split_and!; [done|done|].
  exists replicas. split_and!; try done. by destruct expected.
Qed.

(** The intent is recorded before the write. *)
Lemma record_runs {E} mine ids replicas (durable : bool) (f : io_error → E) P `{!Stable P} :
  runs mine P (if durable then on_log f (record_reqs ids replicas) else mret ())
    (λ _ s, (durable = true → required_in replicas ids s) ∧ P s).
Proof.
  destruct durable; [|by apply runs_ret]. eapply runs_weaken with (P := λ s, True ∧ P s);
    [apply (runs_frame mine P (λ _, True) (λ _ s, op_done (RecordOp ids replicas) (nd_log s)));
       [done|apply (log_runs mine (RecordOp ids replicas))]|done|]. naive_solver.
Qed.

Lemma store_frame {E A} mine ids F (f : Error → E) (m : ST (TieredStore S C) Error A) Q `{!Stable F} :
  tier_step ids m Q → runs mine (λ s, guarded_in ids s ∧ F s) (on_store f m) (λ a s, Q a (nd_store s) ∧ F s).
Proof. intros Hm. apply runs_frame; [done|]. by apply store_runs. Qed.

Lemma replicas_runs mine h P `{!Stable P} :
  runs mine P (st_lift (map_err (MkApiError BAD_REQUEST) (parse_replicas (uh_replicas h))))
    (λ x s, parse_replicas (uh_replicas h) = Ok x).
Proof.
  apply runs_lift; [|by intros a s ?%map_err_Ok]. pose proof (parse_replicas_no_panic (uh_replicas h)). by destruct (parse_replicas _).
Qed.

Lemma put_block_runs mine n h body :
  zlen body ≤ MAX_PAYLOAD →
  runs mine (since n) (put_block h body)
    (uploaded n h "/v1/blocks" body (ExpectId (block_display (block_of body))) [block_of body]).
Proof.
  intros Hb. unfold put_block. eapply runs_seq; [apply _|apply replicas_runs; apply _|]. intros replicas. cbn beta. apply guarded_runs; [apply _..|].
  eapply runs_bind; [apply record_runs; apply _|]. intros u. cbn beta.
  eapply runs_bind with (Q := λ id s, id = block_of body ∧ stored_in [block_of body] s ∧
    (durably replicas h = true → required_in replicas [block_of body] s) ∧
    (parse_replicas (uh_replicas h) = Ok replicas ∧ since n s) ∧ guarded_in [block_of body] s).
  - assert (tier_step [block_of body] (if durably replicas h then tiered_repair (block_of body) body else tiered_put body)
      (λ id t, id = block_of body ∧ cold_contains (cold t) (block_of body) = true)) as Ht.
    { destruct (durably replicas h); [by apply tier_repair|].
      eapply tier_step_weaken; [by apply tier_put|]. by intros a t [-> ?]. }
    eapply runs_weaken; [apply (store_frame _ _ (λ s, (durably replicas h = true → required_in replicas [block_of body] s) ∧
      (parse_replicas (uh_replicas h) = Ok replicas ∧ since n s) ∧ guarded_in [block_of body] s) _ _ _ Ht)|naive_solver|].
    intros a s [[-> Hc] ?]. split_and!; try naive_solver. by intros i ->%list_elem_of_singleton.
  - intros id s s' r Ho (-> & Hs & Hr & [Hp Hn] & Hg). apply (finish_runs _ n h "/v1/blocks" body); try done.
    apply expected_one.
Qed.

(** The ids a batch body stands for. *)
Definition batch_ids (body : bytes) : list BlockId :=
  match decode_batch body with Ok ps => block_of <$> ps | _ => [] end.

Lemma framable_small ps : Forall framable ps → Forall (λ p, zlen p ≤ MAX_PAYLOAD) ps.
Proof. intros Hf. eapply Forall_impl; [exact Hf|]. intros p. unfold framable, MAX_PAYLOAD. lia. Qed.
Lemma zip_small {X} (ids : list X) (ps : list bytes) : Forall (λ p, zlen p ≤ MAX_PAYLOAD) ps → Forall (λ x, zlen x.2 ≤ MAX_PAYLOAD) (zip ids ps).
Proof. intros Hp. revert ids. induction Hp; intros [|i ids]; constructor; auto. Qed.

(** A batch written, and repaired when it must be durable. *)
Lemma batch_write_runs {E B} mine (f : Error → E) ps (durable : bool) P (k : list BlockId → ST Node E B) R `{!Stable P} :
  Forall (λ p, zlen p ≤ MAX_PAYLOAD) ps →
  runs mine (λ s, stored_in (block_of <$> ps) s ∧ guarded_in (block_of <$> ps) s ∧ P s) (k (block_of <$> ps)) R →
  runs mine (λ s, guarded_in (block_of <$> ps) s ∧ P s)
    (on_store f (tiered_put_many ps) ≫= λ ids,
     (if durable then on_store f (repair_all (zip ids ps)) else mret ()) ≫= λ _, k ids) R.
Proof.
  intros Hps Hk. set (ids := block_of <$> ps) in *.
  apply (runs_bind _ _ (λ x s, x = ids ∧ stored_in ids s ∧ guarded_in ids s ∧ P s)).
  - eapply runs_weaken; [apply (store_frame _ _ (λ s, guarded_in ids s ∧ P s) _ _ _ (tier_put_many ps Hps))|naive_solver|].
    intros a s [[-> Hc] ?]. split_and!; try naive_solver. intros i Hi. rewrite Forall_forall in Hc. by apply Hc.
  - intros x s s' r Ho [-> HP]. revert s s' r Ho HP.
    apply (runs_bind _ _ (λ _ s, stored_in ids s ∧ guarded_in ids s ∧ P s)); [|by intros u].
    destruct durable; [|by apply runs_ret].
    eapply runs_weaken; [apply (store_frame _ _ (λ s, stored_in ids s ∧ guarded_in ids s ∧ P s) _ _ _
      (tier_repair_all (zip ids ps) (zip_small _ _ Hps)))| |by intros a s [_ ?]].
    intros s Hs. split; [|done]. destruct Hs as (_ & Hg & _). intros i Hi. apply Hg. unfold ids in *.
    by rewrite fst_zip in Hi by by rewrite length_fmap.
Qed.

Lemma put_batch_runs mine n h body :
  runs mine (since n) (put_blocks_batch h body)
    (uploaded n h "/v1/blocks/batch" body (ExpectIds (block_display <$> batch_ids body)) (batch_ids body)).
Proof.
  unfold put_blocks_batch. eapply runs_seq; [apply _|apply replicas_runs; apply _|]. intros replicas. cbn beta.
  pose proof (decode_batch_total body) as Hd.
  destruct (decode_batch body) as [ps|e|] eqn:Ed;
    [|intros s s' r Ho HP [= <- <-]; by split_and!|by destruct Hd as [?|[? ?]]].
  apply (runs_bind _ _ (λ x s, x = ps ∧ (parse_replicas (uh_replicas h) = Ok replicas ∧ since n s)));
    [apply runs_lift; [done|by intros a s [= <-]]|].
  intros x s s' r Ho [-> HP]. revert s s' r Ho HP. change (batch_ids body) with (match decode_batch body with Ok ps => block_of <$> ps | _ => [] end).
  rewrite Ed. assert (Forall (λ p, zlen p ≤ MAX_PAYLOAD) ps) as Hps.
  { apply framable_small. by apply decode_batch_Ok in Ed as (_ & _ & ?). }
  set (ids := block_of <$> ps). apply guarded_runs; [apply _..|].
  eapply runs_bind; [apply record_runs; apply _|]. intros u. cbn beta.
  eapply runs_pre; [|apply (batch_write_runs _ _ ps _ (λ s, (durably replicas h = true → required_in replicas ids s) ∧
      parse_replicas (uh_replicas h) = Ok replicas ∧ since n s)); [apply _|done|]]; [naive_solver|].
  intros s s' r Ho (Hs & Hg & Hr & Hp & Hn). apply (finish_runs _ n h "/v1/blocks/batch" body); try done. apply expected_all.
Qed.

Lemma fetch_runs mine id peers : runs mine (λ _, True) (fetch_from id peers) (λ p _, block_of p = id).
Proof.
  induction peers as [|peer peers IH]; [apply runs_throw|]. intros s s' r Ho _ Er. cbn [fetch_from] in Er.
  destruct (law_fetch peer id s) as [Hoth Hsz]. destruct (Hoth mine Ho) as [Ho1 Hm1].
  destruct (fetch_block peer id s) as [s1 o]. cbn [fst snd] in *.
  assert (∀ m : ST Node ApiError bytes, runs mine (λ _, True) m (λ p _, block_of p = id) → m s1 = (s', r) →
    node_ok mine s' ∧ moves s s' ∧ match r with Ok p => block_of p = id | Err _ => True | Panic => False end) as Hgo.
  { intros m Hm E. destruct (Hm _ _ _ Ho1 I E) as (? & ? & ?). split_and!; [done|by etrans|done]. }
  destruct o as [b|]; [|by apply (Hgo _ IH)]. case_bool_decide as Hb; [|by apply (Hgo _ IH)]. revert Er. apply Hgo.
  apply guarded_runs; [apply _..|]. eapply runs_bind; [|intros a; apply runs_ret; done].
  eapply runs_weaken; [eapply (store_runs _ [id]); rewrite <-Hb; by apply tier_put, Hsz|by intros s2 [_ ?]|done].
Qed.
Lemma get_block_runs mine h id : runs mine (λ _, True) (get_block h id) (λ p _, block_from_str id = Ok (block_of p)).
Proof.
  unfold get_block. apply (runs_bind _ _ (λ b _, block_from_str id = Ok b)).
  { apply runs_lift; [|by intros a s ?%map_err_Ok]. pose proof (block_from_str_total id). by destruct (block_from_str id). }
  intros b s s' r Ho Hb Er. unfold read_block in Er. destruct (on_store _ (tiered_get b) s) as [s1 x] eqn:Ex.
  destruct (store_runs mine [] (λ e, e) _ _ (tier_get b) _ _ _ Ho ltac:(by intros i ?%elem_of_nil) Ex) as (Ho1 & Hm1 & Hx).
  destruct x as [p|e|]; [| |done].
  - simplify_eq. destruct Hx as [<- _]. done.
  - assert (∀ m : ST Node ApiError bytes, runs mine (λ _, True) m (λ p _, block_of p = b) → m s1 = (s', r) →
      node_ok mine s' ∧ moves s s' ∧ match r with Ok p => block_from_str id = Ok (block_of p) | Err _ => True | Panic => False end) as Hgo.
    { intros m Hm E. destruct (Hm _ _ _ Ho1 I E) as (? & ? & Hr). split_and!; [done|by etrans|]. destruct r; [by rewrite Hr|done..]. }
    destruct e; try by simplify_eq. destruct (uh_internal h); [by simplify_eq|]. revert Er. apply Hgo, fetch_runs.
Qed.

(** A positive answer to a probe. *)
Definition present_here (id : string) (v : Presence) (s : Node) : Prop :=
  ∃ b, block_from_str id = Ok b ∧ ps_id v = Some id ∧ ps_generation v = Some (rl_generation (nd_log s)) ∧
    (ps_present v = Some true → stored_in [b] s) ∧ ps_cold_verified v = ps_present v ∧
    (ps_retained v = Some true → required_in 1 [b] s).
Lemma presence_runs mine id : runs mine (λ _, True) (block_presence id) (present_here id).
Proof.
  unfold block_presence. apply (runs_bind _ _ (λ b _, block_from_str id = Ok b)).
  { apply runs_lift; [|by intros a s ?%map_err_Ok]. pose proof (block_from_str_total id). by destruct (block_from_str id). }
  intros b s s' r Ho Hb Er. unfold presence_of in Er. destruct (law_slot s mine Ho) as [Ho1 Hm1].
  destruct (verification_slot s) as [s1 [busy|]]; cbn [fst] in *; [by simplify_eq|].
  destruct (verify_cold b (nd_store s1)) as [t x] eqn:Ev.
  destruct (store_runs mine [] (λ e, e) _ _ (tier_verify b) s1 (set_store t s1) x Ho1 ltac:(by intros i ?%elem_of_nil))
    as (Ho2 & Hm2 & Hx); [unfold on_store; rewrite Ev; by destruct x|].
  assert (match r with Ok v => present_here id v s' | Err _ => True | Panic => False end ∧ s' = set_store t s1) as [Hr ->].
  { destruct x as [[]|e|]; simplify_eq; [| |done]; (split; [|done]); exists b; split_and!; try done; cbn [ps_retained ps_present is_ok].
    1: by intros _ i ->%list_elem_of_singleton.
    all: intros [= Hret]; intros i ->%list_elem_of_singleton; apply contains_key_true in Hret as [m Hm]; exists m; split; [done|];
      by destruct (ro_replicas _ (proj1 (no_log _ _ Ho1)) _ _ Hm). }
  split_and!; [done|by etrans|done].
Qed.
End NodeLogic.
