(* ===== verification/UploadTheorems.v ===== *)
(** * What uploads, replication and reads guarantee

    The batch framing is exact; the handlers of [Upload] keep a node
    consistent and only let it grow, which is also what they rely on when
    other handlers run during a call; an acknowledged upload is stored,
    guarded and, when replicas were asked for, held by as many nodes. *)

From S2P Require Import Prelude Core Signing Metadata Leases StateMachine StateInvariant ControlPlane Durability Io Segment Store StoreInvariant StorePut StoreTheorems StoreOpen StoreCompact Tiered TieredCold Retention RetentionTheorems Scrub Codecs LogStore Manifest ManifestTheorems Repair Api Upload UploadLogic.
From Stdlib Require Import Strings.Byte.

(** ** Framing *)
(** The batch format is exact.  A body decodes to a list of payloads if and
    only if it is the encoding of that list, which has at most 4096 payloads
    of less than 4 GiB: no two bodies mean the same batch, nothing is left
    over, and what a client encodes is what the server stores.  Every other
    body is refused with "bad request"; no body makes the decoder panic. *)
Theorem batch_framing_exact body ps :
  (decode_batch body = Ok ps ↔ body = encode_batch ps ∧ zlen ps ≤ 4096 ∧ Forall framable ps) ∧
  (is_ok (decode_batch body) = true ∨ ∃ m, decode_batch body = Err (MkApiError BAD_REQUEST m)).
Proof. split; [apply decode_batch_Ok|apply decode_batch_total]. Qed.


(** ** Properties *)
Section UploadTheorems.
Context {W S C : Type} `{!Raft W, ColdStoreExact S, !Moka C, !MokaLaws C, HashOrderLaws, HexLaws, ReqsJsonLaws, !PeerJson}.
Context `{!DataPeers (NodeState W S C), !DataPeersLaws}.
Abbreviation Node := (NodeState W S C).

Inductive UploadOp :=
| UPut (h : UploadHeaders) (body : bytes)
| UBatch (h : UploadHeaders) (body : bytes)
| UGet (h : UploadHeaders) (id : string)
| UPresence (id : string)
| URequire (blocks : list BlockId) (replicas : Z).
Definition ignore {A} (m : ST Node ApiError A) : ST Node ApiError () := m ≫= λ _, mret ().
Definition run_upload (op : UploadOp) : ST Node ApiError () :=
  match op with
  | UPut h body => ignore (put_block h body)
  | UBatch h body => ignore (put_blocks_batch h body)
  | UGet h id => ignore (get_block h id)
  | UPresence id => ignore (block_presence id)
  | URequire blocks replicas => require_replicas_handler blocks replicas
  end.
Definition upload_fits (op : UploadOp) : Prop :=
  match op with UPut _ body => zlen body ≤ MAX_PAYLOAD | _ => True end.

Lemma ignore_runs {A} mine P (m : ST Node ApiError A) Q : runs mine P m Q → runs mine P (ignore m) (λ _ _, True).
Proof. intros Hm. eapply runs_bind; [exact Hm|]. intros a. by apply runs_ret. Qed.
Lemma run_upload_runs mine op : upload_fits op → runs mine (λ _, True) (run_upload op) (λ _ _, True).
Proof.
  intros Hf. destruct op; cbn [run_upload upload_fits] in *.
  - eapply runs_pre; [|by eapply ignore_runs, (put_block_runs mine 0)]. intros s _. unfold since. lia.
  - eapply runs_pre; [|by eapply ignore_runs, (put_batch_runs mine 0)]. intros s _. unfold since. lia.
  - by eapply ignore_runs, get_block_runs.
  - by eapply ignore_runs, presence_runs.
  - intros s s' r Ho _ Er. unfold require_replicas_handler in Er.
    pose proof (require_replicas_no_panic (nd_raft s) blocks replicas) as Hp.
    destruct (require_replicas (nd_raft s) blocks replicas) as [w x]. simplify_eq.
    destruct (set_raft_spec mine w s Ho). split_and!; [done|done|]. by destruct x.
Qed.

(** C13. Handlers keep a node consistent, and they only rely on each other doing
    the same.  Whatever guards other requests hold, whatever the files' faults
    and the peers' answers, and with other handlers running during every call
    to a peer: an upload, a batch, a read that fetches from peers, a presence
    probe or a requirement does not panic (in particular, dropping its write
    guard finds its counters), leaves the journal, the intent log and the
    tiers consistent and holds no guard at the end; no block, guard or replica
    requirement is lost; and every block that is new in the store is in the
    guard journal, where a restart finds it.  That is also all that is assumed
    of the handlers that run meanwhile. *)
Theorem handlers_keep_node op s s' r :
  upload_fits op → run_upload op s = (s', r) → others s s' ∧
  ∀ mine, node_ok mine s → r ≠ Panic ∧ node_ok mine s' ∧ moves s s' ∧
    ∃ d ret, ret_open (reopened (nd_ret_dir s')) = (d, Ok ret) ∧
      ∀ i, stored_at s' i = true → stored_at s i = true ∨ is_Some (rt_ids ret !! i).
Proof.
  intros Hf E. assert (∀ mine, node_ok mine s → node_ok mine s' ∧ moves s s' ∧ r ≠ Panic) as Hall.
  { intros mine Ho. destruct (run_upload_runs mine op Hf s s' r Ho I E) as (? & ? & ?). split_and!; [done|done|]. by destruct r. }
  split; [intros mine Ho; by destruct (Hall mine Ho) as (? & ? & _)|].
  intros mine Ho. destruct (Hall mine Ho) as (Ho' & Hm & Hr). split_and!; [done|done|done|].
  destruct (no_guards _ _ Ho') as (oth & hld & Hg).
  destruct (ret_ok_reopens _ _ (si_ret _ Hg)) as (d & ret & Eo & _ & Hids & _). exists d, ret. split; [done|].
  intros i [Hi|[g Hi]]%(mv_new _ _ Hm); [by left|right]. apply Hids in Hi as (g' & -> & _). by eexists.
Qed.

(** C4. What an acknowledged upload means.  When [put_block] answers with
    success, the block with the hash of the body, and when [put_blocks_batch]
    does, every block of the batch, is in the cold store and in the guard
    journal.  If replicas or retention were asked for, the replica intent is
    recorded at least as high as asked.  If more than one replica was asked
    for, then during this very request consensus accepted the requirement
    (here, or at the leader this node was told of), and as many nodes as asked
    hold the blocks: this one, and distinct members of the cluster at distinct
    addresses, none of them this node, each of which either confirmed every
    block as present, verified and retained under one incarnation, or
    acknowledged the push of exactly this body with the same ids. *)
Theorem acknowledged_upload_holds h body ack mine s s' :
  node_ok mine s →
  let n := length (nd_heard s) in
  (zlen body ≤ MAX_PAYLOAD → put_block h body s = (s', Ok ack) →
   uploaded n h "/v1/blocks" body (ExpectId (block_display (block_of body))) [block_of body] ack s') ∧
  (put_blocks_batch h body s = (s', Ok ack) →
   uploaded n h "/v1/blocks/batch" body (ExpectIds (block_display <$> batch_ids body)) (batch_ids body) ack s').
Proof.
  intros Ho n. split.
  - intros Hb E. by destruct (put_block_runs mine n h body Hb s s' (Ok ack) Ho (le_n _) E) as (_ & _ & ?).
  - intros E. by destruct (put_batch_runs mine n h body s s' (Ok ack) Ho (le_n _) E) as (_ & _ & ?).
Qed.

Lemma block_display_inj a b : block_display a = block_display b → a = b.
Proof.
  unfold block_display. intros E%(f_equal hex_decode). rewrite !hex_decode_encode in E. injection E as E.
  destruct a as [a], b as [b]. f_equal. by apply array_eq.
Qed.

End UploadTheorems.

(** ** Witnesses: a leader with one peer that acknowledges every push *)
Module UploadExamples.
#[local] Existing Instance toy_blake3.
#[local] Existing Instance toy_hex.
#[local] Existing Instance toy_hex_laws.
#[local] Existing Instance toy_order.
#[local] Existing Instance toy_order_laws.
#[local] Existing Instance map_cache.
#[local] Existing Instance map_cache_laws.
#[local] Existing Instance toy_binding_key.
#[local] Existing Instance local_raft.
#[local] Existing Instance RepairExamples.toy_reqs_json.
#[local] Existing Instance RepairExamples.toy_reqs_json_laws.
Abbreviation ToyNode := (NodeState MetadataState (Disk * BlockStore N) (gmap BlockId bytes)).

Definition upload_body : bytes := [x03].
#[local] Instance toy_peer_json : PeerJson := {|
  presence_of_json _ := None;
  ack_of_json _ := Some (MkAck (Some (block_display (block_of upload_body))) None (Some 2)
    (Some RepairExamples.identity) (Some true) (Some true)) |}.
#[local] Instance toy_peers : DataPeers ToyNode := {|
  get_presence _ _ s := (s, Refused);
  push_replica _ _ _ s := (s, Replied []);
  post_requirements _ _ _ s := (s, Refused);
  fetch_block _ _ s := (s, None);
  consensus_deadline _ := false;
  verification_slot s := (s, None);
  cluster _ := MkMembership [] (<[1 := "self"]> {[2 := "peer"]}) |}.
Lemma others_refl (s : ToyNode) : others s s.
Proof. intros mine Ho. split; [done|reflexivity]. Qed.
#[local] Instance toy_peers_laws : DataPeersLaws (W := MetadataState) (S := Disk * BlockStore N) (C := gmap BlockId bytes).
Proof. constructor; intros; cbn; try apply others_refl. split; [apply others_refl|done]. Qed.

Definition log_dir : Dir := MkDir (dir_files RepairExamples.dir0) [].
Definition node0 : ToyNode :=
  MkNode default_state (opened_ret []) RetentionExamples.fresh_dir RepairExamples.log0 log_dir good_tier [] [].
Lemma node0_ok : node_ok [] node0.
Proof.
  constructor.
  - exists [], ∅. apply sys_reach_inv, sr_start. apply RetentionExamples.fresh_ok.
  - destruct RepairExamples.log0_ok as (? & ? & ? & ?). by split_and!.
  - apply good_tier_inv.
Qed.

Definition two_replicas : UploadHeaders := MkHeaders (Some (Some "2")) false false.
Definition upload_run : ToyNode * res ApiError Ack := put_block two_replicas upload_body node0.

Lemma handlers_keep_node_witness :
  is_ok (run_upload (UPut two_replicas upload_body) node0).2 = true ∧
  node_ok [] (run_upload (UPut two_replicas upload_body) node0).1 ∧
  stored_at (run_upload (UPut two_replicas upload_body) node0).1 (block_of upload_body) = true.
Proof.
  split; [by vm_compute|]. split; [|by vm_compute].
  destruct (handlers_keep_node (UPut two_replicas upload_body) node0 _ _ ltac:(cbn; by vm_compute) (surjective_pairing _)) as [_ Hk].
  by destruct (Hk [] node0_ok) as (_ & Ho & _).
Defined.

(** Two replicas were asked for: consensus accepted, and one peer holds the
    block besides this node. *)
Lemma acknowledged_upload_holds_witness :
  is_ok upload_run.2 = true ∧
  quorum 0 "/v1/blocks" upload_body (ExpectId (block_display (block_of upload_body))) [block_of upload_body] 2 upload_run.1.
Proof.
  assert (is_ok upload_run.2 = true) as Hok by by vm_compute. split; [exact Hok|].
  destruct upload_run as [s' r] eqn:E. cbn [fst snd] in *. destruct r as [ack|e|]; [|discriminate..].
  destruct (acknowledged_upload_holds two_replicas upload_body ack [] node0 s' node0_ok) as [Hput _].
  destruct (Hput ltac:(by vm_compute) E) as (replicas & Hp & _ & _ & _ & Hq & _).
  assert (Ok 2 = (Ok replicas : res string Z)) as [= <-] by (rewrite <-Hp; by vm_compute).
  by apply Hq.
Defined.

End UploadExamples.
