(* ===== verification/Grpc.v ===== *)
(** * The gRPC data plane ([crates/kalpakdb/src/grpc.rs] and the [grpc]
      module of [crates/kalpak-client/src/lib.rs])

    [put_blocks] collects a stream of chunks into blocks and commits them in
    bounded batches on the node of [Upload]; [get_block] sends a block back in
    chunks.  The client's side cuts blocks into chunks and joins them again.
    Waiting for a message lets other handlers move the node: each item of a
    stream carries what they did.  The admission permit was taken before; its
    outcome is an argument. *)

From stdpp Require Import pretty.
From S2P Require Import Prelude Core Signing Metadata StateMachine ControlPlane Durability Io Segment Store StoreInvariant StoreOpen StoreCompact Tiered TieredCold Retention RetentionTheorems Codecs Repair Api Admission Upload UploadLogic UploadTheorems.
From Stdlib Require Import Strings.Byte.

Definition CHUNK_BYTES : Z := 1024 * 1024.
Definition MAX_STREAM_BLOCKS : Z := 4096.
Definition MAX_BATCH_BLOCKS : Z := 256.
Definition MAX_STREAM_CHUNKS : Z := 65536.
Definition FLUSH_BYTES : Z := 64 * 1024 * 1024.

(** [tonic::Status]. *)
Inductive Code := InvalidArgument | ResourceExhausted | Internal | Unavailable | DeadlineExceeded | NotFoundCode | OtherCode.
Record Status := MkStatus { st_code : Code; st_message : string }.

Record PutBlockChunk := MkChunk { ch_data : bytes; ch_last : bool }.
(** What waiting for the next message gives. *)
Inductive StreamEvent :=
| Message (c : PutBlockChunk)
| IdleTimeout
| StreamError (e : Status).

(** ** Cutting and joining *)

(** The loop of [get_block]; its last turn is the one that reaches the end, so
    the length in chunks and one more are fuel enough. *)
Fixpoint send_chunks (fuel : nat) (payload : bytes) (at_ : Z) : list PutBlockChunk :=
  match fuel with
  | O => []
  | S fuel =>
      let total := zlen payload in
      let end_ := Z.min (at_ + CHUNK_BYTES) total in
      let chunk := MkChunk (zslice payload at_ (end_ - at_)) (end_ =? total) in
      if end_ =? total then [chunk] else chunk :: send_chunks fuel payload end_
  end.
Definition block_chunks (payload : bytes) : list PutBlockChunk :=
  send_chunks (S (Z.to_nat (zlen payload / CHUNK_BYTES))) payload 0.

(** The client's [get_block]: up to the last chunk. *)
Fixpoint join_chunks (l : list PutBlockChunk) (out : bytes) : bytes :=
  match l with
  | [] => out
  | c :: l => let out := out ++ ch_data c in if ch_last c then out else join_chunks l out
  end.

(** [payload.chunks(CHUNK_BYTES)] with the last one marked; the client sends an
    empty block as one empty chunk. *)
Fixpoint pieces (fuel : nat) (payload : bytes) : list PutBlockChunk :=
  match fuel with
  | O => []
  | S fuel =>
      if zlen payload <=? CHUNK_BYTES then [MkChunk payload true]
      else MkChunk (take (Z.to_nat CHUNK_BYTES) payload) false :: pieces fuel (drop (Z.to_nat CHUNK_BYTES) payload)
  end.
Definition client_chunks (payload : bytes) : list PutBlockChunk :=
  match payload with
  | [] => [MkChunk [] true]
  | _ => pieces (length payload) payload
  end.
Definition client_stream (payloads : list bytes) : list PutBlockChunk := concat (client_chunks <$> payloads).

Section Grpc.
Context {W S C : Type} `{Raft W, ColdStore S, Moka C, Blake3, HashOrder, Hex, ReqsJson, PeerJson}.
Abbreviation Node := (NodeState W S C).
Context `{DataPeers Node}.
Context (max_block_bytes : Z).

Abbreviation GM := (ST Node Status).

Definition internal (e : Error) : Status := MkStatus Internal (error_message e).
Definition internal_io (e : io_error) : Status := internal (Io e).

(** ** Uploading *)
Fixpoint acknowledge_each (replicas : Z) (l : list (BlockId * bytes)) : GM () :=
  match l with
  | [] => mret ()
  | (id, block) :: l =>
      lift_err (MkStatus Unavailable)
        (acknowledge_replicas "/v1/blocks" block (ExpectId (block_display id)) replicas) ≫= λ _,
      acknowledge_each replicas l
  end.
Definition flush (replicas : Z) (blocks : list bytes) : GM (list BlockId) :=
  guarded internal_io (block_of <$> blocks) (
    (if 1 <? replicas then on_log internal_io (record_reqs (block_of <$> blocks) replicas) else mret ()) ≫= λ _,
    on_store internal (tiered_put_many blocks) ≫= λ ids,
    (if 1 <? replicas then on_store internal (repair_all (zip ids blocks)) else mret ()) ≫= λ _,
    mret ids) ≫= λ ids,
  (if 1 <? replicas then acknowledge_each replicas (zip ids blocks) else mret ()) ≫= λ _,
  mret ids.

Record StreamState := MkStream {
  ss_blocks : list bytes;
  ss_staged : Z;
  ss_current : bytes;
  ss_ids : list string;
  ss_count : Z;
  ss_chunks : Z;
  ss_open : bool }.
Definition stream_start : StreamState := MkStream [] 0 [] [] 0 0 false.

Definition exhausted {A} (m : string) : GM A := st_throw (MkStatus ResourceExhausted m).
(** One message. *)
Definition take_chunk (replicas : Z) (st : StreamState) (c : PutBlockChunk) : GM StreamState :=
  let chunks := ss_chunks st + 1 in
  if MAX_STREAM_CHUNKS <? chunks then exhausted "too many chunks in upload"
  else if ss_count st =? MAX_STREAM_BLOCKS then exhausted "too many blocks in upload"
  else if saturating_sub max_block_bytes (zlen (ss_current st)) <? zlen (ch_data c) then
    exhausted ("block exceeds " +:+ pretty max_block_bytes +:+ " bytes")
  else
    let current := ss_current st ++ ch_data c in
    if ch_last c then
      let count := ss_count st + 1 in
      let staged := ss_staged st + zlen current in
      let blocks := ss_blocks st ++ [current] in
      if (FLUSH_BYTES <=? staged) || (MAX_BATCH_BLOCKS <=? zlen blocks) then
        flush replicas blocks ≫= λ ids,
        mret (MkStream [] 0 [] (ss_ids st ++ (block_display <$> ids)) count chunks false)
      else mret (MkStream blocks staged [] (ss_ids st) count chunks false)
    else mret (MkStream (ss_blocks st) (ss_staged st) current (ss_ids st) (ss_count st) chunks true).

Definition wait (f : Node → Node) : GM () := st_modify f.
Fixpoint take_chunks (replicas : Z) (stream : list ((Node → Node) * StreamEvent)) (st : StreamState) : GM StreamState :=
  match stream with
  | [] => mret st
  | (f, event) :: stream =>
      wait f ≫= λ _,
      match event with
      | IdleTimeout => st_throw (MkStatus DeadlineExceeded "block upload idle timeout")
      | StreamError e => st_throw e
      | Message c => take_chunk replicas st c ≫= λ st, take_chunks replicas stream st
      end
  end.

Definition put_blocks (header : option (option string)) (admitted : bool) (stream : list ((Node → Node) * StreamEvent))
    : GM (list string) :=
  st_lift (map_err (MkStatus InvalidArgument) (parse_replicas header)) ≫= λ replicas,
  if negb admitted then exhausted "shared upload budget exhausted"
  else
    take_chunks replicas stream stream_start ≫= λ st,
    if ss_open st then st_throw (MkStatus InvalidArgument "stream ended mid-block: missing last_chunk")
    else if bool_decide (ss_blocks st = []) then mret (ss_ids st)
    else
      flush replicas (ss_blocks st) ≫= λ ids,
      mret (ss_ids st ++ (block_display <$> ids)).

(** ** Reading *)
Definition get_error (e : Error) : Status :=
  match e with
  | BlockNotFound _ => MkStatus NotFoundCode (error_message e)
  | _ => internal e
  end.
Definition grpc_get_block (id : string) : GM (list PutBlockChunk) :=
  st_lift (map_err (λ _, MkStatus InvalidArgument "malformed block id") (block_from_str id)) ≫= λ id,
  on_store get_error (tiered_get id) ≫= λ payload,
  mret (block_chunks payload).
End Grpc.

(** ** What a stream of chunks means *)

(** The blocks that are complete, and the rest of an open one. *)
Fixpoint assemble (l : list PutBlockChunk) (current : bytes) : list bytes * bytes :=
  match l with
  | [] => ([], current)
  | c :: l =>
      let current := current ++ ch_data c in
      if ch_last c then let (bs, rest) := assemble l [] in (current :: bs, rest) else assemble l current
  end.

Lemma assemble_app l1 l2 current :
  assemble (l1 ++ l2) current =
    (let (bs, rest) := assemble l1 current in let (bs', rest') := assemble l2 rest in (bs ++ bs', rest')).
Proof.
  revert current. induction l1 as [|c l1 IH]; intros current; cbn; [by destruct (assemble l2 current)|].
  destruct (ch_last c).
  - rewrite IH. destruct (assemble l1 []) as [bs rest]. by destruct (assemble l2 rest).
  - apply IH.
Qed.

Lemma assemble_pieces fuel p l current :
  zlen p ≤ Z.of_nat fuel * CHUNK_BYTES → (0 < fuel)%nat →
  assemble (pieces fuel p ++ l) current = (let (bs, rest) := assemble l [] in ((current ++ p) :: bs, rest)).
Proof.
  revert p current. induction fuel as [|fuel IH]; intros p current Hp Hf; [lia|]. cbn [pieces].
  destruct (Z.leb_spec (zlen p) CHUNK_BYTES); [done|]. cbn [app assemble ch_last ch_data].
  unfold CHUNK_BYTES in *. destruct fuel as [|fuel]; [lia|].
  rewrite IH; [|zl|lia]. by rewrite <-app_assoc, take_drop.
Qed.
Lemma assemble_client p l :
  assemble (client_chunks p ++ l) [] = (let (bs, rest) := assemble l [] in (p :: bs, rest)).
Proof.
  unfold client_chunks. destruct p as [|b p]; [done|]. rewrite assemble_pieces; [done| |cbn; lia].
  unfold CHUNK_BYTES, zlen. cbn [length]. lia.
Qed.
Lemma assemble_stream ps : assemble (client_stream ps) [] = (ps, []).
Proof.
  induction ps as [|p ps IH]; [done|]. unfold client_stream in *. cbn [fmap list_fmap concat]. by rewrite assemble_client, IH.
Qed.
Lemma pieces_small fuel p : Forall (λ c, zlen (ch_data c) ≤ CHUNK_BYTES) (pieces fuel p).
Proof.
  revert p. induction fuel as [|fuel IH]; intros p; cbn [pieces]; [constructor|].
  destruct (Z.leb_spec (zlen p) CHUNK_BYTES); [by constructor|]. constructor; [|done]. cbn. unfold CHUNK_BYTES in *. zl.
Qed.

Lemma send_chunks_spec fuel p at_ :
  0 ≤ at_ ≤ zlen p → zlen p - at_ ≤ Z.of_nat fuel * CHUNK_BYTES → (0 < fuel)%nat →
  (∀ out, join_chunks (send_chunks fuel p at_) out = out ++ drop (Z.to_nat at_) p) ∧
  Forall (λ c, zlen (ch_data c) ≤ CHUNK_BYTES) (send_chunks fuel p at_) ∧
  ∃ l c, send_chunks fuel p at_ = l ++ [c] ∧ ch_last c = true ∧ Forall (λ c, ch_last c = false) l.
Proof.
  revert at_. induction fuel as [|fuel IH]; intros at_ Ha Hn Hf; [lia|]. cbn [send_chunks]. unfold CHUNK_BYTES in *.
  destruct (Z.eqb_spec (Z.min (at_ + 1024 * 1024) (zlen p)) (zlen p)) as [He|He].
  - rewrite He. assert (zslice p at_ (zlen p - at_) = drop (Z.to_nat at_) p) as Es.
    { unfold zslice. apply take_ge. rewrite length_drop. unfold zlen. lia. }
    split_and!.
    + intros out. cbn. by rewrite Es.
    + constructor; [|constructor]. cbn [ch_data]. rewrite zlen_zslice; lia.
    + by exists [], (MkChunk (zslice p at_ (zlen p - at_)) true).
  - assert (Z.min (at_ + 1024 * 1024) (zlen p) = at_ + 1024 * 1024) as -> by lia.
    destruct fuel as [|fuel]; [lia|]. destruct (IH (at_ + 1024 * 1024)) as (Hj & Hs & l & c & El & Hc & Hl); [lia|lia|lia|].
    split_and!.
    + intros out. cbn [join_chunks ch_last ch_data]. rewrite Hj, <-app_assoc. f_equal. unfold zslice.
      replace (at_ + 1024 * 1024 - at_) with (1024 * 1024) by lia. rewrite Z2Nat.inj_add by lia.
      by rewrite <-drop_drop, take_drop.
    + constructor; [|done]. cbn [ch_data]. rewrite zlen_zslice; lia.
    + rewrite El. eexists (_ :: l), c. split_and!; [done|done|by constructor].
Qed.

(** Blocks survive their streams.  What [get_block] sends for a block, in
    either direction and also for an empty block, is joined to exactly the
    block, in chunks of at most 1 MiB of which only the last is marked last,
    and the sending loop ends.  What the client sends for a list of blocks is
    read by the server as exactly these blocks, in order, with none open at
    the end. *)
Theorem chunked_streams_rejoin p ps :
  join_chunks (block_chunks p) [] = p ∧
  Forall (λ c, zlen (ch_data c) ≤ CHUNK_BYTES) (block_chunks p) ∧
  (∃ l c, block_chunks p = l ++ [c] ∧ ch_last c = true ∧ Forall (λ c, ch_last c = false) l) ∧
  assemble (client_stream ps) [] = (ps, []) ∧
  Forall (λ c, zlen (ch_data c) ≤ CHUNK_BYTES) (client_stream ps).
Proof.
  pose proof (zlen_nonneg p).
  destruct (send_chunks_spec (S (Z.to_nat (zlen p / CHUNK_BYTES))) p 0) as (Hj & Hs & Hl); [lia| |lia|].
  { unfold CHUNK_BYTES. Z.to_euclidean_division_equations. lia. }
  split_and!; [apply Hj|done|done|apply assemble_stream|].
  unfold client_stream. induction ps as [|q ps IH]; [constructor|]. cbn [fmap list_fmap concat]. apply Forall_app. split; [|done].
  unfold client_chunks. destruct q; [|apply pieces_small]. by repeat constructor.
Qed.

(** ** Uploads on a node *)
Section GrpcNode.
Context {W S C : Type} `{!Raft W, ColdStoreExact S, !Moka C, !MokaLaws C, HashOrderLaws, HexLaws, ReqsJsonLaws, !PeerJson}.
Context `{!DataPeers (NodeState W S C), !DataPeersLaws}.
Abbreviation Node := (NodeState W S C).
Context (max_block_bytes : Z) (Hmax : 0 ≤ max_block_bytes ≤ MAX_PAYLOAD).

(** Consensus took the requirement for [b], and enough nodes hold it. *)
Definition replicated (n : nat) (replicas : Z) (b : bytes) (s : Node) : Prop :=
  committed_reqs n [block_of b] replicas s ∧
  quorum n "/v1/blocks" b (ExpectId (block_display (block_of b))) [block_of b] replicas s.
Definition safe (n : nat) (replicas : Z) (bs : list bytes) (s : Node) : Prop :=
  stored_in (block_of <$> bs) s ∧ guarded_in (block_of <$> bs) s ∧
  (1 < replicas → required_in replicas (block_of <$> bs) s ∧ ∀ b, b ∈ bs → replicated n replicas b s).
#[export] Instance replicated_stable n replicas b : Stable (replicated n replicas b).
Proof. unfold replicated. apply _. Qed.
#[export] Instance safe_stable n replicas bs : Stable (safe n replicas bs).
Proof. unfold safe. apply _. Qed.
Lemma safe_nil n replicas s : safe n replicas [] s.
Proof. split_and!; [by intros i ?%elem_of_nil..|]. intros _. split; by intros i ?%elem_of_nil. Qed.
Lemma safe_app n replicas bs bs' s : safe n replicas bs s → safe n replicas bs' s → safe n replicas (bs ++ bs') s.
Proof.
  intros (A1 & A2 & A3) (B1 & B2 & B3). unfold safe. rewrite !fmap_app. split_and!.
  - intros i [?|?]%elem_of_app; auto.
  - intros i [?|?]%elem_of_app; auto.
  - intros Hr. destruct (A3 Hr) as [A4 A5], (B3 Hr) as [B4 B5]. split; intros i [?|?]%elem_of_app; auto.
Qed.

Lemma acknowledge_each_runs mine n replicas bs :
  replicas ≠ 1 →
  runs mine (since n) (acknowledge_each replicas (zip (block_of <$> bs) bs))
    (λ _ s, ∀ b, b ∈ bs → replicated n replicas b s).
Proof.
  intros Hr. induction bs as [|b bs IH]; cbn [fmap list_fmap zip zip_with acknowledge_each].
  { apply runs_ret. by intros s _ b ?%elem_of_nil. }
  eapply runs_seq; [apply _|apply lift_err_runs, (acknowledge_runs mine n); [apply expected_one|done]|]. intros u. cbn beta.
  eapply runs_weaken; [apply (runs_frame mine (replicated n replicas b) (since n)); [apply _|exact IH]| |].
  - intros s [? ?]. done.
  - intros a s [Hall Hb] x [->|Hx]%elem_of_cons; auto.
Qed.

Lemma flush_runs mine n replicas bs :
  Forall (λ p, zlen p ≤ MAX_PAYLOAD) bs →
  runs mine (since n) (flush replicas bs) (λ ids s, ids = block_of <$> bs ∧ safe n replicas bs s).
Proof.
  intros Hbs. unfold flush. set (ids := block_of <$> bs).
  apply (runs_bind _ _ (λ x s, x = ids ∧ since n s ∧ stored_in ids s ∧ guarded_in ids s ∧ ((1 <? replicas) = true → required_in replicas ids s))).
  - apply guarded_runs; [apply _..|]. eapply runs_bind; [apply record_runs; apply _|]. intros u. cbn beta.
    eapply runs_pre; [|apply (batch_write_runs _ _ bs _ (λ s, since n s ∧ ((1 <? replicas) = true → required_in replicas ids s))); [apply _|done|]];
      [naive_solver|]. apply runs_ret. naive_solver.
  - intros x s s' r Ho [-> HP]. revert s s' r Ho HP. set (P := λ s : Node, since n s ∧ stored_in ids s ∧ guarded_in ids s ∧ ((1 <? replicas) = true → required_in replicas ids s)).
    assert (Stable P) by (unfold P; apply _).
    apply (runs_bind _ _ (λ _ s, (1 < replicas → ∀ b, b ∈ bs → replicated n replicas b s) ∧ P s)).
    + destruct (Z.ltb_spec 1 replicas); [|apply runs_ret; intros s ?; split; [lia|done]].
      eapply runs_weaken; [apply (runs_frame mine P (since n)); [done|apply (acknowledge_each_runs mine n replicas bs); lia]| |].
      * intros s HP. split; [apply HP|exact HP].
      * intros a s [Hall HP]. by split.
    + intros u. apply runs_ret. intros s (Hall & _ & Hs & Hg & Hr). split; [done|]. split_and!; [done|done|].
      intros Hlt. split; [apply Hr; by apply Z.ltb_lt|by apply Hall].
Qed.

(** What the collector holds between messages. *)
Definition list_bytes (bs : list bytes) : Z := foldr (λ b n, zlen b + n) 0 bs.
Record stream_ok (st : StreamState) : Prop := {
  sk_staged : ss_staged st = list_bytes (ss_blocks st);
  sk_flush : ss_staged st < FLUSH_BYTES;
  sk_batch : zlen (ss_blocks st) < MAX_BATCH_BLOCKS;
  sk_current : zlen (ss_current st) ≤ max_block_bytes;
  sk_blocks : Forall (λ p, zlen p ≤ max_block_bytes) (ss_blocks st);
  sk_closed : ss_open st = false → ss_current st = [];
  sk_count : 0 ≤ ss_count st ≤ MAX_STREAM_BLOCKS }.
Lemma list_bytes_app a b : list_bytes (a ++ b) = list_bytes a + list_bytes b.
Proof. induction a as [|x a IH]; [done|]. cbn [app list_bytes foldr] in *. unfold list_bytes in *. lia. Qed.
Lemma small_blocks (bs : list bytes) : Forall (λ p, zlen p ≤ max_block_bytes) bs → Forall (λ p, zlen p ≤ MAX_PAYLOAD) bs.
Proof. intros Hf. eapply Forall_impl; [exact Hf|]. intros p. cbn. lia. Qed.

(** [flushed] are the blocks behind the ids collected so far. *)
Definition collected (n : nat) (replicas : Z) (flushed : list bytes) (st : StreamState) (s : Node) : Prop :=
  stream_ok st ∧ ss_ids st = block_display <$> (block_of <$> flushed) ∧ ss_count st = zlen (flushed ++ ss_blocks st) ∧
  since n s ∧ safe n replicas flushed s.

Lemma take_chunk_runs mine n replicas flushed st c :
  runs mine (collected n replicas flushed st) (take_chunk max_block_bytes replicas st c)
    (λ st' s, ∃ flushed', collected n replicas flushed' st' s ∧
       let (bs, rest) := assemble [c] (ss_current st) in
       flushed' ++ ss_blocks st' = flushed ++ ss_blocks st ++ bs ∧ ss_current st' = rest).
Proof.
  unfold take_chunk. case_goal; [apply runs_throw|]. case_goal; [apply runs_throw|]. case_goal; [apply runs_throw|]. bool_prop.
  intros s s' r Ho ([K1 K2 K3 K4 K5 K6 K7] & Hids & Hct & Hn & Hsafe). cbn [assemble].
  assert (zlen (ss_current st ++ ch_data c) ≤ max_block_bytes) as Hcur.
  { rewrite zlen_app. unfold saturating_sub in *. lia. }
  destruct (ch_last c) eqn:El; cbn [assemble].
  - set (blocks := ss_blocks st ++ [ss_current st ++ ch_data c]).
    assert (Forall (λ p, zlen p ≤ max_block_bytes) blocks) as Hall by (apply Forall_app; split; [done|by constructor]).
    case_goal.
    + intros Er. assert (runs mine (λ s, since n s ∧ safe n replicas flushed s)
        (flush replicas blocks ≫= λ ids, mret (MkStream [] 0 [] (ss_ids st ++ (block_display <$> ids)) (ss_count st + 1) (ss_chunks st + 1) false))
        (λ st' s, ∃ flushed', collected n replicas flushed' st' s ∧
           flushed' ++ ss_blocks st' = flushed ++ ss_blocks st ++ [ss_current st ++ ch_data c] ∧ ss_current st' = [])) as Hrun.
      { eapply runs_seq; [apply _|eapply runs_pre; [|apply (flush_runs mine n replicas blocks), small_blocks, Hall]; by intros ? [? _]|].
        intros ids. apply runs_ret. intros s1 ([-> Hs1] & Hn1 & Hs0). exists (flushed ++ blocks). split.
        - split_and!; cbn [ss_ids ss_count ss_blocks].
          + constructor; cbn; try done; unfold FLUSH_BYTES, MAX_BATCH_BLOCKS, MAX_STREAM_BLOCKS in *; try lia; zl.
          + by rewrite Hids, !fmap_app.
          + rewrite Hct. unfold blocks. zl.
          + done.
          + by apply safe_app.
        - cbn. split; [|done]. unfold blocks. by rewrite app_nil_r. }
      by apply (Hrun s s' r Ho (conj Hn Hsafe) Er).
    + bool_prop. intros [= <- <-]. split_and!; [done|done|]. exists flushed. split; [|by cbn].
      split_and!; cbn [ss_ids ss_count ss_blocks]; try done.
      * constructor; cbn; try done; unfold FLUSH_BYTES, MAX_BATCH_BLOCKS, MAX_STREAM_BLOCKS in *; try lia; try zl.
        unfold blocks. rewrite list_bytes_app, K1. cbn. zl.
      * rewrite Hct. unfold blocks. zl.
  - intros [= <- <-]. split_and!; [done|done|]. exists flushed. split; [|cbn; by rewrite app_nil_r].
    by split_and!; cbn [ss_ids ss_count ss_blocks].
Qed.

(** The messages of a stream, and what the waits may do. *)
Definition messages (stream : list ((Node → Node) * StreamEvent)) : list PutBlockChunk :=
  omap (λ x, match x.2 with Message c => Some c | _ => None end) stream.
Definition quiet (stream : list ((Node → Node) * StreamEvent)) : Prop :=
  Forall (λ x : (Node → Node) * StreamEvent, ∀ s, others s (x.1 s)) stream.

Lemma take_chunks_runs mine n replicas stream : quiet stream → ∀ flushed st,
  runs mine (collected n replicas flushed st) (take_chunks max_block_bytes replicas stream st)
    (λ st' s, ∃ flushed', collected n replicas flushed' st' s ∧
       let (bs, rest) := assemble (messages stream) (ss_current st) in
       flushed' ++ ss_blocks st' = flushed ++ ss_blocks st ++ bs ∧ ss_current st' = rest).
Proof.
  induction 1 as [|[f event] stream Hf Hq IH]; intros flushed st; cbn [take_chunks].
  { apply runs_ret. intros s Hc. exists flushed. split; [done|]. cbn. by rewrite app_nil_r. }
  assert (Stable (collected n replicas flushed st)) by (unfold collected; apply _).
  apply (runs_bind _ _ (λ _ s, collected n replicas flushed st s)).
  { intros s s' r Ho HP [= <- <-]. destruct (Hf s mine Ho) as [? Hm]. split_and!; [done|done|]. by eapply stable. }
  intros []. destruct event as [c| |e]; [|apply runs_throw..].
  change (messages ((f, Message c) :: stream)) with ([c] ++ messages stream).
  eapply runs_bind; [apply take_chunk_runs|]. intros st1 s s' r Ho (flushed1 & Hc1 & Has) Er.
  destruct (IH flushed1 st1 s s' r Ho Hc1 Er) as (? & ? & Hr). split_and!; [done|done|]. destruct r as [st2|e|]; [|done..].
  destruct Hr as (flushed2 & Hc2 & Hr). exists flushed2. split; [done|].
  rewrite assemble_app. destruct (assemble [c] (ss_current st)) as [bs1 rest1]. destruct Has as [Hb1 Hr1]. rewrite Hr1 in Hr.
  destruct (assemble (messages stream) rest1) as [bs2 rest2]. destruct Hr as [Hb2 Hr2]. split; [|done].
  rewrite Hb2, app_assoc, Hb1. by rewrite <-!app_assoc.
Qed.

Lemma stream_start_ok n replicas s : since n s → collected n replicas [] stream_start s.
Proof. intros Hn. split_and!; try done; [|apply safe_nil]. constructor; cbn; try done; unfold FLUSH_BYTES, MAX_STREAM_BLOCKS; zl. Qed.

(** The result of a whole upload. *)
Definition streamed (n : nat) (header : option (option string)) (stream : list ((Node → Node) * StreamEvent)) (ids : list string) (s : Node) : Prop :=
  ∃ replicas bs, parse_replicas header = Ok replicas ∧ assemble (messages stream) [] = (bs, []) ∧
    ids = block_display <$> (block_of <$> bs) ∧ zlen bs ≤ MAX_STREAM_BLOCKS ∧ safe n replicas bs s.

Lemma put_blocks_runs mine n header admitted stream : quiet stream →
  runs mine (since n) (put_blocks max_block_bytes header admitted stream) (streamed n header stream).
Proof.
  intros Hq. unfold put_blocks. apply (runs_bind _ _ (λ x s, parse_replicas header = Ok x ∧ since n s)).
  { apply runs_lift; [|by intros a s ?%map_err_Ok]. pose proof (parse_replicas_no_panic header). by destruct (parse_replicas header). }
  intros replicas s0 s0' r0 Ho0 [Hp Hn0]. revert s0 s0' r0 Ho0 Hn0. destruct admitted; [|intros s s' r Ho Hn [= <- <-]; by split_and!]. cbn [negb].
  assert (runs mine (since n) (take_chunks max_block_bytes replicas stream stream_start ≫= λ st,
    if ss_open st then st_throw (MkStatus InvalidArgument "stream ended mid-block: missing last_chunk")
    else if bool_decide (ss_blocks st = []) then mret (ss_ids st)
    else flush replicas (ss_blocks st) ≫= λ ids, mret (ss_ids st ++ (block_display <$> ids))) (streamed n header stream)) as Hrun; [|exact Hrun].
  eapply runs_bind; [eapply runs_pre; [|apply (take_chunks_runs mine n replicas stream Hq [])]; by apply stream_start_ok|].
  intros st s s' r Ho (flushed & ([K1 K2 K3 K4 K5 K6 K7] & Hids & Hct & Hn & Hsafe) & Has). revert s s' r Ho Hn Hsafe.
  change (ss_current stream_start) with (@nil byte) in Has. destruct (assemble (messages stream) []) as [bs rest] eqn:Ea.
  destruct Has as [Hbs Hrest]. cbn in Hbs.
  destruct (ss_open st) eqn:Eo; [intros s s' r Ho Hn Hsafe [= <- <-]; by split_and!|]. rewrite (K6 eq_refl) in Hrest. subst rest.
  assert (zlen bs ≤ MAX_STREAM_BLOCKS) as Hlen by (rewrite <-Hbs, <-Hct; lia).
  case_bool_decide as Eb.
  - rewrite Eb, app_nil_r in Hbs. subst flushed. intros s s' r Ho Hn Hsafe [= <- <-]. split_and!; [done|done|].
    by exists replicas, bs.
  - assert (runs mine (λ s, since n s ∧ safe n replicas flushed s) (flush replicas (ss_blocks st) ≫= λ ids, mret (ss_ids st ++ (block_display <$> ids)))
      (streamed n header stream)) as Hrun; [|intros s s' r Ho Hn Hsafe; by apply Hrun].
    eapply runs_seq; [apply _|eapply runs_pre; [|apply (flush_runs mine n replicas (ss_blocks st)), small_blocks, K5]; by intros s [? _]|].
    intros ids. apply runs_ret. intros s ([-> Hs1] & _ & Hs0). exists replicas, bs. split_and!; [done|done| |done|].
    + by rewrite Hids, <-Hbs, !fmap_app.
    + rewrite <-Hbs. by apply safe_app.
Qed.
End GrpcNode.

(** ** Properties *)
Section GrpcTheorems.
Context {W S C : Type} `{!Raft W, ColdStoreExact S, !Moka C, !MokaLaws C, HashOrderLaws, HexLaws, ReqsJsonLaws, !PeerJson}.
Context `{!DataPeers (NodeState W S C), !DataPeersLaws}.

(** C15. A streamed upload.  Over any stream of messages, idle time-outs and
    errors, with any file faults and other handlers at work during every wait,
    [put_blocks] does not panic and keeps the node consistent.  A success
    returns the ids of exactly the blocks the messages spell, in order, at
    most 4096 of them; each of them is in the cold store and guarded, and if
    replicas were asked for, each has its intent recorded, its requirement
    accepted by consensus, and as many nodes that hold it.  A client that
    streams a list of blocks gets the ids of that list. *)
Theorem streamed_upload_holds max_block_bytes header admitted stream mine (s s' : NodeState W S C) r :
  0 ≤ max_block_bytes ≤ MAX_PAYLOAD → quiet stream → node_ok mine s →
  put_blocks max_block_bytes header admitted stream s = (s', r) →
  r ≠ Panic ∧ node_ok mine s' ∧ moves s s' ∧
  ∀ ids, r = Ok ids → streamed (length (nd_heard s)) header stream ids s' ∧
    ∀ ps, messages stream = client_stream ps → ids = block_display <$> (block_of <$> ps).
Proof.
  intros Hm Hq Ho E. destruct (put_blocks_runs max_block_bytes Hm mine (length (nd_heard s)) header admitted stream Hq s s' r Ho (le_n _) E)
    as (Ho' & Hmv & Hr). split_and!; [by destruct r|done|done|]. intros ids ->. split; [done|]. intros ps Hps.
  destruct Hr as (replicas & bs & _ & Ha & -> & _). rewrite Hps, assemble_stream in Ha. by injection Ha as ->.
Qed.

(** A stream is collected in bounded memory.  After any messages, what the
    handler holds (the complete blocks not yet written and the open one) is
    less than 64 MiB and one largest block, in fewer than 256 blocks: within
    the reservation of the upload budget that the stream was admitted with. *)
Theorem stream_buffers_within_reservation {M} `{SemaphoreLaws M} max_block_bytes replicas stream mine (s s' : NodeState W S C) st (b : UploadBudget M) :
  0 ≤ max_block_bytes → budget_new max_block_bytes = Ok b → quiet stream → node_ok mine s →
  take_chunks max_block_bytes replicas stream stream_start s = (s', Ok st) →
  list_bytes (ss_blocks st) + zlen (ss_current st) < FLUSH_BYTES + max_block_bytes ∧
  list_bytes (ss_blocks st) + zlen (ss_current st) ≤ ub_reservation b * MIB ∧
  zlen (ss_blocks st) < MAX_BATCH_BLOCKS.
Proof.
  intros Hm Hb Hq Ho E. apply budget_new_Ok in Hb as (_ & Hres & Hcov).
  assert (0 ≤ max_block_bytes ≤ MAX_PAYLOAD) as Hm' by (unfold MAX_PAYLOAD, BUDGET, MIB in *; lia).
  destruct (take_chunks_runs max_block_bytes Hm' mine 0 replicas stream Hq [] stream_start s s' (Ok st) Ho) as (_ & _ & fl & ([K1 K2 K3 K4 _ _ _] & _) & _);
    [by apply stream_start_ok, Nat.le_0_l|done|].
  unfold FLUSH_BYTES, MIB in *. lia.
Qed.
End GrpcTheorems.

(** ** Witnesses: the node of [UploadExamples], and two blocks *)
Module GrpcExamples.
#[local] Existing Instance toy_blake3.
#[local] Existing Instance toy_hex.
#[local] Existing Instance toy_hex_laws.
#[local] Existing Instance toy_order.
#[local] Existing Instance toy_order_laws.
#[local] Existing Instance map_cache.
#[local] Existing Instance map_cache_laws.
#[local] Existing Instance toy_binding_key.
#[local] Existing Instance local_raft.
#[local] Existing Instance RepairExamples.toy_reqs_json.
#[local] Existing Instance RepairExamples.toy_reqs_json_laws.
#[local] Existing Instance UploadExamples.toy_peer_json.
#[local] Existing Instance UploadExamples.toy_peers.
#[local] Existing Instance UploadExamples.toy_peers_laws.
#[local] Existing Instance AdmissionExamples.toy_semaphore.
#[local] Existing Instance AdmissionExamples.toy_semaphore_laws.
Abbreviation node0 := UploadExamples.node0.
Abbreviation ToyNode := UploadExamples.ToyNode.

(** The blocks [[2; 3]] and [[]], the first in two messages. *)
Definition two_blocks : list ((ToyNode → ToyNode) * StreamEvent) :=
  [(λ s, s, Message (MkChunk [x02] false)); (λ s, s, Message (MkChunk [x03] true)); (λ s, s, Message (MkChunk [] true))].
Lemma two_blocks_quiet : quiet two_blocks.
Proof. unfold two_blocks. repeat (apply List.Forall_cons; [apply UploadExamples.others_refl|]). apply List.Forall_nil. Qed.
Definition stream_run : ToyNode * res Status (list string) := put_blocks 1024 None true two_blocks node0.

Lemma streamed_upload_holds_witness :
  is_ok stream_run.2 = true ∧ node_ok [] stream_run.1 ∧
  stored_at stream_run.1 (block_of [x02; x03]) = true ∧ stored_at stream_run.1 (block_of []) = true.
Proof.
  assert (0 ≤ 1024 ≤ MAX_PAYLOAD) as Hm by by vm_compute.
  assert (is_ok stream_run.2 = true) as Hok by by vm_compute. split; [exact Hok|].
  destruct stream_run as [s' r] eqn:E. cbn [fst snd] in *.
  unfold stream_run in E.
  pose proof (streamed_upload_holds 1024 None true two_blocks [] node0 s' r Hm two_blocks_quiet UploadExamples.node0_ok E) as (_ & Ho & _ & Hr).
  clear E. split; [exact Ho|]. destruct r as [ids|e|]; [|discriminate Hok..].
  destruct (Hr ids eq_refl) as [(replicas & bs & _ & Ha & _ & _ & Hs & _) _]. injection Ha as <-.
  split; apply Hs; set_solver.
Defined.

Lemma stream_buffers_within_reservation_witness :
  ∃ s' st, take_chunks 1024 1 (take 1 two_blocks) stream_start node0 = (s', Ok st) ∧
    list_bytes (ss_blocks st) + zlen (ss_current st) ≤ 128 * MIB.
Proof.
  assert (0 ≤ 1024) as Hm by by vm_compute.
  assert (budget_new 1024 = Ok (MkBudget 512 128)) as Hb by by vm_compute.
  pose proof (Forall_take _ 1 _ two_blocks_quiet) as Hq.
  assert (is_ok (take_chunks 1024 1 (take 1 two_blocks) stream_start node0).2 = true) as Hok by by vm_compute.
  destruct (take_chunks 1024 1 (take 1 two_blocks) stream_start node0) as [s' r] eqn:E. cbn [snd] in Hok.
  destruct r as [st|e|]; [|discriminate Hok..]. exists s', st. split; [reflexivity|].
  pose proof (stream_buffers_within_reservation 1024 1 (take 1 two_blocks) [] node0 s' st (MkBudget 512 128)
    Hm Hb Hq UploadExamples.node0_ok E) as (_ & Hx & _). exact Hx.
Defined.
End GrpcExamples.
