(* ===== verification/RepairWalk.v ===== *)
(** * Which blocks a repair round takes

    The repair task walks over the required blocks in the order of their
    identifiers with a cursor, sixteen at a time.  This file has the selection
    of one round and the walk of many: the selection is the first sixteen of
    local and replicated requirements together, so the walk comes past every
    block, even while requirements are added. *)

From S2P Require Import Prelude Core Metadata ControlPlane Durability Scrub Repair.
From Stdlib Require Import Strings.Byte.

(** ** Selection *)
Definition past (after : option BlockId) (id : BlockId) : bool :=
  match after with Some a => negb (bytes_leb (block_bytes id) (block_bytes a)) | None => true end.
(** [candidates.entry(id).or_insert(count)], raised to the maximum. *)
Definition raise (m : gmap BlockId Z) (x : BlockId * Z) : gmap BlockId Z :=
  <[x.1 := Z.max (default x.2 (m !! x.1)) x.2]> m.
Definition select (local : list (BlockId * Z)) (replicated : gmap BlockId Z) (cursor : option BlockId) : list (BlockId * Z) :=
  take 16 (btree_iter (foldl raise (list_to_map local)
    (take 16 (filter (λ x, past cursor x.1 = true) (btree_iter replicated))))).


(** ** The walk over the required blocks *)

(** The order of block identifiers. *)
Definition blk_le (a b : BlockId) : Prop := bytes_leb (block_bytes a) (block_bytes b) = true.
Lemma bytes_leb_total a b : bytes_leb a b = true ∨ bytes_leb b a = true.
Proof.
  revert b. induction a as [|x a IH]; intros [|y b]; cbn; auto. rewrite !orb_true_iff, !andb_true_iff, !Z.ltb_lt, !Z.eqb_eq.
  destruct (Z.lt_trichotomy (byte_Z x) (byte_Z y)) as [|[|]], (IH b); auto.
Qed.
Lemma bytes_leb_trans a b c : bytes_leb a b = true → bytes_leb b c = true → bytes_leb a c = true.
Proof.
  revert b c. induction a as [|x a IH]; intros [|y b] [|z c]; cbn; try done.
  rewrite !orb_true_iff, !andb_true_iff, !Z.ltb_lt, !Z.eqb_eq. intros [?|[? Hb]] [?|[? Hc]]; try (left; lia).
  right. split; [lia|]. by eapply IH.
Qed.
Lemma bytes_leb_antisym a b : bytes_leb a b = true → bytes_leb b a = true → a = b.
Proof.
  revert b. induction a as [|x a IH]; intros [|y b]; cbn; try done.
  rewrite !orb_true_iff, !andb_true_iff, !Z.ltb_lt, !Z.eqb_eq. intros [?|[Hx Ha]] [?|[? Hb]]; try lia.
  f_equal; [by rewrite <-(Z_byte_Z x), <-(Z_byte_Z y), Hx|by apply IH].
Qed.
#[export] Instance blk_le_dec a b : Decision (blk_le a b) := bool_eq_dec _ _.
#[export] Instance blk_le_trans : Transitive blk_le.
Proof. intros a b c. apply bytes_leb_trans. Qed.
#[export] Instance key_le_total {V} : Total (@key_le V).
Proof. intros p q. apply bytes_leb_total. Qed.
#[export] Instance key_le_trans {V} : Transitive (@key_le V).
Proof. intros p q r. apply bytes_leb_trans. Qed.
Lemma blk_le_antisym a b : blk_le a b → blk_le b a → a = b.
Proof. intros H1 H2. pose proof (bytes_leb_antisym _ _ H1 H2). destruct a, b. cbn in *. f_equal. by apply array_eq. Qed.
Lemma past_spec c u : past c u = true ↔ ∀ a, c = Some a → ¬ blk_le u a.
Proof. unfold past, blk_le. destruct c as [a|]; [|naive_solver]. rewrite negb_true_iff, <-not_true_iff_false. naive_solver. Qed.
Lemma past_le c u v : past c u = true → blk_le u v → past c v = true.
Proof. rewrite !past_spec. intros Hu Hv a ->. intros Hva. apply (Hu a eq_refl). by etrans. Qed.
Lemma not_past c u : past c u = false ↔ ∃ a, c = Some a ∧ blk_le u a.
Proof. unfold past, blk_le. destruct c as [a|]; [|naive_solver]. rewrite negb_false_iff. naive_solver. Qed.

(** The first elements of a sorted list. *)
Lemma take_least {A} (R : relation A) k l x :
  StronglySorted R l → x ∈ l → x ∈ take k l ∨ (length (take k l) = k ∧ ∀ y, y ∈ take k l → R y x).
Proof.
  intros Hs Hx. rewrite <-(take_drop k l) in Hs, Hx. apply elem_of_app in Hx as [Hx|Hx]; [by left|right].
  assert (length (drop k l) ≠ 0)%nat as Hd by (destruct (drop k l); [by apply elem_of_nil in Hx|done]).
  rewrite length_drop in Hd. rewrite length_take. split; [lia|]. intros y Hy. by eapply StronglySorted_app_1_elem_of.
Qed.
Lemma take_below {A} (R : relation A) (P : A → Prop) k l l' :
  StronglySorted R l → (∀ y z, R y z → P z → P y) → NoDup l' → length l' = k →
  (∀ y, y ∈ l' → y ∈ l ∧ P y) → (∀ y, Decision (P y)) → ∀ y, y ∈ take k l → P y.
Proof.
  intros Hs Hd Hn Hk Hl Hdec y Hy. destruct (decide (P y)) as [|Hp]; [done|exfalso].
  apply list_elem_of_lookup in Hy as [i Hi]. apply lookup_take_Some in Hi as [Hi Hik].
  rewrite <-(take_drop_middle _ _ _ Hi) in Hs, Hl.
  assert (l' ⊆ take i l) as Hsub.
  { intros z Hz. apply Hl in Hz as [[Hz|[->|Hz]%elem_of_cons]%elem_of_app Hpz]; [done|done|].
    exfalso. apply Hp, (Hd y z); [|done]. apply StronglySorted_app_1_r in Hs. apply StronglySorted_inv in Hs as [_ Hf].
    rewrite Forall_forall in Hf. by apply Hf. }
  apply NoDup_submseteq in Hsub; [|done]. apply submseteq_length in Hsub. rewrite length_take in Hsub. lia.
Qed.

(** ** The selection *)
Lemma btree_iter_sorted {V} (m : gmap BlockId V) : StronglySorted key_le (btree_iter m).
Proof. apply StronglySorted_merge_sort; apply _. Qed.
Lemma btree_iter_pair {V} (m : gmap BlockId V) id v : (id, v) ∈ btree_iter m ↔ m !! id = Some v.
Proof. unfold btree_iter. by rewrite merge_sort_Permutation, elem_of_map_to_list. Qed.
Lemma btree_iter_NoDup {V} (m : gmap BlockId V) : NoDup (btree_iter m).*1.
Proof. unfold btree_iter. rewrite merge_sort_Permutation. apply NoDup_fst_map_to_list. Qed.
Lemma sorted_filter {A} (R : relation A) (P : A → Prop) `{!∀ x, Decision (P x)} l :
  StronglySorted R l → StronglySorted R (filter P l).
Proof.
  induction 1 as [|x l Hl IH Hx]; [constructor|]. rewrite filter_cons. case_decide; [|done]. constructor; [done|].
  apply Forall_forall. intros y [_ Hy]%list_elem_of_filter. rewrite Forall_forall in Hx. by apply Hx.
Qed.

(** The first sixteen of a map that satisfy a condition. *)
Definition first16 {V} (f : BlockId * V → bool) (m : gmap BlockId V) : list (BlockId * V) :=
  take 16 (filter (λ x, f x = true) (btree_iter m)).
Lemma first16_elem {V} f (m : gmap BlockId V) id v : (id, v) ∈ first16 f m → m !! id = Some v ∧ f (id, v) = true.
Proof.
  intros (i & Hi%list_elem_of_lookup_2 & _)%elem_of_take. apply list_elem_of_filter in Hi as [? Hi].
  by apply btree_iter_pair in Hi.
Qed.
Lemma first16_NoDup {V} f (m : gmap BlockId V) : NoDup (first16 f m).*1.
Proof.
  eapply sublist_NoDup; [apply (btree_iter_NoDup m)|]. apply fmap_sublist. etrans; [apply sublist_take|apply sublist_filter].
Qed.
Lemma first16_least {V} f (m : gmap BlockId V) id v :
  m !! id = Some v → f (id, v) = true →
  id ∈ (first16 f m).*1 ∨ (length (first16 f m) = 16%nat ∧ ∀ y, y ∈ first16 f m → blk_le y.1 id).
Proof.
  intros Hm Hf. destruct (take_least key_le 16 (filter (λ x, f x = true) (btree_iter m)) (id, v)) as [Hi|[Hl Hi]].
  - apply sorted_filter, btree_iter_sorted.
  - apply list_elem_of_filter. by rewrite btree_iter_pair.
  - left. by apply (list_elem_of_fmap_2 fst) in Hi.
  - right. split; [done|]. intros y Hy. by apply Hi in Hy.
Qed.
Lemma repair_batch_first l after : repair_batch l after = first16 (wanted after) (rq_blocks (rl_requirements l)).
Proof. reflexivity. Qed.

Lemma raise_all_dom l (m : gmap BlockId Z) id : is_Some (foldl raise m l !! id) ↔ is_Some (m !! id) ∨ id ∈ l.*1.
Proof.
  revert m. induction l as [|[i c] l IH]; intros m; cbn; [by rewrite elem_of_nil; naive_solver|].
  rewrite IH, elem_of_cons. unfold raise. cbn. destruct (decide (i = id)) as [->|Hne].
  - rewrite lookup_insert_eq. naive_solver.
  - rewrite lookup_insert_ne by done. naive_solver.
Qed.

(** The blocks a round may take. *)
Definition repairable (local : RepairLog) (replicated : gmap BlockId Z) (id : BlockId) : Prop :=
  (∃ c, rq_blocks (rl_requirements local) !! id = Some c ∧ 1 < c) ∨ is_Some (replicated !! id).

Section Select.
Context (local : RepairLog) (replicated : gmap BlockId Z) (cursor : option BlockId).
Let batch := repair_batch local cursor.
Let top := first16 (λ x, past cursor x.1) replicated.
Let merged : gmap BlockId Z := foldl raise (list_to_map batch) top.
Let sel := (select batch replicated cursor).*1.

Lemma merged_dom id : is_Some (merged !! id) ↔ id ∈ batch.*1 ∨ id ∈ top.*1.
Proof.
  unfold merged. rewrite raise_all_dom. apply or_iff_compat_r. split.
  - intros [c Hc]. apply elem_of_list_to_map_2 in Hc. by apply (list_elem_of_fmap_2 fst) in Hc.
  - intros ([i c] & -> & Hi)%list_elem_of_fmap. exists c. apply elem_of_list_to_map_1; [|done].
    unfold batch. rewrite repair_batch_first. apply first16_NoDup.
Qed.
Lemma merged_past id : is_Some (merged !! id) → past cursor id = true ∧ repairable local replicated id.
Proof.
  intros [Hi|Hi]%merged_dom; apply list_elem_of_fmap in Hi as ([i c] & -> & Hi).
  - unfold batch in Hi. rewrite repair_batch_first in Hi. apply first16_elem in Hi as [Hl Hw].
    unfold wanted in Hw. cbn in *. apply andb_true_iff in Hw as [?%Z.ltb_lt ?]. split; [done|]. left. by exists c.
  - apply first16_elem in Hi as [Hl Hw]. split; [done|]. right. by exists c.
Qed.
Lemma select_elem id : id ∈ sel → past cursor id = true ∧ repairable local replicated id.
Proof.
  intros ([i c] & -> & (k & Hi%list_elem_of_lookup_2 & _)%elem_of_take)%list_elem_of_fmap.
  apply btree_iter_pair in Hi. apply merged_past. by exists c.
Qed.
Lemma select_NoDup : NoDup sel.
Proof. eapply sublist_NoDup; [apply (btree_iter_NoDup merged)|]. apply fmap_sublist, sublist_take. Qed.
Lemma select_sorted : StronglySorted blk_le sel.
Proof.
  apply (StronglySorted_fmap fst key_le); [done|]. pose proof (btree_iter_sorted merged) as Hs.
  rewrite <-(take_drop 16 (btree_iter merged)) in Hs. by apply StronglySorted_app_1_l in Hs.
Qed.
(** What is not selected comes after sixteen that are. *)
Lemma select_least id :
  past cursor id = true → repairable local replicated id →
  id ∈ sel ∨ (length sel = 16%nat ∧ ∀ y, y ∈ sel → blk_le y id).
Proof.
  intros Hp Hr. destruct (decide (is_Some (merged !! id))) as [[c Hc]|Hno].
  { destruct (take_least key_le 16 (btree_iter merged) (id, c) (btree_iter_sorted _)) as [Hi|[Hl Hi]];
      [by apply btree_iter_pair|left; by apply (list_elem_of_fmap_2 fst) in Hi|right].
    split; [by unfold sel; rewrite length_fmap|]. intros y (x & -> & Hx)%list_elem_of_fmap. by apply Hi in Hx. }
  right. assert (∃ l : list (BlockId * Z), NoDup l.*1 ∧ length l = 16%nat ∧
    ∀ y, y ∈ l → is_Some (merged !! y.1) ∧ blk_le y.1 id) as (l & Hn & Hl & Hin).
  { destruct Hr as [(c & Hc & Hc1)|[c Hc]].
    - exists batch. unfold batch at 1 2. rewrite repair_batch_first. split; [apply first16_NoDup|].
      destruct (first16_least (wanted cursor) _ id c Hc) as [Hi|[Hl Hi]].
      + unfold wanted. cbn. by rewrite (proj2 (Z.ltb_lt _ _)) by done.
      + exfalso. apply Hno, merged_dom. by left.
      + split; [done|]. intros y Hy. split; [apply merged_dom; left; by apply (list_elem_of_fmap_2 fst)|by apply Hi].
    - exists top. split; [apply first16_NoDup|].
      destruct (first16_least (λ x, past cursor x.1) replicated id c Hc Hp) as [Hi|[Hl Hi]].
      + exfalso. apply Hno, merged_dom. by right.
      + split; [done|]. intros y Hy. split; [apply merged_dom; right; by apply (list_elem_of_fmap_2 fst)|by apply Hi]. }
  assert (∀ y, y ∈ l.*1 → y ∈ (btree_iter merged).*1 ∧ blk_le y id) as Hsub.
  { intros y (x & -> & Hx)%list_elem_of_fmap. apply Hin in Hx as [[v Hv] ?]. split; [|done].
    apply btree_iter_pair in Hv. by apply (list_elem_of_fmap_2 fst) in Hv. }
  assert (16 <= length (btree_iter merged))%nat as Hlen.
  { rewrite <-Hl, <-(length_fmap fst l), <-(length_fmap fst (btree_iter merged)). apply submseteq_length, NoDup_submseteq; [done|].
    intros y Hy. by apply Hsub. }
  change sel with (take 16 (btree_iter merged)).*1. split; [rewrite length_fmap, length_take; lia|].
  rewrite fmap_take. apply (take_below blk_le (λ y, blk_le y id) 16 _ l.*1); [|intros y z ? ?; by etrans|done|by rewrite length_fmap|done|apply _].
  apply (StronglySorted_fmap fst key_le); [done|]. apply btree_iter_sorted.
Qed.
End Select.

(** ** The walk *)

(** A round at cursor [c] took [sel] and left the cursor at [c']. *)
Record pick (U : gset BlockId) (x : BlockId) (c : option BlockId) (sel : list BlockId) (c' : option BlockId) : Prop := {
  pk_cursor : c' = last sel;
  pk_elem : ∀ y, y ∈ sel → past c y = true ∧ y ∈ U;
  pk_NoDup : NoDup sel;
  pk_sorted : StronglySorted blk_le sel;
  pk_least : past c x = true → x ∈ sel ∨ (length sel = 16%nat ∧ ∀ y, y ∈ sel → blk_le y x) }.

(** What is ahead of the cursor, and up to [x]. *)
Definition ahead (U : gset BlockId) (c : option BlockId) : gset BlockId := filter (λ u, past c u = true) U.
Definition upto (U : gset BlockId) (c : option BlockId) (x : BlockId) : gset BlockId := filter (λ u, blk_le u x) (ahead U c).

Lemma strongly_sorted_last {A} (R : relation A) `{!Reflexive R} l z y : StronglySorted R l → last l = Some z → y ∈ l → R y z.
Proof.
  intros Hs [l' ->]%last_Some [Hy|Hy]%elem_of_app; [|by apply list_elem_of_singleton in Hy as ->].
  apply (StronglySorted_app_1_elem_of _ _ _ y z Hs Hy). by left.
Qed.
#[export] Instance blk_le_refl : Reflexive blk_le.
Proof. intros a. destruct (bytes_leb_total (block_bytes a) (block_bytes a)); done. Qed.

Section Pick.
Context U x c sel c' (Hp : pick U x c sel c').
Lemma pick_last z : c' = Some z → z ∈ sel ∧ ∀ y, y ∈ sel → blk_le y z.
Proof.
  destruct Hp as [-> _ _ Hs _]. intros Hl. split; [by apply last_Some_elem_of|]. intros y Hy. exact (strongly_sorted_last blk_le sel z y Hs Hl Hy).
Qed.
(** The selected blocks are behind the new cursor. *)
Lemma pick_behind : sel ≠ [] → ∃ z, c' = Some z ∧ list_to_set sel ⊆ ahead U c ∧ ahead U c' ⊆ ahead U c ∖ list_to_set sel.
Proof.
  intros Hne. destruct (last sel) as [z|] eqn:Hl; [|destruct Hne; by apply last_None]. pose proof (pk_cursor _ _ _ _ _ Hp) as Hc.
  rewrite Hl in Hc. destruct (pick_last z Hc) as [Hz Hle]. exists z. split_and!; [done| |].
  - intros y Hy%elem_of_list_to_set. apply elem_of_filter. by apply (pk_elem _ _ _ _ _ Hp).
  - intros y [Hy Hu]%elem_of_filter. rewrite elem_of_difference, elem_of_list_to_set. unfold ahead. rewrite elem_of_filter.
    rewrite past_spec in Hy. specialize (Hy z Hc). destruct (pk_elem _ _ _ _ _ Hp z Hz) as [Hpz _].
    split_and!; [|done|intros Hin; by apply Hy, Hle]. eapply past_le; [exact Hpz|].
    destruct (bytes_leb_total (block_bytes z) (block_bytes y)); [done|]. by destruct Hy.
Qed.
Lemma pick_misses : x ∈ U → past c x = true → x ∉ sel → past c' x = true ∧ (size (upto U c' x) + 16 <= size (upto U c x))%nat.
Proof.
  intros Hx Hpx Hno. destruct (pk_least _ _ _ _ _ Hp Hpx) as [?|[Hlen Hle]]; [done|].
  destruct pick_behind as (z & Hz & Hsub & Hah); [by intros ->|]. destruct (pick_last z Hz) as [Hzs _]. split.
  { apply past_spec. intros a Ha Hxa. rewrite Hz in Ha. simplify_eq. assert (x = a) as -> by (apply blk_le_antisym; [done|by apply Hle]). done. }
  rewrite <-Hlen, <-(size_list_to_set (C := gset BlockId) sel) by by apply (pk_NoDup _ _ _ _ _ Hp).
  rewrite <-size_union.
  - apply subseteq_size. intros y [Hy|Hy]%elem_of_union.
    + apply elem_of_filter in Hy as [? Hy%Hah]. apply elem_of_filter. set_solver.
    + apply elem_of_filter. split; [apply Hle; by apply elem_of_list_to_set in Hy|by apply Hsub].
  - intros y [_ Hy%Hah]%elem_of_filter. set_solver.
Qed.
Lemma pick_advances : past c x = false →
  c' = None ∨ (past c' x = false ∧ (size (ahead U c') + 1 <= size (ahead U c))%nat).
Proof.
  intros (a & Hca & Ha)%not_past. destruct (decide (sel = [])) as [E|Hne]; [left; by rewrite (pk_cursor _ _ _ _ _ Hp), E|right].
  destruct (pick_behind Hne) as (z & Hz & Hsub & Hah). destruct (pick_last z Hz) as [Hzs _].
  destruct (pk_elem _ _ _ _ _ Hp z Hzs) as [Hpz HzU]. rewrite past_spec in Hpz. split.
  - apply not_past. exists z. split; [done|]. destruct (bytes_leb_total (block_bytes x) (block_bytes z)); [done|].
    exfalso. apply (Hpz a Hca). by etrans.
  - rewrite <-(size_singleton (C := gset BlockId) z), <-size_union.
    + apply subseteq_size. intros y [Hy|Hy]%elem_of_union; [by apply Hah in Hy; set_solver|].
      apply elem_of_singleton in Hy as ->. apply Hsub. by apply elem_of_list_to_set.
    + intros y Hy%Hah Hs%elem_of_singleton. set_solver.
Qed.
End Pick.

(** How far the walk is from [x], in rounds. *)
Definition near (U : gset BlockId) (x : BlockId) (c : option BlockId) (k : nat) : Prop :=
  if past c x then (size (upto U c x) <= 16 * k)%nat else (size (ahead U c) + size U / 16 + 2 <= k)%nat.
Lemma near_start U x c k : (size U + size U / 16 + 2 <= k)%nat → near U x c k.
Proof.
  intros Hk. assert (size (ahead U c) <= size U)%nat as Ha by (apply subseteq_size; set_solver).
  assert (size (upto U c x) <= size (ahead U c))%nat by (apply subseteq_size; set_solver).
  unfold near. case_match; lia.
Qed.
Lemma near_zero U x c : x ∈ U → ¬ near U x c 0.
Proof.
  intros Hx. unfold near. case_match eqn:E; [|lia]. intros H0. assert (x ∈ upto U c x) as Hin.
  { unfold upto, ahead. rewrite !elem_of_filter. by split_and!. }
  assert (size ({[x]} : gset BlockId) <= size (upto U c x))%nat as Hs by (apply subseteq_size; set_solver).
  rewrite size_singleton in Hs. lia.
Qed.
Lemma near_step U x c sel c' k : pick U x c sel c' → x ∈ U → x ∉ sel → near U x c (S k) → near U x c' k.
Proof.
  intros Hp Hx Hno. unfold near at 1. destruct (past c x) eqn:E.
  - destruct (pick_misses _ _ _ _ _ Hp Hx E Hno) as [E' ?]. unfold near. rewrite E'. lia.
  - intros Hk. destruct (pick_advances _ _ _ _ _ Hp E) as [->|[E' ?]]; [|unfold near; rewrite E'; lia].
    unfold near. cbn [past]. assert (size (upto U None x) <= size U)%nat by (apply subseteq_size; set_solver).
    pose proof (Nat.div_mod_eq (size U) 16). pose proof (Nat.mod_upper_bound (size U) 16). lia.
Qed.
