(* ===== verification/RepairTask.v ===== *)
(** * The repair task ([start] of [crates/kalpakdb/src/repair.rs])

    Every five seconds a node offers its local replica intents to consensus,
    and the leader walks over the required blocks, sixteen at a time: it pins
    the requirement, reads and verifies its own copy or fetches one from a
    peer, and collects acknowledgements.  A round is one execution of the loop
    body; its two cursors are passed from round to round.  The lines the task
    prints are returned as a report.  As in [Upload], other handlers may run
    during each call to a peer. *)

From S2P Require Import Prelude Core Signing Metadata Leases StateMachine StateInvariant ControlPlane Durability Io Segment Store StoreInvariant StorePut StoreTheorems StoreOpen StoreCompact Tiered TieredCold Retention RetentionTheorems Scrub Codecs LogStore Manifest ManifestTheorems Repair Api Upload UploadLogic UploadTheorems RepairWalk.
From Stdlib Require Import Strings.Byte.

Record Cursors := MkCursors { cu_cursor : option BlockId; cu_migration : option BlockId }.

(** What became of a block in a round. *)
Inductive RepairOutcome :=
| NoSlot                       (** the upload budget is exhausted: the round ends *)
| NotPinned                    (** the requirement could not be recorded *)
| SourceUnavailable
| AckFailed (message : string)
| Acknowledged (payload : bytes).
Abbreviation Report := (list (BlockId * Z * RepairOutcome)).

Class RepairNet (N : Type) := {
  upload_slot : N → N * bool;                              (** [uploads.try_acquire()] *)
  fetch_replica : string → BlockId → N → N * Reply chunks  (** with its 5 s timeout *) }.

(** [while let Ok(Some(chunk))]: a read error ends the body; one chunk too
    many empties it. *)
Fixpoint read_limited (limit : Z) (bytes_ : bytes) (l : chunks) : bytes :=
  match l with
  | [] | None :: _ => bytes_
  | Some chunk :: l => if saturating_sub limit (zlen bytes_) <? zlen chunk then [] else read_limited limit (bytes_ ++ chunk) l
  end.

Section RepairTask.
Context {W S C : Type} `{Raft W, ColdStore S, Moka C, Blake3, HashOrder, Hex, ReqsJson, PeerJson}.
Abbreviation Node := (NodeState W S C).
Context `{DataPeers Node, RepairNet Node}.
Context (max_block_bytes : Z).
Abbreviation PM := (ST Node string).

(** An error that is dropped. *)
Definition ignoring {A} (m : PM A) : PM (option A) := λ s,
  match m s with
  | (s, Ok a) => (s, Ok (Some a))
  | (s, Err _) => (s, Ok None)
  | (s, Panic) => (s, Panic)
  end.

(** ** Promotion of local intents *)
Fixpoint promote (known : gmap BlockId Z) (l : list (BlockId * Z)) (migration : option BlockId) : PM (option BlockId) :=
  match l with
  | [] => mret migration
  | (id, replicas) :: l =>
      (if match known !! id with Some n => replicas <=? n | None => false end then mret None
       else ignoring (commit_requirements [id] replicas)) ≫= λ _,
      promote known l (Some id)
  end.
Definition promote_intents (migration : option BlockId) : PM (option BlockId) := λ s,
  let known := replica_requirements_view (sm_state (nd_raft s)) in
  let l := repair_batch (nd_log s) migration in
  promote known l (if bool_decide (l = []) then None else migration) s.

(** ** One block *)

(** The local copy, after the requirement is on disk; [None]: the requirement
    could not be recorded. *)
Definition pin_and_read (id : BlockId) (replicas : Z) : PM (option (option bytes)) :=
  ignoring (on_log io_msg (record_reqs [id] replicas)) ≫= λ pinned,
  match pinned with
  | None => mret None
  | Some _ => ignoring (on_store error_message (verify_cold id ≫= λ _, tiered_get id)) ≫= λ copy, mret (Some copy)
  end.
(** A copy from a peer, saved under a write guard. *)
Fixpoint fetch_copy (id : BlockId) (peers : list (Z * string)) : PM (option bytes) :=
  match peers with
  | [] => mret None
  | (_, peer) :: peers => λ s,
      match fetch_replica peer id s with
      | (s, Replied l) =>
          let bytes_ := read_limited max_block_bytes [] l in
          if bool_decide (block_of bytes_ = id) then
            (ignoring (guarded io_msg [id] (on_store error_message (tiered_repair id bytes_))) ≫= λ saved,
             match saved with
             | Some _ => mret (Some bytes_)
             | None => fetch_copy id peers
             end) s
          else fetch_copy id peers s
      | (s, _) => fetch_copy id peers s
      end
  end.
Definition find_copy (id : BlockId) (copy : option bytes) : PM (option bytes) := λ s,
  match copy with
  | Some payload => (s, Ok (Some payload))
  | None =>
      fetch_copy id (merge_sort (peer_key_le (known_nodes (nd_log s) id)) (peer_nodes (self_id s) (cluster s))) s
  end.
Definition acknowledge_copy (id : BlockId) (replicas : Z) (copy : option bytes) : PM RepairOutcome := λ s,
  match copy with
  | None => (s, Ok SourceUnavailable)
  | Some payload =>
      match acknowledge_replicas "/v1/blocks" payload (ExpectId (block_display id)) replicas s with
      | (s, Ok _) => (s, Ok (Acknowledged payload))
      | (s, Err e) => (s, Ok (AckFailed e))
      | (s, Panic) => (s, Panic)
      end
  end.
Definition repair_block (id : BlockId) (replicas : Z) : PM RepairOutcome :=
  pin_and_read id replicas ≫= λ payload,
  match payload with
  | None => mret NotPinned
  | Some copy => find_copy id copy ≫= acknowledge_copy id replicas
  end.

(** ** The round *)
Fixpoint repair_blocks (batch : list (BlockId * Z)) (cursor : option BlockId) (report : Report)
    : PM (option BlockId * Report) :=
  match batch with
  | [] => mret (cursor, report)
  | (id, replicas) :: batch => λ s,
      match upload_slot s with
      | (s, false) => (s, Ok (Some id, report ++ [(id, replicas, NoSlot)]))
      | (s, true) =>
          (repair_block id replicas ≫= λ outcome,
           repair_blocks batch (Some id) (report ++ [(id, replicas, outcome)])) s
      end
  end.
Definition leading (s : Node) : bool := bool_decide (current_leader (nd_raft s) = Some (self_id s)).
Definition candidates (cursor : option BlockId) (s : Node) : list (BlockId * Z) :=
  select (repair_batch (nd_log s) cursor) (replica_requirements_view (sm_state (nd_raft s))) cursor.
Definition repair_candidates (cursor : option BlockId) : PM (option BlockId * Report) := λ s,
  if negb (leading s) then (s, Ok (cursor, []))
  else repair_blocks (candidates cursor s) (if bool_decide (candidates cursor s = []) then None else cursor) [] s.
Definition repair_round (cs : Cursors) : PM (Cursors * Report) :=
  promote_intents (cu_migration cs) ≫= λ migration,
  repair_candidates (cu_cursor cs) ≫= λ '(cursor, report),
  mret (MkCursors cursor migration, report).
End RepairTask.

(** ** What a round does to the node *)
Section RepairLogic.
Context {W S C : Type} `{!Raft W, ColdStoreExact S, !Moka C, !MokaLaws C, HashOrderLaws, HexLaws, ReqsJsonLaws, !PeerJson}.
Context `{!DataPeers (NodeState W S C), !DataPeersLaws, !RepairNet (NodeState W S C)}.
Abbreviation Node := (NodeState W S C).
Class RepairNetLaws := {
  law_upload_slot : ∀ s : Node, others s (upload_slot s).1;
  law_fetch_replica : ∀ addr id (s : Node), others s (fetch_replica addr id s).1 }.
Context `{!RepairNetLaws} (max_block_bytes : Z) (Hmax : 0 ≤ max_block_bytes ≤ MAX_PAYLOAD).

Lemma ignoring_runs {A} mine P (m : ST Node string A) (Q : A → Node → Prop) :
  runs mine P m Q → runs mine P (ignoring m) (λ o s, ∀ a, o = Some a → Q a s).
Proof.
  intros Hm s s' r Ho HP Er. unfold ignoring in Er. destruct (m s) as [s1 x] eqn:Ex.
  destruct (Hm _ _ _ Ho HP Ex) as (? & ? & Hx). destruct x as [a|e|]; simplify_eq; [|by split_and!|done].
  split_and!; [done|done|]. by intros a' [= <-].
Qed.

(** Code that never fails with an error. *)
Definition calm {A} (m : ST Node string A) : Prop := ∀ s s' e, m s ≠ (s', Err e).
Lemma calm_ret {A} (a : A) : calm (mret a).
Proof. done. Qed.
Lemma calm_bind {A B} (m : ST Node string A) (f : A → ST Node string B) : calm m → (∀ a, calm (f a)) → calm (m ≫= f).
Proof.
  intros Hm Hf s s' e E. unfold mbind, ST_bind in E. destruct (m s) as [s1 [a|e1|]] eqn:E1; [by eapply Hf|by eapply Hm|done].
Qed.
Lemma calm_ignoring {A} (m : ST Node string A) : calm (ignoring m).
Proof. intros s s' e E. unfold ignoring in E. by destruct (m s) as [s1 []]. Qed.
#[local] Hint Resolve calm_ret calm_bind calm_ignoring : core.
Lemma calm_promote known l migration : calm (promote known l migration).
Proof. revert migration. induction l as [|[id n] l IH]; intros migration; [done|]. apply calm_bind; [|auto]. case_goal; auto. Qed.
Lemma calm_fetch id peers : calm (fetch_copy max_block_bytes id peers).
Proof.
  induction peers as [|[node peer] peers IH]; [done|]. intros s s' e. cbn. destruct (fetch_replica peer id s) as [s1 []]; try apply IH.
  case_bool_decide; [|apply IH]. apply calm_bind; [auto|]. intros [u|]; auto.
Qed.
Lemma calm_block id replicas : calm (repair_block max_block_bytes id replicas).
Proof.
  apply calm_bind. { apply calm_bind; [auto|]. intros [u|]; [|auto]. apply calm_bind; auto. }
  intros [copy|]; [|auto]. apply calm_bind.
  - intros s s' e. destruct copy; [done|apply calm_fetch].
  - intros [p|] s s' e; [|done]. unfold acknowledge_copy. by destruct (acknowledge_replicas _ _ _ _ s) as [s1 []].
Qed.
Lemma calm_blocks batch cursor report : calm (repair_blocks max_block_bytes batch cursor report).
Proof.
  revert cursor report. induction batch as [|[id n] batch IH]; intros cursor report; [done|]. intros s s' e. cbn.
  destruct (upload_slot s) as [s1 []]; [|done]. apply calm_bind; [apply calm_block|auto].
Qed.
Lemma calm_round cs : calm (repair_round max_block_bytes cs).
Proof.
  apply calm_bind; [intros s s' e; apply calm_promote|]. intros migration. apply calm_bind; [|by intros []].
  intros s s' e. unfold repair_candidates. case_goal; [done|apply calm_blocks].
Qed.

Lemma promote_runs mine known l migration : runs mine (λ _, True) (promote known l migration) (λ _ _, True).
Proof.
  revert migration. induction l as [|[id replicas] l IH]; intros migration; [by apply runs_ret|]. cbn [promote].
  eapply runs_bind with (Q := λ _ _, True); [|by intros a].
  destruct (match known !! id with Some n => _ | None => false end); [by apply runs_ret|].
  eapply runs_weaken; [eapply ignoring_runs, (commit_runs mine 0)|intros s _; unfold since; lia|done].
Qed.

Lemma tier_read id : tier_step [] (verify_cold id ≫= λ _, tiered_get id)
  (λ p (t : TieredStore S C), block_of p = id ∧ cold_contains (cold t) id = true).
Proof.
  eapply tier_step_bind; [done|apply tier_verify|]. intros u t t' r Ht E.
  destruct (tier_get id _ _ _ Ht E) as (? & Hg & ? & Hr). split_and!; [done..|]. destruct r as [p|e|]; [|done..].
  intros t0 Hc Hg0. split; [by destruct Hr|]. by apply Hg0.
Qed.

(** A copy that was found is authentic and in the cold store. *)
Definition found_copy (id : BlockId) (copy : option bytes) (s : Node) : Prop :=
  ∀ p, copy = Some p → block_of p = id ∧ stored_in [id] s.
#[export] Instance found_copy_stable id copy : Stable (found_copy id copy).
Proof. unfold found_copy. apply _. Qed.

Lemma pin_runs mine id replicas :
  runs mine (λ _, True) (pin_and_read id replicas)
    (λ o s, ∀ copy, o = Some copy → required_in replicas [id] s ∧ found_copy id copy s).
Proof.
  unfold pin_and_read. eapply runs_bind.
  { eapply ignoring_runs. apply (log_runs mine (RecordOp [id] replicas)). }
  intros [u|]; [|by apply runs_ret]. cbn beta.
  apply (runs_pre _ (required_in replicas [id])); [intros s Hd; by apply (Hd u)|].
  eapply runs_seq; [apply _| |intros copy; apply runs_ret; by intros s [Hf ?] c [= <-]]. cbn beta.
  eapply runs_weaken with (P := λ s, guarded_in [] s);
    [eapply ignoring_runs, store_runs, tier_read|by intros s _ i ?%elem_of_nil|].
  intros o s Ho p ->. destruct (Ho p eq_refl) as [? Hc]. split; [done|]. by intros i ->%list_elem_of_singleton.
Qed.

Lemma read_limited_length l acc : zlen acc ≤ max_block_bytes → zlen (read_limited max_block_bytes acc l) ≤ max_block_bytes.
Proof.
  revert acc. induction l as [|[c|] l IH]; intros acc Ha; [done| |done]. cbn. unfold saturating_sub. case_goal; [zl|].
  bool_prop. apply IH. rewrite zlen_app. lia.
Qed.

Lemma fetch_copy_runs mine id peers : runs mine (λ _, True) (fetch_copy max_block_bytes id peers) (found_copy id).
Proof.
  induction peers as [|[node peer] peers IH]; [apply runs_ret; by intros s _ p|]. intros s s' r Ho _ Er. cbn [fetch_copy] in Er.
  destruct (law_fetch_replica peer id s mine Ho) as [Ho1 Hm1]. destruct (fetch_replica peer id s) as [s1 reply]. cbn [fst] in *.
  assert (∀ m : ST Node string (option bytes), runs mine (λ _, True) m (found_copy id) → m s1 = (s', r) →
    node_ok mine s' ∧ moves s s' ∧ match r with Ok o => found_copy id o s' | Err _ => True | Panic => False end) as Hgo.
  { intros m Hm E. destruct (Hm _ _ _ Ho1 I E) as (? & ? & ?). split_and!; [done|by etrans|done]. }
  destruct reply as [| | |l]; try by apply (Hgo _ IH).
  set (p := read_limited max_block_bytes [] l) in *. case_bool_decide as Hp; [|by apply (Hgo _ IH)]. revert Er. apply Hgo.
  assert (zlen p ≤ MAX_PAYLOAD) as Hs by (pose proof (read_limited_length l []) as Hl; unfold p; zl).
  eapply runs_bind with (Q := λ o s, ∀ u, o = Some u → stored_in [id] s).
  - eapply runs_weaken; [eapply ignoring_runs, (guarded_runs mine [id] io_msg _ (λ _, True) (λ _, stored_in [id])); [apply _..|]|done|done].
    eapply runs_weaken; [by apply (store_runs _ [id]), tier_repair|by intros s2 [_ ?]|].
    intros i s2 [_ Hc] j ->%list_elem_of_singleton. done.
  - intros [u|]; [apply runs_ret; intros s2 Hu q [= <-]; by split; [|apply (Hu u)]|].
    eapply runs_pre; [|exact IH]. done.
Qed.

(** What the outcome of a block says. *)
Definition settled (n : nat) (x : BlockId * Z * RepairOutcome) (s : Node) : Prop :=
  let '(id, replicas, outcome) := x in
  match outcome with
  | NoSlot | NotPinned => True
  | SourceUnavailable | AckFailed _ => required_in replicas [id] s
  | Acknowledged payload =>
      block_of payload = id ∧ stored_in [id] s ∧ required_in replicas [id] s ∧
      (replicas ≠ 1 → committed_reqs n [id] replicas s ∧
         quorum n "/v1/blocks" payload (ExpectId (block_display id)) [id] replicas s)
  end.
#[export] Instance settled_stable n x : Stable (settled n x).
Proof. destruct x as [[id replicas] []]; unfold settled; apply _. Qed.

Lemma acknowledge_copy_runs mine n id replicas copy :
  runs mine (λ s, since n s ∧ required_in replicas [id] s ∧ found_copy id copy s) (acknowledge_copy id replicas copy)
    (λ outcome s, settled n (id, replicas, outcome) s).
Proof.
  intros s s' r Ho (Hn & Hr & Hf) Er. unfold acknowledge_copy in Er. destruct copy as [p|]; [|by simplify_eq].
  destruct (Hf p eq_refl) as [Hp Hs].
  destruct (acknowledge_replicas _ _ _ _ s) as [s1 x] eqn:Ex.
  assert (node_ok mine s1 ∧ moves s s1 ∧ x ≠ Panic ∧ (x = Ok () → replicas ≠ 1 → committed_reqs n [id] replicas s1 ∧
    quorum n "/v1/blocks" p (ExpectId (block_display id)) [id] replicas s1)) as (Ho1 & Hm & Hx & Hq).
  { destruct (Z.eq_dec replicas 1) as [->|Hne]; [injection Ex as <- <-; by split_and!|].
    destruct (acknowledge_runs mine n "/v1/blocks" p _ [id] replicas (expected_one id) Hne _ _ _ Ho Hn Ex) as (? & ? & ?).
    split_and!; [done|done|by intros ->|by intros ->]. }
  pose proof (stable (P := required_in _ _) _ _ Hm Hr) as Hr1. pose proof (stable (P := stored_in _) _ _ Hm Hs) as Hs1.
  destruct x as [[]|e|]; [| |done]; injection Er as <- <-; [|by split_and!]. split_and!; [done|done|]. split_and!; try done. by apply Hq.
Qed.

Lemma repair_block_runs mine n id replicas :
  runs mine (since n) (repair_block max_block_bytes id replicas) (λ outcome s, settled n (id, replicas, outcome) s).
Proof.
  unfold repair_block. eapply runs_seq; [apply _|eapply runs_pre; [|apply pin_runs]; done|].
  intros [copy|]; [|by apply runs_ret]. cbn beta.
  apply (runs_pre _ (λ s, found_copy id copy s ∧ since n s ∧ required_in replicas [id] s));
    [intros s [Hc ?]; destruct (Hc copy eq_refl); by split_and!|].
  eapply runs_bind with (Q := λ o s, since n s ∧ required_in replicas [id] s ∧ found_copy id o s);
    [|intros o; apply acknowledge_copy_runs].
  intros s s' r Ho (Hf & Hn & Hr) Er. unfold find_copy in Er. destruct copy as [p|]; [by simplify_eq|].
  destruct (fetch_copy_runs mine id _ s s' r Ho I Er) as (? & Hm & ?). split_and!; [done..|]. destruct r; [|done..].
  split_and!; [by eapply stable|by eapply stable|done].
Qed.

Definition all_settled (n : nat) (report : Report) (s : Node) : Prop := ∀ x, x ∈ report → settled n x s.
#[export] Instance all_settled_stable n report : Stable (all_settled n report).
Proof. unfold all_settled. apply _. Qed.
Lemma settled_snoc n report x s : all_settled n report s → settled n x s → all_settled n (report ++ [x]) s.
Proof. intros Hr Hx y [Hy|Hy]%elem_of_app; [by apply Hr|]. by apply list_elem_of_singleton in Hy as ->. Qed.

Lemma repair_blocks_runs mine n batch cursor report :
  runs mine (λ s, since n s ∧ all_settled n report s) (repair_blocks max_block_bytes batch cursor report)
    (λ x s, all_settled n x.2 s).
Proof.
  revert cursor report. induction batch as [|[id replicas] batch IH]; intros cursor report; [apply runs_ret; by intros s [_ ?]|].
  intros s s' r Ho [Hn Hr] Er. cbn [repair_blocks] in Er. destruct (law_upload_slot s mine Ho) as [Ho1 Hm1].
  destruct (upload_slot s) as [s1 granted]. cbn [fst] in *. pose proof (stable (P := since n) _ _ Hm1 Hn) as Hn1.
  pose proof (stable (P := all_settled n report) _ _ Hm1 Hr) as Hr1.
  destruct granted; [|simplify_eq; split_and!; [done|done|]; by apply settled_snoc].
  assert (runs mine (λ s, since n s ∧ all_settled n report s)
    (repair_block max_block_bytes id replicas ≫= λ outcome, repair_blocks max_block_bytes batch (Some id) (report ++ [(id, replicas, outcome)]))
    (λ x s, all_settled n x.2 s)) as Hb.
  { eapply runs_seq; [apply _|eapply runs_pre; [|apply (repair_block_runs mine n)]; by intros s2 [? _]|].
    intros outcome. eapply runs_pre; [|apply IH]. intros s2 (Hs & Hn2 & Hr2). split; [done|]. by apply settled_snoc. }
  destruct (Hb _ _ _ Ho1 (conj Hn1 Hr1) Er) as (? & ? & ?). split_and!; [done|by etrans|done].
Qed.

Lemma round_runs mine n cs : runs mine (since n) (repair_round max_block_bytes cs) (λ x s, all_settled n x.2 s).
Proof.
  unfold repair_round. eapply runs_seq with (Q := λ _ _, True); [apply _| |].
  { intros s s' r Ho _ Er. destruct (promote_runs mine _ _ _ s s' r Ho I Er) as (? & ? & ?). by split_and!. }
  intros migration. cbn beta. eapply runs_bind with (Q := λ x s, all_settled n x.2 s); [|by intros [c report]; apply runs_ret].
  intros s s' r Ho [_ Hn] Er. unfold repair_candidates in Er.
  destruct (negb (leading s)); [injection Er as <- <-; split_and!; [done|done|by intros x ?%elem_of_nil]|].
  eapply repair_blocks_runs in Er; [exact Er|done|]. split; [done|]. by intros x ?%elem_of_nil.
Qed.

(** C20. A round of the repair task.  Whatever the faults and the peers do, and
    with handlers running meanwhile, a round does not panic, keeps the node
    consistent and lets it only grow, so that it is itself a legitimate
    neighbour of every handler.  Its report can be trusted: a block reported
    as acknowledged is in this node's cold store, pinned by a durable
    requirement, and, for more than one replica, consensus accepted the
    requirement during the round and as many distinct nodes as required
    confirmed the block or acknowledged a push of bytes that hash to its
    identifier; and a block whose repair failed after it was pinned keeps its
    requirement, so a later round or a restart finds it. *)
Theorem repair_round_sound cs s s' r :
  repair_round max_block_bytes cs s = (s', r) →
  others s s' ∧
  ∀ mine, node_ok mine s → ∃ cs' report, r = Ok (cs', report) ∧ node_ok mine s' ∧ moves s s' ∧
    ∀ x, x ∈ report → settled (length (nd_heard s)) x s'.
Proof.
  intros E. assert (∀ mine, node_ok mine s → node_ok mine s' ∧ moves s s' ∧
    ∃ cs' report, r = Ok (cs', report) ∧ all_settled (length (nd_heard s)) report s') as Hall.
  { intros mine Ho. destruct (round_runs mine (length (nd_heard s)) cs _ _ _ Ho (le_n _) E) as (? & ? & Hr). split_and!; [done..|].
    destruct r as [[cs' report]|e|]; [by exists cs', report| |done]. by apply calm_round in E. }
  split; [intros mine Ho; by destruct (Hall mine Ho) as (? & ? & _)|].
  intros mine Ho. destruct (Hall mine Ho) as (? & ? & cs' & report & ? & ?). by exists cs', report.
Qed.

(** ** Every required block gets its turn *)
Definition reqs_of (s : Node) : gmap BlockId Z := replica_requirements_view (sm_state (nd_raft s)).

(** The reports of consecutive rounds; between two of them anything may have
    happened to the node. *)
Fixpoint rounds (cs : Cursors) (starts : list Node) : list Report :=
  match starts with
  | [] => []
  | s :: starts =>
      match repair_round max_block_bytes cs s with
      | (_, Ok (cs', report)) => report :: rounds cs' starts
      | _ => []
      end
  end.

Lemma repair_blocks_shape batch cursor report s s' c rep :
  repair_blocks max_block_bytes batch cursor report s = (s', Ok (c, rep)) →
  ∃ new, rep = report ++ new ∧
    ((∃ y n, (y, n, NoSlot) ∈ new) ∨
     (new.*1 = batch ∧ c = match last batch with Some y => Some y.1 | None => cursor end)).
Proof.
  revert cursor report s. induction batch as [|[id n] batch IH]; intros cursor report s E.
  { cbn [repair_blocks] in E. injection E as <- <- <-. exists []. rewrite app_nil_r. split; [done|by right]. }
  cbn [repair_blocks] in E. destruct (upload_slot s) as [s1 []].
  - apply st_bind_Ok in E as (s2 & outcome & _ & E). apply IH in E as (new & -> & Hnew).
    exists ((id, n, outcome) :: new). rewrite <-app_assoc. split; [done|]. destruct Hnew as [(y & k & Hy)|[Hf ->]].
    + left. exists y, k. by right.
    + right. rewrite fmap_cons, Hf, last_cons. split; [done|]. by destruct (last batch).
  - simplify_eq. eexists. split; [done|]. left. exists id, n. by left.
Qed.

Lemma round_shape cs s s' cs' report (s1 := (promote_intents (cu_migration cs) s).1) :
  repair_round max_block_bytes cs s = (s', Ok (cs', report)) → leading s1 = true →
  (∃ y n, (y, n, NoSlot) ∈ report) ∨
  (report.*1 = candidates (cu_cursor cs) s1 ∧ cu_cursor cs' = last (candidates (cu_cursor cs) s1).*1).
Proof.
  intros E Hl. unfold repair_round in E. apply st_bind_Ok in E as (s2 & mig & E1 & E).
  unfold s1 in *. rewrite E1 in *. cbn [fst] in *. apply st_bind_Ok in E as (s3 & [c rep] & E2 & [= <- <- <-]).
  unfold repair_candidates in E2. rewrite Hl in E2. cbn [negb] in E2.
  apply repair_blocks_shape in E2 as (new & -> & Hnew). destruct Hnew as [?|[Hf ->]]; [by left|right]. split; [by rewrite app_nil_l|]. cbn [cu_cursor].
  rewrite fmap_last. destruct (last (candidates _ _)) as [y|] eqn:Ey; [done|]. apply last_None in Ey. by rewrite bool_decide_eq_true_2.
Qed.

Lemma round_picks U x cs s s' cs' report (s1 := (promote_intents (cu_migration cs) s).1) :
  repair_round max_block_bytes cs s = (s', Ok (cs', report)) → leading s1 = true →
  repairable (nd_log s1) (reqs_of s1) x → (∀ y, repairable (nd_log s1) (reqs_of s1) y → y ∈ U) →
  (∃ y n, (y, n, NoSlot) ∈ report) ∨ pick U x (cu_cursor cs) report.*1.*1 (cu_cursor cs').
Proof.
  intros E Hl Hx HU. destruct (round_shape _ _ _ _ _ E Hl) as [?|[Hr Hc]]; [by left|right]. fold s1 in Hr, Hc.
  rewrite Hr, Hc. unfold candidates. constructor; [done| |apply select_NoDup|apply select_sorted|].
  - intros y [? Hy]%select_elem. split; [done|]. by apply HU.
  - intros Hp. by apply select_least.
Qed.

(** C21. The repair task is fair.  Take a required block, and a set that contains
    all blocks required while the rounds run; requirements may come and go
    meanwhile, and between two rounds anything may happen to the node.  In
    any [|U| + |U|/16 + 2] consecutive rounds on a leading node, wherever
    the cursors are, either some round takes the block up, or some round ran
    out of the upload budget. *)
Theorem repair_reaches_every_block (U : gset BlockId) x cs starts :
  x ∈ U → (size U + size U / 16 + 2 <= length starts)%nat →
  (∀ s, s ∈ starts → node_ok [] s ∧ ∀ migration, let s1 := (promote_intents migration s).1 in
     leading s1 = true ∧ repairable (nd_log s1) (reqs_of s1) x ∧
     ∀ y, repairable (nd_log s1) (reqs_of s1) y → y ∈ U) →
  ∃ report, report ∈ rounds cs starts ∧
    ((∃ n outcome, (x, n, outcome) ∈ report) ∨ (∃ y n, (y, n, NoSlot) ∈ report)).
Proof.
  intros Hx Hlen%(near_start U x (cu_cursor cs)). revert cs Hlen.
  induction starts as [|s starts IH]; intros cs Hn Hall; [by apply near_zero in Hn|].
  destruct (Hall s ltac:(by left)) as [Ho Hs]. destruct (Hs (cu_migration cs)) as (Hl & Hr & HU).
  destruct (repair_round max_block_bytes cs s) as [s' r] eqn:E.
  destruct (round_runs [] 0 cs _ _ _ Ho ltac:(unfold since; lia) E) as (_ & _ & Hr').
  destruct r as [[cs' report]|e|]; [|by apply calm_round in E|done]. cbn [rounds]. rewrite E.
  destruct (round_picks U x _ _ _ _ _ E Hl Hr HU) as [Hslot|Hp]; [exists report; split; [by left|by right]|].
  destruct (decide (x ∈ report.*1.*1)) as [Hin|Hout].
  - exists report. split; [by left|left]. apply list_elem_of_fmap in Hin as ([y n] & -> & Hin).
    apply list_elem_of_fmap in Hin as ([[y' n'] o] & [= -> ->] & Hin). by exists n', o.
  - destruct (IH cs') as (rep & Hrep & ?); [by eapply near_step|intros s0 ?; apply Hall; by right|].
    exists rep. split; [by right|done].
Qed.
End RepairLogic.

(** ** Witnesses: after an upload with two replicas *)
Module RepairTaskExamples.
Import UploadExamples.
#[local] Existing Instance toy_blake3.
#[local] Existing Instance toy_hex.
#[local] Existing Instance toy_hex_laws.
#[local] Existing Instance toy_order.
#[local] Existing Instance toy_order_laws.
#[local] Existing Instance map_cache.
#[local] Existing Instance map_cache_laws.
#[local] Existing Instance toy_binding_key.
#[local] Existing Instance local_raft.
#[local] Existing Instance RepairExamples.toy_reqs_json.
#[local] Existing Instance RepairExamples.toy_reqs_json_laws.
#[local] Existing Instance toy_peer_json.
#[local] Existing Instance toy_peers.
#[local] Existing Instance toy_peers_laws.
#[local] Instance toy_net : RepairNet ToyNode := {|
  upload_slot s := (s, true);
  fetch_replica _ _ s := (s, Refused) |}.
#[local] Instance toy_net_laws : RepairNetLaws (W := MetadataState) (S := Disk * BlockStore N) (C := gmap BlockId bytes).
Proof. constructor; intros; apply others_refl. Qed.

Definition node1 : ToyNode := upload_run.1.
Definition start : Cursors := MkCursors None None.
Definition block1 : BlockId := block_of upload_body.
Lemma node1_ok : node_ok [] node1.
Proof.
  unfold node1. destruct upload_run as [s r] eqn:E.
  exact (proj1 (put_block_runs [] 0 two_replicas upload_body ltac:(by vm_compute) node0 s r node0_ok (Nat.le_0_l _) E)).
Qed.
Lemma limit_ok : 0 ≤ 1024 ≤ MAX_PAYLOAD.
Proof. unfold MAX_PAYLOAD. lia. Qed.

(** The round reports the block as acknowledged, and nothing else. *)
Definition healed (r : res string (Cursors * Report)) : bool :=
  match r with
  | Ok (_, [(id, n, Acknowledged p)]) => bool_decide (id = block1) && (n =? 2) && bool_decide (p = upload_body)
  | _ => false
  end.
Lemma repair_round_sound_witness :
  healed (repair_round 1024 start node1).2 = true ∧
  quorum (length (nd_heard node1)) "/v1/blocks" upload_body (ExpectId (block_display block1)) [block1] 2
    (repair_round 1024 start node1).1.
Proof.
  assert (healed (repair_round 1024 start node1).2 = true) as Hr by by vm_compute.
  split; [exact Hr|]. destruct (repair_round 1024 start node1) as [s' r] eqn:E. cbn [fst snd] in *.
  destruct (repair_round_sound 1024 limit_ok start node1 s' r E) as [_ Hall].
  destruct (Hall [] node1_ok) as (cs' & report & -> & _ & _ & Hs). unfold healed in Hr.
  destruct report as [|[[id n] [| | | |p]] []]; try discriminate Hr.
  apply andb_true_iff in Hr as [[->%bool_decide_eq_true ->%Z.eqb_eq]%andb_true_iff ->%bool_decide_eq_true].
  destruct (Hs (block1, 2, Acknowledged upload_body) ltac:(by left)) as (_ & _ & _ & Hq). apply Hq. lia.
Defined.

(** Nothing is promoted that consensus already has. *)
Lemma promote_known known l migration (s : ToyNode) :
  (∀ id n, (id, n) ∈ l → ∃ m, known !! id = Some m ∧ n ≤ m) → (promote known l migration s).1 = s.
Proof.
  revert migration. induction l as [|[id n] l IH]; intros migration Hl; [done|]. cbn [promote].
  destruct (Hl id n ltac:(by left)) as (m & -> & Hm). rewrite (proj2 (Z.leb_le _ _)) by done.
  apply IH. intros i k Hi. apply Hl. by right.
Qed.
(** All requirements of the node concern the one block. *)
Lemma node1_reqs :
  (∀ i, is_Some (reqs_of node1 !! i) → i = block1) ∧ reqs_of node1 !! block1 = Some 2 ∧
  ∀ i n, rq_blocks (rl_requirements (nd_log node1)) !! i = Some n → i = block1 ∧ n = 2.
Proof.
  assert (map_any (λ i _, negb (bool_decide (i = block1))) (reqs_of node1) = false) as H1 by by vm_compute.
  assert (reqs_of node1 !! block1 = Some 2) as H2 by by vm_compute.
  assert (map_any (λ i n, negb (bool_decide (i = block1) && (n =? 2))) (rq_blocks (rl_requirements (nd_log node1))) = false) as H3 by by vm_compute.
  split_and!; [|exact H2|].
  - intros i [n Hi]. by eapply map_any_false in H1; [apply negb_false_iff, bool_decide_eq_true in H1|exact Hi].
  - intros i n Hi. eapply map_any_false in H3; [|exact Hi].
    apply negb_false_iff, andb_true_iff in H3 as [->%bool_decide_eq_true ->%Z.eqb_eq]. split; reflexivity.
Qed.

Lemma repair_reaches_every_block_witness :
  ∃ report, report ∈ rounds 1024 start [node1; node1; node1] ∧
    ((∃ n outcome, (block1, n, outcome) ∈ report) ∨ (∃ y n, (y, n, NoSlot) ∈ report)).
Proof.
  apply (repair_reaches_every_block 1024 limit_ok {[block1]} block1 start [node1; node1; node1]).
  - by apply elem_of_singleton.
  - rewrite size_singleton. cbn. lia.
  - intros s Hs. assert (s = node1) as -> by set_solver. split; [exact node1_ok|]. intros migration.
    destruct node1_reqs as (R1 & R2 & R3). assert ((promote_intents migration node1).1 = node1) as ->.
    { apply promote_known. intros id n Hi. rewrite repair_batch_first in Hi. apply first16_elem in Hi as [Hi _].
      apply R3 in Hi as [-> ->]. exists 2. split; [exact R2|lia]. }
    split_and!; [by vm_compute|right; eexists; exact R2|].
    intros y [(c & Hc & _)|Hy]; apply elem_of_singleton; [by apply R3 in Hc as [-> _]|by apply R1].
Defined.
End RepairTaskExamples.
