(* ===== verification/Front.v ===== *)
(** * The front of the server ([crates/kalpakdb/src/server.rs])

    Reading the prefix tree: key construction, the lookup of the deepest bound
    prefix with the background jobs it starts, pinning of shared blocks, and
    the listings; and the boundary between the public listener and the mesh,
    which decides whether the header of internal requests is believed.  JSON
    replies are records; background jobs are returned and run separately, at
    any later time. *)

From S2P Require Import Prelude Core Signing Metadata Leases StateMachine StateInvariant ControlPlane Lifecycle Durability Io Segment Store StoreInvariant StorePut StoreTheorems StoreOpen StoreCompact Tiered TieredCold Retention RetentionTheorems Scrub Codecs LogStore Manifest ManifestTheorems Repair Api Upload Reclamation UploadLogic UploadTheorems.
From Stdlib Require Import Strings.Byte.

(** ** Keys *)
Record MakeKeyReq := MkMakeKey { mk_fingerprint : ModelFingerprint; mk_tokens : list Z; mk_parent : option CacheKey }.
Definition make_key `{Blake3} (req : MakeKeyReq) : CacheKey :=
  match mk_parent req with
  | Some parent => extend parent (mk_tokens req)
  | None => root (mk_fingerprint req) (mk_tokens req)
  end.

(** ** Lookup *)
Record LookupResp := MkLookup { lr_hit_depth : option Z; lr_blocks : list string }.

Section Lookup.
Context `{BindingKey}.

(** The loop; [i] counts the keys. *)
Fixpoint probe_chain (m : MetadataState) (i : Z) (best : option (Z * list BlockId)) (chain : list CacheKey)
    : option (Z * list BlockId) :=
  match chain with
  | [] => best
  | key :: chain =>
      match lookup_binding m key with
      | Some rec => probe_chain m (i + 1) (Some (i, rec_blocks rec)) chain
      | None => best
      end
  end.
(** The reply, and the blocks a background job warms. *)
Definition lookup_prefix `{Hex} (m : MetadataState) (chain : list CacheKey) : LookupResp * list BlockId :=
  match probe_chain m 0 None chain with
  | Some (i, blocks) =>
      (MkLookup (Some i) (block_display <$> blocks),
       blocks ++ match chain !! Z.to_nat i with Some key => child_blocks m key | None => [] end)
  | None => (MkLookup None [], [])
  end.
End Lookup.

(** ** Background jobs *)
Section Jobs.
Context {W S C : Type} `{Raft W, ColdStore S, Moka C, Blake3}.
Abbreviation Node := (NodeState W S C).

(** Both drop errors. *)
Fixpoint prefetch_job (ids : list BlockId) (s : Node) : Node * res () () :=
  match ids with
  | [] => (s, Ok ())
  | id :: ids =>
      match on_store (λ e, e) (tiered_get id) s with
      | (s, Panic) => (s, Panic)
      | (s, _) => prefetch_job ids s
      end
  end.
Fixpoint pin_job (ids : list BlockId) (s : Node) : Node * res () () :=
  match ids with
  | [] => (s, Ok ())
  | id :: ids =>
      if 2 <=? block_ref_count (sm_state (nd_raft s)) id then
        match on_store (λ e, e) (pin id) s with
        | (s, Panic) => (s, Panic)
        | (s, _) => pin_job ids s
        end
      else pin_job ids s
  end.
End Jobs.

(** ** Listings *)
Record AgentListing := MkListing { al_agent : string; al_display_name : string; al_registered_at : Z; al_bindings : Z }.
Record BindingListing := MkBindingListing {
  bl_key : string;
  bl_blocks : list string;
  bl_extends : option string;
  bl_revision : Z }.

Section Listings.
Context `{BindingKey, HashOrder, Hex}.
(** The [prefix_hash] of a key in its JSON form, if it has one. *)
Context (prefix_hash_of : string → option string).

Definition list_agents (read_token authorization : option string) (m : MetadataState) : res ApiError (list AgentListing) :=
  _ ← check_read_token read_token authorization None;
  Ok ((λ p, MkListing (agent_display p.1) (display_name p.2) (registered_at p.2) (zlen (bindings_of m p.1))) <$> agents_list m).
Definition agent_bindings (read_token authorization : option string) (id : string) (m : MetadataState)
    : res ApiError (list BindingListing) :=
  _ ← check_read_token read_token authorization None;
  agent ← map_err api_of_error (agent_from_str id);
  Ok ((λ '(key, blocks, revision),
         MkBindingListing key (block_display <$> blocks)
           ((λ p, default "" (prefix_hash_of p)) <$> parent_index m !! key) revision)
      <$> bindings_with_revisions m agent).
End Listings.

(** ** The public boundary of a mesh *)
Definition MESH_ONLY : list string := ["/raft"; "/v1/cluster"; "/v1/admin"].
Definition mesh_only (path : string) : bool :=
  existsb (λ prefix, bool_decide (path = prefix) || starts_with (str_bytes (prefix +:+ "/")) (str_bytes path)) MESH_ONLY.
(** [next] gets the request without the internal header; [None] is "not
    found". *)
Definition mesh_public_boundary {A} (next : bool → A) (path : string) (internal : bool) : option A :=
  if mesh_only path then None else Some (next false).

(** ** What a lookup finds *)
Section LookupTheorems.
Context `{BindingKey, Hex}.

Lemma probe_chain_spec m chain : ∀ i best, ∃ bound rest, chain = bound ++ rest ∧
  Forall (λ k, is_Some (lookup_binding m k)) bound ∧ (∀ k, head rest = Some k → lookup_binding m k = None) ∧
  probe_chain m i best chain =
    match last bound with None => best | Some k => (λ r, (i + zlen bound - 1, rec_blocks r)) <$> lookup_binding m k end.
Proof.
  induction chain as [|key chain IH]; intros i best; cbn [probe_chain]; [by exists [], []|].
  destruct (lookup_binding m key) as [r|] eqn:E.
  - destruct (IH (i + 1) (Some (i, rec_blocks r))) as (bound & rest & -> & Hf & Hr & ->). exists (key :: bound), rest.
    split_and!; [done|by constructor; eauto|done|]. rewrite last_cons, zlen_cons. destruct (last bound) as [k|] eqn:El.
    + destruct (lookup_binding m k); cbn; [|done]. do 2 f_equal. lia.
    + apply last_None in El as ->. rewrite E. cbn. do 2 f_equal. unfold zlen. cbn. lia.
  - exists [], (key :: chain). split_and!; [done|done| |done]. by intros k [= <-].
Qed.

(** A binding of the chain stays, or is replaced by a later one. *)
Lemma bind_link_lookup m agent b key :
  lookup_binding (bind_link m agent b) key =
    if decide (binding_key key = binding_key (cb_key b)) then Some (MkBinding agent (cb_blocks b)) else lookup_binding m key.
Proof.
  unfold lookup_binding, bind_link, bind_one.
  assert (∀ s : MetadataState, bindings (match cb_parent b with
    | Some parent =>
      let kids := default [] (children s !! binding_key parent) in
      let kids := if bool_decide (binding_key (cb_key b) ∈ kids) then kids else kids ++ [binding_key (cb_key b)] in
      set_children (<[binding_key parent := kids]> (children s)) s
    | None => s end) = bindings s) as Hb by (by intros s; destruct (cb_parent b)).
  cbn zeta. rewrite Hb. clear Hb. cbn [bindings set_bindings set_block_refs].
  assert (bindings (if initialized (leases m) then _ else m) = bindings m) as Hi by by destruct (initialized (leases m)).
  case_decide as Hk; [rewrite Hk, lookup_insert_eq; done|]. rewrite lookup_insert_ne by done.
  destruct (initialized (leases m)); cbn; by destruct (bindings m !! binding_key (cb_key b)).
Qed.
Lemma bind_chain_lookup m agent bs key :
  is_Some (lookup_binding m key) ∨ key ∈ cb_key <$> bs →
  is_Some (lookup_binding (foldl (λ s b, bind_link s agent b) m bs) key).
Proof.
  revert m. induction bs as [|b bs IH]; intros m; cbn; [by intros [?|?%elem_of_nil]|]. intros Hk. apply IH.
  rewrite bind_link_lookup. destruct Hk as [Hk|[->|Hk]%elem_of_cons]; [left|left|by right].
  - by case_decide.
  - by rewrite decide_True.
Qed.

(** C23. A lookup finds what can be reused.  The reply to a chain of keys is the
    depth and the blocks of the last key of its longest initial part in which
    every key is bound, and nothing if its first key is not bound.  So once
    the state machine has accepted a chain of bindings, a request for any
    extension of that chain whose next key is not bound is answered with the
    depth of the whole chain and the blocks of its last binding, also if the
    chain bound a key twice or replaced older bindings. *)
Theorem lookup_finds_reusable_prefix m :
  (∀ chain, ∃ bound rest, chain = bound ++ rest ∧
    Forall (λ k, is_Some (lookup_binding m k)) bound ∧ (∀ k, head rest = Some k → lookup_binding m k = None) ∧
    (lookup_prefix m chain).1 =
      match last bound ≫= lookup_binding m with
      | Some r => MkLookup (Some (zlen bound - 1)) (block_display <$> rec_blocks r)
      | None => MkLookup None []
      end) ∧
  (∀ agent bs b m' extra, apply_one m (BindChain agent (bs ++ [b])) = (m', Bound) →
    (∀ k, head extra = Some k → lookup_binding m' k = None) →
    (lookup_prefix m' ((cb_key <$> bs ++ [b]) ++ extra)).1 = MkLookup (Some (zlen bs)) (block_display <$> cb_blocks b)).
Proof.
  assert (∀ m chain, ∃ bound rest, chain = bound ++ rest ∧
    Forall (λ k, is_Some (lookup_binding m k)) bound ∧ (∀ k, head rest = Some k → lookup_binding m k = None) ∧
    (lookup_prefix m chain).1 =
      match last bound ≫= lookup_binding m with
      | Some r => MkLookup (Some (zlen bound - 1)) (block_display <$> rec_blocks r)
      | None => MkLookup None []
      end) as Hall.
  { intros m0 chain. destruct (probe_chain_spec m0 chain 0 None) as (bound & rest & Hc & Hf & Hr & Hp). exists bound, rest.
    split_and!; [done..|]. unfold lookup_prefix. rewrite Hp. destruct (last bound) as [k|]; [|done]. cbn.
    by destruct (lookup_binding m0 k). }
  split; [apply Hall|]. intros agent bs b m' extra E Hextra.
  assert (∀ key, lookup_binding m' key = lookup_binding (foldl (λ s b, bind_link s agent b) m (bs ++ [b])) key) as Hm'.
  { intros key. unfold apply_one in E. case_match; [done|]. cbn in E. by injection E as <-. }
  destruct (Hall m' ((cb_key <$> bs ++ [b]) ++ extra)) as (bound & rest & Hc & Hf & Hr & ->).
  assert (bound = cb_key <$> bs ++ [b]) as ->.
  { assert (∀ l1 l2, (cb_key <$> bs ++ [b]) = l1 ++ l2 → l2 = [] ∨ is_Some (head l2 ≫= lookup_binding m')) as Hbound.
    { intros l1 [|k l2] El; [by left|right]. cbn. rewrite Hm'. apply bind_chain_lookup. right. rewrite El. set_solver. }
    apply app_eq_inv in Hc as [(k & E1 & E2)|(k & E1 & E2)].
    - destruct (Hbound _ _ E1) as [->|[r Hk]]; [by rewrite app_nil_r in E1|]. destruct k as [|x k]; [done|]. subst rest.
      cbn in Hk. rewrite (Hr x eq_refl) in Hk. done.
    - subst bound. destruct k as [|x k]; [by rewrite app_nil_r|]. subst extra. rewrite Forall_app, Forall_cons in Hf.
      destruct Hf as (_ & Hx & _). rewrite (Hextra x eq_refl) in Hx. by destruct Hx. }
  rewrite fmap_app. change (cb_key <$> [b]) with [cb_key b]. rewrite last_snoc. cbn [mbind option_bind]. rewrite Hm', foldl_app. cbn [foldl].
  rewrite bind_link_lookup, decide_True by done. f_equal. f_equal. rewrite zlen_app. unfold zlen. rewrite length_fmap. cbn. lia.
Qed.
End LookupTheorems.

(** ** Background jobs disturb nothing *)
Section JobTheorems.
Context {W S C : Type} `{!Raft W, ColdStoreExact S, !Moka C, !MokaLaws C, HashOrderLaws, HexLaws, ReqsJsonLaws, !PeerJson}.
Abbreviation Node := (NodeState W S C).

Lemma tier_pin id : tier_step [] (pin id) (λ _ (_ : TieredStore S C), True).
Proof.
  intros t t' r Ht E. destruct (pin_kept id t Ht) as [(Hi & Hn & _) _]. rewrite E in Hi, Hn. cbn [fst snd] in *.
  split; [done|]. assert (∀ x y : S, x = y → grows y x ∧ adds [] y x) as Hsame by (intros x y ->; by split; intros i; [|left]).
  unfold pin in E. case_match; [injection E as <- <-; destruct (Hsame (cold t) (cold t) eq_refl); by split_and!|].
  unfold mbind, ST_bind in E. destruct (tiered_get id t) as [t1 r1] eqn:E1. destruct (tier_get id _ _ _ Ht E1) as (_ & Hg & Ha & Hr).
  assert (cold t' = cold t1) as Hc.
  { destruct r1 as [p|e|]; [|by simplify_eq|done]. unfold pin_payload in E. repeat case_match; by simplify_eq. }
  rewrite Hc. split_and!; [done|done|]. by destruct r.
Qed.
Lemma store_step_others {A E} (f : Error → E) (m : ST (TieredStore S C) Error A) Q (s s' : Node) r :
  tier_step [] m Q → on_store f m s = (s', r) → ∀ mine, node_ok mine s → node_ok mine s' ∧ moves s s' ∧ r ≠ Panic.
Proof.
  intros Hm Er mine Ho. destruct (store_runs mine [] f m Q Hm s s' r Ho ltac:(by intros i ?%elem_of_nil) Er) as (? & ? & ?).
  split_and!; [done..|]. by intros ->.
Qed.

(** The jobs that lookups and binds leave behind, whenever they run: they are
    legitimate neighbours of every handler and never panic. *)
Theorem background_jobs_are_harmless ids (s : Node) mine :
  node_ok mine s →
  (node_ok mine (prefetch_job ids s).1 ∧ moves s (prefetch_job ids s).1 ∧ (prefetch_job ids s).2 = Ok ()) ∧
  (node_ok mine (pin_job ids s).1 ∧ moves s (pin_job ids s).1 ∧ (pin_job ids s).2 = Ok ()).
Proof.
  intros Ho. split; revert s Ho; induction ids as [|id ids IH]; intros s Ho; cbn [prefetch_job pin_job]; [by split_and!| |by split_and!|].
  - destruct (on_store _ (tiered_get id) s) as [s1 r] eqn:E.
    destruct (store_step_others _ _ _ _ _ _ (tier_get id) E mine Ho) as (Ho1 & Hm & Hp).
    destruct (IH s1 Ho1) as (? & ? & ?). destruct r; [| |done]; (split_and!; [done|by etrans|done]).
  - case_match; [|by apply IH]. destruct (on_store _ (pin id) s) as [s1 r] eqn:E.
    destruct (store_step_others _ _ _ _ _ _ (tier_pin id) E mine Ho) as (Ho1 & Hm & Hp).
    destruct (IH s1 Ho1) as (? & ? & ?). destruct r; [| |done]; (split_and!; [done|by etrans|done]).
Qed.
End JobTheorems.

(** ** The boundary *)
Section Boundary.
Context {W J : Type} `{Raft W, Peers W J, Hex, Ed25519, BindingKey}.

Lemma mesh_only_spec path :
  mesh_only path = true ↔ ∃ prefix, prefix ∈ MESH_ONLY ∧ (path = prefix ∨ ∃ rest, str_bytes path = str_bytes (prefix +:+ "/") ++ rest).
Proof.
  unfold mesh_only. rewrite existsb_exists. split; intros (prefix & Hp & Hm); exists prefix.
  - split; [by apply list_elem_of_In|]. apply orb_true_iff in Hm as [?%bool_decide_eq_true|Hm%bool_decide_eq_true]; [by left|right].
    exists (drop (length (str_bytes (prefix +:+ "/"))) (str_bytes path)). rewrite <-Hm at 1. by rewrite take_drop.
  - split; [by apply list_elem_of_In|]. apply orb_true_iff. destruct Hm as [->|[rest ->]]; [left; by apply bool_decide_eq_true|right].
    apply bool_decide_eq_true. by rewrite take_app_length.
Qed.

(** C25. The public listener of a mesh cannot be spoofed.  Every path in the
    cluster, administration and Raft name spaces is answered "not found"
    before anything runs.  A signed write is let through, but never as an
    internal one, whatever header it carries: if it changes the node or
    succeeds, then its agent signed it where signatures are required, and
    every block it binds is stored on this node. *)
Theorem public_listener_cannot_be_spoofed require_signatures stored path internal :
  (mesh_only path = true ↔ ∃ prefix, prefix ∈ MESH_ONLY ∧
     (path = prefix ∨ ∃ rest, str_bytes path = str_bytes (prefix +:+ "/") ++ rest)) ∧
  (∀ A (next : bool → A), mesh_only path = true → mesh_public_boundary next path internal = None) ∧
  (∀ req (s : ApiState W), ∃ s' (r : res ApiError (ApiReply J)),
     mesh_public_boundary (λ i, handle_request require_signatures stored i req s) (route req) internal = Some (s', r) ∧
     (s' ≠ s ∨ is_ok r = true →
        (must_sign require_signatures req = true → authorized req) ∧
        ∀ b, b ∈ needed false req → stored b = true)).
Proof.
  split; [apply mesh_only_spec|]. split; [by intros A next Hp; unfold mesh_public_boundary; rewrite Hp|].
  intros req s. assert (mesh_only (route req) = false) as Hr by (by destruct req).
  destruct (handle_request require_signatures stored false req s) as [s' r] eqn:E. exists s', r.
  unfold mesh_public_boundary. rewrite Hr, E. split; [done|]. intros Hmoved.
  apply handle_handled in E. destruct E as [|text Hm Hna|text b Hb Hs|s' r Ha Hn Hp]; [by destruct Hmoved..|]. by split.
Qed.
End Boundary.
