(* ===== verification/NetAddr.v ===== *)
(** * Literal socket addresses ([std::net::SocketAddr])

    The parser behind [str::parse::<SocketAddr>()], which start-up uses to
    decide what a listener may bind to: IPv4 and bracketed IPv6 literals with
    a port, never a host name.  Each reader takes the rest of the input and
    fails without consuming, as the standard library's does. *)

From S2P Require Import Prelude Core.
From Stdlib Require Import Strings.Byte.

(** [trim_end_matches('/')], for the base of a URL. *)
Fixpoint drop_slashes (l : bytes) : bytes := match l with x2f :: l => drop_slashes l | l => l end.
Definition trim_slashes (s : string) : string :=
  String.string_of_list_byte (reverse (drop_slashes (reverse (str_bytes s)))).

Abbreviation reader A := (bytes → option (A * bytes)).

Definition to_digit (radix : Z) (b : byte) : option Z :=
  let c := byte_Z b in
  let d := if (48 <=? c) && (c <=? 57) then Some (c - 48)
           else if (97 <=? c) && (c <=? 122) then Some (c - 87)
           else if (65 <=? c) && (c <=? 90) then Some (c - 55) else None in
  d ≫= λ d, if d <? radix then Some d else None.

(** The longest run of digits. *)
Fixpoint digits (radix : Z) (l : bytes) : list Z * bytes :=
  match l with
  | [] => ([], [])
  | b :: rest => match to_digit radix b with
                 | Some d => let (ds, rest) := digits radix rest in (d :: ds, rest)
                 | None => ([], l)
                 end
  end.
Definition number (radix : Z) (ds : list Z) : Z := foldl (λ n d, n * radix + d) 0 ds.
(** [read_number]: at most [max_digits] if given, at most [limit], and no
    leading zero unless allowed. *)
Definition read_number (radix : Z) (max_digits : option Z) (allow_zero_prefix : bool) (limit : Z) : reader Z := λ l,
  let (ds, rest) := digits radix l in
  if zlen ds =? 0 then None
  else if match max_digits with Some m => m <? zlen ds | None => false end then None
  else if negb allow_zero_prefix && bool_decide (head l = Some x30) && (1 <? zlen ds) then None
  else if limit <? number radix ds then None
  else Some (number radix ds, rest).
Definition read_given_char (c : byte) : reader () := λ l,
  match l with b :: rest => if bool_decide (b = c) then Some ((), rest) else None | [] => None end.
Definition read_separator {A} (sep : byte) (index : nat) (inner : reader A) : reader A := λ l,
  match index with O => inner l | S _ => read_given_char sep l ≫= λ '(_, l), inner l end.

Definition read_octet (i : nat) : reader Z := read_separator x2e i (read_number 10 (Some 3) false 255).
Definition read_ipv4_addr : reader (Z * Z * Z * Z) := λ l,
  '(a, l) ← read_octet 0 l; '(b, l) ← read_octet 1 l; '(c, l) ← read_octet 2 l; '(d, l) ← read_octet 3 l;
  Some ((a, b, c, d), l).

(** [read_groups] into a slice with [room] for more groups, the next one being
    number [i]; the flag says that it ended with an embedded IPv4 address. *)
Fixpoint read_groups (room i : nat) (l : bytes) : list Z * bool * bytes :=
  match room with
  | O => ([], false, l)
  | S room =>
      match (if (1 <=? room)%nat then read_separator x3a i read_ipv4_addr l else None) with
      | Some ((a, b, c, d), rest) => ([a * 256 + b; c * 256 + d], true, rest)
      | None =>
          match read_separator x3a i (read_number 16 (Some 4) true 65535) l with
          | Some (g, rest) => let '(gs, v4, rest) := read_groups room (S i) rest in (g :: gs, v4, rest)
          | None => ([], false, l)
          end
      end
  end.
Definition read_ipv6_addr : reader (list Z) := λ l,
  let '(head, v4, l) := read_groups 8 0 l in
  if zlen head =? 8 then Some (head, l)
  else if v4 then None
  else
    '(_, l) ← read_given_char x3a l; '(_, l) ← read_given_char x3a l;
    let '(tail, _, l) := read_groups (8 - (length head + 1)) 0 l in
    Some (head ++ replicate (8 - length head - length tail) 0 ++ tail, l).

Inductive SocketAddr :=
| V4 (ip : Z * Z * Z * Z) (port : Z)
| V6 (ip : list Z) (port : Z).
Definition read_port : reader Z := λ l, '(_, l) ← read_given_char x3a l; read_number 10 None true 65535 l.
Definition read_scope_id : reader Z := λ l, '(_, l) ← read_given_char x25 l; read_number 10 None true (2 ^ 32 - 1) l.
Definition read_socket_addr_v4 : reader SocketAddr := λ l,
  '(ip, l) ← read_ipv4_addr l; '(port, l) ← read_port l; Some (V4 ip port, l).
Definition read_socket_addr_v6 : reader SocketAddr := λ l,
  '(_, l) ← read_given_char x5b l; '(ip, l) ← read_ipv6_addr l;
  let l := match read_scope_id l with Some (_, l) => l | None => l end in
  '(_, l) ← read_given_char x5d l; '(port, l) ← read_port l; Some (V6 ip port, l).
Definition parse_socket_addr (s : string) : option SocketAddr :=
  let l := str_bytes s in
  match read_socket_addr_v4 l with Some x => Some x | None => read_socket_addr_v6 l end ≫= λ '(a, rest),
  if bool_decide (rest = []) then Some a else None.

(** [IpAddr::is_loopback]. *)
Definition is_loopback (a : SocketAddr) : bool :=
  match a with
  | V4 (a, _, _, _) _ => a =? 127
  | V6 ip _ => bool_decide (ip = [0; 0; 0; 0; 0; 0; 0; 1])
  end.

(** ** Literals only *)

(** The bytes of literal addresses: hexadecimal digits, [.], [:], [[], []], [%]. *)
Definition literal_byte (b : byte) : bool :=
  match to_digit 16 b with Some _ => true | None => existsb (λ c, bool_decide (b = c)) [x2e; x3a; x5b; x5d; x25] end.
(** A reader that consumes only such bytes. *)
Definition literal {A} (r : reader A) : Prop :=
  ∀ l a rest, r l = Some (a, rest) → ∃ used, l = used ++ rest ∧ Forall (λ b, literal_byte b = true) used.

Lemma to_digit_literal radix b d : radix ≤ 16 → to_digit radix b = Some d → literal_byte b = true.
Proof.
  intros Hr E. unfold literal_byte. unfold to_digit in *. cbn zeta in *.
  destruct (if _ : bool then _ else _) as [n|]; [|done]. cbn in *.
  destruct (Z.ltb_spec n radix); [|done]. by rewrite (proj2 (Z.ltb_lt n 16)) by lia.
Qed.
Lemma digits_literal radix l ds rest :
  radix ≤ 16 → digits radix l = (ds, rest) → ∃ used, l = used ++ rest ∧ Forall (λ b, literal_byte b = true) used.
Proof.
  intros Hr. revert ds rest. induction l as [|b l IH]; intros ds rest E; cbn in E; [injection E as <- <-; by exists []|].
  destruct (to_digit radix b) as [d|] eqn:Ed; [|injection E as <- <-; by exists []].
  destruct (digits radix l) as [ds' rest'] eqn:E'. injection E as <- <-. destruct (IH _ _ eq_refl) as (used & -> & Hu).
  exists (b :: used). split; [done|]. constructor; [by eapply to_digit_literal|done].
Qed.
Lemma literal_number radix m z limit : radix ≤ 16 → literal (read_number radix m z limit).
Proof.
  intros Hr l n rest E. unfold read_number in E. destruct (digits radix l) as [ds rest'] eqn:Ed.
  destruct (zlen ds =? 0); [done|]. destruct (match m with Some _ => _ | None => _ end); [done|].
  destruct (_ && _); [done|]. destruct (_ <? _); [done|]. injection E as _ <-. by eapply digits_literal.
Qed.
Lemma literal_char c : literal_byte c = true → literal (read_given_char c).
Proof.
  intros Hc [|b l] a rest E; [done|]. cbn in E. case_bool_decide as Hb; [|done]. injection E as _ <-. subst c.
  exists [b]. split; [done|]. by constructor.
Qed.
Lemma literal_bind {A B} (r : reader A) (k : A → reader B) :
  literal r → (∀ a, literal (k a)) → literal (λ l, '(a, l) ← r l; k a l).
Proof.
  intros Hr Hk l b rest E. destruct (r l) as [[a l1]|] eqn:E1; [|done]. cbn in E.
  destruct (Hr _ _ _ E1) as (u1 & -> & H1). destruct (Hk a _ _ _ E) as (u2 & -> & H2).
  exists (u1 ++ u2). split; [by rewrite app_assoc|by apply Forall_app].
Qed.
Lemma literal_ret {A} (a : A) : literal (λ l, Some (a, l)).
Proof. intros l a' rest [= <- <-]. by exists []. Qed.
#[export] Hint Resolve literal_number literal_ret : literal.
#[export] Hint Extern 4 (literal (read_given_char _)) => by apply literal_char; vm_compute : literal.
#[export] Hint Extern 3 (_ ≤ 16) => lia : literal.
Ltac literal_step := first [apply literal_bind; [|intros ?]|solve [eauto with literal]].

Lemma literal_separator {A} sep i (r : reader A) : literal_byte sep = true → literal r → literal (read_separator sep i r).
Proof. intros Hs Hr. destruct i; [done|]. apply literal_bind; [by apply literal_char|done]. Qed.
Lemma literal_octet i : literal (read_octet i).
Proof. apply literal_separator; [done|by apply literal_number]. Qed.
#[export] Hint Resolve literal_octet : literal.
Lemma literal_ipv4 : literal read_ipv4_addr.
Proof. unfold read_ipv4_addr. repeat literal_step. Qed.
Lemma read_groups_literal room i l gs v4 rest :
  read_groups room i l = (gs, v4, rest) → ∃ used, l = used ++ rest ∧ Forall (λ b, literal_byte b = true) used.
Proof.
  revert i l gs v4 rest. induction room as [|room IH]; intros i l gs v4 rest E; cbn [read_groups] in E.
  { injection E as _ _ <-. by exists []. }
  destruct (if (1 <=? room)%nat then _ else _) as [[[[[a b] c] d] r4]|] eqn:E4.
  - injection E as _ _ <-. destruct (1 <=? room)%nat; [|done].
    eapply (literal_separator x3a i read_ipv4_addr eq_refl literal_ipv4); exact E4.
  - clear E4. destruct (read_separator x3a i (read_number 16 (Some 4) true 65535) l) as [[g r]|] eqn:Eg.
    + destruct (literal_separator x3a i (read_number 16 (Some 4) true 65535) eq_refl ltac:(by apply literal_number) _ _ _ Eg)
        as (u1 & -> & H1).
      destruct (read_groups room (S i) r) as [[gs' v'] rest'] eqn:Er. injection E as _ _ <-.
      destruct (IH _ _ _ _ _ Er) as (u2 & -> & H2). exists (u1 ++ u2). split; [by rewrite app_assoc|by apply Forall_app].
    + injection E as _ _ <-. by exists [].
Qed.
Lemma literal_ipv6 : literal read_ipv6_addr.
Proof.
  intros l ip rest E. unfold read_ipv6_addr in E. destruct (read_groups 8 0 l) as [[hd v4] l1] eqn:Eh.
  destruct (read_groups_literal _ _ _ _ _ _ Eh) as (u1 & -> & H1).
  destruct (zlen hd =? 8); [injection E as _ <-; by exists u1|]. destruct v4; [done|].
  assert (literal (λ l, '(_, l) ← read_given_char x3a l; '(_, l) ← read_given_char x3a l;
    let '(tail, _, l) := read_groups (8 - (length hd + 1)) 0 l in
    Some (hd ++ replicate (8 - length hd - length tail) 0 ++ tail, l))) as Ht.
  { do 2 (apply literal_bind; [by apply literal_char|intros _]). intros l2 x rest2 E2.
    destruct (read_groups _ 0 l2) as [[tl w] l3] eqn:Et. injection E2 as _ <-. by eapply read_groups_literal. }
  destruct (Ht _ _ _ E) as (u2 & -> & H2). exists (u1 ++ u2). split; [by rewrite app_assoc|by apply Forall_app].
Qed.
Lemma literal_opt {A B} (r : reader A) (k : reader B) :
  literal r → literal k → literal (λ l, let l := match r l with Some (_, l) => l | None => l end in k l).
Proof.
  intros Hr Hk l b rest E. destruct (r l) as [[a l1]|] eqn:E1; [|by apply Hk in E].
  destruct (Hr _ _ _ E1) as (u1 & -> & H1). destruct (Hk _ _ _ E) as (u2 & -> & H2).
  exists (u1 ++ u2). split; [by rewrite app_assoc|by apply Forall_app].
Qed.
Lemma literal_port : literal read_port.
Proof. unfold read_port. repeat literal_step. Qed.
Lemma literal_scope : literal read_scope_id.
Proof. unfold read_scope_id. repeat literal_step. Qed.
#[export] Hint Resolve literal_ipv4 literal_ipv6 literal_port literal_scope : literal.

(** What parses is made of such bytes: a host name with any other letter, and
    anything with a path or a user in it, does not. *)
Lemma parse_socket_addr_literal s a :
  parse_socket_addr s = Some a → Forall (λ b, literal_byte b = true) (str_bytes s).
Proof.
  assert (literal read_socket_addr_v4) as Hv4 by (unfold read_socket_addr_v4; repeat literal_step).
  assert (literal read_socket_addr_v6) as Hv6.
  { unfold read_socket_addr_v6. literal_step; [eauto with literal|]. literal_step; [eauto with literal|].
    apply (literal_opt read_scope_id (λ l, '(_, l) ← read_given_char x5d l; '(port, l) ← read_port l; Some (V6 a1 port, l)));
      repeat literal_step. }
  unfold parse_socket_addr. intros E.
  assert (∃ rest, rest = [] ∧ ∃ used, str_bytes s = used ++ rest ∧ Forall (λ b, literal_byte b = true) used) as (? & -> & u & -> & Hu).
  { destruct (read_socket_addr_v4 (str_bytes s)) as [[a4 r4]|] eqn:E4.
    - cbn in E. case_bool_decide as Hr; [|done]. exists r4. split; [done|by eapply Hv4].
    - destruct (read_socket_addr_v6 (str_bytes s)) as [[a6 r6]|] eqn:E6; [|done].
      cbn in E. case_bool_decide as Hr; [|done]. exists r6. split; [done|by eapply Hv6]. }
  by rewrite app_nil_r.
Qed.

(** ** Examples *)
Example parse_examples :
  parse_socket_addr "127.0.0.1:7070" = Some (V4 (127, 0, 0, 1) 7070) ∧
  parse_socket_addr "[::1]:7070" = Some (V6 [0; 0; 0; 0; 0; 0; 0; 1] 7070) ∧
  parse_socket_addr "[fe80::1%3]:80" = Some (V6 [65152; 0; 0; 0; 0; 0; 0; 1] 80) ∧
  is_loopback <$> parse_socket_addr "[::ffff:127.0.0.1]:80" = Some false ∧
  is_loopback <$> parse_socket_addr "127.9.9.9:0" = Some true ∧
  parse_socket_addr "localhost:7070" = None ∧ parse_socket_addr "127.1:7070" = None ∧
  parse_socket_addr "0177.0.0.1:7070" = None ∧ parse_socket_addr "127.0.0.1" = None ∧
  parse_socket_addr "127.0.0.1:65536" = None ∧ parse_socket_addr "[1:2:3:4:5:6:7:8:9]:1" = None.
Proof. split_and!; by vm_compute. Qed.
