(* ===== verification/Startup.v ===== *)
(** * Starting a node ([crates/kalpakdb/src/server.rs])

    [validate_listeners], [boot_control], [serve_with_scrub] and
    [serve_witness]: the checks on the options, the order in which the files
    of the data directory are opened, and which listeners are started on
    which addresses.  The files are those of the other components: segments
    on a device, and the guard journal, the scrub checkpoint, the replica
    intents and the control plane in directories.  Certificates, TLS, sockets
    and [openraft] are the parameter [Platform]; a call that serves until it
    ends is taken to have started.  What [AppState] holds beyond the node's
    data (counters, slots, the HTTP client) is left out. *)

From S2P Require Import Prelude Core Signing Metadata Leases StateMachine StateInvariant ControlPlane Lifecycle Durability Io Segment Store StoreInvariant StorePut StoreTheorems StoreOpen StoreCompact Tiered TieredCold StoreRestart Codecs Snapshot LogStore Retention RetentionTheorems Scrub OnlineScrub Repair Api Admission Upload Reclamation NetAddr.
From S2P Require Recovery.
From Stdlib Require Import Strings.Byte.

(** ** Options *)
Record MeshOpts := MkMesh { mo_addr : string; mo_ca : string; mo_cert : string; mo_key : string }.
Record ServeOpts := MkServe {
  sv_data_dir : string;
  sv_addr : string;
  sv_warm_bytes : Z;
  sv_node_id : Z;
  sv_bootstrap : bool;
  sv_grpc_addr : option string;
  sv_compact_secs : Z;
  sv_require_signatures : bool;
  sv_max_block_bytes : option Z;
  sv_tls_cert : option string;
  sv_tls_key : option string;
  sv_read_token : option string;
  sv_mesh : option MeshOpts }.

Inductive BootError :=
| BootMessage (message : string)
| BootIo (e : io_error)
| BootStore (e : Error)
| BootControl (e : ControlError).

Definition require_loopback (addr transport : string) : res BootError () :=
  match parse_socket_addr addr with
  | None => Err (BootMessage (transport +:+ " requires a literal loopback bind address (127.0.0.1 or [::1])"))
  | Some a =>
      if is_loopback a then Ok ()
      else Err (BootMessage (transport +:+ " may bind only to loopback; configure --mesh for remote HTTP access; remote gRPC requires an authenticated transport not yet implemented"))
  end.
Definition validate_listeners (opts : ServeOpts) : res BootError () :=
  if negb (sv_compact_secs opts =? 0) then Err (BootMessage GC_REASON)
  else
    _ ← (if bool_decide (sv_mesh opts = None) then require_loopback (sv_addr opts) "HTTP without mesh mTLS" else Ok ());
    match sv_grpc_addr opts with Some addr => require_loopback addr "plaintext gRPC" | None => Ok () end.

(** ** What is started *)
Inductive Listener :=
| LGrpc (addr : SocketAddr)                  (** plain gRPC *)
| LMesh (addr : SocketAddr)                  (** a client certificate is required *)
| LPublic (addr : string) (tls : bool) (boundary : bool).
Inductive Started :=
| Repairing
| Expiring
| Scrubbing (rate : Z)
| Listening (l : Listener).

(** Files outside the data directory, TLS, sockets and [openraft]. *)
Class Platform (E R : Type) := {
  read_file : string → E → E * res io_error bytes;
  http_client : bytes → bytes → res string ();           (** root certificate, identity *)
  rustls_config : bytes → bytes → bytes → res string (); (** CA, certificates, key *)
  pem_config : string → string → E → E * res io_error ();
  bind_listener : string → E → E * res io_error ();
  raft_new : Z → Inner → StateMachineStore → E → E * res string R;
  raft_initialize : list (Z * string) → R → R * res string () }.

Record Host (W E : Type) := MkHost {
  ho_disk : W;
  ho_ret : Dir;
  ho_cursor : Dir;
  ho_log : Dir;
  ho_control : Dir;
  ho_env : E;
  ho_started : list Started }.
Arguments MkHost {W E}.
Arguments ho_disk {W E}.
Arguments ho_ret {W E}.
Arguments ho_cursor {W E}.
Arguments ho_log {W E}.
Arguments ho_control {W E}.
Arguments ho_env {W E}.
Arguments ho_started {W E}.

Section Startup.
Context {W F R E C M : Type} `{!SegmentIo W F, !Blake3, !HashOrder, !Hex, !ReqsJson, !Platform E R}.
Context `{!BindingKey, !Bincode, !SnapshotJson, !LogJson, !CursorJson, !Semaphore M}.
(** An empty cache of a size; [StorageError]'s [Display]; the name of a
    temporary file and the seed of a new storage generation. *)
Context (new_cache : Z → C) (storage_text : StorageError → string) (temporary : string) (seed : bytes).
Abbreviation Machine := (Host W E).
Abbreviation BM := (ST Machine BootError).

Definition set_disk w (h : Machine) : Machine := MkHost w (ho_ret h) (ho_cursor h) (ho_log h) (ho_control h) (ho_env h) (ho_started h).
Definition set_ret_dir d (h : Machine) : Machine := MkHost (ho_disk h) d (ho_cursor h) (ho_log h) (ho_control h) (ho_env h) (ho_started h).
Definition set_cursor_dir d (h : Machine) : Machine := MkHost (ho_disk h) (ho_ret h) d (ho_log h) (ho_control h) (ho_env h) (ho_started h).
Definition set_log_dir d (h : Machine) : Machine := MkHost (ho_disk h) (ho_ret h) (ho_cursor h) d (ho_control h) (ho_env h) (ho_started h).
Definition set_control_dir d (h : Machine) : Machine := MkHost (ho_disk h) (ho_ret h) (ho_cursor h) (ho_log h) d (ho_env h) (ho_started h).
Definition set_env e (h : Machine) : Machine := MkHost (ho_disk h) (ho_ret h) (ho_cursor h) (ho_log h) (ho_control h) e (ho_started h).

(** A call on one part of the host, with [?]. *)
Definition part {S X A} (get : Machine → S) (set : S → Machine → Machine) (f : X → BootError) (m : ST S X A) : BM A := λ h,
  let (s, r) := m (get h) in (set s h, map_err f r).
Definition on_env {A} (m : ST E io_error A) : BM A := part ho_env set_env BootIo m.
Definition start (s : Started) : BM () := λ h,
  (MkHost (ho_disk h) (ho_ret h) (ho_cursor h) (ho_log h) (ho_control h) (ho_env h) (ho_started h ++ [s]), Ok ()).
Definition or_message {A} (r : res string A) : BM A := st_lift (map_err BootMessage r).

(** ** The mesh *)
Record MeshClientTls := MkClientTls { ct_ca_pem : bytes; ct_identity_pem : bytes }.
Definition client_tls (m : MeshOpts) : BM MeshClientTls :=
  on_env (read_file (mo_cert m)) ≫= λ cert,
  on_env (read_file (mo_key m)) ≫= λ key,
  on_env (read_file (mo_ca m)) ≫= λ ca, mret (MkClientTls ca (cert ++ [x0a] ++ key)).
Definition server_config (m : MeshOpts) : BM () :=
  on_env (read_file (mo_ca m)) ≫= λ ca,
  on_env (read_file (mo_cert m)) ≫= λ cert,
  on_env (read_file (mo_key m)) ≫= λ key, or_message (rustls_config ca cert key).

(** ** The control plane *)
Definition start_node_with_mesh (node_id : Z) (mesh : option MeshClientTls) : BM R :=
  part ho_control set_control_dir BootControl (Recovery.start_node storage_text) ≫= λ '(i, sm),
  match mesh with
  | Some t => st_lift (map_err (λ e, BootControl (Init ("mesh tls: " +:+ e))) (http_client (ct_ca_pem t) (ct_identity_pem t)))
  | None => mret ()
  end ≫= λ _,
  part ho_env set_env (λ e, BootControl (Init e)) (raft_new node_id i sm).
(** Embedded use: nothing on disk, and a cluster of this node alone.  An empty
    log has purged nothing, so the check of recovery passes. *)
Definition start_single_node (node_id : Z) : BM R :=
  part ho_env set_env (λ e, BootControl (Init e)) (raft_new node_id in_memory default_sm) ≫= λ raft,
  let (raft, r) := raft_initialize [(node_id, "local")] raft in
  st_lift (map_err (λ e, BootControl (Init e)) r) ≫= λ _, mret raft.
(** A cluster that exists already is not initialized again. *)
Definition boot_control (opts : ServeOpts) : BM R :=
  match sv_mesh opts with Some m => client_tls m ≫= λ t, mret (Some t) | None => mret None end ≫= λ mesh_tls,
  start_node_with_mesh (sv_node_id opts) mesh_tls ≫= λ raft,
  mret (if sv_bootstrap opts
        then (raft_initialize [(sv_node_id opts, match sv_mesh opts with Some m => mo_addr m | None => sv_addr opts end)] raft).1
        else raft).

(** ** Listeners *)
Definition parse_addr (addr : string) : BM SocketAddr :=
  or_message (ok_or (parse_socket_addr addr) "invalid socket address syntax").
Definition listen (l : Listener) : BM () := start (Listening l).
Definition serve_app (opts : ServeOpts) (boundary : bool) : BM () :=
  match sv_tls_cert opts, sv_tls_key opts with
  | Some cert, Some key =>
      on_env (pem_config cert key) ≫= λ _,
      parse_addr (sv_addr opts) ≫= λ _,
      on_env (bind_listener (sv_addr opts)) ≫= λ _, listen (LPublic (sv_addr opts) true boundary)
  | None, None => on_env (bind_listener (sv_addr opts)) ≫= λ _, listen (LPublic (sv_addr opts) false boundary)
  | _, _ => st_throw (BootMessage "--tls-cert and --tls-key must be given together")
  end.
Definition start_grpc (opts : ServeOpts) : BM () :=
  match sv_grpc_addr opts with
  | Some addr => parse_addr addr ≫= λ bind, listen (LGrpc bind)
  | None => mret ()
  end.
Definition start_mesh (opts : ServeOpts) : BM () :=
  match sv_mesh opts with
  | Some m => server_config m ≫= λ _, parse_addr (mo_addr m) ≫= λ bind, listen (LMesh bind)
  | None => mret ()
  end.
Definition is_mesh (opts : ServeOpts) : bool := negb (bool_decide (sv_mesh opts = None)).

(** ** [serve_with_scrub] *)
Abbreviation Node := (NodeState R (W * BlockStore F) C).
Definition max_block_bytes (opts : ServeOpts) : Z := default (256 * 1024 * 1024) (sv_max_block_bytes opts).
Definition rate_allowed (rate : option Z) : bool := match rate with Some r => (1 <=? r) && (r <=? 1024) | None => true end.
Definition app_state (opts : ServeOpts) (blocks : BlockStore F) (retention : RetState) (repairs : RepairLog) (raft : R) : BM Node := λ h,
  (h, Ok (MkNode raft retention (ho_ret h) repairs (ho_log h)
            (tiered_new (ho_disk h, blocks) (new_cache (sv_warm_bytes opts)) (sv_warm_bytes opts)) [] [])).
Definition open_scanner (rate : option Z) : BM (option (OnlineScrubber F)) :=
  match rate with
  | Some _ => part ho_cursor set_cursor_dir BootIo online_open ≫= λ sc, mret (Some sc)
  | None => mret None
  end.
(** The files, in the order they are opened. *)
Definition open_data (opts : ServeOpts) (rate : option Z) : BM (Node * option (OnlineScrubber F)) :=
  part ho_disk set_disk (λ e, BootStore (Io e)) open_with ≫= λ blocks,
  part ho_ret set_ret_dir BootIo ret_open ≫= λ retention,
  open_scanner rate ≫= λ scanner,
  part ho_log set_log_dir BootIo (repair_open temporary seed) ≫= λ repairs,
  boot_control opts ≫= λ raft,
  app_state opts blocks retention repairs raft ≫= λ node, mret (node, scanner).
(** The HTTP client for peers is built from the same certificates. *)
Definition peer_client (opts : ServeOpts) : BM () :=
  match sv_mesh opts with
  | Some m => client_tls m ≫= λ t, or_message (http_client (ct_ca_pem t) (ct_identity_pem t))
  | None => mret ()
  end.
Definition start_tasks (scanner : option (OnlineScrubber F)) (rate : option Z) : BM () :=
  start Repairing ≫= λ _, start Expiring ≫= λ _,
  match scanner, rate with Some _, Some rate => start (Scrubbing rate) | _, _ => mret () end.
Definition serve_with_scrub (opts : ServeOpts) (rate : option Z) : BM (Node * UploadBudget M) :=
  if negb (rate_allowed rate) then st_throw (BootMessage "--scrub-mib-per-sec must be between 1 and 1024")
  else
    st_lift (validate_listeners opts) ≫= λ _,
    or_message (budget_new (max_block_bytes opts)) ≫= λ uploads,
    open_data opts rate ≫= λ '(node, scanner),
    peer_client opts ≫= λ _,
    start_tasks scanner rate ≫= λ _,
    start_grpc opts ≫= λ _,
    start_mesh opts ≫= λ _,
    serve_app opts (is_mesh opts) ≫= λ _,
    mret (node, uploads).
(** A witness has no data plane. *)
Definition serve_witness (opts : ServeOpts) : BM R :=
  st_lift (validate_listeners opts) ≫= λ _,
  boot_control opts ≫= λ raft,
  start_mesh opts ≫= λ _,
  serve_app opts (is_mesh opts) ≫= λ _,
  mret raft.
End Startup.
