(* ===== verification/StartupTheorems.v ===== *)
(** * What start-up guarantees

    Which listeners a node can end up with, and that a restart after a crash
    finds everything that was acknowledged. *)

From S2P Require Import Prelude Core Signing Metadata Leases StateMachine StateInvariant ControlPlane Lifecycle Durability Io Segment Store StoreInvariant StorePut StoreTheorems StoreOpen StoreCompact Tiered TieredCold StoreRestart Codecs Snapshot LogStore Retention RetentionTheorems Scrub OnlineScrub Repair Api Admission Upload Reclamation UploadLogic UploadTheorems Front NetAddr Startup.
From S2P Require LogTheorems Recovery.
From Stdlib Require Import Strings.Byte.

(** ** Listeners *)

(** Can it be reached from other machines? *)
Definition remote (l : Listener) : bool :=
  match l with
  | LGrpc a | LMesh a => negb (is_loopback a)
  | LPublic addr _ _ => match parse_socket_addr addr with Some a => negb (is_loopback a) | None => true end
  end.
(** What the router sees of a request with or without the internal header:
    [None] if it is answered "not found" before. *)
Definition admits (l : Listener) (path : string) (internal : bool) : option bool :=
  match l with
  | LGrpc _ => None
  | LMesh _ => Some internal
  | LPublic _ _ boundary => if boundary then mesh_public_boundary (λ i, i) path internal else Some internal
  end.
Definition fenced {E R} `{!Platform E R} (opts : ServeOpts) (s : Started) : Prop :=
  match s with
  | Listening l =>
      remote l = true →
      match l with
      | LMesh a => (∃ m, sv_mesh opts = Some m ∧ parse_socket_addr (mo_addr m) = Some a) ∧
                   ∃ ca cert key, rustls_config ca cert key = Ok ()
      | _ => ∀ path internal, (mesh_only path = true → admits l path internal = None) ∧ admits l path internal ≠ Some true
      end
  | _ => True
  end.

Lemma require_loopback_Ok addr transport :
  require_loopback addr transport = Ok () → ∃ a, parse_socket_addr addr = Some a ∧ is_loopback a = true.
Proof. unfold require_loopback. destruct (parse_socket_addr addr) as [a|]; [|done]. destruct (is_loopback a) eqn:E; [|done]. eauto. Qed.
Lemma validate_Ok opts :
  validate_listeners opts = Ok () →
  (sv_mesh opts = None → ∃ a, parse_socket_addr (sv_addr opts) = Some a ∧ is_loopback a = true) ∧
  (∀ addr, sv_grpc_addr opts = Some addr → ∃ a, parse_socket_addr addr = Some a ∧ is_loopback a = true).
Proof.
  unfold validate_listeners. destruct (negb _); [done|]. intros ([] & E1 & E2)%bind_Ok. split.
  - intros Hm. rewrite bool_decide_eq_true_2 in E1 by done. by eapply require_loopback_Ok.
  - intros addr Ha. rewrite Ha in E2. by eapply require_loopback_Ok.
Qed.
Lemma public_fenced {E R} `{!Platform E R} opts tls :
  (sv_mesh opts = None → ∃ a, parse_socket_addr (sv_addr opts) = Some a ∧ is_loopback a = true) →
  fenced opts (Listening (LPublic (sv_addr opts) tls (is_mesh opts))).
Proof.
  intros Hv. unfold fenced, is_mesh. cbn [remote admits]. destruct (sv_mesh opts) as [m|] eqn:Em.
  - intros _ path internal. rewrite bool_decide_eq_false_2 by done. cbn [negb]. unfold mesh_public_boundary.
    by destruct (mesh_only path).
  - destruct (Hv eq_refl) as (a & -> & ->). done.
Qed.

Section Listeners.
Context {W F R E C M : Type} `{!SegmentIo W F, !Blake3, !HashOrder, !Hex, !ReqsJson, !Platform E R}.
Context `{!BindingKey, !Bincode, !SnapshotJson, !LogJson, !CursorJson, !Semaphore M}.
Context (new_cache : Z → C) (storage_text : StorageError → string) (temporary : string) (seed : bytes).
Abbreviation Machine := (Host W E).
Abbreviation BM := (ST Machine BootError).

(** How a computation may change the host, whatever its outcome. *)
Definition steps {A} (Rel : relation Machine) (m : BM A) : Prop := ∀ h h' r, m h = (h', r) → Rel h h'.
Section Steps.
Context (Rel : relation Machine) `{!PreOrder Rel}.
Lemma steps_ret {A} (a : A) : steps Rel (mret a : BM A).
Proof. by intros h h' r [= <- _]. Qed.
Lemma steps_lift {A} (r : res BootError A) : steps Rel (st_lift r : BM A).
Proof. by intros h h' r' [= <- _]. Qed.
Lemma steps_throw {A} e : steps Rel (st_throw e : BM A).
Proof. by intros h h' r [= <- _]. Qed.
Lemma steps_bind_post {A B} (Q : A → Prop) (m : BM A) (k : A → BM B) :
  steps Rel m → (∀ h h' a, m h = (h', Ok a) → Q a) → (∀ a, Q a → steps Rel (k a)) → steps Rel (m ≫= k).
Proof.
  intros Hm HQ Hk h h' r E'. unfold mbind, ST_bind in E'. destruct (m h) as [h1 r1] eqn:E1. pose proof (Hm _ _ _ E1) as H1'.
  destruct r1 as [a|e|]; [|by injection E' as <- _..]. etransitivity; [exact H1'|]. by eapply Hk; [eapply HQ|].
Qed.
Lemma steps_bind {A B} (m : BM A) (k : A → BM B) : steps Rel m → (∀ a, steps Rel (k a)) → steps Rel (m ≫= k).
Proof. intros Hm Hk. by apply (steps_bind_post (λ _, True)). Qed.
(** The value of a pure step is known in what follows. *)
Lemma steps_bind_lift {A B} (r : res BootError A) (k : A → BM B) :
  (∀ a, r = Ok a → steps Rel (k a)) → steps Rel (st_lift r ≫= k).
Proof. intros Hk. apply (steps_bind_post (λ a, r = Ok a)); [apply steps_lift|by intros h h' a [= _ ->]|done]. Qed.
Lemma steps_part {S X A} (get : Machine → S) set (f : X → BootError) (m : ST S X A) :
  (∀ s h, Rel h (set s h)) → steps Rel (part get set f m).
Proof. intros Hs h h' r. unfold part. destruct (m (get h)) as [s x]. by intros [= <- _]. Qed.
End Steps.

(** It starts only what satisfies [P]. *)
Definition started (P : Started → Prop) (h h' : Machine) : Prop :=
  ∃ new, ho_started h' = ho_started h ++ new ∧ Forall P new.
#[local] Instance started_preorder P : PreOrder (started P).
Proof.
  split; [intros h; exists []; by rewrite app_nil_r|].
  intros h1 h2 h3 (n1 & E1 & F1) (n2 & E2 & F2). exists (n1 ++ n2). rewrite E2, E1, app_assoc. split; [done|by apply Forall_app].
Qed.
Abbreviation starts P := (steps (started P)).
Lemma started_same P (h h' : Machine) : ho_started h' = ho_started h → started P h h'.
Proof. intros E'. exists []. by rewrite app_nil_r. Qed.
Lemma starts_start (P : Started → Prop) s : P s → starts P (start s : BM ()).
Proof. intros Hs h h' r [= <- _]. exists [s]. split; [done|by constructor]. Qed.

(** It leaves the data files alone. *)
Definition same_data (h h' : Machine) : Prop := ho_disk h' = ho_disk h ∧ ho_ret h' = ho_ret h ∧ ho_log h' = ho_log h.
#[local] Instance same_data_preorder : PreOrder same_data.
Proof. split; [done|]. intros h1 h2 h3 (? & ? & ?) (? & ? & ?). split_and!; congruence. Qed.

Create HintDb startup.
Hint Resolve steps_ret steps_lift steps_throw : startup.
Hint Extern 1 (steps (started _) (part _ _ _ _)) => apply steps_part; intros; by apply started_same : startup.
Hint Extern 1 (steps same_data (part _ _ _ _)) => by apply steps_part : startup.
Ltac startup :=
  repeat first [apply steps_bind; [apply _| |intros ?]|progress unfold on_env, or_message|case_match|solve [eauto 2 with startup typeclass_instances]].

Lemma starts_client_tls P m : starts P (client_tls m : BM MeshClientTls).
Proof. unfold client_tls. startup. Qed.
Lemma starts_server_config P m : starts P (server_config m : BM ()).
Proof. unfold server_config. startup. Qed.
Lemma client_tls_data m : steps same_data (client_tls m : BM MeshClientTls).
Proof. unfold client_tls. startup. Qed.
Lemma server_config_Ok m (h h' : Machine) a :
  server_config m h = (h', Ok a) → ∃ ca cert key, rustls_config ca cert key = Ok ().
Proof.
  unfold server_config. intros (h1 & ca & _ & (h2 & cert & _ & (h3 & key & _ & E')%st_bind_Ok)%st_bind_Ok)%st_bind_Ok.
  exists ca, cert, key. unfold or_message, st_lift in E'. by destruct (rustls_config ca cert key) as [[]|?|].
Qed.
Hint Resolve starts_client_tls starts_server_config client_tls_data : startup.
Lemma starts_boot_control P opts : starts P (boot_control storage_text opts : BM R).
Proof. unfold boot_control, start_node_with_mesh. startup. Qed.
Lemma boot_control_data opts : steps same_data (boot_control storage_text opts : BM R).
Proof. unfold boot_control, start_node_with_mesh. startup. Qed.
(** A node for embedded use leaves every file as it is. *)
Lemma start_single_node_in_memory id (h h' : Machine) r :
  start_single_node id h = (h', r) → h' = set_env (ho_env h') h.
Proof.
  unfold start_single_node, mbind, ST_bind, part. destruct (raft_new id in_memory default_sm (ho_env h)) as [e [w|x|]]; cbn;
    [destruct (raft_initialize _ w) as [w' [[]|y|]]; cbn|..]; by intros [= <- _].
Qed.
Hint Resolve starts_boot_control : startup.
Lemma starts_open_data P opts rate :
  starts P (open_data (F := F) new_cache storage_text temporary seed opts rate : BM (NodeState R (W * BlockStore F) C * option (OnlineScrubber F))).
Proof. unfold open_data, open_scanner, app_state. startup. intros h h' r [= <- _]. by apply started_same. Qed.
Lemma starts_peer_client P opts : starts P (peer_client opts : BM ()).
Proof. unfold peer_client. startup. Qed.
Lemma starts_tasks opts (sc : option (OnlineScrubber F)) rate : starts (fenced opts) (start_tasks sc rate : BM ()).
Proof. unfold start_tasks. startup; by apply starts_start. Qed.
Hint Resolve starts_open_data starts_peer_client starts_tasks : startup.

Lemma starts_grpc opts :
  (∀ addr, sv_grpc_addr opts = Some addr → ∃ a, parse_socket_addr addr = Some a ∧ is_loopback a = true) →
  starts (fenced opts) (start_grpc opts : BM ()).
Proof.
  intros Hv. unfold start_grpc. destruct (sv_grpc_addr opts) as [addr|]; [|startup]. destruct (Hv addr eq_refl) as (a & Ea & Hl).
  unfold parse_addr, or_message. apply steps_bind_lift; [apply _|]. intros b Eb. rewrite Ea in Eb. injection Eb as <-.
  apply starts_start. cbn. by rewrite Hl.
Qed.
Lemma starts_mesh opts : starts (fenced opts) (start_mesh opts : BM ()).
Proof.
  unfold start_mesh. destruct (sv_mesh opts) as [m|] eqn:Em; [|startup].
  apply (steps_bind_post _ (λ _, ∃ ca cert key, rustls_config ca cert key = Ok ())); [eauto with startup|by apply server_config_Ok|].
  intros _ Hc. unfold parse_addr, or_message. apply steps_bind_lift; [apply _|]. intros b Eb. apply starts_start. intros _. split; [|done].
  exists m. split; [done|]. destruct (parse_socket_addr (mo_addr m)); [by injection Eb as ->|done].
Qed.
Lemma starts_app opts :
  (sv_mesh opts = None → ∃ a, parse_socket_addr (sv_addr opts) = Some a ∧ is_loopback a = true) →
  starts (fenced opts) (serve_app opts (is_mesh opts) : BM ()).
Proof.
  intros Hv. unfold serve_app, parse_addr. startup; apply starts_start; by apply public_fenced.
Qed.

Abbreviation serve_all opts rate :=
  (serve_with_scrub (F := F) (C := C) (M := M) new_cache storage_text temporary seed opts rate) (only parsing).
Lemma starts_serve opts rate : starts (fenced opts) (serve_all opts rate).
Proof.
  unfold serve_with_scrub. destruct (negb (rate_allowed rate)); [apply steps_throw, _|].
  apply steps_bind_lift; [apply _|]. intros [] [Hm Hg]%validate_Ok.
  apply steps_bind; [apply _|apply steps_lift, _|intros uploads]. apply steps_bind; [apply _|apply starts_open_data|intros [node sc]].
  repeat (apply steps_bind; [apply _|eauto using starts_peer_client, starts_tasks, starts_grpc, starts_mesh, starts_app|intros _]).
  apply steps_ret, _.
Qed.
Lemma starts_witness opts : starts (fenced opts) (serve_witness storage_text opts).
Proof.
  unfold serve_witness. apply steps_bind_lift; [apply _|]. intros [] [Hm Hg]%validate_Ok.
  apply steps_bind; [apply _|apply starts_boot_control|intros raft].
  repeat (apply steps_bind; [apply _|eauto using starts_mesh, starts_app|intros _]). apply steps_ret, _.
Qed.

End Listeners.

(** ** Restarting after a crash *)
Section Restart.
Context {W F R E C M : Type} `{SegmentIoLaws W F, !Blake3, !HashOrder, !HashOrderLaws, !Platform E R, !Moka C, !MokaLaws C}.
Context `{!Hex, !HexLaws, !ReqsJson, !ReqsJsonLaws, !PeerJson, !Raft R, !DataPeers (NodeState R (W * BlockStore F) C)}.
Context `{!BindingKey, !Bincode, !SnapshotJson, !LogJson, !CursorJson}.
Context (new_cache : Z → C) (storage_text : StorageError → string) (temporary : string) (seed : bytes).
Context (new_cache_empty : ∀ n, cached (new_cache n) = ∅).
Abbreviation St := (W * BlockStore F)%type.
Abbreviation Node := (NodeState R St C).
Abbreviation Machine := (Host W E).

(** A consistent node; and one that moreover a restart will find again. *)
Abbreviation sound mine s := (node_ok (H1 := cold_blocks_laws) mine s) (only parsing).
Abbreviation durable_node mine s := (node_ok (H1 := durable_laws) mine s) (only parsing).

(** The machine after the process died: the same files, on devices that
    respond. *)
Record crashed (s : Node) (h : Machine) : Prop := {
  cr_disk : same_disk (cold (nd_store s)).1 (ho_disk h);
  cr_healthy : healthy (ho_disk h);
  cr_ret : ho_ret h = reopened (nd_ret_dir s);
  cr_log : ho_log h = reopened (nd_log_dir s) }.
(** What start-up needs beyond the data files. *)
Definition boots (opts : ServeOpts) (rate : option Z) (h : Machine) : Prop :=
  (rate ≠ None → is_ok (online_open (F := F) (ho_cursor h)).2 = true) ∧
  ∀ h1 : Machine, ho_control h1 = ho_control h → ho_env h1 = ho_env h → is_ok (boot_control storage_text opts h1).2 = true.

(** A block that reads, from any tier, as bytes of its hash. *)
Definition reads (s : Node) (id : BlockId) : Prop :=
  ∃ p, (tiered_get id (nd_store s)).2 = Ok p ∧ block_of p = id.
(** Nothing is lost. *)
Record restored (s s' : Node) : Prop := {
  rs_sound : sound [] s';
  rs_blocks : ∀ id, stored_at s id = true → stored_at s' id = true ∧ reads s' id;
  rs_guards : ∀ id g, rt_ids (nd_ret s) !! id = Some g → ∃ g', rt_ids (nd_ret s') !! id = Some g' ∧ g ≤ g';
  rs_reqs : covered (rq_blocks (rl_requirements (nd_log s))) (rq_blocks (rl_requirements (nd_log s')));
  rs_identity : rl_generation (nd_log s') = rl_generation (nd_log s);
  rs_durable : write_failed (cold (nd_store s)).2 = false → durable_node [] s' }.

Lemma new_tier_inv `{laws : !ColdStoreLaws St} (st : St) budget :
  cold_ok (ColdStoreLaws := laws) st → 0 ≤ budget ≤ u64_max → tiered_inv (tiered_new st (new_cache budget) budget).
Proof.
  intros Hc Hb. constructor; cbn; try done.
  - by intros id p; rewrite new_cache_empty, lookup_empty.
  - Z.to_euclidean_division_equations. lia.
  - unfold u64_max in *. Z.to_euclidean_division_equations. lia.
Qed.
Lemma idle_guards ret d : ret_ok ret d → rt_active ret = ∅ → rt_checks ret = ∅ → sys_inv (MkSys ret d [] ∅).
Proof. intros Hr Ha Hc. constructor; cbn; [done| |done|set_solver]. intros id. by rewrite Ha, lookup_empty. Qed.
Lemma cold_reads budget (w : W) (s : BlockStore F) segs id p :
  store_ok w s segs → healthy w → view w s id = Some p → block_of p = id →
  (tiered_get id (tiered_new (w, s) (new_cache budget) budget)).2 = Ok p.
Proof.
  intros Hok Hw Hv Hp. destruct (law_moka_get (new_cache budget) id) as [Hc _]. rewrite new_cache_empty, lookup_empty in Hc.
  destruct (get_refines_lookup id w s segs Hok Hw) as (w' & Eg & _). unfold abs_get in Eg. rewrite Hv in Eg.
  rewrite (proj2 (block_verify_spec id p) Hp) in Eg.
  unfold tiered_get. cbn. destruct (moka_get (new_cache budget) id) as [c r]. cbn in Hc. subst r.
  unfold on_cold, mbind, ST_bind. cbn. by rewrite Eg.
Qed.

Lemma part_Ok {S X A} (get : Machine → S) set (f : X → BootError) (m : ST S X A) h s a :
  m (get h) = (s, Ok a) → part get set f m h = (set s h, Ok a).
Proof. intros E'. unfold part. by rewrite E'. Qed.
Lemma ret_open_idle d d' ret : ret_open d = (d', Ok ret) → rt_active ret = ∅ ∧ rt_checks ret = ∅.
Proof.
  unfold ret_open. intros (d1 & ? & _ & (d2 & content & _ & E')%st_bind_Ok)%st_bind_Ok.
  destruct (_ <? _); [done|]. apply st_bind_Ok in E' as (d3 & [[ids sq] n] & _ & E').
  do 3 (apply st_bind_Ok in E' as (? & ? & _ & E')). by injection E' as _ <-.
Qed.

(** The data files never keep a node from starting. *)
Lemma open_data_restores opts rate mine s h :
  durable_node mine s → crashed s h → boots opts rate h → 0 ≤ sv_warm_bytes opts ≤ u64_max →
  ∃ h' s' sc, open_data new_cache storage_text temporary seed opts rate h = (h', Ok (s', sc)) ∧ restored s s'.
Proof.
  intros [(oth & held & Hg) Hl Hs] [D1 D2 D3 D4] [Hcur Hboot] Hwarm.
  destruct (reopen_durable _ _ _ (ti_cold _ Hs) D1 D2) as (w2 & s2 & Eo & (segs & Hok) & Hsame & Hw2 & Hf2 & Hkeep & Hread & Hdur).
  destruct (ret_ok_reopens _ _ (si_ret _ Hg)) as (d2 & ret2 & Er & Hret & Hids & _).
  destruct (ret_open_idle _ _ _ Er) as [Ha2 Hc2].
  destruct (repair_open_ok temporary seed _ _ Hl) as (l2 & El & Hl2 & Hgen & Hcov). cbn [sy_ret sy_dir] in *.
  set (h1 := set_ret_dir d2 (set_disk w2 h)).
  assert (∃ cd (sc : option (OnlineScrubber F)), open_scanner rate h1 = (set_cursor_dir cd h1, Ok sc)) as (cd & sc & Ec).
  { destruct rate as [rt|]; [|exists (ho_cursor h1), None; by destruct h]. specialize (Hcur ltac:(done)).
    destruct (online_open (ho_cursor h)) as [cd [sc| |]] eqn:Ec; [|done..]. exists cd, (Some sc).
    unfold open_scanner, mbind, ST_bind. by rewrite (part_Ok ho_cursor set_cursor_dir BootIo online_open h1 cd sc Ec). }
  set (h2 := set_log_dir (reopened (nd_log_dir s)) (set_cursor_dir cd h1)).
  specialize (Hboot h2 eq_refl eq_refl). destruct (boot_control storage_text opts h2) as [h3 [raft| |]] eqn:Eb; [|done..].
  destruct (boot_control_data storage_text opts _ _ _ Eb) as (B1 & B2 & B3).
  eexists h3, _, sc. split.
  - unfold open_data. apply st_bind_Ok. eexists _, _. split; [by apply part_Ok|].
    apply st_bind_Ok. eexists _, _. split; [apply part_Ok; cbn; rewrite D3; exact Er|]. fold h1.
    apply st_bind_Ok. eexists _, _. split; [exact Ec|].
    apply st_bind_Ok. eexists _, _. split; [apply part_Ok; cbn; rewrite D4; exact El|]. fold h2.
    apply st_bind_Ok. eexists _, _. split; [exact Eb|]. apply st_bind_Ok. by eexists _, _.
  - rewrite B1, B2, B3. cbn [h2 h1 set_log_dir set_cursor_dir set_ret_dir set_disk ho_disk ho_ret ho_log].
    assert (∀ laws : ColdStoreLaws St, cold_ok (ColdStoreLaws := laws) (w2, s2) →
      node_ok (H1 := laws) [] (MkNode raft ret2 d2 l2 (reopened (nd_log_dir s))
        (tiered_new (w2, s2) (new_cache (sv_warm_bytes opts)) (sv_warm_bytes opts)) [] [])) as Hnode.
    { intros laws Hc. constructor; cbn; [|done|by apply new_tier_inv]. exists [], ∅. by apply idle_guards. }
    constructor; cbn [nd_ret nd_log nd_store]; [by apply Hnode; exists segs| |done|done|done|].
    + intros id Hid%Hkeep. split; [done|]. destruct (Hread id Hid) as (p & Hv & Hp). exists p. split; [|done].
      by apply (cold_reads _ w2 s2 segs).
    + intros Hf. apply Hnode. by apply Hdur.
Qed.

(** C9. An acknowledged upload survives a crash.  Take any upload that was
    acknowledged, on a node whose block store had no torn bytes when it was
    opened; let any handlers run after it, on this and other blocks, with any
    failures of the devices; and let the process die.  Started again on its
    files, the node opens them without fail, is consistent, keeps its
    identity, and still has the block: it reads back as bytes of that hash
    and is guarded, and the replica requirement of the upload is at least as
    high as asked.  Everything else that was stored, guarded or required is
    there too, and if no append had failed, the new node is again one for
    which all this holds. *)
Theorem acknowledged_upload_survives_crash `{!DataPeersLaws (H1 := durable_laws)} opts rate hd body ack mine later s0 s1 s h :
  durable_node mine s0 → zlen body ≤ MAX_PAYLOAD → put_block hd body s0 = (s1, Ok ack) →
  moves s1 s → durable_node later s → crashed s h → boots opts rate h → 0 ≤ sv_warm_bytes opts ≤ u64_max →
  ∃ h' s' sc, open_data new_cache storage_text temporary seed opts rate h = (h', Ok (s', sc)) ∧ restored s s' ∧
    reads s' (block_of body) ∧ guarded_in [block_of body] s' ∧
    ∃ n, parse_replicas (uh_replicas hd) = Ok n ∧ (durably n hd = true → required_in n [block_of body] s').
Proof.
  intros Hs0 Hb E' Hm Hs Hc Hboot Hw.
  destruct (put_block_runs (H1 := durable_laws) (H2 := durable_exact) mine 0 hd body Hb s0 s1 (Ok ack) Hs0 (Nat.le_0_l _) E')
    as (_ & _ & n & En & Hst & Hgu & Hreq & _).
  destruct (open_data_restores opts rate later s h Hs Hc Hboot Hw) as (h' & s' & sc & Eo & Hr).
  exists h', s', sc. split; [done|]. split; [done|]. split_and!.
  - apply (rs_blocks _ _ Hr). by apply (mv_store _ _ Hm), Hst; left.
  - intros i Hi. destruct (Hgu i Hi) as [g Hx]. apply (mv_guards _ _ Hm) in Hx as (g1 & Hx & _).
    apply (rs_guards _ _ Hr) in Hx as (g2 & -> & _). by eexists.
  - exists n. split; [done|]. intros Hd i Hi. destruct (Hreq Hd i Hi) as (m & Hx & ?).
    apply (mv_reqs _ _ Hm) in Hx as (m1 & Hx & ?). apply (rs_reqs _ _ Hr) in Hx as (m2 & Hx & ?). exists m2. split; [done|lia].
Qed.
End Restart.

(** ** Witnesses *)
Module StartupExamples.
Import UploadExamples.
#[local] Existing Instance toy_blake3.
#[local] Existing Instance toy_hex.
#[local] Existing Instance toy_hex_laws.
#[local] Existing Instance toy_order.
#[local] Existing Instance toy_order_laws.
#[local] Existing Instance map_cache.
#[local] Existing Instance map_cache_laws.
#[local] Existing Instance toy_binding_key.
#[local] Existing Instance local_raft.
#[local] Existing Instance RepairExamples.toy_reqs_json.
#[local] Existing Instance RepairExamples.toy_reqs_json_laws.
#[local] Existing Instance toy_peer_json.
#[local] Existing Instance toy_peers.
#[local] Existing Instance toy_bincode.
#[local] Existing Instance toy_snapshot_json.
#[local] Existing Instance LogTheorems.toy_log_json.
#[local] Instance no_cursor : CursorJson := {|
  json_of_cursor _ := inr "no checkpoints"; json_of_saved_cursor _ _ := inr "no checkpoints";
  saved_cursor_of_json _ := inr "no checkpoints" |}.
#[local] Existing Instance AdmissionExamples.toy_semaphore.
(** Every file and certificate is in order; a new Raft node has the restored state. *)
#[local] Instance toy_platform : Platform () MetadataState := {|
  read_file _ e := (e, Ok []);
  http_client _ _ := Ok ();
  rustls_config _ _ _ := Ok ();
  pem_config _ _ e := (e, Ok ());
  bind_listener _ e := (e, Ok ());
  raft_new _ _ sm e := (e, Ok (Snapshot.sm_state sm));
  raft_initialize _ r := (r, Ok ()) |}.

Definition local_opts : ServeOpts := MkServe "data" "127.0.0.1:7070" 1024 1 true (Some "[::1]:7071") 0 false None None None None None.
Definition mesh_opts : ServeOpts :=
  MkServe "data" "0.0.0.0:7070" 1024 1 true None 0 false None None None None (Some (MkMesh "10.0.0.1:7000" "ca.pem" "cert.pem" "key.pem")).
Definition fresh_host : Host Disk () :=
  MkHost empty_disk (MkDir ∅ []) (MkDir ∅ []) log_dir (MkDir ∅ []) () [].
Definition start_up (opts : ServeOpts) : Host Disk () * res BootError (ToyNode * UploadBudget Z) :=
  serve_with_scrub (λ _, ∅) Recovery.ex_text "tmp" [] opts None fresh_host.


(** The node of the upload examples can be found again. *)
Lemma node0_durable : node_ok (H1 := durable_laws) [] node0.
Proof.
  destruct node0_ok as [Hg Hl [_ ? ? ? ? ? ?]]. constructor; [done|done|]. constructor; try done.
  exists [([rec1], [])]. split; [apply rec1_ok|]. split_and!.
  - eapply tidy_scannable; [apply (rec1_ok [])|by repeat constructor].
  - repeat constructor.
  - intros _. by repeat constructor.
Qed.
#[local] Instance toy_peers_durable : DataPeersLaws (H1 := durable_laws) (W := MetadataState) (S := Disk * BlockStore N) (C := gmap BlockId bytes).
Proof.
  assert (∀ s : ToyNode, others (H1 := durable_laws) s s) as Hr by (intros s mine Ho; split; [done|reflexivity]).
  constructor; intros; cbn; try apply Hr. by split.
Qed.

(** The machine of the node after the upload. *)
Definition uploaded_node : ToyNode := upload_run.1.
Definition dead_host : Host Disk () :=
  MkHost (cold (nd_store uploaded_node)).1 (reopened (nd_ret_dir uploaded_node)) (MkDir ∅ []) (reopened (nd_log_dir uploaded_node)) (MkDir ∅ []) () [].
Lemma dead_host_boots : boots (F := N) Recovery.ex_text local_opts None dead_host.
Proof.
  split; [done|]. intros [w ret cur log ctl env st] Ec _. cbn in Ec. subst ctl.
  assert (is_ok (Recovery.start_node Recovery.ex_text (MkDir ∅ [])).2 = true) as Hok by by vm_compute.
  unfold boot_control, start_node_with_mesh. cbn [sv_mesh local_opts]. unfold mbind, ST_bind, part. cbn [mret ST_ret ho_control].
  destruct (Recovery.start_node Recovery.ex_text (MkDir ∅ [])) as [d [[i sm]|e|]]; [done|discriminate Hok..].
Qed.

Lemma acknowledged_upload_survives_crash_witness :
  is_ok upload_run.2 = true ∧
  ∃ h' (s' : ToyNode) sc, open_data (λ _, ∅) Recovery.ex_text "tmp" [] local_opts None dead_host = (h', Ok (s', sc)) ∧
    guarded_in [block_of upload_body] s'.
Proof.
  assert (is_ok upload_run.2 = true) as Hok by by vm_compute. split; [exact Hok|].
  destruct upload_run.2 as [ack|e|] eqn:Er; [|discriminate..].
  assert (put_block two_replicas upload_body node0 = (uploaded_node, Ok ack)) as E' by (rewrite <-Er; apply surjective_pairing).
  assert (zlen upload_body ≤ MAX_PAYLOAD) as Hb by by vm_compute.
  destruct (put_block_runs (H1 := durable_laws) (H2 := durable_exact) [] 0 two_replicas upload_body Hb node0 _ _ node0_durable (Nat.le_0_l _) E')
    as (Hs & _ & _).
  assert (moves uploaded_node uploaded_node) as Hm by reflexivity.
  assert (0 ≤ sv_warm_bytes local_opts ≤ u64_max) as Hw by (cbn; unfold u64_max; lia).
  assert (∀ n : Z, cached (C := gmap BlockId bytes) ((λ _ : Z, ∅) n) = ∅) as He by (intros; reflexivity).
  assert (crashed uploaded_node dead_host) as Hc by (constructor; [done|by vm_compute|done|done]).
  destruct (acknowledged_upload_survives_crash (C := gmap BlockId bytes) (λ _, ∅) Recovery.ex_text "tmp" [] He local_opts None two_replicas
    upload_body ack [] [] node0 uploaded_node uploaded_node dead_host node0_durable Hb E' Hm Hs Hc dead_host_boots Hw) as (h' & s' & sc & Eo & _ & _ & Hg & _).
  exists h', s', sc. split; [exact Eo|exact Hg].
Defined.
End StartupExamples.
