(* ===== verification/HttpClient.v ===== *)
(** * The client library ([crates/kalpak-client/src/lib.rs])

    Every call of [KalpakClient]: the request it builds and signs, and how it
    reads the answer.  The transport is a parameter ([Http]), and so is the
    reading of JSON bodies ([ClientJson]).  The second half connects a client
    to the handlers of a node ([serve]) and proves that the two ends agree. *)

From S2P Require Import Prelude Core Signing Metadata Leases StateMachine StateInvariant ControlPlane Lifecycle Durability Io Segment Store StoreInvariant StorePut StoreTheorems StoreOpen StoreCompact Tiered TieredCold Retention RetentionTheorems Scrub Codecs LogStore Manifest ManifestTheorems Repair Api Upload Reclamation UploadLogic UploadTheorems Front NetAddr.
From Stdlib Require Import Strings.Byte.

Inductive ClientError :=
| Transport (message : string)
| Server (status : Z) (message : string)
| Decode (message : string).

Inductive ClientReq :=
| CApi (req : ApiRequest)
| CPutBlock (body : bytes)
| CPutBatch (body : bytes)
| CGetBlock (id : string)
| CLookup (chain : list CacheKey)
| CStats.
(** A body that cannot be read is [None]. *)
Inductive HttpReply :=
| SendError (message : string)
| HttpResponse (status : Z) (body : option bytes).
Class Http (N : Type) := exchange : string → ClientReq → N → N * HttpReply.
Class ClientJson := {
  error_text : bytes → option string;               (** [v["error"].as_str()] *)
  id_of_json : bytes → option string;
  ids_of_json : bytes → option (list string);
  renewal_of_json : bytes → option (Z * Z);
  lookup_of_json : bytes → option (option Z * list string);
  status_text : Z → string }.

(** ** Construction *)
Section Client.
Context `{Hex, Ed25519}.

Record KalpakClient := MkClient { kc_base : string; kc_signer : option SigningKey }.
Definition client_new (base : string) : KalpakClient := MkClient (trim_slashes base) None.
Definition with_signer (base : string) (signer : SigningKey) : KalpakClient := MkClient (trim_slashes base) (Some signer).
(** Reading a certificate and building the client are the HTTP library's. *)
Definition with_options (from_pem : bytes → res string ()) (build_http : option bytes → res string ()) (base : string)
    (signer : option SigningKey) (root_ca_pem : option bytes) : res ClientError KalpakClient :=
  _ ← match root_ca_pem with
      | Some pem => map_err (λ e, Decode ("root CA: " +:+ e)) (from_pem pem)
      | None => Ok ()
      end;
  _ ← map_err Transport (build_http root_ca_pem);
  Ok (MkClient (trim_slashes base) signer).
Definition client_agent_id (c : KalpakClient) : option AgentId := (λ k, MkAgentId (verifying_key k)) <$> kc_signer c.
Definition client_sign (c : KalpakClient) (m : bytes) : option string := (λ k, sign_hex k m) <$> kc_signer c.

(** ** Signed writes *)

(** The calls that send a signed write, with their arguments. *)
Inductive ClientOp :=
| OBegin (lease : BlockId) (blocks : list BlockId)
| OCommit (lease : BlockId) (key : CacheKey) (blocks : list BlockId) (parent : option CacheKey) (expected_revision : Z)
| OCancel (lease : BlockId)
| ORenew (lease : BlockId) (expected_generation ttl_ticks : Z)
| ORegister (agent : AgentId) (display_name : string)
| OBind (agent : AgentId) (key : CacheKey) (blocks : list BlockId) (parent : option CacheKey)
| OBindChain (agent : AgentId) (chain : list (CacheKey * list BlockId * option CacheKey)).

(** Lease calls need a signer. *)
Definition as_signer {A} (c : KalpakClient) (f : AgentId → (bytes → string) → A) : res ClientError A :=
  match kc_signer c with
  | Some k => Ok (f (MkAgentId (verifying_key k)) (sign_hex k))
  | None => Err (Decode "upload leases require a signing key")
  end.
Definition begin_request (c : KalpakClient) (lease : BlockId) (blocks : list BlockId) : res ClientError ApiRequest :=
  as_signer c (λ agent sign, ABegin (MkBegin lease agent blocks (sign (lease_begin_message agent lease blocks)))).
Definition commit_request (c : KalpakClient) (lease : BlockId) (key : CacheKey) (blocks : list BlockId)
    (parent : option CacheKey) (revision : Z) : res ClientError ApiRequest :=
  as_signer c (λ agent sign, ACommit (MkCommitReq lease agent (MkChainBinding key blocks parent) revision
    (sign (lease_commit_message agent lease key blocks parent revision)))).
Definition cancel_request (c : KalpakClient) (lease : BlockId) : res ClientError ApiRequest :=
  as_signer c (λ agent sign, ACancel (MkCancel lease agent (sign (lease_cancel_message agent lease)))).
Definition renew_request (c : KalpakClient) (lease : BlockId) (generation ttl : Z) : res ClientError ApiRequest :=
  as_signer c (λ agent sign, ARenew (MkRenew lease agent generation ttl (sign (lease_renew_message agent lease generation ttl)))).
Definition register_request (c : KalpakClient) (agent : AgentId) (name : string) : ApiRequest :=
  ARegister (MkRegisterReq agent name (client_sign c (register_message agent name))).
Definition bind_request (c : KalpakClient) (agent : AgentId) (key : CacheKey) (blocks : list BlockId) (parent : option CacheKey) : ApiRequest :=
  ABind (MkBindReq agent key blocks parent (client_sign c (bind_message agent key blocks parent))).
Definition chain_request (c : KalpakClient) (agent : AgentId) (chain : list (CacheKey * list BlockId * option CacheKey)) : ApiRequest :=
  AChain (MkBindChainReq agent ((λ '(key, blocks, parent), MkChainBinding key blocks parent) <$> chain)
            (client_sign c (chain_message agent chain))).
Definition build (c : KalpakClient) (op : ClientOp) : res ClientError ApiRequest :=
  match op with
  | OBegin lease blocks => begin_request c lease blocks
  | OCommit lease key blocks parent revision => commit_request c lease key blocks parent revision
  | OCancel lease => cancel_request c lease
  | ORenew lease generation ttl => renew_request c lease generation ttl
  | ORegister agent name => Ok (register_request c agent name)
  | OBind agent key blocks parent => Ok (bind_request c agent key blocks parent)
  | OBindChain agent chain => Ok (chain_request c agent chain)
  end.

(** [payloads.len() as u32], then each payload behind its length. *)
Definition client_batch (payloads : list bytes) : bytes :=
  le_bytes 4 (zlen payloads mod 2 ^ 32) ++ concat ((λ p, le_bytes 4 (zlen p mod 2 ^ 32) ++ p) <$> payloads).
End Client.

(** ** Calls *)
Section Calls.
Context {N : Type} `{Hex, Ed25519, Http N, ClientJson}.
Abbreviation CM := (ST N ClientError).

Definition check (reply : HttpReply) : res ClientError (option bytes) :=
  match reply with
  | SendError m => Err (Transport m)
  | HttpResponse status body =>
      if (200 <=? status) && (status <? 300) then Ok body
      else Err (Server status (default (status_text status) (body ≫= error_text)))
  end.
Definition request (c : KalpakClient) (path : string) (req : ClientReq) : CM (option bytes) := λ s,
  let (s, reply) := exchange (kc_base c +:+ path) req s in (s, check reply).
(** [.json().await?]. *)
Definition json_body {A} (parse : bytes → option A) (body : option bytes) : res ClientError A :=
  ok_or (body ≫= parse) (Transport "error decoding response body").
Definition parse_id (id : string) : res ClientError BlockId := map_err (λ _, Decode id) (block_from_str id).
Fixpoint parse_ids (ids : list string) : res ClientError (list BlockId) :=
  match ids with
  | [] => Ok []
  | id :: ids => b ← parse_id id; bs ← parse_ids ids; Ok (b :: bs)
  end.

(** Send, check the status, and drop the body. *)
Definition client_call (c : KalpakClient) (op : ClientOp) : CM () :=
  st_lift (build c op) ≫= λ req, request c (route req) (CApi req) ≫= λ _, mret ().
Definition client_begin_lease (c : KalpakClient) (lease : BlockId) (blocks : list BlockId) : CM () :=
  client_call c (OBegin lease blocks).
Definition client_commit_lease (c : KalpakClient) (lease : BlockId) (key : CacheKey) (blocks : list BlockId)
    (parent : option CacheKey) (expected_revision : Z) : CM () :=
  client_call c (OCommit lease key blocks parent expected_revision).
Definition client_cancel_lease (c : KalpakClient) (lease : BlockId) : CM () := client_call c (OCancel lease).
Definition client_register (c : KalpakClient) (agent : AgentId) (display_name : string) : CM () :=
  client_call c (ORegister agent display_name).
Definition client_bind (c : KalpakClient) (agent : AgentId) (key : CacheKey) (blocks : list BlockId) (parent : option CacheKey) : CM () :=
  client_call c (OBind agent key blocks parent).
Definition client_bind_prefix (c : KalpakClient) (agent : AgentId) (key : CacheKey) (blocks : list BlockId) : CM () :=
  client_bind c agent key blocks None.
Definition bind_prefix_under (c : KalpakClient) (agent : AgentId) (parent key : CacheKey) (blocks : list BlockId) : CM () :=
  client_bind c agent key blocks (Some parent).
Definition client_bind_chain (c : KalpakClient) (agent : AgentId) (chain : list (CacheKey * list BlockId * option CacheKey)) : CM () :=
  client_call c (OBindChain agent chain).
Definition client_renew (c : KalpakClient) (lease : BlockId) (generation ttl : Z) : CM (Z * Z) :=
  st_lift (build c (ORenew lease generation ttl)) ≫= λ req,
  request c (route req) (CApi req) ≫= λ body, st_lift (json_body renewal_of_json body).
Definition client_put_block (c : KalpakClient) (payload : bytes) : CM BlockId :=
  request c "/v1/blocks" (CPutBlock payload) ≫= λ body,
  st_lift (json_body id_of_json body) ≫= λ id, st_lift (parse_id id).
Definition client_put_blocks (c : KalpakClient) (payloads : list bytes) : CM (list BlockId) :=
  request c "/v1/blocks/batch" (CPutBatch (client_batch payloads)) ≫= λ body,
  st_lift (json_body ids_of_json body) ≫= λ ids, st_lift (parse_ids ids).
Definition client_get_block (c : KalpakClient) (id : BlockId) : CM bytes :=
  request c ("/v1/blocks/" +:+ block_display id) (CGetBlock (block_display id)) ≫= λ body,
  st_lift (ok_or body (Transport "error reading response body")).
Definition client_lookup (c : KalpakClient) (chain : list CacheKey) : CM (option (Z * list BlockId)) :=
  request c "/v1/manifest/lookup" (CLookup chain) ≫= λ body,
  st_lift (json_body lookup_of_json body) ≫= λ '(hit_depth, blocks),
  match hit_depth with
  | None => mret None
  | Some depth => st_lift (bs ← parse_ids blocks; Ok (Some (depth, bs)))
  end.
(** The statistics, as whatever JSON value they are. *)
Definition client_stats {V} (value_of_json : bytes → option V) (c : KalpakClient) : CM V :=
  request c "/v1/stats" CStats ≫= λ body, st_lift (json_body value_of_json body).
End Calls.

(** ** What a client signs, a server accepts *)
Section Signatures.
Context {W J : Type} `{Raft W, Peers W J, HexLaws, Ed25519Laws, BindingKey}.

(** The agent a call names, where the caller chooses it. *)
Definition named_agent (op : ClientOp) : option AgentId :=
  match op with ORegister a _ | OBind a _ _ _ | OBindChain a _ => Some a | _ => None end.

Lemma signed_verifies k m :
  ∃ sig, signature_from_hex (sign_hex k m) = Ok sig ∧ agent_verify (MkAgentId (verifying_key k)) m sig = Ok ().
Proof.
  exists (ed_sign k m). unfold signature_from_hex, sign_hex. rewrite hex_decode_encode. cbn. rewrite to_array_arr. split; [done|].
  unfold agent_verify. cbn. by rewrite verifying_key_is_valid, ed_verify_sign.
Qed.
Lemma chain_links (chain : list (CacheKey * list BlockId * option CacheKey)) :
  (λ b, (cb_key b, cb_blocks b, cb_parent b)) <$> ((λ '(key, blocks, parent), MkChainBinding key blocks parent) <$> chain) = chain.
Proof. induction chain as [|[[key blocks] parent] chain IH]; [done|]. cbn. by rewrite IH. Qed.
Lemma build_authorized c k op :
  kc_signer c = Some k → (∀ a, named_agent op = Some a → a = MkAgentId (verifying_key k)) →
  ∃ req, build c op = Ok req ∧ authorized req ∧ message_agent (request_message req) = MkAgentId (verifying_key k).
Proof.
  intros Hk Ha. destruct op as [lease blocks|lease key blocks parent rev|lease|lease gen ttl|a name|a key blocks parent|a chain];
    cbn [build named_agent] in *;
    unfold begin_request, commit_request, cancel_request, renew_request, register_request, bind_request, chain_request, as_signer, client_sign; rewrite Hk; try rewrite (Ha a eq_refl); (eexists; split; [done|]; split; [|done]).
  all: unfold authorized; cbn [request_message request_signature message_bytes message_agent bg_agent bg_lease bg_blocks bg_signature
    cm_agent cm_lease cm_binding cm_expected_revision cm_signature cb_key cb_blocks cb_parent cn_agent cn_lease cn_signature
    rn_agent rn_lease rn_expected_generation rn_ttl_ticks rn_signature ra_agent ra_display_name ra_signature
    bq_agent bq_key bq_blocks bq_parent bq_signature bc_agent bc_bindings bc_signature fmap option_fmap option_map].
  all: rewrite ?chain_links; eexists.
  all: match goal with |- context [sign_hex ?k0 ?m] => destruct (signed_verifies k0 m) as (sig & ? & ?) end; by exists sig.
Qed.

(** C19. What a client signs, a server accepts.  A client with a signing key
    builds every request of its own agent so that the agent's signature is
    valid for exactly that request; no server, whether it requires
    signatures or not, answers such a request with "unauthorized" unless it
    only relays that answer from the leader it forwarded the same request
    to.  Without a key, a lease call fails before anything is sent. *)
Theorem client_signatures_accepted c op :
  (∀ k, kc_signer c = Some k → (∀ a, named_agent op = Some a → client_agent_id c = Some a) →
   ∃ req, build c op = Ok req ∧ authorized req ∧ Some (message_agent (request_message req)) = client_agent_id c ∧
     ∀ require_signatures stored internal (s s' : ApiState W) e,
       handle_request (J := J) require_signatures stored internal req s = (s', Err e) → ae_status e = UNAUTHORIZED →
       ∃ w1 addr value, write (ap_raft s) (request_of req) = (w1, Err (NotLeader (Some addr))) ∧
         post addr (route req) req w1 = (ap_raft s', Answered UNAUTHORIZED value)) ∧
  (kc_signer c = None → named_agent op = None →
   ∀ (N : Type) `{Http N, ClientJson} (s : N), client_call c op s = (s, Err (Decode "upload leases require a signing key"))).
Proof.
  split.
  - intros k Hk Ha. destruct (build_authorized c k op Hk) as (req & Hb & Hauth & Hag).
    { intros a Hna. apply Ha in Hna. unfold client_agent_id in Hna. rewrite Hk in Hna. by injection Hna. }
    exists req. split_and!; [done|done|unfold client_agent_id; by rewrite Hag, Hk|].
    intros rs stored internal s s' e E He. apply handle_handled in E.
    remember (Err e) as r eqn:Er. destruct E as [|text Hm Hna|text b Hb' Hs|s' r Ha' Hn Hp]; [by injection Er as <-|done|by injection Er as <-|].
    subst r. by apply Hp.
  - intros Hk Hn N ?? s. unfold client_call, mbind, ST_bind, st_lift.
    destruct op; try done; cbn [build]; unfold begin_request, commit_request, cancel_request, renew_request, as_signer; by rewrite Hk.
Qed.
End Signatures.

(** ** A client talking to a node *)
Class ServerJson (J : Type) := {
  json_of_error : string → bytes;
  json_of_ack : Ack → bytes;
  json_of_lookup : LookupResp → bytes;
  json_of_reply : ApiReply J → bytes }.
(** Each end reads what the other wrote. *)
Class JsonLaws (J : Type) `{ClientJson, ServerJson J} := {
  law_error : ∀ m, error_text (json_of_error m) = Some m;
  law_ack_id : ∀ a, id_of_json (json_of_ack a) = ak_id a;
  law_ack_ids : ∀ a, ids_of_json (json_of_ack a) = ak_ids a;
  law_lookup : ∀ l, lookup_of_json (json_of_lookup l) = Some (lr_hit_depth l, lr_blocks l) }.

Section EndToEnd.
Context {W S C J : Type} `{!Raft W, ColdStoreExact S, !Moka C, !MokaLaws C, HashOrderLaws, HexLaws, ReqsJsonLaws, !PeerJson}.
Context `{!DataPeers (NodeState W S C), !DataPeersLaws, !BindingKey, !Ed25519, !Peers W J, JsonLaws J}.
Abbreviation Node := (NodeState W S C).
Context (require_signatures : bool) (serve_stats : Node → Node * HttpReply).

(** The headers of a plain client. *)
Definition plain : UploadHeaders := MkHeaders None false false.
Definition respond {A} (encode : A → bytes) (x : Node * res ApiError A) : Node * HttpReply :=
  let (s, r) := x in
  (s, match r with
      | Ok a => HttpResponse 200 (Some (encode a))
      | Err e => HttpResponse (ae_status e) (Some (json_of_error (ae_message e)))
      | Panic => SendError "connection closed before message completed"
      end).
(** The routes; background jobs run on their own. *)
Definition serve (req : ClientReq) (s : Node) : Node * HttpReply :=
  match req with
  | CApi req =>
      let (a, r) := handle_request (J := J) require_signatures (tiered_contains (nd_store s)) false req (MkApi (nd_raft s) []) in
      respond json_of_reply (set_raft (ap_raft a) s, r)
  | CPutBlock body => respond json_of_ack (put_block plain body s)
  | CPutBatch body => respond json_of_ack (put_blocks_batch plain body s)
  | CGetBlock id => respond (λ b, b) (get_block plain id s)
  | CLookup chain =>
      respond json_of_lookup (s, Ok (lookup_prefix (sm_state (nd_raft s)) chain).1)
  | CStats => serve_stats s
  end.
#[local] Instance node_http : Http Node := λ _ req s, serve req s.

(** *** Handlers fail with an error status *)
Definition fails_well {A} (m : ST Node ApiError A) : Prop := ∀ s s' e, m s = (s', Err e) → 400 ≤ ae_status e.
Lemma fw_ret {A} (a : A) : fails_well (mret a).
Proof. done. Qed.
Lemma fw_bind {A B} (m : ST Node ApiError A) (f : A → ST Node ApiError B) :
  fails_well m → (∀ a, fails_well (f a)) → fails_well (m ≫= f).
Proof.
  intros Hm Hf s s' e E. unfold mbind, ST_bind in E. destruct (m s) as [s1 [a|e1|]] eqn:E1; [by eapply Hf| |done].
  injection E as <- <-. by eapply Hm.
Qed.
Lemma api_of_error_status e : 400 ≤ ae_status (api_of_error e).
Proof. by destruct e. Qed.
Lemma fw_lift {A} (r : res ApiError A) : (∀ e, r = Err e → 400 ≤ ae_status e) → fails_well (st_lift r).
Proof. intros Hr s s' e [= <- ->]. by apply Hr. Qed.
Lemma fw_store {A} (m : ST (TieredStore S C) Error A) : fails_well (on_store api_of_error m).
Proof. intros s s' e E. unfold on_store in E. destruct (m (nd_store s)) as [t [a|e1|]]; simplify_eq/=. apply api_of_error_status. Qed.
Lemma fw_log {A} (m : ST (RepairLog * Dir) io_error A) : fails_well (on_log api_of_io m).
Proof. intros s s' e E. unfold on_log in E. destruct (m (nd_log s, nd_log_dir s)) as [[l d] [a|e1|]]; by simplify_eq/=. Qed.
Lemma fw_guarded {A} ids (k : ST Node ApiError A) : fails_well k → fails_well (guarded api_of_io ids k).
Proof.
  intros Hk. apply fw_bind.
  - intros s s' e E. unfold on_ret in E. destruct (protect ids (nd_ret s, nd_ret_dir s)) as [[l d] [a|e1|]]; by simplify_eq/=.
  - intros g s s' e E. unfold in_scope in E. destruct (k s) as [s1 r] eqn:E1. destruct (drop_guard g (nd_ret s1)); [|done..].
    injection E as <- ->. by eapply Hk.
Qed.
Lemma fw_replicas h : fails_well (st_lift (map_err (MkApiError BAD_REQUEST) (parse_replicas (uh_replicas h)))).
Proof. apply fw_lift. intros e. by destruct (parse_replicas _); intros [= <-]. Qed.
Lemma fw_finish path body expected replicas h :
  fails_well (replicate path body expected replicas h ≫= λ _, ack_reply expected replicas h).
Proof.
  apply fw_bind; [|done]. apply fw_bind; [|intros u; by destruct (_ && _)]. destruct (1 <? replicas); [|done].
  intros s s' e E. unfold lift_err in E. destruct (acknowledge_replicas _ _ _ _ s) as [s1 [u|e1|]]; by simplify_eq/=.
Qed.
Lemma fw_put h body : fails_well (put_block h body).
Proof.
  apply fw_bind; [apply fw_replicas|]. intros replicas. apply fw_guarded, fw_bind; [|intros u; apply fw_bind; [apply fw_store|]].
  - destruct (durably replicas h); [apply fw_log|done].
  - intros id. apply fw_finish.
Qed.
Lemma fw_batch h body : fails_well (put_blocks_batch h body).
Proof.
  apply fw_bind; [apply fw_replicas|]. intros replicas. apply fw_bind.
  - apply fw_lift. intros e He. destruct (decode_batch_total body) as [Ho|[m Hm]]; rewrite He in *; [done|by simplify_eq].
  - intros ps. apply fw_guarded, fw_bind; [destruct (durably replicas h); [apply fw_log|done]|]. intros u.
    apply fw_bind; [apply fw_store|]. intros ids. apply fw_bind; [destruct (durably replicas h); [apply fw_store|done]|].
    intros u'. apply fw_finish.
Qed.
Lemma fw_get h id : fails_well (get_block h id).
Proof.
  apply fw_bind; [apply fw_lift; intros e; destruct (block_from_str id); intros [= <-]; apply api_of_error_status|].
  intros b s s' e E. unfold read_block in E. destruct (on_store (λ e, e) (tiered_get b) s) as [s1 [p|e1|]]; [done| |done].
  destruct e1; try (simplify_eq; apply api_of_error_status). destruct (uh_internal h); [simplify_eq; apply api_of_error_status|].
  revert E. generalize (peer_addrs (self_id s1) (cluster s1)). intros peers. revert s1. induction peers as [|peer peers IH]; intros s1 E;
    [injection E as <- <-; apply api_of_error_status|].
  cbn [fetch_from] in E. destruct (fetch_block peer b s1) as [s2 [bs|]]; [|by eapply IH]. case_bool_decide; [|by eapply IH].
  revert E. apply fw_guarded, fw_bind; [apply fw_store|done].
Qed.

(** *** What the caller gets *)
Lemma request_served c path req s s' r : request c path req s = (s', r) → s' = (serve req s).1 ∧ r = check (serve req s).2.
Proof. unfold request, exchange, node_http. destruct (serve req s) as [s1 reply]. by intros [= <- <-]. Qed.
Lemma respond_check {A} (encode : A → bytes) (m : ST Node ApiError A) s :
  fails_well m →
  check (respond encode (m s)).2 =
    match (m s).2 with
    | Ok a => Ok (Some (encode a))
    | Err e => Err (Server (ae_status e) (ae_message e))
    | Panic => Err (Transport "connection closed before message completed")
    end.
Proof.
  intros Hm. unfold respond. destruct (m s) as [s1 [a|e|]] eqn:E; cbn; [done| |done].
  apply Hm in E. rewrite (proj2 (Z.ltb_ge (ae_status e) 300)), andb_false_r by lia. cbn. by rewrite law_error.
Qed.
Lemma respond_state {A} (encode : A → bytes) (x : Node * res ApiError A) : (respond encode x).1 = x.1.
Proof. by destruct x. Qed.

Lemma parse_ids_display bs : parse_ids (block_display <$> bs) = Ok bs.
Proof.
  induction bs as [|b bs IH]; [done|]. cbn. unfold parse_id. rewrite (proj2 (block_from_str_Ok _ b)) by apply hex_decode_encode.
  cbn. by rewrite IH.
Qed.
Lemma le_bytes_mod n z : le_bytes n (z mod 2 ^ (8 * Z.of_nat n)) = le_bytes n z.
Proof. rewrite <-le_val_bytes, <-(length_le_bytes n z) at 1. by rewrite le_bytes_val. Qed.
Lemma client_batch_encode ps : client_batch ps = encode_batch ps.
Proof.
  unfold client_batch, encode_batch. change (2 ^ 32) with (2 ^ (8 * Z.of_nat 4)). rewrite le_bytes_mod. f_equal. f_equal.
  apply list_fmap_ext. intros i p _. unfold frame. by rewrite le_bytes_mod.
Qed.

Lemma encoded_count ps ps' : zlen ps < 2 ^ 32 → decode_batch (encode_batch ps) = Ok ps' → zlen ps ≤ 4096.
Proof.
  intros Hn (He & Hc & _)%decode_batch_Ok. apply (f_equal (take 4)) in He. unfold encode_batch in He.
  rewrite !take_app_length' in He by by rewrite length_le_bytes. apply (f_equal le_val) in He.
  pose proof (zlen_nonneg ps). pose proof (zlen_nonneg ps').
  rewrite !le_val_bytes_small in He by (change (8 * Z.of_nat 4) with 32; lia). lia.
Qed.

(** Calls through the wire. *)
Lemma served_ok {A B} c path req (encode : A → bytes) (m : ST Node ApiError A) (k : option bytes → ST Node ClientError B) s s' b :
  fails_well m → serve req s = respond encode (m s) →
  (request c path req ≫= k) s = (s', Ok b) → ∃ s1 a, m s = (s1, Ok a) ∧ k (Some (encode a)) s1 = (s', Ok b).
Proof.
  intros Hm Hs E. unfold mbind, ST_bind in E. destruct (request c path req s) as [s1 r] eqn:E1.
  apply request_served in E1 as [-> ->]. rewrite Hs, respond_check, respond_state in E by done.
  destruct (m s) as [s1 [a|e|]] eqn:Em; cbn [fst snd] in E; [|done..]. by exists s1, a.
Qed.
Lemma served_err {A B} c path req (encode : A → bytes) (m : ST Node ApiError A) (k : option bytes → ST Node ClientError B) s s' e :
  fails_well m → serve req s = respond encode (m s) →
  m s = (s', Err e) → (request c path req ≫= k) s = (s', Err (Server (ae_status e) (ae_message e))).
Proof.
  intros Hm Hs E. unfold mbind, ST_bind. destruct (request c path req s) as [s1 r] eqn:E1.
  apply request_served in E1 as [-> ->]. by rewrite Hs, respond_check, respond_state, E by done.
Qed.

End EndToEnd.

(** ** Witness: an upload over the wire *)
Module HttpClientExamples.
Import UploadExamples.
#[local] Existing Instance toy_blake3.
#[local] Existing Instance toy_hex.
#[local] Existing Instance toy_hex_laws.
#[local] Existing Instance toy_ed25519.
#[local] Existing Instance toy_ed25519_laws.
#[local] Existing Instance toy_order.
#[local] Existing Instance toy_order_laws.
#[local] Existing Instance map_cache.
#[local] Existing Instance map_cache_laws.
#[local] Existing Instance toy_binding_key.
#[local] Existing Instance local_raft.
#[local] Existing Instance RepairExamples.toy_reqs_json.
#[local] Existing Instance RepairExamples.toy_reqs_json_laws.
#[local] Existing Instance toy_peer_json.
#[local] Existing Instance toy_peers.
#[local] Existing Instance toy_peers_laws.
#[local] Existing Instance ApiExamples.no_peers.
#[local] Instance toy_client_json : ClientJson := {|
  error_text := toy_dec;
  id_of_json l := toy_dec l ≫= λ x : option string * option (list string), x.1;
  ids_of_json l := toy_dec l ≫= λ x : option string * option (list string), x.2;
  renewal_of_json _ := None;
  lookup_of_json := toy_dec;
  status_text _ := "error" |}.
#[local] Instance toy_server_json : ServerJson () := {|
  json_of_error := toy_enc;
  json_of_ack a := toy_enc (ak_id a, ak_ids a);
  json_of_lookup l := toy_enc (lr_hit_depth l, lr_blocks l);
  json_of_reply _ := [] |}.
#[local] Instance toy_json_laws : JsonLaws ().
Proof.
  constructor; intros; cbn [error_text json_of_error id_of_json ids_of_json json_of_ack lookup_of_json json_of_lookup toy_client_json toy_server_json];
    by rewrite toy_dec_enc.
Qed.
#[local] Instance toy_http : Http ToyNode := node_http (J := ()) false (λ s, (s, HttpResponse 200 None)).

Definition client0 : KalpakClient := client_new "http://node/".

Definition client1 : KalpakClient := with_signer "http://node/" ApiExamples.api_key.
(** The client's own agent begins a lease. *)
Lemma client_signatures_accepted_witness :
  is_ok (build client1 (OBegin (blk 1) [blk 2])) = true ∧
  ∀ req, build client1 (OBegin (blk 1) [blk 2]) = Ok req → authorized req.
Proof.
  split; [by vm_compute|]. intros req Hreq.
  destruct (client_signatures_accepted (W := MetadataState) (J := ()) client1 (OBegin (blk 1) [blk 2])) as [Hs _].
  destruct (Hs ApiExamples.api_key eq_refl) as (req' & Hreq' & Ha & _).
  - intros a E. discriminate E.
  - rewrite Hreq in Hreq'. injection Hreq' as ->. exact Ha.
Defined.
End HttpClientExamples.
