(* ===== verification/GrpcClient.v ===== *)
(** * The gRPC client ([grpc] module of [crates/kalpak-client/src/lib.rs])

    [KalpakGrpcClient]: connecting, streaming blocks to a node and reading one
    back.  The generated service and its transport are a parameter
    ([BlockService]); a stream of answers is the list of what waiting for its
    messages gives, and its end is the end of the list.  The second half
    connects the client to the handlers of [Grpc]. *)

From S2P Require Import Prelude Core Signing Metadata Leases StateMachine StateInvariant ControlPlane Lifecycle Durability Io Segment Store StoreInvariant StorePut StoreTheorems StoreOpen StoreCompact Tiered TieredCold Retention RetentionTheorems Scrub Codecs LogStore Manifest ManifestTheorems Repair Api Admission Upload Reclamation UploadLogic UploadTheorems Grpc Front HttpClient.
From Stdlib Require Import Strings.Byte.
#[local] Open Scope Z_scope.

Class BlockService (E : Type) := {
  svc_connect : string → E → E * res string ();
  svc_put_blocks : list PutBlockChunk → E → E * res Status (list string);
  svc_get_block : string → E → E * res Status (list (res Status PutBlockChunk));
  code_number : Code → Z }.

Section GrpcClient.
Context {E : Type} `{!BlockService E, !Hex}.
Abbreviation CM := (ST E ClientError).

(** [impl From<tonic::Status> for ClientError]. *)
Definition of_status (s : Status) : ClientError := Server (code_number (st_code s)) (st_message s).
Definition grpc_connect (endpoint : string) : CM () := λ e,
  let (e, r) := svc_connect endpoint e in (e, map_err (λ m, Decode ("grpc connect: " +:+ m)) r).
Definition grpc_client_put (payloads : list bytes) : CM (list BlockId) :=
  (λ e, let (e, r) := svc_put_blocks (client_stream payloads) e in (e, map_err of_status r)) ≫= λ ids,
  st_lift (parse_ids ids).
(** Chunks up to the last one, or up to the end of the stream. *)
Fixpoint read_chunks (l : list (res Status PutBlockChunk)) (out : bytes) : res ClientError bytes :=
  match l with
  | [] => Ok out
  | Ok chunk :: l => let out := out ++ ch_data chunk in if ch_last chunk then Ok out else read_chunks l out
  | Err s :: _ => Err (of_status s)
  | Panic :: _ => Panic
  end.
Definition grpc_client_get (id : BlockId) : CM bytes :=
  (λ e, let (e, r) := svc_get_block (block_display id) e in (e, map_err of_status r)) ≫= λ stream,
  st_lift (read_chunks stream []).

Lemma read_chunks_join l out : Forall (λ c, ch_last c = false) (removelast l) → read_chunks (Ok <$> l) out = Ok (join_chunks l out).
Proof.
  revert out. induction l as [|c l IH]; intros out Hl; [done|]. cbn. destruct (ch_last c); [done|]. apply IH.
  destruct l as [|d l]; [done|]. by apply Forall_cons in Hl as [_ Hl].
Qed.
(** A stream that ends early is taken for a block: the mark of the last chunk
    is not required, and the hash is not compared. *)
Lemma read_chunks_prefix l out : Forall (λ c, ch_last c = false) l → read_chunks (Ok <$> l) out = Ok (out ++ concat (ch_data <$> l)).
Proof.
  revert out. induction l as [|c l IH]; intros out Hl; cbn; [by rewrite app_nil_r|]. apply Forall_cons in Hl as [-> Hl].
  by rewrite IH, <-app_assoc.
Qed.
End GrpcClient.

(** ** A client talking to a node *)
Section GrpcEndToEnd.
Context {W S C : Type} `{!Raft W, ColdStoreExact S, !Moka C, !MokaLaws C, HashOrderLaws, HexLaws, ReqsJsonLaws, !PeerJson}.
Context `{!DataPeers (NodeState W S C), !DataPeersLaws}.
Abbreviation Node := (NodeState W S C).
Context (max_block_bytes : Z) (admitted : bool) (waits : nat → Node → Node) (number : Code → Z).

(** The messages of a stream, with what other handlers do before each. *)
Definition arriving (chunks : list PutBlockChunk) : list ((Node → Node) * StreamEvent) :=
  imap (λ i c, (waits i, Message c)) chunks.
#[local] Instance node_service : BlockService Node := {|
  svc_connect _ s := (s, Ok ());
  svc_put_blocks chunks s := put_blocks max_block_bytes None admitted (arriving chunks) s;
  svc_get_block id s := match grpc_get_block id s with
    | (s, Ok l) => (s, Ok (Ok <$> (l : list PutBlockChunk)))
    | (s, Err e) => (s, Err e)
    | (s, Panic) => (s, Panic)
    end;
  code_number := number |}.

Lemma messages_arriving chunks : messages (arriving chunks) = chunks.
Proof.
  unfold arriving. generalize waits. induction chunks as [|c chunks IH]; intros ws; [done|].
  rewrite imap_cons. cbn. f_equal. apply (IH (ws ∘ Datatypes.S)).
Qed.
Lemma arriving_quiet chunks : (∀ i s, others s (waits i s)) → quiet (arriving chunks).
Proof.
  intros Hw. apply Forall_lookup. intros i x Hx. unfold arriving in Hx. rewrite list_lookup_imap in Hx.
  apply fmap_Some in Hx as (c & _ & ->). apply Hw.
Qed.

(** Over gRPC a client and a node agree, with any other work on the node
    between the messages: when an upload returns, its identifiers are the
    hashes of the payloads in order, and the node holds and guards all of
    them; and what a read returns hashes to the identifier that was asked
    for. *)
Theorem grpc_client_and_node_agree mine (s : Node) :
  0 ≤ max_block_bytes ≤ MAX_PAYLOAD → (∀ i s, others s (waits i s)) → node_ok mine s →
  (∀ ps s' ids, grpc_client_put ps s = (s', Ok ids) →
     ids = block_of <$> ps ∧ zlen ps ≤ MAX_STREAM_BLOCKS ∧ stored_in ids s' ∧ guarded_in ids s') ∧
  (∀ id s' p, grpc_client_get id s = (s', Ok p) → block_of p = id).
Proof.
  intros Hm Hw Ho. split.
  - intros ps s' ids E. unfold grpc_client_put, mbind, ST_bind in E. cbn in E.
    destruct (put_blocks max_block_bytes None admitted (arriving (client_stream ps)) s) as [s1 [l|e|]] eqn:Ep; [|done..].
    destruct (put_blocks_runs max_block_bytes Hm mine (length (nd_heard s)) None admitted _
                (arriving_quiet _ Hw) s s1 (Ok l) Ho (le_n _) Ep) as (_ & _ & replicas & bs & _ & Ha & -> & Hlen & Hs & Hg & _).
    rewrite messages_arriving, assemble_stream in Ha. injection Ha as <-. cbn in E. unfold st_lift in E.
    rewrite parse_ids_display in E. injection E as <- <-. by split_and!.
  - intros id s' p E. unfold grpc_client_get, mbind, ST_bind in E. cbn -[block_chunks] in E. unfold grpc_get_block, mbind, ST_bind, st_lift in E.
    rewrite (proj2 (block_from_str_Ok _ id)) in E by apply hex_decode_encode. cbn -[block_chunks] in E. unfold on_store in E.
    pose proof (tiered_get_spec id (nd_store s) (no_store _ _ Ho)) as Hg. cbn zeta in Hg.
    destruct (tiered_get id (nd_store s)) as [t [q|e|]]; [|done..]. cbn -[block_chunks] in E. cbn in Hg. destruct Hg as (_ & _ & _ & _ & _ & Hid & _).
    destruct (send_chunks_spec (Datatypes.S (Z.to_nat (zlen q / CHUNK_BYTES))) q 0) as (Hj & _ & l & c & El & _ & Hl);
      [pose proof (zlen_nonneg q); lia|unfold CHUNK_BYTES; Z.to_euclidean_division_equations; lia|lia|].
    change (block_chunks q = l ++ [c]) in El. rewrite read_chunks_join in E; [|by rewrite El, removelast_last].
    change (∀ out, join_chunks (block_chunks q) out = out ++ q) in Hj. rewrite Hj in E. by injection E as _ <-.
Qed.
End GrpcEndToEnd.
