(* ===== verification/Cli.v ===== *)
(** * The command line ([crates/kalpakdb/src/main.rs], [pki.rs])

    [parse_args] is the part of [run] that looks at the arguments: the match
    on their shape and the loops over the flags, with their defaults and
    errors.  The rest is one definition per command.  Integers are those of a
    64-bit release build, in which the products of [--warm-mb] and the like
    wrap around.  The commands that measure ([bench], [stress]) are parsed
    here and run in [Load.v].  What a command prints is part of its state;
    writing to the standard output does not fail. *)

From S2P Require Import Prelude Core Durability Io Segment Store StoreInvariant StorePut StoreTheorems StoreOpen StoreCompact Scrub Backup NetAddr Startup.
From stdpp Require Import pretty.
From Stdlib Require Import Strings.Byte.
#[local] Open Scope Z_scope.

(** ** Numbers and strings of the standard library *)

(** [from_str] of an unsigned integer type. *)
Fixpoint int_digits (limit acc : Z) (l : bytes) : res string Z :=
  match l with
  | [] => Ok acc
  | b :: l =>
      let d := byte_Z b - 48 in
      if negb ((0 <=? d) && (d <=? 9)) then Err "invalid digit found in string"
      else if limit <? acc * 10 + d then Err "number too large to fit in target type"
      else int_digits limit (acc * 10 + d) l
  end.
Definition parse_int (limit : Z) (s : string) : res string Z :=
  match str_bytes s with
  | [] => Err "cannot parse integer from empty string"
  | [x2b] => Err "invalid digit found in string"
  | x2b :: l => int_digits limit 0 l
  | l => int_digits limit 0 l
  end.
(** [split(',')]. *)
Fixpoint split_comma (l : bytes) : list bytes :=
  match l with
  | [] => [[]]
  | b :: l =>
      if bool_decide (b = x2c) then [] :: split_comma l
      else match split_comma l with cur :: parts => (b :: cur) :: parts | [] => [[b]] end
  end.
Definition split_commas (s : string) : list string := String.string_of_list_byte <$> split_comma (str_bytes s).
(** [trim]: the UTF-8 forms of the characters with the property [White_Space]. *)
Definition WHITESPACE : list bytes :=
  [[x09]; [x0a]; [x0b]; [x0c]; [x0d]; [x20]; [xc2; x85]; [xc2; xa0]; [xe1; x9a; x80];
   [xe2; x80; x80]; [xe2; x80; x81]; [xe2; x80; x82]; [xe2; x80; x83]; [xe2; x80; x84]; [xe2; x80; x85];
   [xe2; x80; x86]; [xe2; x80; x87]; [xe2; x80; x88]; [xe2; x80; x89]; [xe2; x80; x8a];
   [xe2; x80; xa8]; [xe2; x80; xa9]; [xe2; x80; xaf]; [xe2; x81; x9f]; [xe3; x80; x80]].
Fixpoint drop_blank (blanks : list bytes) (fuel : nat) (l : bytes) : bytes :=
  match fuel with
  | O => l
  | S fuel =>
      match list_find (λ w, w `prefix_of` l) blanks with
      | Some (_, w) => drop_blank blanks fuel (drop (length w) l)
      | None => l
      end
  end.
Definition trim_bytes (l : bytes) : bytes :=
  let l := drop_blank WHITESPACE (length l) l in
  rev (drop_blank (@rev byte <$> WHITESPACE) (length l) (rev l)).
Definition trim (s : string) : string := String.string_of_list_byte (trim_bytes (str_bytes s)).

(** ** Commands *)
Record StressOpts := MkStress { ss_base : string; ss_agents : Z; ss_secs : Z; ss_chunk_kb : Z }.
Inductive Command :=
| CScrub (dir : string) (rate : Z) (restart : bool)
| CServe (opts : ServeOpts) (scrub_rate : option Z)
| CWitness (opts : ServeOpts)
| CStress (opts : StressOpts)
| CMeshCa (dir : string) (hosts : list string)
| CCert (dir : string) (hosts : list string)
| CBench (dir : string) (blocks size : Z)
| CPut (dir : string)
| CGet (dir id : string)
| CKey (model tok layout : string) (chunks : list string)
| CBackup (url out : string)
| CRestore (tarball dir : string)
| CFsck (dir : string)
| CStat (dir : string).

(** *** Flags

    [it.next().ok_or("--flag needs a value")?], then the rest of the loop. *)
Abbreviation P A := (res string A).
Definition with_value {A} (flag : string) (rest : list string) (k : string → list string → P A) : P A :=
  match rest with
  | [] => Err (flag +:+ " needs a value")
  | v :: rest => k v rest
  end.
Definition with_int {A} (limit : Z) (flag : string) (rest : list string) (k : Z → list string → P A) : P A :=
  with_value flag rest (λ v rest, n ← parse_int limit v; k n rest).

(** [scrub]: offline, restart, rate. *)
Fixpoint scrub_flags (fuel : nat) (rest : list string) (o : bool * bool * Z) : P (bool * bool * Z) :=
  match fuel with
  | O => Panic
  | S fuel =>
      match rest, o with
      | [], _ => Ok o
      | flag :: rest, (offline, restart, rate) =>
          if decide (flag = "--offline") then scrub_flags fuel rest (true, restart, rate)
          else if decide (flag = "--restart") then scrub_flags fuel rest (offline, true, rate)
          else if decide (flag = "--mib-per-sec") then
            with_int u64_max flag rest (λ n rest, scrub_flags fuel rest (offline, restart, n))
          else Err ("unknown scrub flag: " +:+ flag)
      end
  end.

Definition default_opts (dir : string) (bootstrap : bool) : ServeOpts :=
  MkServe dir "127.0.0.1:7411" (256 * 1024 * 1024) 1 bootstrap None 0 false None None None None None.
Definition mesh_of (v : string) : P MeshOpts :=
  match split_commas v with
  | [addr; ca; cert; key] => Ok (MkMesh addr ca cert key)
  | _ => Err "--mesh needs addr,ca,cert,key"
  end.
Definition mib (n : Z) : Z := u64_mul (u64_mul n 1024) 1024.

(** One setter per field. *)
Definition set_addr v (o : ServeOpts) : ServeOpts := MkServe (sv_data_dir o) v (sv_warm_bytes o) (sv_node_id o) (sv_bootstrap o)
  (sv_grpc_addr o) (sv_compact_secs o) (sv_require_signatures o) (sv_max_block_bytes o) (sv_tls_cert o) (sv_tls_key o) (sv_read_token o) (sv_mesh o).
Definition set_warm v (o : ServeOpts) : ServeOpts := MkServe (sv_data_dir o) (sv_addr o) v (sv_node_id o) (sv_bootstrap o)
  (sv_grpc_addr o) (sv_compact_secs o) (sv_require_signatures o) (sv_max_block_bytes o) (sv_tls_cert o) (sv_tls_key o) (sv_read_token o) (sv_mesh o).
Definition set_node_id v (o : ServeOpts) : ServeOpts := MkServe (sv_data_dir o) (sv_addr o) (sv_warm_bytes o) v (sv_bootstrap o)
  (sv_grpc_addr o) (sv_compact_secs o) (sv_require_signatures o) (sv_max_block_bytes o) (sv_tls_cert o) (sv_tls_key o) (sv_read_token o) (sv_mesh o).
Definition set_join (o : ServeOpts) : ServeOpts := MkServe (sv_data_dir o) (sv_addr o) (sv_warm_bytes o) (sv_node_id o) false
  (sv_grpc_addr o) (sv_compact_secs o) (sv_require_signatures o) (sv_max_block_bytes o) (sv_tls_cert o) (sv_tls_key o) (sv_read_token o) (sv_mesh o).
Definition set_grpc v (o : ServeOpts) : ServeOpts := MkServe (sv_data_dir o) (sv_addr o) (sv_warm_bytes o) (sv_node_id o) (sv_bootstrap o)
  (Some v) (sv_compact_secs o) (sv_require_signatures o) (sv_max_block_bytes o) (sv_tls_cert o) (sv_tls_key o) (sv_read_token o) (sv_mesh o).
Definition set_compact v (o : ServeOpts) : ServeOpts := MkServe (sv_data_dir o) (sv_addr o) (sv_warm_bytes o) (sv_node_id o) (sv_bootstrap o)
  (sv_grpc_addr o) v (sv_require_signatures o) (sv_max_block_bytes o) (sv_tls_cert o) (sv_tls_key o) (sv_read_token o) (sv_mesh o).
Definition set_signed (o : ServeOpts) : ServeOpts := MkServe (sv_data_dir o) (sv_addr o) (sv_warm_bytes o) (sv_node_id o) (sv_bootstrap o)
  (sv_grpc_addr o) (sv_compact_secs o) true (sv_max_block_bytes o) (sv_tls_cert o) (sv_tls_key o) (sv_read_token o) (sv_mesh o).
Definition set_max_block v (o : ServeOpts) : ServeOpts := MkServe (sv_data_dir o) (sv_addr o) (sv_warm_bytes o) (sv_node_id o) (sv_bootstrap o)
  (sv_grpc_addr o) (sv_compact_secs o) (sv_require_signatures o) (Some v) (sv_tls_cert o) (sv_tls_key o) (sv_read_token o) (sv_mesh o).
Definition set_tls_cert v (o : ServeOpts) : ServeOpts := MkServe (sv_data_dir o) (sv_addr o) (sv_warm_bytes o) (sv_node_id o) (sv_bootstrap o)
  (sv_grpc_addr o) (sv_compact_secs o) (sv_require_signatures o) (sv_max_block_bytes o) (Some v) (sv_tls_key o) (sv_read_token o) (sv_mesh o).
Definition set_tls_key v (o : ServeOpts) : ServeOpts := MkServe (sv_data_dir o) (sv_addr o) (sv_warm_bytes o) (sv_node_id o) (sv_bootstrap o)
  (sv_grpc_addr o) (sv_compact_secs o) (sv_require_signatures o) (sv_max_block_bytes o) (sv_tls_cert o) (Some v) (sv_read_token o) (sv_mesh o).
Definition set_read_token v (o : ServeOpts) : ServeOpts := MkServe (sv_data_dir o) (sv_addr o) (sv_warm_bytes o) (sv_node_id o) (sv_bootstrap o)
  (sv_grpc_addr o) (sv_compact_secs o) (sv_require_signatures o) (sv_max_block_bytes o) (sv_tls_cert o) (sv_tls_key o) (Some v) (sv_mesh o).
Definition set_mesh v (o : ServeOpts) : ServeOpts := MkServe (sv_data_dir o) (sv_addr o) (sv_warm_bytes o) (sv_node_id o) (sv_bootstrap o)
  (sv_grpc_addr o) (sv_compact_secs o) (sv_require_signatures o) (sv_max_block_bytes o) (sv_tls_cert o) (sv_tls_key o) (sv_read_token o) (Some v).

Fixpoint serve_flags (fuel : nat) (rest : list string) (rate : option Z) (o : ServeOpts) : P (option Z * ServeOpts) :=
  match fuel with
  | O => Panic
  | S fuel =>
      match rest with
      | [] => Ok (rate, o)
      | flag :: rest =>
          if decide (flag = "--scrub-mib-per-sec") then
            with_int u64_max flag rest (λ n rest, serve_flags fuel rest (Some n) o)
          else if decide (flag = "--addr") then with_value flag rest (λ v rest, serve_flags fuel rest rate (set_addr v o))
          else if decide (flag = "--warm-mb") then
            with_int u64_max flag rest (λ n rest, serve_flags fuel rest rate (set_warm (mib n) o))
          else if decide (flag = "--max-block-mb") then
            with_int u64_max flag rest (λ n rest, serve_flags fuel rest rate (set_max_block (mib n) o))
          else if decide (flag = "--node-id") then with_int u64_max flag rest (λ n rest, serve_flags fuel rest rate (set_node_id n o))
          else if decide (flag = "--join") then serve_flags fuel rest rate (set_join o)
          else if decide (flag = "--require-signatures") then serve_flags fuel rest rate (set_signed o)
          else if decide (flag = "--read-token") then with_value flag rest (λ v rest, serve_flags fuel rest rate (set_read_token v o))
          else if decide (flag = "--tls-cert") then with_value flag rest (λ v rest, serve_flags fuel rest rate (set_tls_cert v o))
          else if decide (flag = "--tls-key") then with_value flag rest (λ v rest, serve_flags fuel rest rate (set_tls_key v o))
          else if decide (flag = "--mesh") then
            match rest with
            | [] => Err "--mesh needs addr,ca,cert,key"
            | v :: rest => m ← mesh_of v; serve_flags fuel rest rate (set_mesh m o)
            end
          else if decide (flag = "--grpc-addr") then with_value flag rest (λ v rest, serve_flags fuel rest rate (set_grpc v o))
          else if decide (flag = "--compact-secs") then
            with_int u64_max flag rest (λ n rest, serve_flags fuel rest rate (set_compact n o))
          else Err ("unknown flag: " +:+ flag)
      end
  end.

Fixpoint stress_flags (fuel : nat) (rest : list string) (o : StressOpts) : P StressOpts :=
  match fuel with
  | O => Panic
  | S fuel =>
      match rest with
      | [] => Ok o
      | flag :: rest =>
          if decide (flag = "--agents") then
            with_int u64_max flag rest (λ n rest, stress_flags fuel rest (MkStress (ss_base o) n (ss_secs o) (ss_chunk_kb o)))
          else if decide (flag = "--secs") then
            with_int u64_max flag rest (λ n rest, stress_flags fuel rest (MkStress (ss_base o) (ss_agents o) n (ss_chunk_kb o)))
          else if decide (flag = "--chunk-kb") then
            with_int u64_max flag rest (λ n rest, stress_flags fuel rest (MkStress (ss_base o) (ss_agents o) (ss_secs o) n))
          else Err ("unknown flag: " +:+ flag)
      end
  end.
Fixpoint hosts_flags (fuel : nat) (rest : list string) (hosts : list string) : P (list string) :=
  match fuel with
  | O => Panic
  | S fuel =>
      match rest with
      | [] => Ok hosts
      | flag :: rest =>
          if decide (flag = "--hosts") then with_value flag rest (λ v rest, hosts_flags fuel rest (trim <$> split_commas v))
          else Err ("unknown flag: " +:+ flag)
      end
  end.
Fixpoint bench_flags (fuel : nat) (rest : list string) (blocks size : Z) : P (Z * Z) :=
  match fuel with
  | O => Panic
  | S fuel =>
      match rest with
      | [] => Ok (blocks, size)
      | flag :: rest =>
          if decide (flag = "--blocks") then with_int u64_max flag rest (λ n rest, bench_flags fuel rest n size)
          else if decide (flag = "--size-kb") then with_int u64_max flag rest (λ n rest, bench_flags fuel rest blocks (u64_mul n 1024))
          else Err ("unknown flag: " +:+ flag)
      end
  end.

Definition localhost : list string := ["localhost"; "127.0.0.1"].
(** The loops take at least one argument per turn. *)
Definition turns (rest : list string) : nat := S (length rest).

Definition parse_scrub (dir : string) (rest : list string) : P Command :=
  '(offline, restart, rate) ← scrub_flags (turns rest) rest (false, false, 8);
  if negb offline then Err "scrub requires --offline: stop all processes using this data directory first"
  else
    rate ← ok_or (if rate * (1024 * 1024) <=? u64_max then Some (rate * (1024 * 1024)) else None) "scrub rate overflow";
    Ok (CScrub dir rate restart).
Definition parse_serve (witness : bool) (dir : string) (rest : list string) : P Command :=
  '(rate, opts) ← serve_flags (turns rest) rest None (default_opts dir (negb witness));
  if witness then
    match rate with
    | Some _ => Err "online scrub is only available on data nodes"
    | None => Ok (CWitness opts)
    end
  else Ok (CServe opts rate).

(** The shapes of [run], in the order of its arms. *)
Definition parse_args (args : list string) : P Command :=
  match args with
  | "scrub" :: dir :: rest => parse_scrub dir rest
  | "serve" :: dir :: rest => parse_serve false dir rest
  | "witness" :: dir :: rest => parse_serve true dir rest
  | "stress" :: url :: rest => o ← stress_flags (turns rest) rest (MkStress (trim_slashes url) 8 10 64); Ok (CStress o)
  | "mesh-ca" :: dir :: rest => hosts ← hosts_flags (turns rest) rest localhost; Ok (CMeshCa dir hosts)
  | "cert" :: dir :: rest => hosts ← hosts_flags (turns rest) rest localhost; Ok (CCert dir hosts)
  | "bench" :: dir :: rest => '(blocks, size) ← bench_flags (turns rest) rest 2000 (64 * 1024); Ok (CBench dir blocks size)
  | ["put"; dir] => Ok (CPut dir)
  | ["get"; dir; id] => Ok (CGet dir id)
  | "key" :: model :: tok :: layout :: chunk :: chunks => Ok (CKey model tok layout (chunk :: chunks))
  | ["backup"; url; out] => Ok (CBackup url out)
  | ["restore"; tarball; dir] => Ok (CRestore tarball dir)
  | ["fsck"; dir] => Ok (CFsck dir)
  | ["stat"; dir] => Ok (CStat dir)
  | _ => Err "invalid arguments"
  end.

(** ** Running them *)
Inductive CliError :=
| Failed (message : string)
| FailedIo (e : io_error)
| FailedStore (e : Error).

(** [println!]. *)
Definition line (s : string) : bytes := str_bytes s ++ [x0a].
Definition number (n : Z) : string := pretty (Z.to_N n).

Section OnStore.
Context {W F : Type} `{!SegmentIo W F, !Blake3, !HashOrder, !Hex}.
(** The data directory and what was printed. *)
Abbreviation CM := (ST (W * bytes) CliError).
Definition print (l : bytes) : CM () := λ '(w, out), ((w, out ++ l), Ok ()).
Definition open_store : CM (BlockStore F) := λ '(w, out),
  let (w, r) := open_with w in ((w, out), map_err (λ e, FailedStore (Io e)) r).
Definition on_opened {A} (s : BlockStore F) (m : ST (W * BlockStore F) Error A) : CM A := λ '(w, out),
  let '((w, _), r) := m (w, s) in ((w, out), map_err FailedStore r).

(** [put]; [stdin] is what reading it to the end gives. *)
Definition put_cmd (stdin : res io_error bytes) : CM () :=
  open_store ≫= λ s,
  st_lift (map_err FailedIo stdin) ≫= λ payload,
  on_opened s (put payload) ≫= λ id,
  print (line (block_display id)).
Definition get_cmd (id : string) : CM () :=
  open_store ≫= λ s,
  st_lift (map_err FailedStore (block_from_str id)) ≫= λ id,
  on_opened s (get id) ≫= λ payload,
  print payload.
Definition damage (r : VerifyReport) : string :=
  number (zlen (corrupt r)) +:+ " corrupt, " +:+ number (zlen (unreadable r)) +:+ " unreadable".
Definition fsck_cmd : CM () :=
  open_store ≫= λ s,
  on_opened s verify_all ≫= λ r,
  print (line ("checked " +:+ number (blocks_checked r) +:+ " block(s), " +:+ number (bytes_checked r) +:+ " bytes")) ≫= λ _,
  print (concat ((λ id, line ("CORRUPT    " +:+ block_display id)) <$> corrupt r)) ≫= λ _,
  print (concat ((λ id, line ("UNREADABLE " +:+ block_display id)) <$> unreadable r)) ≫= λ _,
  if is_clean r then print (line "clean") else st_throw (Failed (damage r)).
Definition stat_cmd : CM () :=
  open_store ≫= λ s,
  on_opened s stats ≫= λ s,
  print (line ("blocks: " +:+ number (st_blocks s)) ++ line ("segments: " +:+ number (st_segments s))
         ++ line ("bytes_on_disk: " +:+ number (st_bytes_on_disk s))).
End OnStore.

(** [restore], into a directory that exists by then; [tarball] is what reading
    the archive gives. *)
Definition restore_cmd {W F : Type} `{!SegmentIo W F, !Blake3, !HashOrder} (tarball : res io_error Archive) (dir : string)
    : ST (Files W * bytes) CliError () := λ '(f, out),
  match tarball with
  | Ok a =>
      match restore a f with
      | (f, Ok (_, r)) =>
          let out := out ++ line ("restored " +:+ number (blocks_checked r) +:+ " block(s), " +:+ number (bytes_checked r)
                                  +:+ " bytes — fsck " +:+ (if is_clean r then "clean" else "FAILED")) in
          if is_clean r then ((f, out ++ line ("start the node with:  kalpakdb serve " +:+ dir +:+ " --node-id <id>")), Ok ())
          else ((f, out), Err (Failed (damage r)))
      | (f, Err e) => ((f, out), Err (FailedStore e))
      | (f, Panic) => ((f, out), Panic)
      end
  | Err e => ((f, out), Err (FailedIo e))
  | Panic => ((f, out), Panic)
  end.

(** [scrub]: the findings it printed are those of the run. *)
Definition scrub_cmd `{!Blake3, !Hex, !HashOrder, !FileStamp, !ScrubJson} (rate : Z) (restart : bool)
    : ST (list ScrubFinding * Z * Dir) CliError ScrubSummary := λ st,
  let (st, r) := scrub rate restart st in
  (st, match r with
       | Ok summary =>
           if su_findings summary =? 0 then Ok summary
           else Err (Failed "physical scrub found damage; preserve the files and investigate before writing")
       | Err e => Err (FailedIo e)
       | Panic => Panic
       end).

(** [key]: one key per chunk of tokens, each extending the one before. *)
Fixpoint parse_tokens (l : list string) : P (list Z) :=
  match l with
  | [] => Ok []
  | t :: l => n ← parse_int u32_max (trim t); ns ← parse_tokens l; Ok (n :: ns)
  end.
Section Keys.
Context `{!Blake3} (key_json : CacheKey → bytes + string).
Fixpoint key_chunks (fp : ModelFingerprint) (chunks : list string) (key : option CacheKey) : ST bytes CliError (option CacheKey) :=
  match chunks with
  | [] => mret key
  | chunk :: chunks =>
      st_lift (map_err Failed (parse_tokens (split_commas chunk))) ≫= λ tokens,
      let next := match key with None => root fp tokens | Some prev => extend prev tokens end in
      st_lift (match key_json next with inl l => Ok l | inr m => Err (Failed m) end) ≫= λ l,
      (λ out : bytes, (out ++ l ++ [x0a], Ok ())) ≫= λ _,
      key_chunks fp chunks (Some next)
  end.
Definition key_cmd (model tok layout : string) (chunks : list string) : ST bytes CliError () :=
  key_chunks (Fingerprint model tok layout) chunks None ≫= λ _, mret ().
End Keys.

(** [backup]: the body of the response, written to a file. *)
Definition backup_cmd {E : Type} (http_get : string → E → E * res string bytes) (url out : string)
    : ST (E * Dir * bytes) CliError () := λ '(e, d, printed),
  let (e, r) := http_get (trim_slashes url +:+ "/v1/admin/backup") e in
  match r with
  | Ok body =>
      let (d, r) := unpack_file out body d in
      match r with
      | Ok _ => ((e, d, printed ++ line ("wrote " +:+ out +:+ " (" +:+ number (zlen body) +:+ " bytes)")), Ok ())
      | Err x => ((e, d, printed), Err (FailedIo x))
      | Panic => ((e, d, printed), Panic)
      end
  | Err m => ((e, d, printed), Err (Failed m))
  | Panic => ((e, d, printed), Panic)
  end.

(** ** Certificates

    [rcgen] is a parameter: parameters of a certificate, keys, which it draws
    from the state of a random generator, and signing. *)
Class Rcgen (R CertificateParams KeyPair Issuer Certificate : Type) := {
  params_new : list string → res string CertificateParams;
  make_ca : CertificateParams → CertificateParams;
  push_common_name : string → CertificateParams → CertificateParams;
  generate : ST R string KeyPair;
  self_signed : CertificateParams → KeyPair → res string Issuer;
  signed_by : CertificateParams → KeyPair → Issuer → res string Certificate;
  generate_simple_self_signed : list string → ST R string (Certificate * KeyPair);
  issuer_pem : Issuer → bytes;
  certificate_pem : Certificate → bytes;
  serialize_pem : KeyPair → bytes
}.
Record MeshPki := MkPki { ca_pem : bytes; cert_pem : bytes; key_pem : bytes }.
Section Pki.
Context {R CertificateParams KeyPair Issuer Certificate : Type} `{!Rcgen R CertificateParams KeyPair Issuer Certificate}.
Definition generate_mesh_pki (hosts : list string) : ST R string MeshPki :=
  st_lift (params_new []) ≫= λ ca_params,
  let ca_params := push_common_name "kalpak-mesh-ca" (make_ca ca_params) in
  generate ≫= λ ca_key,
  st_lift (self_signed ca_params ca_key) ≫= λ ca,
  st_lift (params_new hosts) ≫= λ leaf_params,
  let leaf_params := push_common_name "kalpak-mesh-node" leaf_params in
  generate ≫= λ leaf_key,
  st_lift (signed_by leaf_params leaf_key ca) ≫= λ leaf,
  mret (MkPki (issuer_pem ca) (certificate_pem leaf) (serialize_pem leaf_key)).

(** The random state, the output directory, and what was printed. *)
Abbreviation GM := (ST (R * Dir * bytes) CliError).
Definition on_rng {A} (m : ST R string A) : GM A := λ '(g, d, out), let (g, r) := m g in ((g, d, out), map_err Failed r).
Definition on_out {A} (m : FS A) : GM A := λ '(g, d, out), let (d, r) := m d in ((g, d, out), map_err FailedIo r).
Definition say (s : string) : GM () := λ '(g, d, out), ((g, d, out ++ line s), Ok ()).
Definition hosts_line (hosts : list string) : string := "hosts: " +:+ String.concat ", " hosts.

Definition write_mesh_pki (dir : string) (hosts : list string) : GM (string * string * string) :=
  on_rng (generate_mesh_pki hosts) ≫= λ pki,
  on_out fs_create_dir ≫= λ _,
  let ca := dir +:+ "/mesh-ca.pem" in
  let cert := dir +:+ "/mesh-cert.pem" in
  let key := dir +:+ "/mesh-key.pem" in
  on_out (unpack_file ca (ca_pem pki)) ≫= λ _,
  on_out (unpack_file cert (cert_pem pki)) ≫= λ _,
  on_out (unpack_file key (key_pem pki)) ≫= λ _,
  mret (ca, cert, key).
Definition mesh_ca_cmd (dir : string) (hosts : list string) : GM () :=
  write_mesh_pki dir hosts ≫= λ '(ca, cert, key),
  say ("wrote " +:+ ca) ≫= λ _, say ("wrote " +:+ cert) ≫= λ _, say ("wrote " +:+ key) ≫= λ _,
  say (hosts_line hosts) ≫= λ _,
  say ("serve with:  --mesh <mesh-addr>," +:+ ca +:+ "," +:+ cert +:+ "," +:+ key).
Definition cert_cmd (dir : string) (hosts : list string) : GM () :=
  on_rng (generate_simple_self_signed hosts) ≫= λ '(cert, signing_key),
  on_out fs_create_dir ≫= λ _,
  let cert_path := dir +:+ "/kalpak-cert.pem" in
  let key_path := dir +:+ "/kalpak-key.pem" in
  on_out (unpack_file cert_path (certificate_pem cert)) ≫= λ _,
  on_out (unpack_file key_path (serialize_pem signing_key)) ≫= λ _,
  say ("wrote " +:+ cert_path) ≫= λ _, say ("wrote " +:+ key_path) ≫= λ _,
  say (hosts_line hosts) ≫= λ _,
  say ("serve with:  kalpakdb serve <dir> --tls-cert " +:+ cert_path +:+ " --tls-key " +:+ key_path).
End Pki.
