(* ===== verification/CliTheorems.v ===== *)
(** * What the command line does

    Flags print and parse back; every argument list is parsed to an end; and
    the commands on a data directory compose across processes: what [put]
    acknowledged, [get] prints, and [fsck] succeeds exactly on intact stores. *)

From S2P Require Import Prelude Core Durability Io Segment Store StoreInvariant StorePut StoreTheorems StoreOpen StoreCompact Tiered TieredCold StoreRestart Scrub Backup NetAddr Startup Cli.
From stdpp Require Import pretty.
From Stdlib Require Import Strings.Byte Ascii.
#[local] Open Scope Z_scope.

(** ** Numbers *)
Definition is_digit (b : byte) : bool := (48 <=? byte_Z b) && (byte_Z b <=? 57).
(** The value of a list of digits that follow [acc]. *)
Definition digits_val (acc : Z) (l : bytes) : Z := foldl (λ n b, n * 10 + (byte_Z b - 48)) acc l.
Lemma digits_val_app acc l k : digits_val acc (l ++ k) = digits_val (digits_val acc l) k.
Proof. apply foldl_app. Qed.
Lemma digits_val_mono acc l : 0 ≤ acc → Forall (λ b, is_digit b = true) l → acc ≤ digits_val acc l.
Proof.
  revert acc. induction l as [|b l IH]; intros acc Ha Hl; cbn; [lia|]. apply Forall_cons in Hl as [Hb Hl].
  unfold is_digit in Hb. apply andb_true_iff in Hb as [H1%Z.leb_le H2%Z.leb_le]. etrans; [|apply IH; [lia|done]]. lia.
Qed.
Lemma int_digits_val limit acc l :
  0 ≤ acc → Forall (λ b, is_digit b = true) l → digits_val acc l ≤ limit → int_digits limit acc l = Ok (digits_val acc l).
Proof.
  revert acc. induction l as [|b l IH]; intros acc Ha Hl Hm; cbn [int_digits]; [done|]. apply Forall_cons in Hl as [Hb Hl].
  pose proof Hb as Hb'. unfold is_digit in Hb'. apply andb_true_iff in Hb' as [H1%Z.leb_le H2%Z.leb_le].
  pose proof (digits_val_mono (acc * 10 + (byte_Z b - 48)) l ltac:(lia) Hl) as Hle. cbn in Hm.
  rewrite (proj2 (Z.leb_le 0 _)), (proj2 (Z.leb_le _ 9)) by lia. cbn [negb andb].
  rewrite (proj2 (Z.ltb_ge _ _)) by (unfold digits_val in *; lia). apply IH; [lia|done|done].
Qed.

(** The decimal text of a number. *)
Lemma str_bytes_cons c s : str_bytes (String c s) = byte_of_ascii c :: str_bytes s.
Proof. done. Qed.
Lemma pretty_char_digit n :
  (n < 10)%N → is_digit (byte_of_ascii (pretty_N_char n)) = true ∧ byte_Z (byte_of_ascii (pretty_N_char n)) = 48 + Z.of_N n.
Proof.
  intros Hn. assert (n = 0 ∨ n = 1 ∨ n = 2 ∨ n = 3 ∨ n = 4 ∨ n = 5 ∨ n = 6 ∨ n = 7 ∨ n = 8 ∨ n = 9)%N as Hc by lia.
  destruct_or!; subst n; by vm_compute.
Qed.
Lemma pretty_go n s :
  ∃ l, str_bytes (pretty_N_go n s) = l ++ str_bytes s ∧ Forall (λ b, is_digit b = true) l ∧ digits_val 0 l = Z.of_N n ∧
    (l = [] → n = 0%N).
Proof.
  revert s. induction (N.lt_wf_0 n) as [n _ IH]. intros s. destruct (decide (n = 0)%N) as [->|Hn].
  { exists []. by rewrite pretty_N_go_0. }
  rewrite pretty_N_go_step by lia.
  destruct (IH (n `div` 10)%N ltac:(apply N.div_lt; lia) (String (pretty_N_char (n `mod` 10)) s)) as (l & E & Hl & Hv & _).
  destruct (pretty_char_digit (n `mod` 10)) as [Hd Hc]; [by apply N.mod_lt|].
  exists (l ++ [byte_of_ascii (pretty_N_char (n `mod` 10))]). split_and!.
  - rewrite E, str_bytes_cons, <-app_assoc. done.
  - apply Forall_app. split; [done|]. by constructor.
  - rewrite digits_val_app, Hv. cbn. rewrite Hc. pose proof (N.div_mod n 10 ltac:(lia)). lia.
  - by destruct l.
Qed.
Lemma number_digits n :
  0 ≤ n → ∃ l, str_bytes (number n) = l ∧ l ≠ [] ∧ Forall (λ b, is_digit b = true) l ∧ digits_val 0 l = n.
Proof.
  intros Hn. unfold number, pretty, pretty_N. case_decide as E.
  - exists [x30]. replace n with 0 by lia. split_and!; try done. by repeat constructor.
  - destruct (pretty_go (Z.to_N n) "") as (l & El & Hl & Hv & Hne). exists l. cbn in El. rewrite app_nil_r in El.
    split_and!; [done| |done|rewrite Hv; lia]. intros ->. by apply E, Hne.
Qed.
Lemma parse_number limit n : 0 ≤ n ≤ limit → parse_int limit (number n) = Ok n.
Proof.
  intros Hn. destruct (number_digits n) as (l & El & Hne & Hl & Hv); [lia|]. unfold parse_int. rewrite El.
  assert (int_digits limit 0 l = Ok n) as E by (rewrite int_digits_val, Hv; [done|lia|done|lia]).
  destruct l as [|b l]; [done|]. apply Forall_cons in Hl as [Hb _]. destruct b; first [done|exact E].
Qed.

(** ** Lists of parts *)
Lemma split_comma_end a : x2c ∉ a → split_comma a = [a].
Proof.
  induction a as [|b a IH]; intros Hn; [done|]. apply not_elem_of_cons in Hn as [Hb Hn]. cbn [split_comma].
  rewrite bool_decide_eq_false_2 by congruence. by rewrite IH.
Qed.
Lemma split_comma_part a l : x2c ∉ a → split_comma (a ++ x2c :: l) = a :: split_comma l.
Proof.
  induction a as [|b a IH]; intros Hn; [done|]. apply not_elem_of_cons in Hn as [Hb Hn]. cbn [split_comma app].
  rewrite bool_decide_eq_false_2 by congruence. by rewrite IH.
Qed.
Lemma str_bytes_app s t : str_bytes (s +:+ t) = str_bytes s ++ str_bytes t.
Proof. induction s as [|c s IH]; [done|]. change (String c s +:+ t) with (String c (s +:+ t)). by rewrite !str_bytes_cons, IH. Qed.
Definition no_comma (s : string) : Prop := x2c ∉ str_bytes s.
Definition mesh_text (m : MeshOpts) : string := mo_addr m +:+ "," +:+ mo_ca m +:+ "," +:+ mo_cert m +:+ "," +:+ mo_key m.
Lemma mesh_text_parse m :
  no_comma (mo_addr m) → no_comma (mo_ca m) → no_comma (mo_cert m) → no_comma (mo_key m) → mesh_of (mesh_text m) = Ok m.
Proof.
  intros Ha Hc Hx Hk. unfold mesh_of, split_commas, mesh_text. rewrite !str_bytes_app.
  change (str_bytes ",") with [x2c]. cbn [app].
  rewrite !split_comma_part, split_comma_end by done. cbn. unfold str_bytes. rewrite !String.string_of_list_byte_of_string. by destruct m.
Qed.

(** ** Flags *)
Definition flag_of (flag : string) (v : option string) : list string :=
  match v with Some v => [flag; v] | None => [] end.
Definition switch (flag : string) (b : bool) : list string := if b then [flag] else [].
Definition MIB : Z := 1024 * 1024.
(** The flags that ask for these options. *)
Definition render (rate : option Z) (o : ServeOpts) : list string :=
  flag_of "--scrub-mib-per-sec" (number <$> rate) ++
  flag_of "--addr" (Some (sv_addr o)) ++ flag_of "--warm-mb" (Some (number (sv_warm_bytes o / MIB))) ++
  flag_of "--node-id" (Some (number (sv_node_id o))) ++ switch "--join" (negb (sv_bootstrap o)) ++
  flag_of "--grpc-addr" (sv_grpc_addr o) ++ flag_of "--compact-secs" (Some (number (sv_compact_secs o))) ++
  switch "--require-signatures" (sv_require_signatures o) ++
  flag_of "--max-block-mb" ((λ n, number (n / MIB)) <$> sv_max_block_bytes o) ++
  flag_of "--tls-cert" (sv_tls_cert o) ++ flag_of "--tls-key" (sv_tls_key o) ++
  flag_of "--read-token" (sv_read_token o) ++ flag_of "--mesh" (mesh_text <$> sv_mesh o).
(** Whole mebibytes, numbers that fit, and mesh parts without commas. *)
Definition whole_mib (n : Z) : Prop := is_u64 n ∧ n mod MIB = 0.
Record printable (rate : option Z) (o : ServeOpts) : Prop := {
  pb_rate : from_option is_u64 True rate;
  pb_warm : whole_mib (sv_warm_bytes o);
  pb_node : is_u64 (sv_node_id o);
  pb_compact : is_u64 (sv_compact_secs o);
  pb_block : from_option whole_mib True (sv_max_block_bytes o);
  pb_mesh : from_option (λ m, no_comma (mo_addr m) ∧ no_comma (mo_ca m) ∧ no_comma (mo_cert m) ∧ no_comma (mo_key m)) True (sv_mesh o) }.
Lemma mib_div n : whole_mib n → 0 ≤ n / MIB ≤ u64_max ∧ mib (n / MIB) = n.
Proof.
  intros [Hn Hm]. unfold is_u64, u64_max, MIB, mib, u64_mul in *. pose proof (Z.div_mod n (1024 * 1024) ltac:(lia)) as E.
  split; [lia|]. rewrite (Z.mod_small (n / (1024 * 1024) * 1024)) by lia. rewrite Z.mod_small; lia.
Qed.

(** [eats piece r o r' o']: the loop takes [piece] off the front, which changes
    rate and options like this; there is fuel enough for what is left. *)
Definition eats (piece : list string) (r : option Z) (o : ServeOpts) (r' : option Z) (o' : ServeOpts) : Prop :=
  ∀ fuel rest, (length (piece ++ rest) < fuel)%nat →
    ∃ fuel', (length rest < fuel')%nat ∧ serve_flags fuel (piece ++ rest) r o = serve_flags fuel' rest r' o'.
Lemma eats_nil r o : eats [] r o r o.
Proof. intros fuel rest Hf. by exists fuel. Qed.
Lemma eats_app p q r1 o1 r2 o2 r3 o3 : eats p r1 o1 r2 o2 → eats q r2 o2 r3 o3 → eats (p ++ q) r1 o1 r3 o3.
Proof.
  intros Hp Hq fuel rest Hf. rewrite <-app_assoc in Hf |- *. destruct (Hp _ _ Hf) as (fu1 & H1 & ->).
  destruct (Hq _ _ H1) as (fu2 & H2 & ->). by exists fu2.
Qed.
(** One turn of the loop. *)
Ltac eat := intros fuel rest Hf; cbn [length app flag_of switch negb fmap option_fmap option_map] in Hf |- *;
  destruct fuel as [|fuel]; [lia|]; exists fuel; split; [lia|]; cbn [serve_flags];
  repeat (rewrite decide_False by discriminate); rewrite decide_True by done.

Section Fields.
Context (r : option Z) (dir addr : string) (warm node : Z) (boot : bool) (grpc : option string) (secs : Z) (sig : bool).
Context (block : option Z) (cert key token : option string) (mesh : option MeshOpts).
Abbreviation opts := (MkServe dir addr warm node boot grpc secs sig block cert key token mesh).
Lemma eats_addr v : eats (flag_of "--addr" (Some v)) r opts r (set_addr v opts).
Proof. eat. done. Qed.
Lemma eats_grpc v : eats (flag_of "--grpc-addr" v) r (MkServe dir addr warm node boot None secs sig block cert key token mesh)
  r (MkServe dir addr warm node boot v secs sig block cert key token mesh).
Proof. destruct v; [|apply eats_nil]. eat. done. Qed.
Lemma eats_cert v : eats (flag_of "--tls-cert" v) r (MkServe dir addr warm node boot grpc secs sig block None key token mesh)
  r (MkServe dir addr warm node boot grpc secs sig block v key token mesh).
Proof. destruct v; [|apply eats_nil]. eat. done. Qed.
Lemma eats_key v : eats (flag_of "--tls-key" v) r (MkServe dir addr warm node boot grpc secs sig block cert None token mesh)
  r (MkServe dir addr warm node boot grpc secs sig block cert v token mesh).
Proof. destruct v; [|apply eats_nil]. eat. done. Qed.
Lemma eats_token v : eats (flag_of "--read-token" v) r (MkServe dir addr warm node boot grpc secs sig block cert key None mesh)
  r (MkServe dir addr warm node boot grpc secs sig block cert key v mesh).
Proof. destruct v; [|apply eats_nil]. eat. done. Qed.
Lemma eats_join b : eats (switch "--join" (negb b)) r (MkServe dir addr warm node true grpc secs sig block cert key token mesh)
  r (MkServe dir addr warm node b grpc secs sig block cert key token mesh).
Proof. destruct b; [apply eats_nil|]. eat. done. Qed.
Lemma eats_signed b : eats (switch "--require-signatures" b) r (MkServe dir addr warm node boot grpc secs false block cert key token mesh)
  r (MkServe dir addr warm node boot grpc secs b block cert key token mesh).
Proof. destruct b; [|apply eats_nil]. eat. done. Qed.
Lemma eats_rate v :
  from_option is_u64 True v → eats (flag_of "--scrub-mib-per-sec" (number <$> v)) None opts v opts.
Proof. destruct v as [n|]; [|intros _; apply eats_nil]. cbn [from_option]. intros Hn. eat. unfold with_int, with_value. by rewrite parse_number. Qed.
Lemma eats_warm n : whole_mib n → eats (flag_of "--warm-mb" (Some (number (n / MIB)))) r opts r (set_warm n opts).
Proof. intros [Hn E]%mib_div. eat. unfold with_int, with_value. rewrite parse_number by done. cbn. by rewrite E. Qed.
Lemma eats_node n : is_u64 n → eats (flag_of "--node-id" (Some (number n))) r opts r (set_node_id n opts).
Proof. intros Hn. eat. unfold with_int, with_value. by rewrite parse_number. Qed.
Lemma eats_compact n : is_u64 n → eats (flag_of "--compact-secs" (Some (number n))) r opts r (set_compact n opts).
Proof. intros Hn. eat. unfold with_int, with_value. by rewrite parse_number. Qed.
Lemma eats_block v :
  from_option whole_mib True v →
  eats (flag_of "--max-block-mb" ((λ n, number (n / MIB)) <$> v)) r (MkServe dir addr warm node boot grpc secs sig None cert key token mesh)
    r (MkServe dir addr warm node boot grpc secs sig v cert key token mesh).
Proof.
  destruct v as [n|]; [|intros _; apply eats_nil]. cbn [from_option]. intros [Hn E]%mib_div. eat. unfold with_int, with_value.
  rewrite parse_number by done. cbn. by rewrite E.
Qed.
Lemma eats_mesh v :
  from_option (λ m, no_comma (mo_addr m) ∧ no_comma (mo_ca m) ∧ no_comma (mo_cert m) ∧ no_comma (mo_key m)) True v →
  eats (flag_of "--mesh" (mesh_text <$> v)) r (MkServe dir addr warm node boot grpc secs sig block cert key token None)
    r (MkServe dir addr warm node boot grpc secs sig block cert key token v).
Proof. destruct v as [m|]; [|intros _; apply eats_nil]. intros (? & ? & ? & ?). eat. by rewrite mesh_text_parse. Qed.
End Fields.

Lemma eats_render rate o : printable rate o → eats (render rate o) None (default_opts (sv_data_dir o) true) rate o.
Proof.
  intros [Hr Hw Hn Hc Hb Hm]. unfold render, default_opts.
  eapply eats_app; [by apply eats_rate|]. eapply eats_app; [apply eats_addr|]. eapply eats_app; [by apply eats_warm|].
  eapply eats_app; [by apply eats_node|]. eapply eats_app; [apply eats_join|]. eapply eats_app; [apply eats_grpc|].
  eapply eats_app; [by apply eats_compact|]. eapply eats_app; [apply eats_signed|]. eapply eats_app; [by apply eats_block|].
  eapply eats_app; [apply eats_cert|]. eapply eats_app; [apply eats_key|]. eapply eats_app; [apply eats_token|].
  destruct o. by apply eats_mesh.
Qed.
(** C40. The flags of [serve] mean what they say.  Any options whose sizes are
    whole mebibytes, whose numbers fit and whose mesh parts hold no comma can
    be asked for on the command line: the flags printed from them parse back
    to exactly these options and this scrub rate, the fields without a flag
    keeping their defaults. *)
Theorem serve_flags_roundtrip rate o :
  printable rate o → parse_args ("serve" :: sv_data_dir o :: render rate o) = Ok (CServe o rate).
Proof.
  intros Hp. cbn [parse_args]. unfold parse_serve.
  destruct (eats_render rate o Hp (turns (render rate o)) []) as (fuel & Hf & E).
  { rewrite app_nil_r. unfold turns. lia. }
  rewrite app_nil_r in E. change (negb false) with true. rewrite E. destruct fuel as [|fuel]; [cbn in Hf; lia|]. done.
Qed.

(** ** The loops end *)
Lemma int_digits_total limit acc l : int_digits limit acc l ≠ Panic.
Proof. revert acc. induction l as [|b l IH]; intros acc; cbn [int_digits]; [done|]. by repeat case_match. Qed.
Lemma parse_int_total limit s : parse_int limit s ≠ Panic.
Proof. unfold parse_int. repeat case_match; first [done|apply int_digits_total]. Qed.
Lemma with_value_total {A} flag rest (k : string → list string → res string A) n :
  (length rest < n)%nat → (∀ v rest', (S (length rest') < n)%nat → k v rest' ≠ Panic) → with_value flag rest k ≠ Panic.
Proof. intros Hn Hk. destruct rest as [|v rest]; [done|]. apply Hk. cbn in Hn. lia. Qed.
Lemma with_int_total {A} limit flag rest (k : Z → list string → res string A) n :
  (length rest < n)%nat → (∀ v rest', (S (length rest') < n)%nat → k v rest' ≠ Panic) → with_int limit flag rest k ≠ Panic.
Proof.
  intros Hn Hk. eapply with_value_total; [exact Hn|]. intros v rest' Hr. pose proof (parse_int_total limit v).
  destruct (parse_int limit v); [|done..]. by apply Hk.
Qed.
(** A loop of flags with its fuel. *)
Ltac loop_ends fuel IH :=
  repeat case_match; try done; try (apply IH; cbn in *; lia);
  try (apply (with_int_total _ _ _ _ fuel); [cbn in *; lia|intros; apply IH; lia]);
  try (apply (with_value_total _ _ _ fuel); [cbn in *; lia|intros; apply IH; lia]).
Lemma scrub_flags_total fuel rest o : (length rest < fuel)%nat → scrub_flags fuel rest o ≠ Panic.
Proof. revert rest o. induction fuel as [|fuel IH]; intros rest o Hf; [lia|]. cbn [scrub_flags]. loop_ends fuel IH. Qed.
Lemma stress_flags_total fuel rest o : (length rest < fuel)%nat → stress_flags fuel rest o ≠ Panic.
Proof. revert rest o. induction fuel as [|fuel IH]; intros rest o Hf; [lia|]. cbn [stress_flags]. loop_ends fuel IH. Qed.
Lemma hosts_flags_total fuel rest o : (length rest < fuel)%nat → hosts_flags fuel rest o ≠ Panic.
Proof. revert rest o. induction fuel as [|fuel IH]; intros rest o Hf; [lia|]. cbn [hosts_flags]. loop_ends fuel IH. Qed.
Lemma bench_flags_total fuel rest n m : (length rest < fuel)%nat → bench_flags fuel rest n m ≠ Panic.
Proof. revert rest n m. induction fuel as [|fuel IH]; intros rest n m Hf; [lia|]. cbn [bench_flags]. loop_ends fuel IH. Qed.
Lemma mesh_of_total v : mesh_of v ≠ Panic.
Proof. unfold mesh_of. by repeat case_match. Qed.
Lemma serve_flags_total fuel rest r o : (length rest < fuel)%nat → serve_flags fuel rest r o ≠ Panic.
Proof.
  revert rest r o. induction fuel as [|fuel IH]; intros rest r o Hf; [lia|]. cbn [serve_flags]. loop_ends fuel IH.
  match goal with |- context [mesh_of ?v] => pose proof (mesh_of_total v); destruct (mesh_of v) end; [|done..].
  apply IH. cbn in *. lia.
Qed.
Lemma bind_total {E A B} (m : res E A) (f : A → res E B) : m ≠ Panic → (∀ a, f a ≠ Panic) → m ≫= f ≠ Panic.
Proof. destruct m; cbn; auto. Qed.

Lemma turns_enough rest : (length rest < turns rest)%nat.
Proof. unfold turns. lia. Qed.
Lemma parse_scrub_total dir rest : parse_scrub dir rest ≠ Panic.
Proof.
  apply bind_total; [apply scrub_flags_total, turns_enough|]. intros [[offline restart] rate]. case_match; [done|].
  apply bind_total; [|done]. unfold ok_or. by repeat case_match.
Qed.
Lemma parse_serve_total witness dir rest : parse_serve witness dir rest ≠ Panic.
Proof. apply bind_total; [apply serve_flags_total, turns_enough|]. intros [rate opts]. by repeat case_match. Qed.
Lemma parse_args_total args : parse_args args ≠ Panic.
Proof.
  unfold parse_args. repeat case_match; try done;
    first [apply parse_scrub_total|apply parse_serve_total|apply bind_total; [|by intros; repeat case_match]];
    eauto using stress_flags_total, hosts_flags_total, bench_flags_total, turns_enough.
Qed.

(** ** Commands on a data directory *)
Section Commands.
Context {W F : Type} `{SegmentIoLaws W F, Blake3, HashOrderLaws, HexLaws}.
Abbreviation CM := (ST (W * bytes) CliError).

(** Segments without torn bytes, every record under its hash. *)
Definition sane (w : W) (segs : list segment) : Prop :=
  ∃ fs, on_disk w fs segs ∧ fs ≠ [] ∧ tidy segs ∧ hashed (all_recs segs).
Definition recorded (segs : list segment) (id : BlockId) : Prop := id ∈ (all_recs segs).*1.
(** A device that works prints the block. *)
Definition serves (w : W) (id : BlockId) : Prop :=
  ∀ w1 out, same_disk w w1 → healthy w1 →
  ∃ w2 p, get_cmd (F := F) (block_display id) (w1, out) = ((w2, out ++ p), Ok ()) ∧ block_of p = id.

Lemma open_sane w segs :
  sane w segs →
  wp open_with (λ s w', same_disk w w' ∧ (healthy w → healthy w') ∧ durable_as (w', s) segs ∧ write_failed s = false ∧
                  ∀ id, contains s id = true ↔ recorded segs id)
    (λ _ w', same_disk w w' ∧ ¬ healthy w) w.
Proof.
  intros (fs & Hd & Hne & Ht & Hha). pose proof (tidy_scannable _ _ _ Hd Ht) as Hsc.
  eapply wp_mono; [by apply (open_wp w fs segs)| |done]. cbn. intros s w' (Hsame & Hh & Ef & Hex & _ & Hf & Hok).
  split_and!; [done|done|split; [done|by split_and!]|done|]. intros id. unfold recorded. rewrite <-(all_locs_ids 0). split.
  - intros (loc & Hi)%(contains_recorded _ _ _ _ Hok). apply list_elem_of_fmap. by exists (id, loc).
  - intros Hi. apply contains_key_true. unfold exact in Hex. rewrite Hex. by apply insert_all_id.
Qed.
(** What is recorded in a durable store is served. *)
Lemma durable_serves w (s : BlockStore F) id : durable w s → contains s id = true → serves w id.
Proof.
  intros Hd Hc w1 out Hs Hw. destruct (reopen_durable w s w1 Hd Hs Hw) as (w2 & s2 & E & [segs Hok] & _ & Hw2 & _ & Hk & Hv & _).
  destruct (Hv id (Hk id Hc)) as (p & Hp & Hid). destruct (get_refines_lookup id w2 s2 segs Hok Hw2) as (w3 & Eg & _ & _).
  unfold abs_get in Eg. rewrite Hp, (proj2 (block_verify_spec _ _) Hid) in Eg.
  exists w3, p. split; [|done]. unfold get_cmd, mbind, ST_bind, open_store. rewrite E. cbn.
  assert (block_from_str (block_display id) = Ok id) as Eb by (apply block_from_str_Ok, hex_decode_encode).
  unfold st_lift. rewrite Eb. cbn. unfold on_opened. by rewrite Eg.
Qed.

(** A store for the directory, without opening it. *)
Lemma sane_durable w segs :
  sane w segs → ∃ s : BlockStore F, durable w s ∧ ∀ id, recorded segs id → contains s id = true.
Proof.
  intros (fs & Hd & Hne & Ht & Hha). pose proof (tidy_scannable _ _ _ Hd Ht) as Hsc.
  assert (segs ≠ []) as Hs by (intros ->; apply on_disk_length in Hd; by destruct fs).
  destruct (exists_last Hs) as (front & [recs junk] & Es).
  set (s := MkStore (insert_all ∅ (all_locs 0 segs)) fs (zlen (enc_all recs)) DEFAULT_SEGMENT_ROLL_BYTES false).
  exists s. split.
  - exists segs. split; [|by split_and!]. constructor; try done.
    + by apply (exact_sound s).
    + intros _. by exists front, recs, junk.
  - intros id Hi. apply contains_key_true. cbn. apply insert_all_id. by rewrite all_locs_ids.
Qed.
Lemma serves_same w w' id : same_disk w w' → serves w id → serves w' id.
Proof. intros Hs Hv w1 out Hs1 Hw. apply Hv; [|done]. by etrans. Qed.
Lemma put_durable payload w s w' s' r :
  durable w s → write_failed s = false → zlen payload ≤ MAX_PAYLOAD → put payload (w, s) = ((w', s'), r) →
  durable w' s' ∧ r ≠ Panic ∧ (∀ id, contains s id = true → contains s' id = true) ∧
  (∀ id, r = Ok id → id = block_of payload ∧ contains s' id = true ∧ ∃ segs', sane w' segs') ∧ (healthy w → is_ok r = true).
Proof.
  intros Hd Hf Hp E. destruct (@law_cold_put _ _ _ durable_laws payload (w, s) (w', s') r Hd Hp E) as (Hd' & Hg & Hr).
  pose proof Hd as (segs & Hok & Hsc & Hha & Ht).
  pose proof (put_many_inner_wp [payload] false w s segs Hok ltac:(by constructor)) as Hm. unfold wp in Hm.
  unfold put, put_many, mbind, ST_bind in E. destruct (put_many_inner [payload] false (w, s)) as [[w1 s1] [ids|e|]]; [| |done].
  - destruct Hm as (-> & _ & segs' & news & [A1 A2 A3 _ _ A6 _ A8 _ A10]). cbn in E. injection E as <- <- <-. cbn in *.
    split_and!; [done|done|done| |done]. intros id [= <-]. split; [done|]. split; [by apply Hr|]. exists segs', (files s1).
    split_and!; [apply A1|apply A1|by apply A8, Ht|]. rewrite A6. apply Forall_app. split; [done|by eapply batch_hashed].
  - rewrite Hf in Hm. destruct Hm as [_ (_ & _ & _ & _ & _ & _ & _ & _ & _ & Hh & _)]. injection E as <- <- <-.
    by split_and!.
Qed.

(** The commands keep what they acknowledge, across processes.  On a data
    directory whose segments are whole, and under any faults: [put] does not
    panic; if it succeeds it has printed the hash of its input, and from then
    on [get] of that text prints a block with this hash; if it fails at any
    point, and in every case, [get] still prints every block that was recorded
    before.  On a device that works it succeeds, and the directory is whole
    again. *)
Theorem put_command_durable segs payload w out w' out' r :
  sane w segs → zlen payload ≤ MAX_PAYLOAD → put_cmd (F := F) (Ok payload) (w, out) = ((w', out'), r) →
  r ≠ Panic ∧ (∀ id, recorded segs id → serves w' id) ∧
  (r = Ok () → out' = out ++ line (block_display (block_of payload)) ∧ serves w' (block_of payload) ∧
     ∃ segs', sane w' segs') ∧
  (healthy w → r = Ok ()).
Proof.
  intros Hs Hp E. destruct (sane_durable w segs Hs) as (s0 & Hd0 & Hc0). pose proof (open_sane w segs Hs) as Ho. unfold wp in Ho.
  unfold put_cmd, mbind, ST_bind, open_store in E. destruct (open_with w) as [w1 [s|e|]]; [| |done]; cbn in E; cycle 1.
  { injection E as <- <- <-. destruct Ho as [Hsame Hh]. split_and!; [done| |done|done].
    intros id Hi. eapply serves_same; [exact Hsame|]. eapply durable_serves; [exact Hd0|auto]. }
  destruct Ho as (_ & Hh & Hd & Hf & Hc). unfold on_opened in E. destruct (put payload (w1, s)) as [[w2 s2] r2] eqn:Ep.
  destruct (put_durable payload w1 s w2 s2 r2) as (Hd2 & Hnp & Hk & Hok & Hhe); [by exists segs|done|done|done|].
  assert (∀ id, recorded segs id → serves w2 id) as Hold.
  { intros id Hi%Hc. eapply durable_serves; [exact Hd2|auto]. }
  destruct r2 as [id|e|]; [| |done]; cbn in E; injection E as <- <- <-.
  - destruct (Hok id eq_refl) as (-> & Hin & Hsane). split_and!; [done|done| |done]. intros _.
    split_and!; [done|by eapply durable_serves|done].
  - split_and!; [done|done|done|]. intros Hw%Hh%Hhe. done.
Qed.

(** [fsck] succeeds exactly on an intact store: if the directory opens on a
    device that works, it reads every block, changes nothing, and fails if
    and only if some block does not have its hash. *)
Theorem fsck_exact w w1 (s : BlockStore F) segs out :
  open_with w = (w1, Ok s) → store_ok w1 s segs → healthy w1 →
  ∃ w2 out' r, fsck_cmd (w, out) = ((w2, out'), r) ∧ same_disk w1 w2 ∧ r ≠ Panic ∧ (r = Ok () ↔ intact w1 s).
Proof.
  intros E Hok Hw. destruct (verify_all_finds_rot w1 s segs Hok Hw) as (w2 & r & Ev & Hs & _ & _ & _ & Hcl & _).
  unfold fsck_cmd, mbind, ST_bind, open_store. rewrite E. cbn. unfold on_opened. rewrite Ev. cbn.
  destruct (is_clean r); cbn; eexists _, _, _; (split; [done|]); split_and!; try done.
  - split; [by intros _; apply Hcl|done].
  - split; [done|]. by intros Hi%Hcl.
Qed.
End Commands.

(** ** Keys *)
Section KeyCommand.
Context `{!Blake3} (key_json : CacheKey → bytes + string).
(** The keys of a chain, from an optional parent. *)
Fixpoint key_chain (fp : ModelFingerprint) (parent : option CacheKey) (chunks : list (list Z)) : list CacheKey :=
  match chunks with
  | [] => []
  | tokens :: chunks =>
      let next := match parent with None => root fp tokens | Some prev => extend prev tokens end in
      next :: key_chain fp (Some next) chunks
  end.
(** [key] prints the chain: when it succeeds, every chunk is a list of tokens
    and the lines are the keys of the chain they form, root first. *)
Lemma key_chunks_print fp chunks key out out' k :
  key_chunks key_json fp chunks key out = (out', Ok k) →
  ∃ tokens lines, parse_tokens <$> (split_commas <$> chunks) = Ok <$> tokens ∧
    key_json <$> key_chain fp key tokens = inl <$> lines ∧ out' = out ++ concat ((λ l, l ++ [x0a]) <$> lines).
Proof.
  revert key out. induction chunks as [|c chunks IH]; intros key out E; cbn [key_chunks] in E.
  { injection E as <- _. exists [], []. by rewrite app_nil_r. }
  unfold mbind, ST_bind, st_lift in E. destruct (parse_tokens (split_commas c)) as [ts| |] eqn:Et; [|done..]. cbn in E.
  set (next := match key with None => root fp ts | Some prev => extend prev ts end) in *.
  destruct (key_json next) as [l|m] eqn:Ej; [|done]. destruct (IH _ _ E) as (tokens & lines & E1 & E2 & ->).
  exists (ts :: tokens), (l :: lines). split_and!.
  - cbn. rewrite Et. f_equal. exact E1.
  - cbn. fold next. rewrite Ej. f_equal. exact E2.
  - cbn. by rewrite <-!app_assoc.
Qed.
End KeyCommand.

(** ** Certificates *)
Lemma unpack_file_ok name l d d' :
  unpack_file name l d = (d', Ok ()) →
  dir_files d' !! name = Some l ∧ ∀ n, n ≠ name → dir_files d' !! n = dir_files d !! n.
Proof.
  unfold unpack_file, mbind, ST_bind, fs_create, fs_write, dir_op. intros E.
  destruct d as [m plan], plan as [|[x|] [|[y|] plan]]; cbn in E; simplify_eq; cbn;
    (split; [by simplify_map_eq|intros n Hn; by simplify_map_eq]).
Qed.
Section Certificates.
Context {R CertificateParams KeyPair Issuer Certificate : Type} `{!Rcgen R CertificateParams KeyPair Issuer Certificate}.
(** The files of a mesh: a certificate for [hosts], its key, and the authority
    that signed it. *)
Definition mesh_files (hosts : list string) (m : MeshOpts) (files : gmap string bytes) : Prop :=
  ∃ (ca : Issuer) (params : CertificateParams) (key : KeyPair) (leaf : Certificate),
    params_new hosts = Ok params ∧ signed_by (push_common_name "kalpak-mesh-node" params) key ca = Ok leaf ∧
    files !! mo_ca m = Some (issuer_pem ca) ∧ files !! mo_cert m = Some (certificate_pem leaf) ∧
    files !! mo_key m = Some (serialize_pem key).
(** What [mesh-ca] prints can be typed back: when it succeeds, the argument it
    suggests for [--mesh] parses, with any address, to the three files it
    wrote, and these belong together. *)
Theorem mesh_ca_usable dir hosts g d out g' d' out' addr :
  mesh_ca_cmd (R := R) dir hosts (g, d, out) = ((g', d', out'), Ok ()) → no_comma dir → no_comma addr →
  ∃ m, mo_addr m = addr ∧ mesh_of (mesh_text m) = Ok m ∧ mesh_files hosts m (dir_files d').
Proof.
  intros E Hd Ha. unfold mesh_ca_cmd, write_mesh_pki, on_rng, on_out, say, mbind, ST_bind in E.
  destruct (generate_mesh_pki hosts g) as [g1 [pki| |]] eqn:Eg; cbn in E; [|discriminate E..].
  destruct (fs_create_dir d) as [d1 [[]| |]]; cbn in E; [|discriminate E..].
  destruct (unpack_file _ (ca_pem pki) d1) as [d2 [[]| |]] eqn:E1; cbn in E; [|discriminate E..].
  destruct (unpack_file _ (cert_pem pki) d2) as [d3 [[]| |]] eqn:E2; cbn in E; [|discriminate E..].
  destruct (unpack_file _ (key_pem pki) d3) as [d4 [[]| |]] eqn:E3; cbn in E; [|discriminate E..].
  injection E as _ <- _. apply unpack_file_ok in E1 as [F1 _], E2 as [F2 K2], E3 as [F3 K3].
  exists (MkMesh addr (dir +:+ "/mesh-ca.pem") (dir +:+ "/mesh-cert.pem") (dir +:+ "/mesh-key.pem")). split; [done|]. split.
  - apply mesh_text_parse; cbn; [done|..]; unfold no_comma; rewrite str_bytes_app; apply not_elem_of_app;
      (split; [done|apply (bool_decide_unpack _); by vm_compute]).
  - unfold generate_mesh_pki, st_lift, mbind, ST_bind in Eg. repeat case_match; simplify_eq. injection Eg as _ <-. cbn in *.
    do 4 eexists. cbn. split_and!; [done|done| | |exact F3].
    + by rewrite K3, K2 by (by intros ?%(inj _)).
    + by rewrite K3 by (by intros ?%(inj _)).
Qed.
End Certificates.

(** ** Examples *)
Module CliExamples.
#[local] Existing Instances toy_blake3 toy_order toy_order_laws toy_hex toy_hex_laws.

(** A multiplication that is not checked: this many mebibytes of cache are
    none.  The same number is refused as a scrub rate. *)
Lemma warm_mb_wraps :
  parse_args ["serve"; "data"; "--warm-mb"; "17592186044416"] = Ok (CServe (set_warm 0 (default_opts "data" true)) None) ∧
  parse_args ["scrub"; "data"; "--offline"; "--mib-per-sec"; "17592186044416"] = Err "scrub rate overflow".
Proof. split; by vm_compute. Qed.
(** Nothing is scrubbed without [--offline]. *)
Lemma scrub_needs_offline :
  is_ok (parse_args ["scrub"; "data"; "--restart"]) = false ∧
  parse_args ["scrub"; "data"; "--offline"; "--mib-per-sec"; "+4"] = Ok (CScrub "data" (4 * MIB) false).
Proof. split; by vm_compute. Qed.

Definition some_opts : ServeOpts :=
  MkServe "data" "0.0.0.0:7411" (64 * MIB) 3 false None 0 true (Some (8 * MIB)) None None (Some "secret")
    (Some (MkMesh "10.0.0.3:7500" "ca.pem" "cert.pem" "key.pem")).
Lemma serve_flags_roundtrip_witness :
  parse_args ("serve" :: "data" :: render (Some 16) some_opts) = Ok (CServe some_opts (Some 16)).
Proof.
  apply (serve_flags_roundtrip (Some 16) some_opts).
  constructor; cbn; unfold whole_mib, is_u64, u64_max, MIB; repeat split; try lia; unfold no_comma;
    apply (bool_decide_unpack _); vm_compute; exact I.
Defined.

Lemma rec1_sane plan : sane (F := N) (disk_of [rec1] plan) [([rec1], [])].
Proof. exists [0%N]. split_and!; [apply rec1_ok|done|by repeat constructor|by repeat constructor]. Qed.
Definition put_run : Disk * bytes * res CliError () := put_cmd (F := N) (Ok [x02]) (disk_of [rec1] [], []).
Lemma put_command_durable_witness :
  put_run.2 = Ok () ∧ serves (F := N) put_run.1.1 (block_of [x02]) ∧ serves (F := N) put_run.1.1 (block_of [x01]).
Proof.
  destruct put_run as [[w out] r] eqn:E. cbn [fst snd]. unfold put_run in E.
  destruct (put_command_durable (F := N) [([rec1], [])] [x02] (disk_of [rec1] []) [] w out r (rec1_sane []) ltac:(by vm_compute) E)
    as (_ & Hold & Hok & Hh).
  specialize (Hh eq_refl). split; [exact Hh|]. split; [by apply Hok|]. apply Hold. by left.
Defined.
End CliExamples.
