(* ===== verification/Bench.v ===== *)
(** * The local benchmark ([bench] of [crates/kalpakdb/src/main.rs])

    Single writes, batches, warm reads, and reads after opening the store
    again, over the tiered store on a directory of its own.  The clock and the
    rates it prints are left out; removing the directory is a parameter. *)

From S2P Require Import Prelude Core Durability Io Segment Store StoreInvariant StorePut StoreTheorems StoreOpen StoreCompact Tiered TieredCold.
From Stdlib Require Import Strings.Byte.
#[local] Open Scope Z_scope.

(** [payload[..8].copy_from_slice(&i.to_le_bytes())] over [size] zeros. *)
Definition bench_payload (size i : Z) : bytes := le_bytes 8 i ++ replicate (Z.to_nat (size - 8)) x00.
Definition isize_max : Z := 2 ^ 63 - 1.
Definition BENCH_WARM : Z := 512 * 1024 * 1024.

Section Bench.
Context {W F C : Type} `{!SegmentIo W F, !Blake3, !HashOrder, !Moka C} (new_cache : Z → C).
Context (remove_dir_all : ST W io_error ()).
Abbreviation Tier := (TieredStore (W * BlockStore F) C).
Abbreviation TM := (ST Tier Error).

(** [TieredStore::open]. *)
Definition tiered_open : W → W * res Error Tier := λ w,
  match open_with w with
  | (w, Ok s) => (w, Ok (tiered_new (w, s) (new_cache BENCH_WARM) BENCH_WARM))
  | (w, Err e) => (w, Err (Io e))
  | (w, Panic) => (w, Panic)
  end.
(** Slicing eight bytes off a shorter payload panics. *)
Fixpoint put_each (size i : Z) (n : nat) : TM (list BlockId) :=
  match n with
  | O => mret []
  | S n =>
      if size <? 8 then λ t, (t, Panic)
      else tiered_put (bench_payload size i) ≫= λ id, put_each size (i + 1) n ≫= λ ids, mret (id :: ids)
  end.
Fixpoint put_batches (size blocks i : Z) (n : nat) (batch : list bytes) : TM () :=
  match n with
  | O => if bool_decide (batch = []) then mret () else tiered_put_many batch ≫= λ _, mret ()
  | S n =>
      let batch := batch ++ [bench_payload size (u64_add i blocks)] in
      if zlen batch =? 64 then tiered_put_many batch ≫= λ _, put_batches size blocks (i + 1) n []
      else put_batches size blocks (i + 1) n batch
  end.
Fixpoint get_each (ids : list BlockId) : TM () :=
  match ids with
  | [] => mret ()
  | id :: ids => tiered_get id ≫= λ _, get_each ids
  end.

(** A phase on a store that was opened, which is dropped afterwards. *)
Definition phase {A} (m : TM A) : W → W * res Error A := λ w,
  match tiered_open w with
  | (_, Ok t) => let (t, r) := m t in ((cold t).1, r)
  | (w, Err e) => (w, Err e)
  | (w, Panic) => (w, Panic)
  end.
Definition bench_writes (blocks size : Z) : TM (list BlockId) :=
  (λ t : Tier, (t, if isize_max <? blocks * 32 then Panic else Ok ())) ≫= λ _,
  put_each size 0 (Z.to_nat blocks) ≫= λ ids,
  put_batches size blocks 0 (Z.to_nat blocks) [] ≫= λ _,
  get_each ids ≫= λ _, mret ids.
Definition bench (blocks size : Z) : W → W * res Error () := λ w,
  if isize_max <? size then (w, Panic)
  else
    match phase (bench_writes blocks size) w with
    | (w, Ok ids) =>
        match phase (get_each ids) w with
        | (w, Ok _) => let (w, r) := remove_dir_all w in (w, map_err Io r)
        | (w, Err e) => (w, Err e)
        | (w, Panic) => (w, Panic)
        end
    | (w, Err e) => (w, Err e)
    | (w, Panic) => (w, Panic)
    end.
End Bench.

(** ** Payloads *)
Definition written (size : Z) (from count : Z) : list bytes := bench_payload size <$> seqZ from count.
Lemma bench_payload_len size i : 8 ≤ size → zlen (bench_payload size i) = size.
Proof. intros Hs. unfold bench_payload, zlen. rewrite length_app, length_replicate, length_le_bytes. lia. Qed.
Lemma bench_payload_inj size i j : 0 ≤ i < 2 ^ 64 → 0 ≤ j < 2 ^ 64 → bench_payload size i = bench_payload size j → i = j.
Proof.
  intros Hi Hj [E _]%app_split; [|by rewrite !length_le_bytes]. by apply (le_bytes_inj 8).
Qed.
Lemma written_distinct size from count : 0 ≤ from → from + count ≤ 2 ^ 64 → NoDup (written size from count).
Proof.
  intros Hf Hc. unfold written. apply NoDup_fmap_2_strong; [|apply NoDup_seqZ].
  intros i j Hi%elem_of_seqZ Hj%elem_of_seqZ. apply bench_payload_inj; lia.
Qed.
Lemma written_app size from a b : 0 ≤ a → 0 ≤ b → written size from a ++ written size (from + a) b = written size from (a + b).
Proof. intros Ha Hb. unfold written. by rewrite seqZ_app, fmap_app by lia. Qed.
Lemma written_cons size from n : written size from (Z.of_nat (S n)) = bench_payload size from :: written size (from + 1) (Z.of_nat n).
Proof. unfold written. rewrite seqZ_cons by lia. cbn. do 2 f_equal. f_equal; lia. Qed.
Lemma written_small size from count : 8 ≤ size ≤ MAX_PAYLOAD → Forall (λ p, zlen p ≤ MAX_PAYLOAD) (written size from count).
Proof. intros Hs. apply Forall_fmap, Forall_true. intros i. change (zlen (bench_payload size i) ≤ MAX_PAYLOAD). rewrite bench_payload_len; lia. Qed.

(** ** What a run stores *)
Section Run.
Context {W F C : Type} `{SegmentIoLaws W F, Blake3, HashOrderLaws, !Moka C, !MokaLaws C} (new_cache : Z → C).
Context (new_cache_empty : ∀ n, cached (new_cache n) = ∅) (remove_dir_all : ST W io_error ()).
Abbreviation Tier := (TieredStore (W * BlockStore F) C).

Lemma abs_puts_spec ps id :
  match foldl abs_put (λ _, None) ps id with
  | Some p => p ∈ ps ∧ block_of p = id
  | None => id ∉ block_of <$> ps
  end.
Proof.
  induction ps as [|p ps IH] using rev_ind; [apply not_elem_of_nil|]. rewrite foldl_app. cbn. unfold abs_put at 1.
  destruct (foldl abs_put _ ps id) as [q|]; [destruct IH; split; [by apply elem_of_app; left|done]|].
  case_decide as Hd; [split; [apply elem_of_app; right; by left|done]|]. rewrite fmap_app, not_elem_of_app. split; [done|].
  by intros ->%list_elem_of_singleton.
Qed.

(** A tier over a store on a device that works, with exactly these payloads. *)
Record running (t : Tier) (ps : list bytes) : Prop := {
  ru_clean : ∃ segs, clean (cold t).1 (cold t).2 segs;
  ru_view : ∀ id, view (cold t).1 (cold t).2 id = foldl abs_put (λ _, None) ps id;
  ru_warm : authentic (cached (warm t));
  ru_pinned : pinned t = ∅;
  ru_quarantined : quarantined t = ∅ }.

Lemma running_warm t ps id p :
  running t ps → block_of p = id → zlen p ≤ MAX_PAYLOAD → running (warm_insert id p t) ps.
Proof.
  intros [R1 R2 R3 R4 R5] Hb Hz. destruct (warm_insert_fields id p t) as [(E1 & E2 & _ & _ & E5 & Hw)| ->]; [|done].
  constructor; rewrite ?E1, ?E2, ?E5; try done. eapply authentic_mono; [|exact Hw]. by apply authentic_insert.
Qed.
Lemma running_warm_all t ps qs :
  running t ps → Forall (λ p, zlen p ≤ MAX_PAYLOAD) qs → running (warm_all (zip (block_of <$> qs) qs) t) ps.
Proof.
  intros Hr Hq. revert t Hr. induction Hq as [|q qs Hq Hqs IH]; intros t Hr; [done|]. apply IH. by apply running_warm.
Qed.
Lemma running_put_many t ps qs :
  running t ps → Forall (λ p, zlen p ≤ MAX_PAYLOAD) qs →
  ∃ t', tiered_put_many qs t = (t', Ok (block_of <$> qs)) ∧ running t' (ps ++ qs).
Proof.
  intros [[segs Hc] R2 R3 R4 R5] Hq. destruct (put_many_clean qs _ _ segs Hc Hq) as (w' & s' & segs' & E & Hc' & Hv).
  eexists. split.
  - unfold tiered_put_many, on_cold, mbind, ST_bind. cbn. destruct (cold t) as [w s]. cbn in *. by rewrite E.
  - apply running_warm_all; [|done]. constructor; cbn; try done; [by exists segs'|]. intros id. rewrite Hv, foldl_app.
    by apply abs_put_ext.
Qed.
Lemma running_put t ps p :
  running t ps → zlen p ≤ MAX_PAYLOAD → ∃ t', tiered_put p t = (t', Ok (block_of p)) ∧ running t' (ps ++ [p]).
Proof.
  intros Hr Hp. destruct (running_put_many t ps [p] Hr) as (t' & E & Hr'); [by constructor|]. exists t'. split; [|done].
  unfold tiered_put_many, on_cold, mbind, ST_bind in E. cbn in E. unfold tiered_put, on_cold, mbind, ST_bind. cbn.
  unfold put, mbind, ST_bind. destruct (put_many [p] (cold t)) as [st [ids|e|]]; [|done..]. cbn in E.
  injection E as <- ->. done.
Qed.
(** Every read succeeds, from the cache or from the device. *)
Lemma running_get t ps id :
  running t ps → id ∈ block_of <$> ps → ∃ t' p, tiered_get id t = (t', Ok p) ∧ block_of p = id ∧ running t' ps.
Proof.
  intros [[segs Hc] R2 R3 R4 R5] Hid. unfold tiered_get. rewrite R5, bool_decide_eq_false_2 by set_solver.
  rewrite R4, lookup_empty. destruct (law_moka_get (warm t) id) as [Hf Hsub].
  destruct (moka_get (warm t) id) as [c found]. cbn in Hf, Hsub. pose proof (authentic_mono _ _ R3 Hsub) as Ha.
  destruct found as [p|].
  { symmetry in Hf. destruct (R3 _ _ Hf). eexists _, p. split; [done|]. split; [done|]. constructor; cbn; try done. by exists segs. }
  destruct (get_refines_lookup id _ _ segs (cl_ok _ _ _ Hc) (cl_healthy _ _ _ Hc)) as (w' & Eg & Hs & Hh).
  pose proof (abs_puts_spec ps id) as Hp. rewrite <-R2 in Hp. unfold abs_get in Eg.
  destruct (view (cold t).1 (cold t).2 id) as [p|] eqn:Ev; [|done]. destruct Hp as [Hin Hp].
  rewrite (proj2 (block_verify_spec id p) Hp) in Eg. exists (warm_insert id p (set_cold (w', (cold t).2) (miss (set_warm c t)))), p. split.
  - unfold on_cold, mbind, ST_bind. cbn. destruct (cold t) as [w s]. cbn in *. by rewrite Eg.
  - split; [done|]. destruct Hc as [C1 C2 C3 C4 C5].
    apply running_warm; [|done|by eapply (view_small _ _ segs)].
    constructor; cbn; try done.
    + exists segs. constructor; try done. by eapply store_ok_same.
    + intros i. rewrite <-R2. by apply view_same.
Qed.

(** *** The loops *)
Lemma put_each_runs size n : 8 ≤ size ≤ MAX_PAYLOAD → ∀ i t ps, running t ps →
  ∃ t', put_each size i n t = (t', Ok (block_of <$> written size i (Z.of_nat n))) ∧ running t' (ps ++ written size i (Z.of_nat n)).
Proof.
  intros Hs. induction n as [|n IH]; intros i t ps Hr; cbn [put_each].
  { exists t. by rewrite app_nil_r. }
  rewrite (proj2 (Z.ltb_ge size 8)) by lia. rewrite written_cons.
  destruct (running_put t ps (bench_payload size i) Hr) as (t1 & E1 & R1); [rewrite bench_payload_len; lia|].
  destruct (IH (i + 1) t1 _ R1) as (t2 & E2 & R2). exists t2. unfold mbind, ST_bind. rewrite E1, E2.
  by rewrite <-app_assoc in R2.
Qed.
Lemma put_batches_runs size blocks n : 8 ≤ size ≤ MAX_PAYLOAD → ∀ i batch t ps, running t ps → 0 ≤ blocks → 0 ≤ i →
  i + Z.of_nat n + blocks ≤ 2 ^ 64 → Forall (λ p, zlen p ≤ MAX_PAYLOAD) batch →
  ∃ t', put_batches size blocks i n batch t = (t', Ok ()) ∧ running t' (ps ++ batch ++ written size (i + blocks) (Z.of_nat n)).
Proof.
  intros Hs. induction n as [|n IH]; intros i batch t ps Hr Hb Hi Hn Hq; cbn [put_batches].
  { rewrite app_nil_r. case_bool_decide as Eb; [subst batch; exists t; by rewrite app_nil_r|].
    destruct (running_put_many t ps batch Hr Hq) as (t' & E & Hr'). exists t'. unfold mbind, ST_bind. by rewrite E. }
  rewrite written_cons. unfold u64_add. rewrite Z.mod_small by lia. set (p := bench_payload size (i + blocks)).
  replace (i + blocks + 1) with (i + 1 + blocks) by lia.
  assert (zlen p ≤ MAX_PAYLOAD) as Hp by (subst p; rewrite bench_payload_len; lia).
  assert (Forall (λ p, zlen p ≤ MAX_PAYLOAD) (batch ++ [p])) as Hq' by (apply Forall_app; split; [done|by constructor]).
  assert (ps ++ batch ++ p :: written size (i + 1 + blocks) (Z.of_nat n) =
          ps ++ (batch ++ [p]) ++ written size (i + 1 + blocks) (Z.of_nat n)) as -> by (by rewrite <-!app_assoc).
  destruct (_ =? 64).
  - destruct (running_put_many t ps (batch ++ [p]) Hr Hq') as (t1 & E1 & R1).
    destruct (IH (i + 1) [] t1 _ R1) as (t2 & E2 & R2); [done|lia|lia|constructor|].
    exists t2. unfold mbind, ST_bind. rewrite E1, E2. by rewrite <-app_assoc in R2.
  - apply IH; [done|done|lia|lia|done].
Qed.
Lemma get_each_runs ids : ∀ t ps, running t ps → (∀ id, id ∈ ids → id ∈ block_of <$> ps) →
  ∃ t', get_each ids t = (t', Ok ()) ∧ running t' ps.
Proof.
  induction ids as [|id ids IH]; intros t ps Hr Hi; cbn [get_each]; [by exists t|].
  destruct (running_get t ps id Hr) as (t1 & p & E1 & _ & R1); [apply Hi; by left|].
  destruct (IH t1 ps R1) as (t2 & E2 & R2); [intros; apply Hi; by right|]. exists t2. unfold mbind, ST_bind. by rewrite E1, E2.
Qed.
Lemma running_new w s segs ps :
  clean w s segs → (∀ id, view w s id = foldl abs_put (λ _, None) ps id) →
  running (tiered_new (w, s) (new_cache BENCH_WARM) BENCH_WARM) ps.
Proof.
  intros Hc Hv. constructor; cbn; try done; [by exists segs|]. intros id p. by rewrite new_cache_empty, lookup_empty.
Qed.
Lemma bench_writes_runs blocks size t ps :
  running t ps → 8 ≤ size ≤ MAX_PAYLOAD → 0 ≤ blocks → blocks * 32 ≤ isize_max →
  ∃ t', bench_writes blocks size t = (t', Ok (block_of <$> written size 0 blocks)) ∧ running t' (ps ++ written size 0 (2 * blocks)).
Proof.
  intros Hr Hs Hb Hc. unfold isize_max in Hc. unfold bench_writes, mbind, ST_bind.
  rewrite (proj2 (Z.ltb_ge _ _)) by (unfold isize_max; lia).
  destruct (put_each_runs size (Z.to_nat blocks) Hs 0 t ps Hr) as (t1 & E1 & R1). rewrite Z2Nat.id in E1, R1 by lia. rewrite E1.
  destruct (put_batches_runs size blocks (Z.to_nat blocks) Hs 0 [] t1 _ R1) as (t2 & E2 & R2); [lia|lia|lia|constructor|].
  rewrite Z2Nat.id in R2 by lia. rewrite E2. cbn [app] in R2. rewrite <-app_assoc, written_app in R2 by lia.
  replace (blocks + blocks) with (2 * blocks) in R2 by lia.
  destruct (get_each_runs (block_of <$> written size 0 blocks) t2 _ R2) as (t3 & E3 & R3).
  { intros id Hid. replace (2 * blocks) with (blocks + blocks) by lia. rewrite <-written_app, !fmap_app, !elem_of_app by lia. auto. }
  exists t3. by rewrite E3.
Qed.

(** The benchmark measures what it says.  In a directory that is empty, on a
    device that works, and with blocks of at least eight bytes, it ends: all
    writes, all batches, and all reads succeed, before and after opening the
    store again.  The [2 * blocks] payloads are pairwise different, so none
    is written in place of another, and they are what the store holds before
    the directory is removed. *)
Theorem bench_completes blocks size w :
  dir_of w = ∅ → healthy w → 8 ≤ size ≤ MAX_PAYLOAD → 0 ≤ blocks → blocks * 32 ≤ isize_max →
  NoDup (written size 0 (2 * blocks)) ∧
  ∃ w' (s : BlockStore F) segs, clean w' s segs ∧
    (∀ id, view w' s id = foldl abs_put (λ _, None) (written size 0 (2 * blocks)) id) ∧
    bench new_cache remove_dir_all blocks size w = (let (w2, r) := remove_dir_all w' in (w2, map_err Io r)).
Proof.
  intros Hd Hw Hs Hb Hc. split; [apply written_distinct; unfold isize_max in Hc; lia|].
  destruct (open_empty w Hd Hw) as (w1 & s1 & E1 & C1 & V1).
  pose proof (running_new w1 s1 _ [] C1 V1) as R1.
  destruct (bench_writes_runs blocks size _ _ R1 Hs Hb Hc) as (t1 & Ew & R2). cbn [app] in R2.
  destruct R2 as [[segs2 C2] V2 _ _ _]. destruct (reopen_clean _ _ _ C2) as (w3 & s3 & E3 & C3 & V3).
  destruct (get_each_runs (block_of <$> written size 0 blocks) _ (written size 0 (2 * blocks))
              (running_new w3 s3 _ _ C3 ltac:(intros id; by rewrite V3, V2))) as (t4 & E4 & R4).
  { intros id Hid. replace (2 * blocks) with (blocks + blocks) by lia. rewrite <-written_app, !fmap_app, !elem_of_app by lia. auto. }
  destruct R4 as [[segs4 C4] V4 _ _ _]. exists (cold t4).1, (cold t4).2, segs4. split_and!; [done|done|].
  unfold bench. rewrite (proj2 (Z.ltb_ge _ _)) by (unfold isize_max, MAX_PAYLOAD in *; lia).
  unfold phase, tiered_open. rewrite E1, Ew, E3, E4. done.
Qed.
End Run.

(** With blocks of no bytes, the first slice panics. *)
Module BenchExamples.
#[local] Existing Instances toy_blake3 toy_order toy_hex map_cache.
Lemma bench_small_panics :
  (bench (F := N) (C := gmap BlockId bytes) (λ _, ∅) (mret ()) 1 0 empty_disk).2 = Panic.
Proof. by vm_compute. Qed.
End BenchExamples.
