(* ===== verification/Stress.v ===== *)
(** * The load generator ([crates/kalpakdb/src/stress.rs])

    The simulated agents: what each sends in a round, in which order, and how
    it counts.  The node and its transport are a parameter, as are JSON values;
    what other agents do meanwhile is part of the node's answer.  The
    percentiles of the report are floating-point and left out.  Integers are
    those of a release build. *)

From S2P Require Import Prelude Core Metadata Leases StateMachine ControlPlane Durability Io Segment Store StoreInvariant Tiered Retention Scrub Codecs LogStore Manifest Repair Api Upload UploadLogic.
From stdpp Require Import pretty.
From Stdlib Require Import Strings.Byte.
#[local] Open Scope Z_scope.

(** ** Identities and payloads *)
Definition agent_byte (worker : Z) : Z := (worker mod 2 ^ 8 + 1) mod 2 ^ 8.
(** [format!("{:02x}", ..).repeat(32)]. *)
Definition stress_agent `{Hex} (worker : Z) : string := hex_encode (replicate 32 (Z_byte (agent_byte worker))).
Definition salt (worker round : Z) : Z := Z.lor (Z.shiftl worker 32 mod 2 ^ 64) round mod 2 ^ 32.
Definition stress_chunks (worker round : Z) : list (list Z) := [[salt worker round; worker mod 2 ^ 32; 1]; [2; 3]; [4]].
Definition stress_payload (salt chunk i : Z) : bytes :=
  le_bytes 8 (Z.lxor salt (Z.shiftl i 56)) ++ replicate (Z.to_nat (chunk - 8)) x00.
Definition stress_payloads (salt chunk : Z) : list bytes := stress_payload salt chunk <$> [0; 1; 2].
Definition stress_body (salt chunk : Z) : bytes :=
  le_bytes 4 3 ++ concat ((λ p, le_bytes 4 (chunk mod 2 ^ 32) ++ p) <$> stress_payloads salt chunk).

(** ** A round *)
Inductive StressReq (Value : Type) :=
| SRegister (agent display_name : string)
| SKeys (tokens : list Z) (parent : option Value)
| SLookup (chain : list Value)
| SBatch (body : bytes)
| SBindChain (agent : string) (bindings : list (Value * list string * option Value))
| SGet (id : string).
Arguments SRegister {Value}.
Arguments SKeys {Value}.
Arguments SLookup {Value}.
Arguments SBatch {Value}.
Arguments SBindChain {Value}.
Arguments SGet {Value}.
(** An answer, if any, and its JSON value, if it has one. *)
Class StressNode (N Value : Type) := {
  sn_stats : string → N → N * res string ();
  sn_send : StressReq Value → N → N * option (option Value);
  sn_ids : Value → list string;
  sn_now : N → Z }.
Record Tally := MkTally { ta_errors : Z; lookup_ms : list Z; put_ms : list Z; bind_ms : list Z; get_ms : list Z }.

Section Stress.
Context {N Value : Type} `{!StressNode N Value, !Hex}.
Abbreviation St := (N * Tally)%type.
(** An error value means that the round was given up. *)
Abbreviation SM := (ST St ()).

Definition ask (req : StressReq Value) : SM (option (option Value)) := λ '(n, ta),
  let (n, r) := sn_send req n in ((n, ta), Ok r).
Definition clock : SM Z := λ '(n, ta), ((n, ta), Ok (sn_now n)).
Definition count_error : SM () := λ '(n, ta),
  ((n, MkTally (u64_add (ta_errors ta) 1) (lookup_ms ta) (put_ms ta) (bind_ms ta) (get_ms ta)), Ok ()).
Definition abandon {A} : SM A := count_error ≫= λ _, st_throw ().

Definition record_round (lookup1 lookup2 put bind get : Z) : SM () := λ '(n, ta),
  ((n, MkTally (ta_errors ta) (lookup_ms ta ++ [lookup1; lookup2]) (put_ms ta ++ [put]) (bind_ms ta ++ [bind])
         (get_ms ta ++ [get])), Ok ()).

Fixpoint chain_keys (chunks : list (list Z)) (keys : list Value) : SM (option (list Value)) :=
  match chunks with
  | [] => mret (Some keys)
  | tokens :: chunks =>
      ask (SKeys tokens (last keys)) ≫= λ r,
      match r with
      | Some (Some v) => chain_keys chunks (keys ++ [v])
      | _ => mret None
      end
  end.
Fixpoint stress_bindings (ids : list string) (i : nat) (parent : option Value) (keys : list Value)
    : list (Value * list string * option Value) :=
  match keys with
  | [] => []
  | key :: keys => (key, take (S i) ids, parent) :: stress_bindings ids (S i) (Some key) keys
  end.
Fixpoint fetch_each (ids : list string) : SM () :=
  match ids with
  | [] => mret ()
  | id :: ids => ask (SGet id) ≫= λ r : option (option Value), (if r then mret () else count_error) ≫= λ _, fetch_each ids
  end.

Definition stress_round (worker chunk round : Z) : SM () :=
  chain_keys (stress_chunks worker round) [] ≫= λ keys : option (list Value),
  match keys with
  | Some keys =>
      if negb (zlen keys =? 3) then abandon
      else
        clock ≫= λ t, ask (SLookup keys) ≫= λ _, clock ≫= λ t1,
        let lookup1 := t1 - t in
        (if chunk <? 8 then λ st, (st, Panic) else mret (stress_body (salt worker round) chunk)) ≫= λ body,
        clock ≫= λ t, ask (SBatch body) ≫= λ r : option (option Value),
        match r with
        | Some (Some v) =>
            let ids := sn_ids v in
            clock ≫= λ t1,
            let put := t1 - t in
            if negb (zlen ids =? 3) then abandon
            else
              clock ≫= λ t, ask (SBindChain (stress_agent worker) (stress_bindings ids 0 None keys)) ≫= λ r : option (option Value),
              (if r then mret () else count_error) ≫= λ _, clock ≫= λ t1,
              let bind := t1 - t in
              clock ≫= λ t, ask (SLookup keys) ≫= λ _, clock ≫= λ t1,
              let lookup2 := t1 - t in
              clock ≫= λ t, fetch_each ids ≫= λ _, clock ≫= λ t1,
              let get := t1 - t in
              record_round lookup1 lookup2 put bind get
        | _ => abandon
        end
  | None => abandon
  end.

(** Rounds until the flag is set, which is after [n] of them. *)
Fixpoint stress_rounds (worker chunk round : Z) (n : nat) (st : St) : St * res () () :=
  match n with
  | O => (st, Ok ())
  | S n =>
      let round := u64_add round 1 in
      match stress_round worker chunk round st with
      | (st, Panic) => (st, Panic)
      | (st, _) => stress_rounds worker chunk round n st
      end
  end.
Definition stress_worker (worker chunk_kb : Z) (n : nat) : SM () := λ st,
  let chunk := u64_mul chunk_kb 1024 in
  match ask (SRegister (stress_agent worker) ("stress-" +:+ pretty (Z.to_N worker))) st with
  | (st, _) => stress_rounds worker chunk 0 n st
  end.

(** One agent after the other; [rounds] says when each of them saw the flag.
    A panic ends its task, and is ignored when the task is joined. *)
Fixpoint stress_agents (worker chunk_kb : Z) (rounds : list nat) (st : St) : St :=
  match rounds with
  | [] => st
  | n :: rounds => stress_agents (worker + 1) chunk_kb rounds (stress_worker worker chunk_kb n st).1
  end.
Definition no_samples : Tally := MkTally 0 [] [] [] [].
(** The result is what the report is made of. *)
Definition stress (base : string) (chunk_kb : Z) (rounds : list nat) : N → N * res string Tally := λ n,
  match sn_stats (base +:+ "/v1/stats") n with
  | (n, Err e) => (n, Err ("cannot reach " +:+ base +:+ ": " +:+ e))
  | (n, Panic) => (n, Panic)
  | (n, Ok _) => let (n, ta) := stress_agents 0 chunk_kb rounds (n, no_samples) in (n, Ok ta)
  end.
End Stress.

(** ** Payloads *)
Lemma stress_payload_len s chunk i : 8 ≤ chunk → zlen (stress_payload s chunk i) = chunk.
Proof. intros Hc. unfold stress_payload, zlen. rewrite length_app, length_replicate, length_le_bytes. lia. Qed.
Lemma stress_word s i : 0 ≤ s < 2 ^ 32 → 0 ≤ i < 3 → Z.lxor s (Z.shiftl i 56) = s + i * 2 ^ 56.
Proof.
  intros Hs Hi. rewrite Z.shiftl_mul_pow2 by lia. rewrite <-Z.add_nocarry_lxor; [done|].
  apply Z.bits_inj'. intros n Hn. rewrite Z.land_spec, Z.bits_0. apply andb_false_iff.
  destruct (Z.lt_ge_cases n 56) as [H|H].
  - right. by apply Z.mul_pow2_bits_low.
  - left. destruct (Z.eq_dec s 0) as [->|]; [apply Z.bits_0|]. apply Z.bits_above_log2; [lia|].
    apply Z.lt_le_trans with 32; [|lia]. apply Z.log2_lt_pow2; lia.
Qed.
Lemma salt_range w r : 0 ≤ salt w r < 2 ^ 32.
Proof. apply Z.mod_pos_bound. lia. Qed.

(** What a round uploads is a batch that a node decodes: three blocks of the
    size that was asked for, different from each other. *)
Theorem stress_batch_decodes worker round chunk :
  8 ≤ chunk < 2 ^ 32 →
  let ps := stress_payloads (salt worker round) chunk in
  decode_batch (stress_body (salt worker round) chunk) = Ok ps ∧ NoDup ps ∧ Forall (λ p, zlen p = chunk) ps.
Proof.
  intros Hc ps. pose proof (salt_range worker round) as Hs. subst ps. set (s := salt worker round) in *.
  assert (Forall (λ p, zlen p = chunk) (stress_payloads s chunk)) as Hl.
  { repeat constructor; apply stress_payload_len; lia. }
  split_and!; [|..|done].
  - apply decode_batch_Ok. split_and!; [|done|].
    + unfold stress_body, encode_batch. f_equal. f_equal. apply list_fmap_ext. intros i p Hp. unfold frame.
      rewrite (proj1 (Forall_lookup _ _) Hl i p Hp). by rewrite Z.mod_small by lia.
    + eapply Forall_impl; [exact Hl|]. intros p Hp. cbn in Hp. unfold framable. lia.
  - unfold stress_payloads. apply NoDup_fmap_2_strong; [|by apply (bool_decide_unpack _); vm_compute].
    assert (∀ i, i ∈ [0; 1; 2] → 0 ≤ i < 3) as Hi by set_solver by lia.
    intros i j Hi1%Hi Hj%Hi [E _]%app_split; [|by rewrite !length_le_bytes].
    apply (le_bytes_inj 8) in E; rewrite ?stress_word in * by done; change (8 * Z.of_nat 8) with 64; lia.
Qed.
(** The worker's number is shifted out of the salt, so the agents upload the
    same three blocks in each round; and their identities repeat. *)
Lemma salt_forgets_worker worker round : 0 ≤ worker → 0 ≤ round < 2 ^ 32 → salt worker round = round.
Proof.
  intros Hw Hr. unfold salt. apply Z.bits_inj'. intros n Hn. destruct (Z.lt_ge_cases n 32) as [H|H].
  - rewrite Z.mod_pow2_bits_low, Z.lor_spec, Z.mod_pow2_bits_low, Z.shiftl_spec_low by lia. done.
  - rewrite Z.mod_pow2_bits_high by lia. symmetry. destruct (Z.eq_dec round 0) as [->|]; [apply Z.bits_0|].
    apply Z.bits_above_log2; [lia|]. apply Z.lt_le_trans with 32; [|lia]. apply Z.log2_lt_pow2; lia.
Qed.
Theorem stress_agents_collide `{Hex} worker other round chunk :
  0 ≤ worker → 0 ≤ other → 0 ≤ round < 2 ^ 32 →
  stress_payloads (salt worker round) chunk = stress_payloads (salt other round) chunk ∧
  stress_agent (worker + 256) = stress_agent worker.
Proof.
  intros Hw Ho Hr. rewrite !salt_forgets_worker by done. split; [done|]. unfold stress_agent, agent_byte.
  change (2 ^ 8) with 256. do 3 f_equal. by replace (worker + 256) with (worker + 1 * 256) by lia; rewrite Z.mod_add.
Qed.

(** ** Counting *)
Section Counting.
Context {N Value : Type} `{!StressNode N Value, !Hex}.
Abbreviation St := (N * Tally)%type.
Abbreviation SM := (ST St ()).

(** As many errors as before and [k] more at most. *)
Definition bumped (k : Z) (ta ta' : Tally) : Prop :=
  lookup_ms ta' = lookup_ms ta ∧ put_ms ta' = put_ms ta ∧ bind_ms ta' = bind_ms ta ∧ get_ms ta' = get_ms ta ∧
  ta_errors ta ≤ ta_errors ta' ≤ ta_errors ta + k.
(** Room for the errors of a round. *)
Definition roomy (ta : Tally) (k : Z) : Prop := 0 ≤ ta_errors ta ∧ ta_errors ta + k < 2 ^ 64.
Lemma wp_ask req Q R (st : St) : (∀ n r, Q r (n, st.2)) → wp (ask req) Q R st.
Proof. intros HQ. destruct st as [n ta]. unfold wp, ask. destruct (sn_send req n). apply HQ. Qed.
Lemma wp_clock Q R (st : St) : (∀ t, Q t st) → wp clock Q R st.
Proof. intros HQ. destruct st as [n ta]. apply HQ. Qed.
Lemma wp_count_error Q R (st : St) :
  roomy st.2 1 → (∀ ta, bumped 1 st.2 ta → ta_errors ta = ta_errors st.2 + 1 → Q () (st.1, ta)) → wp count_error Q R st.
Proof.
  destruct st as [n ta]. intros [H1 H2] HQ. unfold wp, count_error. cbn in *.
  assert (u64_add (ta_errors ta) 1 = ta_errors ta + 1) as E by (unfold u64_add; rewrite Z.mod_small; lia).
  apply HQ; [|done]. repeat split; cbn; lia.
Qed.
Lemma chain_keys_counts chunks : ∀ keys (st : St), wp (chain_keys chunks keys) (λ _ st', st'.2 = st.2) (λ _ _, False) st.
Proof.
  induction chunks as [|c chunks IH]; intros keys st; cbn [chain_keys]; [by apply wp_ret|].
  apply wp_bind, wp_ask. intros n [[v|]|]; [|by apply wp_ret..].
  eapply wp_mono; [apply IH| |]; cbn; naive_solver.
Qed.
Lemma fetch_each_counts ids : ∀ st : St, roomy st.2 (zlen ids) →
  wp (fetch_each ids) (λ _ st', bumped (zlen ids) st.2 st'.2) (λ _ _, False) st.
Proof.
  induction ids as [|id ids IH]; intros st Hr; cbn [fetch_each].
  { apply wp_ret. repeat split; zl. }
  pose proof (zlen_nonneg ids). rewrite zlen_cons in Hr |- *. destruct Hr as [R1 R2].
  apply wp_bind, wp_ask. intros n [r|]; cbn [option_bind].
  - apply wp_bind, wp_ret. eapply wp_mono; [apply IH|..]; cbn; [split; cbn; lia| |done].
    intros _ st' (A & B & C & D & E). cbn in *. repeat split; try done; lia.
  - apply wp_bind, wp_count_error; [split; cbn; lia|]. intros ta (A1 & B1 & C1 & D1 & E1) E2. cbn in *.
    eapply wp_mono; [apply IH|..]; cbn; [split; cbn; lia| |done].
    intros _ st' (A & B & C & D & E). cbn in *. repeat split; try congruence; lia.
Qed.

(** One sample of each kind, two lookups; or one error and no sample. *)
Definition sampled (ta ta' : Tally) : Prop :=
  length (lookup_ms ta') = (2 + length (lookup_ms ta))%nat ∧ length (put_ms ta') = S (length (put_ms ta)) ∧
  length (bind_ms ta') = S (length (bind_ms ta)) ∧ length (get_ms ta') = S (length (get_ms ta)) ∧
  ta_errors ta ≤ ta_errors ta' ≤ ta_errors ta + 4.
Definition abandoned (ta ta' : Tally) : Prop := bumped 1 ta ta' ∧ ta_errors ta' = ta_errors ta + 1.
Lemma abandon_counts {A} (st : St) ta (Q : A → St → Prop) :
  st.2 = ta → roomy ta 4 → wp abandon Q (λ _ st', abandoned ta st'.2) st.
Proof.
  intros <- [R1 R2]. apply wp_bind, wp_count_error; [split; lia|]. intros ta' Hb E. by apply wp_throw.
Qed.
Lemma round_counts worker chunk round (st : St) :
  8 ≤ chunk → roomy st.2 4 →
  wp (stress_round worker chunk round) (λ _ st', sampled st.2 st'.2) (λ _ st', abandoned st.2 st'.2) st.
Proof.
  intros Hc Hr. apply wp_bind. eapply wp_mono; [apply chain_keys_counts| |done]. intros [keys|] st1 E1; [|by apply abandon_counts].
  destruct (_ =? 3); cbn [negb]; [|by apply abandon_counts].
  apply wp_bind, wp_clock. intros t1. apply wp_bind, wp_ask. intros n1 _. apply wp_bind, wp_clock. intros t2. cbn zeta.
  rewrite (proj2 (Z.ltb_ge chunk 8)) by lia. apply wp_bind, wp_ret. apply wp_bind, wp_clock. intros t3.
  apply wp_bind, wp_ask. intros n2 [[v|]|]; [|by apply abandon_counts..].
  apply wp_bind, wp_clock. intros t4. destruct (zlen (sn_ids v) =? 3) eqn:E3; cbn [negb]; [|by apply abandon_counts].
  apply Z.eqb_eq in E3. apply wp_bind, wp_clock. intros t5. apply wp_bind, wp_ask. intros n3 r.
  apply wp_bind. eapply (wp_mono _ (λ _ st', bumped 1 st.2 st'.2) _ (λ _ _, False)); [| |done].
  { cbn. destruct Hr. destruct r as [r|]; [apply wp_ret; cbn; rewrite E1; repeat split; lia|].
    apply wp_count_error; cbn; rewrite E1; [split; lia|done]. }
  intros _ st2 Hb. cbn in Hb.
  do 2 (apply wp_bind, wp_clock; intros ?). apply wp_bind, wp_ask. intros n4 _. do 2 (apply wp_bind, wp_clock; intros ?).
  cbn zeta. cbn [snd]. apply wp_bind. destruct Hr as [R1 R2], Hb as (A1 & B1 & C1 & D1 & F1).
  eapply wp_mono; [apply fetch_each_counts; split; cbn; lia| |done]. intros _ [n5 ta5] (A2 & B2 & C2 & D2 & F2). cbn in *.
  apply wp_bind, wp_clock. intros ?. unfold wp, record_round, sampled. cbn. rewrite !length_app, A2, B2, C2, D2, A1, B1, C1, D1. cbn.
  repeat split; lia.
Qed.

(** What [j] rounds add: [d] complete ones, and errors for the others. *)
Definition accounted (j : nat) (ta0 ta : Tally) : Prop := ∃ d, (d ≤ j)%nat ∧
  length (put_ms ta) = (d + length (put_ms ta0))%nat ∧ length (lookup_ms ta) = (2 * d + length (lookup_ms ta0))%nat ∧
  length (bind_ms ta) = (d + length (bind_ms ta0))%nat ∧ length (get_ms ta) = (d + length (get_ms ta0))%nat ∧
  Z.of_nat j - Z.of_nat d ≤ ta_errors ta - ta_errors ta0 ≤ 4 * Z.of_nat j.
Lemma rounds_accounted worker chunk j : 8 ≤ chunk → ∀ ta0 n round, 0 ≤ ta_errors ta0 → ta_errors ta0 + 4 * Z.of_nat j < 2 ^ 64 →
  ∃ n' ta, stress_rounds worker chunk round j (n, ta0) = ((n', ta), Ok ()) ∧ accounted j ta0 ta.
Proof.
  intros Hc. induction j as [|j IH]; intros ta0 n round He Hj; cbn [stress_rounds].
  { exists n, ta0. split; [done|]. exists 0%nat. split_and!; lia. }
  pose proof (round_counts worker chunk (u64_add round 1) (n, ta0) Hc ltac:(split; cbn; lia)) as Hr. unfold wp in Hr.
  destruct (stress_round _ _ _ _) as [[n1 ta1] [[]|[]|]]; [| |done]; cbn in Hr.
  - destruct Hr as (S1 & S2 & S3 & S4 & S5).
    destruct (IH ta1 n1 (u64_add round 1)) as (n' & ta & E & d & Hd & H1 & H2 & H3 & H4 & H5); [lia|lia|].
    exists n', ta. split; [done|]. exists (S d). split_and!; lia.
  - destruct Hr as ((A & B & C & D & _) & Ee).
    destruct (IH ta1 n1 (u64_add round 1)) as (n' & ta & E & d & Hd & H1 & H2 & H3 & H4 & H5); [lia|lia|].
    exists n', ta. split; [done|]. exists d. rewrite A, B, C, D in *. split_and!; lia.
Qed.
Lemma agents_accounted chunk_kb rounds : 8 ≤ u64_mul chunk_kb 1024 → ∀ worker ta0 n, 0 ≤ ta_errors ta0 →
  ta_errors ta0 + 4 * Z.of_nat (sum_list rounds) < 2 ^ 64 →
  accounted (sum_list rounds) ta0 (stress_agents worker chunk_kb rounds (n, ta0)).2.
Proof.
  intros Hc. induction rounds as [|k rounds IH]; intros worker ta0 n He Hs; cbn [stress_agents].
  { exists 0%nat. cbn. split_and!; lia. }
  change (sum_list (k :: rounds)) with (k + sum_list rounds)%nat in *.
  unfold stress_worker, ask. destruct (sn_send _ n) as [n1 r1].
  destruct (rounds_accounted worker (u64_mul chunk_kb 1024) k Hc ta0 n1 0) as (n2 & ta1 & E & d1 & Hd1 & A1 & A2 & A3 & A4 & A5); [lia|lia|].
  rewrite E. cbn [fst]. destruct (IH (worker + 1) ta1 n2) as (d2 & Hd2 & B1 & B2 & B3 & B4 & B5); [lia|lia|].
  exists (d1 + d2)%nat. split_and!; lia.
Qed.
(** Nothing is lost in the counts.  Whatever the node answers, with chunks of
    at least eight bytes every agent runs every round to its end or gives it
    up; each round that the report shows has one sample of every kind and two
    lookups, and every other round is among the errors. *)
Theorem stress_accounts_rounds base chunk_kb rounds n n' ta :
  8 ≤ u64_mul chunk_kb 1024 → 4 * Z.of_nat (sum_list rounds) < 2 ^ 64 → stress base chunk_kb rounds n = (n', Ok ta) →
  length (lookup_ms ta) = (2 * length (put_ms ta))%nat ∧ length (bind_ms ta) = length (put_ms ta) ∧
  length (get_ms ta) = length (put_ms ta) ∧ (length (put_ms ta) ≤ sum_list rounds)%nat ∧
  Z.of_nat (sum_list rounds) - zlen (put_ms ta) ≤ ta_errors ta.
Proof.
  intros Hc Hk E. unfold stress in E. destruct (sn_stats _ n) as [n1 [[]|e|]]; [|done..].
  destruct (agents_accounted chunk_kb rounds Hc 0 no_samples n1) as (d & Hd & H1 & H2 & H3 & H4 & H5); [done|cbn; lia|].
  destruct (stress_agents 0 chunk_kb rounds (n1, no_samples)) as [n2 ta2]. injection E as _ <-. cbn in *. unfold zlen.
  split_and!; lia.
Qed.
End Counting.
