(* ===== verification/Stats.v ===== *)
(** * Statistics, metrics, probes and routes ([crates/kalpakdb/src/server.rs])

    [/v1/stats] and its stream, the Prometheus text of [/metrics], the health
    probes, and the tables of routes.  The metrics of [openraft] are a
    parameter ([RaftView]); JSON values are trees whose objects keep the order
    of the code.  The counters of [AppState] that no other component reads are
    fields of [AppState] here. *)

From S2P Require Import Prelude Core Signing Metadata Leases StateMachine StateInvariant ControlPlane Lifecycle Durability Io Segment Store StoreInvariant StorePut StoreTheorems StoreOpen StoreCompact Tiered TieredCold Retention Scrub OnlineScrub ScrubTask Codecs LogStore Manifest Repair Api Upload Reclamation.
From S2P Require Front Cli.
From Stdlib Require Import Strings.Byte Ascii.
#[local] Open Scope Z_scope.

Inductive Json :=
| JNull
| JBool (b : bool)
| JNum (n : Z)
| JStr (s : string)
| JArr (l : list Json)
| JObj (l : list (string * Json)).
Definition json_opt {A} (f : A → Json) (o : option A) : Json := match o with Some a => f a | None => JNull end.

(** ** The metrics of the consensus library *)
Record RaftMetrics := MkRaftMetrics {
  rm_id : NodeId;
  rm_current_leader : option NodeId;
  rm_current_term : Z;
  rm_last_log_index : option Z;
  rm_last_applied : option LogId;
  rm_membership : Membership;
  rm_replication : option (list (NodeId * option LogId)) }.
Class RaftView (W : Type) := raft_metrics : W → RaftMetrics.
Definition applied_at (m : RaftMetrics) : option Z := log_index <$> rm_last_applied m.
(** [replication_state]: the lag view of a leader. *)
Definition replication_state (m : RaftMetrics) : option (list (NodeId * option Z)) :=
  option_map (λ l, List.map (λ p : NodeId * option LogId, (p.1, option_map log_index p.2)) l) (rm_replication m).

Record AppState (W S C : Type) := MkApp {
  ap_node : NodeState W S C;
  ap_gc_runs : Z;
  ap_gc_blocks_dropped : Z;
  ap_gc_bytes_reclaimed : Z;
  ap_replica_pushes : Z;
  ap_online_scrub : Metrics }.
Arguments MkApp {W S C}.
Arguments ap_node {W S C}.
Arguments ap_gc_runs {W S C}.
Arguments ap_gc_blocks_dropped {W S C}.
Arguments ap_gc_bytes_reclaimed {W S C}.
Arguments ap_replica_pushes {W S C}.
Arguments ap_online_scrub {W S C}.

(** ** Parts of the payload *)
Definition scrub_snapshot (m : Metrics) : Json :=
  JObj [("running", JBool (mt_running m)); ("bytes_read", JNum (mt_bytes m)); ("verified", JNum (mt_verified m));
        ("physical_findings", JNum (mt_findings m)); ("generation_resets", JNum (mt_resets m));
        ("foreground_yields", JNum (mt_yields m)); ("errors", JNum (mt_errors m))].
Definition retention_snapshot (s : RetState) : Json :=
  JObj [("guarded_blocks", JNum (zsize (rt_ids s))); ("journal_bytes", JNum (rt_bytes s));
        ("max_guarded_blocks", JNum MAX_IDS); ("max_journal_bytes", JNum MAX_BYTES);
        ("write_failed", JBool (rt_failed s)); ("automatic_expiry", JBool false);
        ("gc_enabled", JBool false); ("gc_blocked_reason", JStr GC_REASON)].
Definition lease_stats (l : LeaseStatusCounts) : Json :=
  JObj [("total", JNum (Leases.total l)); ("pending", JNum (Leases.pending l)); ("committed", JNum (n_committed l));
        ("cancelled", JNum (n_cancelled l)); ("expired", JNum (n_expired l)); ("current_tick", JNum (current_tick l));
        ("expiry_markers", JNum (expiry_markers l)); ("capacity", JNum MAX_LEASES);
        ("expiry_mode", JStr "opt_in_logical_ticks"); ("automatic_expiry", JBool true); ("gc_enabled", JBool false)].
Definition data_stats (cold : StoreStats) (tier : TierStats) : Json :=
  JObj [("blocks", JNum (st_blocks cold)); ("segments", JNum (st_segments cold)); ("bytes_on_disk", JNum (st_bytes_on_disk cold));
        ("warm_blocks", JNum (ts_warm_blocks tier)); ("warm_bytes", JNum (ts_warm_bytes tier));
        ("warm_budget", JNum (ts_warm_budget tier)); ("pinned_blocks", JNum (ts_pinned_blocks tier));
        ("pinned_bytes", JNum (ts_pinned_bytes tier)); ("pinned_budget", JNum (ts_pinned_budget tier));
        ("hits", JNum (ts_hits tier)); ("misses", JNum (ts_misses tier))].
(** The consensus fields that nodes and witnesses share. *)
Definition control_fields (raft : RaftMetrics) (m : MetadataState) : list (string * Json) :=
  [("node_id", JNum (rm_id raft)); ("leader", json_opt JNum (rm_current_leader raft)); ("term", JNum (rm_current_term raft));
   ("last_log_index", json_opt JNum (rm_last_log_index raft)); ("last_applied", json_opt JNum (applied_at raft));
   ("agents", JNum (agent_count m)); ("bindings", JNum (binding_count m))].
(** Keys of a map that are integers are written as text. *)
Definition replication_json (l : list (NodeId * option Z)) : Json :=
  JObj ((λ p, (Cli.number p.1, json_opt JNum p.2)) <$> l).

(** ** Prometheus text *)
Record Sample := MkSample { sa_name : string; sa_kind : string; sa_help : string; sa_value : Z }.
Definition NEWLINE : string := String "010"%char EmptyString.
Definition sample_text (m : Sample) : string :=
  "# HELP kalpak_" +:+ sa_name m +:+ " " +:+ sa_help m +:+ NEWLINE +:+
  "# TYPE kalpak_" +:+ sa_name m +:+ " " +:+ sa_kind m +:+ NEWLINE +:+
  "kalpak_" +:+ sa_name m +:+ " " +:+ Cli.number (sa_value m) +:+ NEWLINE.
Definition exposition (l : list Sample) : string := String.concat EmptyString (sample_text <$> l).

Section Stats.
Context {W V F C : Type} `{!Raft W, !RaftView W, !SegmentIo V F, !Blake3, !HashOrder, !Moka C, !Hex}.
Abbreviation Tier := (TieredStore (V * BlockStore F) C).
Abbreviation App := (AppState W (V * BlockStore F) C).

Definition set_tier (t : Tier) (s : App) : App :=
  MkApp (set_store t (ap_node s)) (ap_gc_runs s) (ap_gc_blocks_dropped s) (ap_gc_bytes_reclaimed s) (ap_replica_pushes s)
    (ap_online_scrub s).
(** [cold().stats()] and [tier_stats()]. *)
Definition observe_tiers : ST App Error (StoreStats * TierStats) := λ s,
  let (t, r) := on_cold Store.stats (nd_store (ap_node s)) in
  match r with
  | Ok c => let (t, x) := tier_stats t in (set_tier t s, Ok (c, x))
  | Err e => (set_tier t s, Err e)
  | Panic => (set_tier t s, Panic)
  end.
Definition with_app {A} (f : App → A) : ST App Error A := λ s, (s, Ok (f s)).
Definition meta (s : App) : MetadataState := sm_state (nd_raft (ap_node s)).
Definition raft_of (s : App) : RaftMetrics := raft_metrics (nd_raft (ap_node s)).

Definition payload_of (s : App) (leases : LeaseStatusCounts) (cold : StoreStats) (tier : TierStats) : Json :=
  let raft := raft_of s in
  JObj [("data_plane", data_stats cold tier);
        ("control_plane", JObj (control_fields raft (meta s) ++
           [("peers", JArr (JStr <$> peer_addrs (rm_id raft) (rm_membership raft)));
            ("replication", json_opt replication_json (replication_state raft))]));
        ("gc", JObj [("runs", JNum (ap_gc_runs s)); ("blocks_dropped", JNum (ap_gc_blocks_dropped s));
                     ("bytes_reclaimed", JNum (ap_gc_bytes_reclaimed s))]);
        ("repair", JObj [("acknowledged_replication_upload_attempts", JNum (ap_replica_pushes s))]);
        ("online_scrub", scrub_snapshot (ap_online_scrub s));
        ("upload_retention", retention_snapshot (nd_ret (ap_node s)));
        ("replicated_leases", lease_stats leases)].
Definition stats_payload : ST App Error Json := λ s,
  match upload_lease_status (meta s) with
  | None => (s, Panic)
  | Some leases => (observe_tiers ≫= λ seen, with_app (λ s, payload_of s leases seen.1 seen.2)) s
  end.
Definition stats (read_token authorization : option string) : ST App ApiError Json := λ s,
  match check_read_token read_token authorization None with
  | Ok _ => let (s, r) := stats_payload s in (s, map_err api_of_error r)
  | Err e => (s, Err e)
  | Panic => (s, Panic)
  end.

(** The stream: a payload per second, until the socket refuses one.  The
    schedule is what happens to the node before each tick, and whether the
    send succeeds. *)
Fixpoint stream_stats (schedule : list ((App → App) * bool)) (s : App) : App * list Json :=
  match schedule with
  | [] => (s, [])
  | (f, sent) :: schedule =>
      match stats_payload (f s) with
      | (s, Ok payload) =>
          if sent then let (s, l) := stream_stats schedule s in (s, payload :: l) else (s, [])
      | (s, _) => (s, [])
      end
  end.
Definition ws_stats (read_token authorization token : option string) (schedule : list ((App → App) * bool))
    : ST App ApiError (list Json) := λ s,
  match check_read_token read_token authorization token with
  | Ok _ => let (s, l) := stream_stats schedule s in (s, Ok l)
  | Err e => (s, Err e)
  | Panic => (s, Panic)
  end.

(** *** Metrics *)
Definition metrics_table (s : App) (cold : StoreStats) (tier : TierStats) : list Sample :=
  let raft := raft_of s in
  [MkSample "blocks" "gauge" "Content-addressed blocks on this node" (st_blocks cold);
   MkSample "segments" "gauge" "Segment files on disk" (st_segments cold);
   MkSample "disk_bytes" "gauge" "Bytes on disk across segments" (st_bytes_on_disk cold);
   MkSample "warm_blocks" "gauge" "Blocks resident in the warm tier" (ts_warm_blocks tier);
   MkSample "warm_bytes" "gauge" "Warm tier bytes in use" (ts_warm_bytes tier);
   MkSample "warm_budget_bytes" "gauge" "Warm tier byte budget" (ts_warm_budget tier);
   MkSample "pinned_blocks" "gauge" "Importance-pinned blocks (refcount >= 2)" (ts_pinned_blocks tier);
   MkSample "pinned_bytes" "gauge" "Importance-pinned bytes" (ts_pinned_bytes tier);
   MkSample "warm_hits_total" "counter" "Warm tier hits" (ts_hits tier);
   MkSample "warm_misses_total" "counter" "Warm tier misses (disk reads)" (ts_misses tier);
   MkSample "gc_runs_total" "counter" "Compaction runs" (ap_gc_runs s);
   MkSample "gc_blocks_dropped_total" "counter" "Blocks swept by GC" (ap_gc_blocks_dropped s);
   MkSample "gc_bytes_reclaimed_total" "counter" "Bytes reclaimed by GC" (ap_gc_bytes_reclaimed s);
   MkSample "raft_term" "gauge" "Current Raft term" (rm_current_term raft);
   MkSample "raft_last_log_index" "gauge" "Last Raft log index" (default 0 (rm_last_log_index raft));
   MkSample "raft_last_applied" "gauge" "Last applied Raft log index" (default 0 (applied_at raft));
   MkSample "raft_is_leader" "gauge" "1 when this node is the Raft leader"
     (Z.b2z (bool_decide (rm_current_leader raft = Some (rm_id raft))));
   MkSample "agents" "gauge" "Registered agent identities" (agent_count (meta s));
   MkSample "bindings" "gauge" "Prefix bindings in the state machine" (binding_count (meta s))].
Definition metrics : ST App Error string :=
  observe_tiers ≫= λ seen, with_app (λ s, exposition (metrics_table s seen.1 seen.2)).
End Stats.

(** ** Probes and the witness *)
Definition healthz : Z * string := (200, "ok").
Definition readyz {W} `{!RaftView W} (w : W) : Z * string :=
  match rm_current_leader (raft_metrics w) with Some _ => (200, "ready") | None => (503, "no leader") end.
Definition witness_stats {W} `{!Raft W, !RaftView W} (w : W) : Json :=
  JObj [("role", JStr "witness"); ("control_plane", JObj (control_fields (raft_metrics w) (sm_state w)))].

(** ** Routes *)
Inductive Handler :=
| HRaftAppend | HRaftVote | HRaftSnapshot | HClusterInit | HClusterAddLearner | HClusterPromote | HRequireReplicas
| HHealthz | HReadyz | HPutBlock | HPutBlocksBatch | HGetBlock | HRegisterAgent | HMakeKey | HBindPrefix | HBindChain
| HLeaseBegin | HLeaseCommit | HLeaseCancel | HLeaseRenew | HLookupPrefix | HStats | HReclamationPlan
| HReclamationValidate | HMetrics | HWsStats | HAdminCompact | HAdminBackup | HBlockPresence | HListAgents
| HAgentBindings | HWitnessStats.
Inductive Method := GET | POST.
(** A path is a list of parts; [None] stands for [{id}]. *)
Abbreviation Route := (Method * list (option string) * Handler)%type.
Definition raft_router : list Route :=
  [(POST, [Some "raft"; Some "append"], HRaftAppend);
   (POST, [Some "raft"; Some "vote"], HRaftVote);
   (POST, [Some "raft"; Some "snapshot"], HRaftSnapshot);
   (POST, [Some "v1"; Some "cluster"; Some "init"], HClusterInit);
   (POST, [Some "v1"; Some "cluster"; Some "add-learner"], HClusterAddLearner);
   (POST, [Some "v1"; Some "cluster"; Some "promote"], HClusterPromote);
   (POST, [Some "v1"; Some "cluster"; Some "replica-requirements"], HRequireReplicas);
   (GET, [Some "healthz"], HHealthz);
   (GET, [Some "readyz"], HReadyz)].
Definition block_ingest : list Route :=
  [(POST, [Some "v1"; Some "blocks"], HPutBlock);
   (POST, [Some "v1"; Some "blocks"; Some "batch"], HPutBlocksBatch)].
Definition router : list Route :=
  [(GET, [Some "v1"; Some "blocks"; None], HGetBlock);
   (POST, [Some "v1"; Some "agents"], HRegisterAgent);
   (POST, [Some "v1"; Some "keys"], HMakeKey);
   (POST, [Some "v1"; Some "manifest"; Some "bind"], HBindPrefix);
   (POST, [Some "v1"; Some "manifest"; Some "bind-chain"], HBindChain);
   (POST, [Some "v1"; Some "leases"; Some "begin"], HLeaseBegin);
   (POST, [Some "v1"; Some "leases"; Some "commit"], HLeaseCommit);
   (POST, [Some "v1"; Some "leases"; Some "cancel"], HLeaseCancel);
   (POST, [Some "v1"; Some "leases"; Some "renew"], HLeaseRenew);
   (POST, [Some "v1"; Some "manifest"; Some "lookup"], HLookupPrefix);
   (GET, [Some "v1"; Some "stats"], HStats);
   (GET, [Some "v1"; Some "reclamation"; None], HReclamationPlan);
   (GET, [Some "v1"; Some "reclamation"; None; Some "validate"], HReclamationValidate);
   (GET, [Some "metrics"], HMetrics);
   (GET, [Some "v1"; Some "ws"], HWsStats);
   (POST, [Some "v1"; Some "admin"; Some "compact"], HAdminCompact);
   (GET, [Some "v1"; Some "admin"; Some "backup"], HAdminBackup);
   (GET, [Some "v1"; Some "admin"; Some "blocks"; None; Some "presence"], HBlockPresence);
   (GET, [Some "v1"; Some "agents"; Some "list"], HListAgents);
   (GET, [Some "v1"; Some "agents"; None; Some "bindings"], HAgentBindings)] ++ block_ingest ++ raft_router.
Definition witness_router : list Route := [(GET, [Some "v1"; Some "stats"], HWitnessStats)] ++ raft_router.
