(* ===== verification/StatsTheorems.v ===== *)
(** * What a node reports about itself

    The text of [/metrics] scrapes back to the numbers of [/v1/stats], and the
    route tables agree with the boundary of the public listener. *)

From S2P Require Import Prelude Core Signing Metadata Leases StateMachine StateInvariant ControlPlane Lifecycle Durability Io Segment Store StoreInvariant StorePut StoreTheorems StoreOpen StoreCompact Tiered TieredCold Retention Scrub OnlineScrub ScrubTask Codecs LogStore Manifest Repair Api Upload Reclamation.
From S2P Require Front Cli CliTheorems UploadTheorems.
From S2P Require Import Stats.
From Stdlib Require Import Strings.Byte Ascii.
#[local] Open Scope Z_scope.

(** ** Scraping the text *)
Fixpoint split_on (c : byte) (l : bytes) : list bytes :=
  match l with
  | [] => [[]]
  | b :: l =>
      if bool_decide (b = c) then [] :: split_on c l
      else match split_on c l with cur :: parts => (b :: cur) :: parts | [] => [[b]] end
  end.
(** Name and value of a line that is not a comment. *)
Definition sample_of (line : bytes) : option (bytes * bytes) :=
  match line with
  | [] | x23 :: _ => None
  | _ => match split_on x20 line with [name; value] => Some (name, value) | _ => None end
  end.
Definition scrape (text : string) : list (bytes * bytes) := omap sample_of (split_on x0a (str_bytes text)).
Definition metric_value (text name : string) : option Z :=
  match list_find (λ p, p.1 = str_bytes ("kalpak_" +:+ name)) (scrape text) with
  | Some (_, (_, v)) => match Cli.parse_int u64_max (String.string_of_list_byte v) with Ok n => Some n | _ => None end
  | None => None
  end.

Lemma split_on_end c a : c ∉ a → split_on c a = [a].
Proof.
  induction a as [|b a IH]; intros Hn; [done|]. apply not_elem_of_cons in Hn as [Hb Hn]. cbn [split_on].
  rewrite bool_decide_eq_false_2 by congruence. by rewrite IH.
Qed.
Lemma split_on_part c a l : c ∉ a → split_on c (a ++ c :: l) = a :: split_on c l.
Proof.
  induction a as [|b a IH]; intros Hn; cbn [split_on app]; [by rewrite bool_decide_eq_true_2|].
  apply not_elem_of_cons in Hn as [Hb Hn]. rewrite bool_decide_eq_false_2 by congruence. by rewrite IH.
Qed.

(** Names without blanks, and no line breaks in the texts. *)
Definition sample_ok (m : Sample) : bool :=
  bool_decide (x0a ∉ str_bytes (sa_name m)) && bool_decide (x20 ∉ str_bytes (sa_name m)) &&
  bool_decide (x0a ∉ str_bytes (sa_help m)) && bool_decide (x0a ∉ str_bytes (sa_kind m)).
Lemma digits_plain n c : 0 ≤ n → CliTheorems.is_digit c = false → c ∉ str_bytes (Cli.number n).
Proof.
  intros Hn Hc Hin. destruct (CliTheorems.number_digits n Hn) as (l & <- & _ & Hl & _).
  rewrite Forall_forall in Hl. rewrite (Hl c Hin) in Hc. done.
Qed.
Lemma app_empty_r s : s +:+ EmptyString = s.
Proof. induction s as [|c s IH]; [done|]. exact (f_equal (String c) IH). Qed.
Lemma exposition_cons m l : exposition (m :: l) = sample_text m +:+ exposition l.
Proof.
  destruct l as [|m' l].
  - change (sample_text m = sample_text m +:+ EmptyString). by rewrite app_empty_r.
  - change (sample_text m +:+ EmptyString +:+ exposition (m' :: l) = sample_text m +:+ exposition (m' :: l)). done.
Qed.
Lemma no_break a b : x0a ∉ str_bytes a → x0a ∉ str_bytes b → x0a ∉ str_bytes (a +:+ b).
Proof. intros. rewrite CliTheorems.str_bytes_app. by apply not_elem_of_app. Qed.
Lemma scrape_cons m l :
  sample_ok m = true → 0 ≤ sa_value m →
  scrape (exposition (m :: l)) = (str_bytes ("kalpak_" +:+ sa_name m), str_bytes (Cli.number (sa_value m))) :: scrape (exposition l).
Proof.
  unfold sample_ok. rewrite !andb_true_iff, !bool_decide_eq_true. intros [[[H1 H2] H3] H4] Hv.
  pose proof (digits_plain (sa_value m) x0a Hv eq_refl) as D1. pose proof (digits_plain (sa_value m) x20 Hv eq_refl) as D2.
  set (l1 := "# HELP kalpak_" +:+ sa_name m +:+ " " +:+ sa_help m). set (l2 := "# TYPE kalpak_" +:+ sa_name m +:+ " " +:+ sa_kind m).
  set (l3 := "kalpak_" +:+ sa_name m +:+ " " +:+ Cli.number (sa_value m)).
  assert (str_bytes (exposition (m :: l)) =
    str_bytes l1 ++ x0a :: str_bytes l2 ++ x0a :: str_bytes l3 ++ x0a :: str_bytes (exposition l)) as E.
  { rewrite exposition_cons. unfold sample_text, l1, l2, l3. rewrite !CliTheorems.str_bytes_app.
    change (str_bytes NEWLINE) with [x0a]. rewrite <-!app_assoc. done. }
  assert (∀ a, x0a ∉ str_bytes a → ∀ s, x0a ∉ str_bytes s → x0a ∉ str_bytes (s +:+ a)) as Happ by auto using no_break.
  unfold scrape. rewrite E, !split_on_part.
  - cbn [omap list_omap]. assert (sample_of (str_bytes l1) = None) as -> by done. assert (sample_of (str_bytes l2) = None) as -> by done.
    assert (sample_of (str_bytes l3) = Some (str_bytes ("kalpak_" +:+ sa_name m), str_bytes (Cli.number (sa_value m)))) as ->; [|done].
    assert (split_on x20 (str_bytes l3) = [str_bytes ("kalpak_" +:+ sa_name m); str_bytes (Cli.number (sa_value m))]) as E3.
    { unfold l3. rewrite !CliTheorems.str_bytes_app. change (str_bytes " ") with [x20]. rewrite app_assoc. cbn [app].
      rewrite split_on_part, split_on_end by (try apply not_elem_of_app; done || (split; [by apply (bool_decide_unpack _); vm_compute|done])). done. }
    unfold sample_of. rewrite E3. unfold l3. done.
  - repeat apply no_break; try done; apply (bool_decide_unpack _); by vm_compute.
  - repeat apply no_break; try done; apply (bool_decide_unpack _); by vm_compute.
  - repeat apply no_break; try done; apply (bool_decide_unpack _); by vm_compute.
Qed.
Definition sample_value (name : string) (l : list Sample) : option Z :=
  (λ p, sa_value p.2) <$> list_find (λ m, sa_name m = name) l.
(** Scraping a well-formed text gives the values that were written. *)
Lemma metric_value_exposition l name :
  Forall (λ m, sample_ok m = true) l → Forall (λ m, is_u64 (sa_value m)) l →
  metric_value (exposition l) name = sample_value name l.
Proof.
  unfold metric_value, sample_value. induction 1 as [|m l Hm Hl IH]; [done|]. intros [Hv Hvs]%Forall_cons.
  rewrite scrape_cons by (done || apply Hv). cbn [list_find]. specialize (IH Hvs).
  destruct (decide (sa_name m = name)) as [<-|Hn].
  - rewrite !decide_True by done. cbn. unfold str_bytes. rewrite String.string_of_list_byte_of_string.
    by rewrite CliTheorems.parse_number.
  - rewrite decide_False.
    + destruct (list_find _ (scrape _)) as [[i [k v]]|], (list_find _ l) as [[j m']|]; cbn in *; exact IH.
    + cbn. intros E. apply Hn. apply (f_equal String.string_of_list_byte) in E. unfold str_bytes in E.
      rewrite !String.string_of_list_byte_of_string in E. by apply (inj _) in E.
Qed.

(** ** Metrics and statistics agree *)
Fixpoint json_at (path : list string) (j : Json) : option Json :=
  match path with
  | [] => Some j
  | key :: path =>
      match j with
      | JObj l => match list_find (λ p, p.1 = key) l with Some (_, (_, v)) => json_at path v | None => None end
      | _ => None
      end
  end.
(** A number; an absent one counts as zero. *)
Definition json_count (j : Json) : option Z := match j with JNum n => Some n | JNull => Some 0 | _ => None end.
(** The metrics and where the statistics have them. *)
Definition same_numbers : list (string * list string) :=
  [("blocks", ["data_plane"; "blocks"]); ("segments", ["data_plane"; "segments"]);
   ("disk_bytes", ["data_plane"; "bytes_on_disk"]); ("warm_blocks", ["data_plane"; "warm_blocks"]);
   ("warm_bytes", ["data_plane"; "warm_bytes"]); ("warm_budget_bytes", ["data_plane"; "warm_budget"]);
   ("pinned_blocks", ["data_plane"; "pinned_blocks"]); ("pinned_bytes", ["data_plane"; "pinned_bytes"]);
   ("warm_hits_total", ["data_plane"; "hits"]); ("warm_misses_total", ["data_plane"; "misses"]);
   ("gc_runs_total", ["gc"; "runs"]); ("gc_blocks_dropped_total", ["gc"; "blocks_dropped"]);
   ("gc_bytes_reclaimed_total", ["gc"; "bytes_reclaimed"]); ("raft_term", ["control_plane"; "term"]);
   ("raft_last_log_index", ["control_plane"; "last_log_index"]); ("raft_last_applied", ["control_plane"; "last_applied"]);
   ("agents", ["control_plane"; "agents"]); ("bindings", ["control_plane"; "bindings"])].

Section Agreement.
Context {W V F C : Type} `{!Raft W, !RaftView W, !SegmentIo V F, !Blake3, !HashOrder, !Moka C, !Hex}.
Abbreviation App := (AppState W (V * BlockStore F) C).

Lemma table_ok (s : App) cold tier : Forall (λ m, sample_ok m = true) (metrics_table s cold tier).
Proof. by repeat constructor. Qed.
Lemma table_agrees (s : App) leases cold tier name path :
  (name, path) ∈ same_numbers →
  ∃ n, sample_value name (metrics_table s cold tier) = Some n ∧ json_at path (payload_of s leases cold tier) ≫= json_count = Some n.
Proof.
  unfold same_numbers. intros Hin. repeat (apply elem_of_cons in Hin as [[= -> ->]|Hin]; [eexists; split; [reflexivity|]; cbn;
    try (destruct (rm_last_log_index _)); try (destruct (applied_at _)); reflexivity|]).
  by apply elem_of_nil in Hin.
Qed.
Lemma set_tier_reads (t : TieredStore (V * BlockStore F) C) (s : App) cold tier :
  metrics_table (set_tier t s) cold tier = metrics_table s cold tier.
Proof. by destruct s as [[] ? ? ? ? ?]. Qed.

(** [/metrics] reports the numbers of [/v1/stats].  On the same node, if
    both answer and the numbers fit their type, every sample that scraping the
    text finds under one of these names is the number the statistics have at
    the matching place, absent log positions counting as zero; and the sample
    for leadership is 1 exactly if the statistics name this node as leader. *)
Theorem metrics_match_stats (s s1 s2 : App) j text :
  stats_payload s = (s1, Ok j) → metrics s = (s2, Ok text) →
  (∀ cold tier, (observe_tiers s).2 = Ok (cold, tier) → Forall (λ m, is_u64 (sa_value m)) (metrics_table s cold tier)) →
  (∀ name path, (name, path) ∈ same_numbers →
     ∃ n, metric_value text name = Some n ∧ json_at path j ≫= json_count = Some n) ∧
  (metric_value text "raft_is_leader" = Some 1 ↔
   json_at ["control_plane"; "leader"] j = json_at ["control_plane"; "node_id"] j).
Proof.
  unfold stats_payload, metrics, mbind, ST_bind. intros E1 E2 Hn. destruct (upload_lease_status (meta s)) as [leases|]; [|done].
  destruct (observe_tiers s) as [s' [[cold tier]| |]] eqn:Eo; [|done..]. cbn in E1, E2. injection E1 as _ <-. injection E2 as _ <-.
  specialize (Hn cold tier eq_refl). assert (metrics_table s' cold tier = metrics_table s cold tier) as Et.
  { unfold observe_tiers in Eo. destruct (on_cold _ _) as [t [x| |]]; [|done..]. destruct (tier_stats t) as [t' y].
    injection Eo as <- -> ->. apply set_tier_reads. }
  rewrite <-Et in Hn. assert (∀ name, metric_value (exposition (metrics_table s' cold tier)) name =
    sample_value name (metrics_table s' cold tier)) as Ev by (intros; by apply metric_value_exposition, Hn; apply table_ok).
  split.
  - intros name path Hin. rewrite Ev. by apply table_agrees.
  - rewrite Ev. cbn. unfold json_opt. destruct (rm_current_leader (raft_of s')) as [l|].
    + case_bool_decide as Hl; [injection Hl as ->; done|]. cbn. split; [done|]. intros [= ->]. done.
    + rewrite bool_decide_eq_false_2 by done. done.
Qed.
End Agreement.

(** ** Routes *)
(** The paths a route serves; [{id}] is one part that is not empty. *)
Inductive path_of : list (option string) → string → Prop :=
| path_end : path_of [] EmptyString
| path_part part route path : path_of route path → path_of (Some part :: route) ("/" +:+ part +:+ path)
| path_id id route path : str_bytes id ≠ [] → x2f ∉ str_bytes id → path_of route path → path_of (None :: route) ("/" +:+ id +:+ path).
(** Consensus, membership and administration. *)
Definition internal_handler (h : Handler) : bool :=
  match h with
  | HRaftAppend | HRaftVote | HRaftSnapshot | HClusterInit | HClusterAddLearner | HClusterPromote | HRequireReplicas
  | HAdminCompact | HAdminBackup | HBlockPresence => true
  | _ => false
  end.
(** The public listener of a mesh serves every route but those of consensus,
    membership and administration, whatever the identifiers in the path; this
    holds of nodes and witnesses.  No two routes of a table have the same
    method and path, which [axum] would refuse when the router is built. *)
Theorem public_routes_split {A} (next : bool → A) m route h path spoofed :
  (m, route, h) ∈ router ++ witness_router → path_of route path →
  Front.mesh_public_boundary next path spoofed = if negb (internal_handler h) then Some (next false) else None.
Proof.
  intros Hin Hp. unfold Front.mesh_public_boundary. assert (Front.mesh_only path = internal_handler h) as ->; [|by destruct (internal_handler h)].
  unfold router, witness_router, block_ingest, raft_router in Hin. cbn [app] in Hin.
  repeat (apply elem_of_cons in Hin as [[= -> -> ->]|Hin];
    [repeat match goal with H : path_of (_ :: _) _ |- _ => inversion_clear H | H : path_of [] _ |- _ => inversion_clear H end;
     vm_compute; reflexivity|]).
  by apply elem_of_nil in Hin.
Qed.
#[local] Instance Method_eq_dec : EqDecision Method.
Proof. solve_decision. Defined.
Lemma routes_distinct : NoDup (fst <$> router) ∧ NoDup (fst <$> witness_router).
Proof. split; apply (bool_decide_unpack _); by vm_compute. Qed.

(** ** Witness: a leader that has applied nothing yet *)
Module StatsExamples.
#[local] Existing Instances toy_blake3 toy_hex toy_order map_cache toy_binding_key local_raft.
#[local] Instance toy_view : RaftView MetadataState := λ _,
  MkRaftMetrics 1 (Some 1) 3 (Some 7) None (MkMembership [] {[1 := "self"]}) None.
Abbreviation ToyApp := (AppState MetadataState (Disk * BlockStore N) (gmap BlockId bytes)).
Definition app0 : ToyApp := MkApp UploadTheorems.UploadExamples.node0 0 0 0 0 fresh_metrics.
Definition stats_run : ToyApp * res Error Json := stats_payload app0.
Definition metrics_run : ToyApp * res Error string := metrics app0.
Definition text0 : string := match metrics_run.2 with Ok text => text | _ => EmptyString end.

Lemma metrics_match_stats_witness :
  metric_value text0 "blocks" = Some 1 ∧ metric_value text0 "raft_last_applied" = Some 0 ∧ metric_value text0 "raft_is_leader" = Some 1.
Proof.
  assert (is_ok stats_run.2 = true ∧ is_ok metrics_run.2 = true) as [H1 H2] by by vm_compute.
  assert (match stats_run.2 with
          | Ok j => json_at ["data_plane"; "blocks"] j ≫= json_count = Some 1 ∧
              json_at ["control_plane"; "last_applied"] j ≫= json_count = Some 0 ∧
              json_at ["control_plane"; "leader"] j = json_at ["control_plane"; "node_id"] j
          | _ => False
          end) as Hj by by vm_compute.
  unfold text0. destruct stats_run as [s1 [j| |]] eqn:E1; [|discriminate H1..].
  destruct metrics_run as [s2 [text| |]] eqn:E2; [|discriminate H2..].
  destruct Hj as (J1 & J2 & J3).
  destruct (metrics_match_stats app0 s1 s2 j text E1 E2) as [Hm Hl].
  { intros cold tier Eo.
    assert (match (observe_tiers app0).2 with
            | Ok (c, t) => forallb (λ m, (0 <=? sa_value m) && (sa_value m <=? u64_max)) (metrics_table app0 c t)
            | _ => false
            end = true) as Hb by by vm_compute.
    rewrite Eo in Hb. apply Forall_forall. intros m Hin%list_elem_of_In. rewrite forallb_forall in Hb.
    specialize (Hb m Hin). apply andb_true_iff in Hb as [B1%Z.leb_le B2%Z.leb_le]. by split. }
  change (metric_value text "blocks" = Some 1 ∧ metric_value text "raft_last_applied" = Some 0 ∧ metric_value text "raft_is_leader" = Some 1).
  split_and!.
  - destruct (Hm "blocks" ["data_plane"; "blocks"]) as (n & -> & En); [by left|]. rewrite J1 in En. symmetry. exact En.
  - destruct (Hm "raft_last_applied" ["control_plane"; "last_applied"]) as (n & -> & En).
    { apply (bool_decide_unpack _). by vm_compute. }
    rewrite J2 in En. symmetry. exact En.
  - apply Hl. exact J3.
Defined.
End StatsExamples.
